(* ===== verification/_CoqProject ===== *)
-Q . S2P
Prelude.v
ErrorCode.v
Text.v
CpuTopology.v
MathUtils.v
Bcrypt.v
WireHeader.v
RingBuffer.v
FrameCodec.v
Protocol.v
ConnectionHandler.v
TimingWheel.v
SlabAllocator.v
Arena.v
Session.v
SessionManager.v
Server.v
Dispatcher.v
SpscQueue.v
MpscQueue.v
CoreEngine.v
CrossCoreCall.v
Listener.v
Double.v
SlidingWindow.v
PerIpRateLimiter.v
RedisRateLimiter.v
CircuitBreaker.v
AdapterBase.v
PayloadPool.v
Metrics.v
Config.v
PgPool.v
PgConnection.v
RedisMultiplexer.v
RedisAdapter.v
KafkaEnvelope.v
KafkaAdapter.v
RouteTable.v
PubSub.v
GatewayState.v
GatewayPipeline.v
GatewayConfig.v
GatewayService.v
ServiceBase.v
AuthService.v
ChatService.v
