(* ===== verification/Prelude.v ===== *)
(** * Apex Pipeline: a verification development

    Apex Pipeline is a C++23 server framework (src/apex_core), a set of shared
    libraries for rate limiting, Kafka and adapters (src/apex_shared) and services
    built on both (src/apex_services). A server runs one event loop per core; a
    session and the tables that serve it belong to one core, and cores exchange
    messages through lock-free queues. A client's bytes become frames, frames are
    dispatched to handlers, the gateway admits them and produces them to Kafka, and
    responses and broadcasts travel back to the sessions.

    ** Where things are

    Foundations: this file (C++ results and exceptions, machine integers, byte
    strings), [ErrorCode], [MathUtils] (next_power_of_2), [Double] (binary64
    rounding), [Text] (decimal numbers and C strings).

    Start-up: [CpuTopology] (cpu_topology.cpp, from the text of the files of sysfs),
    [Config] (config.cpp, config_utils.cpp, secure_string.cpp, over a class for the
    documents of toml++), [Server] (server.cpp: construction, pinning, start-up, the
    stop protocol and shutdown), [Metrics] (metrics_registry.cpp and the handlers of
    the metrics and admin servers).

    Receiving: [WireHeader] and [RingBuffer] (wire_header.cpp, ring_buffer.cpp), on
    which [FrameCodec] (frame_codec.cpp) decodes frames; [Protocol] states what a
    protocol promises ([ProtocolLaws]) and gives TCP and WebSocket as instances;
    [ConnectionHandler] proves the read loop against those laws and against an
    interface of sessions, which [Dispatcher] (message_dispatcher.cpp, and the
    periodic task scheduler) implements with the dispatcher and the write queue.

    Sessions: [Session] (write queue and write pump), [TimingWheel] (timers on an
    explicit heap), [SessionManager], which composes the two.

    Memory: [SlabAllocator]; [Arena] (bump and arena allocators).

    Between cores: [SpscQueue] and [MpscQueue] (the lock-free queues, cut at their
    atomics), [CoreEngine] (core_engine.cpp, spsc_mesh.cpp: posting, wake-up,
    draining), [CrossCoreCall] (call with timeout, shared payloads), [Listener]
    (connection_limiter.cpp, listener.hpp: the per-address connection limit).

    Rate limits: [SlidingWindow], [PerIpRateLimiter] on top of it, and
    [RedisRateLimiter] (the Lua script, its client and the three-layer facade).

    Adapters: [AdapterBase] (adapter_base.hpp: spawning, draining and closing),
    [CircuitBreaker] (and the cancellation token); [PgConnection] (pg_connection.cpp,
    commands and results over libpq) and [PgPool] (the pool and transactions, on a
    heap of connections); [RedisMultiplexer] (commands of many coroutines on one
    connection) and [RedisAdapter] (reconnection, and the waits for hiredis);
    [KafkaEnvelope] (headers, builder, dispatch bridge), [PayloadPool] and
    [KafkaAdapter] (producer, consumer and their wiring).

    Gateway: [RouteTable], [GatewayState] (pending requests, subscriptions),
    [GatewayPipeline] (token, blacklist, three rate limits) and [GatewayService]
    (handlers, router, responses, broadcasts); [PubSub] (pubsub_listener.cpp, the
    subscriptions to Redis), [GatewayConfig] (gateway_config_parser.cpp,
    config_reloader.cpp, file_watcher.cpp and the start of main.cpp).

    Services: [ServiceBase] (coroutines as programs of calls, the Redis keys two
    services share, routing of Kafka messages), [AuthService] (auth_service.cpp,
    session_store.cpp, jwt_manager.cpp), [Bcrypt] (bcrypt.c and password_hasher.cpp)
    and [ChatService] (chat_service.cpp).

    ** How the code becomes definitions

    A class is a [Record] with the source's members and a method a function on it,
    with the source's name; [std::expected] is [expected], a call that can throw is
    an [outcome], in which undefined behaviour is one more exception. Integers are
    [Z] at their width: a sum that can wrap is wrapped ([u8] to [u64]). Code that
    runs on several threads, or is suspended by [co_await], is a set of events, each
    the code from one access to shared state (or suspension) to the next, and
    [exec_all] runs any list of them: a theorem over all lists covers all
    interleavings. A proviso that depends on the state an event finds ([scoped],
    [prompt], [undisturbed]) is asked for along the list of events. Atomics are taken as sequentially consistent, but for
    the wake-up flag of [CoreEngine], whose clearing store waits in a store buffer.

    A handler of a service is a program of calls ([prog]), run against any world that
    answers them, alone ([run_prog]) or interleaved with others ([interleave]).

    Code outside the repository is an argument: the Redis commands ([RedisServer],
    [RedisStore]), the SQL statements ([AuthDb], [ChatDb]), the TOML documents
    ([Toml]), jwt-cpp and OpenSSL, the FlatBuffers accessors, malloc, the clocks. A
    class that states what such code documents has an instance. What libpq, hiredis,
    librdkafka and the file system answer, and when they call back, are arguments of
    the events. What is assumed of any of them is in the statements that use it.

    ** What the theorems show

    Refinement of an abstract specification: the ring buffer is a bounded FIFO of
    bytes, the subscription maps one relation, the endpoint check through Redis the
    in-memory counter. Equivalence: the read loop does not depend on how the
    transport cuts the stream, the in-place envelope builder writes the reference
    bytes, the result of a query does not depend on how the socket cuts the answer.
    Round trips: headers, frames, envelopes, the base64 of password hashes, the text
    of a metrics scrape. End to end: requests sent over TCP
    are served once each in order, a forwarded request's response reaches the
    session that asked, a broadcast each subscriber once, a chat message the cores of
    its room, a whisper the session of the target's login; a logout's blacklist
    entry stops the token at the gateway; every request to the auth service is
    answered once. Invariants over every
    history: timing wheel, session manager, limiters, pending requests, only
    authenticated sessions subscribed, the PostgreSQL pool exclusive and within its
    size, rooms within their capacity, one life of a server with its calls in order,
    adapters drained before they are closed, subscriptions to Redis as asked for,
    reloaded settings on every core. Where such a theorem holds only of some histories,
    its statement says which: the pool's of clients that end a transaction before they
    give the connection back, the gateway's of tables that do not grow while a request
    waits for Redis. A server's life is stated by which calls are due, which need which,
    and that all due calls are made. Tokens: rotation of refresh tokens, revocation
    of a family on reuse, credentials checked by the repository's bcrypt before tokens
    are issued. Concurrency: both queues are FIFO and free of races, a posted message is dispatched or a missed
    wake-up is healed by the next post, a cross-core call runs at most once, memory
    handed out never overlaps, Redis replies match their commands when timeouts are
    served in time, every Kafka message is settled or delivered again. Bounds: what a
    sliding window admits. Errors: which settings are refused, and that no Kafka
    client runs without the security asked for. Liveness: timers fire at their
    deadline, idle sessions are evicted, a Redis connection given up comes back, a server told to stop
    returns whatever its sessions and coroutines do.
    Termination: the read loop, frame encoding, the operations of the single-producer
    queue and the shutdown of a server end.

    A group of theorems proves that the code does not do what it means to: a
    connection limit bypassed by a timed-out check, an awaitable enqueue that loses
    items, a breaker stuck half open, a failed re-authentication that keeps the old
    identity, a Lua script that weighs a stale count, a failed COMMIT and a late
    timeout that touch destroyed objects, a refresh token used twice, a room created
    overfull, a cut password hash that accepts every password, a Redis connection that
    stalls after a partial write, is used after the server closed it or is closed under
    its coroutine, a core that is not woken, a connection destroyed under its
    transaction, a table of sessions that grows under a waiting request, a refused
    subscription that is taken as made, a Kafka message lost or left waiting. Each gives the inputs or the sequence of events that reaches
    the behaviour.

    ** Bounds and fuel

    Loops that are not structural recurse on fuel taken from the state: the frames
    of a read on the bytes unread, the copy loop of [encode] on the bytes to write,
    the walk of a wheel slot on the entries allocated, a broadcast on the number of
    cores. The lemmas show that fuel to be enough, and the theorems state results,
    not only what holds if a result comes. Counters are not bounded unless a
    statement says so: the gateway's correlation ids are shown unused for the first
    2^48 - 1 requests of a core.

    ** Not modelled

    The memory orders of atomics weaker than sequential consistency, but for that store
    buffer; sockets, TLS, the HTTP connection of the metrics server and the event loop itself; logging, the crash
    handler and the system calls of thread affinity; the branches for Windows; the
    programs' [main] beyond the gateway's configuration; the examples, and the tools
    that are not C++. *)

From stdpp Require Export base numbers list list_numbers gmap strings relations.
From Stdlib Require Export ZArith Lia.

#[global] Set Default Goal Selector "!".
#[global] Open Scope Z_scope.

(** ** C++ results and exceptions *)

(** [std::expected<A, E>]. *)
Inductive expected (A E : Type) : Type :=
| Ok (a : A)
| Err (e : E).
Arguments Ok {A E} a.
Arguments Err {A E} e.

(** The C++ exceptions the modelled code throws, and undefined behaviour
    (a null dereference, an out-of-range index) as one more outcome. *)
Inductive cpp_exn : Type :=
| overflow_error
| bad_alloc
| out_of_range
| invalid_argument
| logic_error
| runtime_error
| undefined_behaviour.

(** The outcome of a call that may throw. *)
Inductive outcome (A : Type) : Type :=
| Returns (a : A)
| Throws (x : cpp_exn).
Arguments Returns {A} a.
Arguments Throws {A} x.

#[global] Instance cpp_exn_eq_dec : EqDecision cpp_exn.
Proof. solve_decision. Defined.
#[global] Instance expected_eq_dec {A E} `{EqDecision A, EqDecision E} : EqDecision (expected A E).
Proof. solve_decision. Defined.
#[global] Instance outcome_eq_dec {A} `{EqDecision A} : EqDecision (outcome A).
Proof. solve_decision. Defined.

Definition is_ok {A E} (r : expected A E) : bool :=
  match r with Ok _ => true | Err _ => false end.

Declare Scope apex_scope.
Delimit Scope apex_scope with apex.
#[global] Open Scope apex_scope.

(** Sequencing of fallible calls: [std::expected] and throwing code. *)
Definition expected_bind {A B E} (r : expected A E) (k : A -> expected B E) : expected B E :=
  match r with Ok a => k a | Err e => Err e end.
Definition outcome_bind {A B} (r : outcome A) (k : A -> outcome B) : outcome B :=
  match r with Returns a => k a | Throws x => Throws x end.

Notation "'try' x <- r ; k" := (expected_bind r (fun x => k))
  (at level 100, x pattern, r at level 99, k at level 200, right associativity) : apex_scope.
Notation "'run' x <- r ; k" := (outcome_bind r (fun x => k))
  (at level 100, x pattern, r at level 99, k at level 200, right associativity) : apex_scope.

(** ** Machine integers *)

(** A value reduced to [w] bits, as unsigned C++ arithmetic does. *)
Definition wrap (w x : Z) : Z := x mod 2 ^ w.
Abbreviation u8 := (wrap 8).
Abbreviation u16 := (wrap 16).
Abbreviation u32 := (wrap 32).
Abbreviation u64 := (wrap 64).

Definition in_width (w x : Z) : Prop := 0 <= x < 2 ^ w.
Abbreviation is_byte := (in_width 8).

(** [SIZE_MAX] and [UINT32_MAX] on the 64-bit targets the code asserts. *)
Definition SIZE_MAX : Z := 2 ^ 64 - 1.
Definition UINT32_MAX : Z := 2 ^ 32 - 1.

(** ** Z-indexed views of lists: sizes and offsets are [size_t] *)

Definition len {A} (l : list A) : Z := Z.of_nat (length l).
Definition takeZ {A} (n : Z) (l : list A) : list A := take (Z.to_nat n) l.
Definition dropZ {A} (n : Z) (l : list A) : list A := drop (Z.to_nat n) l.

(** The byte at index [i]; reads are guarded, so the default never shows. *)
Definition nthZ (l : list Z) (i : Z) : Z := default 0 (l !! Z.to_nat i).

(** [n] elements from offset [off]: a [std::span] read. *)
Definition slice {A} (off n : Z) (l : list A) : list A := takeZ n (dropZ off l).

(** [memcpy] of [bs] into [l] at offset [off]. *)
Definition patch {A} (off : Z) (bs l : list A) : list A :=
  takeZ off l ++ bs ++ dropZ (off + len bs) l.

(** ** Little-endian memory representation and byte swapping *)

Fixpoint le_store (n : nat) (v : Z) : list Z :=
  match n with
  | O => []
  | S n' => v mod 256 :: le_store n' (v / 256)
  end.

Fixpoint le_load (bs : list Z) : Z :=
  match bs with
  | [] => 0
  | b :: bs' => b + 256 * le_load bs'
  end.

(** [__builtin_bswapN]: reverse the order of the [n] bytes of [v]. *)
Definition bswap (n : nat) (v : Z) : Z := le_load (rev (le_store n v)).

(** ** Tactics *)

(** Case analysis on every conditional of the goal, boolean tests read as
    facts. *)
Ltac split_ifs :=
  repeat match goal with
  | |- context [if ?b then _ else _] => destruct b eqn:?
  | H : context [if ?b then _ else _] |- _ => destruct b eqn:?
  end.

(** [Forall] over an explicit list, element by element. *)
Ltac solve_Forall :=
  repeat (apply List.Forall_cons; [solve [assumption | unfold in_width in *; lia]|]);
  try apply List.Forall_nil.

Create HintDb apex.
Create Rewrite HintDb len.

(** Normalise lengths of lists, then arithmetic. *)
Ltac len_simp := autorewrite with len in *.
Ltac zlen := unfold takeZ, dropZ, slice, patch in *; len_simp; lia.

(** ** Lemmas on integers *)

Lemma wrap_range w x : 0 <= w -> in_width w (wrap w x).
Proof. intros. unfold in_width, wrap. apply Z.mod_pos_bound. lia. Qed.

Lemma wrap_small w x : in_width w x -> wrap w x = x.
Proof. intros. apply Z.mod_small. done. Qed.

Lemma wrap_wrap w x : 0 <= w -> wrap w (wrap w x) = wrap w x.
Proof. intros. apply wrap_small, wrap_range. done. Qed.

Lemma wrap_add_l w x y : wrap w (wrap w x + y) = wrap w (x + y).
Proof. unfold wrap. apply Zplus_mod_idemp_l. Qed.

Lemma wrap_add_r w x y : wrap w (x + wrap w y) = wrap w (x + y).
Proof. unfold wrap. apply Zplus_mod_idemp_r. Qed.

Lemma wrap_sub_l w x y : wrap w (wrap w x - y) = wrap w (x - y).
Proof. unfold wrap. apply Zminus_mod_idemp_l. Qed.

Lemma wrap_sub_r w x y : wrap w (x - wrap w y) = wrap w (x - y).
Proof. unfold wrap. apply Zminus_mod_idemp_r. Qed.

(** Masking with [2^k - 1] is reduction modulo [2^k]. *)
Lemma land_mask x k : 0 <= k -> Z.land x (2 ^ k - 1) = x mod 2 ^ k.
Proof. intros. rewrite <- Z.land_ones by done. f_equal. rewrite Z.ones_equiv. lia. Qed.

(** Two indices less than [2 ^ k] apart share a slot of a ring only when equal. *)
Lemma land_mask_inj k i j : 0 <= k -> i <= j < i + 2 ^ k -> Z.land i (2 ^ k - 1) = Z.land j (2 ^ k - 1) -> i = j.
Proof.
  intros Hk Hj. rewrite !land_mask by lia. intros E. pose proof (Z.pow_pos_nonneg 2 k ltac:(lia) Hk) as Hp.
  rewrite (Z.div_mod i (2 ^ k)), (Z.div_mod j (2 ^ k)) in Hj |- * by lia. rewrite E in *.
  pose proof (Z.mod_pos_bound j (2 ^ k) Hp). assert (i / 2 ^ k = j / 2 ^ k) by nia. lia.
Qed.

(** Reduction modulo [2^w] does not change the residue modulo a smaller power. *)
(** Putting a [k]-bit value below a shifted one. *)
Lemma lor_low a b k : 0 <= k -> 0 <= b < 2 ^ k -> Z.lor (a * 2 ^ k) b = a * 2 ^ k + b.
Proof.
  intros Hk Hb. assert (Hl : Z.land (a * 2 ^ k) b = 0).
  { apply Z.bits_inj'. intros n Hn. rewrite Z.land_spec, Z.bits_0. destruct (Z.lt_ge_cases n k).
    - rewrite Z.mul_pow2_bits_low by done. done.
    - rewrite <- (Z.mod_small b (2 ^ k)), Z.mod_pow2_bits_high by lia. apply andb_false_r. }
  rewrite <- Z.lxor_lor, <- Z.add_nocarry_lxor by done. done.
Qed.

Lemma mod_wrap_pow2 w k x : 0 <= k <= w -> wrap w x mod 2 ^ k = x mod 2 ^ k.
Proof.
  intros. unfold wrap.
  replace (2 ^ w) with (2 ^ k * 2 ^ (w - k)) by (rewrite <- Z.pow_add_r by lia; f_equal; lia).
  rewrite Z.rem_mul_r by lia.
  rewrite Z.mul_comm, Z_mod_plus_full. apply Z.mod_mod. lia.
Qed.

(** [x & ~(2^k - 1)]: rounding down to a multiple of [2^k]. *)
Lemma land_align x k : in_width 64 x -> 0 <= k <= 64 -> Z.land x (u64 (- 2 ^ k)) = x - x mod 2 ^ k.
Proof.
  intros Hx Hk. unfold in_width in Hx. pose proof (Z.pow_le_mono_r 2 k 64). pose proof (Z.pow_pos_nonneg 2 k).
  assert (E : Z.land x (2 ^ 64 - 2 ^ k) = x - x mod 2 ^ k).
  { replace (2 ^ 64 - 2 ^ k) with (Z.ones 64 - Z.ones k) by (rewrite !Z.ones_equiv; lia).
    assert (Hle : Z.ldiff (Z.ones k) (Z.ones 64) = 0).
    { apply Z.bits_inj'. intros i Hi. rewrite Z.ldiff_spec, Z.bits_0.
      destruct (decide (i < k)); [rewrite (Z.ones_spec_low 64 i) by lia; by rewrite andb_false_r|].
      rewrite Z.ones_spec_high by lia. done. }
    rewrite Z.sub_nocarry_ldiff by done.
    assert (Hb : Z.land x (Z.ldiff (Z.ones 64) (Z.ones k)) = Z.ldiff (Z.land x (Z.ones 64)) (Z.ones k)).
    { apply Z.bits_inj'. intros i Hi. rewrite !Z.land_spec, !Z.ldiff_spec, Z.land_spec. by rewrite andb_assoc. }
    rewrite Hb, Z.land_ones, Z.mod_small, Z.ldiff_ones_r, Z.shiftl_mul_pow2, Z.shiftr_div_pow2 by lia.
    pose proof (Z.div_mod x (2 ^ k)). lia. }
  destruct (decide (k = 64)) as [->|].
  - unfold wrap. change ((- 2 ^ 64) mod 2 ^ 64) with 0. rewrite Z.land_0_r, Z.mod_small by lia. lia.
  - rewrite <- E. f_equal. unfold wrap. symmetry. apply Z.mod_unique_pos with (-1); [|lia].
    pose proof (Z.pow_lt_mono_r 2 k 64). lia.
Qed.

(** [(x + 2^k - 1) & ~(2^k - 1)]: rounding up, when the sum does not wrap. *)
Lemma align_up_spec x k :
  0 <= x -> 0 <= k <= 64 -> x + 2 ^ k - 1 < 2 ^ 64 ->
  let r := Z.land (u64 (x + 2 ^ k - 1)) (u64 (- 2 ^ k)) in x <= r < x + 2 ^ k /\ r mod 2 ^ k = 0.
Proof.
  intros Hx Hk Hs. pose proof (Z.pow_pos_nonneg 2 k). cbv zeta.
  rewrite (wrap_small 64 (x + 2 ^ k - 1)) by (unfold in_width; lia). rewrite land_align by (unfold in_width; lia).
  pose proof (Z.mod_pos_bound (x + 2 ^ k - 1) (2 ^ k)). split; [lia|].
  rewrite Zminus_mod_idemp_r, Z.sub_diag. done.
Qed.

#[export] Hint Resolve wrap_range : apex.

(** ** Lemmas on Z-indexed lists *)

Lemma len_nonneg {A} (l : list A) : 0 <= len l.
Proof. unfold len. lia. Qed.

Lemma len_nil {A} : len ([] : list A) = 0.
Proof. done. Qed.

Lemma len_cons {A} (x : A) l : len (x :: l) = 1 + len l.
Proof. unfold len. simpl. lia. Qed.

Lemma len_app {A} (l k : list A) : len (l ++ k) = len l + len k.
Proof. unfold len. rewrite length_app. lia. Qed.

Lemma len_takeZ {A} n (l : list A) : len (takeZ n l) = Z.max 0 (Z.min n (len l)).
Proof. unfold len, takeZ. rewrite length_take. lia. Qed.

Lemma len_dropZ {A} n (l : list A) : len (dropZ n l) = Z.max 0 (len l - Z.max 0 n).
Proof. unfold len, dropZ. rewrite length_drop. lia. Qed.

Lemma len_fmap {A B} (f : A -> B) l : len (f <$> l) = len l.
Proof. unfold len. by rewrite length_fmap. Qed.

Lemma len_rev {A} (l : list A) : len (rev l) = len l.
Proof. unfold len. by rewrite length_rev. Qed.

Lemma len_insert {A} i (x : A) l : len (<[i:=x]> l) = len l.
Proof. unfold len. by rewrite length_insert. Qed.

Lemma len_replicate {A} n (x : A) : len (replicate n x) = Z.of_nat n.
Proof. unfold len. by rewrite length_replicate. Qed.

Lemma len_le_store n v : len (le_store n v) = Z.of_nat n.
Proof. revert v. induction n as [|n IH]; intros v; [done|]. simpl. rewrite len_cons, IH. lia. Qed.

Lemma len_slice {A} off n (l : list A) :
  len (slice off n l) = Z.max 0 (Z.min n (len l - Z.max 0 off)).
Proof. unfold slice. rewrite len_takeZ, len_dropZ. pose proof (len_nonneg l). lia. Qed.

Lemma len_patch {A} off (bs l : list A) :
  0 <= off -> off + len bs <= len l -> len (patch off bs l) = len l.
Proof.
  intros. unfold patch. rewrite !len_app, len_takeZ, len_dropZ. pose proof (len_nonneg bs). lia.
Qed.

#[export] Hint Rewrite @len_nil @len_cons @len_app @len_takeZ @len_dropZ @len_fmap @len_rev
  @len_insert @len_replicate len_le_store @len_slice : len.

Lemma len_0_nil {A} (l : list A) : len l = 0 -> l = [].
Proof. destruct l; [done|]. unfold len. simpl. lia. Qed.

Lemma takeZ_all {A} n (l : list A) : len l <= n -> takeZ n l = l.
Proof. intros. apply take_ge. unfold len in *. lia. Qed.

Lemma takeZ_0 {A} (l : list A) : takeZ 0 l = [].
Proof. done. Qed.

Lemma dropZ_0 {A} (l : list A) : dropZ 0 l = l.
Proof. done. Qed.

Lemma dropZ_all {A} n (l : list A) : len l <= n -> dropZ n l = [].
Proof. intros. apply drop_ge. unfold len in *. lia. Qed.

Lemma take_dropZ {A} n (l : list A) : takeZ n l ++ dropZ n l = l.
Proof. apply take_drop. Qed.

Lemma dropZ_dropZ {A} n m (l : list A) : 0 <= n -> 0 <= m -> dropZ n (dropZ m l) = dropZ (m + n) l.
Proof. intros. unfold dropZ. rewrite drop_drop. f_equal. lia. Qed.

Lemma takeZ_app_le {A} n (l k : list A) : n <= len l -> takeZ n (l ++ k) = takeZ n l.
Proof. intros. apply take_app_le. unfold len in *. lia. Qed.

Lemma takeZ_app_len {A} (l k : list A) : takeZ (len l) (l ++ k) = l.
Proof. unfold takeZ, len. rewrite Nat2Z.id. by apply take_app_length. Qed.

Lemma dropZ_app_len {A} (l k : list A) : dropZ (len l) (l ++ k) = k.
Proof. unfold dropZ, len. rewrite Nat2Z.id. by apply drop_app_length. Qed.

Lemma dropZ_app_ge {A} n (l k : list A) : len l <= n -> dropZ n (l ++ k) = dropZ (n - len l) k.
Proof. intros. unfold dropZ, len in *. rewrite drop_app_ge by lia. f_equal. lia. Qed.

Lemma dropZ_app_le {A} n (l k : list A) : n <= len l -> dropZ n (l ++ k) = dropZ n l ++ k.
Proof. intros. unfold dropZ, len in *. rewrite drop_app_le by lia. done. Qed.

Lemma takeZ_app_ge {A} n (l k : list A) : len l <= n -> takeZ n (l ++ k) = l ++ takeZ (n - len l) k.
Proof. intros. unfold takeZ, len in *. rewrite take_app_ge by lia. do 2 f_equal. lia. Qed.

Lemma takeZ_takeZ {A} n m (l : list A) : takeZ n (takeZ m l) = takeZ (Z.min n m) l.
Proof. unfold takeZ. rewrite take_take. f_equal. lia. Qed.

Lemma dropZ_takeZ {A} n m (l : list A) :
  0 <= n -> 0 <= m -> dropZ n (takeZ (n + m) l) = takeZ m (dropZ n l).
Proof.
  intros. unfold dropZ, takeZ. rewrite skipn_firstn_comm. f_equal. lia.
Qed.

Lemma slice_full {A} n (l : list A) : len l <= n -> slice 0 n l = l.
Proof. intros. unfold slice. by rewrite dropZ_0, takeZ_all. Qed.

(** Splitting a slice at any inner point. *)
Lemma slice_split {A} off n m (l : list A) :
  0 <= off -> 0 <= n -> 0 <= m -> slice off (n + m) l = slice off n l ++ slice (off + n) m l.
Proof.
  intros. unfold slice.
  rewrite <- (take_dropZ n (takeZ (n + m) (dropZ off l))).
  rewrite takeZ_takeZ, dropZ_takeZ, dropZ_dropZ by lia.
  do 2 f_equal. lia.
Qed.

(** A slice of a slice. *)
Lemma slice_slice {A} a m off n (l : list A) :
  0 <= a -> 0 <= off -> 0 <= m -> a + m <= n -> slice a m (slice off n l) = slice (off + a) m l.
Proof.
  intros. unfold slice. rewrite <- (dropZ_dropZ a off) by lia.
  replace n with (a + (n - a)) by lia. rewrite dropZ_takeZ, takeZ_takeZ by lia. f_equal. lia.
Qed.

Lemma slice_takeZ {A} off m n (l : list A) :
  0 <= off -> 0 <= m -> off + m <= n -> slice off m (takeZ n l) = slice off m l.
Proof. intros. apply (slice_slice off m 0 n l); lia. Qed.

Lemma takeZ_slice {A} n (l : list A) : takeZ n l = slice 0 n l.
Proof. done. Qed.

Lemma slice_app_l {A} off n (l k : list A) :
  0 <= off -> 0 <= n -> off + n <= len l -> slice off n (l ++ k) = slice off n l.
Proof.
  intros. unfold slice. rewrite dropZ_app_le by lia. apply takeZ_app_le. rewrite len_dropZ. lia.
Qed.

Lemma slice_app_r {A} n (l k : list A) : len k = n -> slice (len l) n (l ++ k) = k.
Proof. intros <-. unfold slice. rewrite dropZ_app_len. by apply takeZ_all. Qed.

Lemma patch_nil {A} off (l : list A) : 0 <= off -> patch off [] l = l.
Proof. intros. unfold patch. rewrite len_nil, Z.add_0_r. apply take_dropZ. Qed.

(** Reading back what was just copied. *)
Lemma slice_patch_same {A} off (bs l : list A) :
  0 <= off <= len l -> slice off (len bs) (patch off bs l) = bs.
Proof.
  intros. unfold slice, patch.
  assert (len (takeZ off l) = off) as E by (rewrite len_takeZ; lia).
  rewrite dropZ_app_ge by lia. rewrite E, Z.sub_diag, dropZ_0. apply takeZ_app_len.
Qed.

(** A slice that does not meet the copied range is unchanged. *)
Lemma slice_patch_before {A} off n o (bs l : list A) :
  0 <= o -> 0 <= n -> o + n <= off -> off <= len l -> slice o n (patch off bs l) = slice o n l.
Proof.
  intros. unfold slice, patch.
  assert (len (takeZ off l) = off) as E by (rewrite len_takeZ; lia).
  rewrite dropZ_app_le by lia. rewrite takeZ_app_le by (rewrite len_dropZ; lia).
  replace (takeZ off l) with (takeZ (o + (off - o)) l) by (f_equal; lia).
  rewrite dropZ_takeZ, takeZ_takeZ by lia. f_equal. lia.
Qed.

Lemma slice_patch_after {A} off n o (bs l : list A) :
  0 <= off -> off + len bs <= o -> off <= len l -> slice o n (patch off bs l) = slice o n l.
Proof.
  intros. unfold slice, patch. pose proof (len_nonneg bs).
  assert (len (takeZ off l) = off) as E by (rewrite len_takeZ; lia).
  rewrite dropZ_app_ge, E by lia. rewrite dropZ_app_ge, dropZ_dropZ by lia.
  do 2 f_equal. lia.
Qed.

(** Writing right after what has been written. *)
Lemma patch_app {A} off (p bs l : list A) : off = len p -> patch off bs (p ++ l) = p ++ bs ++ dropZ (len bs) l.
Proof.
  intros ->. unfold patch. rewrite takeZ_app_len, dropZ_app_ge by (pose proof (len_nonneg bs); lia). do 3 f_equal. lia.
Qed.

Lemma patch_fill {A} off (p bs l : list A) : off = len p -> len l = len bs -> patch off bs (p ++ l) = p ++ bs.
Proof. intros -> H. rewrite patch_app, dropZ_all, app_nil_r by lia. done. Qed.

(** ** Lemmas on the byte representation *)

Lemma le_store_bytes n v : Forall is_byte (le_store n v).
Proof.
  revert v. induction n as [|n IH]; intros v; simpl; constructor; [|done].
  unfold in_width. apply Z.mod_pos_bound. lia.
Qed.

Lemma le_load_range bs : Forall is_byte bs -> 0 <= le_load bs < 256 ^ len bs.
Proof.
  induction 1 as [|b bs Hb _ IH]; [done|]. unfold in_width in Hb. simpl le_load. rewrite len_cons.
  rewrite Z.pow_add_r by (pose proof (len_nonneg bs); lia). lia.
Qed.

Lemma le_load_store n v : le_load (le_store n v) = v mod 256 ^ Z.of_nat n.
Proof.
  revert v. induction n as [|n IH]; intros v; simpl le_store; simpl le_load.
  - by rewrite Z.mod_1_r.
  - rewrite IH. rewrite Nat2Z.inj_succ, Z.pow_succ_r by lia. rewrite Z.rem_mul_r; lia.
Qed.

Lemma le_store_load bs : Forall is_byte bs -> le_store (length bs) (le_load bs) = bs.
Proof.
  induction 1 as [|b bs Hb _ IH]; [done|]. unfold in_width in Hb. simpl.
  rewrite (Z.mul_comm 256), Z_mod_plus_full, Z_div_plus_full by lia.
  rewrite Z.mod_small, (Z.div_small b), Z.add_0_l by lia. by rewrite IH.
Qed.

Lemma le_store_bswap n v : le_store n (bswap n v) = rev (le_store n v).
Proof.
  unfold bswap.
  assert (length (rev (le_store n v)) = n) as E.
  { pose proof (len_le_store n v). rewrite length_rev. unfold len in *. lia. }
  rewrite <- E at 1. apply le_store_load. apply List.Forall_rev, le_store_bytes.
Qed.

Lemma bswap_bswap n v : 0 <= v < 256 ^ Z.of_nat n -> bswap n (bswap n v) = v.
Proof.
  intros. unfold bswap at 1. rewrite le_store_bswap, rev_involutive, le_load_store. by apply Z.mod_small.
Qed.

(** Loading the bytes a value was stored as, byte-swapped on both sides:
    network byte order on a little-endian host. *)
Lemma load_bswap_store n v : 0 <= v < 256 ^ Z.of_nat n -> bswap n (le_load (le_store n (bswap n v))) = v.
Proof.
  intros. rewrite le_load_store, Z.mod_small; [by apply bswap_bswap|].
  unfold bswap. pose proof (le_load_range (rev (le_store n v))) as R.
  rewrite len_rev, len_le_store in R. apply R. apply List.Forall_rev, le_store_bytes.
Qed.

Lemma bswap_range n v : 0 <= bswap n v < 256 ^ Z.of_nat n.
Proof.
  unfold bswap. pose proof (le_load_range (rev (le_store n v))) as R.
  rewrite len_rev, len_le_store in R. apply R. apply List.Forall_rev, le_store_bytes.
Qed.

(** ** Indexed access *)

Lemma nthZ_is_byte l i : Forall is_byte l -> is_byte (nthZ l i).
Proof.
  intros Hb. unfold nthZ. destruct (l !! Z.to_nat i) eqn:L; simpl; [|done].
  eapply Forall_lookup_1; done.
Qed.

Lemma nthZ_app_l l k i : 0 <= i < len l -> nthZ (l ++ k) i = nthZ l i.
Proof. intros. unfold nthZ, len in *. rewrite lookup_app_l by lia. done. Qed.

Lemma nthZ_app_r l k i : len l <= i -> nthZ (l ++ k) i = nthZ k (i - len l).
Proof. intros. unfold nthZ, len in *. rewrite lookup_app_r by lia. do 2 f_equal. lia. Qed.

Lemma nthZ_takeZ n l i : 0 <= i < n -> nthZ (takeZ n l) i = nthZ l i.
Proof. intros. unfold nthZ, takeZ. rewrite lookup_take_lt by lia. done. Qed.

Lemma nthZ_dropZ n l i : 0 <= n -> 0 <= i -> nthZ (dropZ n l) i = nthZ l (n + i).
Proof. intros. unfold nthZ, dropZ. rewrite lookup_drop. do 2 f_equal. lia. Qed.

Lemma nthZ_slice off n l i : 0 <= off -> 0 <= i < n -> nthZ (slice off n l) i = nthZ l (off + i).
Proof. intros. unfold slice. rewrite nthZ_takeZ, nthZ_dropZ by lia. done. Qed.

Lemma nthZ_patch_in off bs l i :
  0 <= off <= len l -> off <= i < off + len bs -> nthZ (patch off bs l) i = nthZ bs (i - off).
Proof.
  intros. unfold patch. assert (len (takeZ off l) = off) as E by (rewrite len_takeZ; lia).
  rewrite nthZ_app_r, E by lia. apply nthZ_app_l. lia.
Qed.

Lemma nthZ_patch_out off bs l i :
  0 <= off <= len l -> 0 <= i -> i < off \/ off + len bs <= i -> nthZ (patch off bs l) i = nthZ l i.
Proof.
  intros Ho Hi Hr. unfold patch. assert (len (takeZ off l) = off) as E by (rewrite len_takeZ; lia).
  pose proof (len_nonneg bs). destruct Hr.
  - rewrite nthZ_app_l by lia. apply nthZ_takeZ. lia.
  - rewrite nthZ_app_r, E by lia. rewrite nthZ_app_r by lia. rewrite nthZ_dropZ by lia. f_equal. lia.
Qed.

(** Two byte lists of the same length with the same bytes are equal. *)
Lemma nthZ_ext l k : len l = len k -> (forall i, 0 <= i < len l -> nthZ l i = nthZ k i) -> l = k.
Proof.
  intros HL H. apply list_eq. intros i. destruct (decide (i < length l)%nat) as [Hi|Hi].
  - specialize (H (Z.of_nat i)). unfold nthZ, len in *. rewrite Nat2Z.id in H.
    destruct (lookup_lt_is_Some_2 l i) as [x Hx]; [lia|]. destruct (lookup_lt_is_Some_2 k i) as [y Hy]; [lia|].
    rewrite Hx, Hy in *. simpl in H. f_equal. apply H. lia.
  - rewrite !lookup_ge_None_2; [done| |]; unfold len in *; lia.
Qed.
