(* ===== verification/ErrorCode.v ===== *)
(** * Framework error codes

    [apex::core::ErrorCode] (apex_core/include/apex/core/error_code.hpp): the
    enumeration, its wire values and its names, and the [Result] type of the
    framework ([std::expected<T, ErrorCode>]). *)

From S2P Require Import Prelude.

Inductive ErrorCode : Type :=
| ErrOk
| Unknown
| InvalidMessage
| HandlerNotFound
| SessionClosed
| BufferFull
| Timeout
| FlatBuffersVerifyFailed
| CrossCoreTimeout
| CrossCoreQueueFull
| UnsupportedProtocolVersion
| HandlerException
| SendFailed
| InsufficientData
| AcceptFailed
| HandshakeFailed
| ParseFailed
| CrossCoreFuncException
| BodyTooLarge
| ServiceError
| AppError
| AdapterError
| PoolExhausted
| CircuitOpen.

#[global] Instance ErrorCode_eq_dec : EqDecision ErrorCode.
Proof. solve_decision. Defined.

Definition Result (A : Type) : Type := expected A ErrorCode.

(** The underlying [uint16_t] value, as sent in error frames. *)
Definition error_code_value (code : ErrorCode) : Z :=
  match code with
  | ErrOk => 0
  | Unknown => 1
  | InvalidMessage => 2
  | HandlerNotFound => 3
  | SessionClosed => 4
  | BufferFull => 5
  | Timeout => 6
  | FlatBuffersVerifyFailed => 7
  | CrossCoreTimeout => 8
  | CrossCoreQueueFull => 9
  | UnsupportedProtocolVersion => 10
  | HandlerException => 11
  | SendFailed => 12
  | InsufficientData => 13
  | AcceptFailed => 14
  | HandshakeFailed => 15
  | ParseFailed => 16
  | CrossCoreFuncException => 17
  | BodyTooLarge => 18
  | ServiceError => 99
  | AppError => 1000
  | AdapterError => 2000
  | PoolExhausted => 2001
  | CircuitOpen => 2002
  end.

Definition error_code_name (code : ErrorCode) : string :=
  match code with
  | ErrOk => "Ok"
  | Unknown => "Unknown"
  | InvalidMessage => "InvalidMessage"
  | HandlerNotFound => "HandlerNotFound"
  | SessionClosed => "SessionClosed"
  | BufferFull => "BufferFull"
  | Timeout => "Timeout"
  | FlatBuffersVerifyFailed => "FlatBuffersVerifyFailed"
  | CrossCoreTimeout => "CrossCoreTimeout"
  | CrossCoreQueueFull => "CrossCoreQueueFull"
  | UnsupportedProtocolVersion => "UnsupportedProtocolVersion"
  | HandlerException => "HandlerException"
  | SendFailed => "SendFailed"
  | InsufficientData => "InsufficientData"
  | AcceptFailed => "AcceptFailed"
  | HandshakeFailed => "HandshakeFailed"
  | ParseFailed => "ParseFailed"
  | CrossCoreFuncException => "CrossCoreFuncException"
  | BodyTooLarge => "BodyTooLarge"
  | ServiceError => "ServiceError"
  | AppError => "AppError"
  | AdapterError => "AdapterError"
  | PoolExhausted => "PoolExhausted"
  | CircuitOpen => "CircuitOpen"
  end.

(** Distinct codes have distinct wire values, each a [uint16_t]. *)
Lemma error_code_value_inj c1 c2 : error_code_value c1 = error_code_value c2 -> c1 = c2.
Proof. destruct c1, c2; simpl; intros; solve [done | lia]. Qed.

Lemma error_code_value_width c : in_width 16 (error_code_value c).
Proof. destruct c; unfold in_width; simpl; lia. Qed.
