(* ===== verification/Text.v ===== *)
(** * Text

    Decimal and hexadecimal text as lists of bytes: [std::to_string] and
    [std::from_chars], which many components use on both sides of a wire, and what
    each gives back of the other. *)

From S2P Require Import Prelude.
From stdpp Require Import pretty.
#[local] Open Scope Z_scope.

Definition bytes_of (s : string) : list Z := (λ a, Z.of_N (Ascii.N_of_ascii a)) <$> String.list_ascii_of_string s.

(** [std::to_string] of an unsigned integer. *)
Definition to_text (n : Z) : list Z := bytes_of (pretty (Z.to_N n)).

(** [std::format] of a byte as two hexadecimal digits. *)
Definition hex_digit (d : Z) : Z := if d <? 10 then 48 + d else 87 + d.
Definition to_hex (bs : list Z) : list Z := bs ≫= λ b, [hex_digit (b / 16); hex_digit (b mod 16)].

(** What a C function sees of a [std::string]: the bytes before the first zero. *)
Fixpoint c_str (s : list Z) : list Z :=
  match s with c :: s => if c =? 0 then [] else c :: c_str s | [] => [] end.

(** [static_cast<int>]. *)
Definition to_int (n : Z) : Z := u32 (n + 2 ^ 31) - 2 ^ 31.

Definition is_digit (c : Z) : bool := (48 <=? c) && (c <=? 57).

(** [std::from_chars] into a [uint64_t]: the longest run of digits from the start;
    no digit or a value too large is an error. *)
Fixpoint digits_prefix (s : list Z) : list Z :=
  match s with c :: s => if is_digit c then c :: digits_prefix s else [] | [] => [] end.
Definition digits_value (ds : list Z) : Z := foldl (λ n c, n * 10 + (c - 48)) 0 ds.
Definition from_chars (s : list Z) : option Z :=
  match digits_prefix s with
  | [] => None
  | ds => if digits_value ds <? 2 ^ 64 then Some (digits_value ds) else None
  end.

(** [std::stoul]: nothing if it throws. *)
Definition is_space (c : Z) : bool := (c =? 32) || ((9 <=? c) && (c <=? 13)).
Fixpoint skip_spaces (s : list Z) : list Z := match s with c :: s' => if is_space c then skip_spaces s' else s | [] => [] end.
Definition stoul (s : list Z) : option Z :=
  match skip_spaces s with
  | 45 :: s => match from_chars s with Some n => Some (u64 (- n)) | None => None end
  | 43 :: s => from_chars s
  | s => from_chars s
  end.

(** [std::getline] with a separator, one piece after the other. *)
Fixpoint split_at (sep : Z) (s : list Z) : list (list Z) :=
  match s with
  | [] => [[]]
  | c :: s =>
      if c =? sep then [] :: split_at sep s
      else match split_at sep s with w :: ws => (c :: w) :: ws | [] => [[c]] end
  end.

(** ** Decimal text is read back *)

Lemma bytes_of_cons a s : bytes_of (String a s) = Z.of_N (Ascii.N_of_ascii a) :: bytes_of s.
Proof. done. Qed.

Lemma digit_byte d : (d < 10)%N -> Z.of_N (Ascii.N_of_ascii (pretty_N_char d)) = 48 + Z.of_N d.
Proof.
  intros Hd. assert (d = 0 \/ d = 1 \/ d = 2 \/ d = 3 \/ d = 4 \/ d = 5 \/ d = 6 \/ d = 7 \/ d = 8 \/ d = 9)%N as Hc by lia.
  by repeat destruct Hc as [-> | Hc]; [.. | subst d].
Qed.

Lemma digits_value_app ds c : digits_value (ds ++ [c]) = digits_value ds * 10 + (c - 48).
Proof. unfold digits_value. by rewrite foldl_app. Qed.

(** Digits of [x], most significant first, before [s]. *)
Lemma pretty_go_digits x s : exists ds, bytes_of (pretty_N_go x s) = ds ++ bytes_of s /\
  Forall (λ c, is_digit c = true) ds /\ digits_value ds = Z.of_N x /\ (x <> 0%N -> ds <> []).
Proof.
  revert s. induction (N.lt_wf_0 x) as [x _ IH]; intros s. destruct (decide (x = 0%N)) as [-> | Hx].
  { rewrite pretty_N_go_0. exists []. by split_and!. }
  rewrite pretty_N_go_step by lia. destruct (IH (x / 10)%N) with (s := String (pretty_N_char (x mod 10)) s) as (ds & -> & Hd & Hv & _); [apply N.div_lt; lia |].
  rewrite bytes_of_cons, digit_byte by (apply N.mod_lt; lia). exists (ds ++ [48 + Z.of_N (x mod 10)]). split_and!.
  - by rewrite <- app_assoc.
  - apply Forall_app. split; [done |]. constructor; [| done]. unfold is_digit. pose proof (N.mod_lt x 10 ltac:(done)) as Hm. revert Hm. generalize (x mod 10)%N as m. intros m Hm. apply andb_true_iff. rewrite !Z.leb_le. lia.
  - rewrite digits_value_app, Hv. pose proof (N.div_mod x 10 ltac:(done)) as E. revert E. generalize (x mod 10)%N (x / 10)%N. lia.
  - intros _ E. by apply app_nil in E as [_ ?].
Qed.

Lemma to_text_digits n : 0 <= n -> Forall (λ c, is_digit c = true) (to_text n) /\ digits_value (to_text n) = n /\ to_text n <> [].
Proof.
  intros Hn. unfold to_text. destruct (decide (n = 0)) as [-> | Hne]; [by split_and!; [repeat constructor | |] |].
  change (pretty (Z.to_N n)) with (pretty_N (Z.to_N n)). unfold pretty_N. rewrite decide_False by lia.
  destruct (pretty_go_digits (Z.to_N n) "") as (ds & -> & Hd & Hv & Hnil). change (bytes_of "") with (@nil Z). rewrite app_nil_r.
  split_and!; [done | rewrite Hv; lia | apply Hnil; lia].
Qed.

Lemma digits_prefix_app ds rest : Forall (λ c, is_digit c = true) ds -> (forall c l, rest = c :: l -> is_digit c = false) ->
  digits_prefix (ds ++ rest) = ds.
Proof.
  intros Hd Hrest. induction Hd as [| c ds Hc _ IH]; cbn.
  - destruct rest as [| c l]; [done |]. cbn. by rewrite (Hrest c l).
  - by rewrite Hc, IH.
Qed.

Lemma from_chars_to_text n : in_width 64 n -> from_chars (to_text n) = Some n.
Proof.
  intros Hn. unfold in_width in Hn. destruct (to_text_digits n) as (Hd & Hv & Hne); [lia |]. unfold from_chars.
  pose proof (digits_prefix_app (to_text n) [] Hd) as E. rewrite app_nil_r in E. rewrite E by done.
  destruct (to_text n) as [| c ds]; [done |]. rewrite Hv. by rewrite (proj2 (Z.ltb_lt _ _)) by lia.
Qed.

Lemma to_text_inj n m : 0 <= n -> 0 <= m -> to_text n = to_text m -> n = m.
Proof. intros Hn Hm E. destruct (to_text_digits n Hn) as (_ & <- & _), (to_text_digits m Hm) as (_ & <- & _). by rewrite E. Qed.

Lemma skip_spaces_digits s : Forall (λ c, is_digit c = true) s -> skip_spaces s = s.
Proof.
  destruct 1 as [| c s Hc _]; [done |]. cbn. destruct (is_space c) eqn:E; [| done]. unfold is_space, is_digit in *.
  apply andb_true_iff in Hc as [?%Z.leb_le ?%Z.leb_le]. apply orb_true_iff in E as [?%Z.eqb_eq | [?%Z.leb_le ?%Z.leb_le]%andb_true_iff]; lia.
Qed.

Lemma stoul_to_text n : in_width 64 n -> stoul (to_text n) = Some n.
Proof.
  intros Hn. destruct (to_text_digits n) as (Hd & _ & _); [unfold in_width in Hn; lia |]. unfold stoul. rewrite skip_spaces_digits by done.
  rewrite <- (from_chars_to_text n Hn). destruct Hd as [| c s Hc _]; [done |].
  assert (48 <= c <= 57) as Hr by (unfold is_digit in Hc; apply andb_true_iff in Hc as [?%Z.leb_le ?%Z.leb_le]; lia).
  assert (c = 48 \/ c = 49 \/ c = 50 \/ c = 51 \/ c = 52 \/ c = 53 \/ c = 54 \/ c = 55 \/ c = 56 \/ c = 57) as Hcs by lia.
  by repeat destruct Hcs as [-> | Hcs]; [.. | subst c].
Qed.

Lemma split_at_app sep w s : (sep ∉ w) -> split_at sep (w ++ sep :: s) = w :: split_at sep s.
Proof.
  induction w as [| c w IH]; intros Hw; cbn; [by rewrite Z.eqb_refl |]. apply not_elem_of_cons in Hw as [Hc Hw]. rewrite IH by done.
  by destruct (Z.eqb_spec c sep).
Qed.

Lemma split_at_all sep w : (sep ∉ w) -> split_at sep w = [w].
Proof.
  induction w as [| c w IH]; intros Hw; [done |]. cbn. apply not_elem_of_cons in Hw as [Hc Hw]. rewrite IH by done. by destruct (Z.eqb_spec c sep).
Qed.

Lemma digits_avoid x s : is_digit x = false -> Forall (λ c, is_digit c = true) s -> (x ∉ s).
Proof. intros Hx Hs Hin. rewrite Forall_forall in Hs. specialize (Hs x Hin). cbn in Hs. congruence. Qed.

(** Text without a character, checked by computing. *)
Lemma text_avoids x s : forallb (λ c, negb (c =? x)) s = true -> x ∉ s.
Proof. rewrite forallb_forall. intros Hs Hin%list_elem_of_In. specialize (Hs x Hin). cbn in Hs. by rewrite Z.eqb_refl in Hs. Qed.

(** The comparison without a branch on the data finds a difference if there is one. *)
Lemma diff_zero a b : length a = length b -> foldl Z.lor 0 (zip_with Z.lxor a b) = 0 <-> a = b.
Proof.
  assert (forall l x, foldl Z.lor x l = 0 <-> x = 0 /\ Forall (eq 0) l) as Hfold.
  { induction l as [| y l IH]; intros x; cbn; [by split; [| intros []] |]. rewrite IH, Z.lor_eq_0_iff, Forall_cons. naive_solver. }
  rewrite Hfold. revert b. induction a as [| x a IH]; intros [| y b] Hl; try done. injection Hl as Hl. cbn. rewrite Forall_cons.
  split.
  - intros (_ & E & Hr). f_equal; [by apply Z.lxor_eq |]. apply IH; [done |]. done.
  - intros [= -> ->]. split; [done |]. rewrite Z.lxor_nilpotent. split; [done |]. by apply IH.
Qed.
