(* ===== verification/CpuTopology.v ===== *)
(** * The processors of the machine

    [apex::core::discover_topology] on Linux (apex_core/src/cpu_topology.cpp): the
    physical cores with their hyper-threads, their NUMA nodes and, on hybrid
    processors, their kind. What the files under /sys hold is an argument, [Sysfs]:
    the value read by the stream extraction, or the first line as bytes. *)

From S2P Require Import Prelude ErrorCode Text.

Module Topology.

Inductive CoreType : Type := Performance | Efficiency | Unknown.
#[global] Instance CoreType_eq_dec : EqDecision CoreType.
Proof. solve_decision. Defined.

Record PhysicalCore : Type := mkCore { physical_id : Z; numa_node : Z; type : CoreType; logical_ids : list Z }.

Definition primary_logical_id (pc : PhysicalCore) : Z := match logical_ids pc with [] => physical_id pc | l :: _ => l end.

Record CpuTopology : Type := mkTopology { physical_cores : list PhysicalCore; numa_node_count : Z }.

(** [None]: the file cannot be opened, or, for the two topology files, not read. *)
Record Sysfs : Type := mkSysfs {
  hardware_concurrency : Z;
  online : Z -> option Z;
  physical_package_id : Z -> option Z;
  core_id : Z -> option Z;
  node_cpulist : Z -> option (list Z);
  cpu_capacity : Z -> option Z;
}.

Definition concurrency (sys : Sysfs) : Z := if 0 <? hardware_concurrency sys then hardware_concurrency sys else 1.

Definition make_fallback_topology (sys : Sysfs) : CpuTopology :=
  mkTopology ((λ i, mkCore (Z.of_nat i) 0 Unknown [Z.of_nat i]) <$> seq 0 (Z.to_nat (concurrency sys))) 1.

(** ** Physical cores *)

Definition add_sibling (cpu : Z) (pc : PhysicalCore) : PhysicalCore :=
  mkCore (physical_id pc) (numa_node pc) (type pc) (logical_ids pc ++ [cpu]).

(** The body of the loop over the logical processors. *)
Definition scan_cpu (sys : Sysfs) (cpu : Z) (st : list PhysicalCore * gmap (Z * Z) nat) : list PhysicalCore * gmap (Z * Z) nat :=
  let '(cores, core_map) := st in
  match online sys cpu, physical_package_id sys cpu, core_id sys cpu with
  | Some 0, _, _ | _, None, _ | _, _, None => st
  | _, Some package_id, Some id =>
      match core_map !! (package_id, id) with
      | None => (cores ++ [mkCore (u32 (len cores)) 0 Unknown [cpu]], <[(package_id, id) := length cores]> core_map)
      | Some i => (alter (add_sibling cpu) i cores, core_map)
      end
  end.
Definition scan_cpus (sys : Sysfs) : list PhysicalCore * gmap (Z * Z) nat :=
  foldl (λ st i, scan_cpu sys (Z.of_nat i) st) ([], ∅) (seq 0 (Z.to_nat (concurrency sys))).

(** ** The list of processors of a node *)

(** [find('-')] and the two [substr]. *)
Fixpoint cut_dash (s : list Z) : option (list Z * list Z) :=
  match s with
  | [] => None
  | c :: s => if c =? 45 then Some ([], s) else match cut_dash s with Some (a, b) => Some (c :: a, b) | None => None end
  end.

(** The loop from [lo] to [hi] on 32 bits; without end when [hi] is the greatest
    value, and then no fuel is enough. *)
Fixpoint insert_range (fuel : nat) (c hi : Z) (s : gset Z) : option (gset Z) :=
  match fuel with
  | O => None
  | S fuel => if c <=? hi then insert_range fuel (u32 (c + 1)) hi ({[c]} ∪ s) else Some s
  end.

(** What the loop over the ranges comes to. *)
Inductive parsed : Type := Cpus (s : gset Z) | ParseError | Endless.

Fixpoint parse_ranges (ranges : list (list Z)) (s : gset Z) : parsed :=
  match ranges with
  | [] => Cpus s
  | [] :: ranges => parse_ranges ranges s
  | range :: ranges =>
      match cut_dash range with
      | Some (a, b) =>
          match stoul a, stoul b with
          | Some lo, Some hi =>
              match insert_range (S (Z.to_nat (u32 hi + 1 - u32 lo))) (u32 lo) (u32 hi) s with Some s => parse_ranges ranges s | None => Endless end
          | _, _ => ParseError
          end
      | None => match stoul range with Some c => parse_ranges ranges ({[u32 c]} ∪ s) | None => ParseError end
      end
  end.
Definition parse_cpulist (cpulist : list Z) : parsed := parse_ranges (split_at 44 cpulist) ∅.

(** ** NUMA nodes *)

Definition set_numa (node : Z) (cpus_in_node : gset Z) (pc : PhysicalCore) : PhysicalCore :=
  if existsb (λ lid, bool_decide (lid ∈ cpus_in_node)) (logical_ids pc) then mkCore (physical_id pc) node (type pc) (logical_ids pc) else pc.

(** The body of the loop over the nodes; [None] if it does not end. *)
Definition scan_node (sys : Sysfs) (node : Z) (st : list PhysicalCore * gset Z) : option (list PhysicalCore * gset Z) :=
  let '(cores, numa_nodes) := st in
  match node_cpulist sys node with
  | None => Some st
  | Some cpulist =>
      match parse_cpulist cpulist with
      | Cpus cpus => Some (set_numa node cpus <$> cores, {[node]} ∪ numa_nodes)
      | ParseError => Some (cores, {[node]} ∪ numa_nodes)
      | Endless => None
      end
  end.
Definition scan_nodes (sys : Sysfs) (cores : list PhysicalCore) : option (list PhysicalCore * gset Z) :=
  foldl (λ st i, st ≫= scan_node sys (Z.of_nat i)) (Some (cores, ∅)) (seq 0 256).

(** ** Performance and efficiency cores *)

(** The loop that reads the capacities, up to the first that is missing. *)
Fixpoint read_capacities (sys : Sysfs) (n : nat) (cpu : Z) (caps : gmap Z Z) (max_cap : Z) : gmap Z Z * Z :=
  match n with
  | O => (caps, max_cap)
  | S n =>
      match cpu_capacity sys cpu with
      | None => (caps, max_cap)
      | Some cap => read_capacities sys n (cpu + 1) (<[cpu := cap]> caps) (if max_cap <? cap then cap else max_cap)
      end
  end.

Definition set_type (caps : gmap Z Z) (max_cap : Z) (pc : PhysicalCore) : PhysicalCore :=
  match logical_ids pc with
  | [] => pc
  | l :: _ =>
      match caps !! l with
      | Some cap => mkCore (physical_id pc) (numa_node pc) (if cap =? max_cap then Performance else Efficiency) (logical_ids pc)
      | None => pc
      end
  end.
Definition classify (sys : Sysfs) (cores : list PhysicalCore) : list PhysicalCore :=
  let '(caps, max_cap) := read_capacities sys (Z.to_nat (concurrency sys)) 0 ∅ 0 in
  if negb (bool_decide (caps = ∅)) && (0 <? max_cap) && existsb (λ kc, negb (kc.2 =? max_cap)) (map_to_list caps)
  then set_type caps max_cap <$> cores else cores.

(** [discover_topology_impl]; [None] if it does not end. *)
Definition discover_topology (sys : Sysfs) : option CpuTopology :=
  let '(cores, _) := scan_cpus sys in
  '(cores, numa_nodes) ← scan_nodes sys cores;
  let numa_node_count := if decide (numa_nodes = ∅) then 1 else Z.of_nat (size numa_nodes) in
  let cores := classify sys cores in
  Some (match cores with [] => make_fallback_topology sys | _ :: _ => mkTopology cores numa_node_count end).

Definition cores_by_numa (node : Z) (t : CpuTopology) : list PhysicalCore := filter (λ pc, numa_node pc = node) (physical_cores t).
Definition performance_cores (t : CpuTopology) : list PhysicalCore := filter (λ pc, type pc = Performance) (physical_cores t).
Definition efficiency_cores (t : CpuTopology) : list PhysicalCore := filter (λ pc, type pc = Efficiency) (physical_cores t).
Definition physical_core_count (t : CpuTopology) : Z := u32 (len (physical_cores t)).
Definition logical_core_count (t : CpuTopology) : Z := foldl (λ total pc, u32 (total + u32 (len (logical_ids pc)))) 0 (physical_cores t).

Definition summary (t : CpuTopology) : list Z :=
  let p_count := len (performance_cores t) in
  let e_count := len (efficiency_cores t) in
  to_text (physical_core_count t) ++ bytes_of " physical cores" ++
  (if (0 <? p_count) || (0 <? e_count) then bytes_of " (" ++ to_text p_count ++ bytes_of "P+" ++ to_text e_count ++ bytes_of "E)" else []) ++
  bytes_of ", " ++ to_text (logical_core_count t) ++ bytes_of " logical" ++
  bytes_of ", " ++ to_text (numa_node_count t) ++ bytes_of " NUMA node" ++ (if 1 <? numa_node_count t then bytes_of "s" else []).

End Topology.
Import Topology.

(** ** Reading the list of processors *)

(** The kernel's format: single processors and ranges, separated by commas. *)
Definition print_range (r : Z * Z) : list Z := if r.1 =? r.2 then to_text r.1 else to_text r.1 ++ [45] ++ to_text r.2.
Definition print_cpulist (rs : list (Z * Z)) : list Z :=
  match rs with [] => [] | r :: rs => print_range r ++ (rs ≫= λ r, 44 :: print_range r) end.
Definition in_ranges (rs : list (Z * Z)) (c : Z) : Prop := Exists (λ r, r.1 <= c <= r.2) rs.

Lemma insert_range_spec fuel c hi s : 0 <= c -> hi < 2 ^ 32 - 1 -> (Z.to_nat (hi + 1 - c) < fuel)%nat ->
  exists s', insert_range fuel c hi s = Some s' /\ forall x, x ∈ s' <-> x ∈ s \/ c <= x <= hi.
Proof.
  revert c s. induction fuel as [| fuel IH]; intros c s Hc Hhi Hf; [lia |]. cbn [insert_range]. destruct (Z.leb_spec c hi).
  - rewrite wrap_small by (unfold in_width; lia). destruct (IH (c + 1) ({[c]} ∪ s)) as (s' & E & Hs'); [lia.. |]. exists s'. split; [done |].
    intros x. rewrite Hs', elem_of_union, elem_of_singleton. intuition lia.
  - exists s. split; [done |]. intros x. intuition lia.
Qed.

(** The greatest 32-bit number as an upper end keeps the loop going for ever. *)
Lemma insert_range_endless fuel c s : in_width 32 c -> insert_range fuel c (2 ^ 32 - 1) s = None.
Proof.
  revert c s. induction fuel as [| fuel IH]; intros c s Hc; [done |]. cbn [insert_range]. rewrite (proj2 (Z.leb_le _ _)) by (unfold in_width in Hc; lia).
  apply IH. by apply wrap_range.
Qed.

Lemma cut_dash_none s : Forall (λ c, is_digit c = true) s -> cut_dash s = None.
Proof. induction 1 as [| c s Hc _ IH]; [done |]. cbn. rewrite IH. destruct (Z.eqb_spec c 45) as [-> |]; done. Qed.

Lemma cut_dash_some a b : Forall (λ c, is_digit c = true) a -> cut_dash (a ++ 45 :: b) = Some (a, b).
Proof. induction 1 as [| c s Hc _ IH]; [done |]. cbn. rewrite IH. destruct (Z.eqb_spec c 45) as [-> |]; done. Qed.

Definition range_ok (r : Z * Z) : Prop := 0 <= r.1 <= r.2 /\ r.2 < 2 ^ 32 - 1.

Lemma print_range_word r : range_ok r -> (44 ∉ print_range r) /\ print_range r <> [].
Proof.
  intros [Hr _]. destruct (to_text_digits r.1) as (H1 & _ & N1); [lia |]. destruct (to_text_digits r.2) as (H2 & _ & _); [lia |].
  pose proof (digits_avoid 44 _ eq_refl H1). pose proof (digits_avoid 44 _ eq_refl H2). unfold print_range. destruct (_ =? _); [done |]. split; [set_solver |].
  by destruct (to_text r.1).
Qed.

Lemma split_print r rs : Forall range_ok (r :: rs) -> split_at 44 (print_cpulist (r :: rs)) = print_range <$> r :: rs.
Proof.
  cbn [print_cpulist]. revert r. induction rs as [| r' rs IH]; intros r [Hr Hrs]%Forall_cons; destruct (print_range_word r Hr) as [Hw _].
  - rewrite app_nil_r. by apply split_at_all.
  - cbn [mbind list_bind]. rewrite <- app_comm_cons. rewrite split_at_app by done. cbn [fmap list_fmap]. f_equal. by apply IH.
Qed.

Lemma parse_print rs s : Forall range_ok rs -> exists s', parse_ranges (print_range <$> rs) s = Cpus s' /\ forall x, x ∈ s' <-> x ∈ s \/ in_ranges rs x.
Proof.
  intros Hrs. revert s. induction Hrs as [| r rs Hr _ IH]; intros s.
  { exists s. split; [done |]. intros x. unfold in_ranges. rewrite Exists_nil. intuition. }
  destruct (print_range_word r Hr) as [_ Hne]. destruct Hr as [Hr Hmax]. destruct (to_text_digits r.1) as (H1 & _ & N1); [lia |].
  cbn [fmap list_fmap]. unfold parse_ranges at 1; fold parse_ranges. destruct (print_range r) as [| c w] eqn:Ep; [done |]. rewrite <- Ep. unfold print_range.
  assert (Hu : forall n, 0 <= n <= r.2 -> stoul (to_text n) = Some n /\ u32 n = n).
  { intros n Hn. split; [apply stoul_to_text; unfold in_width; lia | apply wrap_small; unfold in_width; lia]. }
  destruct (Hu r.1) as [S1 U1], (Hu r.2) as [S2 U2]; [lia.. |]. destruct (Z.eqb_spec r.1 r.2) as [E |].
  - rewrite cut_dash_none, S1, U1 by done. destruct (IH ({[r.1]} ∪ s)) as (s' & Es & Hs). exists s'. split; [done |]. intros x.
    rewrite Hs, elem_of_union, elem_of_singleton. unfold in_ranges. rewrite Exists_cons. intuition lia.
  - cbn [app]. rewrite cut_dash_some, S1, S2, U1, U2 by done. destruct (insert_range_spec (S (Z.to_nat (r.2 + 1 - r.1))) r.1 r.2 s) as (s1 & -> & Hs1); [lia.. |].
    destruct (IH s1) as (s' & Es & Hs). exists s'. split; [done |]. intros x. rewrite Hs, Hs1. unfold in_ranges. rewrite Exists_cons. intuition.
Qed.

(** Every list of processors the kernel writes is read back as the set it denotes. *)
Theorem cpulist_roundtrip rs : Forall range_ok rs ->
  exists s, parse_cpulist (print_cpulist rs) = Cpus s /\ forall c, c ∈ s <-> in_ranges rs c.
Proof.
  intros Hrs. unfold parse_cpulist. destruct rs as [| r rs].
  - exists ∅. split; [done |]. intros c. unfold in_ranges. rewrite Exists_nil. set_solver.
  - rewrite split_print by done. destruct (parse_print (r :: rs) ∅ Hrs) as (s & E & Hs). exists s. split; [done |]. intros c. rewrite Hs. set_solver.
Qed.

(** ** Threads of one core are grouped *)

Section Discovery.
Context (sys : Sysfs).

(** The package and core a logical processor is found to belong to. *)
Definition place (cpu : Z) : option (Z * Z) :=
  match online sys cpu, physical_package_id sys cpu, core_id sys cpu with
  | Some 0, _, _ | _, None, _ | _, _, None => None
  | _, Some package_id, Some id => Some (package_id, id)
  end.

(** The first [n] processors at the place [key]. *)
Definition siblings (n : nat) (key : Z * Z) : list Z := filter (λ c, place c = Some key) (Z.of_nat <$> seq 0 n).

Lemma siblings_S n key : siblings (S n) key = siblings n key ++ (if decide (place (Z.of_nat n) = Some key) then [Z.of_nat n] else []).
Proof. unfold siblings. rewrite seq_S, fmap_app, filter_app. cbn [fmap list_fmap]. rewrite filter_cons, filter_nil. by destruct (decide _). Qed.

Lemma elem_of_siblings n key c : c ∈ siblings n key <-> place c = Some key /\ 0 <= c < Z.of_nat n.
Proof.
  unfold siblings. rewrite list_elem_of_filter, list_elem_of_fmap. split.
  - intros [Hp (i & -> & Hi%elem_of_seq)]. split; [done | lia].
  - intros [Hp Hc]. split; [done |]. exists (Z.to_nat c). split; [lia |]. apply elem_of_seq. lia.
Qed.

(** What is known of a core before nodes and kinds. *)
Definition fresh_core (n : nat) (i : nat) (key : Z * Z) : PhysicalCore := mkCore (u32 (Z.of_nat i)) 0 Unknown (siblings n key).

Record scanned (n : nat) (keys : list (Z * Z)) (st : list PhysicalCore * gmap (Z * Z) nat) : Prop := {
  sc_nodup : NoDup keys;
  sc_cores : st.1 = imap (fresh_core n) keys;
  sc_map key i : st.2 !! key = Some i <-> keys !! i = Some key;
  sc_seen key : key ∈ keys <-> siblings n key <> [];
}.

Lemma scan_cpu_place cpu st : scan_cpu sys cpu st =
  match place cpu with
  | None => st
  | Some key =>
      match st.2 !! key with
      | None => (st.1 ++ [mkCore (u32 (len st.1)) 0 Unknown [cpu]], <[key := length st.1]> st.2)
      | Some i => (alter (add_sibling cpu) i st.1, st.2)
      end
  end.
Proof.
  destruct st as [cores m]. unfold scan_cpu, place. destruct (online sys cpu) as [[| o | o] |]; try done;
    destruct (physical_package_id sys cpu), (core_id sys cpu); done.
Qed.

Lemma scan_none n keys st : scanned n keys st -> place (Z.of_nat n) = None -> scanned (S n) keys st.
Proof.
  intros [Hn Hc Hm Hs] Hp. assert (E : forall key, siblings (S n) key = siblings n key) by (intros key; rewrite siblings_S, decide_False by congruence; by rewrite app_nil_r).
  split; [done | | done | intros key; by rewrite E]. rewrite Hc. apply imap_ext. intros i key _. unfold fresh_core. by rewrite E.
Qed.

Lemma scan_new n keys st key : scanned n keys st -> place (Z.of_nat n) = Some key -> st.2 !! key = None ->
  scanned (S n) (keys ++ [key]) (st.1 ++ [mkCore (u32 (len st.1)) 0 Unknown [Z.of_nat n]], <[key := length st.1]> st.2).
Proof.
  intros [Hn Hc Hm Hs] Hp Hnone. assert (Hnk : key ∉ keys) by (intros [i Hi]%list_elem_of_lookup; apply Hm in Hi; congruence).
  assert (Hempty : siblings n key = []) by (destruct (siblings n key) eqn:E; [done |]; exfalso; apply Hnk, Hs; by rewrite E).
  assert (Hlen : length st.1 = length keys) by (by rewrite Hc, length_imap).
  assert (E : forall k, k <> key -> siblings (S n) k = siblings n k) by (intros k Hk; rewrite siblings_S, decide_False by congruence; by rewrite app_nil_r).
  assert (E' : siblings (S n) key = [Z.of_nat n]) by (by rewrite siblings_S, Hempty, decide_True by done).
  split; cbn [fst snd].
  - apply NoDup_app. split_and!; [done | set_solver | apply NoDup_singleton].
  - rewrite imap_app. f_equal.
    + rewrite Hc. apply imap_ext. intros i k Hk%list_elem_of_lookup_2. unfold fresh_core. rewrite E; [done |]. by intros ->.
    + cbn. unfold fresh_core. rewrite E', Nat.add_0_r. unfold len. by rewrite Hlen.
  - intros k i. rewrite lookup_insert_Some, lookup_app_Some, list_lookup_singleton_Some, Hm, Hlen. split.
    + intros [[<- <-] | [Hk Hi]]; [right; split; [done |]; split; [lia | done] | by left].
    + intros [Hi | (Hge & Hi & <-)]; [right; split; [| done]; intros <-; by apply Hnk, (list_elem_of_lookup_2 _ i) | left; split; [done | lia]].
  - intros k. rewrite elem_of_app, list_elem_of_singleton. destruct (decide (k = key)) as [-> | Hk]; [rewrite E'; intuition done | rewrite (E k Hk), Hs; intuition].
Qed.

Lemma scan_known n keys st key i : scanned n keys st -> place (Z.of_nat n) = Some key -> st.2 !! key = Some i ->
  scanned (S n) keys (alter (add_sibling (Z.of_nat n)) i st.1, st.2).
Proof.
  intros [Hn Hc Hm Hs] Hp Hi. pose proof (proj1 (Hm key i) Hi) as Hki.
  split; cbn [fst snd]; [done | | done |].
  - apply list_eq. intros j. rewrite list_lookup_imap. destruct (decide (j = i)) as [-> | Hne].
    + rewrite list_lookup_alter_eq, Hc, list_lookup_imap, Hki. cbn [fmap option_fmap option_map]. f_equal. unfold add_sibling, fresh_core. cbn [physical_id numa_node type logical_ids]. by rewrite siblings_S, decide_True.
    + rewrite list_lookup_alter_ne, Hc, list_lookup_imap by done. destruct (keys !! j) as [k |] eqn:Ej; [| done]. cbn [fmap option_fmap option_map]. f_equal. unfold fresh_core.
      rewrite siblings_S, decide_False, app_nil_r; [done |]. intros E. rewrite Hp in E. injection E as <-. apply Hne. by eapply NoDup_lookup.
  - intros k. rewrite Hs, siblings_S. destruct (decide _) as [E |]; [| by rewrite app_nil_r]. rewrite Hp in E. injection E as <-.
    split; [intros _ [_ ?]%app_nil; done |]. intros _. by apply Hs, (list_elem_of_lookup_2 _ i).
Qed.

Lemma scan_cpus_ok : exists keys, scanned (Z.to_nat (concurrency sys)) keys (scan_cpus sys).
Proof.
  unfold scan_cpus. generalize (Z.to_nat (concurrency sys)) as n. induction n as [| n [keys IH]].
  { exists []. cbn. split; [apply NoDup_nil_2 | done | by intros |]. intros key. split; [by intros ?%elem_of_nil | done]. }
  rewrite seq_S, foldl_app. cbn [foldl]. rewrite scan_cpu_place. destruct (place (Z.of_nat _)) as [key |] eqn:Ep; [| exists keys; by apply scan_none].
  destruct (_ !! key) as [i |] eqn:Em; [exists keys; by eapply scan_known | exists (keys ++ [key]); by apply scan_new].
Qed.

(** Whether the list of [node] names a thread of the core. *)
Definition meets (node : Z) (pc : PhysicalCore) : bool :=
  match node_cpulist sys node with
  | Some l => match parse_cpulist l with Cpus cpus => existsb (λ lid, bool_decide (lid ∈ cpus)) (logical_ids pc) | _ => false end
  | None => false
  end.

Definition with_numa (node : Z) (pc : PhysicalCore) : PhysicalCore := mkCore (physical_id pc) node (type pc) (logical_ids pc).

(** The last of [nodes] that names a thread of the core. *)
Definition numa_after (nodes : list Z) (pc : PhysicalCore) : PhysicalCore :=
  with_numa (default (numa_node pc) (last (filter (λ n, meets n pc = true) nodes))) pc.

Lemma numa_after_cons n nodes pc : numa_after (n :: nodes) pc = numa_after nodes (if meets n pc then with_numa n pc else pc).
Proof.
  unfold numa_after. rewrite filter_cons. destruct (meets n pc) eqn:E; [| by rewrite decide_False by congruence]. rewrite decide_True by done.
  assert (Em : filter (λ k, meets k (with_numa n pc) = true) nodes = filter (λ k, meets k pc = true) nodes) by done. rewrite Em, last_cons.
  unfold with_numa. cbn [physical_id numa_node type logical_ids]. by destruct (last _).
Qed.

Context (Hends : forall node l, node_cpulist sys node = Some l -> parse_cpulist l <> Endless).

Lemma scan_nodes_spec (l : list nat) (cores : list PhysicalCore) (s : gset Z) :
  exists s', foldl (λ (st : option _) i, st ≫= scan_node sys (Z.of_nat i)) (Some (cores, s)) l = Some (numa_after (Z.of_nat <$> l) <$> cores, s').
Proof.
  revert cores s. induction l as [| i l IH]; intros cores s; cbn [foldl fmap list_fmap].
  { exists s. do 2 f_equal. symmetry. apply list_eq. intros j. rewrite list_lookup_fmap. destruct (cores !! j) as [pc |]; [| done]. cbn. unfold numa_after. cbn. by destruct pc. }
  cbn [mbind option_bind]. assert (Hstep : exists s', scan_node sys (Z.of_nat i) (cores, s) = Some ((λ pc, if meets (Z.of_nat i) pc then with_numa (Z.of_nat i) pc else pc) <$> cores, s')).
  { unfold scan_node, meets. destruct (node_cpulist sys (Z.of_nat i)) as [txt |] eqn:El; [| exists s; by rewrite list_fmap_id].
    pose proof (Hends _ _ El) as Hne. destruct (parse_cpulist txt) as [cpus | |]; [eexists; done | eexists; by rewrite list_fmap_id | done]. }
  destruct Hstep as (s1 & ->). destruct (IH ((λ pc, if meets (Z.of_nat i) pc then with_numa (Z.of_nat i) pc else pc) <$> cores) s1) as (s' & ->). exists s'.
  do 2 f_equal. rewrite <- list_fmap_compose. apply list_fmap_ext. intros j pc _. cbn [compose]. symmetry. apply numa_after_cons.
Qed.

(** The kind alone is decided at the end. *)
Lemma classify_fmap cores : exists kind, classify sys cores = (λ pc, mkCore (physical_id pc) (numa_node pc) (kind pc) (logical_ids pc)) <$> cores.
Proof.
  unfold classify. destruct (read_capacities _ _ _ _ _) as [caps max_cap]. destruct (_ && _).
  - exists (λ pc, type (set_type caps max_cap pc)). apply list_fmap_ext. intros i pc _. unfold set_type. destruct pc as [p n t [| l ls]]; cbn; [done |]. by destruct (caps !! l).
  - exists type. symmetry. apply list_eq. intros j. rewrite list_lookup_fmap. destruct (cores !! j) as [pc |]; [| done]. cbn. by destruct pc.
Qed.

Lemma place_filter n : Forall (λ c, place c = None) (Z.of_nat <$> seq 0 n) <-> forall key, siblings n key = [].
Proof.
  rewrite Forall_forall. split.
  - intros Hp key. destruct (siblings n key) as [| c l] eqn:E; [done |]. assert (Hc : c ∈ siblings n key) by (rewrite E; left). apply elem_of_siblings in Hc as [Hc Hr].
    rewrite Hp in Hc; [done |]. apply list_elem_of_fmap. exists (Z.to_nat c). split; [lia |]. apply elem_of_seq. lia.
  - intros Hs c (i & -> & Hi%elem_of_seq)%list_elem_of_fmap. destruct (place (Z.of_nat i)) as [key |] eqn:E; [| done].
    assert (Hc : Z.of_nat i ∈ siblings n key) by (apply elem_of_siblings; split; [done | lia]). rewrite Hs in Hc. by apply elem_of_nil in Hc.
Qed.

Abbreviation N := (Z.to_nat (concurrency sys)).
Abbreviation nodes := (Z.of_nat <$> seq 0 256).

(** The cores found, one for each place. *)
Lemma discover_cases : exists t, discover_topology sys = Some t /\
  ((forall key, siblings N key = []) /\ t = make_fallback_topology sys \/
   exists keys kind, NoDup keys /\ keys <> [] /\ (forall key, key ∈ keys <-> siblings N key <> []) /\
     physical_cores t = imap (λ i key, let pc := numa_after nodes (fresh_core N i key) in mkCore (physical_id pc) (numa_node pc) (kind pc) (logical_ids pc)) keys /\
     physical_cores t = classify sys (imap (λ i key, numa_after nodes (fresh_core N i key)) keys)).
Proof.
  unfold discover_topology. destruct scan_cpus_ok as [keys [Hn Hc Hm Hs]]. destruct (scan_cpus sys) as [cores m]. cbn [fst snd] in *. subst cores.
  destruct (scan_nodes_spec (seq 0 256) (imap (fresh_core N) keys) ∅) as (s' & E). fold (scan_nodes sys (imap (fresh_core N) keys)) in E. revert E.
  generalize (Z.of_nat <$> seq 0 256) as nl. intros nl ->. cbn [mbind option_bind].
  rewrite fmap_imap. destruct (classify_fmap (imap (λ i key, numa_after nl (fresh_core N i key)) keys)) as [kind Hk]. unfold compose.
  destruct keys as [| key keys]; [eexists; split; [rewrite Hk; done |]; left; split; [| done] |].
  - intros key. destruct (siblings N key) eqn:E; [done |]. assert (key ∈ []) as ?%elem_of_nil; [| done]. apply Hs. by rewrite E.
  - eexists. split; [done |]. right. exists (key :: keys), kind. rewrite Hk, fmap_imap. done.
Qed.

Lemma siblings_nodup n key : NoDup (siblings n key).
Proof. apply NoDup_filter, NoDup_fmap_2; [intros ? ? ?; lia | apply NoDup_seq]. Qed.

Lemma primary_in pc : logical_ids pc <> [] -> primary_logical_id pc ∈ logical_ids pc.
Proof. unfold primary_logical_id. destruct (logical_ids pc); [done |]. left. Qed.

Lemma elem_of_concat {A} (x : A) ls : x ∈ concat ls <-> exists l, x ∈ l /\ l ∈ ls.
Proof. rewrite list_elem_of_In, in_concat. by setoid_rewrite list_elem_of_In; naive_solver. Qed.

Lemma concat_siblings_nodup n keys : NoDup keys -> NoDup (concat (siblings n <$> keys)).
Proof.
  induction 1 as [| key keys Hk _ IH]; cbn; [apply NoDup_nil_2 |]. apply NoDup_app. split_and!; [apply siblings_nodup | | done].
  intros c [Hc _]%elem_of_siblings. intros (l & Hc' & (k & -> & Hin)%list_elem_of_fmap)%elem_of_concat. apply elem_of_siblings in Hc' as [Hc' _]. congruence.
Qed.

Lemma concat_singletons {A B} (f : A -> B) l : concat ((λ x, [f x]) <$> l) = f <$> l.
Proof. induction l as [| x l IH]; [done |]. cbn. by rewrite IH. Qed.

Lemma elem_of_cores {t keys} {kind : PhysicalCore -> CoreType} {nl pc} :
  physical_cores t = imap (λ i key, let pc := numa_after nl (fresh_core N i key) in mkCore (physical_id pc) (numa_node pc) (kind pc) (logical_ids pc)) keys ->
  pc ∈ physical_cores t -> exists i key, key ∈ keys /\ logical_ids pc = siblings N key /\ numa_node pc = numa_node (numa_after nl (fresh_core N i key)).
Proof.
  intros -> [i Hi]%list_elem_of_lookup. rewrite list_lookup_imap in Hi. destruct (keys !! i) as [key |] eqn:E; [| done]. injection Hi as <-.
  exists i, key. split_and!; [by eapply list_elem_of_lookup_2 | done | done].
Qed.

(** The capacities, when the kernel gives one for each processor. *)
Lemma read_capacities_spec (cap : Z -> Z) n cpu caps max : (forall c, cpu <= c < cpu + Z.of_nat n -> cpu_capacity sys c = Some (cap c)) ->
  exists caps' max', read_capacities sys n cpu caps max = (caps', max') /\
    (forall c, cpu <= c < cpu + Z.of_nat n -> caps' !! c = Some (cap c) /\ cap c <= max') /\ (forall c, c < cpu -> caps' !! c = caps !! c) /\
    (forall c v, caps' !! c = Some v -> caps !! c = Some v \/ cpu <= c < cpu + Z.of_nat n /\ v = cap c) /\
    max <= max' /\ (max' = max \/ exists c, cpu <= c < cpu + Z.of_nat n /\ cap c = max').
Proof.
  revert cpu caps max. induction n as [| n IH]; intros cpu caps max Hcap; cbn [read_capacities].
  { exists caps, max. split; [done |]. split; [intros; lia |]. split; [done |]. split; [by left | split; [lia | by left]]. }
  rewrite Hcap by lia. set (m1 := if max <? cap cpu then cap cpu else max). assert (Hm1 : max <= m1 /\ cap cpu <= m1) by (unfold m1; destruct (Z.ltb_spec max (cap cpu)); lia).
  destruct (IH (cpu + 1) (<[cpu := cap cpu]> caps) m1) as (caps' & max' & -> & H1 & H2 & H3 & H4 & H5); [intros c Hc; apply Hcap; lia |].
  exists caps', max'. split; [done |]. split_and!; [| | | lia |].
  - intros c Hc. destruct (decide (c = cpu)) as [-> |]; [rewrite H2, lookup_insert_eq by lia; split; [done | lia] | apply H1; lia].
  - intros c Hc. rewrite H2 by lia. by rewrite lookup_insert_ne by lia.
  - intros c v Hv. destruct (H3 c v Hv) as [[[<- <-] | [_ Hv']]%lookup_insert_Some | [Hc ->]]; [right; split; [lia | done] | by left | right; split; [lia | done]].
  - destruct H5 as [-> | (c & Hc & <-)]; [| right; exists c; split; [lia | done]]. unfold m1. destruct (Z.ltb_spec max (cap cpu)); [right; exists cpu; split; [lia | done] | by left].
Qed.

Lemma classify_kinds (cap : Z -> Z) cores pc : (forall c, 0 <= c < Z.of_nat N -> cpu_capacity sys c = Some (cap c) /\ 0 <= cap c) ->
  Forall (λ pc, type pc = Unknown /\ 0 <= primary_logical_id pc < Z.of_nat N /\ logical_ids pc <> []) cores -> pc ∈ classify sys cores ->
  match type pc with
  | Performance => forall c, 0 <= c < Z.of_nat N -> cap c <= cap (primary_logical_id pc)
  | Efficiency => exists c, 0 <= c < Z.of_nat N /\ cap (primary_logical_id pc) < cap c
  | Unknown => forall c c', 0 <= c < Z.of_nat N -> 0 <= c' < Z.of_nat N -> cap c = cap c'
  end.
Proof.
  intros Hcap Hcores. unfold classify.
  destruct (read_capacities_spec cap N 0 ∅ 0) as (caps & max & -> & H1 & _ & H3 & H4 & H5); [intros c Hc; apply Hcap; lia |].
  rewrite Forall_forall in Hcores. destruct (_ && _) eqn:Eb; intros Hin.
  - apply list_elem_of_fmap in Hin as (pc0 & -> & Hin). destruct (Hcores pc0 Hin) as (_ & Hp & Hne). unfold set_type, primary_logical_id in *.
    destruct pc0 as [p nn t [| l ls]]; [done |]. cbn in *. destruct (H1 l) as [-> Hl]; [lia |]. cbn. destruct (Z.eqb_spec (cap l) max) as [-> | Hlt]; cbn.
    + intros c Hc. apply H1. lia.
    + destruct H5 as [-> | (c & Hc & <-)]; [| exists c; split; [lia |]; lia]. exfalso. pose proof (proj2 (Hcap l ltac:(lia))). lia.
  - destruct (Hcores pc Hin) as (-> & Hp & _). assert (Hsame : forall c, 0 <= c < Z.of_nat N -> cap c = max).
    { intros c Hc. destruct (H1 c) as [Hcc Hle]; [lia |]. destruct (decide (cap c = max)) as [| Hne]; [done | exfalso]. apply not_true_iff_false in Eb. apply Eb.
      rewrite !andb_true_iff. pose proof (proj2 (Hcap c ltac:(lia))). split_and!.
      - apply negb_true_iff, bool_decide_eq_false. intros E. by rewrite E in Hcc.
      - apply Z.ltb_lt. lia.
      - apply existsb_exists. exists (c, cap c). split; [by apply list_elem_of_In, elem_of_map_to_list |]. cbn. apply negb_true_iff, Z.eqb_neq. done. }
    intros c c' Hc Hc'. by rewrite !Hsame.
Qed.

Lemma numa_unique n i key pc node : logical_ids pc = siblings n key -> numa_node pc = numa_node (numa_after nodes (fresh_core n i key)) ->
  0 <= node < 256 -> meets node pc = true -> (forall other, 0 <= other < 256 -> meets other pc = true -> other = node) -> numa_node pc = node.
Proof.
  intros Hl Hn Hnode Hm Honly. rewrite Hn. unfold numa_after. cbn [numa_node with_numa].
  assert (Em : forall k, meets k (fresh_core n i key) = meets k pc) by (intros k; unfold meets; by rewrite Hl).
  destruct (last _) as [k |] eqn:El.
  - apply last_Some_elem_of, list_elem_of_filter in El as [Hk (j & -> & Hj%elem_of_seq)%list_elem_of_fmap]. cbn. apply Honly; [lia |]. by rewrite <- Em.
  - apply last_None in El. exfalso. assert (node ∈ filter (λ k, meets k (fresh_core n i key) = true) nodes) as Hin; [| rewrite El in Hin; by apply elem_of_nil in Hin].
    apply list_elem_of_filter. split; [by rewrite Em |]. apply list_elem_of_fmap. exists (Z.to_nat node). split; [lia |]. apply elem_of_seq. lia.
Qed.

Lemma NoDup_imap {A B} (f : nat -> A -> B) l : (forall i j x y, l !! i = Some x -> l !! j = Some y -> f i x = f j y -> i = j) -> NoDup (imap f l).
Proof.
  intros Hinj. apply NoDup_alt. intros i j y Hi Hj. rewrite list_lookup_imap in Hi, Hj.
  destruct (l !! i) as [x |] eqn:Ei, (l !! j) as [x' |] eqn:Ej; try done. injection Hi as <-. injection Hj as E. symmetry in E. by eapply Hinj.
Qed.

(** One thread of each core, for the workers. *)
Lemma first_threads t : discover_topology sys = Some t ->
  physical_cores t <> [] /\ NoDup (primary_logical_id <$> physical_cores t) /\ Forall (λ pc, 0 <= primary_logical_id pc < Z.of_nat N) (physical_cores t).
Proof.
  intros E. destruct discover_cases as (t' & E' & Ht). rewrite E in E'. injection E' as <-. destruct Ht as [[_ ->] | (keys & kind & Hn & Hne & Hk & Hc & _)].
  - cbn [physical_cores make_fallback_topology]. split_and!.
    + intros Eq%fmap_nil_inv%(f_equal length). rewrite length_seq in Eq. cbn in Eq. unfold concurrency in Eq. destruct (Z.ltb_spec 0 (hardware_concurrency sys)); lia.
    + rewrite <- list_fmap_compose. apply (NoDup_fmap_2 (λ i : nat, Z.of_nat i)), NoDup_seq.
    + apply Forall_fmap, Forall_forall. intros i Hi%elem_of_seq. cbn. lia.
  - assert (Hin : forall pc, pc ∈ physical_cores t -> exists i key, physical_cores t !! i = Some pc /\ keys !! i = Some key /\ primary_logical_id pc ∈ siblings N key).
    { intros pc [i Hi]%list_elem_of_lookup. pose proof Hi as Hi'. rewrite Hc, list_lookup_imap in Hi'. destruct (keys !! i) as [key |] eqn:Ek; [| done]. injection Hi' as <-.
      eexists i, key. split_and!; [exact Hi | done |]. apply (primary_in (mkCore _ _ _ _)). apply Hk. by eapply list_elem_of_lookup_2. }
    split_and!.
    + intros Eq. rewrite Eq in Hc. symmetry in Hc. apply (f_equal length) in Hc. rewrite length_imap in Hc. by destruct keys.
    + apply NoDup_fmap_2_strong; [intros pc pc' H1 H2 Ep |].
      2:{ rewrite Hc. apply NoDup_imap. intros i j x y Hx Hy [= _ _ _ El]. destruct (siblings N x) as [| c l] eqn:Es; [by apply list_elem_of_lookup_2, Hk in Hx |].
          assert (c ∈ siblings N x) as [P1 _]%elem_of_siblings by (rewrite Es; left). assert (c ∈ siblings N y) as [P2 _]%elem_of_siblings by (rewrite <- El; left).
          rewrite P1 in P2. injection P2 as <-. by eapply NoDup_lookup. }
      destruct (Hin pc H1) as (i & key & L1 & K1 & S1), (Hin pc' H2) as (j & key' & L2 & K2 & S2). rewrite Ep in S1.
      apply elem_of_siblings in S1 as [P1 _], S2 as [P2 _]. rewrite P1 in P2. injection P2 as <-. pose proof (NoDup_lookup _ _ _ _ Hn K1 K2) as ->. congruence.
    + apply Forall_forall. intros pc Hpc. destruct (Hin pc Hpc) as (i & key & _ & _ & Hs). by apply elem_of_siblings in Hs as [_ ?].
Qed.

(** The discovery of the processors ends, whatever the kernel's files hold, when
    no list of processors goes up to the greatest 32-bit number. It finds at least one
    core; no logical processor is in two cores and each core has a thread, so that the
    first threads of the cores are distinct. When some processor is on line with a
    readable place, the cores are exactly the classes of processors at one place; a
    core whose threads one node lists is of that node; and with capacities known, the
    performance cores are those of greatest capacity, the efficiency cores have less,
    and the kind stays unknown only on a uniform machine. Otherwise there is one core
    of unknown kind for each processor. *)
Theorem topology_discovered : exists t, discover_topology sys = Some t /\
  physical_cores t <> [] /\ NoDup (concat (logical_ids <$> physical_cores t)) /\ (forall pc, pc ∈ physical_cores t -> logical_ids pc <> []) /\
  ((forall c, 0 <= c < concurrency sys -> place c = None) /\ t = make_fallback_topology sys \/
   (forall c, c ∈ concat (logical_ids <$> physical_cores t) <-> 0 <= c < concurrency sys /\ is_Some (place c)) /\
   (forall pc c c', pc ∈ physical_cores t -> c ∈ logical_ids pc -> 0 <= c' < concurrency sys -> c' ∈ logical_ids pc <-> place c' = place c) /\
   (forall pc node, pc ∈ physical_cores t -> 0 <= node < 256 -> meets node pc = true ->
      (forall other, 0 <= other < 256 -> meets other pc = true -> other = node) -> numa_node pc = node) /\
   (forall cap, (forall c, 0 <= c < concurrency sys -> cpu_capacity sys c = Some (cap c) /\ 0 <= cap c) ->
      forall pc, pc ∈ physical_cores t ->
      match type pc with
      | Performance => forall c, 0 <= c < concurrency sys -> cap c <= cap (primary_logical_id pc)
      | Efficiency => exists c, 0 <= c < concurrency sys /\ cap (primary_logical_id pc) < cap c
      | Unknown => forall c c', 0 <= c < concurrency sys -> 0 <= c' < concurrency sys -> cap c = cap c'
      end)).
Proof.
  assert (HN : Z.of_nat N = concurrency sys) by (unfold concurrency; destruct (Z.ltb_spec 0 (hardware_concurrency sys)); lia).
  assert (H0 : 0 < concurrency sys) by (unfold concurrency; destruct (Z.ltb_spec 0 (hardware_concurrency sys)); lia).
  destruct discover_cases as (t & E & Ht). exists t. split; [done |]. rewrite <- HN in H0 |- *. destruct Ht as [[Hs ->] | (keys & kind & Hn & Hne & Hk & Hc & Hcl)].
  - assert (Hl : concat (logical_ids <$> physical_cores (make_fallback_topology sys)) = Z.of_nat <$> seq 0 N).
    { cbn [physical_cores make_fallback_topology]. rewrite <- list_fmap_compose. apply concat_singletons. }
    rewrite Hl. split_and!; [| apply NoDup_fmap_2; [intros ? ? ?; lia | apply NoDup_seq] | |].
    + cbn [physical_cores make_fallback_topology]. intros Eq%fmap_nil_inv. apply (f_equal length) in Eq. rewrite length_seq in Eq. cbn in Eq. lia.
    + intros pc (j & -> & _)%list_elem_of_fmap. done.
    + left. split; [| done]. intros c Hc. apply place_filter in Hs. rewrite Forall_forall in Hs. apply Hs, list_elem_of_fmap. exists (Z.to_nat c). split; [lia |]. apply elem_of_seq. lia.
  - assert (Hl : logical_ids <$> physical_cores t = siblings N <$> keys) by (rewrite Hc, fmap_imap; apply imap_const). rewrite Hl.
    split_and!; [| by apply concat_siblings_nodup | | right; split_and!].
    + intros Eq. rewrite Eq in Hl. symmetry in Hl. by apply fmap_nil_inv in Hl.
    + intros pc Hpc. destruct (elem_of_cores Hc Hpc) as (i & key & Hkey & -> & _). by apply Hk.
    + intros c. rewrite elem_of_concat. split.
      * intros (l & Hc' & (key & -> & _)%list_elem_of_fmap). apply elem_of_siblings in Hc' as [Hp Hr]. split; [done |]. by rewrite Hp.
      * intros [Hr [key Hp]]. exists (siblings N key). assert (Hin : c ∈ siblings N key) by (by apply elem_of_siblings). split; [done |].
        apply list_elem_of_fmap. exists key. split; [done |]. apply Hk. intros Eq. rewrite Eq in Hin. by apply elem_of_nil in Hin.
    + intros pc c c' Hpc. destruct (elem_of_cores Hc Hpc) as (i & key & _ & -> & _). rewrite !elem_of_siblings. intros [-> _] Hc'. intuition.
    + intros pc node Hpc. destruct (elem_of_cores Hc Hpc) as (i & key & _ & Hids & Hnuma). by apply (numa_unique N i key).
    + intros cap Hcap pc Hpc. rewrite Hcl in Hpc. eapply classify_kinds; [exact Hcap | | exact Hpc].
      apply Forall_forall. intros pc' [i Hi]%list_elem_of_lookup. rewrite list_lookup_imap in Hi. destruct (keys !! i) as [key |] eqn:Ek; [| done].
      injection Hi as <-. apply list_elem_of_lookup_2, Hk in Ek. split; [done |]. change (logical_ids (numa_after nodes (fresh_core N i key))) with (siblings N key). split; [| done].
      apply (elem_of_siblings N key). by apply (primary_in (numa_after nodes (fresh_core N i key))).
Qed.

End Discovery.

(** Two hybrid cores of two threads and two single ones, on two nodes. *)
Definition example_sys : Sysfs :=
  mkSysfs 6 (λ c, if c =? 0 then None else Some 1) (λ _, Some 0) (λ c, Some (if c <? 4 then c mod 2 else c))
    (λ n, if n =? 0 then Some (bytes_of "0-3") else if n =? 1 then Some (bytes_of "4,5") else None) (λ c, Some (if c <? 4 then 1024 else 512)).

Lemma topology_discovered_witness : exists t, discover_topology example_sys = Some t /\ physical_cores t =
  [mkCore 0 0 Performance [0; 2]; mkCore 1 0 Performance [1; 3]; mkCore 2 1 Efficiency [4]; mkCore 3 1 Efficiency [5]] /\
  NoDup (concat (logical_ids <$> physical_cores t)).
Proof.
  destruct (topology_discovered example_sys) as (t & E & _ & Hn & _).
  - intros node l. cbn. destruct (node =? 0); [intros [= <-]; by vm_compute |]. destruct (node =? 1); [intros [= <-]; by vm_compute | done].
  - exists t. split; [exact E |]. split; [| exact Hn]. vm_compute in E. injection E as <-. reflexivity.
Defined.
