(* ===== verification/MathUtils.v ===== *)
(** * Power-of-two rounding

    [apex::core::detail::next_power_of_2]
    (apex_core/include/apex/core/detail/math_utils.hpp), on 64-bit [size_t].
    Every ring, wheel and queue of the framework sizes itself with it and masks
    indices with [capacity - 1]. *)

From S2P Require Import Prelude.

(** [v |= v >> s]. *)
Definition smear (s v : Z) : Z := Z.lor v (Z.shiftr v s).

Definition next_power_of_2 (v : Z) : Z :=
  if v =? 0 then 1
  else if Z.land v (v - 1) =? 0 then v
  else if Z.shiftr SIZE_MAX 1 + 1 <? v then 0
  else
    let v := v - 1 in
    let v := smear 1 v in
    let v := smear 2 v in
    let v := smear 4 v in
    let v := smear 8 v in
    let v := smear 16 v in
    let v := smear 32 v in
    v + 1.

Definition is_pow2 (v : Z) : Prop := exists k, 0 <= k /\ v = 2 ^ k.

(** ** The power-of-two test *)

Lemma land_pred_0 v : 0 < v -> Z.land v (v - 1) = 0 -> v = 2 ^ Z.log2 v.
Proof.
  intros Hv H. pose proof (Z.log2_spec v Hv) as [Lo Hi].
  rewrite Z.pow_succ_r in Hi by apply Z.log2_nonneg.
  destruct (Z.eq_dec v (2 ^ Z.log2 v)) as [|Hne]; [done|exfalso].
  assert (Z.testbit (Z.land v (v - 1)) (Z.log2 v) = true) as Hb.
  { rewrite Z.land_spec, Z.bit_log2 by done.
    replace (Z.log2 v) with (Z.log2 (v - 1)) at 1; [by apply Z.bit_log2; lia|].
    apply Z.log2_unique; [apply Z.log2_nonneg|]. rewrite Z.pow_succ_r by apply Z.log2_nonneg. lia. }
  by rewrite H, Z.bits_0 in Hb.
Qed.

Lemma pow2_land_pred k : 0 <= k -> Z.land (2 ^ k) (2 ^ k - 1) = 0.
Proof. intros. rewrite land_mask by done. by apply Z.mod_same, Z.pow_nonzero. Qed.

Lemma land_pred_iff v : 0 < v -> Z.land v (v - 1) = 0 <-> is_pow2 v.
Proof.
  intros Hv. split.
  - intros H. exists (Z.log2 v). split; [apply Z.log2_nonneg | by apply land_pred_0].
  - intros (k & Hk & ->). by apply pow2_land_pred.
Qed.

(** ** Bit smearing *)

(** The top [m] bits below and including bit [k] are set, and none above. *)
Definition tops (m k v : Z) : Prop :=
  (forall i, k < i -> Z.testbit v i = false) /\
  (forall i, 0 <= i -> k - m < i <= k -> Z.testbit v i = true).

Lemma smear_tops m k v : 0 < m -> tops m k v -> tops (2 * m) k (smear m v).
Proof.
  intros Hm [Hhi Htop]. unfold smear. split; intros i Hi.
  - destruct (decide (0 <= i)); [|rewrite Z.testbit_neg_r; [done|lia]].
    rewrite Z.lor_spec, Z.shiftr_spec, Hhi, Hhi by lia. done.
  - intros Hr. rewrite Z.lor_spec, Z.shiftr_spec by done.
    destruct (decide (k - m < i)).
    + rewrite Htop by lia. done.
    + rewrite (Htop (i + m)) by lia. apply orb_true_r.
Qed.

Lemma tops_full m k v : 0 <= k < m -> tops m k v -> v = 2 ^ (k + 1) - 1.
Proof.
  intros Hk [Hhi Htop]. rewrite Z.sub_1_r, <- Z.ones_equiv. apply Z.bits_inj'. intros i Hi.
  destruct (decide (i <= k)).
  - rewrite Htop, Z.ones_spec_low by lia. done.
  - rewrite Hhi, Z.ones_spec_high by lia. done.
Qed.

Lemma tops_1 v : 0 < v -> tops 1 (Z.log2 v) v.
Proof.
  intros Hv. split; intros i Hi.
  - by apply Z.bits_above_log2; [lia|].
  - intros. replace i with (Z.log2 v) by lia. by apply Z.bit_log2.
Qed.

Lemma smear_all v : 0 < v < 2 ^ 64 ->
  smear 32 (smear 16 (smear 8 (smear 4 (smear 2 (smear 1 v))))) + 1 = 2 ^ (Z.log2 v + 1).
Proof.
  intros Hv.
  assert (tops 64 (Z.log2 v) (smear 32 (smear 16 (smear 8 (smear 4 (smear 2 (smear 1 v))))))) as H.
  { apply (smear_tops 32), (smear_tops 16), (smear_tops 8), (smear_tops 4), (smear_tops 2), (smear_tops 1), tops_1; lia. }
  apply tops_full in H; [lia|]. split; [apply Z.log2_nonneg|]. apply Z.log2_lt_pow2; lia.
Qed.

(** ** Behaviour of the routine on every branch *)

Lemma next_power_of_2_pow2 k : 0 <= k -> next_power_of_2 (2 ^ k) = 2 ^ k.
Proof.
  intros. unfold next_power_of_2. rewrite pow2_land_pred by done. simpl.
  destruct (2 ^ k =? 0) eqn:E; [|done]. pose proof (Z.pow_pos_nonneg 2 k). lia.
Qed.

Lemma next_power_of_2_overflow v : 2 ^ 63 < v < 2 ^ 64 -> next_power_of_2 v = 0.
Proof.
  intros Hv. unfold next_power_of_2.
  destruct (v =? 0) eqn:E0; [lia|].
  destruct (Z.land v (v - 1) =? 0) eqn:E1.
  - exfalso. apply Z.eqb_eq in E1. apply land_pred_0 in E1; [|lia].
    assert (Z.log2 v < 64) by (apply Z.log2_lt_pow2; lia).
    pose proof (Z.pow_le_mono_r 2 (Z.log2 v) 63). lia.
  - change (Z.shiftr SIZE_MAX 1 + 1) with (2 ^ 63). destruct (2 ^ 63 <? v) eqn:E2; [done|lia].
Qed.

(** The least power of two that is at least [v]. *)
Lemma next_power_of_2_least v : 1 <= v <= 2 ^ 63 ->
  exists k, 0 <= k <= 63 /\ next_power_of_2 v = 2 ^ k /\ v <= 2 ^ k /\ (forall j, 0 <= j -> v <= 2 ^ j -> k <= j).
Proof.
  intros Hv. unfold next_power_of_2.
  destruct (v =? 0) eqn:E0; [lia|].
  destruct (Z.land v (v - 1) =? 0) eqn:E1.
  - apply Z.eqb_eq, land_pred_0 in E1; [|lia]. exists (Z.log2 v).
    pose proof (Z.log2_nonneg v). split_and!; [done| | |lia|].
    + assert (Z.log2 v < 64) by (apply Z.log2_lt_pow2; lia). lia.
    + done.
    + intros j Hj Hle. destruct (decide (Z.log2 v <= j)); [done|].
      pose proof (Z.pow_lt_mono_r 2 j (Z.log2 v)). lia.
  - change (Z.shiftr SIZE_MAX 1 + 1) with (2 ^ 63). destruct (2 ^ 63 <? v) eqn:E2; [lia|].
    assert (1 < v) as Hv1.
    { destruct (decide (v = 1)) as [->|]; [done|lia]. }
    rewrite smear_all by lia.
    pose proof (Z.log2_nonneg (v - 1)). pose proof (Z.log2_spec (v - 1)).
    exists (Z.log2 (v - 1) + 1). split_and!; [lia| |done| |].
    + assert (Z.log2 (v - 1) < 63) by (apply Z.log2_lt_pow2; lia). lia.
    + replace (Z.log2 (v - 1) + 1) with (Z.succ (Z.log2 (v - 1))) by lia. lia.
    + intros j Hj Hle. assert (Z.log2 (v - 1) < j) by (apply Z.log2_lt_pow2; lia). lia.
Qed.

(** [next_power_of_2] on every 64-bit [size_t]: up to 2^63 the result is the
    least power of two that is at least the argument (1 for 0); above 2^63, where
    none is representable, the result is 0. *)
Theorem next_power_of_2_correct (v : Z) (Hv : 0 <= v <= SIZE_MAX) :
  (v <= 2 ^ 63 ->
     exists k, 0 <= k <= 63 /\ next_power_of_2 v = 2 ^ k /\ v <= 2 ^ k /\
       (forall j, 0 <= j -> v <= 2 ^ j -> k <= j)) /\
  (2 ^ 63 < v -> next_power_of_2 v = 0).
Proof.
  unfold SIZE_MAX in Hv. split; intros H.
  - destruct (decide (v = 0)) as [->|]; [|apply next_power_of_2_least; lia].
    exists 0. split_and!; [lia|lia|done|lia|lia].
  - apply next_power_of_2_overflow. lia.
Qed.

Lemma next_power_of_2_correct_witness :
  next_power_of_2 1000 = 1024 /\ next_power_of_2 (2 ^ 63 + 1) = 0.
Proof.
  split; [|apply (next_power_of_2_correct (2 ^ 63 + 1)); unfold SIZE_MAX; lia]. vm_compute. done.
Defined.
