(* ===== verification/Bcrypt.v ===== *)
(** * Password hashing

    [apex_bcrypt_gensalt], [apex_bcrypt_hashpw] and [apex_bcrypt_checkpw]
    (auth-svc/src/bcrypt/bcrypt.c) with the cipher and the base64 variant they use, and
    [apex::auth_svc::PasswordHasher] (password_hasher.cpp), which calls them. A C string
    is the list of its bytes before the terminator; a read past the terminator is
    undefined behaviour. The bytes that OpenSSL's [RAND_bytes] gives are an argument. *)

From S2P Require Import Prelude Text.
#[local] Open Scope Z_scope.

Module Bcrypt.

Abbreviation bytes := (list Z).

(** ** Base64 *)

Definition base64_table : bytes := bytes_of "./ABCDEFGHIJKLMNOPQRSTUVWXYZabcdefghijklmnopqrstuvwxyz0123456789".
Definition base64_char (i : Z) : Z := nthZ base64_table i.

(** The four indices that three bytes give. *)
Definition six1 (c1 : Z) : Z := Z.land (Z.shiftr c1 2) 0x3f.
Definition six2 (c1 c2 : Z) : Z := Z.land (Z.lor (Z.shiftl (Z.land c1 0x03) 4) (Z.land (Z.shiftr c2 4) 0x0f)) 0x3f.
Definition six3 (c2 c3 : Z) : Z := Z.land (Z.lor (Z.shiftl (Z.land c2 0x0f) 2) (Z.land (Z.shiftr c3 6) 0x03)) 0x3f.
Definition six4 (c3 : Z) : Z := Z.land c3 0x3f.

(** One iteration of the loop takes three bytes, or what is left. *)
Fixpoint encode_base64 (src : bytes) : bytes :=
  match src with
  | [] => []
  | [c1] => [base64_char (six1 c1); base64_char (Z.land (Z.shiftl (Z.land c1 0x03) 4) 0x3f)]
  | [c1; c2] => [base64_char (six1 c1); base64_char (six2 c1 c2); base64_char (Z.land (Z.shiftl (Z.land c2 0x0f) 2) 0x3f)]
  | c1 :: c2 :: c3 :: src =>
      base64_char (six1 c1) :: base64_char (six2 c1 c2) :: base64_char (six3 c2 c3) :: base64_char (six4 c3) :: encode_base64 src
  end.

(** [strchr], which finds the terminator too. *)
Fixpoint index_of (c : Z) (s : bytes) : option Z :=
  match s with [] => None | d :: s => if c =? d then Some 0 else match index_of c s with Some i => Some (i + 1) | None => None end end.
Definition char64 (c : Z) : Z := default (- 1) (index_of c (base64_table ++ [0])).

(** The character at an index of a C string. *)
Definition char_at (s : bytes) (i : Z) : outcome Z :=
  if (i <? 0) || (len s <? i) then Throws undefined_behaviour else Returns (nthZ (s ++ [0]) i).

(** [if (c < 0) break;] after a character that is read unless it is the terminator. *)
Definition next_char64 (src : bytes) (si : Z) : outcome Z := run c <- char_at src si; Returns (if c =? 0 then - 1 else char64 c).

(** The three bytes that four indices give. *)
Definition byte1 (c1 c2 : Z) : Z := u8 (Z.lor (Z.shiftl c1 2) (Z.shiftr (Z.land c2 0x30) 4)).
Definition byte2 (c2 c3 : Z) : Z := u8 (Z.lor (Z.shiftl (Z.land c2 0x0f) 4) (Z.shiftr (Z.land c3 0x3c) 2)).
Definition byte3 (c3 c4 : Z) : Z := u8 (Z.lor (Z.shiftl (Z.land c3 0x03) 6) c4).

(** One round of the loop writes a byte at least, so [dst_len] rounds are enough. *)
Fixpoint decode_loop (fuel : nat) (dst_len : Z) (src : bytes) (si : Z) (dst : bytes) : outcome (Z * bytes) :=
  match fuel with
  | O => Returns (len dst, dst)
  | S fuel =>
      run c <- char_at src si;
      if (c =? 0) || negb (len dst <? dst_len) then Returns (len dst, dst)
      else
        let c1 := char64 c in
        if c1 <? 0 then Returns (- 1, dst)
        else
          run d <- char_at src (si + 1);
          let c2 := char64 d in
          if c2 <? 0 then Returns (- 1, dst)
          else
            let dst := dst ++ [byte1 c1 c2] in
            if dst_len <=? len dst then Returns (len dst, dst)
            else
              run c3 <- next_char64 src (si + 2);
              if c3 <? 0 then Returns (len dst, dst)
              else
                let dst := dst ++ [byte2 c2 c3] in
                if dst_len <=? len dst then Returns (len dst, dst)
                else
                  run c4 <- next_char64 src (si + 3);
                  if c4 <? 0 then Returns (len dst, dst)
                  else decode_loop fuel dst_len src (si + 4) (dst ++ [byte3 c3 c4])
  end.
(** The value returned and the bytes written, from [offset] of a string on. *)
Definition decode_base64 (dst_len : Z) (src : bytes) (offset : Z) : outcome (Z * bytes) := decode_loop (S (Z.to_nat dst_len)) dst_len src offset [].

(** ** Blowfish *)

Record blowfish_ctx : Type := mkCtx { P : list Z; S_ : list (list Z) }.

Definition bf_P_init : list Z :=
  [0x243f6a88; 0x85a308d3; 0x13198a2e; 0x03707344; 0xa4093822; 0x299f31d0; 0x082efa98; 0xec4e6c89;
   0x452821e6; 0x38d01377; 0xbe5466cf; 0x34e90c6c; 0xc0ac29b7; 0xc97c50dd; 0x3f84d5b5; 0xb5470917;
   0x9216d5d9; 0x8979fb1b].

Definition bf_S_init_0 : list Z :=
  [0xd1310ba6; 0x98dfb5ac; 0x2ffd72db; 0xd01adfb7; 0xb8e1afed; 0x6a267e96; 0xba7c9045; 0xf12c7f99;
   0x24a19947; 0xb3916cf7; 0x0801f2e2; 0x858efc16; 0x636920d8; 0x71574e69; 0xa458fea3; 0xf4933d7e;
   0x0d95748f; 0x728eb658; 0x718bcd58; 0x82154aee; 0x7b54a41d; 0xc25a59b5; 0x9c30d539; 0x2af26013;
   0xc5d1b023; 0x286085f0; 0xca417918; 0xb8db38ef; 0x8e79dcb0; 0x603a180e; 0x6c9e0e8b; 0xb01e8a3e;
   0xd71577c1; 0xbd314b27; 0x78af2fda; 0x55605c60; 0xe65525f3; 0xaa55ab94; 0x57489862; 0x63e81440;
   0x55ca396a; 0x2aab10b6; 0xb4cc5c34; 0x1141e8ce; 0xa15486af; 0x7c72e993; 0xb3ee1411; 0x636fbc2a;
   0x2ba9c55d; 0x741831f6; 0xce5c3e16; 0x9b87931e; 0xafd6ba33; 0x6c24cf5c; 0x7a325381; 0x28958677;
   0x3b8f4898; 0x6b4bb9af; 0xc4bfe81b; 0x66282193; 0x61d809cc; 0xfb21a991; 0x487cac60; 0x5dec8032;
   0xef845d5d; 0xe98575b1; 0xdc262302; 0xeb651b88; 0x23893e81; 0xd396acc5; 0x0f6d6ff3; 0x83f44239;
   0x2e0b4482; 0xa4842004; 0x69c8f04a; 0x9e1f9b5e; 0x21c66842; 0xf6e96c9a; 0x670c9c61; 0xabd388f0;
   0x6a51a0d2; 0xd8542f68; 0x960fa728; 0xab5133a3; 0x6eef0b6c; 0x137a3be4; 0xba3bf050; 0x7efb2a98;
   0xa1f1651d; 0x39af0176; 0x66ca593e; 0x82430e88; 0x8cee8619; 0x456f9fb4; 0x7d84a5c3; 0x3b8b5ebe;
   0xe06f75d8; 0x85c12073; 0x401a449f; 0x56c16aa6; 0x4ed3aa62; 0x363f7706; 0x1bfedf72; 0x429b023d;
   0x37d0d724; 0xd00a1248; 0xdb0fead3; 0x49f1c09b; 0x075372c9; 0x80991b7b; 0x25d479d8; 0xf6e8def7;
   0xe3fe501a; 0xb6794c3b; 0x976ce0bd; 0x04c006ba; 0xc1a94fb6; 0x409f60c4; 0x5e5c9ec2; 0x196a2463;
   0x68fb6faf; 0x3e6c53b5; 0x1339b2eb; 0x3b52ec6f; 0x6dfc511f; 0x9b30952c; 0xcc814544; 0xaf5ebd09;
   0xbee3d004; 0xde334afd; 0x660f2807; 0x192e4bb3; 0xc0cba857; 0x45c8740f; 0xd20b5f39; 0xb9d3fbdb;
   0x5579c0bd; 0x1a60320a; 0xd6a100c6; 0x402c7279; 0x679f25fe; 0xfb1fa3cc; 0x8ea5e9f8; 0xdb3222f8;
   0x3c7516df; 0xfd616b15; 0x2f501ec8; 0xad0552ab; 0x323db5fa; 0xfd238760; 0x53317b48; 0x3e00df82;
   0x9e5c57bb; 0xca6f8ca0; 0x1a87562e; 0xdf1769db; 0xd542a8f6; 0x287effc3; 0xac6732c6; 0x8c4f5573;
   0x695b27b0; 0xbbca58c8; 0xe1ffa35d; 0xb8f011a0; 0x10fa3d98; 0xfd2183b8; 0x4afcb56c; 0x2dd1d35b;
   0x9a53e479; 0xb6f84565; 0xd28e49bc; 0x4bfb9790; 0xe1ddf2da; 0xa4cb7e33; 0x62fb1341; 0xcee4c6e8;
   0xef20cada; 0x36774c01; 0xd07e9efe; 0x2bf11fb4; 0x95dbda4d; 0xae909198; 0xeaad8e71; 0x6b93d5a0;
   0xd08ed1d0; 0xafc725e0; 0x8e3c5b2f; 0x8e7594b7; 0x8ff6e2fb; 0xf2122b64; 0x8888b812; 0x900df01c;
   0x4fad5ea0; 0x688fc31c; 0xd1cff191; 0xb3a8c1ad; 0x2f2f2218; 0xbe0e1777; 0xea752dfe; 0x8b021fa1;
   0xe5a0cc0f; 0xb56f74e8; 0x18acf3d6; 0xce89e299; 0xb4a84fe0; 0xfd13e0b7; 0x7cc43b81; 0xd2ada8d9;
   0x165fa266; 0x80957705; 0x93cc7314; 0x211a1477; 0xe6ad2065; 0x77b5fa86; 0xc75442f5; 0xfb9d35cf;
   0xebcdaf0c; 0x7b3e89a0; 0xd6411bd3; 0xae1e7e49; 0x00250e2d; 0x2071b35e; 0x226800bb; 0x57b8e0af;
   0x2464369b; 0xf009b91e; 0x5563911d; 0x59dfa6aa; 0x78c14389; 0xd95a537f; 0x207d5ba2; 0x02e5b9c5;
   0x83260376; 0x6295cfa9; 0x11c81968; 0x4e734a41; 0xb3472dca; 0x7b14a94a; 0x1b510052; 0x9a532915;
   0xd60f573f; 0xbc9bc6e4; 0x2b60a476; 0x81e67400; 0x08ba6fb5; 0x571be91f; 0xf296ec6b; 0x2a0dd915;
   0xb6636521; 0xe7b9f9b6; 0xff34052e; 0xc5855664; 0x53b02d5d; 0xa99f8fa1; 0x08ba4799; 0x6e85076a].
Definition bf_S_init_1 : list Z :=
  [0x4b7a70e9; 0xb5b32944; 0xdb75092e; 0xc4192623; 0xad6ea6b0; 0x49a7df7d; 0x9cee60b8; 0x8fedb266;
   0xecaa8c71; 0x699a17ff; 0x5664526c; 0xc2b19ee1; 0x193602a5; 0x75094c29; 0xa0591340; 0xe4183a3e;
   0x3f54989a; 0x5b429d65; 0x6b8fe4d6; 0x99f73fd6; 0xa1d29c07; 0xefe830f5; 0x4d2d38e6; 0xf0255dc1;
   0x4cdd2086; 0x8470eb26; 0x6382e9c6; 0x021ecc5e; 0x09686b3f; 0x3ebaefc9; 0x3c971814; 0x6b6a70a1;
   0x687f3584; 0x52a0e286; 0xb79c5305; 0xaa500737; 0x3e07841c; 0x7fdeae5c; 0x8e7d44ec; 0x5716f2b8;
   0xb03ada37; 0xf0500c0d; 0xf01c1f04; 0x0200b3ff; 0xae0cf51a; 0x3cb574b2; 0x25837a58; 0xdc0921bd;
   0xd19113f9; 0x7ca92ff6; 0x94324773; 0x22f54701; 0x3ae5e581; 0x37c2dadc; 0xc8b57634; 0x9af3dda7;
   0xa9446146; 0x0fd0030e; 0xecc8c73e; 0xa4751e41; 0xe238cd99; 0x3bea0e2f; 0x3280bba1; 0x183eb331;
   0x4e548b38; 0x4f6db908; 0x6f420d03; 0xf60a04bf; 0x2cb81290; 0x24977c79; 0x5679b072; 0xbcaf89af;
   0xde9a771f; 0xd9930810; 0xb38bae12; 0xdccf3f2e; 0x5512721f; 0x2e6b7124; 0x501adde6; 0x9f84cd87;
   0x7a584718; 0x7408da17; 0xbc9f9abc; 0xe94b7d8c; 0xec7aec3a; 0xdb851dfa; 0x63094366; 0xc464c3d2;
   0xef1c1847; 0x3215d908; 0xdd433b37; 0x24c2ba16; 0x12a14d43; 0x2a65c451; 0x50940002; 0x133ae4dd;
   0x71dff89e; 0x10314e55; 0x81ac77d6; 0x5f11199b; 0x043556f1; 0xd7a3c76b; 0x3c11183b; 0x5924a509;
   0xf28fe6ed; 0x97f1fbfa; 0x9ebabf2c; 0x1e153c6e; 0x86e34570; 0xeae96fb1; 0x860e5e0a; 0x5a3e2ab3;
   0x771fe71c; 0x4e3d06fa; 0x2965dcb9; 0x99e71d0f; 0x803e89d6; 0x5266c825; 0x2e4cc978; 0x9c10b36a;
   0xc6150eba; 0x94e2ea78; 0xa5fc3c53; 0x1e0a2df4; 0xf2f74ea7; 0x361d2b3d; 0x1939260f; 0x19c27960;
   0x5223a708; 0xf71312b6; 0xebadfe6e; 0xeac31f66; 0xe3bc4595; 0xa67bc883; 0xb17f37d1; 0x018cff28;
   0xc332ddef; 0xbe6c5aa5; 0x65582185; 0x68ab9802; 0xeecea50f; 0xdb2f953b; 0x2aef7dad; 0x5b6e2f84;
   0x1521b628; 0x29076170; 0xecdd4775; 0x619f1510; 0x13cca830; 0xeb61bd96; 0x0334fe1e; 0xaa0363cf;
   0xb5735c90; 0x4c70a239; 0xd59e9e0b; 0xcbaade14; 0xeecc86bc; 0x60622ca7; 0x9cab5cab; 0xb2f3846e;
   0x648b1eaf; 0x19bdf0ca; 0xa02369b9; 0x655abb50; 0x40685a32; 0x3c2ab4b3; 0x319ee9d5; 0xc021b8f7;
   0x9b540b19; 0x875fa099; 0x95f7997e; 0x623d7da8; 0xf837889a; 0x97e32d77; 0x11ed935f; 0x16681281;
   0x0e358829; 0xc7e61fd6; 0x96dedfa1; 0x7858ba99; 0x57f584a5; 0x1b227263; 0x9b83c3ff; 0x1ac24696;
   0xcdb30aeb; 0x532e3054; 0x8fd948e4; 0x6dbc3128; 0x58ebf2ef; 0x34c6ffea; 0xfe28ed61; 0xee7c3c73;
   0x5d4a14d9; 0xe864b7e3; 0x42105d14; 0x203e13e0; 0x45eee2b6; 0xa3aaabea; 0xdb6c4f15; 0xfacb4fd0;
   0xc742f442; 0xef6abbb5; 0x654f3b1d; 0x41cd2105; 0xd81e799e; 0x86854dc7; 0xe44b476a; 0x3d816250;
   0xcf62a1f2; 0x5b8d2646; 0xfc8883a0; 0xc1c7b6a3; 0x7f1524c3; 0x69cb7492; 0x47848a0b; 0x5692b285;
   0x095bbf00; 0xad19489d; 0x1462b174; 0x23820e00; 0x58428d2a; 0x0c55f5ea; 0x1dadf43e; 0x233f7061;
   0x3372f092; 0x8d937e41; 0xd65fecf1; 0x6c223bdb; 0x7cde3759; 0xcbee7460; 0x4085f2a7; 0xce77326e;
   0xa6078084; 0x19f8509e; 0xe8efd855; 0x61d99735; 0xa969a7aa; 0xc50c06c2; 0x5a04abfc; 0x800bcadc;
   0x9e447a2e; 0xc3453484; 0xfdd56705; 0x0e1e9ec9; 0xdb73dbd3; 0x105588cd; 0x675fda79; 0xe3674340;
   0xc5c43465; 0x713e38d8; 0x3d28f89e; 0xf16dff20; 0x153e21e7; 0x8fb03d4a; 0xe6e39f2b; 0xdb83adf7].
(** A brace initialiser fills the rest of an array with zeros. *)
Definition bf_S_init : list (list Z) := [bf_S_init_0; bf_S_init_1; replicate 256 0; replicate 256 0].

Definition S_at (ctx : blowfish_ctx) (box i : Z) : Z := nthZ (default [] (S_ ctx !! Z.to_nat box)) i.

Definition bf_f (ctx : blowfish_ctx) (x : Z) : Z :=
  let h := S_at ctx 0 (Z.land (Z.shiftr x 24) 0xff) in
  let h := u32 (h + S_at ctx 1 (Z.land (Z.shiftr x 16) 0xff)) in
  let h := Z.lxor h (S_at ctx 2 (Z.land (Z.shiftr x 8) 0xff)) in
  u32 (h + S_at ctx 3 (Z.land x 0xff)).

(** [for (i = from; i < n; i += 2)]. *)
Definition by_two (n : nat) : list Z := (λ k, 2 * Z.of_nat k) <$> seq 0 (n / 2).

Definition bf_round (ctx : blowfish_ctx) (lr : Z * Z) (i : Z) : Z * Z :=
  let '(l, r) := lr in
  let l := Z.lxor l (nthZ (P ctx) i) in
  let r := Z.lxor r (bf_f ctx l) in
  let r := Z.lxor r (nthZ (P ctx) (i + 1)) in
  let l := Z.lxor l (bf_f ctx r) in
  (l, r).
Definition bf_encrypt (ctx : blowfish_ctx) (lr : Z * Z) : Z * Z :=
  let '(l, r) := foldl (bf_round ctx) lr (by_two 16) in
  (Z.lxor r (nthZ (P ctx) 17), Z.lxor l (nthZ (P ctx) 16)).

Definition bf_init : blowfish_ctx := mkCtx bf_P_init bf_S_init.

(** [(w << 8) | b] on 32 bits. *)
Definition push_byte (w b : Z) : Z := Z.lor (u32 (Z.shiftl w 8)) b.

(** The first loop of [bf_expand_key]: four bytes of the key, over and over. *)
Definition key_byte (key : bytes) (key_len : Z) (tk : Z * Z) : Z * Z := (push_byte tk.1 (nthZ key tk.2), (tk.2 + 1) mod key_len).
Fixpoint xor_key (key : bytes) (key_len ki : Z) (p : list Z) : list Z :=
  match p with
  | [] => []
  | x :: p => let '(tmp, ki) := Nat.iter 4 (key_byte key key_len) (0, ki) in Z.lxor x tmp :: xor_key key key_len ki p
  end.

(** The variables of the other loops: [l], [r] and [di]. *)
Definition block : Type := Z * Z * Z.
Definition data_byte (data : bytes) (data_len : Z) (wd : Z * Z) : Z * Z := (push_byte wd.1 (nthZ data (wd.2 mod data_len)), wd.2 + 1).
Definition next_block (ctx : blowfish_ctx) (data : bytes) (data_len : Z) (b : block) : block :=
  let '(l, r, di) := b in
  let '(l, di) := Nat.iter 4 (data_byte data data_len) (l, di) in
  let '(r, di) := Nat.iter 4 (data_byte data data_len) (r, di) in
  let '(l, r) := bf_encrypt ctx (l, r) in
  (l, r, di).

Definition write (i : Z) (x : Z) (l : list Z) : list Z := <[Z.to_nat i := x]> l.
Definition set_P (data : bytes) (data_len : Z) (cb : blowfish_ctx * block) (i : Z) : blowfish_ctx * block :=
  let '(ctx, b) := cb in
  let '(l, r, di) := next_block ctx data data_len b in
  (mkCtx (write (i + 1) r (write i l (P ctx))) (S_ ctx), (l, r, di)).
Definition set_S (data : bytes) (data_len : Z) (box : nat) (cb : blowfish_ctx * block) (j : Z) : blowfish_ctx * block :=
  let '(ctx, b) := cb in
  let '(l, r, di) := next_block ctx data data_len b in
  (mkCtx (P ctx) (alter (λ s, write (j + 1) r (write j l s)) box (S_ ctx)), (l, r, di)).

Definition bf_expand_key (ctx : blowfish_ctx) (key : bytes) (key_len : Z) (data : bytes) (data_len : Z) : blowfish_ctx :=
  let ctx := mkCtx (xor_key key key_len 0 (P ctx)) (S_ ctx) in
  let cb := foldl (set_P data data_len) (ctx, (0, 0, 0)) (by_two 18) in
  (foldl (λ cb box, foldl (set_S data data_len box) cb (by_two 256)) cb (seq 0 4)).1.

Definition zero_salt : bytes := replicate 16 0.
Definition eksblowfish_setup (rounds : Z) (salt key : bytes) (key_len : Z) : blowfish_ctx :=
  N.iter (Z.to_N (u64 (Z.shiftl 1 rounds))) (λ ctx, bf_expand_key (bf_expand_key ctx key key_len zero_salt 16) salt 16 zero_salt 16)
    (bf_expand_key bf_init key key_len salt 16).

(** ** The interface *)

Definition bf_crypt_ciphertext : bytes := bytes_of "OrpheanBeholderScryDoubt".

(** [atoi]: spaces, a sign, digits; a value that is no [int] is undefined behaviour. *)
Definition atoi (s : bytes) : outcome Z :=
  let value sgn s := let n := sgn * digits_value (digits_prefix s) in if (- 2 ^ 31 <=? n) && (n <? 2 ^ 31) then Returns n else Throws undefined_behaviour in
  match skip_spaces s with 45 :: s => value (- 1) s | 43 :: s => value 1 s | s => value 1 s end.

(** [printf] of a number with at least two digits. *)
Definition two_digits (n : Z) : bytes := if n <? 10 then 48 :: to_text n else to_text n.

(** [rand] is what [RAND_bytes] wrote, unless it failed. *)
Definition apex_bcrypt_gensalt (rand : option bytes) (log_rounds : Z) : option bytes :=
  let log_rounds := if log_rounds <? 4 then 4 else log_rounds in
  let log_rounds := if 31 <? log_rounds then 31 else log_rounds in
  match rand with
  | None => None
  | Some raw_salt => Some (bytes_of "$2a$" ++ two_digits log_rounds ++ [36] ++ encode_base64 raw_salt)
  end.

Definition big_endian (bs : bytes) (i : Z) : Z :=
  Z.lor (Z.lor (Z.lor (Z.shiftl (nthZ bs i) 24) (Z.shiftl (nthZ bs (i + 1)) 16)) (Z.shiftl (nthZ bs (i + 2)) 8)) (nthZ bs (i + 3)).
Definition to_big_endian (w : Z) : bytes := [u8 (Z.shiftr w 24); u8 (Z.shiftr w 16); u8 (Z.shiftr w 8); u8 w].

(** Two words of [cdata] are a block. *)
Definition crypt (ctx : blowfish_ctx) : bytes :=
  let cdata := (λ i, (big_endian bf_crypt_ciphertext (8 * i), big_endian bf_crypt_ciphertext (8 * i + 4))) <$> [0; 1; 2] in
  Nat.iter 64 (fmap (bf_encrypt ctx)) cdata ≫= λ lr, to_big_endian lr.1 ++ to_big_endian lr.2.

(** What is in [salt_str[0..3]]; a character that is wrong ends the comparison. *)
Fixpoint check_prefix (s : bytes) (i : Z) (allowed : list bytes) : outcome bool :=
  match allowed with
  | [] => Returns true
  | cs :: allowed => run c <- char_at s i; if bool_decide (c ∈ cs) then check_prefix s (i + 1) allowed else Returns false
  end.

(** The buffer [hash] when the call returns 0. *)
Definition apex_bcrypt_hashpw (password salt_str : bytes) : outcome (option bytes) :=
  run prefix_ok <- check_prefix salt_str 0 [[36]; [50]; [97; 98]; [36]];
  if negb prefix_ok then Returns None
  else
    run log_rounds <- atoi (dropZ 4 salt_str);
    if (log_rounds <? 4) || (31 <? log_rounds) then Returns None
    else
      run decoded <- decode_base64 16 salt_str 7;
      let '(n, raw_salt) := decoded in
      if n <? 16 then Returns None
      else
        let key_len := len password + 1 in
        let key_len := if 72 <? key_len then 72 else key_len in
        let ctx := eksblowfish_setup log_rounds raw_salt (password ++ [0]) key_len in
        let output := crypt ctx in
        if len salt_str + 1 <? 7 + 22 then Throws undefined_behaviour
        else Returns (Some (takeZ (7 + 22) (salt_str ++ [0]) ++ encode_base64 (takeZ 23 output) ++ [0])).

Definition apex_bcrypt_checkpw (password stored_hash : bytes) : outcome Z :=
  run r <- apex_bcrypt_hashpw password stored_hash;
  match r with
  | None => Returns (- 1)
  | Some computed =>
      let computed := c_str computed in
      if negb (len stored_hash =? len computed) then Returns 1
      else
        let diff := foldl Z.lor 0 (zip_with Z.lxor stored_hash computed) in
        Returns (if diff =? 0 then 0 else 1)
  end.

(** [PasswordHasher::hash] and [PasswordHasher::verify]: a [std::string] up to its first
    zero. *)
Definition hash (rand : option bytes) (work_factor : Z) (password : bytes) : outcome bytes :=
  match apex_bcrypt_gensalt rand (to_int work_factor) with
  | None => Returns []
  | Some salt => run r <- apex_bcrypt_hashpw (c_str password) salt; Returns (match r with None => [] | Some h => c_str h end)
  end.
Definition verify (password stored_hash : bytes) : outcome bool :=
  run ret <- apex_bcrypt_checkpw (c_str password) (c_str stored_hash); Returns (ret =? 0).

End Bcrypt.
Import Bcrypt.

(** ** Lemmas on base64 *)

(** Facts on bytes decided by computing on all of them. *)
Lemma all_below n (p : Z -> bool) i : forallb p (seqZ 0 n) = true -> 0 <= i < n -> p i = true.
Proof. intros Hall Hi. rewrite forallb_forall in Hall. apply Hall, list_elem_of_In, elem_of_seqZ. lia. Qed.

Lemma low_bits x k : 0 <= k -> 0 <= Z.land x (2 ^ k - 1) < 2 ^ k.
Proof. intros Hk. rewrite land_mask by done. apply Z.mod_pos_bound. lia. Qed.

Lemma base64_char_ok i : 0 <= i < 64 -> char64 (base64_char i) = i /\ (base64_char i =? 0) = false.
Proof.
  intros Hi. pose proof (all_below 64 (λ i, (char64 (base64_char i) =? i) && negb (base64_char i =? 0)) i eq_refl Hi) as Hb.
  apply andb_true_iff in Hb as [?%Z.eqb_eq ?%negb_true_iff]. done.
Qed.

(** Two bytes that agree on their eight bits. *)
Lemma byte_ext x a : is_byte a -> (forall n, n ∈ [0; 1; 2; 3; 4; 5; 6; 7] -> Z.testbit x n = Z.testbit a n) -> u8 x = a.
Proof.
  intros Ha Hbits. rewrite <- (Z.mod_small a (2 ^ 8)) by exact Ha. unfold wrap. apply Z.bits_inj'. intros n Hn. destruct (decide (n < 8)).
  - rewrite !Z.mod_pow2_bits_low by lia. apply Hbits. rewrite !elem_of_cons. lia.
  - by rewrite !Z.mod_pow2_bits_high by lia.
Qed.

(** One bit of an expression of shifts and masks. *)
Ltac solve_bit :=
  repeat first
    [ rewrite Z.lor_spec | rewrite Z.land_spec | rewrite Z.shiftl_spec by lia
    | match goal with |- context [Z.testbit ?x (?n - ?m)] => let k := eval vm_compute in (n - m) in change (n - m) with k end
    | match goal with |- context [Z.testbit ?x (?n + ?m)] => let k := eval vm_compute in (n + m) in change (n + m) with k end
    | match goal with |- context [Z.testbit ?x (Zneg ?n)] => rewrite (Z.testbit_neg_r x (Zneg n)) by lia end
    | rewrite Z.shiftr_spec by lia ];
  repeat match goal with |- context [Z.testbit (Zpos ?p) ?n] => let b := eval vm_compute in (Z.testbit (Zpos p) n) in change (Z.testbit (Zpos p) n) with b end;
  rewrite ?andb_true_r, ?andb_false_r, ?orb_false_r, ?orb_false_l; cbn [orb andb]; try reflexivity.

Lemma byte1_six a b : is_byte a -> byte1 (six1 a) (six2 a b) = a.
Proof.
  intros Ha. unfold byte1, six1, six2. apply byte_ext; [done |]. intros n Hn. rewrite !elem_of_cons in Hn. destruct_or! Hn; try (subst n; solve_bit); try by apply elem_of_nil in Hn.
Qed.
Lemma byte2_six a b c : is_byte b -> byte2 (six2 a b) (six3 b c) = b.
Proof.
  intros Ha. unfold byte2, six2, six3. apply byte_ext; [done |]. intros n Hn. rewrite !elem_of_cons in Hn. destruct_or! Hn; try (subst n; solve_bit); try by apply elem_of_nil in Hn.
Qed.
Lemma byte3_six b c : is_byte c -> byte3 (six3 b c) (six4 c) = c.
Proof.
  intros Ha. unfold byte3, six3, six4. apply byte_ext; [done |]. intros n Hn. rewrite !elem_of_cons in Hn. destruct_or! Hn; try (subst n; solve_bit); try by apply elem_of_nil in Hn.
Qed.

Lemma last_six2 a : Z.land (Z.shiftl (Z.land a 0x03) 4) 0x3f = six2 a 0.
Proof. unfold six2. change (Z.land (Z.shiftr 0 4) 15) with 0. by rewrite Z.lor_0_r. Qed.
Lemma last_six3 a : Z.land (Z.shiftl (Z.land a 0x0f) 2) 0x3f = six3 a 0.
Proof. unfold six3. change (Z.land (Z.shiftr 0 6) 3) with 0. by rewrite Z.lor_0_r. Qed.

Lemma six_range x : 0 <= Z.land x 63 < 64.
Proof. apply (low_bits x 6). lia. Qed.

(** Characters of the alphabet, as [decode_base64] sees them. *)
Definition alphabet (c : Z) : Prop := 0 <= char64 c < 64 /\ (c =? 0) = false.
Lemma alphabet_char i : 0 <= i < 64 -> alphabet (base64_char i).
Proof. intros Hi. destruct (base64_char_ok i Hi) as [E ?]. split; [by rewrite E | done]. Qed.

Lemma encode_alphabet bs : Forall alphabet (encode_base64 bs).
Proof.
  revert bs. fix IH 1. intros [| a [| b [| c bs]]]; cbn [encode_base64]; repeat apply List.Forall_cons; try apply List.Forall_nil; try (apply alphabet_char, six_range).
  apply IH.
Qed.

Lemma char_at_lookup s (n : nat) c : s !! n = Some c -> char_at s (Z.of_nat n) = Returns c.
Proof.
  intros Hs. pose proof (lookup_lt_Some _ _ _ Hs). unfold char_at, len. rewrite (proj2 (Z.ltb_ge _ _)), (proj2 (Z.ltb_ge _ _)) by lia. cbn. unfold nthZ.
  rewrite Nat2Z.id, lookup_app_l by done. by rewrite Hs.
Qed.

Lemma next_char64_lookup s (n : nat) c : s !! n = Some c -> alphabet c -> next_char64 s (Z.of_nat n) = Returns (char64 c).
Proof. intros Hs [_ Hc]. unfold next_char64. rewrite (char_at_lookup s n c Hs). cbn. by rewrite Hc. Qed.

(** Four characters of the alphabet are three bytes; two are one and three are two where
    [dst] is full after them. *)
Section Decode.
Context (src : bytes) (n : nat) (dst_len : Z) (dst : bytes) (fuel : nat).

Lemma decode_1 c d : src !! n = Some c -> src !! (n + 1)%nat = Some d -> alphabet c -> alphabet d -> len dst < dst_len ->
  decode_loop (S fuel) dst_len src (Z.of_nat n) dst =
    let dst := dst ++ [byte1 (char64 c) (char64 d)] in
    if dst_len <=? len dst then Returns (len dst, dst)
    else
      run c3 <- next_char64 src (Z.of_nat (n + 2));
      if c3 <? 0 then Returns (len dst, dst)
      else
        let dst := dst ++ [byte2 (char64 d) c3] in
        if dst_len <=? len dst then Returns (len dst, dst)
        else
          run c4 <- next_char64 src (Z.of_nat (n + 3));
          if c4 <? 0 then Returns (len dst, dst) else decode_loop fuel dst_len src (Z.of_nat (n + 4)) (dst ++ [byte3 c3 c4]).
Proof.
  intros Hc Hd [Rc Zc] [Rd _] Hl. cbn [decode_loop]. rewrite (char_at_lookup src n c Hc). cbn [outcome_bind]. rewrite Zc, (proj2 (Z.ltb_lt _ _) Hl). cbn [orb negb].
  rewrite (proj2 (Z.ltb_ge _ _)) by lia. replace (Z.of_nat n + 1) with (Z.of_nat (n + 1)) by lia. rewrite (char_at_lookup src _ d Hd). cbn [outcome_bind].
  rewrite (proj2 (Z.ltb_ge _ _)) by lia. by rewrite !Nat2Z.inj_add.
Qed.

Lemma decode_group c d e f : src !! n = Some c -> src !! (n + 1)%nat = Some d -> src !! (n + 2)%nat = Some e -> src !! (n + 3)%nat = Some f ->
  alphabet c -> alphabet d -> alphabet e -> alphabet f -> len dst + 2 < dst_len ->
  decode_loop (S fuel) dst_len src (Z.of_nat n) dst =
    decode_loop fuel dst_len src (Z.of_nat (n + 4)) (dst ++ [byte1 (char64 c) (char64 d); byte2 (char64 d) (char64 e); byte3 (char64 e) (char64 f)]).
Proof.
  intros Hc Hd He Hf Ac Ad Ae Af Hl. rewrite (decode_1 c d) by (done || lia). cbv zeta. rewrite !len_app, !len_cons, len_nil, (proj2 (Z.leb_gt _ _)) by lia.
  rewrite (next_char64_lookup src _ e) by done. cbn [outcome_bind]. rewrite (proj2 (Z.ltb_ge _ _)) by (destruct Ae; lia). rewrite !len_app, !len_cons, len_nil, (proj2 (Z.leb_gt _ _)) by lia.
  rewrite (next_char64_lookup src _ f) by done. cbn [outcome_bind]. rewrite (proj2 (Z.ltb_ge _ _)) by (destruct Af; lia). by rewrite <- !app_assoc.
Qed.

Lemma decode_two c d : src !! n = Some c -> src !! (n + 1)%nat = Some d -> alphabet c -> alphabet d -> len dst + 1 = dst_len ->
  decode_loop (S fuel) dst_len src (Z.of_nat n) dst = Returns (dst_len, dst ++ [byte1 (char64 c) (char64 d)]).
Proof.
  intros Hc Hd Ac Ad Hl. rewrite (decode_1 c d) by (done || lia). cbv zeta. rewrite !len_app, !len_cons, len_nil, (proj2 (Z.leb_le _ _)) by lia. do 2 f_equal. lia.
Qed.

Lemma decode_three c d e : src !! n = Some c -> src !! (n + 1)%nat = Some d -> src !! (n + 2)%nat = Some e -> alphabet c -> alphabet d -> alphabet e ->
  len dst + 2 = dst_len ->
  decode_loop (S fuel) dst_len src (Z.of_nat n) dst = Returns (dst_len, dst ++ [byte1 (char64 c) (char64 d); byte2 (char64 d) (char64 e)]).
Proof.
  intros Hc Hd He Ac Ad Ae Hl. rewrite (decode_1 c d) by (done || lia). cbv zeta. rewrite !len_app, !len_cons, len_nil, (proj2 (Z.leb_gt _ _)) by lia.
  rewrite (next_char64_lookup src _ e) by done. cbn [outcome_bind]. rewrite (proj2 (Z.ltb_ge _ _)) by (destruct Ae; lia).
  rewrite !len_app, !len_cons, len_nil, (proj2 (Z.leb_le _ _)) by lia. rewrite <- app_assoc. do 2 f_equal. lia.
Qed.
End Decode.

Lemma lookup_past {A} (pre l : list A) (k : nat) : (pre ++ l) !! (length pre + k)%nat = l !! k.
Proof. rewrite lookup_app_r by lia. f_equal. lia. Qed.

Lemma char64_six x : char64 (base64_char (Z.land x 63)) = Z.land x 63.
Proof. apply base64_char_ok, six_range. Qed.
Lemma char64_six1 a : char64 (base64_char (six1 a)) = six1 a.
Proof. apply char64_six. Qed.
Lemma char64_six2 a b : char64 (base64_char (six2 a b)) = six2 a b.
Proof. apply char64_six. Qed.
Lemma char64_six3 a b : char64 (base64_char (six3 a b)) = six3 a b.
Proof. apply char64_six. Qed.
Lemma char64_six4 a : char64 (base64_char (six4 a)) = six4 a.
Proof. apply char64_six. Qed.
Create Rewrite HintDb six.
#[export] Hint Rewrite char64_six1 char64_six2 char64_six3 char64_six4 : six.

(** What was encoded is decoded, wherever the text is in a string. *)
Lemma decode_encode bs fuel pre post dst : Forall is_byte bs -> (length bs < fuel)%nat ->
  decode_loop fuel (len dst + len bs) (pre ++ encode_base64 bs ++ post) (Z.of_nat (length pre)) dst = Returns (len dst + len bs, dst ++ bs).
Proof.
  revert bs fuel pre dst. fix IH 1. intros bs [| fuel] pre dst Hbs Hf; [lia |].
  assert (forall x, alphabet (base64_char (Z.land x 63))) as Hin by (intros x; apply alphabet_char, six_range).
  destruct bs as [| a [| b [| c bs]]]; cbn [encode_base64]; rewrite ?last_six2, ?last_six3.
  - cbn [decode_loop app]. unfold char_at. rewrite len_app, (proj2 (Z.ltb_ge _ _)), (proj2 (Z.ltb_ge _ _)) by (unfold len; lia). cbn [orb outcome_bind].
    change (len (@nil Z)) with 0. rewrite Z.add_0_r, Z.ltb_irrefl, orb_true_r. by rewrite app_nil_r.
  - apply Forall_cons in Hbs as [Ha _]. rewrite (decode_two _ _ _ _ _ (base64_char (six1 a)) (base64_char (six2 a 0))) by first [apply Hin | by rewrite lookup_past | by rewrite <- (Nat.add_0_r (length pre)), lookup_past | rewrite ?len_cons, ?len_nil; lia].
    autorewrite with six. by rewrite byte1_six by done.
  - apply Forall_cons in Hbs as [Ha [Hb _]%Forall_cons]. rewrite (decode_three _ _ _ _ _ (base64_char (six1 a)) (base64_char (six2 a b)) (base64_char (six3 b 0))) by first [apply Hin | by rewrite lookup_past | by rewrite <- (Nat.add_0_r (length pre)), lookup_past | rewrite ?len_cons, ?len_nil; lia].
    autorewrite with six. by rewrite byte1_six, byte2_six.
  - apply Forall_cons in Hbs as [Ha [Hb [Hc Hbs]%Forall_cons]%Forall_cons]. rewrite !len_cons. pose proof (len_nonneg bs).
    rewrite (decode_group _ _ _ _ _ (base64_char (six1 a)) (base64_char (six2 a b)) (base64_char (six3 b c)) (base64_char (six4 c))) by first [apply Hin | by rewrite lookup_past | by rewrite <- (Nat.add_0_r (length pre)), lookup_past | rewrite ?len_cons, ?len_nil; lia].
    autorewrite with six. rewrite byte1_six, byte2_six, byte3_six by done.
    specialize (IH bs fuel (pre ++ [base64_char (six1 a); base64_char (six2 a b); base64_char (six3 b c); base64_char (six4 c)]) (dst ++ [a; b; c]) Hbs ltac:(cbn in Hf; lia)).
    rewrite !len_app, !len_cons, len_nil, length_app, <- !app_assoc in IH. cbn [app length] in IH.
    replace (len dst + (1 + (1 + (1 + len bs)))) with (len dst + (1 + (1 + (1 + 0))) + len bs) by lia. exact IH.
Qed.

Lemma len_encode bs : len (encode_base64 bs) = (4 * len bs + 2) / 3.
Proof.
  revert bs. fix IH 1. intros [| a [| b [| c bs]]]; [done.. |]. cbn [encode_base64]. rewrite !len_cons, IH.
  replace (4 * (1 + (1 + (1 + len bs))) + 2) with (4 * len bs + 2 + 4 * 3) by lia. rewrite Z.div_add by lia. lia.
Qed.

(** ** Lemmas on hashing *)

Lemma rounds_text r : 4 <= r <= 31 -> length (two_digits r) = 2%nat /\ Forall (λ c, is_digit c = true) (two_digits r) /\ forall rest, atoi (two_digits r ++ 36 :: rest) = Returns r.
Proof.
  intros Hr. assert (Forall (λ r, length (two_digits r) = 2%nat /\ Forall (λ c, is_digit c = true) (two_digits r) /\ forall rest, atoi (two_digits r ++ 36 :: rest) = Returns r) (seqZ 4 28)) as Hall.
  { repeat (apply List.Forall_cons; [split_and!; [reflexivity | repeat constructor | reflexivity] |]). apply List.Forall_nil. }
  rewrite Forall_forall in Hall. apply Hall, elem_of_seqZ. lia.
Qed.

(** What [apex_bcrypt_gensalt] writes. *)
Definition salt_text (r : Z) (raw : bytes) : bytes := bytes_of "$2a$" ++ two_digits r ++ [36] ++ encode_base64 raw.
(** What [apex_bcrypt_hashpw] adds to it. *)
Definition key_length (password : bytes) : Z := if 72 <? len password + 1 then 72 else len password + 1.
Definition digest (password : bytes) (r : Z) (raw : bytes) : bytes := encode_base64 (takeZ 23 (crypt (eksblowfish_setup r raw (password ++ [0]) (key_length password)))).

Lemma len_salt_text r raw : 4 <= r <= 31 -> len raw = 16 -> len (salt_text r raw) = 29.
Proof. intros Hr Hraw. unfold salt_text. rewrite !len_app, len_encode, Hraw. unfold len at 2. destruct (rounds_text r Hr) as [-> _]. done. Qed.

Lemma decode_salt pre raw post : length pre = 7%nat -> len raw = 16 -> Forall is_byte raw -> decode_base64 16 (pre ++ encode_base64 raw ++ post) 7 = Returns (16, raw).
Proof.
  intros Hpre Hlen Hraw. unfold decode_base64. pose proof (decode_encode raw (S (Z.to_nat 16)) pre post [] Hraw) as E.
  rewrite Hpre, Hlen in E. apply E. unfold len in Hlen. lia.
Qed.

Lemma hashpw_salt password r raw post : 4 <= r <= 31 -> len raw = 16 -> Forall is_byte raw ->
  apex_bcrypt_hashpw password (salt_text r raw ++ post) = Returns (Some (salt_text r raw ++ digest password r raw ++ [0])).
Proof.
  intros Hr Hlen Hraw. pose proof (len_salt_text r raw Hr Hlen) as H29. destruct (rounds_text r Hr) as (H2 & _ & Ha). unfold apex_bcrypt_hashpw.
  assert (check_prefix (salt_text r raw ++ post) 0 [[36]; [50]; [97; 98]; [36]] = Returns true) as ->.
  { unfold salt_text. rewrite <- !app_assoc. cbn [check_prefix app bytes_of].
    rewrite (char_at_lookup _ 0 36), (char_at_lookup _ 1 50), (char_at_lookup _ 2 97), (char_at_lookup _ 3 36) by done. done. }
  cbn [outcome_bind negb].
  assert (dropZ 4 (salt_text r raw ++ post) = two_digits r ++ 36 :: encode_base64 raw ++ post) as -> by (unfold salt_text; by rewrite <- !app_assoc).
  rewrite Ha. cbn [outcome_bind]. rewrite (proj2 (Z.ltb_ge _ _)), (proj2 (Z.ltb_ge _ _)) by lia. cbn [orb].
  assert (decode_base64 16 (salt_text r raw ++ post) 7 = Returns (16, raw)) as ->.
  { unfold salt_text. rewrite <- !app_assoc, (app_assoc _ [36]), (app_assoc (bytes_of _)). apply decode_salt; [| done | done]. by rewrite !length_app, H2. }
  cbn [outcome_bind]. cbv beta iota zeta. change (16 <? 16) with false. cbv iota. fold (key_length password). unfold digest.
  generalize (crypt (eksblowfish_setup r raw (password ++ [0]) (key_length password))) as out. intros out. change (7 + 22) with 29. rewrite len_app, H29.
  pose proof (len_nonneg post). rewrite (proj2 (Z.ltb_ge _ _)) by lia. rewrite <- app_assoc, <- H29, takeZ_app_len. done.
Qed.

Lemma c_str_app s t : 0 ∉ s -> c_str (s ++ 0 :: t) = s.
Proof. induction s as [| c s IH]; [done |]. intros [Hc Hs]%not_elem_of_cons. cbn. rewrite (proj2 (Z.eqb_neq _ _)) by done. by rewrite IH. Qed.
Lemma c_str_id s : 0 ∉ s -> c_str s = s.
Proof. induction s as [| c s IH]; [done |]. intros [Hc Hs]%not_elem_of_cons. cbn. rewrite (proj2 (Z.eqb_neq _ _)) by done. by rewrite IH. Qed.

Lemma alphabet_not_0 s : Forall alphabet s -> 0 ∉ s.
Proof. rewrite Forall_forall. intros Hs H0. destruct (Hs 0 H0) as [_ E]. discriminate E. Qed.

Lemma len_crypt ctx : len (crypt ctx) = 24.
Proof.
  unfold crypt. set (step := fmap (bf_encrypt ctx)). assert (forall n l, length (Nat.iter n step l) = length l) as Hlen.
  { induction n as [| n IH]; intros l; [done |]. change (Nat.iter (S n) step l) with (step (Nat.iter n step l)). unfold step at 1. rewrite length_fmap. apply IH. }
  assert (forall l : list (Z * Z), len (l ≫= λ lr, to_big_endian lr.1 ++ to_big_endian lr.2) = 8 * len l) as Hbind.
  { induction l as [| x l IH]; [done |]. rewrite bind_cons, len_app, IH, len_cons. change (len (to_big_endian x.1 ++ to_big_endian x.2)) with 8. lia. }
  rewrite Hbind. unfold len. by rewrite Hlen.
Qed.

Lemma len_digest password r raw : len (digest password r raw) = 31.
Proof. unfold digest. rewrite len_encode, len_takeZ, len_crypt. done. Qed.

Lemma digest_not_0 password r raw : 0 ∉ digest password r raw.
Proof. apply alphabet_not_0, encode_alphabet. Qed.

Lemma salt_text_not_0 r raw : 4 <= r <= 31 -> 0 ∉ salt_text r raw.
Proof.
  intros Hr. destruct (rounds_text r Hr) as (_ & Hd & _). unfold salt_text. rewrite !not_elem_of_app. split_and!.
  - by apply text_avoids.
  - by apply digits_avoid.
  - by rewrite list_elem_of_singleton.
  - apply alphabet_not_0, encode_alphabet.
Qed.

(** [apex_bcrypt_checkpw] accepts a password where hashing it with the stored hash as the
    salt gives that hash, and fails or refuses everywhere else. *)
Lemma checkpw_rehashes password stored b : apex_bcrypt_hashpw password stored = Returns (Some b) ->
  apex_bcrypt_checkpw password stored = Returns (if decide (c_str b = stored) then 0 else 1).
Proof.
  intros E. unfold apex_bcrypt_checkpw. rewrite E. cbn [outcome_bind]. destruct (Z.eqb_spec (len stored) (len (c_str b))) as [El | Ne]; cbn [negb].
  - pose proof (diff_zero stored (c_str b) ltac:(unfold len in El; lia)) as Hd. case_decide as Hc.
    + by rewrite (proj2 (Z.eqb_eq _ _) (proj2 Hd (eq_sym Hc))).
    + rewrite (proj2 (Z.eqb_neq _ _)); [done |]. naive_solver.
  - rewrite decide_False; [done |]. by intros <-.
Qed.

Lemma decode_groups k fuel dst_len src n dst : (forall i, (n <= i < n + 4 * k)%nat -> exists c, src !! i = Some c /\ alphabet c) -> len dst + 3 * Z.of_nat k <= dst_len ->
  exists dst', decode_loop (k + fuel) dst_len src (Z.of_nat n) dst = decode_loop fuel dst_len src (Z.of_nat (n + 4 * k)) dst' /\ len dst' = len dst + 3 * Z.of_nat k.
Proof.
  revert n dst. induction k as [| k IH]; intros n dst Hs Hl.
  { exists dst. split; [| lia]. by rewrite Nat.mul_0_r, Nat.add_0_r. }
  destruct (Hs n) as (c & Hc & Ac); [lia |]. destruct (Hs (n + 1)%nat) as (d & Hd & Ad); [lia |].
  destruct (Hs (n + 2)%nat) as (e & He & Ae); [lia |]. destruct (Hs (n + 3)%nat) as (f & Hf & Af); [lia |].
  cbn [Nat.add]. rewrite (decode_group _ _ _ _ _ c d e f) by (done || lia).
  destruct (IH (n + 4)%nat (dst ++ [byte1 (char64 c) (char64 d); byte2 (char64 d) (char64 e); byte3 (char64 e) (char64 f)])) as (dst' & -> & Hd').
  - intros i Hi. apply Hs. lia.
  - rewrite len_app, !len_cons, len_nil. lia.
  - exists dst'. split; [do 2 f_equal; lia |]. rewrite Hd', len_app, !len_cons, len_nil. lia.
Qed.

(** A salt of 21 characters is read as one of 22: the terminator counts as a character of
    the alphabet. *)
Lemma decode_truncated pre s : length pre = 7%nat -> length s = 21%nat -> Forall alphabet s -> exists dst, decode_base64 16 (pre ++ s) 7 = Returns (16, dst).
Proof.
  intros Hpre Hs Ha. destruct (decode_groups 5 12 16 (pre ++ s) 7 []) as (dst & E & Hd).
  - intros i Hi. rewrite lookup_app_r by lia. destruct (lookup_lt_is_Some_2 s (i - length pre)) as [c Hc]; [lia |]. exists c. split; [done |]. by eapply Forall_lookup_1.
  - done.
  - unfold decode_base64. change (S (Z.to_nat 16)) with (5 + 12)%nat. change 7 with (Z.of_nat 7). rewrite E. clear E. cbn [Nat.add Nat.mul].
    assert (exists c, (pre ++ s) !! 27%nat = Some c /\ alphabet c) as (c & Hc & Rc & Zc).
    { rewrite lookup_app_r by lia. destruct (lookup_lt_is_Some_2 s (27 - length pre)) as [c Hc]; [lia |]. exists c. split; [done |]. by eapply Forall_lookup_1. }
    change (len [] + 3 * Z.of_nat 5) with 15 in Hd. change 12%nat with (S 11). cbn [decode_loop]. rewrite (char_at_lookup _ 27 c Hc). cbn [outcome_bind]. rewrite Zc, Hd.
    cbn [orb negb Z.ltb Z.compare Pos.compare Pos.compare_cont]. rewrite (proj2 (Z.ltb_ge _ _)) by lia. change (Z.of_nat 27 + 1) with 28.
    assert (char_at (pre ++ s) 28 = Returns 0) as ->.
    { unfold char_at. assert (len (pre ++ s) = 28) as E by (unfold len; rewrite length_app; lia). rewrite E. cbn. unfold nthZ. rewrite lookup_app_r by (unfold len in E; lia).
      replace (_ - _)%nat with 0%nat by (unfold len in E; lia). done. }
    cbn [outcome_bind]. change (char64 0) with 64. change (64 <? 0) with false. cbv iota zeta. rewrite len_app, Hd, len_cons, len_nil. by eexists.
Qed.

Lemma hashpw_truncated password r s : 4 <= r <= 31 -> length s = 21%nat -> Forall alphabet s ->
  exists t, apex_bcrypt_hashpw password (bytes_of "$2a$" ++ two_digits r ++ [36] ++ s) = Returns (Some ((bytes_of "$2a$" ++ two_digits r ++ [36] ++ s) ++ 0 :: t)).
Proof.
  intros Hr Hs Ha. destruct (rounds_text r Hr) as (H2 & _ & Hat). set (stored := bytes_of "$2a$" ++ two_digits r ++ [36] ++ s).
  assert (len stored = 28) as H28 by (unfold stored, len; rewrite !length_app, H2, Hs; done). unfold apex_bcrypt_hashpw.
  assert (check_prefix stored 0 [[36]; [50]; [97; 98]; [36]] = Returns true) as ->.
  { unfold stored. cbn [check_prefix app bytes_of].
    rewrite (char_at_lookup _ 0 36), (char_at_lookup _ 1 50), (char_at_lookup _ 2 97), (char_at_lookup _ 3 36) by done. done. }
  cbn [outcome_bind negb]. change (dropZ 4 stored) with (two_digits r ++ 36 :: s). rewrite Hat. cbn [outcome_bind].
  rewrite (proj2 (Z.ltb_ge _ _)), (proj2 (Z.ltb_ge _ _)) by lia. cbn [orb].
  destruct (decode_truncated (bytes_of "$2a$" ++ two_digits r ++ [36]) s) as (raw & E); [by rewrite !length_app, H2 | done | done |].
  rewrite <- !app_assoc in E. fold stored in E. rewrite E. cbn [outcome_bind]. cbv beta iota zeta. change (16 <? 16) with false. cbv iota. fold (key_length password).
  generalize (crypt (eksblowfish_setup r raw (password ++ [0]) (key_length password))) as out. intros out. rewrite H28. change (28 + 1 <? 7 + 22) with false. cbv iota.
  exists (encode_base64 (takeZ 23 out) ++ [0]). rewrite takeZ_all by (rewrite len_app, H28; done). by rewrite <- app_assoc.
Qed.

(** ** Reads stay within a string of 29 characters *)

Lemma char_at_defined s i : 0 <= i <= len s -> exists c, char_at s i = Returns c.
Proof. intros Hi. unfold char_at. rewrite (proj2 (Z.ltb_ge _ _)), (proj2 (Z.ltb_ge _ _)) by lia. by eexists. Qed.

Lemma next_char64_defined s i : 0 <= i <= len s -> exists c, next_char64 s i = Returns c.
Proof. intros Hi. unfold next_char64. destruct (char_at_defined s i Hi) as [c ->]. by eexists. Qed.

Lemma decode_defined fuel dst_len s si dst : 0 <= si <= len s -> 4 * (dst_len - len dst) <= 3 * (len s - si) -> exists r, decode_loop fuel dst_len s si dst = Returns r.
Proof.
  revert si dst. induction fuel as [| fuel IH]; intros si dst Hsi Hm; [by eexists |]. cbn [decode_loop]. destruct (char_at_defined s si Hsi) as [c ->]. cbn [outcome_bind].
  destruct (Z.eqb_spec c 0), (Z.ltb_spec (len dst) dst_len); cbn [orb negb]; try by eexists. destruct (_ <? 0); [by eexists |].
  destruct (char_at_defined s (si + 1)) as [d ->]; [lia |]. cbn [outcome_bind]. destruct (_ <? 0); [by eexists |]. cbv zeta.
  destruct (Z.leb_spec dst_len (len (dst ++ [byte1 (char64 c) (char64 d)]))) as [| H1]; [by eexists |]. rewrite len_app, len_cons, len_nil in H1.
  destruct (next_char64_defined s (si + 2)) as [c3 ->]; [lia |]. cbn [outcome_bind]. destruct (_ <? 0); [by eexists |].
  match goal with |- context [dst_len <=? ?x] => destruct (Z.leb_spec dst_len x) as [| H2]; [by eexists |] end. rewrite !len_app, !len_cons, len_nil in H2.
  destruct (next_char64_defined s (si + 3)) as [c4 ->]; [lia |]. cbn [outcome_bind]. destruct (_ <? 0); [by eexists |].
  apply IH; [lia |]. rewrite !len_app, !len_cons, len_nil. lia.
Qed.

Lemma check_prefix_defined s allowed i : 0 <= i -> i + len allowed <= len s -> exists b, check_prefix s i allowed = Returns b.
Proof.
  revert i. induction allowed as [| cs allowed IH]; intros i Hi Hl; [by eexists |]. rewrite len_cons in Hl. pose proof (len_nonneg allowed). cbn [check_prefix].
  destruct (char_at_defined s i) as [c ->]; [lia |]. cbn [outcome_bind]. case_bool_decide; [| by eexists]. apply IH; lia.
Qed.

Lemma hashpw_defined password s n : 29 <= len s -> atoi (dropZ 4 s) = Returns n -> exists r, apex_bcrypt_hashpw password s = Returns r.
Proof.
  intros Hl Ha. unfold apex_bcrypt_hashpw. destruct (check_prefix_defined s [[36]; [50]; [97; 98]; [36]] 0) as [[] ->]; [lia | change (len [[36]; [50]; [97; 98]; [36]]) with 4; lia | | by eexists].
  cbn [outcome_bind negb]. rewrite Ha. cbn [outcome_bind]. destruct (_ || _); [by eexists |]. unfold decode_base64.
  destruct (decode_defined (S (Z.to_nat 16)) 16 s 7 []) as [[m raw] ->]; [lia | change (len (@nil Z)) with 0; lia |]. cbn [outcome_bind]. destruct (m <? 16); [by eexists |]. cbv zeta.
  rewrite (proj2 (Z.ltb_ge _ _)) by lia. by eexists.
Qed.

(** ** The key schedule *)

Lemma push_byte_arith w b : is_byte b -> push_byte w b = 256 * (w mod 2 ^ 24) + b.
Proof.
  intros Hb. unfold push_byte, wrap. rewrite Z.shiftl_mul_pow2 by lia. replace (2 ^ 32) with (2 ^ 24 * 2 ^ 8) by done. rewrite Z.mul_mod_distr_r by done.
  rewrite lor_low by (done || exact Hb). lia.
Qed.

(** Four bytes replace a word, whatever it was. *)
Lemma push_word w w' a b c d : is_byte a -> is_byte b -> is_byte c -> is_byte d ->
  push_byte (push_byte (push_byte (push_byte w a) b) c) d = push_byte (push_byte (push_byte (push_byte w' a) b) c) d.
Proof. intros Ha Hb Hc Hd. rewrite !push_byte_arith by done. unfold in_width in *. Z.to_euclidean_division_equations. lia. Qed.

Lemma data_word data n w w' di : Forall is_byte data -> Nat.iter 4 (data_byte data n) (w, di) = Nat.iter 4 (data_byte data n) (w', di).
Proof.
  intros Hd. cbn [Nat.iter nat_rect]. unfold data_byte. cbn [fst snd]. f_equal. apply push_word; by apply nthZ_is_byte.
Qed.

Lemma key_bytes_ext key key' n ki w : (forall i, 0 <= i < n -> nthZ key i = nthZ key' i) -> 0 <= ki < n -> forall k,
  Nat.iter k (key_byte key n) (w, ki) = Nat.iter k (key_byte key' n) (w, ki) /\ 0 <= (Nat.iter k (key_byte key n) (w, ki)).2 < n.
Proof.
  intros Hk Hki. induction k as [| k [IH Hr]]; [done |].
  change (Nat.iter (S k) (key_byte key n) (w, ki)) with (key_byte key n (Nat.iter k (key_byte key n) (w, ki))).
  change (Nat.iter (S k) (key_byte key' n) (w, ki)) with (key_byte key' n (Nat.iter k (key_byte key' n) (w, ki))). rewrite <- IH.
  unfold key_byte at 1 3 5. rewrite Hk by done. split; [done |]. cbn. apply Z.mod_pos_bound. lia.
Qed.

Lemma xor_key_ext key key' n p ki : (forall i, 0 <= i < n -> nthZ key i = nthZ key' i) -> 0 <= ki < n -> xor_key key n ki p = xor_key key' n ki p.
Proof.
  intros Hk. revert ki. induction p as [| x p IH]; intros ki Hki; [done |]. cbn [xor_key]. destruct (key_bytes_ext key key' n ki 0 Hk Hki 4) as [<- Hr].
  destruct (Nat.iter 4 (key_byte key n) (0, ki)) as [tmp ki']. f_equal. by apply IH.
Qed.

Lemma N_iter_ext {A} (f g : A -> A) n x : (forall y, f y = g y) -> N.iter n f x = N.iter n g x.
Proof. intros Hfg. induction n as [| n IH] using N.peano_ind; [done |]. rewrite !N.iter_succ, IH. apply Hfg. Qed.

Lemma setup_ext r raw key key' n : 0 < n -> (forall i, 0 <= i < n -> nthZ key i = nthZ key' i) -> eksblowfish_setup r raw key n = eksblowfish_setup r raw key' n.
Proof.
  intros Hn Hk. unfold eksblowfish_setup. assert (forall ctx data, bf_expand_key ctx key n data 16 = bf_expand_key ctx key' n data 16) as He.
  { intros ctx data. unfold bf_expand_key. assert (xor_key key n 0 (P ctx) = xor_key key' n 0 (P ctx)) as -> by (apply xor_key_ext; [exact Hk | lia]). reflexivity. }
  rewrite (He bf_init raw). apply N_iter_ext. intros ctx. by rewrite (He ctx zero_salt).
Qed.

Lemma key_length_take password : key_length password = len (takeZ 72 (password ++ [0])).
Proof. unfold key_length. rewrite len_takeZ, len_app. pose proof (len_nonneg password). change (len [0]) with 1. destruct (Z.ltb_spec 72 (len password + 1)); lia. Qed.

(** Only 72 bytes of a password and its terminator count. *)
Lemma digest_72 p q r raw : takeZ 72 (p ++ [0]) = takeZ 72 (q ++ [0]) -> digest p r raw = digest q r raw.
Proof.
  intros E. unfold digest. assert (key_length p = key_length q) as Ek by (by rewrite !key_length_take, E). rewrite Ek, (setup_ext r raw (p ++ [0]) (q ++ [0])); [done | |].
  - rewrite key_length_take, len_takeZ, len_app. pose proof (len_nonneg q). change (len [0]) with 1. lia.
  - intros i Hi. assert (i < 72) by (rewrite key_length_take, len_takeZ in Hi; lia). by rewrite <- (nthZ_takeZ 72 (p ++ [0])), E, nthZ_takeZ by lia.
Qed.

(** ** Passwords and their hashes *)

#[local] Opaque digest.

Definition cost (work_factor : Z) : Z := Z.max 4 (Z.min 31 (to_int work_factor)).

Lemma gensalt_text raw work_factor : apex_bcrypt_gensalt (Some raw) (to_int work_factor) = Some (salt_text (cost work_factor) raw).
Proof.
  unfold apex_bcrypt_gensalt, cost. generalize (to_int work_factor) as n. intros n.
  replace (if 31 <? (if n <? 4 then 4 else n) then 31 else if n <? 4 then 4 else n) with (Z.max 4 (Z.min 31 n)); [done |].
  destruct (Z.ltb_spec n 4); [change (31 <? 4) with false; cbv iota; lia |]. destruct (Z.ltb_spec 31 n); lia.
Qed.

Lemma prefix_decide (s d1 d2 : bytes) : ((if decide (s ++ d1 = s ++ d2) then 0 else 1) =? 0) = bool_decide (d1 = d2).
Proof. case_decide as E; case_bool_decide as E'; try done; [by apply app_inv_head in E |]. by subst. Qed.

(** The text that [encode_base64] writes is over the alphabet of the table, is as long
    as its bytes need, and [decode_base64] reads the bytes back from it, whatever follows
    it in the string. *)
Theorem base64_round_trip bs post : Forall is_byte bs ->
  Forall alphabet (encode_base64 bs) /\ len (encode_base64 bs) = (4 * len bs + 2) / 3 /\
  decode_base64 (len bs) (encode_base64 bs ++ post) 0 = Returns (len bs, bs).
Proof.
  intros Hbs. split_and!; [apply encode_alphabet | apply len_encode |]. unfold decode_base64.
  apply (decode_encode bs (S (Z.to_nat (len bs))) [] post [] Hbs). unfold len. lia.
Qed.

Lemma hash_not_0 password r raw : 4 <= r <= 31 -> 0 ∉ salt_text r raw ++ digest password r raw.
Proof. intros Hr. rewrite not_elem_of_app. split; [by apply salt_text_not_0 | apply digest_not_0]. Qed.

Lemma hash_text password work_factor raw : len raw = 16 -> Forall is_byte raw ->
  hash (Some raw) work_factor password = Returns (salt_text (cost work_factor) raw ++ digest (c_str password) (cost work_factor) raw).
Proof.
  intros Hl Hraw. assert (4 <= cost work_factor <= 31) as Hr by (unfold cost; lia). unfold hash. rewrite gensalt_text.
  rewrite <- (app_nil_r (salt_text _ raw)), hashpw_salt by done. cbn [outcome_bind]. by rewrite app_nil_r, app_assoc, c_str_app by (by apply hash_not_0).
Qed.

Lemma verify_registered password other r raw : 4 <= r <= 31 -> len raw = 16 -> Forall is_byte raw ->
  verify other (salt_text r raw ++ digest password r raw) = Returns (bool_decide (digest (c_str other) r raw = digest password r raw)).
Proof.
  intros Hr Hl Hraw. unfold verify. rewrite (c_str_id (salt_text r raw ++ _)) by (by apply hash_not_0). rewrite (checkpw_rehashes _ _ _ (hashpw_salt (c_str other) r raw (digest password r raw) Hr Hl Hraw)).
  cbn [outcome_bind]. rewrite app_assoc, (c_str_app _ []) by (by apply hash_not_0). f_equal. apply prefix_decide.
Qed.

(** C30: a password's hash is 60 characters and [verify] accepts the password with it; it
    accepts another one exactly if the two have the same digest for the salt and the cost
    in the hash, as passwords that agree on their first 72 bytes do. Neither call reads
    outside of the strings. *)
Theorem password_verifies password work_factor raw : len raw = 16 -> Forall is_byte raw ->
  exists h, hash (Some raw) work_factor password = Returns h /\ len h = 60 /\
    h = salt_text (cost work_factor) raw ++ digest (c_str password) (cost work_factor) raw /\ verify password h = Returns true /\
    (forall other, verify other h = Returns (bool_decide (digest (c_str other) (cost work_factor) raw = digest (c_str password) (cost work_factor) raw))) /\
    (forall other, takeZ 72 (c_str other ++ [0]) = takeZ 72 (c_str password ++ [0]) -> verify other h = Returns true).
Proof.
  intros Hl Hraw. assert (4 <= cost work_factor <= 31) as Hr by (unfold cost; lia).
  pose proof (λ other, verify_registered (c_str password) other _ raw Hr Hl Hraw) as Hv. eexists. split_and!; [by apply hash_text | | reflexivity | | exact Hv |].
  - by rewrite len_app, len_salt_text, len_digest.
  - rewrite Hv. by rewrite bool_decide_true.
  - intros other E. rewrite Hv. by rewrite bool_decide_true by (by apply digest_72).
Qed.

(** A stored hash that has lost all but its first 28 characters accepts every
    password: the terminator is taken for a character of the salt, and the hash that is
    computed ends at the copy of it. *)
Theorem truncated_hash_accepts_all password r s : 4 <= r <= 31 -> length s = 21%nat -> Forall alphabet s ->
  apex_bcrypt_checkpw password (bytes_of "$2a$" ++ two_digits r ++ [36] ++ s) = Returns 0.
Proof.
  intros Hr Hs Ha. destruct (hashpw_truncated password r s Hr Hs Ha) as [t E]. rewrite (checkpw_rehashes _ _ _ E). rewrite decide_True; [done |].
  apply c_str_app. destruct (rounds_text r Hr) as (_ & Hd & _). rewrite !not_elem_of_app. split_and!.
  - by apply text_avoids.
  - by apply digits_avoid.
  - by rewrite list_elem_of_singleton.
  - by apply alphabet_not_0.
Qed.

(** Checking a password with a stored hash of 29 characters or more reads nothing outside
    of it, where its cost is a number. *)
Theorem check_reads_in_bounds password stored n : 29 <= len stored -> atoi (dropZ 4 stored) = Returns n -> exists ret, apex_bcrypt_checkpw password stored = Returns ret.
Proof.
  intros Hl Ha. destruct (hashpw_defined password stored n Hl Ha) as [[b |] E].
  - rewrite (checkpw_rehashes _ _ _ E). by eexists.
  - unfold apex_bcrypt_checkpw. rewrite E. by eexists.
Qed.

(** A block of the key schedule depends on the data and the tables alone: the four bytes
    that are shifted into a word push the block before it out, where Eksblowfish adds the
    data to that block. *)
Theorem schedule_not_chained ctx data n l r di : Forall is_byte data -> next_block ctx data n (l, r, di) = next_block ctx data n (0, 0, di).
Proof. intros Hd. unfold next_block. rewrite (data_word data n l 0) by done. destruct (Nat.iter 4 _ (0, di)) as [w d]. by rewrite (data_word data n r 0) by done. Qed.

(** So with the salt of zeros every entry of the tables is an encryption of the same
    block. *)
Lemma zero_salt_block ctx l r di : 0 <= di -> next_block ctx zero_salt 16 (l, r, di) = (bf_encrypt ctx (0, 0), di + 8).
Proof.
  intros Hd. rewrite schedule_not_chained by (apply Forall_replicate; done).
  assert (forall d, 0 <= d -> Nat.iter 4 (data_byte zero_salt 16) (0, d) = (0, d + 4)) as Hz.
  { intros d Hw. assert (forall i, nthZ zero_salt i = 0) as Hn by (intros i; unfold nthZ, zero_salt; generalize (Z.to_nat i) as k, 16%nat as m; intros k m; revert k; induction m as [| m IH]; intros [| k]; cbn; done).
    cbn [Nat.iter nat_rect]. unfold data_byte. cbn [fst snd]. rewrite !Hn. f_equal. lia. }
  unfold next_block. rewrite !Hz by lia. destruct (bf_encrypt ctx (0, 0)). f_equal. lia.
Qed.

(** ** Concrete runs *)

Definition example_salt : bytes := [3; 20; 37; 54; 71; 88; 105; 122; 139; 156; 173; 190; 207; 224; 241; 2].

Lemma base64_round_trip_witness :
  encode_base64 example_salt = bytes_of ".vOjLibWYVoJlI08x8Bv.e" /\ decode_base64 16 (bytes_of ".vOjLibWYVoJlI08x8Bv.e") 0 = Returns (16, example_salt).
Proof.
  split; [vm_compute; reflexivity |]. assert (Forall is_byte example_salt) as Hb by (unfold example_salt; solve_Forall).
  pose proof (base64_round_trip example_salt [] Hb) as (_ & _ & E). rewrite app_nil_r in E. exact E.
Defined.

Lemma password_verifies_witness : exists h,
  hash (Some example_salt) 4 (bytes_of "password") = Returns h /\ len h = 60 /\ takeZ 29 h = bytes_of "$2a$04$.vOjLibWYVoJlI08x8Bv.e" /\
  verify (bytes_of "password") h = Returns true.
Proof.
  assert (Forall is_byte example_salt) as Hb by (unfold example_salt; solve_Forall).
  destruct (password_verifies (bytes_of "password") 4 example_salt eq_refl Hb) as (h & E & Hl & Eh & Hv & _).
  exists h. split; [exact E |]. split; [exact Hl |]. split; [| exact Hv]. rewrite Eh. apply (takeZ_app_len (salt_text (cost 4) example_salt)).
Defined.

Lemma truncated_hash_accepts_all_witness : apex_bcrypt_checkpw (bytes_of "anything") (bytes_of "$2a$04$.vOjLibWYVoJlI08x8Bv.") = Returns 0.
Proof.
  apply (truncated_hash_accepts_all (bytes_of "anything") 4 (bytes_of ".vOjLibWYVoJlI08x8Bv.")); [lia | reflexivity |].
  repeat (apply List.Forall_cons; [split; [vm_compute; split; [discriminate | reflexivity] | reflexivity] |]). apply List.Forall_nil.
Defined.

(** A hash that is cut inside of its salt is read past its end. *)
Example cut_salt_reads_past_end : apex_bcrypt_checkpw (bytes_of "anything") (bytes_of "$2a$04$.vOjL") = Throws undefined_behaviour.
Proof. vm_compute. reflexivity. Qed.

(** Two of the four boxes start as zeros, where Blowfish has digits of pi. *)
Example boxes_start_empty : drop 2 (S_ bf_init) = [replicate 256 0; replicate 256 0].
Proof. reflexivity. Qed.
