(* ===== verification/WireHeader.v ===== *)
(** * Wire header

    [apex::core::WireHeader] (apex_core/include/apex/core/wire_header.hpp and
    apex_core/src/wire_header.cpp): the fixed 12-byte frame header, parsed and
    serialised field by field in network byte order on a little-endian host. *)

From S2P Require Import Prelude ErrorCode.

Definition SIZE : Z := 12.
Definition CURRENT_VERSION : Z := 2.
Definition MAX_BODY_SIZE : Z := 16 * 1024 * 1024.

Definition OFF_VERSION : Z := 0.
Definition OFF_FLAGS : Z := 1.
Definition OFF_MSG_ID : Z := 2.
Definition OFF_BODY_SIZE : Z := 6.
Definition OFF_RESERVED : Z := 10.

(** [wire_flags]. *)
Definition flag_COMPRESSED : Z := 1.
Definition flag_HEARTBEAT : Z := 2.
Definition flag_ERROR_RESPONSE : Z := 4.
Definition flag_REQUIRE_AUTH_CHECK : Z := 8.

Record WireHeader : Type := mkWireHeader {
  version : Z;
  flags : Z;
  msg_id : Z;
  body_size : Z;
  reserved : Z;
}.

(** The default member initialisers. *)
Definition default_header : WireHeader := mkWireHeader CURRENT_VERSION 0 0 0 0.

#[global] Instance WireHeader_eq_dec : EqDecision WireHeader.
Proof. solve_decision. Defined.

(** Every field is within its C++ width. *)
Definition wf_header (h : WireHeader) : Prop :=
  in_width 8 (version h) /\ in_width 8 (flags h) /\ in_width 32 (msg_id h) /\
  in_width 32 (body_size h) /\ in_width 16 (reserved h).

(** [ntoh16]/[ntoh32] are the byte swaps [hton16]/[hton32]. *)
Definition hton16 (v : Z) : Z := bswap 2 v.
Definition hton32 (v : Z) : Z := bswap 4 v.
Definition ntoh16 (v : Z) : Z := hton16 v.
Definition ntoh32 (v : Z) : Z := hton32 v.

(** [memcpy] of a host integer out of a byte buffer. *)
Definition load16 (data : list Z) (off : Z) : Z := le_load (slice off 2 data).
Definition load32 (data : list Z) (off : Z) : Z := le_load (slice off 4 data).

Definition parse (data : list Z) : Result WireHeader :=
  if len data <? SIZE then Err InsufficientData
  else
    let version := nthZ data OFF_VERSION in
    if negb (version =? CURRENT_VERSION) then Err UnsupportedProtocolVersion
    else
      let flags := nthZ data OFF_FLAGS in
      let msg_id := ntoh32 (load32 data OFF_MSG_ID) in
      let body_size := ntoh32 (load32 data OFF_BODY_SIZE) in
      let reserved := ntoh16 (load16 data OFF_RESERVED) in
      if MAX_BODY_SIZE <? body_size then Err BodyTooLarge
      else Ok (mkWireHeader version flags msg_id body_size reserved).

(** [serialize(out)]: the writes, in order, into the 12-byte span [out]. *)
Definition serialize_into (h : WireHeader) (out : list Z) : list Z :=
  let out := patch OFF_VERSION [version h] out in
  let out := patch OFF_FLAGS [flags h] out in
  let out := patch OFF_MSG_ID (le_store 4 (hton32 (msg_id h))) out in
  let out := patch OFF_BODY_SIZE (le_store 4 (hton32 (body_size h))) out in
  patch OFF_RESERVED (le_store 2 (hton16 (reserved h))) out.

(** [serialize()]: into a zero-initialised array. *)
Definition serialize (h : WireHeader) : list Z :=
  serialize_into h (replicate (Z.to_nat SIZE) 0).

(** [size_t frame_size()]: 64-bit, the sum cannot wrap. *)
Definition frame_size (h : WireHeader) : Z := SIZE + body_size h.

(** ** The serialised layout *)

(** Big-endian bytes of an [n]-byte value. *)
Definition be_bytes (n : nat) (v : Z) : list Z := rev (le_store n v).

Lemma serialize_layout h :
  serialize h = [version h; flags h] ++ be_bytes 4 (msg_id h) ++ be_bytes 4 (body_size h) ++ be_bytes 2 (reserved h).
Proof.
  unfold serialize, serialize_into, hton32, hton16. rewrite !le_store_bswap. unfold be_bytes. reflexivity.
Qed.

Lemma len_serialize h : len (serialize h) = SIZE.
Proof. rewrite serialize_layout. done. Qed.

Lemma be_bytes_range n v : Forall is_byte (be_bytes n v).
Proof. apply List.Forall_rev, le_store_bytes. Qed.

Lemma serialize_bytes h : wf_header h -> Forall is_byte (serialize h).
Proof.
  intros (Hv & Hf & _). rewrite serialize_layout.
  rewrite !Forall_app, !Forall_cons, Forall_nil. split_and!; first [done | apply be_bytes_range].
Qed.

Lemma load_be n v : 0 <= v < 256 ^ Z.of_nat n -> bswap n (le_load (be_bytes n v)) = v.
Proof. intros. unfold be_bytes. rewrite <- le_store_bswap. by apply load_bswap_store. Qed.

(** Parsing what was serialised, with anything after the header. *)
Lemma parse_serialize h rest :
  wf_header h ->
  parse (serialize h ++ rest) =
    if negb (version h =? CURRENT_VERSION) then Err UnsupportedProtocolVersion
    else if MAX_BODY_SIZE <? body_size h then Err BodyTooLarge
    else Ok h.
Proof.
  intros (Hv & Hf & Hm & Hb & Hr). unfold parse. pose proof (len_nonneg rest).
  rewrite len_app, len_serialize. destruct (SIZE + len rest <? SIZE) eqn:E; [lia|].
  rewrite serialize_layout.
  change (nthZ _ OFF_VERSION) with (version h). change (nthZ _ OFF_FLAGS) with (flags h).
  change (load32 _ OFF_MSG_ID) with (le_load (be_bytes 4 (msg_id h))).
  change (load32 _ OFF_BODY_SIZE) with (le_load (be_bytes 4 (body_size h))).
  change (load16 _ OFF_RESERVED) with (le_load (be_bytes 2 (reserved h))).
  unfold ntoh32, ntoh16, hton32, hton16. rewrite !load_be by done. by destruct h.
Qed.

(** What [parse] accepts: the size, the version and the body bound. *)
Lemma parse_ok_inv data h :
  parse data = Ok h ->
  SIZE <= len data /\ version h = CURRENT_VERSION /\ body_size h <= MAX_BODY_SIZE.
Proof.
  unfold parse. split_ifs; intros; simplify_eq/=; [done..|].
  split_and!; lia.
Qed.

(** The stored big-endian bytes of a value read from four (two) bytes. *)
Lemma parse_body_nonneg data h : parse data = Ok h -> 0 <= body_size h.
Proof.
  unfold parse. split_ifs; [done..|]. intros [= <-]. apply (bswap_range 4).
Qed.

Lemma be_bytes_load xs : Forall is_byte xs -> be_bytes (length xs) (bswap (length xs) (le_load xs)) = xs.
Proof. intros. unfold be_bytes. rewrite le_store_bswap, le_store_load by done. apply rev_involutive. Qed.

Lemma parse_ok_wf data h : Forall is_byte data -> parse data = Ok h -> wf_header h.
Proof.
  intros Hb. unfold parse. destruct (len data <? SIZE) eqn:E; [done|].
  split_ifs; [done..|]. intros [= <-].
  assert (forall off, is_byte (nthZ data off)) as Hat by (intros; by apply nthZ_is_byte).
  pose proof (bswap_range 4) as R4. pose proof (bswap_range 2) as R2.
  split_and!; simpl; [apply Hat | apply Hat | apply R4 | apply R4 | apply R2].
Qed.

Lemma serialize_parse data h : Forall is_byte data -> parse data = Ok h -> serialize h = takeZ SIZE data.
Proof.
  intros Hb. unfold parse. destruct (len data <? SIZE) eqn:E; [done|].
  destruct data as [|b0 [|b1 [|b2 [|b3 [|b4 [|b5 [|b6 [|b7 [|b8 [|b9 [|b10 [|b11 rest]]]]]]]]]]]];
    try discriminate E.
  split_ifs; [done..|]. intros [= <-]. rewrite serialize_layout. simpl version. simpl flags.
  change (takeZ SIZE _) with ([b0; b1] ++ [b2; b3; b4; b5] ++ [b6; b7; b8; b9] ++ [b10; b11]).
  repeat (apply Forall_cons in Hb as [? Hb]).
  f_equal. f_equal; [|f_equal]; simpl; unfold ntoh32, ntoh16, hton32, hton16.
  - apply (be_bytes_load [b2; b3; b4; b5]). solve_Forall.
  - apply (be_bytes_load [b6; b7; b8; b9]). solve_Forall.
  - apply (be_bytes_load [b10; b11]). solve_Forall.
Qed.

(** Parsing the 12 bytes of a serialised header, whatever follows them, gives
    every field back; a header of another version or with a body above 16 MB is
    refused with the error documented for it. *)
Theorem wire_header_roundtrip (h : WireHeader) (rest : list Z) (Hwf : wf_header h) :
  parse (serialize h ++ rest) =
    (if negb (version h =? CURRENT_VERSION) then Err UnsupportedProtocolVersion
     else if MAX_BODY_SIZE <? body_size h then Err BodyTooLarge
     else Ok h) /\
  serialize h = [version h; flags h] ++ be_bytes 4 (msg_id h) ++ be_bytes 4 (body_size h) ++ be_bytes 2 (reserved h).
Proof. split; [by apply parse_serialize | apply serialize_layout]. Qed.

Lemma wire_header_roundtrip_witness :
  let h := mkWireHeader 2 4 1000 300 0 in parse (serialize h ++ [7; 7]) = Ok h.
Proof.
  pose proof (wire_header_roundtrip (mkWireHeader 2 4 1000 300 0) [7; 7]) as W.
  apply W. unfold wf_header, in_width. simpl. lia.
Defined.

(** A header is only ever read one way: when [parse] accepts some bytes, the
    header serialises to the first 12 of them, every field fits its width, the
    version is the current one, the body is at most 16 MB and [frame_size] does
    not overflow. *)
Theorem wire_header_parse_canonical (data : list Z) (h : WireHeader)
    (Hb : Forall is_byte data) (Hp : parse data = Ok h) :
  serialize h = takeZ SIZE data /\ wf_header h /\ version h = CURRENT_VERSION /\
  body_size h <= MAX_BODY_SIZE /\ frame_size h <= SIZE_MAX.
Proof.
  pose proof (parse_ok_inv _ _ Hp) as (_ & Hv & Hs). split_and!; [by apply serialize_parse|by eapply parse_ok_wf|done..|].
  unfold frame_size, SIZE, MAX_BODY_SIZE, SIZE_MAX in *. lia.
Qed.

Lemma wire_header_parse_canonical_witness :
  let data := [2; 1; 0; 0; 3; 232; 0; 0; 0; 2; 0; 0; 65; 66] in
  parse data = Ok (mkWireHeader 2 1 1000 2 0) /\ serialize (mkWireHeader 2 1 1000 2 0) = takeZ SIZE data.
Proof.
  split; [vm_compute; done|].
  apply (wire_header_parse_canonical [2; 1; 0; 0; 3; 232; 0; 0; 0; 2; 0; 0; 65; 66]); [|vm_compute; done].
  solve_Forall.
Defined.
