(* ===== verification/RingBuffer.v ===== *)
(** * Ring buffer

    [apex::core::RingBuffer] (apex_core/include/apex/core/ring_buffer.hpp and
    apex_core/src/ring_buffer.cpp): the receive buffer of a session. Read and
    write positions are free-running 64-bit counters that wrap around; indices
    are positions masked with [capacity - 1].

    A span is a base (the ring storage or the linearisation scratch buffer), an
    offset and a size, so that two reads through one span see what the memory
    holds at that moment. Allocation can fail: [malloc_ok n] says whether a
    request of [n] bytes succeeds, and [fill] is the content of fresh memory. *)

From S2P Require Import Prelude MathUtils.

Record RingBuffer : Type := mkRingBuffer {
  buffer_ : list Z;
  linear_buf_ : option (list Z);
  capacity_ : Z;
  mask_ : Z;
  read_pos_ : Z;
  write_pos_ : Z;
  linear_buf_size_ : Z;
}.

Inductive span_base : Type := NullBase | RingBase | LinearBase.

Record span : Type := mkSpan { sp_base : span_base; sp_off : Z; sp_size : Z }.

Definition empty_span : span := mkSpan NullBase 0 0.

(** The bytes a span designates in the current memory. *)
Definition span_bytes (rb : RingBuffer) (s : span) : list Z :=
  match sp_base s with
  | NullBase => []
  | RingBase => slice (sp_off s) (sp_size s) (buffer_ rb)
  | LinearBase => slice (sp_off s) (sp_size s) (default [] (linear_buf_ rb))
  end.

Definition set_buffer (b : list Z) (rb : RingBuffer) : RingBuffer :=
  mkRingBuffer b (linear_buf_ rb) (capacity_ rb) (mask_ rb) (read_pos_ rb) (write_pos_ rb) (linear_buf_size_ rb).
Definition set_linear (l : option (list Z)) (n : Z) (rb : RingBuffer) : RingBuffer :=
  mkRingBuffer (buffer_ rb) l (capacity_ rb) (mask_ rb) (read_pos_ rb) (write_pos_ rb) n.
Definition set_read_pos (p : Z) (rb : RingBuffer) : RingBuffer :=
  mkRingBuffer (buffer_ rb) (linear_buf_ rb) (capacity_ rb) (mask_ rb) p (write_pos_ rb) (linear_buf_size_ rb).
Definition set_write_pos (p : Z) (rb : RingBuffer) : RingBuffer :=
  mkRingBuffer (buffer_ rb) (linear_buf_ rb) (capacity_ rb) (mask_ rb) (read_pos_ rb) p (linear_buf_size_ rb).

(** [memcpy] through a writable span. *)
Definition store_span (rb : RingBuffer) (s : span) (bs : list Z) : RingBuffer :=
  set_buffer (patch (sp_off s) bs (buffer_ rb)) rb.

Definition readable_size (rb : RingBuffer) : Z := u64 (write_pos_ rb - read_pos_ rb).
Definition writable_size (rb : RingBuffer) : Z := u64 (capacity_ rb - readable_size rb).
Definition capacity (rb : RingBuffer) : Z := capacity_ rb.

Definition writable (rb : RingBuffer) : span :=
  let avail := writable_size rb in
  if avail =? 0 then empty_span
  else
    let w := Z.land (write_pos_ rb) (mask_ rb) in
    let to_end := capacity_ rb - w in
    mkSpan RingBase w (Z.min to_end avail).

Definition commit_write (n : Z) (rb : RingBuffer) : RingBuffer :=
  let n := Z.min n (writable_size rb) in
  set_write_pos (u64 (write_pos_ rb + n)) rb.

Definition contiguous_read (rb : RingBuffer) : span :=
  let avail := readable_size rb in
  if avail =? 0 then empty_span
  else
    let r := Z.land (read_pos_ rb) (mask_ rb) in
    let to_end := capacity_ rb - r in
    mkSpan RingBase r (Z.min to_end avail).

Definition consume (n : Z) (rb : RingBuffer) : RingBuffer :=
  let n := Z.min n (readable_size rb) in
  set_read_pos (u64 (read_pos_ rb + n)) rb.

Definition write (data : list Z) (rb : RingBuffer) : bool * RingBuffer :=
  if len data =? 0 then (true, rb)
  else if writable_size rb <? len data then (false, rb)
  else
    let w := writable rb in
    if len data <=? sp_size w then
      let rb := store_span rb w data in
      (true, commit_write (len data) rb)
    else
      let first := sp_size w in
      let rb := store_span rb w (takeZ first data) in
      let rb := commit_write first rb in
      let w2 := writable rb in
      let rb := store_span rb w2 (dropZ first data) in
      (true, commit_write (len data - first) rb).

Definition reset (rb : RingBuffer) : RingBuffer :=
  set_linear None 0 (set_write_pos 0 (set_read_pos 0 rb)).

Section Allocation.
Context (malloc_ok : Z -> bool) (fill : Z).

(** The constructor. *)
Definition make (capacity : Z) : outcome RingBuffer :=
  let capacity_ := next_power_of_2 (if capacity <? 1 then 1 else capacity) in
  if capacity_ =? 0 then Throws overflow_error
  else
    let alloc_size := Z.max capacity_ 64 in
    if malloc_ok alloc_size then
      Returns (mkRingBuffer (replicate (Z.to_nat alloc_size) fill) None capacity_ (capacity_ - 1) 0 0 0)
    else Throws bad_alloc.

(** [std::realloc]: the old prefix is kept, the rest is fresh memory. *)
Definition realloc (old : option (list Z)) (n : Z) : option (list Z) :=
  if malloc_ok n then
    let kept := takeZ n (default [] old) in
    Some (kept ++ replicate (Z.to_nat (n - len kept)) fill)
  else None.

Definition linearize (n : Z) (rb : RingBuffer) : span * RingBuffer :=
  if readable_size rb <? n then (empty_span, rb)
  else
    let r := Z.land (read_pos_ rb) (mask_ rb) in
    let to_end := capacity_ rb - r in
    if n <=? to_end then (mkSpan RingBase r n, rb)
    else
      match
        (if linear_buf_size_ rb <? n then
           match realloc (linear_buf_ rb) n with
           | Some new_buf => Some (set_linear (Some new_buf) n rb)
           | None => None
           end
         else Some rb)
      with
      | None => (empty_span, rb)
      | Some rb =>
          let lb := default [] (linear_buf_ rb) in
          let lb := patch 0 (slice r to_end (buffer_ rb)) lb in
          let lb := patch to_end (slice 0 (n - to_end) (buffer_ rb)) lb in
          (mkSpan LinearBase 0 n, set_linear (Some lb) (linear_buf_size_ rb) rb)
      end.

Definition shrink_to_fit (rb : RingBuffer) : RingBuffer :=
  match linear_buf_ rb with
  | None => rb
  | Some lb =>
      let usage := readable_size rb in
      if usage =? 0 then set_linear None 0 rb
      else if u64 (usage * 4) <=? linear_buf_size_ rb then
        let new_size := u64 (usage * 2) in
        match realloc (Some lb) new_size with
        | Some new_buf => set_linear (Some new_buf) new_size rb
        | None => rb
        end
      else rb
  end.

End Allocation.

(** ** Invariant and contents *)

(** The [n] bytes from position [p] of a ring of [cap] bytes. *)
Definition ring_read (buf : list Z) (cap p n : Z) : list Z :=
  (fun i => nthZ buf ((p + i) mod cap)) <$> seqZ 0 n.

(** The unread bytes, oldest first: the abstract state of the buffer. *)
Definition contents (rb : RingBuffer) : list Z :=
  ring_read (buffer_ rb) (capacity_ rb) (read_pos_ rb) (readable_size rb).

Record wf (rb : RingBuffer) : Prop := mk_wf {
  wf_pow2 : exists k, 0 <= k <= 63 /\ capacity_ rb = 2 ^ k;
  wf_mask : mask_ rb = capacity_ rb - 1;
  wf_buf : capacity_ rb <= len (buffer_ rb);
  wf_read : in_width 64 (read_pos_ rb);
  wf_write : in_width 64 (write_pos_ rb);
  wf_fill : readable_size rb <= capacity_ rb;
  wf_linear : linear_buf_size_ rb = len (default [] (linear_buf_ rb));
}.

(** The bytes a socket read delivers into [writable], committed: the number
    that fitted and the new buffer. *)
Definition recv (data : list Z) (rb : RingBuffer) : Z * RingBuffer :=
  let w := writable rb in
  let d := takeZ (sp_size w) data in
  (len d, commit_write (len d) (store_span rb w d)).

(** ** The abstract byte queue *)

Inductive rb_op : Type :=
| OpWrite (data : list Z)
| OpRecv (data : list Z)
| OpConsume (n : Z)
| OpLinearize (n : Z)
| OpContiguousRead
| OpReset
| OpShrink.

Inductive rb_obs : Type :=
| ObsUnit
| ObsBool (b : bool)
| ObsSize (n : Z)
| ObsBytes (bs : list Z).

(** Sizes are [size_t] values. *)
Definition op_ok (o : rb_op) : Prop :=
  match o with OpConsume n | OpLinearize n => 0 <= n | _ => True end.

Definition rb_step (malloc_ok : Z -> bool) (fill : Z) (o : rb_op) (rb : RingBuffer) : rb_obs * RingBuffer :=
  match o with
  | OpWrite data => let r := write data rb in (ObsBool r.1, r.2)
  | OpRecv data => let r := recv data rb in (ObsSize r.1, r.2)
  | OpConsume n => (ObsUnit, consume n rb)
  | OpLinearize n => let r := linearize malloc_ok fill n rb in (ObsBytes (span_bytes r.2 r.1), r.2)
  | OpContiguousRead => (ObsBytes (span_bytes rb (contiguous_read rb)), rb)
  | OpReset => (ObsUnit, reset rb)
  | OpShrink => (ObsUnit, shrink_to_fit malloc_ok fill rb)
  end.

Fixpoint rb_run (malloc_ok : Z -> bool) (fill : Z) (os : list rb_op) (rb : RingBuffer) : list rb_obs * RingBuffer :=
  match os with
  | [] => ([], rb)
  | o :: os => let r := rb_step malloc_ok fill o rb in
               let rs := rb_run malloc_ok fill os r.2 in (r.1 :: rs.1, rs.2)
  end.

(** What a byte queue of capacity [cap] may answer. A partial receive or a
    contiguous read may stop early, never at zero while it could move a byte. *)
Inductive fifo_step (malloc_ok : Z -> bool) (cap : Z) : rb_op -> list Z -> rb_obs -> list Z -> Prop :=
| fifo_write data q : len q + len data <= cap -> fifo_step malloc_ok cap (OpWrite data) q (ObsBool true) (q ++ data)
| fifo_write_full data q : cap < len q + len data -> fifo_step malloc_ok cap (OpWrite data) q (ObsBool false) q
| fifo_recv data q n : 0 <= n <= len data -> len q + n <= cap -> (data <> [] -> len q < cap -> 0 < n) ->
    fifo_step malloc_ok cap (OpRecv data) q (ObsSize n) (q ++ takeZ n data)
| fifo_consume n q : fifo_step malloc_ok cap (OpConsume n) q ObsUnit (dropZ n q)
| fifo_linearize n q : n <= len q -> fifo_step malloc_ok cap (OpLinearize n) q (ObsBytes (takeZ n q)) q
| fifo_linearize_short n q : len q < n -> fifo_step malloc_ok cap (OpLinearize n) q (ObsBytes []) q
| fifo_linearize_nomem n q : malloc_ok n = false -> fifo_step malloc_ok cap (OpLinearize n) q (ObsBytes []) q
| fifo_contiguous q n : 0 <= n <= len q -> (0 < len q -> 0 < n) ->
    fifo_step malloc_ok cap OpContiguousRead q (ObsBytes (takeZ n q)) q
| fifo_reset q : fifo_step malloc_ok cap OpReset q ObsUnit []
| fifo_shrink q : fifo_step malloc_ok cap OpShrink q ObsUnit q.

Inductive fifo_run (malloc_ok : Z -> bool) (cap : Z) : list rb_op -> list Z -> list rb_obs -> list Z -> Prop :=
| fifo_run_nil q : fifo_run malloc_ok cap [] q [] q
| fifo_run_cons o os q x q1 xs q2 :
    fifo_step malloc_ok cap o q x q1 -> fifo_run malloc_ok cap os q1 xs q2 -> fifo_run malloc_ok cap (o :: os) q (x :: xs) q2.

(** ** Reading a ring *)

Lemma len_ring_read buf cap p n : 0 <= n -> len (ring_read buf cap p n) = n.
Proof. intros. unfold ring_read. rewrite len_fmap. unfold len. rewrite length_seqZ. lia. Qed.

Lemma nthZ_ring_read buf cap p n i :
  0 <= i < n -> nthZ (ring_read buf cap p n) i = nthZ buf ((p + i) mod cap).
Proof.
  intros. unfold ring_read. unfold nthZ at 1. rewrite list_lookup_fmap, lookup_seqZ_lt by lia.
  simpl. do 3 f_equal. lia.
Qed.

(** Reads agree when the bytes they touch agree. *)
Lemma ring_read_ext buf buf' cap p p' n :
  (forall i, 0 <= i < n -> nthZ buf ((p + i) mod cap) = nthZ buf' ((p' + i) mod cap)) ->
  ring_read buf cap p n = ring_read buf' cap p' n.
Proof.
  intros H. destruct (decide (0 <= n)).
  - apply nthZ_ext; rewrite !len_ring_read by done; [done|]. intros i Hi. rewrite !nthZ_ring_read by done. auto.
  - unfold ring_read. rewrite seqZ_nil by lia. done.
Qed.

Lemma ring_read_app buf cap p n m :
  0 <= n -> 0 <= m -> ring_read buf cap p (n + m) = ring_read buf cap p n ++ ring_read buf cap (p + n) m.
Proof.
  intros. apply nthZ_ext; [rewrite len_app, !len_ring_read by lia; done|].
  intros i Hi. rewrite len_ring_read in Hi by lia. rewrite nthZ_ring_read by lia.
  destruct (decide (i < n)).
  - rewrite nthZ_app_l, nthZ_ring_read by (rewrite ?len_ring_read; lia). done.
  - rewrite nthZ_app_r, len_ring_read, nthZ_ring_read by (rewrite ?len_ring_read; lia). do 2 f_equal. lia.
Qed.

(** A read that does not wrap is a slice. *)
Lemma ring_read_slice buf cap p n :
  0 < cap <= len buf -> 0 <= n -> p mod cap + n <= cap -> ring_read buf cap p n = slice (p mod cap) n buf.
Proof.
  intros Hc Hn Hp. pose proof (Z.mod_pos_bound p cap).
  apply nthZ_ext; rewrite len_ring_read by done; [rewrite len_slice; lia|].
  intros i Hi. rewrite nthZ_ring_read, nthZ_slice by lia. f_equal.
  rewrite <- Zplus_mod_idemp_l. apply Z.mod_small. lia.
Qed.

Lemma ring_read_mod buf cap p p' n : p mod cap = p' mod cap -> ring_read buf cap p n = ring_read buf cap p' n.
Proof.
  intros E. apply ring_read_ext. intros i _. f_equal.
  rewrite <- (Zplus_mod_idemp_l p), <- (Zplus_mod_idemp_l p'), E. done.
Qed.

(** Two positions less than [cap] apart do not share an index. *)
Lemma positions_apart cap a b n i w j m p :
  p + n = cap * a + w -> p + i = cap * b + j -> 0 <= i < n -> n + m <= cap -> w <= j < w + m -> False.
Proof.
  intros Ha Hb Hi Hm Hj.
  assert (E : cap * (a - b) = n - i + (j - w)) by lia.
  assert (0 < cap * (a - b)) by lia.
  assert (cap * (a - b) < cap * 1) by lia.
  assert (0 < cap) by lia.
  assert (0 < a - b < 1); [|lia].
  split; apply (Z.mul_lt_mono_pos_l cap); lia.
Qed.

(** Overwriting free space leaves the [n] bytes from [p] alone. *)
Lemma ring_read_patch_free buf cap p n bs :
  0 < cap <= len buf -> 0 <= n -> n + len bs <= cap -> (p + n) mod cap + len bs <= cap ->
  ring_read (patch ((p + n) mod cap) bs buf) cap p n = ring_read buf cap p n.
Proof.
  intros Hc Hn Hnm Hw. pose proof (Z.mod_pos_bound (p + n) cap). pose proof (len_nonneg bs).
  apply ring_read_ext. intros i Hi. pose proof (Z.mod_pos_bound (p + i) cap).
  apply nthZ_patch_out; [lia|lia|].
  destruct (decide ((p + n) mod cap <= (p + i) mod cap < (p + n) mod cap + len bs)) as [Hin|]; [|lia].
  exfalso. pose proof (Z.div_mod (p + n) cap). pose proof (Z.div_mod (p + i) cap).
  eapply (positions_apart cap ((p + n) / cap) ((p + i) / cap) n i ((p + n) mod cap) ((p + i) mod cap) (len bs) p); lia.
Qed.

(** Writing [bs] at the write index appends it to what is read. *)
Lemma ring_read_patch buf cap p n bs :
  0 < cap <= len buf -> 0 <= n -> n + len bs <= cap -> (p + n) mod cap + len bs <= cap ->
  ring_read (patch ((p + n) mod cap) bs buf) cap p (n + len bs) = ring_read buf cap p n ++ bs.
Proof.
  intros Hc Hn Hnm Hw. pose proof (Z.mod_pos_bound (p + n) cap). pose proof (len_nonneg bs).
  rewrite ring_read_app, ring_read_patch_free by lia. f_equal.
  rewrite ring_read_slice by (rewrite ?len_patch by lia; lia). apply slice_patch_same. lia.
Qed.

(** ** Consequences of the invariant *)

Section Invariant.
Context (rb : RingBuffer) (Hwf : wf rb).

Lemma capacity_pos : 0 < capacity_ rb <= 2 ^ 63.
Proof using Hwf.
  destruct Hwf as [[k [Hk ->]]]. pose proof (Z.pow_pos_nonneg 2 k). pose proof (Z.pow_le_mono_r 2 k 63). lia.
Qed.

Lemma readable_nonneg : 0 <= readable_size rb.
Proof. unfold readable_size. pose proof (wrap_range 64 (write_pos_ rb - read_pos_ rb)). unfold in_width in *. lia. Qed.

Lemma masked x : Z.land x (mask_ rb) = x mod capacity_ rb.
Proof using Hwf. destruct Hwf as [[k [Hk E]] ->]. rewrite E. apply land_mask. lia. Qed.

Lemma mod_u64 x : u64 x mod capacity_ rb = x mod capacity_ rb.
Proof using Hwf. destruct Hwf as [[k [Hk ->]]]. apply mod_wrap_pow2. lia. Qed.

Lemma writable_size_free : writable_size rb = capacity_ rb - readable_size rb.
Proof using Hwf.
  unfold writable_size. apply wrap_small. unfold in_width.
  pose proof capacity_pos. pose proof readable_nonneg. pose proof (wf_fill _ Hwf). lia.
Qed.

(** The write index is the read position advanced by the fill level. *)
Lemma write_index : Z.land (write_pos_ rb) (mask_ rb) = (read_pos_ rb + readable_size rb) mod capacity_ rb.
Proof using Hwf.
  rewrite masked. unfold readable_size.
  rewrite <- (Zplus_mod_idemp_r (u64 _)), mod_u64, Zplus_mod_idemp_r. f_equal. lia.
Qed.

Lemma contents_len : len (contents rb) = readable_size rb.
Proof. apply len_ring_read, readable_nonneg. Qed.

End Invariant.

#[export] Hint Resolve capacity_pos readable_nonneg : apex.

(** Advancing a counter modulo 2^64 moves the fill level by the same amount. *)
Lemma readable_advance_write rb n :
  wf rb -> 0 <= n -> readable_size rb + n <= capacity_ rb ->
  u64 (u64 (write_pos_ rb + n) - read_pos_ rb) = readable_size rb + n.
Proof.
  intros Hwf Hn Hc. pose proof (capacity_pos _ Hwf). pose proof (readable_nonneg rb).
  unfold readable_size in *. rewrite wrap_sub_l.
  replace (write_pos_ rb + n - read_pos_ rb) with (write_pos_ rb - read_pos_ rb + n) by lia.
  rewrite <- wrap_add_l. apply wrap_small. unfold in_width. lia.
Qed.

Lemma readable_advance_read rb n :
  wf rb -> 0 <= n <= readable_size rb ->
  u64 (write_pos_ rb - u64 (read_pos_ rb + n)) = readable_size rb - n.
Proof.
  intros Hwf Hn. pose proof (capacity_pos _ Hwf). pose proof (wf_fill _ Hwf).
  unfold readable_size in *. rewrite wrap_sub_r.
  replace (write_pos_ rb - (read_pos_ rb + n)) with (write_pos_ rb - read_pos_ rb - n) by lia.
  rewrite <- wrap_sub_l. apply wrap_small. unfold in_width. lia.
Qed.

(** ** Operations on the contents *)

Lemma writable_spec rb :
  wf rb -> 0 < writable_size rb ->
  writable rb = mkSpan RingBase ((read_pos_ rb + readable_size rb) mod capacity_ rb)
    (Z.min (capacity_ rb - (read_pos_ rb + readable_size rb) mod capacity_ rb) (capacity_ rb - readable_size rb)).
Proof.
  intros Hwf Hp. unfold writable. rewrite (write_index _ Hwf).
  destruct (Z.eqb_spec (writable_size rb) 0); [lia|]. by rewrite (writable_size_free _ Hwf).
Qed.

Lemma writable_size_span rb : wf rb -> 0 <= sp_size (writable rb) <= writable_size rb.
Proof.
  intros Hwf. pose proof (writable_size_free _ Hwf). pose proof (wf_fill _ Hwf). pose proof (capacity_pos _ Hwf).
  destruct (decide (0 < writable_size rb)).
  - rewrite writable_spec by done. simpl.
    pose proof (Z.mod_pos_bound (read_pos_ rb + readable_size rb) (capacity_ rb)). lia.
  - unfold writable. destruct (Z.eqb_spec (writable_size rb) 0); simpl; lia.
Qed.

(** Filling the front of the writable span and committing it appends. *)
Lemma store_commit rb bs :
  wf rb -> 0 < len bs <= sp_size (writable rb) ->
  let rb' := commit_write (len bs) (store_span rb (writable rb) bs) in
  wf rb' /\ contents rb' = contents rb ++ bs /\ capacity_ rb' = capacity_ rb /\ read_pos_ rb' = read_pos_ rb.
Proof.
  intros Hwf Hbs. pose proof (writable_size_span _ Hwf). pose proof (capacity_pos _ Hwf).
  pose proof (writable_size_free _ Hwf) as Hfree. pose proof (readable_nonneg rb).
  rewrite writable_spec in Hbs |- * by (done || lia). simpl in Hbs.
  set (w := (read_pos_ rb + readable_size rb) mod capacity_ rb) in *.
  pose proof (Z.mod_pos_bound (read_pos_ rb + readable_size rb) (capacity_ rb)) as Hw. fold w in Hw.
  unfold commit_write, store_span, set_buffer, set_write_pos; cbn -[wrap].
  change (writable_size (mkRingBuffer (patch w bs (buffer_ rb)) _ _ _ _ _ _)) with (writable_size rb).
  rewrite Z.min_l by lia.
  pose proof (readable_advance_write rb (len bs) Hwf) as Hadv.
  pose proof (wf_buf _ Hwf).
  split; [|split; [|done]].
  - destruct Hwf. constructor; cbn -[wrap]; try done.
    + by rewrite len_patch by lia.
    + apply wrap_range. lia.
    + unfold readable_size. cbn -[wrap]. lia.
  - unfold contents, readable_size at 1; cbn -[wrap]. rewrite Hadv by lia.
    apply ring_read_patch; lia.
Qed.

Lemma writable_size_commit rb bs :
  wf rb -> 0 < len bs <= sp_size (writable rb) ->
  writable_size (commit_write (len bs) (store_span rb (writable rb) bs)) = writable_size rb - len bs.
Proof.
  intros Hwf Hbs. destruct (store_commit rb bs Hwf Hbs) as (Hwf' & Hc & Hcap & _).
  rewrite !writable_size_free, Hcap by done. rewrite <- !contents_len, Hc, len_app. lia.
Qed.

(** After filling the writable span to the end of the storage, the rest of
    the free space is one span from index 0. *)
Lemma writable_after_wrap rb bs :
  wf rb -> len bs = sp_size (writable rb) -> 0 < len bs < writable_size rb ->
  let rb' := commit_write (len bs) (store_span rb (writable rb) bs) in
  sp_size (writable rb') = writable_size rb'.
Proof.
  intros Hwf Hbs Hlt rb'. pose proof (store_commit rb bs Hwf ltac:(lia)) as (Hwf' & Hc & Hcap & Hr).
  fold rb' in Hwf', Hc, Hcap, Hr.
  pose proof (writable_size_commit rb bs Hwf ltac:(lia)) as Hws. fold rb' in Hws.
  pose proof (writable_size_free _ Hwf). pose proof (writable_size_free _ Hwf').
  clearbody rb'. rewrite writable_spec in Hbs |- * by (done || lia). simpl in *.
  set (w := (read_pos_ rb + readable_size rb) mod capacity_ rb) in *.
  assert (E : (read_pos_ rb' + readable_size rb') mod capacity_ rb' = 0);
    [|rewrite E; pose proof (readable_nonneg rb'); lia].
  replace (readable_size rb') with (readable_size rb + len bs) by lia.
  rewrite Hr, Hcap, Z.add_assoc, <- Zplus_mod_idemp_l. fold w.
  replace (w + len bs) with (capacity_ rb) by lia. apply Z_mod_same_full.
Qed.

(** [write] is all or nothing. *)
Lemma write_spec rb data :
  wf rb ->
  if len data <=? writable_size rb
  then (write data rb).1 = true /\ wf (write data rb).2 /\ contents (write data rb).2 = contents rb ++ data
       /\ capacity_ (write data rb).2 = capacity_ rb
  else write data rb = (false, rb).
Proof.
  intros Hwf. unfold write. pose proof (len_nonneg data). pose proof (writable_size_span _ Hwf).
  destruct (Z.leb_spec (len data) (writable_size rb)).
  - destruct (Z.eqb_spec (len data) 0) as [E|]; [simpl; apply len_0_nil in E; subst; by rewrite app_nil_r|].
    destruct (Z.ltb_spec (writable_size rb) (len data)); [lia|].
    destruct (Z.leb_spec (len data) (sp_size (writable rb))); cbn [fst snd].
    { destruct (store_commit rb data Hwf ltac:(lia)) as (? & ? & ? & _). done. }
    assert (Hpos : 0 < sp_size (writable rb)).
    { rewrite writable_spec by (done || lia). simpl. pose proof (writable_size_free _ Hwf). pose proof (capacity_pos _ Hwf).
      pose proof (Z.mod_pos_bound (read_pos_ rb + readable_size rb) (capacity_ rb)). lia. }
    set (first := sp_size (writable rb)) in *. set (d1 := takeZ first data).
    assert (E1 : len d1 = first) by (unfold d1; rewrite len_takeZ; lia).
    rewrite <- E1. replace (len data - len d1) with (len (dropZ (len d1) data)) by (rewrite len_dropZ; lia).
    destruct (store_commit rb d1 Hwf ltac:(lia)) as (Hwf1 & Hc1 & Hcap1 & _).
    pose proof (writable_after_wrap rb d1 Hwf ltac:(lia) ltac:(lia)) as Hw2.
    pose proof (writable_size_commit rb d1 Hwf ltac:(lia)) as Hs1. cbv zeta in Hw2.
    set (rb1 := commit_write (len d1) (store_span rb (writable rb) d1)) in *.
    destruct (store_commit rb1 (dropZ (len d1) data) Hwf1) as (Hwf2 & Hc2 & Hcap2 & _).
    { rewrite len_dropZ. lia. }
    split_and!; [done|done| |congruence]. rewrite Hc2, Hc1, <- app_assoc, E1. f_equal. apply take_dropZ.
  - destruct (Z.eqb_spec (len data) 0); [lia|]. destruct (Z.ltb_spec (writable_size rb) (len data)); [done|lia].
Qed.

Lemma consume_spec rb n :
  wf rb -> 0 <= n ->
  wf (consume n rb) /\ contents (consume n rb) = dropZ n (contents rb) /\ capacity_ (consume n rb) = capacity_ rb.
Proof.
  intros Hwf Hn. unfold consume. pose proof (readable_nonneg rb). pose proof (wf_fill _ Hwf).
  set (m := Z.min n (readable_size rb)).
  assert (Hd : dropZ n (contents rb) = dropZ m (contents rb)).
  { unfold m. destruct (Z.min_spec n (readable_size rb)) as [[? ->]|[? ->]]; [done|].
    rewrite !dropZ_all by (rewrite contents_len; lia). done. }
  pose proof (readable_advance_read rb m Hwf ltac:(lia)) as Hadv. unfold set_read_pos.
  split; [|split; [|done]].
  - destruct Hwf. constructor; cbn -[wrap]; try done; [apply wrap_range; lia|].
    unfold readable_size at 1; cbn -[wrap]. lia.
  - rewrite Hd. unfold contents at 1, readable_size at 1; cbn -[wrap]. rewrite Hadv.
    unfold contents. replace (readable_size rb) with (m + (readable_size rb - m)) at 2 by lia.
    rewrite ring_read_app by lia.
    rewrite dropZ_app_ge by (rewrite len_ring_read; lia). rewrite len_ring_read, Z.sub_diag, dropZ_0 by lia.
    apply ring_read_mod, mod_u64, Hwf.
Qed.

(** A change of the linearisation buffer is invisible in the contents. *)
Lemma set_linear_spec rb l n :
  wf rb -> n = len (default [] l) ->
  wf (set_linear l n rb) /\ contents (set_linear l n rb) = contents rb.
Proof. intros [] Hn. split; [|done]. constructor; cbn; done. Qed.

Lemma reset_spec rb : wf rb -> wf (reset rb) /\ contents (reset rb) = [] /\ capacity_ (reset rb) = capacity_ rb.
Proof.
  intros Hwf. pose proof (capacity_pos _ Hwf). split; [|done].
  destruct Hwf. constructor; cbn; try done. change (0 <= capacity_ rb). lia.
Qed.

Lemma contents_prefix rb n :
  wf rb -> 0 <= n <= readable_size rb -> takeZ n (contents rb) = ring_read (buffer_ rb) (capacity_ rb) (read_pos_ rb) n.
Proof.
  intros Hwf Hn. unfold contents. replace (readable_size rb) with (n + (readable_size rb - n)) by lia.
  rewrite ring_read_app by lia. rewrite takeZ_app_le by (rewrite len_ring_read; lia).
  rewrite takeZ_all by (rewrite len_ring_read; lia). done.
Qed.

Lemma contiguous_read_spec rb :
  wf rb -> exists n, 0 <= n <= readable_size rb /\ (0 < readable_size rb -> 0 < n) /\
    span_bytes rb (contiguous_read rb) = takeZ n (contents rb).
Proof.
  intros Hwf. pose proof (capacity_pos _ Hwf). pose proof (readable_nonneg rb). pose proof (wf_buf _ Hwf).
  pose proof (Z.mod_pos_bound (read_pos_ rb) (capacity_ rb)).
  unfold contiguous_read. destruct (Z.eqb_spec (readable_size rb) 0) as [E|].
  - exists 0. split_and!; try lia. done.
  - rewrite (masked _ Hwf). exists (Z.min (capacity_ rb - read_pos_ rb mod capacity_ rb) (readable_size rb)).
    split_and!; [lia..|]. rewrite contents_prefix by (done || lia). symmetry. apply ring_read_slice; lia.
Qed.

(** The two halves of a wrapped prefix. *)
Lemma ring_read_wrapped buf cap p n :
  0 < cap <= len buf -> cap - p mod cap < n <= cap ->
  ring_read buf cap p n = slice (p mod cap) (cap - p mod cap) buf ++ slice 0 (n - (cap - p mod cap)) buf.
Proof.
  intros Hc Hn. pose proof (Z.mod_pos_bound p cap). set (e := cap - p mod cap) in *.
  replace n with (e + (n - e)) at 1 by lia. rewrite ring_read_app by lia. f_equal.
  - apply ring_read_slice; lia.
  - assert (E : (p + e) mod cap = 0).
    { rewrite <- Zplus_mod_idemp_l. replace (p mod cap + e) with cap by lia. apply Z_mod_same_full. }
    rewrite ring_read_slice by lia. by rewrite E.
Qed.

Lemma len_realloc malloc_ok fill old n new :
  0 <= n -> realloc malloc_ok fill old n = Some new -> len new = n /\ malloc_ok n = true.
Proof.
  unfold realloc. intros Hn. destruct (malloc_ok n); [|done]. intros [= <-]. split; [|done].
  len_simp. pose proof (len_nonneg (default [] old)). lia.
Qed.

(** The linearisation buffer once both halves are copied. *)
Lemma linear_copy {A} (lb a b : list A) :
  len a + len b <= len lb -> slice 0 (len a + len b) (patch (len a) b (patch 0 a lb)) = a ++ b.
Proof.
  intros. pose proof (len_nonneg a). pose proof (len_nonneg b). rewrite slice_split by lia.
  rewrite slice_patch_before by (rewrite ?len_patch by lia; lia). rewrite slice_patch_same by lia.
  rewrite Z.add_0_l, slice_patch_same by (rewrite ?len_patch by lia; lia). done.
Qed.

(** Once the linearisation buffer is large enough, both halves land in it. *)
Lemma linear_fill rb n :
  wf rb -> n <= readable_size rb -> capacity_ rb - read_pos_ rb mod capacity_ rb < n ->
  n <= linear_buf_size_ rb ->
  let r := read_pos_ rb mod capacity_ rb in
  let to_end := capacity_ rb - r in
  let lb := patch to_end (slice 0 (n - to_end) (buffer_ rb))
              (patch 0 (slice r to_end (buffer_ rb)) (default [] (linear_buf_ rb))) in
  slice 0 n lb = takeZ n (contents rb) /\ len lb = linear_buf_size_ rb.
Proof.
  intros Hwf Hn Hr Hl r to_end lb. subst lb. pose proof (capacity_pos _ Hwf). pose proof (wf_fill _ Hwf).
  pose proof (wf_buf _ Hwf). pose proof (Z.mod_pos_bound (read_pos_ rb) (capacity_ rb)) as Hb. fold r in Hb, Hr.
  fold to_end in Hr. rewrite (wf_linear _ Hwf) in Hl |- *.
  rewrite contents_prefix, ring_read_wrapped by (done || lia). fold r to_end.
  assert (E1 : len (slice r to_end (buffer_ rb)) = to_end) by (rewrite len_slice; lia).
  assert (E2 : len (slice 0 (n - to_end) (buffer_ rb)) = n - to_end) by (rewrite len_slice; lia).
  split; [|rewrite ?len_patch by (rewrite ?len_patch by lia; lia); done].
  revert E1 E2. generalize (slice r to_end (buffer_ rb)) (slice 0 (n - to_end) (buffer_ rb)). intros a b <- E2.
  replace n with (len a + len b) by lia. apply linear_copy. lia.
Qed.

(** [linearize] returns the oldest [n] bytes in one piece, or nothing: when
    fewer are readable, or when it has to copy and the allocation fails. *)
Lemma linearize_spec malloc_ok fill n rb s rb' :
  wf rb -> 0 <= n -> linearize malloc_ok fill n rb = (s, rb') ->
  wf rb' /\ contents rb' = contents rb /\ capacity_ rb' = capacity_ rb /\
  ((n <= readable_size rb /\ sp_size s = n /\ span_bytes rb' s = takeZ n (contents rb)) \/
   (s = empty_span /\ rb' = rb /\ (readable_size rb < n \/ malloc_ok n = false))).
Proof.
  intros Hwf Hn. pose proof (capacity_pos _ Hwf). pose proof (wf_buf _ Hwf).
  pose proof (Z.mod_pos_bound (read_pos_ rb) (capacity_ rb)).
  unfold linearize. rewrite (masked _ Hwf).
  destruct (Z.ltb_spec (readable_size rb) n); [intros [= <- <-]; split_and!; [done..|]; right; split_and!; [done..|by left]|].
  destruct (Z.leb_spec n (capacity_ rb - read_pos_ rb mod capacity_ rb)).
  { intros [= <- <-]. split_and!; try done. left. split_and!; try done.
    rewrite contents_prefix by done. symmetry. apply ring_read_slice; lia. }
  destruct (Z.ltb_spec (linear_buf_size_ rb) n).
  - destruct (realloc malloc_ok fill (linear_buf_ rb) n) as [nb|] eqn:Er.
    + apply len_realloc in Er as [Hlen _]; [|done]. intros [= <- <-].
      destruct (set_linear_spec rb (Some nb) n Hwf) as [Hwf1 _]; [done|].
      destruct (linear_fill (set_linear (Some nb) n rb) n) as [Hs Hl]; [done|done|cbn; lia|cbn; lia|].
      edestruct (set_linear_spec (set_linear (Some nb) n rb)) as [Hwf2 Hc2]; [done| |split_and!; [exact Hwf2|exact Hc2|done|]].
      { cbn in Hl |- *. by rewrite Hl. }
      left. split_and!; try done.
    + intros [= <- <-]. split_and!; try done. right. split_and!; try done. right.
      unfold realloc in Er. by destruct (malloc_ok n).
  - intros [= <- <-]. destruct (linear_fill rb n) as [Hs Hl]; [done|lia..|].
    edestruct (set_linear_spec rb) as [Hwf2 Hc2]; [done| |split_and!; [exact Hwf2|exact Hc2|done|]].
    { cbn in Hl |- *. by rewrite Hl. }
    left. split_and!; try done.
Qed.

Lemma shrink_to_fit_spec malloc_ok fill rb :
  wf rb -> wf (shrink_to_fit malloc_ok fill rb) /\ contents (shrink_to_fit malloc_ok fill rb) = contents rb /\
    capacity_ (shrink_to_fit malloc_ok fill rb) = capacity_ rb.
Proof.
  intros Hwf. unfold shrink_to_fit. destruct (linear_buf_ rb) as [lb|]; [|done].
  destruct (readable_size rb =? 0); [by destruct (set_linear_spec rb None 0 Hwf)|].
  destruct (_ <=? _); [|done]. destruct (realloc _ _ _ _) as [nb|] eqn:Er; [|done].
  apply len_realloc in Er as [Hl _]; [|apply wrap_range; lia].
  by destruct (set_linear_spec rb (Some nb) (u64 (readable_size rb * 2)) Hwf).
Qed.

(** The constructor yields an empty ring of the next power of two, unless that
    does not fit 64 bits or the allocation fails. *)
Lemma make_spec malloc_ok fill cap rb :
  in_width 64 cap -> make malloc_ok fill cap = Returns rb ->
  wf rb /\ contents rb = [] /\ Z.max 1 cap <= capacity_ rb.
Proof.
  intros Hc. unfold make. set (c := if cap <? 1 then 1 else cap).
  assert (Hcr : 1 <= c < 2 ^ 64 /\ Z.max 1 cap = c) by (unfold c, in_width in *; destruct (Z.ltb_spec cap 1); lia).
  destruct (Z.eqb_spec (next_power_of_2 c) 0) as [|Hnz]; [done|].
  destruct (malloc_ok _); [|done]. intros [= <-].
  destruct (decide (c <= 2 ^ 63)); [|rewrite next_power_of_2_overflow in Hnz by lia; done].
  destruct (next_power_of_2_least c) as (k & Hk & E & Hle & _); [lia|]. rewrite E in *. cbn.
  split; [|split; [done|lia]]. constructor; cbn; try done; [by exists k| |change (0 <= 2 ^ k); lia].
  rewrite len_replicate. lia.
Qed.

(** ** The buffer as a bounded byte queue *)

(** Receiving into the writable span with what does not fit left out. *)
Lemma recv_spec rb data :
  wf rb ->
  exists n, 0 <= n <= len data /\ len (contents rb) + n <= capacity_ rb /\
    (data <> [] -> len (contents rb) < capacity_ rb -> 0 < n) /\
    (recv data rb).1 = n /\ wf (recv data rb).2 /\ capacity_ (recv data rb).2 = capacity_ rb /\
    contents (recv data rb).2 = contents rb ++ takeZ n data.
Proof.
  intros Hwf. pose proof (writable_size_span _ Hwf). pose proof (writable_size_free _ Hwf). pose proof (len_nonneg data).
  pose proof (capacity_pos _ Hwf). pose proof (Z.mod_pos_bound (read_pos_ rb + readable_size rb) (capacity_ rb)).
  unfold recv. cbn [fst snd]. rewrite !contents_len. set (d := takeZ (sp_size (writable rb)) data).
  assert (Hd : len d = Z.min (sp_size (writable rb)) (len data)) by (unfold d; rewrite len_takeZ; lia).
  assert (Hd' : takeZ (len d) data = d).
  { rewrite Hd. unfold d. destruct (Z.min_spec (sp_size (writable rb)) (len data)) as [[? ->]|[? ->]]; [done|].
    by rewrite !takeZ_all by lia. }
  exists (len d). rewrite Hd'. split; [lia|]. split; [lia|]. split; [|split; [done|]].
  { intros Hne Hlt. assert (0 < len data) by (destruct data; [done|rewrite len_cons; pose proof (len_nonneg data); lia]).
    rewrite writable_spec in Hd by (done || lia). cbn in Hd. lia. }
  destruct (decide (len d = 0)) as [E|].
  - rewrite (len_0_nil d), app_nil_r by done. rewrite len_nil. unfold commit_write, store_span.
    replace (patch _ [] _) with (buffer_ rb).
    2:{ symmetry. apply patch_nil. unfold writable. destruct (_ =? _); cbn; [lia|]. rewrite (masked _ Hwf).
        apply Z.mod_pos_bound. lia. }
    destruct rb as [b l c m r w n]. unfold set_buffer, set_write_pos; cbn -[wrap writable_size].
    change (writable_size _) with (writable_size (mkRingBuffer b l c m r w n)).
    rewrite Z.min_l, Z.add_0_r by lia. rewrite wrap_small by apply Hwf. done.
  - destruct (store_commit rb d Hwf) as (? & ? & ? & _); [lia|done].
Qed.

(** Every operation does what the byte queue allows, and keeps the invariant. *)
Lemma rb_step_refines malloc_ok fill o rb :
  wf rb -> op_ok o ->
  wf (rb_step malloc_ok fill o rb).2 /\ capacity_ (rb_step malloc_ok fill o rb).2 = capacity_ rb /\
  fifo_step malloc_ok (capacity_ rb) o (contents rb) (rb_step malloc_ok fill o rb).1
    (contents (rb_step malloc_ok fill o rb).2).
Proof.
  intros Hwf Hok. pose proof (contents_len rb) as HL. pose proof (writable_size_free _ Hwf). destruct o; cbn [rb_step op_ok fst snd] in *.
  - pose proof (write_spec rb data Hwf) as Hw. destruct (write data rb) as [b rb']. cbn [fst snd] in *.
    destruct (Z.leb_spec (len data) (writable_size rb)).
    + destruct Hw as (-> & ? & Hc & ?). rewrite Hc. split_and!; [done..|]. constructor. lia.
    + injection Hw as -> ->. split_and!; [done..|]. constructor. lia.
  - destruct (recv_spec rb data Hwf) as (n & ? & ? & ? & E & ? & ? & Hc). destruct (recv data rb) as [k rb']. cbn [fst snd] in *.
    rewrite Hc, E. split_and!; [done..|]. by constructor.
  - destruct (consume_spec rb n Hwf Hok) as (? & Hc & ?). rewrite Hc. split_and!; [done..|]. constructor.
  - destruct (linearize malloc_ok fill n rb) as [sp rb'] eqn:El. cbn [fst snd].
    apply linearize_spec in El as (? & Hc & ? & Hs); [|done..]. rewrite Hc. split_and!; [done..|].
    destruct Hs as [(? & _ & ->)|(-> & -> & [?|?])]; [apply fifo_linearize; lia|apply fifo_linearize_short; lia|by apply fifo_linearize_nomem].
  - destruct (contiguous_read_spec rb Hwf) as (n & ? & Hp & E). rewrite E. split_and!; [done..|]. constructor; lia.
  - destruct (reset_spec rb Hwf) as (? & Hc & ?). rewrite Hc. split_and!; [done..|]. constructor.
  - destruct (shrink_to_fit_spec malloc_ok fill rb Hwf) as (? & Hc & ?). rewrite Hc. split_and!; [done..|]. constructor.
Qed.

Lemma rb_run_refines malloc_ok fill os rb :
  wf rb -> Forall op_ok os ->
  wf (rb_run malloc_ok fill os rb).2 /\
  fifo_run malloc_ok (capacity_ rb) os (contents rb) (rb_run malloc_ok fill os rb).1
    (contents (rb_run malloc_ok fill os rb).2).
Proof.
  intros Hwf Hos. revert rb Hwf. induction Hos as [|o os Ho _ IH]; intros rb Hwf; [split; [done|constructor]|].
  simpl. destruct (rb_step_refines malloc_ok fill o rb Hwf Ho) as (Hwf' & Hcap & Hs).
  destruct (rb_step malloc_ok fill o rb) as [x rb']. cbn in *.
  destruct (IH rb' Hwf') as [Hwf2 Hr]. destruct (rb_run malloc_ok fill os rb') as [xs rb2]. cbn in *.
  split; [done|]. rewrite Hcap in Hr. by econstructor.
Qed.

(** C1: A ring buffer built by its constructor is a bounded FIFO byte queue.
    Whatever sequence of [write], receive-into-[writable]-and-[commit_write],
    [consume], [linearize], [contiguous_read], [reset] and [shrink_to_fit] calls
    runs on it, every result and every later content is one the abstract queue
    of the same capacity gives: writes append all their bytes or refuse and
    change nothing, [linearize n] yields exactly the oldest [n] bytes across the
    end of the storage, and the invariant holds at the end. The position
    counters may wrap around 2^64 any number of times. *)
Theorem ring_buffer_refines_fifo malloc_ok fill cap rb os
    (Hcap : in_width 64 cap) (Hmake : make malloc_ok fill cap = Returns rb) (Hos : Forall op_ok os) :
  wf (rb_run malloc_ok fill os rb).2 /\ Z.max 1 cap <= capacity_ rb /\
  fifo_run malloc_ok (capacity_ rb) os [] (rb_run malloc_ok fill os rb).1
    (contents (rb_run malloc_ok fill os rb).2).
Proof.
  destruct (make_spec _ _ _ _ Hcap Hmake) as (Hwf & Hc & Hle).
  destruct (rb_run_refines malloc_ok fill os rb Hwf Hos) as [Hwf' Hr]. rewrite Hc in Hr. done.
Qed.

(** A wrapped read: six bytes in, four out, four in, then six in one piece. *)
Lemma ring_buffer_refines_fifo_witness :
  exists rb, make (fun _ => true) 0 8 = Returns rb /\
    let os := [OpWrite [1;2;3;4;5;6]; OpConsume 4; OpWrite [7;8;9;10]; OpLinearize 6] in
    (rb_run (fun _ => true) 0 os rb).1 = [ObsBool true; ObsUnit; ObsBool true; ObsBytes [5;6;7;8;9;10]] /\
    wf (rb_run (fun _ => true) 0 os rb).2.
Proof.
  eexists. split; [vm_compute; reflexivity|]. split; [vm_compute; reflexivity|].
  apply (ring_buffer_refines_fifo (fun _ => true) 0 8); [unfold in_width; lia|vm_compute; reflexivity|].
  repeat constructor; cbn; lia.
Defined.
