(* ===== verification/FrameCodec.v ===== *)
(** * Framing

    [apex::core::FrameCodec] (apex_core/include/apex/core/frame_codec.hpp,
    apex_core/src/frame_codec.cpp): complete frames out of, and into, a ring
    buffer. Reading through a null span is undefined behaviour in the source and
    [Throws undefined_behaviour] here. *)

From S2P Require Import Prelude ErrorCode MathUtils WireHeader RingBuffer.

Record Frame : Type := mkFrame { header : WireHeader; payload_data : span }.

Definition payload (f : Frame) : span := payload_data f.

(** [memcpy(dst, s.data(), n)]: [n] bytes read from where the span starts. *)
Definition memcpy_from (rb : RingBuffer) (s : span) (n : Z) : outcome (list Z) :=
  match sp_base s with
  | NullBase => Throws undefined_behaviour
  | b => Returns (span_bytes rb (mkSpan b (sp_off s) n))
  end.

Definition subspan (s : span) (off n : Z) : span := mkSpan (sp_base s) (sp_off s + off) n.

Section Decode.
Context (malloc_ok : Z -> bool) (fill : Z).

Definition try_decode (buf : RingBuffer) : outcome (Result Frame * RingBuffer) :=
  if readable_size buf <? SIZE then Returns (Err InsufficientData, buf)
  else
    let '(hdr_span, buf) := linearize malloc_ok fill SIZE buf in
    run hdr_buf <- memcpy_from buf hdr_span SIZE;
    match parse hdr_buf with
    | Err e => Returns (Err e, buf)
    | Ok header =>
        let total := frame_size header in
        if readable_size buf <? total then Returns (Err InsufficientData, buf)
        else
          let '(frame_span, buf) := linearize malloc_ok fill total buf in
          if sp_size frame_span =? 0 then Returns (Err InsufficientData, buf)
          else Returns (Ok (mkFrame header (subspan frame_span SIZE (body_size header))), buf)
    end.

End Decode.

Definition consume_frame (buf : RingBuffer) (frame : Frame) : RingBuffer :=
  consume (frame_size (header frame)) buf.

(** One of the two copy loops of [encode]: [None] when the fuel runs out. *)
Fixpoint write_loop (fuel : nat) (bytes : list Z) (written : Z) (buf : RingBuffer) : option (bool * RingBuffer) :=
  if written <? len bytes then
    match fuel with
    | O => None
    | S fuel =>
        let w := writable buf in
        if sp_size w =? 0 then Some (false, buf)
        else
          let to_write := Z.min (sp_size w) (len bytes - written) in
          let buf := store_span buf w (slice written to_write bytes) in
          let buf := commit_write to_write buf in
          write_loop fuel bytes (written + to_write) buf
    end
  else Some (true, buf).

Definition encode_fuel (fuel : nat) (buf : RingBuffer) (header : WireHeader) (payload : list Z) : option (bool * RingBuffer) :=
  if negb (body_size header =? u32 (len payload)) then Some (false, buf)
  else
    let total := SIZE + len payload in
    if writable_size buf <? total then Some (false, buf)
    else
      let header_bytes := serialize header in
      match write_loop fuel header_bytes 0 buf with
      | Some (true, buf) => write_loop fuel payload 0 buf
      | r => r
      end.

(** Every pass copies at least one byte, and a copy meets the end of the
    storage at most once: two passes per loop are enough. *)
Definition encode (buf : RingBuffer) (header : WireHeader) (payload : list Z) : option (bool * RingBuffer) :=
  encode_fuel 2 buf header payload.

Definition encode_to (out : list Z) (header : WireHeader) (payload : list Z) : Z * list Z :=
  if negb (body_size header =? u32 (len payload)) then (0, out)
  else
    let total := SIZE + len payload in
    if len out <? total then (0, out)
    else
      let out := patch 0 (serialize header) out in
      let out := if len payload =? 0 then out else patch SIZE payload out in
      (total, out).

(** ** Framing of a byte string: the reference *)

(** The bytes of a frame on the wire. *)
Definition frame_bytes (h : WireHeader) (payload : list Z) : list Z := serialize h ++ payload.

(** The first frame of a byte string. *)
Definition decode_bytes (bs : list Z) : Result (WireHeader * list Z) :=
  if len bs <? SIZE then Err InsufficientData
  else
    match parse (takeZ SIZE bs) with
    | Err e => Err e
    | Ok h => if len bs <? frame_size h then Err InsufficientData else Ok (h, slice SIZE (body_size h) bs)
    end.

(** A frame the codec carries: what [encode] accepts and [parse] admits. *)
Definition wf_frame (h : WireHeader) (body : list Z) : Prop :=
  wf_header h /\ version h = CURRENT_VERSION /\ body_size h = len body /\ len body <= MAX_BODY_SIZE.

(** Frames encoded one after the other. *)
Fixpoint encode_all (fs : list (WireHeader * list Z)) (buf : RingBuffer) : option (bool * RingBuffer) :=
  match fs with
  | [] => Some (true, buf)
  | (h, body) :: fs =>
      match encode buf h body with
      | Some (true, buf) => encode_all fs buf
      | r => r
      end
  end.

(** The decode loop of the class comment: frames are copied out, then consumed,
    until [try_decode] has nothing more. *)
Fixpoint drain_frames (malloc_ok : Z -> bool) (fill : Z) (fuel : nat) (buf : RingBuffer)
    : outcome (list (WireHeader * list Z) * Result unit * RingBuffer) :=
  match fuel with
  | O => Returns ([], Ok tt, buf)
  | S fuel =>
      run (r, buf) <- try_decode malloc_ok fill buf;
      match r with
      | Err e => Returns ([], Err e, buf)
      | Ok f =>
          let x := (header f, span_bytes buf (payload f)) in
          run (xs, e, buf) <- drain_frames malloc_ok fill fuel (consume_frame buf f);
          Returns (x :: xs, e, buf)
      end
  end.

Fixpoint frames_size (fs : list (WireHeader * list Z)) : Z :=
  match fs with [] => 0 | (_, body) :: fs => SIZE + len body + frames_size fs end.

Definition frames_bytes (fs : list (WireHeader * list Z)) : list Z := concat ((fun f => frame_bytes f.1 f.2) <$> fs).

(** ** Decoding *)

Lemma linearize_off malloc_ok fill n rb : wf rb -> 0 <= sp_off (linearize malloc_ok fill n rb).1.
Proof.
  intros Hwf. pose proof (capacity_pos _ Hwf). unfold linearize. rewrite (masked _ Hwf).
  pose proof (Z.mod_pos_bound (read_pos_ rb) (capacity_ rb)).
  split_ifs; cbn; try lia; destruct (realloc _ _ _ _); cbn; lia.
Qed.

(** With memory available, [linearize] always answers with the oldest bytes. *)
Lemma linearize_ok malloc_ok fill n rb :
  wf rb -> 0 < n <= readable_size rb -> malloc_ok n = true ->
  exists s rb', linearize malloc_ok fill n rb = (s, rb') /\ wf rb' /\ contents rb' = contents rb /\
    capacity_ rb' = capacity_ rb /\ sp_base s <> NullBase /\ 0 <= sp_off s /\ sp_size s = n /\
    span_bytes rb' s = takeZ n (contents rb).
Proof.
  intros Hwf Hn Hm. pose proof (linearize_off malloc_ok fill n rb Hwf) as Ho.
  destruct (linearize malloc_ok fill n rb) as [s rb'] eqn:E. exists s, rb'.
  apply linearize_spec in E as (? & ? & ? & Hs); [|done|lia].
  destruct Hs as [(? & Hs & Hb)|(_ & _ & [?|?])]; [|lia|congruence].
  split_and!; try done. intros Hnull. unfold span_bytes in Hb. rewrite Hnull in Hb.
  apply (f_equal len) in Hb. rewrite len_takeZ, contents_len in Hb. len_simp. lia.
Qed.

(** Reading all of a live span is its bytes. *)
Lemma memcpy_whole rb s n :
  sp_base s <> NullBase -> sp_size s = n -> memcpy_from rb s n = Returns (span_bytes rb s).
Proof. destruct s as [[] off k]; cbn; intros ? ->; done. Qed.

Lemma span_bytes_subspan rb s off n :
  0 <= sp_off s -> 0 <= off -> 0 <= n -> off + n <= sp_size s ->
  span_bytes rb (subspan s off n) = slice off n (span_bytes rb s).
Proof.
  intros. unfold span_bytes. destruct s as [[] o k]; cbn in *; [|rewrite slice_slice by lia; done..].
  unfold slice, takeZ, dropZ. by rewrite drop_nil, take_nil.
Qed.

(** [try_decode] is the reference decoder on the contents, and leaves them. *)
Lemma try_decode_spec malloc_ok fill buf :
  wf buf -> (forall n, malloc_ok n = true) ->
  exists r buf', try_decode malloc_ok fill buf = Returns (r, buf') /\ wf buf' /\ contents buf' = contents buf /\
    capacity_ buf' = capacity_ buf /\
    match decode_bytes (contents buf) with
    | Err e => r = Err e
    | Ok (h, body) => exists f, r = Ok f /\ header f = h /\ span_bytes buf' (payload f) = body
    end.
Proof.
  intros Hwf Hm. unfold try_decode, decode_bytes. rewrite contents_len.
  destruct (Z.ltb_spec (readable_size buf) SIZE); [by eexists _, _|].
  destruct (linearize_ok malloc_ok fill SIZE buf Hwf) as (s & b1 & -> & Hwf1 & Hc1 & Hcap1 & Hn1 & _ & Hs1 & Hb1);
    [unfold SIZE in *; lia|done|].
  rewrite memcpy_whole by done. cbn [outcome_bind]. rewrite Hb1.
  destruct (parse (takeZ SIZE (contents buf))) as [h|e] eqn:Hp; [|by eexists _, _].
  apply parse_ok_inv in Hp as Hv. apply parse_body_nonneg in Hp. assert (Hf : SIZE <= frame_size h) by (unfold frame_size; lia).
  rewrite <- (contents_len b1), Hc1, contents_len.
  destruct (Z.ltb_spec (readable_size buf) (frame_size h)); [by eexists _, _|].
  destruct (linearize_ok malloc_ok fill (frame_size h) b1 Hwf1) as (s2 & b2 & -> & Hwf2 & Hc2 & Hcap2 & Hn2 & Ho2 & Hs2 & Hb2);
    [rewrite <- (contents_len b1), Hc1, contents_len; unfold SIZE in *; lia|done|].
  destruct (Z.eqb_spec (sp_size s2) 0); [unfold SIZE in *; lia|].
  eexists _, _. split_and!; [done|done|congruence|congruence|]. eexists. split_and!; [done..|]. cbn [payload payload_data].
  rewrite span_bytes_subspan by (unfold frame_size, SIZE in *; lia). rewrite Hb2, Hc1.
  apply slice_takeZ; unfold frame_size, SIZE in *; lia.
Qed.

(** ** Encoding *)

Lemma write_loop_done fuel bytes written buf : len bytes <= written -> write_loop fuel bytes written buf = Some (true, buf).
Proof. intros. destruct fuel; cbn [write_loop]; destruct (Z.ltb_spec written (len bytes)); (done || lia). Qed.

Lemma write_loop_pass fuel bytes written buf :
  written < len bytes -> 0 < sp_size (writable buf) ->
  let k := Z.min (sp_size (writable buf)) (len bytes - written) in
  write_loop (S fuel) bytes written buf =
  write_loop fuel bytes (written + k) (commit_write k (store_span buf (writable buf) (slice written k bytes))).
Proof.
  intros. cbn [write_loop]. destruct (Z.ltb_spec written (len bytes)); [|lia].
  destruct (Z.eqb_spec (sp_size (writable buf)) 0); [lia|done].
Qed.

Lemma writable_pos rb : wf rb -> 0 < writable_size rb -> 0 < sp_size (writable rb).
Proof.
  intros Hwf Hp. rewrite writable_spec by done. cbn. pose proof (writable_size_free _ Hwf). pose proof (capacity_pos _ Hwf).
  pose proof (Z.mod_pos_bound (read_pos_ rb + readable_size rb) (capacity_ rb)). lia.
Qed.

(** The copy loop is [RingBuffer::write] when the bytes fit. *)
Lemma write_loop_write bytes buf :
  wf buf -> len bytes <= writable_size buf -> write_loop 2 bytes 0 buf = Some (write bytes buf).
Proof.
  intros Hwf Hfit. unfold write. pose proof (len_nonneg bytes).
  destruct (Z.eqb_spec (len bytes) 0); [by rewrite write_loop_done by lia|].
  destruct (Z.ltb_spec (writable_size buf) (len bytes)); [lia|].
  pose proof (writable_pos buf Hwf ltac:(lia)). rewrite write_loop_pass, Z.sub_0_r, Z.add_0_l by lia.
  destruct (Z.leb_spec (len bytes) (sp_size (writable buf))).
  { rewrite Z.min_r by lia. rewrite slice_full by lia. by rewrite write_loop_done by lia. }
  rewrite Z.min_l by lia. rewrite <- takeZ_slice. set (d := takeZ (sp_size (writable buf)) bytes).
  assert (Hd : len d = sp_size (writable buf)) by (unfold d; rewrite len_takeZ; lia). rewrite <- Hd.
  pose proof (writable_after_wrap buf d Hwf ltac:(lia) ltac:(lia)) as Hw. cbv zeta in Hw.
  pose proof (writable_size_commit buf d Hwf ltac:(lia)) as Hs.
  set (b1 := commit_write (len d) (store_span buf (writable buf) d)) in *.
  rewrite write_loop_pass by lia. rewrite Z.min_r, write_loop_done by lia.
  unfold slice. rewrite (takeZ_all _ (dropZ _ _)) by (rewrite len_dropZ; lia). done.
Qed.

(** [encode] appends the frame, or refuses and changes nothing. *)
Lemma encode_spec buf h body :
  wf buf -> len body <= UINT32_MAX -> 
  exists ok buf', encode buf h body = Some (ok, buf') /\ wf buf' /\ capacity_ buf' = capacity_ buf /\
    ok = (body_size h =? len body) && (SIZE + len body <=? writable_size buf) /\
    (ok = true -> contents buf' = contents buf ++ frame_bytes h body) /\ (ok = false -> buf' = buf).
Proof.
  intros Hwf Hl. unfold encode, encode_fuel, UINT32_MAX in *. pose proof (len_nonneg body).
  rewrite wrap_small by (unfold in_width; lia).
  destruct (Z.eqb_spec (body_size h) (len body)); cbn [negb andb]; [|eexists _, _; split_and!; done].
  destruct (Z.ltb_spec (writable_size buf) (SIZE + len body)) as [Hs|Hs].
  { destruct (Z.leb_spec (SIZE + len body) (writable_size buf)); [lia|]. eexists _, _; split_and!; done. }
  destruct (Z.leb_spec (SIZE + len body) (writable_size buf)); [|lia].
  rewrite write_loop_write by (rewrite ?len_serialize; unfold SIZE in *; done || lia).
  pose proof (write_spec buf (serialize h) Hwf) as Hw. pose proof (len_serialize h).
  destruct (Z.leb_spec (len (serialize h)) (writable_size buf)); [|unfold SIZE in *; lia].
  destruct (write (serialize h) buf) as [b b1]. cbn [fst snd] in Hw. destruct Hw as (-> & Hwf1 & Hc1 & Hcap1).
  assert (Hs1 : writable_size b1 = writable_size buf - SIZE).
  { rewrite !writable_size_free, Hcap1 by done. rewrite <- !contents_len, Hc1, len_app. lia. }
  rewrite write_loop_write by (done || lia).
  pose proof (write_spec b1 body Hwf1) as Hw. destruct (Z.leb_spec (len body) (writable_size b1)); [|lia].
  destruct (write body b1) as [b b2]. cbn [fst snd] in Hw. destruct Hw as (-> & Hwf2 & Hc2 & Hcap2).
  eexists _, _. split_and!; [done..|congruence|done| |done]. intros _. rewrite Hc2, Hc1. unfold frame_bytes. by rewrite app_assoc.
Qed.

(** [encode_to] writes the same bytes into a flat buffer. *)
Lemma encode_to_spec out h body :
  len body <= UINT32_MAX -> body_size h = len body -> SIZE + len body <= len out ->
  encode_to out h body = (SIZE + len body, frame_bytes h body ++ dropZ (SIZE + len body) out).
Proof.
  intros Hl Hb Ho. unfold encode_to, UINT32_MAX in *. pose proof (len_nonneg body). pose proof (len_serialize h) as Hs.
  rewrite wrap_small by (unfold in_width; lia). rewrite Hb, Z.eqb_refl. cbn [negb].
  destruct (Z.ltb_spec (len out) (SIZE + len body)); [lia|]. f_equal. unfold frame_bytes.
  assert (E : patch 0 (serialize h) out = serialize h ++ dropZ SIZE out).
  { unfold patch. rewrite takeZ_0, Hs. done. }
  rewrite E. destruct (Z.eqb_spec (len body) 0) as [E0|].
  - rewrite (len_0_nil body), app_nil_r, len_nil, Z.add_0_r by done. done.
  - unfold patch. rewrite <- Hs at 1. rewrite takeZ_app_len. rewrite dropZ_app_ge by (rewrite Hs; lia).
    rewrite Hs, dropZ_dropZ, <- app_assoc by (unfold SIZE; lia). do 3 f_equal. lia.
Qed.

(** ** Frames on the wire *)

Lemma parse_app bs rest : SIZE <= len bs -> parse (bs ++ rest) = parse bs.
Proof.
  intros Hl. unfold parse, load32, load16, OFF_VERSION, OFF_FLAGS, OFF_MSG_ID, OFF_BODY_SIZE, OFF_RESERVED, SIZE in *.
  rewrite len_app. pose proof (len_nonneg rest).
  rewrite !nthZ_app_l, !slice_app_l by lia.
  destruct (Z.ltb_spec (len bs + len rest) 12); destruct (Z.ltb_spec (len bs) 12); (done || lia).
Qed.

Lemma decode_frame h body rest : wf_frame h body -> decode_bytes (frame_bytes h body ++ rest) = Ok (h, body).
Proof.
  intros (Hh & Hv & Hb & Hm). unfold decode_bytes, frame_bytes. pose proof (len_serialize h) as Hs.
  pose proof (len_nonneg body). pose proof (len_nonneg rest).
  rewrite <- app_assoc, !len_app, Hs. destruct (Z.ltb_spec (SIZE + (len body + len rest)) SIZE); [lia|].
  rewrite takeZ_app_le, takeZ_all by lia.
  rewrite <- (app_nil_r (serialize h)) at 1. rewrite parse_serialize, Hv by done. cbn [negb Z.eqb].
  replace (CURRENT_VERSION =? CURRENT_VERSION) with true by done. cbn [negb].
  destruct (Z.ltb_spec MAX_BODY_SIZE (body_size h)); [lia|].
  unfold frame_size. destruct (Z.ltb_spec (SIZE + (len body + len rest)) (SIZE + body_size h)); [lia|].
  rewrite app_assoc, slice_app_l by (rewrite ?len_app, ?Hs; unfold SIZE; lia). rewrite <- Hs, slice_app_r by done. done.
Qed.

(** What has been decoded does not change when more bytes arrive. *)
Lemma decode_bytes_app bs rest r :
  decode_bytes bs = r -> r <> Err InsufficientData -> decode_bytes (bs ++ rest) = r.
Proof.
  intros <-. unfold decode_bytes. rewrite len_app. pose proof (len_nonneg rest).
  destruct (Z.ltb_spec (len bs) SIZE); [done|]. destruct (Z.ltb_spec (len bs + len rest) SIZE); [lia|].
  rewrite takeZ_app_le by lia. destruct (parse _) as [h|e] eqn:Hp; [|done]. apply parse_body_nonneg in Hp.
  destruct (Z.ltb_spec (len bs) (frame_size h)) as [|Hle]; [done|]. unfold frame_size in *.
  destruct (Z.ltb_spec (len bs + len rest) (SIZE + body_size h)); [lia|].
  rewrite slice_app_l by (unfold SIZE in *; lia). done.
Qed.

Lemma decode_bytes_size bs h body : decode_bytes bs = Ok (h, body) -> 0 < frame_size h <= len bs /\ len body = body_size h.
Proof.
  unfold decode_bytes. destruct (Z.ltb_spec (len bs) SIZE); [done|].
  destruct (parse _) as [h'|e] eqn:Hp; [|done]. apply parse_body_nonneg in Hp. unfold frame_size.
  destruct (Z.ltb_spec (len bs) (SIZE + body_size h')); [done|]. intros [= <- <-]. rewrite len_slice. unfold SIZE in *. lia.
Qed.

(** ** Sequences of frames *)

Lemma len_frame_bytes h body : len (frame_bytes h body) = SIZE + len body.
Proof. unfold frame_bytes. by rewrite len_app, len_serialize. Qed.

Lemma frames_size_nonneg fs : 0 <= frames_size fs.
Proof. induction fs as [|[h body] fs IH]; cbn; [lia|]. pose proof (len_nonneg body). unfold SIZE. lia. Qed.

Lemma encode_all_spec fs buf :
  wf buf -> Forall (fun f => wf_frame f.1 f.2) fs -> frames_size fs <= writable_size buf ->
  exists buf', encode_all fs buf = Some (true, buf') /\ wf buf' /\ contents buf' = contents buf ++ frames_bytes fs.
Proof.
  intros Hwf Hfs. revert buf Hwf. induction Hfs as [|[h body] fs Hf _ IH]; intros buf Hwf Hs.
  { exists buf. unfold frames_bytes. cbn. by rewrite app_nil_r. }
  cbn in *. destruct Hf as (Hh & Hv & Hb & Hm). pose proof (frames_size_nonneg fs).
  destruct (encode_spec buf h body Hwf) as (ok & b1 & -> & Hwf1 & Hcap1 & Hok & Ht & _);
    [unfold UINT32_MAX, MAX_BODY_SIZE in *; lia|].
  assert (ok = true) as ->. { rewrite Hok, Hb, Z.eqb_refl. cbn. apply Z.leb_le. lia. }
  specialize (Ht eq_refl). destruct (IH b1 Hwf1) as (b2 & -> & Hwf2 & Hc2).
  { rewrite writable_size_free in Hs |- * by done. rewrite Hcap1, <- contents_len, Ht, len_app, contents_len, len_frame_bytes. lia. }
  exists b2. split_and!; [done..|]. rewrite Hc2, Ht, <- app_assoc. done.
Qed.

Lemma drain_frames_step malloc_ok fill fuel buf buf1 f xs e buf2 :
  try_decode malloc_ok fill buf = Returns (Ok f, buf1) ->
  drain_frames malloc_ok fill fuel (consume_frame buf1 f) = Returns (xs, e, buf2) ->
  drain_frames malloc_ok fill (S fuel) buf = Returns ((header f, span_bytes buf1 (payload f)) :: xs, e, buf2).
Proof. intros E E2. cbn [drain_frames]. rewrite E. cbn [outcome_bind]. by rewrite E2. Qed.

Lemma drain_frames_spec malloc_ok fill fs buf :
  (forall n, malloc_ok n = true) -> wf buf -> Forall (fun f => wf_frame f.1 f.2) fs -> contents buf = frames_bytes fs ->
  exists buf', drain_frames malloc_ok fill (S (length fs)) buf = Returns (fs, Err InsufficientData, buf') /\
    wf buf' /\ contents buf' = [].
Proof.
  intros Hm Hwf Hfs. revert buf Hwf. induction Hfs as [|[h body] fs Hf _ IH]; intros buf Hwf Hc.
  - destruct (try_decode_spec malloc_ok fill buf Hwf Hm) as (r & b1 & E & Hwf1 & Hc1 & _ & Hr).
    change (contents buf = []) in Hc. rewrite Hc in Hr, Hc1. change (r = Err InsufficientData) in Hr. subst r. exists b1. cbn [length drain_frames]. rewrite E. done.
  - destruct (try_decode_spec malloc_ok fill buf Hwf Hm) as (r & b1 & E & Hwf1 & Hc1 & _ & Hr).
    assert (Ec : contents buf = frame_bytes h body ++ frames_bytes fs) by done.
    rewrite Ec, decode_frame in Hr by done. destruct Hr as (f & -> & Hh & Hp).
    destruct Hf as (Hh' & Hv & Hb & Hmx). cbn in Hb. pose proof (len_nonneg body).
    destruct (consume_spec b1 (frame_size h) Hwf1) as (Hwf2 & Hc2 & _); [unfold frame_size, SIZE; lia|].
    destruct (IH (consume_frame b1 f)) as (b2 & E2 & Hwf3 & Hc3).
    { unfold consume_frame. by rewrite Hh. }
    { unfold consume_frame. rewrite Hh, Hc2, Hc1, Ec. unfold frame_size. rewrite Hb, <- (len_frame_bytes h). apply dropZ_app_len. }
    exists b2. split; [|done]. eapply drain_frames_step in E2; [|exact E]. rewrite Hh, Hp in E2. exact E2.
Qed.

(** C4: Framing round trip. Frames with a version-2 header whose [body_size] is
    the payload size, at most 16 MB, encoded one after the other into an empty
    ring buffer of sufficient free space are all accepted, and the decode loop
    ([try_decode], copy, [consume_frame]) gives back the same headers and
    payloads in the same order, reports [InsufficientData] once, and leaves the
    buffer empty, wherever the frames meet the end of the storage. *)
Theorem frame_codec_roundtrip malloc_ok fill fs buf
    (Hm : forall n, malloc_ok n = true) (Hwf : wf buf) (Hempty : contents buf = [])
    (Hfs : Forall (fun f => wf_frame f.1 f.2) fs) (Hs : frames_size fs <= capacity_ buf) :
  exists b1 b2, encode_all fs buf = Some (true, b1) /\
    drain_frames malloc_ok fill (S (length fs)) b1 = Returns (fs, Err InsufficientData, b2) /\
    wf b2 /\ contents b2 = [].
Proof.
  destruct (encode_all_spec fs buf Hwf Hfs) as (b1 & E1 & Hwf1 & Hc1).
  { rewrite writable_size_free, <- contents_len, Hempty, len_nil by done. lia. }
  rewrite Hempty in Hc1. destruct (drain_frames_spec malloc_ok fill fs b1 Hm Hwf1 Hfs Hc1) as (b2 & E2 & Hwf2 & Hc2).
  by exists b1, b2.
Qed.

(** [encode] always terminates and is all or nothing: it succeeds exactly
    when the header's [body_size] is the payload size and the whole frame fits
    the free space; then the buffer holds the old contents followed by the 12
    header bytes and the payload, and otherwise it is untouched. [encode_to]
    puts the same bytes at the front of a flat buffer. *)
Theorem encode_appends buf h body (Hwf : wf buf) (Hl : len body <= UINT32_MAX) :
  (exists ok buf', encode buf h body = Some (ok, buf') /\ wf buf' /\ capacity_ buf' = capacity_ buf /\
    ok = (body_size h =? len body) && (SIZE + len body <=? writable_size buf) /\
    (ok = true -> contents buf' = contents buf ++ frame_bytes h body) /\ (ok = false -> buf' = buf)) /\
  (forall out, body_size h = len body -> SIZE + len body <= len out ->
     encode_to out h body = (SIZE + len body, frame_bytes h body ++ dropZ (SIZE + len body) out)).
Proof. split; [by apply encode_spec|]. intros. by apply encode_to_spec. Qed.

Lemma frame_codec_roundtrip_witness :
  exists buf b1 b2, let f := mkWireHeader 2 0 7 3 0 in let g := mkWireHeader 2 0 9 0 0 in
    make (fun _ => true) 0 32 = Returns buf /\
    encode_all [(f, [1; 2; 3]); (g, [])] buf = Some (true, b1) /\
    drain_frames (fun _ => true) 0 3 b1 = Returns ([(f, [1; 2; 3]); (g, [])], Err InsufficientData, b2).
Proof.
  destruct (make (fun _ => true) 0 32) as [buf|] eqn:E; [|by vm_compute in E].
  destruct (make_spec _ _ 32 _ ltac:(unfold in_width; lia) E) as (Hwf & Hc & Hle).
  destruct (frame_codec_roundtrip (fun _ => true) 0
    [(mkWireHeader 2 0 7 3 0, [1; 2; 3]); (mkWireHeader 2 0 9 0 0, [])] buf) as (b1 & b2 & H1 & H2 & _).
  - done.
  - done.
  - done.
  - repeat constructor; cbn; unfold in_width, len, MAX_BODY_SIZE; cbn; lia.
  - change (27 <= capacity_ buf). lia.
  - exists buf, b1, b2. split_and!; done.
Defined.

Lemma encode_appends_witness :
  exists buf buf', make (fun _ => true) 0 32 = Returns buf /\
    encode buf (mkWireHeader 2 0 7 3 0) [1; 2; 3] = Some (true, buf') /\
    contents buf' = frame_bytes (mkWireHeader 2 0 7 3 0) [1; 2; 3].
Proof.
  destruct (make (fun _ => true) 0 32) as [buf|] eqn:E; [|by vm_compute in E].
  destruct (make_spec _ _ 32 _ ltac:(unfold in_width; lia) E) as (Hwf & Hc & Hle).
  destruct (encode_appends buf (mkWireHeader 2 0 7 3 0) [1; 2; 3] Hwf) as [(ok & buf' & E1 & _ & _ & Hok & Ht & _) _].
  { vm_compute. discriminate. }
  assert (ok = true) as ->.
  { rewrite Hok, writable_size_free, <- contents_len, Hc by done. apply andb_true_intro. split; [done|]. apply Z.leb_le.
    change (15 <= capacity_ buf - 0). lia. }
  exists buf, buf'. split_and!; [done..|]. rewrite Ht, Hc; done.
Defined.
