(* ===== verification/Protocol.v ===== *)
(** * The protocol interface and its two implementations

    The [Protocol] concept (apex_core/include/apex/core/protocol.hpp) as a class,
    with [TcpBinaryProtocol] (tcp_binary_protocol.hpp, a wrapper of
    [FrameCodec]) and [WebSocketProtocol] (websocket_protocol.{hpp,cpp}) as
    instances. [p_message] is the branch of
    [ConnectionHandler::process_frames] that takes the message id and the payload
    out of a frame of either kind.

    [ProtocolLaws] is what the connection handler relies on: the decoder computes
    a function [p_next] of the unread bytes, leaves them unread, and what it has
    found does not change when more bytes arrive. *)

From S2P Require Import Prelude ErrorCode MathUtils WireHeader RingBuffer FrameCodec.

(** What the unread bytes begin with. *)
Inductive next_frame : Type :=
| NeedMore
| Broken (e : ErrorCode)
| Found (msg : option (Z * list Z)) (size : Z).

Class Protocol (F : Type) : Type := {
  p_try_decode : (Z -> bool) -> Z -> RingBuffer -> outcome (Result F * RingBuffer);
  p_consume_frame : RingBuffer -> F -> RingBuffer;
  p_message : RingBuffer -> F -> option (Z * list Z);
  p_next : list Z -> next_frame;
}.

Class ProtocolLaws (F : Type) `{Protocol F} : Prop := {
  p_decode_next malloc_ok fill buf :
    wf buf -> (forall n, malloc_ok n = true) ->
    exists r buf', p_try_decode malloc_ok fill buf = Returns (r, buf') /\ wf buf' /\
      contents buf' = contents buf /\ capacity_ buf' = capacity_ buf /\
      match p_next (contents buf) with
      | NeedMore => r = Err InsufficientData
      | Broken e => r = Err e /\ e <> InsufficientData
      | Found m n => exists f, r = Ok f /\ p_message buf' f = m /\ p_consume_frame buf' f = consume n buf'
      end;
  p_next_nil : p_next [] = NeedMore;
  p_next_size bs m n : p_next bs = Found m n -> 0 < n <= len bs;
  p_next_app bs rest : p_next bs <> NeedMore -> p_next (bs ++ rest) = p_next bs;
}.

(** ** TCP *)

Definition tcp_next (bs : list Z) : next_frame :=
  match decode_bytes bs with
  | Ok (h, body) => Found (Some (msg_id h, body)) (frame_size h)
  | Err InsufficientData => NeedMore
  | Err e => Broken e
  end.

#[global] Instance TcpBinaryProtocol : Protocol Frame := {|
  p_try_decode := try_decode;
  p_consume_frame := consume_frame;
  p_message buf f := Some (msg_id (header f), span_bytes buf (payload f));
  p_next := tcp_next;
|}.

(** ** WebSocket *)

Definition LENGTH_PREFIX_SIZE : Z := 4.
Definition max_message_size : Z := 1 * 1024 * 1024.

Record WsFrame : Type := mkWsFrame { ws_payload : list Z; is_text : bool; is_binary : bool }.

Definition ws_try_decode (malloc_ok : Z -> bool) (fill : Z) (buf : RingBuffer) : outcome (Result WsFrame * RingBuffer) :=
  if readable_size buf <? LENGTH_PREFIX_SIZE then Returns (Err InsufficientData, buf)
  else
    let '(header_span, buf) := linearize malloc_ok fill LENGTH_PREFIX_SIZE buf in
    run prefix <- memcpy_from buf header_span LENGTH_PREFIX_SIZE;
    let payload_size := u32 (le_load prefix) in
    if max_message_size <? payload_size then Returns (Err InvalidMessage, buf)
    else
      let total_size := LENGTH_PREFIX_SIZE + payload_size in
      if readable_size buf <? total_size then Returns (Err InsufficientData, buf)
      else
        let '(frame_span, buf) := linearize malloc_ok fill total_size buf in
        run whole <- memcpy_from buf frame_span total_size;
        Returns (Ok (mkWsFrame (slice LENGTH_PREFIX_SIZE (total_size - LENGTH_PREFIX_SIZE) whole) false true), buf).

Definition ws_consume_frame (buf : RingBuffer) (f : WsFrame) : RingBuffer :=
  consume (LENGTH_PREFIX_SIZE + len (ws_payload f)) buf.

(** The first four payload bytes are the message id in network order. *)
Definition ws_message (raw : list Z) : option (Z * list Z) :=
  if len raw <? 4 then None
  else Some (ntoh32 (load32 raw 0), dropZ 4 raw).

Definition ws_next (bs : list Z) : next_frame :=
  if len bs <? LENGTH_PREFIX_SIZE then NeedMore
  else
    let n := u32 (le_load (takeZ LENGTH_PREFIX_SIZE bs)) in
    if max_message_size <? n then Broken InvalidMessage
    else if len bs <? LENGTH_PREFIX_SIZE + n then NeedMore
    else Found (ws_message (slice LENGTH_PREFIX_SIZE n bs)) (LENGTH_PREFIX_SIZE + n).

#[global] Instance WebSocketProtocol : Protocol WsFrame := {|
  p_try_decode := ws_try_decode;
  p_consume_frame := ws_consume_frame;
  p_message _ f := ws_message (ws_payload f);
  p_next := ws_next;
|}.

(** ** The laws hold *)

Lemma decode_bytes_err_cases bs e :
  decode_bytes bs = Err e -> tcp_next bs = if decide (e = InsufficientData) then NeedMore else Broken e.
Proof. intros E. unfold tcp_next. rewrite E. by destruct e. Qed.

#[global] Instance TcpBinaryProtocol_laws : ProtocolLaws Frame.
Proof.
  constructor.
  - intros malloc_ok fill buf Hwf Hm.
    destruct (try_decode_spec malloc_ok fill buf Hwf Hm) as (r & b & E & ? & ? & ? & Hr).
    exists r, b. split_and!; [done..|]. cbn [p_next TcpBinaryProtocol].
    destruct (decode_bytes (contents buf)) as [[h body]|e] eqn:Ed.
    + unfold tcp_next. rewrite Ed. destruct Hr as (f & -> & <- & <-). by exists f.
    + rewrite (decode_bytes_err_cases _ e Ed). by destruct (decide (e = InsufficientData)) as [->|].
  - done.
  - cbn. intros bs m n. unfold tcp_next. destruct (decode_bytes bs) as [[h body]|[]] eqn:Ed; intros; simplify_eq.
    by apply decode_bytes_size in Ed as [? _].
  - cbn. intros bs rest. unfold tcp_next. destruct (decode_bytes bs) as [[h body]|e] eqn:Ed; intros Hne.
    + by rewrite (decode_bytes_app _ rest _ Ed).
    + rewrite (decode_bytes_app _ rest _ Ed); [done|]. by intros [= ->].
Qed.

Lemma ws_decode_next malloc_ok fill buf :
  wf buf -> (forall n, malloc_ok n = true) ->
  exists r buf', ws_try_decode malloc_ok fill buf = Returns (r, buf') /\ wf buf' /\
    contents buf' = contents buf /\ capacity_ buf' = capacity_ buf /\
    match ws_next (contents buf) with
    | NeedMore => r = Err InsufficientData
    | Broken e => r = Err e /\ e <> InsufficientData
    | Found m n => exists f, r = Ok f /\ ws_message (ws_payload f) = m /\ ws_consume_frame buf' f = consume n buf'
    end.
Proof.
  intros Hwf Hm. unfold ws_try_decode, ws_next. rewrite contents_len.
  destruct (Z.ltb_spec (readable_size buf) LENGTH_PREFIX_SIZE); [by eexists _, _|].
  destruct (linearize_ok malloc_ok fill LENGTH_PREFIX_SIZE buf Hwf) as (s & b1 & -> & Hwf1 & Hc1 & Hcap1 & Hn1 & _ & Hs1 & Hb1);
    [unfold LENGTH_PREFIX_SIZE in *; lia|done|].
  rewrite memcpy_whole by done. cbn [outcome_bind]. rewrite Hb1.
  set (n := u32 (le_load (takeZ LENGTH_PREFIX_SIZE (contents buf)))).
  assert (Hn : 0 <= n) by (apply wrap_range; lia).
  destruct (Z.ltb_spec max_message_size n); [by eexists _, _|].
  rewrite <- (contents_len b1), Hc1, contents_len.
  destruct (Z.ltb_spec (readable_size buf) (LENGTH_PREFIX_SIZE + n)); [by eexists _, _|].
  destruct (linearize_ok malloc_ok fill (LENGTH_PREFIX_SIZE + n) b1 Hwf1) as (s2 & b2 & -> & Hwf2 & Hc2 & Hcap2 & Hn2 & _ & Hs2 & Hb2);
    [rewrite <- (contents_len b1), Hc1, contents_len; unfold LENGTH_PREFIX_SIZE in *; lia|done|].
  rewrite memcpy_whole by done. cbn [outcome_bind]. rewrite Hb2, Hc1.
  replace (LENGTH_PREFIX_SIZE + n - LENGTH_PREFIX_SIZE) with n by lia.
  rewrite slice_takeZ by (unfold LENGTH_PREFIX_SIZE in *; lia).
  eexists _, _. split_and!; [done|done|congruence|congruence|]. eexists. split_and!; [done..|].
  unfold ws_consume_frame. cbn [ws_payload]. rewrite len_slice, contents_len.
  f_equal. unfold LENGTH_PREFIX_SIZE in *. lia.
Qed.

#[global] Instance WebSocketProtocol_laws : ProtocolLaws WsFrame.
Proof.
  constructor.
  - apply ws_decode_next.
  - done.
  - cbn. intros bs m n. unfold ws_next. pose proof (wrap_range 32 (le_load (takeZ LENGTH_PREFIX_SIZE bs))).
    unfold in_width in *. split_ifs; intros; simplify_eq. unfold LENGTH_PREFIX_SIZE in *. lia.
  - cbn. intros bs rest. unfold ws_next. pose proof (wrap_range 32 (le_load (takeZ LENGTH_PREFIX_SIZE bs))).
    rewrite len_app. pose proof (len_nonneg rest). unfold in_width in *.
    destruct (Z.ltb_spec (len bs) LENGTH_PREFIX_SIZE); [done|].
    rewrite takeZ_app_le by done. destruct (Z.ltb_spec (len bs + len rest) LENGTH_PREFIX_SIZE); [lia|].
    destruct (_ <? _); [done|].
    set (n := u32 (le_load _)) in *. destruct (Z.ltb_spec (len bs) (LENGTH_PREFIX_SIZE + n)); [done|].
    destruct (Z.ltb_spec (len bs + len rest) (LENGTH_PREFIX_SIZE + n)); [lia|]. intros _.
    rewrite slice_app_l by (unfold LENGTH_PREFIX_SIZE in *; lia). done.
Qed.
