(* ===== verification/ConnectionHandler.v ===== *)
(** * Connection handler

    [ConnectionHandler<P, T>] (apex_core/include/apex/core/connection_handler.hpp):
    the read loop of one connection, generic in the protocol, and
    [ErrorSender::build_error_frame] (apex_core/src/error_sender.cpp), which it
    answers failed dispatches with.

    The session and the dispatcher are the interface [ConnOps] (what the loop
    calls on them); the FlatBuffers encoding of an error response is generated
    code and the argument [error_response]. The socket is a byte stream and a
    sequence of read completions: the kernel delivers at most what the loop asks
    for, cut anywhere. *)

From S2P Require Import Prelude ErrorCode MathUtils WireHeader RingBuffer FrameCodec Protocol.

(** ** Error frames *)

Section ErrorSender.
Context (error_response : Z -> list Z -> Z -> list Z).

Definition error_header (original_msg_id payload_size : Z) : WireHeader :=
  mkWireHeader CURRENT_VERSION flag_ERROR_RESPONSE original_msg_id (u32 payload_size) 0.

Definition build_error_frame (original_msg_id : Z) (code : ErrorCode) (message : list Z) (service_error_code : Z) : list Z :=
  let payload := error_response (error_code_value code) message service_error_code in
  let header := error_header original_msg_id (len payload) in
  let frame := replicate (Z.to_nat (frame_size header)) 0 in
  patch SIZE payload (patch 0 (serialize header) frame).

End ErrorSender.

(** ** What the loop calls on the session and the dispatcher *)

Class ConnOps (S : Type) : Type := {
  c_is_open : S -> bool;
  c_close : S -> S;
  c_dispatch : S -> Z -> list Z -> Result unit * S;
  c_enqueue_write_raw : S -> list Z -> S;
}.

Class ConnLaws (S : Type) `{ConnOps S} : Prop := {
  c_close_open s : c_is_open (c_close s) = false;
}.

(** A read completion: [n] bytes available, or an error. *)
Inductive read_event : Type :=
| ReadSome (n : Z)
| ReadFail.

Section Handler.
Context {F : Type} {P : Protocol F} {S M : Type} {C : ConnOps S}.
Context (error_response : Z -> list Z -> Z -> list Z).
Context (malloc_ok : Z -> bool) (fill : Z).

(** Answer a failed dispatch, unless the handler already has. *)
Definition answer_error (result : Result unit) (msg_id : Z) (s : S) : S :=
  match result with
  | Ok _ => s
  | Err ServiceError => s
  | Err e => c_enqueue_write_raw s (build_error_frame error_response msg_id e [] 0)
  end.

(** [process_frames]; [None] when the fuel runs out. *)
Fixpoint process_frames_fuel (fuel : nat) (s : S) (recv_buf : RingBuffer) : option (outcome (S * RingBuffer)) :=
  match fuel with
  | O => None
  | Datatypes.S fuel =>
      match p_try_decode malloc_ok fill recv_buf with
      | Throws x => Some (Throws x)
      | Returns (Err InsufficientData, recv_buf) => Some (Returns (s, recv_buf))
      | Returns (Err _, recv_buf) => Some (Returns (c_close s, recv_buf))
      | Returns (Ok frame, recv_buf) =>
          match p_message recv_buf frame with
          | None => Some (Returns (c_close s, recv_buf))
          | Some (msg_id, payload) =>
              let '(result, s) := c_dispatch s msg_id payload in
              let recv_buf := p_consume_frame recv_buf frame in
              let s := answer_error result msg_id s in
              if c_is_open s then process_frames_fuel fuel s recv_buf else Some (Returns (s, recv_buf))
          end
      end
  end.

(** Every frame takes at least one byte: one pass more than there are bytes. *)
Definition process_frames (s : S) (recv_buf : RingBuffer) : option (outcome (S * RingBuffer)) :=
  process_frames_fuel (Datatypes.S (Z.to_nat (readable_size recv_buf))) s recv_buf.

Context (touch : M -> M).

Record loop_result : Type := mkLoop {
  l_exited : bool;
  l_session : S;
  l_buf : RingBuffer;
  l_mgr : M;
  l_stream : list Z;
}.

(** The [while] loop of [read_loop]; [l_exited = false] when it waits for a
    further completion. *)
Fixpoint read_while (evs : list read_event) (stream : list Z) (s : S) (rb : RingBuffer) (m : M)
    : option (outcome loop_result) :=
  if c_is_open s then
    let w := writable rb in
    if sp_size w =? 0 then Some (Returns (mkLoop true (c_close s) rb m stream))
    else
      match evs with
      | [] => Some (Returns (mkLoop false s rb m stream))
      | ReadFail :: _ => Some (Returns (mkLoop true s rb m stream))
      | ReadSome n :: evs =>
          let data := takeZ (Z.min n (sp_size w)) stream in
          if len data =? 0 then Some (Returns (mkLoop true s rb m stream))
          else
            let rb := commit_write (len data) (store_span rb w data) in
            match process_frames s rb with
            | None => None
            | Some (Throws x) => Some (Throws x)
            | Some (Returns (s, rb)) =>
                let stream := dropZ (len data) stream in
                if c_is_open s then read_while evs stream s rb (touch m)
                else Some (Returns (mkLoop true s rb m stream))
            end
      end
  else Some (Returns (mkLoop true s rb m stream)).

Context (remote_ip : S -> list Z) (connection_closed_cb : option (list Z -> M -> M)) (remove_session : M -> M).

Definition release (s : S) (m : M) : M :=
  let m :=
    match connection_closed_cb with
    | Some cb => if len (remote_ip s) =? 0 then m else cb (remote_ip s) m
    | None => m
    end in
  remove_session m.

(** [read_loop]: the active-session count, the handshake, the loop and the
    release of the session once it exits. *)
Definition read_loop (hs_ok : bool) (evs : list read_event) (stream : list Z) (s : S) (rb : RingBuffer)
    (active_sessions : Z) (m : M) : option (outcome (loop_result * Z)) :=
  let active := u32 (active_sessions + 1) in
  if hs_ok then
    match read_while evs stream s rb m with
    | None => None
    | Some (Throws x) => Some (Throws x)
    | Some (Returns l) =>
        if l_exited l
        then Some (Returns (mkLoop true (l_session l) (l_buf l) (release (l_session l) (l_mgr l)) (l_stream l),
                            u32 (active - 1)))
        else Some (Returns (l, active))
    end
  else
    let s := c_close s in
    Some (Returns (mkLoop true s rb (release s m) stream, u32 (active - 1))).

(** ** Reference: the handler on a byte string *)

Fixpoint process_bytes_fuel (fuel : nat) (s : S) (bs : list Z) : S * list Z :=
  match fuel with
  | O => (s, bs)
  | Datatypes.S fuel =>
      match p_next bs with
      | NeedMore => (s, bs)
      | Broken _ => (c_close s, bs)
      | Found None _ => (c_close s, bs)
      | Found (Some (msg_id, payload)) n =>
          let '(result, s) := c_dispatch s msg_id payload in
          let s := answer_error result msg_id s in
          if c_is_open s then process_bytes_fuel fuel s (dropZ n bs) else (s, dropZ n bs)
      end
  end.

Definition process_bytes (s : S) (bs : list Z) : S * list Z := process_bytes_fuel (Datatypes.S (length bs)) s bs.

(** The loop after [got] bytes of the stream: the reference result, closed when
    the buffer filled up with an incomplete frame. *)
Definition handled (s0 : S) (got : list Z) (l : loop_result) : Prop :=
  contents (l_buf l) = (process_bytes s0 got).2 /\
  (l_session l = (process_bytes s0 got).1 \/
   (l_exited l = true /\ c_is_open (process_bytes s0 got).1 = true /\ l_session l = c_close (process_bytes s0 got).1 /\
    len (contents (l_buf l)) = capacity_ (l_buf l))).

(** Dispatching a sequence of frames to a session until one closes it. *)
Fixpoint deliver (s : S) (fs : list (WireHeader * list Z)) : S :=
  match fs with
  | [] => s
  | (h, body) :: fs =>
      let '(result, s) := c_dispatch s (msg_id h) body in
      let s := answer_error result (msg_id h) s in
      if c_is_open s then deliver s fs else s
  end.

End Handler.

(** A session that records what it is sent and closes on message 0. *)
#[local] Instance log_session : ConnOps (bool * list (Z * list Z)) := {|
  c_is_open s := s.1;
  c_close s := (false, s.2);
  c_dispatch s mid body := (Ok tt, (negb (mid =? 0), s.2 ++ [(mid, body)]));
  c_enqueue_write_raw s _ := s;
|}.

(** ** Error frames decode as what they answer *)

Lemma build_error_frame_bytes error_response mid code message sec :
  let body := error_response (error_code_value code) message sec in
  len body <= UINT32_MAX ->
  build_error_frame error_response mid code message sec = frame_bytes (error_header mid (len body)) body.
Proof.
  intros body Hb. unfold build_error_frame. fold body. pose proof (len_nonneg body).
  assert (Hbs : body_size (error_header mid (len body)) = len body).
  { unfold error_header, UINT32_MAX in *. cbn -[wrap]. apply wrap_small. unfold in_width. lia. }
  set (h := error_header mid (len body)) in *. unfold frame_size. rewrite Hbs.
  set (out := replicate _ 0). assert (Ho : len out = SIZE + len body).
  { unfold out. rewrite len_replicate. unfold SIZE. lia. }
  pose proof (encode_to_spec out h body Hb Hbs ltac:(lia)) as E. unfold encode_to in E.
  unfold UINT32_MAX in *. rewrite wrap_small, Hbs, Z.eqb_refl in E by (unfold in_width; lia). cbn [negb] in E.
  destruct (Z.ltb_spec (len out) (SIZE + len body)); [lia|]. apply (f_equal snd) in E. cbn [snd] in E.
  rewrite dropZ_all, app_nil_r in E by lia. rewrite <- E. destruct (Z.eqb_spec (len body) 0) as [E0|]; [|done].
  rewrite (len_0_nil body E0). apply patch_nil. unfold SIZE. lia.
Qed.

(** ** The handler on the contents of the buffer *)

Section Correctness.
Context {F : Type} `{ProtocolLaws F} {S M : Type} {C : ConnOps S}.
Context (error_response : Z -> list Z -> Z -> list Z).
Context (malloc_ok : Z -> bool) (fill : Z) (Hm : forall n, malloc_ok n = true).

Abbreviation pframes := (process_frames error_response malloc_ok fill).
Abbreviation pbytes_fuel := (process_bytes_fuel error_response).
Abbreviation pbytes := (process_bytes error_response).

Lemma pbytes_fuel_enough f1 f2 s bs :
  (length bs < f1)%nat -> (length bs < f2)%nat -> pbytes_fuel f1 s bs = pbytes_fuel f2 s bs.
Proof using Type*.
  revert f2 s bs. induction f1 as [|f1 IH]; intros f2 s bs H1 H2; [lia|]. destruct f2 as [|f2]; [lia|].
  cbn [process_bytes_fuel]. destruct (p_next bs) as [| |[[mid body]|] n] eqn:En; try done.
  apply p_next_size in En. destruct (c_dispatch s mid body) as [r s1].
  destruct (c_is_open _); [|done]. apply IH; unfold dropZ, len in *; rewrite length_drop; lia.
Qed.

Lemma pbytes_step s bs :
  pbytes s bs =
  match p_next bs with
  | NeedMore => (s, bs)
  | Broken _ | Found None _ => (c_close s, bs)
  | Found (Some (msg_id, payload)) n =>
      let '(result, s) := c_dispatch s msg_id payload in
      let s := answer_error error_response result msg_id s in
      if c_is_open s then pbytes s (dropZ n bs) else (s, dropZ n bs)
  end.
Proof using Type*.
  unfold process_bytes at 1. cbn [process_bytes_fuel]. destruct (p_next bs) as [| |[[mid body]|] n] eqn:En; try done.
  apply p_next_size in En. destruct (c_dispatch s mid body) as [r s1].
  destruct (c_is_open _); [|done]. unfold process_bytes. apply pbytes_fuel_enough; unfold dropZ, len in *; rewrite ?length_drop; lia.
Qed.

(** On the ring buffer, the loop does what the reference does on its bytes. *)
Lemma process_frames_fuel_spec fuel s rb :
  wf rb -> (Z.to_nat (readable_size rb) < fuel)%nat ->
  exists rb', process_frames_fuel error_response malloc_ok fill fuel s rb = Some (Returns ((pbytes s (contents rb)).1, rb')) /\
    wf rb' /\ capacity_ rb' = capacity_ rb /\ contents rb' = (pbytes s (contents rb)).2.
Proof using Type*.
  revert s rb. induction fuel as [|fuel IH]; intros s rb Hwf Hf; [lia|]. cbn [process_frames_fuel].
  rewrite pbytes_step.
  destruct (p_decode_next malloc_ok fill rb Hwf Hm) as (r & b1 & -> & Hwf1 & Hc1 & Hcap1 & Hr).
  destruct (p_next (contents rb)) as [|e|m n] eqn:En.
  - subst r. by exists b1.
  - destruct Hr as [-> He]. exists b1. by destruct e.
  - destruct Hr as (f & -> & Hmsg & Hcf). rewrite Hmsg, Hcf. destruct m as [[mid body]|]; [|by exists b1].
    destruct (c_dispatch s mid body) as [res s1]. apply p_next_size in En. rewrite contents_len in En.
    destruct (consume_spec b1 n Hwf1) as (Hwf2 & Hc2 & Hcap2); [lia|].
    cbv zeta. destruct (c_is_open _); [|exists (consume n b1); by rewrite Hc2, Hc1, Hcap2].
    destruct (IH (answer_error error_response res mid s1) (consume n b1) Hwf2) as (b2 & E & Hwf3 & Hcap3 & Hc3).
    { rewrite <- contents_len, Hc2, Hc1, len_dropZ, contents_len. lia. }
    exists b2. rewrite E, Hc3, Hc2, Hc1, Hcap3, Hcap2. done.
Qed.

Lemma process_frames_spec s rb :
  wf rb ->
  exists rb', pframes s rb = Some (Returns ((pbytes s (contents rb)).1, rb')) /\
    wf rb' /\ capacity_ rb' = capacity_ rb /\ contents rb' = (pbytes s (contents rb)).2.
Proof using Type*. intros. apply process_frames_fuel_spec; [done|lia]. Qed.

(** ** Segmentation *)

(** Bytes that arrive later are handled as if they had been there. *)
Lemma pbytes_app s a b :
  ConnLaws S -> c_is_open s = true ->
  pbytes s (a ++ b) =
  if c_is_open (pbytes s a).1 then pbytes (pbytes s a).1 ((pbytes s a).2 ++ b)
  else ((pbytes s a).1, (pbytes s a).2 ++ b).
Proof using Type*.
  intros HL. remember (length a) as k eqn:Ek. revert s a Ek.
  induction (lt_wf k) as [k _ IH]. intros s a -> Hs.
  rewrite (pbytes_step s (a ++ b)), (pbytes_step s a).
  destruct (p_next a) as [|e|[[mid body]|] n] eqn:En.
  - cbn [fst snd]. rewrite Hs. by rewrite (pbytes_step s (a ++ b)).
  - rewrite p_next_app, En by congruence. cbn [fst snd]. by rewrite c_close_open.
  - rewrite p_next_app, En by congruence. apply p_next_size in En.
    destruct (c_dispatch s mid body) as [res s1]. rewrite dropZ_app_le by lia.
    cbv zeta. destruct (c_is_open (answer_error error_response res mid s1)) eqn:Eo; [|cbn [fst snd]; by rewrite Eo].
    eapply IH; [|done|done]. unfold dropZ, len in *. rewrite length_drop. lia.
  - rewrite p_next_app, En by congruence. cbn [fst snd]. by rewrite c_close_open.
Qed.

Context (touch : M -> M).

Lemma read_while_spec evs stream s0 s rb m got :
  ConnLaws S -> wf rb -> c_is_open s0 = true -> c_is_open s = true ->
  pbytes s0 got = (s, contents rb) ->
  exists l more, read_while error_response malloc_ok fill touch evs stream s rb m = Some (Returns l) /\
    wf (l_buf l) /\ stream = more ++ l_stream l /\ handled error_response s0 (got ++ more) l.
Proof using Type*.
  intros HL Hwf Hs0. revert stream s rb m got Hwf. induction evs as [|ev evs IH]; intros stream s rb m got Hwf Hs Hpb.
  all: assert (Hfull : sp_size (writable rb) = 0 -> len (contents rb) = capacity_ rb)
    by (intros E; destruct (decide (0 < writable_size rb)) as [Hp|];
        [pose proof (writable_pos rb Hwf Hp); lia|pose proof (writable_size_free _ Hwf);
         pose proof (wf_fill _ Hwf); rewrite contents_len; lia]).
  all: cbn [read_while]; rewrite Hs; destruct (Z.eqb_spec (sp_size (writable rb)) 0) as [E0|E0];
    [eexists _, []; rewrite app_nil_r; split_and!; try done; unfold handled; rewrite Hpb; cbn; naive_solver|].
  { eexists _, []. rewrite app_nil_r. split_and!; try done. unfold handled. rewrite Hpb. cbn. auto. }
  destruct ev as [n|]; [|eexists _, []; rewrite app_nil_r; split_and!; try done; unfold handled; rewrite Hpb; cbn; auto].
  set (data := takeZ (Z.min n (sp_size (writable rb))) stream).
  destruct (Z.eqb_spec (len data) 0) as [|Hd];
    [eexists _, []; rewrite app_nil_r; split_and!; try done; unfold handled; rewrite Hpb; cbn; auto|].
  pose proof (writable_size_span rb Hwf). pose proof (len_nonneg stream).
  assert (Hdl : 0 < len data <= sp_size (writable rb) /\ stream = data ++ dropZ (len data) stream).
  { assert (len data = Z.max 0 (Z.min (Z.min n (sp_size (writable rb))) (len stream))) as El by (unfold data; apply len_takeZ).
    split; [lia|]. rewrite <- (take_dropZ (len data) stream) at 1. f_equal. unfold data at 2. unfold takeZ.
    rewrite El. destruct (decide (Z.min n (sp_size (writable rb)) <= len stream)); [f_equal; lia|].
    rewrite !take_ge by (unfold len in *; lia). done. }
  destruct Hdl as [Hdl Hstream].
  destruct (store_commit rb data Hwf ltac:(lia)) as (Hwf1 & Hc1 & Hcap1 & _).
  destruct (process_frames_spec s _ Hwf1) as (rb2 & -> & Hwf2 & Hcap2 & Hc2). rewrite Hc1 in Hc2 |- *.
  assert (Hpb2 : pbytes s0 (got ++ data) = pbytes s (contents rb ++ data))
    by (rewrite pbytes_app by done; rewrite Hpb; cbn; by rewrite Hs).
  destruct (c_is_open (pbytes s (contents rb ++ data)).1) eqn:Eo.
  - destruct (IH (dropZ (len data) stream) _ rb2 (touch m) (got ++ data) Hwf2 Eo) as (l & more & E & Hwl & Hst & Hh).
    { rewrite Hpb2, Hc2. by destruct (pbytes s (contents rb ++ data)). }
    exists l, (data ++ more). split_and!; [done|done| |].
    + rewrite Hstream at 1. rewrite Hst at 1. by rewrite <- app_assoc.
    + rewrite app_assoc. done.
  - eexists _, data. split_and!; [done..|]. unfold handled. rewrite Hpb2. cbn. auto.
Qed.

End Correctness.

Lemma tcp_deliver {S} `{ConnOps S} error_response (s : S) fs :
  c_is_open s = true -> Forall (fun f => wf_frame f.1 f.2) fs ->
  (process_bytes (P := TcpBinaryProtocol) error_response s (frames_bytes fs)).1 = deliver error_response s fs /\
  (c_is_open (deliver error_response s fs) = true -> (process_bytes (P := TcpBinaryProtocol) error_response s (frames_bytes fs)).2 = []).
Proof.
  intros Hs Hfs. revert s Hs. induction Hfs as [|[h body] fs Hf _ IH]; intros s Hs.
  { by rewrite pbytes_step. }
  rewrite pbytes_step. change (frames_bytes ((h, body) :: fs)) with (frame_bytes h body ++ frames_bytes fs).
  cbn [p_next TcpBinaryProtocol]. unfold tcp_next. rewrite decode_frame by done. cbn [deliver].
  destruct (c_dispatch s (msg_id h) body) as [r s1]. destruct Hf as (_ & _ & Hb & _). cbn in Hb.
  unfold frame_size. rewrite Hb, <- (len_frame_bytes h), dropZ_app_len. cbv zeta.
  destruct (c_is_open (answer_error error_response r (msg_id h) s1)) eqn:Eo; [by apply IH|].
  cbn [fst]. by rewrite Eo.
Qed.

(** C2: The read loop does not depend on how the transport cuts the stream. From
    a fresh connection, for any protocol, session and sequence of read
    completions, the loop returns (it neither diverges nor reads through a null
    span when memory is available) having taken some prefix of the byte stream,
    and the session and the unread bytes are what handling that prefix in one
    piece gives; the only other end is a buffer full of one incomplete frame, on
    which the session is closed. The count of active sessions comes back to its
    old value when the loop exits, and the session is released then. *)
Theorem read_loop_segmentation {F} `{ProtocolLaws F} {S M} `{ConnLaws S} error_response malloc_ok fill touch remote_ip cb
    (remove : M -> M) evs stream (s : S) rb active m
    (Hm : forall n, malloc_ok n = true) (Hwf : wf rb) (Hempty : contents rb = []) (Hopen : c_is_open s = true)
    (Hact : in_width 32 active) :
  exists l act more,
    read_loop error_response malloc_ok fill touch remote_ip cb remove true evs stream s rb active m = Some (Returns (l, act)) /\
    wf (l_buf l) /\ stream = more ++ l_stream l /\ handled error_response s more l /\
    (if l_exited l
     then act = active /\ exists m', l_mgr l = release remote_ip cb remove (l_session l) m'
     else act = u32 (active + 1)).
Proof.
  destruct (read_while_spec error_response malloc_ok fill Hm touch evs stream s s rb m []) as (l & more & E & Hwl & Hst & Hh);
    [done..| |].
  { rewrite pbytes_step, p_next_nil, Hempty. done. }
  unfold read_loop. rewrite E. cbn [outcome_bind].
  destruct (l_exited l) eqn:Ex; [|eexists _, _, more; rewrite Ex; split_and!; done].
  eexists _, _, more. split; [done|]. split; [done|]. split; [done|]. split.
  - unfold handled in *. cbn. rewrite Ex in Hh. done.
  - split; [|by eexists]. unfold in_width in Hact. rewrite wrap_sub_l, Z.add_simpl_r. by apply wrap_small.
Qed.

(** Frames sent over TCP arrive once each, complete and in order. If the
    stream is a sequence of encoded frames and the loop has taken all of it with
    the session still open, then however the stream was cut the session is what
    dispatching each frame's message id and payload in order gives, with every
    failed dispatch answered by an error frame unless it was a [ServiceError],
    and no byte is left in the buffer. *)
Theorem tcp_stream_delivery {S M} `{ConnLaws S} error_response malloc_ok fill touch evs fs (s : S) rb (m : M) l
    (Hm : forall n, malloc_ok n = true) (Hwf : wf rb) (Hempty : contents rb = []) (Hopen : c_is_open s = true)
    (Hfs : Forall (fun f => wf_frame f.1 f.2) fs)
    (Hrun : read_while (P := TcpBinaryProtocol) error_response malloc_ok fill touch evs (frames_bytes fs) s rb m = Some (Returns l))
    (Hall : l_stream l = []) (Hopen' : c_is_open (l_session l) = true) :
  l_session l = deliver error_response s fs /\ contents (l_buf l) = [].
Proof.
  destruct (read_while_spec (H := TcpBinaryProtocol) error_response malloc_ok fill Hm touch evs (frames_bytes fs) s s rb m [])
    as (l' & more & E & _ & Hst & Hh); [done..|by rewrite pbytes_step, p_next_nil, Hempty|].
  rewrite Hrun in E. injection E as <-. rewrite Hall, app_nil_r in Hst. subst more. destruct Hh as [Hc [Hs|(_ & _ & Hs & _)]].
  2:{ rewrite Hs, c_close_open in Hopen'. done. }
  destruct (tcp_deliver error_response s fs Hopen Hfs) as [E1 E2]. rewrite app_nil_l in *.
  rewrite Hs, E1 in Hopen'. rewrite Hs, Hc, E1, E2 by done. done.
Qed.

#[local] Instance log_session_laws : ConnLaws (bool * list (Z * list Z)).
Proof. constructor. done. Qed.

(** Two frames cut into single bytes. *)
Lemma tcp_stream_delivery_witness :
  let fs := [(mkWireHeader 2 0 7 3 0, [1; 2; 3]); (mkWireHeader 2 0 9 0 0, [])] in
  exists rb l, make (fun _ => true) 0 32 = Returns rb /\
    read_while (P := TcpBinaryProtocol) (fun _ _ _ => []) (fun _ => true) 0 (Z.add 1) (replicate 27 (ReadSome 1))
      (frames_bytes fs) (true, []) rb 0 = Some (Returns l) /\
    l_session l = (true, [(7, [1; 2; 3]); (9, [])]) /\ l_session l = deliver (fun _ _ _ => []) (true, []) fs.
Proof.
  intros fs. destruct (make (fun _ => true) 0 32) as [rb|] eqn:E; [|by vm_compute in E]. pose proof E as E'.
  destruct (make_spec _ _ 32 _ ltac:(unfold in_width; lia) E) as (Hwf & Hc & _).
  vm_compute in E. injection E as <-. eexists _, _. split; [vm_compute; reflexivity|].
  match goal with |- ?A /\ ?B /\ ?D => assert (HA : A) by (vm_compute; reflexivity) end.
  split; [exact HA|]. split; [vm_compute; reflexivity|].
  eapply (tcp_stream_delivery (fun _ _ _ => []) (fun _ => true) 0 (Z.add 1) (replicate 27 (ReadSome 1)) fs (true, []) _ 0 _);
    [done|exact Hwf|exact Hc|done| |exact HA|vm_compute; reflexivity|vm_compute; reflexivity].
  repeat constructor; cbn; unfold in_width, len, MAX_BODY_SIZE; cbn; lia.
Defined.

Lemma read_loop_segmentation_witness :
  exists rb l more, make (fun _ => true) 0 32 = Returns rb /\
    read_loop (P := WebSocketProtocol) (fun _ _ _ => []) (fun _ => true) 0 (Z.add 1) (fun _ => []) None (Z.mul 0) true
      [ReadSome 5; ReadSome 9] [5; 0; 0; 0; 0; 0; 0; 7; 65; 1] (true, []) rb 0 10 = Some (Returns (l, 1)) /\
    [5; 0; 0; 0; 0; 0; 0; 7; 65; 1] = more ++ l_stream l /\ l_session l = (true, [(7, [65])]).
Proof.
  destruct (make (fun _ => true) 0 32) as [rb|] eqn:E; [|by vm_compute in E].
  destruct (make_spec _ _ 32 _ ltac:(unfold in_width; lia) E) as (Hwf & Hc & _).
  destruct (read_loop_segmentation (F := WsFrame) (fun _ _ _ => []) (fun _ => true) 0 (Z.add 1) (fun _ => []) None (Z.mul 0)
    [ReadSome 5; ReadSome 9] [5; 0; 0; 0; 0; 0; 0; 7; 65; 1] (true, []) rb 0 10) as (l & act & more & El & _ & Hst & _);
    [done|exact Hwf|exact Hc|done|unfold in_width; lia|].
  exists rb, l, more. split; [done|]. vm_compute in E. injection E as <-.
  vm_compute in El. injection El as <- <-. split_and!; done.
Defined.
