(* ===== verification/TimingWheel.v ===== *)
(** * Timing wheel

    [apex::core::TimingWheel] (apex_core/include/apex/core/timing_wheel.hpp,
    apex_core/src/timing_wheel.cpp): hashed timer slots, each a doubly linked
    list of heap-allocated entries, with recycled entry ids.

    The heap is explicit: an entry is an address, the links are addresses, and
    reading an address that is not allocated is undefined behaviour. [new] takes
    the next address. [free_ids_] is a stack whose head is the vector's back.
    The expiry callback is a program over the wheel's own operations with a state
    of its own; what it throws is swallowed, as in the source. *)

From S2P Require Import Prelude MathUtils.

Record Entry : Type := mkEntry {
  e_id : Z;
  deadline_tick : Z;
  cancelled : bool;
  e_next : option Z;
  e_prev : option Z;
}.

Record TimingWheel : Type := mkTimingWheel {
  slots_ : list (option Z);
  num_slots_ : Z;
  mask_ : Z;
  current_tick_ : Z;
  next_id_ : Z;
  entries_ : list (option Z);
  free_ids_ : list Z;
  active_count_ : Z;
  heap : gmap Z Entry;
  heap_next : Z;
}.

Definition set_next (n : option Z) (e : Entry) : Entry :=
  mkEntry (e_id e) (deadline_tick e) (cancelled e) n (e_prev e).
Definition set_prev (p : option Z) (e : Entry) : Entry :=
  mkEntry (e_id e) (deadline_tick e) (cancelled e) (e_next e) p.
Definition set_deadline (d : Z) (e : Entry) : Entry :=
  mkEntry (e_id e) d (cancelled e) (e_next e) (e_prev e).
Definition set_cancelled (c : bool) (e : Entry) : Entry :=
  mkEntry (e_id e) (deadline_tick e) c (e_next e) (e_prev e).

Definition with_slots_heap (s : list (option Z)) (h : gmap Z Entry) (w : TimingWheel) : TimingWheel :=
  mkTimingWheel s (num_slots_ w) (mask_ w) (current_tick_ w) (next_id_ w) (entries_ w) (free_ids_ w) (active_count_ w) h (heap_next w).
Definition with_heap (h : gmap Z Entry) (w : TimingWheel) : TimingWheel := with_slots_heap (slots_ w) h w.
Definition with_entries (es : list (option Z)) (n : Z) (w : TimingWheel) : TimingWheel :=
  mkTimingWheel (slots_ w) (num_slots_ w) (mask_ w) (current_tick_ w) (next_id_ w) es (free_ids_ w) n (heap w) (heap_next w).
Definition with_ids (next : Z) (es : list (option Z)) (free : list Z) (w : TimingWheel) : TimingWheel :=
  mkTimingWheel (slots_ w) (num_slots_ w) (mask_ w) (current_tick_ w) next es free (active_count_ w) (heap w) (heap_next w).
Definition with_tick (t : Z) (w : TimingWheel) : TimingWheel :=
  mkTimingWheel (slots_ w) (num_slots_ w) (mask_ w) t (next_id_ w) (entries_ w) (free_ids_ w) (active_count_ w) (heap w) (heap_next w).

(** The constructor. *)
Definition make (num_slots : Z) : outcome TimingWheel :=
  let num_slots_ := next_power_of_2 (if num_slots <? 1 then 1 else num_slots) in
  if num_slots_ =? 0 then Throws overflow_error
  else Returns (mkTimingWheel (replicate (Z.to_nat num_slots_) None) num_slots_ (num_slots_ - 1) 0 1 [] [] 0 empty 1).

(** Pointer access. *)
Definition deref (p : Z) (h : gmap Z Entry) : outcome Entry :=
  match h !! p with Some e => Returns e | None => Throws undefined_behaviour end.
Definition update (p : Z) (f : Entry -> Entry) (h : gmap Z Entry) : outcome (gmap Z Entry) :=
  run e <- deref p h; Returns (<[p := f e]> h).

(** [slots_[i].head]: an unchecked vector index. *)
Definition slot_head (i : Z) (s : list (option Z)) : outcome (option Z) :=
  match s !! Z.to_nat i with Some h => Returns h | None => Throws undefined_behaviour end.

Definition insert_entry (entry slot_idx : Z) (w : TimingWheel) : outcome TimingWheel :=
  run h <- update entry (set_prev None) (heap w);
  run head <- slot_head slot_idx (slots_ w);
  run h <- update entry (set_next head) h;
  run h <- (match head with Some q => update q (set_prev (Some entry)) h | None => Returns h end);
  Returns (with_slots_heap (<[Z.to_nat slot_idx := Some entry]> (slots_ w)) h w).

Definition remove_entry (entry slot_idx : Z) (w : TimingWheel) : outcome TimingWheel :=
  run e <- deref entry (heap w);
  run (s, h) <-
    (match e_prev e with
     | Some q => run h <- update q (set_next (e_next e)) (heap w); Returns (slots_ w, h)
     | None => run _ <- slot_head slot_idx (slots_ w); Returns (<[Z.to_nat slot_idx := e_next e]> (slots_ w), heap w)
     end);
  run e <- deref entry h;
  run h <- (match e_next e with Some r => update r (set_prev (e_prev e)) h | None => Returns h end);
  run h <- update entry (set_prev None) h;
  run h <- update entry (set_next None) h;
  Returns (with_slots_heap s h w).

Definition compute_deadline (ticks_from_now : Z) (w : TimingWheel) : Z :=
  if ticks_from_now =? 0 then current_tick_ w else u64 (current_tick_ w + ticks_from_now).

(** The id part of [schedule]: recycle one or grow [entries_]. *)
Definition take_id (w : TimingWheel) : Z * TimingWheel :=
  match free_ids_ w with
  | id :: free => (id, with_ids (next_id_ w) (entries_ w) free w)
  | [] =>
      let id := next_id_ w in
      let es := if len (entries_ w) <=? id
                then entries_ w ++ replicate (Z.to_nat (id + 1 - len (entries_ w))) None
                else entries_ w in
      (id, with_ids (id + 1) es [] w)
  end.

(** [entries_[id] = v]: an unchecked vector index. *)
Definition set_entry (id : Z) (v : option Z) (n : Z) (w : TimingWheel) : outcome TimingWheel :=
  if id <? len (entries_ w) then Returns (with_entries (<[Z.to_nat id := v]> (entries_ w)) n w)
  else Throws undefined_behaviour.

Definition schedule (ticks_from_now : Z) (w : TimingWheel) : outcome (Z * TimingWheel) :=
  if num_slots_ w <=? ticks_from_now then Throws out_of_range
  else
    let '(id, w) := take_id w in
    let entry := heap_next w in
    let d := compute_deadline ticks_from_now w in
    let w := mkTimingWheel (slots_ w) (num_slots_ w) (mask_ w) (current_tick_ w) (next_id_ w) (entries_ w) (free_ids_ w)
               (active_count_ w) (<[entry := mkEntry id d false None None]> (heap w)) (entry + 1) in
    let slot_idx := Z.land d (mask_ w) in
    run w <- insert_entry entry slot_idx w;
    run w <- set_entry id (Some entry) (active_count_ w + 1) w;
    Returns (id, w).

(** [entries_[id]] behind the range check. *)
Definition live_entry (id : Z) (w : TimingWheel) : option Z :=
  if len (entries_ w) <=? id then None else mjoin (entries_ w !! Z.to_nat id).

Definition cancel (id : Z) (w : TimingWheel) : outcome TimingWheel :=
  match live_entry id w with
  | None => Returns w
  | Some entry =>
      run e <- deref entry (heap w);
      if cancelled e then Returns w
      else
        run h <- update entry (set_cancelled true) (heap w);
        let w := with_heap h w in
        let slot_idx := Z.land (deadline_tick e) (mask_ w) in
        run w <- remove_entry entry slot_idx w;
        let w := with_heap (delete entry (heap w)) w in
        run w <- set_entry id None (active_count_ w - 1) w;
        Returns (with_ids (next_id_ w) (entries_ w) (id :: free_ids_ w) w)
  end.

Definition reschedule (id ticks_from_now : Z) (w : TimingWheel) : outcome TimingWheel :=
  if num_slots_ w <=? ticks_from_now then Throws out_of_range
  else
    match live_entry id w with
    | None => Returns w
    | Some entry =>
        run e <- deref entry (heap w);
        if cancelled e then Returns w
        else
          let old_slot := Z.land (deadline_tick e) (mask_ w) in
          run w <- remove_entry entry old_slot w;
          let d := compute_deadline ticks_from_now w in
          run h <- update entry (set_deadline d) (heap w);
          insert_entry entry (Z.land d (mask_ w)) (with_heap h w)
    end.

(** ** Callbacks *)

(** What a callback does: operations on the wheel, then a new state of its own
    ([Throw]: an exception that leaves the state as it is then). *)
Inductive wheel_prog (X : Type) : Type :=
| Ret (x : X)
| Throw (x : X)
| Schedule (n : Z) (on_error : X) (k : Z -> wheel_prog X)
| Cancel (id : Z) (k : wheel_prog X)
| Reschedule (id n : Z) (on_error : X) (k : wheel_prog X).
Arguments Ret {X} x.
Arguments Throw {X} x.
Arguments Schedule {X} n on_error k.
Arguments Cancel {X} id k.
Arguments Reschedule {X} id n on_error k.

(** Runs a callback; an [out_of_range] thrown by the wheel ends it. *)
Fixpoint run_prog {X} (c : wheel_prog X) (w : TimingWheel) : outcome (X * TimingWheel) :=
  match c with
  | Ret x | Throw x => Returns (x, w)
  | Schedule n x k =>
      match schedule n w with
      | Returns (id, w) => run_prog (k id) w
      | Throws undefined_behaviour => Throws undefined_behaviour
      | Throws _ => Returns (x, w)
      end
  | Cancel id k => run w <- cancel id w; run_prog k w
  | Reschedule id n x k =>
      match reschedule id n w with
      | Returns w => run_prog k w
      | Throws undefined_behaviour => Throws undefined_behaviour
      | Throws _ => Returns (x, w)
      end
  end.

(** Phase 1: walk the slot's list; the fuel bounds its length. *)
Fixpoint collect (fuel : nat) (h : gmap Z Entry) (now : Z) (entry : option Z) : outcome (list Z) :=
  match fuel, entry with
  | _, None => Returns []
  | O, Some _ => Throws logic_error
  | S fuel, Some p =>
      run e <- deref p h;
      run rest <- collect fuel h now (e_next e);
      Returns (if negb (cancelled e) && (deadline_tick e =? now) then p :: rest else rest)
  end.

(** Phase 2. *)
Fixpoint remove_all (ps : list Z) (slot_idx : Z) (w : TimingWheel) : outcome TimingWheel :=
  match ps with
  | [] => Returns w
  | p :: ps => run w <- remove_entry p slot_idx w; remove_all ps slot_idx w
  end.

(** Phase 3a. *)
Fixpoint unregister_all (ps : list Z) (w : TimingWheel) : outcome TimingWheel :=
  match ps with
  | [] => Returns w
  | p :: ps =>
      run e <- deref p (heap w);
      run w <- set_entry (e_id e) None (active_count_ w - 1) w;
      unregister_all ps w
  end.

Section Tick.
Context {X : Type} (on_expire_ : X -> Z -> wheel_prog X).

(** Phase 3b; [fired] are the ids the callback was called with. *)
Fixpoint fire_all (ps : list Z) (x : X) (w : TimingWheel) : outcome (list Z * X * TimingWheel) :=
  match ps with
  | [] => Returns ([], x, w)
  | p :: ps =>
      run e <- deref p (heap w);
      let expired_id := e_id e in
      run (x, w) <- run_prog (on_expire_ x expired_id) w;
      let w := with_heap (delete p (heap w)) w in
      let w := with_ids (next_id_ w) (entries_ w) (expired_id :: free_ids_ w) w in
      run (fired, x, w) <- fire_all ps x w;
      Returns (expired_id :: fired, x, w)
  end.

Definition tick (x : X) (w : TimingWheel) : outcome (list Z * X * TimingWheel) :=
  let slot_idx := Z.land (current_tick_ w) (mask_ w) in
  run head <- slot_head slot_idx (slots_ w);
  run expired_buf_ <- collect (size (heap w)) (heap w) (current_tick_ w) head;
  run w <- remove_all expired_buf_ slot_idx w;
  run w <- unregister_all expired_buf_ w;
  run (fired, x, w) <- fire_all expired_buf_ x w;
  Returns (fired, x, with_tick (u64 (current_tick_ w + 1)) w).

End Tick.

(** ** The linked lists *)

(** The entries [l] are linked from [prev] to [nxt]. *)
Fixpoint dllseg (h : gmap Z Entry) (prev : option Z) (l : list Z) (nxt : option Z) : Prop :=
  match l with
  | [] => True
  | p :: l' =>
      (exists e, h !! p = Some e /\ e_prev e = prev /\ e_next e = (match l' with [] => nxt | q :: _ => Some q end)) /\
      dllseg h (Some p) l' nxt
  end.

(** What of an entry is not a link. *)
Definition edata (e : Entry) : Z * Z * bool := (e_id e, deadline_tick e, cancelled e).
Definition data_at (h : gmap Z Entry) (p : Z) : option (Z * Z * bool) := edata <$> h !! p.

Definition first_or (l : list Z) (d : option Z) : option Z := match l with [] => d | q :: _ => Some q end.

(** Slot [s] holds the list [L s]. *)
Definition links_ok (slots : list (option Z)) (h : gmap Z Entry) (n : Z) (L : Z -> list Z) : Prop :=
  len slots = n /\
  (forall s s' p, 0 <= s < n -> 0 <= s' < n -> p ∈ L s -> p ∈ L s' -> s = s') /\
  forall s, 0 <= s < n -> slots !! Z.to_nat s = Some (first_or (L s) None) /\ NoDup (L s) /\ dllseg h None (L s) None.

Definition upd_slot (L : Z -> list Z) (i : Z) (l : list Z) : Z -> list Z := fun s => if s =? i then l else L s.

(** [p] is the entry registered under [id] with deadline [d]. *)
Definition live (w : TimingWheel) (p id d : Z) : Prop :=
  0 < id /\ entries_ w !! Z.to_nat id = Some (Some p) /\ data_at (heap w) p = Some (id, d, false).

Definition live_count (es : list (option Z)) : Z := len (omap id es).

(** The wheel invariant: [L] are the slot lists, [X] the entries (address, id)
    taken out by a running tick whose callbacks have not returned yet. *)
Record inv (w : TimingWheel) (L : Z -> list Z) (X : list (Z * Z)) : Prop := mk_inv {
  inv_pow2 : exists k, 0 <= k <= 63 /\ num_slots_ w = 2 ^ k;
  inv_mask : mask_ w = num_slots_ w - 1;
  inv_tick : in_width 64 (current_tick_ w);
  inv_links : links_ok (slots_ w) (heap w) (num_slots_ w) L;
  inv_mem s p : 0 <= s < num_slots_ w -> (p ∈ L s <-> exists id d, live w p id d /\ d mod num_slots_ w = s);
  inv_ent i p : entries_ w !! i = Some (Some p) -> exists d, live w p (Z.of_nat i) d;
  inv_win p id d : live w p id d -> in_width 64 d /\ u64 (d - current_tick_ w) < num_slots_ w;
  inv_free_nd : NoDup (free_ids_ w);
  inv_free id : id ∈ free_ids_ w -> 0 < id /\ entries_ w !! Z.to_nat id = Some None;
  inv_ids : 1 <= next_id_ w /\ len (entries_ w) <= next_id_ w;
  inv_count : active_count_ w = live_count (entries_ w);
  inv_heap p : is_Some (heap w !! p) -> p < heap_next w;
  inv_exp_nd : NoDup X.*1 /\ NoDup X.*2;
  inv_exp p id : (p, id) ∈ X ->
    0 < id /\ entries_ w !! Z.to_nat id = Some None /\ (id ∉ free_ids_ w) /\ exists d, data_at (heap w) p = Some (id, d, false);
}.

(** The deadline of a scheduled entry. *)
Definition timer (w : TimingWheel) (id : Z) : option Z :=
  match live_entry id w with
  | Some p => deadline_tick <$> heap w !! p
  | None => None
  end.

(** Programs with arguments of the C++ types that schedule at least [lo] ticks
    ahead. *)
Fixpoint prog_ok {X} (lo : Z) (c : wheel_prog X) : Prop :=
  match c with
  | Ret _ | Throw _ => True
  | Schedule n _ k => lo <= n < 2 ^ 32 /\ forall id, 0 < id -> prog_ok lo (k id)
  | Cancel id k => 0 <= id /\ prog_ok lo k
  | Reschedule id n _ k => 0 <= id /\ lo <= n < 2 ^ 32 /\ prog_ok lo k
  end.

(** Programs that leave the entry [id] alone. *)
Fixpoint prog_avoids {X} (id : Z) (c : wheel_prog X) : Prop :=
  match c with
  | Ret _ | Throw _ => True
  | Schedule _ _ k => forall id', id' <> id -> prog_avoids id (k id')
  | Cancel id' k => id' <> id /\ prog_avoids id k
  | Reschedule id' _ _ k => id' <> id /\ prog_avoids id k
  end.

(** A history: ticks, and calls made between ticks. *)
Inductive wheel_event : Type :=
| EvTick
| EvCall (c : wheel_prog unit).

(** Runs a history; the result lists the ids fired by each tick. *)
Fixpoint run_events {X} (on_expire_ : X -> Z -> wheel_prog X) (evs : list wheel_event) (x : X) (w : TimingWheel)
    : outcome (list (list Z) * X * TimingWheel) :=
  match evs with
  | [] => Returns ([], x, w)
  | EvTick :: evs =>
      run (fired, x, w) <- tick on_expire_ x w;
      run (rest, x, w) <- run_events on_expire_ evs x w;
      Returns (fired :: rest, x, w)
  | EvCall c :: evs => run (_, w) <- run_prog c w; run_events on_expire_ evs x w
  end.

Definition event_ok (ev : wheel_event) : Prop := match ev with EvTick => True | EvCall c => prog_ok 0 c end.
Definition event_avoids (id : Z) (ev : wheel_event) : Prop := match ev with EvTick => True | EvCall c => prog_avoids id c end.

(** No registered entry is due at the current tick. *)
Definition none_due (w : TimingWheel) : Prop := forall p id d, live w p id d -> d <> current_tick_ w.

(** ** Linked-list lemmas *)

Lemma dllseg_app h prev l1 l2 nxt :
  dllseg h prev (l1 ++ l2) nxt <->
  dllseg h prev l1 (first_or l2 nxt) /\ dllseg h (match last l1 with Some q => Some q | None => prev end) l2 nxt.
Proof.
  revert prev. induction l1 as [|p l1 IH]; intros prev; [cbn; tauto|].
  cbn [dllseg app]. rewrite IH. destruct l1 as [|q l1]; [cbn; tauto|].
  change (last (p :: q :: l1)) with (last (q :: l1)). change (first_or ((q :: l1) ++ l2) nxt) with (Some q).
  destruct (last (q :: l1)) eqn:E; [|by apply last_None in E]. cbn [app]. tauto.
Qed.

(** Changes outside a segment, or that keep its links, keep it. *)
Lemma dllseg_frame h h' prev l nxt :
  (forall p, p ∈ l -> h' !! p = h !! p) -> dllseg h prev l nxt -> dllseg h' prev l nxt.
Proof.
  revert prev. induction l as [|p l IH]; intros prev Hf; [done|]. cbn. intros [(e & He & Hl) Hr]. split.
  - exists e. rewrite Hf by apply list_elem_of_here. done.
  - apply IH; [|done]. intros q Hq. apply Hf. by apply list_elem_of_further.
Qed.

Lemma dllseg_alloc h prev l nxt p : dllseg h prev l nxt -> p ∈ l -> is_Some (h !! p).
Proof.
  revert prev. induction l as [|q l IH]; intros prev; [set_solver|]. cbn. intros [(e & He & _) Hr] Hp.
  apply elem_of_cons in Hp as [->|Hp]; [by exists e|]. eapply IH; done.
Qed.

(** Redirecting the back link of the first entry. *)
Lemma dllseg_set_prev h prev prev' q l nxt e :
  NoDup (q :: l) -> h !! q = Some e -> dllseg h prev (q :: l) nxt ->
  dllseg (<[q := set_prev prev' e]> h) prev' (q :: l) nxt.
Proof.
  intros Hnd He. cbn. intros [(e' & He' & _ & Hn) Hr]. simplify_eq. split.
  - exists (set_prev prev' e). rewrite lookup_insert_eq. done.
  - eapply dllseg_frame; [|done]. intros p Hp. apply lookup_insert_ne. intros ->. by apply NoDup_cons_1_1 in Hnd.
Qed.

(** Redirecting the forward link of the last entry. *)
Lemma dllseg_set_next h prev l q nxt nxt' e :
  NoDup (l ++ [q]) -> h !! q = Some e -> dllseg h prev (l ++ [q]) nxt ->
  dllseg (<[q := set_next nxt' e]> h) prev (l ++ [q]) nxt'.
Proof.
  intros Hnd He. rewrite !dllseg_app. intros [H1 H2]. apply NoDup_app in Hnd as (_ & Hd & _). split.
  - eapply dllseg_frame; [|exact H1]. intros p Hp. apply lookup_insert_ne. intros ->. apply (Hd _ Hp), list_elem_of_here.
  - cbn in H2 |- *. destruct H2 as [(e' & He' & Hp & _) _]. simplify_eq. split; [|done].
    exists (set_next nxt' e). rewrite lookup_insert_eq. done.
Qed.

Lemma update_ok p f h e : h !! p = Some e -> update p f h = Returns (<[p := f e]> h).
Proof. intros E. unfold update, deref. by rewrite E. Qed.

Lemma data_at_links h p e e' q : h !! p = Some e -> edata e' = edata e -> data_at (<[p := e']> h) q = data_at h q.
Proof.
  intros He Hd. unfold data_at. destruct (decide (q = p)) as [->|]; [|by rewrite lookup_insert_ne].
  rewrite lookup_insert_eq, He. cbn. by rewrite Hd.
Qed.

Lemma data_at_ne h p e q : q <> p -> data_at (<[p := e]> h) q = data_at h q.
Proof. intros. unfold data_at. by rewrite lookup_insert_ne. Qed.

(** Writing a field that is not a link. *)
Lemma dllseg_data h prev l nxt p e f :
  h !! p = Some e -> e_next (f e) = e_next e -> e_prev (f e) = e_prev e ->
  dllseg h prev l nxt -> dllseg (<[p := f e]> h) prev l nxt.
Proof.
  intros He Hn Hp. revert prev. induction l as [|q l IH]; intros prev; [done|]. cbn. intros [(eq & Eq & Hl) Hr]. split; [|auto].
  destruct (decide (q = p)) as [->|]; [|exists eq; by rewrite lookup_insert_ne].
  exists (f e). rewrite lookup_insert_eq, Hn, Hp. by simplify_eq.
Qed.

Lemma slot_head_ok slots h n L i :
  links_ok slots h n L -> 0 <= i < n -> slot_head i slots = Returns (first_or (L i) None).
Proof. intros (_ & _ & Hs) Hi. unfold slot_head. by destruct (Hs i Hi) as [-> _]. Qed.

(** Replacing the list of slot [i], when the other lists are untouched. *)
Lemma links_ok_upd slots h n L i h' l :
  links_ok slots h n L -> 0 <= i < n -> NoDup l -> dllseg h' None l None ->
  (forall s p, 0 <= s < n -> s <> i -> p ∈ L s -> (p ∉ l) /\ h' !! p = h !! p) ->
  links_ok (<[Z.to_nat i := first_or l None]> slots) h' n (upd_slot L i l).
Proof.
  intros (Hn & Hd & Hs) Hi Hnd Hl Hf. split; [by rewrite len_insert|]. unfold upd_slot. split.
  - intros s s' p Hr Hr'. destruct (Z.eqb_spec s i), (Z.eqb_spec s' i); subst; [done| | |by apply Hd].
    + intros Hp Hp'. destruct (Hf s' p); done.
    + intros Hp Hp'. destruct (Hf s p); done.
  - intros s Hr. destruct (Z.eqb_spec s i) as [->|].
    + rewrite list_lookup_insert_eq by (unfold len in Hn; lia). done.
    + rewrite list_lookup_insert_ne by lia. destruct (Hs s Hr) as (E & Hnd' & Hl'). split_and!; [done..|].
      eapply dllseg_frame; [|done]. intros p Hp. by destruct (Hf s p).
Qed.

Lemma insert_entry_spec w L p i e :
  links_ok (slots_ w) (heap w) (num_slots_ w) L -> 0 <= i < num_slots_ w ->
  (forall s, 0 <= s < num_slots_ w -> p ∉ L s) -> heap w !! p = Some e ->
  exists s' h', insert_entry p i w = Returns (with_slots_heap s' h' w) /\
    links_ok s' h' (num_slots_ w) (upd_slot L i (p :: L i)) /\ (forall q, data_at h' q = data_at (heap w) q).
Proof.
  intros HL Hi Hp He. unfold insert_entry. rewrite (update_ok p _ _ e) by done. cbn [outcome_bind].
  rewrite (slot_head_ok _ _ _ _ _ HL Hi). cbn [outcome_bind].
  rewrite (update_ok p _ _ (set_prev None e)) by apply lookup_insert_eq. cbn [outcome_bind]. rewrite insert_insert_eq.
  pose proof HL as (_ & Hdis & Hs). destruct (Hs i Hi) as (_ & Hnd & Hl). pose proof (Hp i Hi) as Hpi.
  set (e' := set_next (first_or (L i) None) (set_prev None e)).
  assert (Hd1 : forall q, data_at (<[p := e']> (heap w)) q = data_at (heap w) q) by (intros; by apply (data_at_links _ _ e)).
  destruct (L i) as [|q l] eqn:EL; cbn [first_or] in *.
  - eexists _, _. split; [done|]. split; [|done]. apply (links_ok_upd _ (heap w) _ L i _ [p] HL Hi).
    + apply NoDup_singleton.
    + cbn. split; [|done]. exists e'. rewrite lookup_insert_eq. done.
    + intros s r Hr Hne Hrs. pose proof (Hp s Hr). split; [|apply lookup_insert_ne; congruence].
      intros ->%list_elem_of_singleton. done.
  - assert (Hqp : q <> p) by (intros ->; apply Hpi, list_elem_of_here).
    destruct (dllseg_alloc _ _ _ _ q Hl) as [eq Eq]; [apply list_elem_of_here|].
    rewrite (update_ok q _ _ eq) by (by rewrite lookup_insert_ne). cbn [outcome_bind].
    eexists _, _. split; [done|]. split.
    2:{ intros r. rewrite (data_at_links _ q eq); [apply Hd1|by rewrite lookup_insert_ne|done]. }
    apply (links_ok_upd _ (heap w) _ L i _ (p :: q :: l) HL Hi).
    + by constructor.
    + split; [exists e'; rewrite lookup_insert_ne, lookup_insert_eq by congruence; done|].
      apply (dllseg_set_prev _ None); [done|by rewrite lookup_insert_ne|].
      eapply dllseg_frame; [|done]. intros r Hr. apply lookup_insert_ne. congruence.
    + intros s r Hr Hne Hrs. pose proof (Hp s Hr).
      assert (r ∉ q :: l) by (intros ?; apply Hne; eapply Hdis; [..|rewrite EL]; done).
      assert (r <> p) by congruence. split; [intros [?|?]%elem_of_cons; done|].
      rewrite !lookup_insert_ne; [done|congruence|]. intros ->. by apply H0, list_elem_of_here.
Qed.

(** Unlinking: the two neighbours of [p] are joined. *)
Lemma unlink_next h prev l1 p nxt :
  NoDup l1 -> dllseg h prev l1 (Some p) ->
  match last l1 with
  | None => True
  | Some q => exists eq, h !! q = Some eq /\ q ∈ l1 /\ dllseg (<[q := set_next nxt eq]> h) prev l1 nxt
  end.
Proof.
  intros Hnd Hl. destruct (last l1) as [q|] eqn:E; [|done]. apply last_Some in E as [l' ->].
  destruct (dllseg_alloc _ _ _ _ q Hl) as [eq Eq]; [set_solver|]. exists eq. split_and!; [done|set_solver|].
  by eapply dllseg_set_next.
Qed.

Lemma unlink_pred w L p i l1 l2 e :
  links_ok (slots_ w) (heap w) (num_slots_ w) L -> 0 <= i < num_slots_ w -> L i = l1 ++ p :: l2 ->
  e_prev e = last l1 -> e_next e = first_or l2 None -> NoDup l1 -> dllseg (heap w) None l1 (Some p) ->
  exists h1,
    match e_prev e with
    | Some q => run h <- update q (set_next (e_next e)) (heap w); Returns (slots_ w, h)
    | None => run _ <- slot_head i (slots_ w); Returns (<[Z.to_nat i := e_next e]> (slots_ w), heap w)
    end = Returns (<[Z.to_nat i := first_or (l1 ++ l2) None]> (slots_ w), h1) /\
    dllseg h1 None l1 (first_or l2 None) /\ (forall q, q ∉ l1 -> h1 !! q = heap w !! q) /\
    (forall q, data_at h1 q = data_at (heap w) q).
Proof.
  intros HL Hi EL Hep Hen Hnd1 H1. pose proof HL as (_ & _ & Hs). destruct (Hs i Hi) as (Hsi & _ & _). rewrite EL in Hsi.
  pose proof (unlink_next _ _ l1 p (e_next e) Hnd1 H1) as Hu. rewrite Hep. destruct (last l1) as [q|] eqn:Elast.
  - destruct Hu as (eq & Eq & Hq & Hseg). rewrite (update_ok q _ _ eq) by done. cbn [outcome_bind].
    rewrite list_insert_id by (by destruct l1). eexists. split; [done|]. split_and!.
    + rewrite <- Hen. done.
    + intros r Hr. apply lookup_insert_ne. congruence.
    + intros r. by apply (data_at_links _ _ eq).
  - rewrite (slot_head_ok _ _ _ _ _ HL Hi). cbn [outcome_bind]. apply last_None in Elast as ->. rewrite Hen.
    eexists. split; [done|]. by split_and!.
Qed.

Lemma unlink_succ h p l2 prev nxt :
  NoDup l2 -> nxt = first_or l2 None -> dllseg h (Some p) l2 None ->
  exists h2,
    match nxt with Some r => update r (set_prev prev) h | None => Returns h end = Returns h2 /\
    dllseg h2 prev l2 None /\ (forall q, q ∉ l2 -> h2 !! q = h !! q) /\ (forall q, data_at h2 q = data_at h q).
Proof.
  intros Hnd -> Hl. destruct l2 as [|r l2]; [by exists h|]. cbn [first_or].
  destruct (dllseg_alloc _ _ _ _ r Hl) as [er Er]; [apply list_elem_of_here|].
  rewrite (update_ok r _ _ er) by done. eexists. split; [done|]. split_and!.
  - by eapply dllseg_set_prev.
  - intros q Hq. apply lookup_insert_ne. intros ->. by apply Hq, list_elem_of_here.
  - intros q. by apply (data_at_links _ _ er).
Qed.

Lemma remove_entry_spec w L p i l1 l2 :
  links_ok (slots_ w) (heap w) (num_slots_ w) L -> 0 <= i < num_slots_ w -> L i = l1 ++ p :: l2 ->
  exists s' h', remove_entry p i w = Returns (with_slots_heap s' h' w) /\
    links_ok s' h' (num_slots_ w) (upd_slot L i (l1 ++ l2)) /\ (forall q, data_at h' q = data_at (heap w) q).
Proof.
  intros HL Hi EL. pose proof HL as (Hn & Hdis & Hs). destruct (Hs i Hi) as (_ & Hnd & Hl). rewrite EL in Hnd, Hl.
  apply dllseg_app in Hl as [H1 H2]. cbn [first_or dllseg] in H1, H2. destruct H2 as [(e & He & Hep & Hen) H2].
  apply NoDup_app in Hnd as (Hnd1 & Hd12 & [Hp2 Hnd2]%NoDup_cons).
  assert (Hp1 : p ∉ l1) by (intros Hp; apply (Hd12 _ Hp), list_elem_of_here).
  assert (H12 : forall q, q ∈ l1 -> q ∉ l2) by (intros q Hq ?; apply (Hd12 _ Hq); by apply list_elem_of_further).
  destruct (unlink_pred w L p i l1 l2 e) as (h1 & E1 & Hl1 & Hf1 & Hdat1); [done|done|done|by destruct (last l1)|done|done|done|].
  assert (He1 : h1 !! p = Some e) by (rewrite Hf1; done).
  destruct (unlink_succ h1 p l2 (e_prev e) (e_next e)) as (h2 & E2 & Hl2 & Hf2 & Hdat2); [done..| |].
  { eapply dllseg_frame; [|exact H2]. intros q Hq. apply Hf1. intros ?. by eapply H12. }
  assert (He2 : h2 !! p = Some e) by (rewrite Hf2; done).
  unfold remove_entry. unfold deref at 1. rewrite He. cbn [outcome_bind]. rewrite E1. cbn [outcome_bind].
  unfold deref at 1. rewrite He1. cbn [outcome_bind]. rewrite E2. cbn [outcome_bind].
  rewrite (update_ok p _ _ e) by done. cbn [outcome_bind].
  rewrite (update_ok p _ _ (set_prev None e)) by apply lookup_insert_eq. cbn [outcome_bind]. rewrite insert_insert_eq.
  eexists _, _. split; [done|]. split.
  2:{ intros q. rewrite (data_at_links _ _ e); [|done|done]. by rewrite Hdat2, Hdat1. }
  apply (links_ok_upd _ (heap w) _ L i _ _ HL Hi).
  - by apply NoDup_app.
  - eapply (dllseg_frame h2); [intros q Hq; apply lookup_insert_ne; intros ->; by apply elem_of_app in Hq as []|].
    apply dllseg_app. split; [|rewrite <- Hep; by destruct (last l1)].
    eapply dllseg_frame; [|exact Hl1]. intros q Hq. apply Hf2. by apply H12.
  - intros s q Hr Hne Hq. assert (Hqi : q ∉ l1 ++ p :: l2) by (rewrite <- EL; intros ?; apply Hne; by eapply Hdis).
    rewrite elem_of_app, elem_of_cons in Hqi. rewrite elem_of_app. split; [tauto|].
    rewrite lookup_insert_ne by (intros ->; tauto). rewrite Hf2, Hf1 by tauto. done.
Qed.

(** ** Deadlines and slots *)

Section Window.
Context (w : TimingWheel) (L : Z -> list Z) (X : list (Z * Z)) (Hinv : inv w L X).

Lemma num_slots_pos : 0 < num_slots_ w <= 2 ^ 63.
Proof using Hinv.
  destruct (inv_pow2 _ _ _ Hinv) as (k & Hk & ->). pose proof (Z.pow_pos_nonneg 2 k). pose proof (Z.pow_le_mono_r 2 k 63). lia.
Qed.

Lemma slot_of d : Z.land d (mask_ w) = d mod num_slots_ w.
Proof using Hinv. rewrite (inv_mask _ _ _ Hinv). destruct (inv_pow2 _ _ _ Hinv) as (k & Hk & ->). apply land_mask. lia. Qed.

Lemma slot_range d : 0 <= d mod num_slots_ w < num_slots_ w.
Proof using Hinv. apply Z.mod_pos_bound. pose proof num_slots_pos. lia. Qed.

(** A deadline in the window that shares the slot of [now] is [now]. *)
Lemma same_slot_now d :
  in_width 64 d -> u64 (d - current_tick_ w) < num_slots_ w ->
  d mod num_slots_ w = current_tick_ w mod num_slots_ w -> d = current_tick_ w.
Proof using Hinv.
  intros Hd Hw Hm. pose proof (inv_tick _ _ _ Hinv) as Ht. pose proof num_slots_pos.
  assert (E : u64 (d - current_tick_ w) = 0).
  { rewrite <- (Z.mod_small _ (num_slots_ w)) by (split; [apply wrap_range; lia|done]).
    destruct (inv_pow2 _ _ _ Hinv) as (k & Hk & En). rewrite En in *. rewrite mod_wrap_pow2 by lia.
    rewrite Zminus_mod, Hm, Z.sub_diag. done. }
  unfold wrap, in_width in *. apply Z.mod_divide in E as [q Hq]; [|lia]. nia.
Qed.

Lemma compute_deadline_spec n :
  0 <= n < num_slots_ w ->
  in_width 64 (compute_deadline n w) /\ u64 (compute_deadline n w - current_tick_ w) = n.
Proof using Hinv.
  intros Hn. pose proof (inv_tick _ _ _ Hinv) as Ht. pose proof num_slots_pos. unfold compute_deadline.
  destruct (Z.eqb_spec n 0) as [->|]; [rewrite Z.sub_diag; done|]. split; [apply wrap_range; lia|].
  rewrite wrap_sub_l. replace (current_tick_ w + n - current_tick_ w) with n by lia. apply wrap_small. unfold in_width. lia.
Qed.

Lemma live_fun p id d p' d' : live w p id d -> live w p' id d' -> p = p' /\ d = d'.
Proof. intros (_ & E1 & D1) (_ & E2 & D2). rewrite E1 in E2. injection E2 as ->. rewrite D1 in D2. by injection D2 as ->. Qed.

Lemma live_ptr p id d id' d' : live w p id d -> live w p id' d' -> id = id' /\ d = d'.
Proof. intros (_ & _ & D1) (_ & _ & D2). rewrite D1 in D2. by injection D2 as -> ->. Qed.

Lemma live_alloc p id d : live w p id d -> exists e, heap w !! p = Some e /\ edata e = (id, d, false).
Proof. intros (_ & _ & D). unfold data_at in D. destruct (heap w !! p) as [e|]; [|done]. exists e. by apply (inj Some) in D. Qed.

Lemma live_slot p id d : live w p id d -> p ∈ L (d mod num_slots_ w).
Proof using Hinv. intros Hl. apply (inv_mem _ _ _ Hinv); [apply slot_range|]. by exists id, d. Qed.

(** What [live_entry] finds. *)
Lemma live_entry_spec i :
  0 <= i -> match live_entry i w with Some p => exists d, live w p i d | None => forall p d, ~ live w p i d end.
Proof using Hinv.
  intros Hi. unfold live_entry. destruct (Z.leb_spec (len (entries_ w)) i).
  - intros p d (_ & E & _). apply lookup_lt_Some in E. unfold len in *. lia.
  - destruct (entries_ w !! Z.to_nat i) as [[p|]|] eqn:E; cbn.
    + destruct (inv_ent _ _ _ Hinv _ _ E) as [d Hd]. exists d. by rewrite Z2Nat.id in Hd.
    + intros p d (_ & E' & _). congruence.
    + intros p d (_ & E' & _). congruence.
Qed.

Lemma timer_spec i d : 0 <= i -> (timer w i = Some d <-> exists p, live w p i d).
Proof using Hinv.
  intros Hi. unfold timer. pose proof (live_entry_spec i Hi) as Hl. destruct (live_entry i w) as [p|].
  - destruct Hl as [d' Hl]. pose proof (live_alloc _ _ _ Hl) as (e & He & Hd). rewrite He. cbn. unfold edata in Hd.
    injection Hd as _ Ed _. rewrite Ed. split; [intros [= <-]; by exists p|]. intros [p' Hl']. f_equal. eapply live_fun; done.
  - split; [done|]. intros [p Hp]. by destruct (Hl p d).
Qed.

End Window.

(** ** Entry ids *)

Definition is_live (v : option Z) : Z := match v with Some _ => 1 | None => 0 end.

Lemma live_count_insert es i v v' :
  es !! i = Some v -> live_count (<[i := v']> es) = live_count es - is_live v + is_live v'.
Proof.
  intros E. rewrite <- (take_drop_middle es i v E) at 2. rewrite insert_take_drop by (by eapply lookup_lt_Some).
  unfold live_count. rewrite !omap_app. cbn. destruct v, v'; cbn; rewrite !len_app, ?len_cons; lia.
Qed.

Lemma live_count_grow es n : live_count (es ++ replicate n None) = live_count es.
Proof.
  unfold live_count. rewrite omap_app, len_app. assert (E : omap id (replicate n (@None Z)) = []); [|rewrite E, len_nil; lia].
  induction n; [done|]. done.
Qed.

(** Changing the id tables without touching a live entry. *)
Lemma inv_with_ids w L X nx es fr :
  inv w L X ->
  (forall i p, es !! i = Some (Some p) <-> entries_ w !! i = Some (Some p)) ->
  (forall i, entries_ w !! i = Some None -> es !! i = Some None) ->
  NoDup fr -> (forall i, i ∈ fr -> 0 < i /\ es !! Z.to_nat i = Some None) ->
  (forall p i, (p, i) ∈ X -> i ∉ fr) ->
  1 <= nx -> len es <= nx -> live_count es = live_count (entries_ w) ->
  inv (with_ids nx es fr w) L X /\ (forall p i d, live (with_ids nx es fr w) p i d <-> live w p i d).
Proof.
  intros Hinv Hes Hnone Hnd Hfr HX Hnx Hlen Hc.
  assert (HL : forall p i d, live (with_ids nx es fr w) p i d <-> live w p i d) by (intros; unfold live; cbn; by rewrite Hes).
  split; [|done]. destruct Hinv. constructor; cbn; try done.
  - intros s p Hs. rewrite inv_mem0 by done. by setoid_rewrite HL.
  - intros i p Hi%Hes. destruct (inv_ent0 _ _ Hi) as [d Hd]. exists d. by apply HL.
  - intros p i d Hl%HL. by apply (inv_win0 p i).
  - congruence.
  - intros p i Hp. destruct (inv_exp0 p i Hp) as (? & ? & ? & ?). split_and!; eauto.
Qed.

Lemma take_id_spec w L X :
  inv w L X ->
  let '(i, w1) := take_id w in
  inv w1 L X /\ (forall p j d, live w1 p j d <-> live w p j d) /\
  0 < i /\ entries_ w1 !! Z.to_nat i = Some None /\ (i ∉ free_ids_ w1) /\ (i ∉ X.*2) /\
  exists nx es fr, w1 = with_ids nx es fr w.
Proof.
  intros Hinv. unfold take_id. pose proof (inv_ids _ _ _ Hinv) as [Hnx Hlen].
  pose proof (inv_free_nd _ _ _ Hinv) as Hnd. destruct (free_ids_ w) as [|i free] eqn:Ef.
  - destruct (Z.leb_spec (len (entries_ w)) (next_id_ w)); [|lia].
    set (es := entries_ w ++ replicate _ None).
    assert (Hle : len es = next_id_ w + 1) by (unfold es; rewrite len_app, len_replicate; lia).
    assert (Hl : forall i v, es !! i = Some v <-> entries_ w !! i = Some v \/ ((length (entries_ w) <= i < length es)%nat /\ v = None)).
    { intros i v. unfold es. rewrite lookup_app_Some, lookup_replicate, length_app, length_replicate.
      split; [intros [?|(? & -> & ?)]|intros [?|[? ->]]]; try (by left); right; split_and!; (done || lia). }
    destruct (inv_with_ids w L X (next_id_ w + 1) es [] Hinv) as [Hi Hlv].
    + intros i p. rewrite Hl. split; [by intros [?|[_ ?]]|by left].
    + intros i Hi. apply Hl. by left.
    + constructor.
    + intros i Hi. by apply not_elem_of_nil in Hi.
    + intros p i _. apply not_elem_of_nil.
    + lia.
    + lia.
    + apply live_count_grow.
    + split_and!; [done|done|lia| |apply not_elem_of_nil| |by eexists _, _, _].
      * cbn. apply Hl. right. unfold len in *. split; [lia|done].
      * intros ([p j] & Hj & HX)%list_elem_of_fmap. cbn in Hj. subst j.
        destruct (inv_exp _ _ _ Hinv _ _ HX) as (_ & E & _). apply lookup_lt_Some in E. unfold len in *. lia.
  - apply NoDup_cons in Hnd as [Hni Hnd]. pose proof (inv_free _ _ _ Hinv) as Hfree. rewrite Ef in Hfree.
    destruct (Hfree i) as [Hi0 Hie]; [apply list_elem_of_here|].
    destruct (inv_with_ids w L X (next_id_ w) (entries_ w) free Hinv) as [Hi Hlv]; try done.
    + intros j Hj. apply Hfree. by apply list_elem_of_further.
    + intros p j Hj. destruct (inv_exp _ _ _ Hinv _ _ Hj) as (_ & _ & Hn & _). rewrite Ef in Hn.
      intros ?. by apply Hn, list_elem_of_further.
    + split_and!; try done; [|by eexists _, _, _].
      intros ([p j] & Hj & HX)%list_elem_of_fmap. cbn in Hj. subst j.
      destruct (inv_exp _ _ _ Hinv _ _ HX) as (_ & _ & Hn & _). rewrite Ef in Hn. by apply Hn, list_elem_of_here.
Qed.

(** ** Scheduling *)

(** Registering a fresh entry under an unused id. *)
Lemma inv_register w L X p i d slots h :
  inv w L X -> heap w !! p = None -> p < heap_next w + 1 ->
  0 < i -> entries_ w !! Z.to_nat i = Some None -> i ∉ free_ids_ w -> i ∉ X.*2 ->
  in_width 64 d -> u64 (d - current_tick_ w) < num_slots_ w ->
  links_ok slots h (num_slots_ w) (upd_slot L (d mod num_slots_ w) (p :: L (d mod num_slots_ w))) ->
  (forall q, data_at h q = if decide (q = p) then Some (i, d, false) else data_at (heap w) q) ->
  let w' := mkTimingWheel slots (num_slots_ w) (mask_ w) (current_tick_ w) (next_id_ w) (<[Z.to_nat i := Some p]> (entries_ w))
              (free_ids_ w) (active_count_ w + 1) h (heap_next w + 1) in
  inv w' (upd_slot L (d mod num_slots_ w) (p :: L (d mod num_slots_ w))) X /\
  (forall q j d', live w' q j d' <-> (q = p /\ j = i /\ d' = d) \/ live w q j d').
Proof.
  intros Hinv Hp Hpn Hi Hei Hif HiX Hd Hwin Hlinks Hdata w'. pose proof (slot_range _ _ _ Hinv) as Hsr.
  assert (Hlt : (Z.to_nat i < length (entries_ w))%nat) by (by eapply lookup_lt_Some).
  assert (HL : forall q j d', live w' q j d' <-> (q = p /\ j = i /\ d' = d) \/ live w q j d').
  { intros q j d'. unfold live; cbn. rewrite Hdata. destruct (decide (j = i)) as [->|Hne].
    - rewrite list_lookup_insert_eq by done. destruct (decide (q = p)) as [->|]; [naive_solver|]. rewrite Hei. naive_solver.
    - split.
      + intros (Hj & E & D). rewrite list_lookup_insert_ne in E by lia. right. destruct (decide (q = p)); [congruence|done].
      + intros [(_ & ? & _)|(Hj & E & D)]; [done|]. rewrite list_lookup_insert_ne by lia.
        destruct (decide (q = p)) as [->|]; [|done]. unfold data_at in D. by rewrite Hp in D. }
  split; [|done]. destruct Hinv. constructor; cbn; try done.
  - intros s q Hs. unfold upd_slot. setoid_rewrite HL. destruct (Z.eqb_spec s (d mod num_slots_ w)) as [->|].
    + rewrite elem_of_cons, inv_mem0 by done. naive_solver.
    + rewrite inv_mem0 by done. naive_solver.
  - intros j q. destruct (decide (j = Z.to_nat i)) as [->|].
    + rewrite list_lookup_insert_eq by done. intros [= <-]. exists d. apply HL. left. rewrite Z2Nat.id by lia. done.
    + rewrite list_lookup_insert_ne by done. intros Hj. destruct (inv_ent0 _ _ Hj) as [d' Hd']. exists d'. apply HL. by right.
  - intros q j d' [(-> & -> & ->)|Hl]%HL; [done|]. by apply (inv_win0 q j).
  - intros j Hj. destruct (inv_free0 j Hj). rewrite list_lookup_insert_ne; [done|]. intros E.
    apply Hif. replace i with j by lia. done.
  - by rewrite len_insert.
  - rewrite (live_count_insert _ _ None) by done. cbn. lia.
  - intros q [e He]. destruct (decide (q = p)) as [->|Hne]; [lia|].
    assert (is_Some (heap w !! q)) as Hq; [|apply inv_heap0 in Hq; lia].
    specialize (Hdata q). rewrite decide_False in Hdata by done. unfold data_at in Hdata. rewrite He in Hdata.
    destruct (heap w !! q); [done|]. done.
  - intros q j HX. destruct (inv_exp0 q j HX) as (? & ? & ? & d' & D). split_and!; [done| |done|].
    + rewrite list_lookup_insert_ne; [done|]. intros E. apply HiX. replace i with j by lia. by apply (list_elem_of_fmap_2 snd _ (q, j)).
    + exists d'. rewrite Hdata. destruct (decide (q = p)) as [->|]; [|done]. unfold data_at in D. by rewrite Hp in D.
Qed.

Lemma schedule_spec w L X n :
  inv w L X -> 0 <= n ->
  if num_slots_ w <=? n then schedule n w = Throws out_of_range
  else exists i w' L', schedule n w = Returns (i, w') /\ inv w' L' X /\ 0 < i /\ (forall p d, ~ live w p i d) /\
    current_tick_ w' = current_tick_ w /\ num_slots_ w' = num_slots_ w /\
    (forall q j d, live w' q j d <-> (q = heap_next w /\ j = i /\ d = compute_deadline n w) \/ live w q j d).
Proof.
  intros Hinv Hn. unfold schedule. destruct (Z.leb_spec (num_slots_ w) n); [done|].
  pose proof (take_id_spec w L X Hinv) as Hid. destruct (take_id w) as [i w1].
  destruct Hid as (Hinv1 & Hl1 & Hi & Hei & Hif & HiX & nx & es & fr & ->). cbn [heap_next slots_ num_slots_ mask_ current_tick_ next_id_ entries_ free_ids_ active_count_ heap with_ids] in *.
  set (p := heap_next w). set (d := compute_deadline n (with_ids nx es fr w)).
  destruct (compute_deadline_spec _ _ _ Hinv1 n) as [Hd Hdn]; [cbn; lia|]. fold d in Hd, Hdn.
  pose proof (slot_of _ _ _ Hinv1 d) as Hslot. cbn [mask_ num_slots_ with_ids] in Hslot. rewrite Hslot.
  assert (Hp : heap w !! p = None).
  { destruct (heap w !! p) eqn:E; [|done]. pose proof (inv_heap _ _ _ Hinv p ltac:(by eexists)). unfold p in *. lia. }
  match goal with |- context [insert_entry p _ ?v] => set (w2 := v) end.
  assert (Hlink2 : links_ok (slots_ w2) (heap w2) (num_slots_ w2) L).
  { destruct (inv_links _ _ _ Hinv) as (Hn' & Hdis & Hs). split_and!; [done..|]. intros s Hr. destruct (Hs s Hr) as (? & ? & Hseg).
    split_and!; [done..|]. eapply dllseg_frame; [|exact Hseg]. intros q Hq. apply lookup_insert_ne. intros <-.
    apply (dllseg_alloc _ _ _ _ _ Hseg) in Hq as [e He]. congruence. }
  destruct (insert_entry_spec w2 L p (d mod num_slots_ w) (mkEntry i d false None None)) as (s' & h' & E & Hl' & Hdat).
  - done.
  - apply (slot_range _ _ _ Hinv).
  - intros s Hr Hps. destruct (inv_links _ _ _ Hinv) as (_ & _ & Hs). destruct (Hs s Hr) as (_ & _ & Hseg).
    apply (dllseg_alloc _ _ _ _ _ Hseg) in Hps as [e He]. congruence.
  - apply lookup_insert_eq.
  - rewrite E. cbn [outcome_bind]. unfold set_entry; cbn. destruct (Z.ltb_spec i (len es)) as [_|Hge].
    2:{ apply lookup_lt_Some in Hei. unfold len in *. lia. }
    destruct (inv_register (with_ids nx es fr w) L X p i d s' h') as [Hinv' HL']; try done.
    + cbn. unfold p. lia.
    + cbn in Hdn |- *. lia.
    + intros q. rewrite Hdat. unfold w2, data_at; cbn. destruct (decide (q = p)) as [->|]; [by rewrite lookup_insert_eq|by rewrite lookup_insert_ne].
    + eexists i, _, _. split; [done|]. split; [exact Hinv'|]. split_and!; [done| |done..|].
      * intros q d' Hlq%Hl1. destruct Hlq as (_ & Eq & _). cbn in Eq. congruence.
      * intros q j d'. rewrite <- (Hl1 q j d'). apply HL'.
Qed.

(** ** Cancelling and rescheduling *)

(** Where a live entry sits. *)
Lemma live_split w L X p i d :
  inv w L X -> live w p i d ->
  exists l1 l2, L (d mod num_slots_ w) = l1 ++ p :: l2 /\ p ∉ l1 ++ l2.
Proof.
  intros Hinv Hl. pose proof (live_slot _ _ _ Hinv _ _ _ Hl) as Hp. apply list_elem_of_split in Hp as (l1 & l2 & E).
  exists l1, l2. split; [done|]. destruct (inv_links _ _ _ Hinv) as (_ & _ & Hs).
  destruct (Hs _ (slot_range _ _ _ Hinv d)) as (_ & Hnd & _). rewrite E in Hnd. apply NoDup_app in Hnd as (_ & Hd & [? _]%NoDup_cons).
  intros [Hp|?]%elem_of_app; [|done]. by apply (Hd _ Hp), list_elem_of_here.
Qed.

(** Membership after [p] left its slot. *)
Lemma mem_without w L X p i d l1 l2 s q :
  inv w L X -> live w p i d -> L (d mod num_slots_ w) = l1 ++ p :: l2 -> p ∉ l1 ++ l2 -> 0 <= s < num_slots_ w ->
  q ∈ upd_slot L (d mod num_slots_ w) (l1 ++ l2) s <-> exists j d', live w q j d' /\ d' mod num_slots_ w = s /\ q <> p.
Proof.
  intros Hinv Hl E Hp Hs. unfold upd_slot.
  assert (Hq : q ∈ (if s =? d mod num_slots_ w then l1 ++ l2 else L s) <-> q ∈ L s /\ q <> p).
  { destruct (Z.eqb_spec s (d mod num_slots_ w)) as [->|Hne].
    - rewrite E, !elem_of_app, elem_of_cons. rewrite elem_of_app in Hp. split; [|tauto].
      intros Hq. split; [tauto|]. intros ->. tauto.
    - split; [|tauto]. intros Hq. split; [done|]. intros ->. apply (inv_mem _ _ _ Hinv) in Hq as (j & d' & Hl' & Hd'); [|done].
      destruct (live_ptr _ _ _ _ _ _ Hl Hl') as [_ ->]. done. }
  rewrite Hq, (inv_mem _ _ _ Hinv) by done. split.
  - intros [(j & d' & ? & ?) ?]. by exists j, d'.
  - intros (j & d' & ? & ? & ?). split; [by exists j, d'|done].
Qed.

(** Forgetting a live entry and recycling its id. *)
Lemma inv_cancel w L X p i d l1 l2 slots h :
  inv w L X -> live w p i d -> L (d mod num_slots_ w) = l1 ++ p :: l2 -> p ∉ l1 ++ l2 ->
  links_ok slots h (num_slots_ w) (upd_slot L (d mod num_slots_ w) (l1 ++ l2)) ->
  h !! p = None -> (forall q, q <> p -> data_at h q = data_at (heap w) q) ->
  let w' := mkTimingWheel slots (num_slots_ w) (mask_ w) (current_tick_ w) (next_id_ w) (<[Z.to_nat i := None]> (entries_ w))
              (i :: free_ids_ w) (active_count_ w - 1) h (heap_next w) in
  inv w' (upd_slot L (d mod num_slots_ w) (l1 ++ l2)) X /\ (forall q j d', live w' q j d' <-> live w q j d' /\ j <> i).
Proof.
  intros Hinv Hl E Hp Hlinks Hh Hdata w'. destruct Hl as (Hi & Hei & Hdp). assert (Hl : live w p i d) by done.
  assert (Hlt : (Z.to_nat i < length (entries_ w))%nat) by (by eapply lookup_lt_Some).
  assert (Hdat' : forall q j d', data_at h q = Some (j, d', false) -> q <> p /\ data_at (heap w) q = Some (j, d', false)).
  { intros q j d' D. destruct (decide (q = p)) as [->|]; [unfold data_at in D; by rewrite Hh in D|]. by rewrite <- Hdata. }
  assert (HL : forall q j d', live w' q j d' <-> live w q j d' /\ j <> i).
  { intros q j d'. split.
    - intros (Hj & Ej & D). destruct (Hdat' _ _ _ D) as [Hq D']. cbn in Ej. destruct (decide (j = i)) as [->|].
      + by rewrite list_lookup_insert_eq in Ej.
      + rewrite list_lookup_insert_ne in Ej by lia. done.
    - intros [(Hj & Ej & D) Hne]. split_and!; [done| |]; cbn.
      + rewrite list_lookup_insert_ne by lia. done.
      + rewrite Hdata; [done|]. intros ->. congruence. }
  split; [|done]. pose proof (mem_without w L X p i d l1 l2) as Hmem. pose proof Hinv as Hinv0. destruct Hinv. constructor; cbn; try done.
  - intros s q Hs. rewrite Hmem by done. setoid_rewrite HL. split.
    + intros (j & d' & Hl' & ? & Hq). exists j, d'. split_and!; [done| |done]. intros ->. by destruct (live_fun _ _ _ _ _ _ Hl Hl').
    + intros (j & d' & [Hl' Hj] & ?). exists j, d'. split_and!; [done..|]. intros ->. by destruct (live_ptr _ _ _ _ _ _ Hl Hl').
  - intros j q. destruct (decide (j = Z.to_nat i)) as [->|]; [by rewrite list_lookup_insert_eq|].
    rewrite list_lookup_insert_ne by done. intros Hj. destruct (inv_ent0 _ _ Hj) as [d' Hd']. exists d'. apply HL. split; [done|lia].
  - intros q j d' [Hl' _]%HL. by apply (inv_win0 q j).
  - constructor; [|done]. intros Hin. destruct (inv_free0 i Hin). congruence.
  - intros j [->|Hj]%elem_of_cons; [rewrite list_lookup_insert_eq by done; split; [lia|done]|].
    destruct (inv_free0 j Hj) as [? Hej]. split; [done|]. rewrite list_lookup_insert_ne; [done|]. intros E'. by rewrite <- E', Hei in Hej.
  - by rewrite len_insert.
  - rewrite (live_count_insert _ _ (Some p)) by done. cbn. lia.
  - intros q [e He]. apply inv_heap0. destruct (decide (q = p)) as [->|Hne]; [congruence|].
    specialize (Hdata q Hne). unfold data_at in Hdata. rewrite He in Hdata. destruct (heap w !! q); [done|]. done.
  - intros q j HX. destruct (inv_exp0 q j HX) as (? & Ej & ? & d' & D). split_and!; [done| | |].
    + rewrite list_lookup_insert_ne; [done|]. intros E'. by rewrite <- E', Hei in Ej.
    + intros [->|?]%elem_of_cons; [congruence|done].
    + exists d'. rewrite Hdata; [done|]. intros ->. rewrite Hdp in D. injection D as -> _. congruence.
Qed.

Lemma cancel_spec w L X i :
  inv w L X -> 0 <= i ->
  exists w' L', cancel i w = Returns w' /\ inv w' L' X /\ current_tick_ w' = current_tick_ w /\ num_slots_ w' = num_slots_ w /\
    (forall q j d, live w' q j d <-> live w q j d /\ j <> i).
Proof.
  intros Hinv Hi. unfold cancel. pose proof (live_entry_spec _ _ _ Hinv i Hi) as Hle.
  destruct (live_entry i w) as [p|].
  2:{ exists w, L. split_and!; try done. intros q j d. split; [|tauto]. intros Hl. split; [done|]. intros ->. by apply Hle in Hl. }
  destruct Hle as [d Hl]. destruct (live_alloc _ _ _ _ Hl) as (e & He & Hed). injection Hed as <- <- Hec.
  unfold deref at 1. rewrite He. cbn [outcome_bind]. rewrite Hec.
  rewrite (update_ok p _ _ e) by done. cbn [outcome_bind]. cbn [mask_ with_heap with_slots_heap].
  rewrite (slot_of _ _ _ Hinv). destruct (live_split _ _ _ _ _ _ Hinv Hl) as (l1 & l2 & E & Hp).
  set (h1 := <[p := set_cancelled true e]> (heap w)).
  assert (Hlk1 : links_ok (slots_ (with_heap h1 w)) (heap (with_heap h1 w)) (num_slots_ (with_heap h1 w)) L).
  { destruct (inv_links _ _ _ Hinv) as (? & ? & Hs). split_and!; [done..|]. intros s Hr. destruct (Hs s Hr) as (? & ? & Hseg).
    split_and!; [done..|]. cbn. unfold h1. by apply dllseg_data. }
  destruct (remove_entry_spec (with_heap h1 w) L p _ l1 l2 Hlk1 (slot_range _ _ _ Hinv (deadline_tick e)) E) as (s' & h' & -> & Hlk & Hdat).
  cbn [outcome_bind]. unfold set_entry; cbn.
  destruct Hl as (Hi0 & Hei & Hdp). destruct (Z.ltb_spec (e_id e) (len (entries_ w))).
  2:{ apply lookup_lt_Some in Hei. unfold len in *. lia. }
  cbn [outcome_bind]. eexists _, _. split; [done|].
  edestruct (inv_cancel w L X p (e_id e) (deadline_tick e) l1 l2 s' (delete p h') Hinv) as [Hinv' HL']; try done.
  - destruct Hlk as (? & Hdis & Hs). split_and!; [done..|]. intros s Hr. destruct (Hs s Hr) as (? & ? & Hseg). split_and!; [done..|].
    eapply dllseg_frame; [|exact Hseg]. intros q Hq. apply lookup_delete_ne. intros <-. cbn in Hr.
    apply (mem_without w L X p (e_id e) (deadline_tick e) l1 l2) in Hq as (? & ? & ? & ? & ?); done.
  - apply lookup_delete_eq.
  - intros q Hq. unfold data_at at 1. rewrite lookup_delete_ne by done. rewrite <- (data_at_ne (heap w) p (set_cancelled true e) q) by done. apply Hdat.
Qed.

(** Moving a live entry to another deadline. *)
Lemma inv_move w L X p i d dn l1 l2 slots h :
  inv w L X -> live w p i d -> L (d mod num_slots_ w) = l1 ++ p :: l2 -> p ∉ l1 ++ l2 ->
  in_width 64 dn -> u64 (dn - current_tick_ w) < num_slots_ w ->
  let L1 := upd_slot L (d mod num_slots_ w) (l1 ++ l2) in
  let L2 := upd_slot L1 (dn mod num_slots_ w) (p :: L1 (dn mod num_slots_ w)) in
  links_ok slots h (num_slots_ w) L2 ->
  (forall q, data_at h q = if decide (q = p) then Some (i, dn, false) else data_at (heap w) q) ->
  let w' := with_slots_heap slots h w in
  inv w' L2 X /\ (forall q j d', live w' q j d' <-> (q = p /\ j = i /\ d' = dn) \/ (live w q j d' /\ j <> i)).
Proof.
  intros Hinv Hl E Hp Hdn Hwin L1 L2 Hlinks Hdata w'. destruct Hl as (Hi & Hei & Hdp). assert (Hl : live w p i d) by done.
  assert (HL : forall q j d', live w' q j d' <-> (q = p /\ j = i /\ d' = dn) \/ (live w q j d' /\ j <> i)).
  { intros q j d'. unfold live, w'; cbn. rewrite Hdata. destruct (decide (q = p)) as [->|Hq].
    - split; [intros (? & ? & [= -> ->]); by left|]. intros [(_ & -> & ->)|[(_ & _ & D) Hne]]; [done|].
      rewrite Hdp in D. by injection D.
    - split; [|intros [(? & _)|[? _]]; done]. intros (Hj & Ej & D). right. split_and!; [done..|]. intros ->. congruence. }
  split; [|done]. pose proof (mem_without w L X p i d l1 l2) as Hmem. pose proof Hinv as Hinv0. destruct Hinv. constructor; cbn; try done.
  - intros s q Hs. setoid_rewrite HL.
    assert (HL2 : q ∈ L2 s <-> (q = p /\ s = dn mod num_slots_ w) \/ q ∈ L1 s).
    { unfold L2. unfold upd_slot at 1. destruct (Z.eqb_spec s (dn mod num_slots_ w)) as [->|]; [rewrite elem_of_cons|]; tauto. }
    rewrite HL2. unfold L1. rewrite Hmem by done. split.
    + intros [[-> ->]|(j & d' & Hl' & ? & Hq)]; [exists i, dn; auto|]. exists j, d'. split; [right; split; [done|]|done].
      intros ->. by destruct (live_fun _ _ _ _ _ _ Hl Hl').
    + intros (j & d' & [(-> & -> & ->)|[Hl' Hj]] & Hd'); [by left|]. right. exists j, d'. split_and!; [done..|]. intros ->.
      by destruct (live_ptr _ _ _ _ _ _ Hl Hl').
  - intros j q Hj. destruct (inv_ent0 _ _ Hj) as [d' Hd']. destruct (decide (Z.of_nat j = i)) as [Ej|].
    + exists dn. apply HL. left. rewrite Ej in Hd'. by destruct (live_fun _ _ _ _ _ _ Hl Hd').
    + exists d'. apply HL. by right.
  - intros q j d' [(-> & -> & ->)|[Hl' _]]%HL; [done|]. by apply (inv_win0 q j).
  - intros q [e He]. apply inv_heap0. specialize (Hdata q). unfold data_at in Hdata. rewrite He in Hdata. cbn in Hdata.
    destruct (decide (q = p)) as [->|]; [|by destruct (heap w !! q)]. destruct (live_alloc _ _ _ _ Hl) as (e' & He' & _). by eexists.
  - intros q j HX. destruct (inv_exp0 q j HX) as (? & Ej & ? & d' & D). split_and!; [done..|].
    exists d'. rewrite Hdata. destruct (decide (q = p)) as [->|]; [|done]. rewrite Hdp in D. injection D as -> _. congruence.
Qed.

Lemma reschedule_spec w L X i n :
  inv w L X -> 0 <= i -> 0 <= n ->
  if num_slots_ w <=? n then reschedule i n w = Throws out_of_range
  else exists w' L', reschedule i n w = Returns w' /\ inv w' L' X /\ current_tick_ w' = current_tick_ w /\
    num_slots_ w' = num_slots_ w /\
    (forall q j d, live w' q j d <->
       (j = i /\ d = compute_deadline n w /\ (exists d0, live w q i d0)) \/ (live w q j d /\ j <> i)).
Proof.
  intros Hinv Hi Hn. unfold reschedule. destruct (Z.leb_spec (num_slots_ w) n); [done|].
  pose proof (live_entry_spec _ _ _ Hinv i Hi) as Hle. destruct (live_entry i w) as [p|].
  2:{ exists w, L. split_and!; try done. intros q j d. split.
      - intros Hl. right. split; [done|]. intros ->. by apply Hle in Hl.
      - intros [(-> & _ & d0 & Hl)|[? _]]; [by apply Hle in Hl|done]. }
  destruct Hle as [d Hl]. destruct (live_alloc _ _ _ _ Hl) as (e & He & Hed). injection Hed as <- <- Hec.
  unfold deref at 1. rewrite He. cbn [outcome_bind]. rewrite Hec.
  rewrite (slot_of _ _ _ Hinv). destruct (live_split _ _ _ _ _ _ Hinv Hl) as (l1 & l2 & E & Hp).
  destruct (remove_entry_spec w L p _ l1 l2 (inv_links _ _ _ Hinv) (slot_range _ _ _ Hinv (deadline_tick e)) E) as (s1 & h1 & -> & Hlk1 & Hdat1).
  cbn [outcome_bind]. set (L1 := upd_slot L (deadline_tick e mod num_slots_ w) (l1 ++ l2)) in *.
  change (compute_deadline n (with_slots_heap s1 h1 w)) with (compute_deadline n w). set (dn := compute_deadline n w).
  destruct (compute_deadline_spec _ _ _ Hinv n) as [Hdn Hw]; [lia|]. fold dn in Hdn, Hw.
  assert (exists e1, h1 !! p = Some e1 /\ edata e1 = edata e) as (e1 & He1 & Hed1).
  { specialize (Hdat1 p). unfold data_at in Hdat1. rewrite He in Hdat1. destruct (h1 !! p) as [e1|]; [|done].
    exists e1. by apply (inj Some) in Hdat1. }
  cbn [heap with_slots_heap]. rewrite (update_ok p _ _ e1) by done. cbn [outcome_bind mask_ with_slots_heap].
  rewrite (slot_of _ _ _ Hinv). set (w2 := with_heap _ _).
  destruct (insert_entry_spec w2 L1 p (dn mod num_slots_ w) (set_deadline dn e1)) as (s2 & h2 & -> & Hlk2 & Hdat2).
  - destruct Hlk1 as (? & ? & Hs). split_and!; [done..|]. intros s Hr. destruct (Hs s Hr) as (? & ? & Hseg).
    split_and!; [done..|]. cbn. by apply dllseg_data.
  - apply (slot_range _ _ _ Hinv).
  - intros s Hr Hps. apply (mem_without w L X p (e_id e) (deadline_tick e) l1 l2) in Hps as (? & ? & ? & ? & ?); done.
  - apply lookup_insert_eq.
  - destruct (inv_move w L X p (e_id e) (deadline_tick e) dn l1 l2 s2 h2 Hinv) as [Hinv' HL']; try done.
    + lia.
    + intros q. rewrite Hdat2. unfold w2; cbn. destruct (decide (q = p)) as [->|].
      * unfold data_at. rewrite lookup_insert_eq. cbn. unfold edata in *. cbn. by injection Hed1 as -> _ ->; rewrite Hec.
      * rewrite data_at_ne by done. apply Hdat1.
    + eexists _, _. split; [done|]. split; [exact Hinv'|]. split_and!; [done..|]. intros q j d. etrans; [apply HL'|]. split.
      * intros [(-> & -> & ->)|?]; [left|by right]. split_and!; [done..|]. by eexists.
      * intros [(-> & -> & d0 & Hl0)|?]; [left|by right]. by destruct (live_fun _ _ _ _ _ _ Hl Hl0) as [-> _].
Qed.

(** ** Callbacks *)

Lemma deadline_ahead w L X n : inv w L X -> 1 <= n < num_slots_ w -> compute_deadline n w <> current_tick_ w.
Proof.
  intros Hinv Hn E. destruct (compute_deadline_spec _ _ _ Hinv n) as [_ Hd]; [lia|]. rewrite E, Z.sub_diag in Hd.
  change (u64 0) with 0 in Hd. lia.
Qed.

(** A program never faults, keeps the invariant and the entries it leaves alone. *)
Lemma run_prog_spec {X} lo (c : wheel_prog X) w L E :
  0 <= lo -> inv w L E -> prog_ok lo c ->
  exists x w' L', run_prog c w = Returns (x, w') /\ inv w' L' E /\ current_tick_ w' = current_tick_ w /\
    num_slots_ w' = num_slots_ w /\ (1 <= lo -> none_due w -> none_due w') /\
    (forall i p d, prog_avoids i c -> live w p i d -> live w' p i d).
Proof.
  intros Hlo. revert w L. induction c as [x|x|n x k IH|i k IH|i n x k IH]; intros w L Hinv Hok; cbn in Hok; cbn [run_prog].
  - eexists _, w, L. by split_and!.
  - eexists _, w, L. by split_and!.
  - destruct Hok as [Hn Hk]. pose proof (schedule_spec w L E n Hinv ltac:(lia)) as Hs.
    destruct (Z.leb_spec (num_slots_ w) n); [rewrite Hs; eexists _, w, L; by split_and!|].
    destruct Hs as (i & w1 & L1 & -> & Hinv1 & Hi & Hfresh & Ht & Hns & Hl).
    destruct (IH i w1 L1 Hinv1 (Hk i Hi)) as (x' & w2 & L2 & -> & Hinv2 & Ht2 & Hns2 & Hnd & Hav).
    eexists _, w2, L2. split_and!; [done..|congruence|congruence| |].
    + intros H1 Hn0. apply Hnd; [done|]. intros p j d [(-> & -> & ->)|Hl']%Hl; rewrite Ht; [|by eapply Hn0].
      eapply deadline_ahead; [done|lia].
    + intros j p d Ha Hlj. apply Hav; [|apply Hl; by right]. apply Ha. intros ->. by apply Hfresh in Hlj.
  - destruct Hok as [Hi Hk]. destruct (cancel_spec w L E i Hinv Hi) as (w1 & L1 & -> & Hinv1 & Ht & Hns & Hl). cbn [outcome_bind].
    destruct (IH w1 L1 Hinv1 Hk) as (x' & w2 & L2 & -> & Hinv2 & Ht2 & Hns2 & Hnd & Hav).
    eexists _, w2, L2. split_and!; [done..|congruence|congruence| |].
    + intros H1 Hn0. apply Hnd; [done|]. intros p j d [Hl' _]%Hl. rewrite Ht. by eapply Hn0.
    + intros j p d [Hne Ha] Hlj. apply Hav; [done|]. by apply Hl.
  - destruct Hok as (Hi & Hn & Hk). pose proof (reschedule_spec w L E i n Hinv Hi ltac:(lia)) as Hs.
    destruct (Z.leb_spec (num_slots_ w) n); [rewrite Hs; eexists _, w, L; by split_and!|].
    destruct Hs as (w1 & L1 & -> & Hinv1 & Ht & Hns & Hl).
    destruct (IH w1 L1 Hinv1 Hk) as (x' & w2 & L2 & -> & Hinv2 & Ht2 & Hns2 & Hnd & Hav).
    eexists _, w2, L2. split_and!; [done..|congruence|congruence| |].
    + intros H1 Hn0. apply Hnd; [done|]. intros p j d [(-> & -> & _)|[Hl' _]]%Hl; rewrite Ht; [|by eapply Hn0].
      eapply deadline_ahead; [done|lia].
    + intros j p d [Hne Ha] Hlj. apply Hav; [done|]. apply Hl. by right.
Qed.

(** ** The phases of a tick *)

Lemma collect_spec fuel h now prev l :
  dllseg h prev l None -> (length l <= fuel)%nat ->
  (forall p, p ∈ l -> exists i, data_at h p = Some (i, now, false)) ->
  collect fuel h now (first_or l None) = Returns l.
Proof.
  revert prev l. induction fuel as [|fuel IH]; intros prev l Hl Hf Hd; (destruct l as [|p l]; [done|]); [cbn in Hf; lia|].
  cbn [dllseg] in Hl. destruct Hl as [(e & He & _ & Hn) Hr]. cbn [collect first_or]. unfold deref. rewrite He. cbn [outcome_bind].
  fold (first_or l None) in Hn. rewrite Hn. rewrite (IH (Some p) l Hr) by (cbn in Hf; lia || (intros q Hq; apply Hd; by apply list_elem_of_further)).
  cbn [outcome_bind]. destruct (Hd p) as [i Hi]; [apply list_elem_of_here|]. unfold data_at in Hi. rewrite He in Hi. cbn in Hi.
  injection Hi as _ -> ->. by rewrite Z.eqb_refl.
Qed.

Lemma links_ok_ext slots h n L L' : (forall s, L s = L' s) -> links_ok slots h n L -> links_ok slots h n L'.
Proof. intros E (? & Hd & Hs). split_and!; [done| |]; intros s; rewrite <- !E; [|apply Hs]. intros s'. rewrite <- E. apply Hd. Qed.

Lemma remove_all_spec ps w L i :
  links_ok (slots_ w) (heap w) (num_slots_ w) L -> 0 <= i < num_slots_ w -> L i = ps ->
  exists s' h', remove_all ps i w = Returns (with_slots_heap s' h' w) /\
    links_ok s' h' (num_slots_ w) (upd_slot L i []) /\ (forall q, data_at h' q = data_at (heap w) q).
Proof.
  revert w L. induction ps as [|p ps IH]; intros w L HL Hi E; cbn [remove_all].
  - exists (slots_ w), (heap w). split; [by destruct w|]. split; [|done]. eapply links_ok_ext; [|exact HL].
    intros s. unfold upd_slot. by destruct (Z.eqb_spec s i) as [->|].
  - destruct (remove_entry_spec w L p i [] ps HL Hi E) as (s1 & h1 & -> & Hlk1 & Hd1). cbn [outcome_bind app] in *.
    destruct (IH (with_slots_heap s1 h1 w) (upd_slot L i ps)) as (s2 & h2 & -> & Hlk2 & Hd2); [done|done|unfold upd_slot; by rewrite Z.eqb_refl|].
    exists s2, h2. split; [done|]. split; [|intros q; by rewrite Hd2, <- Hd1].
    eapply links_ok_ext; [|exact Hlk2]. intros s. unfold upd_slot. by destruct (s =? i).
Qed.

Lemma unregister_all_spec X w :
  NoDup X.*2 ->
  (forall p i, (p, i) ∈ X -> 0 <= i /\ entries_ w !! Z.to_nat i = Some (Some p) /\ exists d c, data_at (heap w) p = Some (i, d, c)) ->
  exists es n, unregister_all X.*1 w = Returns (with_entries es n w) /\ len es = len (entries_ w) /\
    n - live_count es = active_count_ w - live_count (entries_ w) /\
    (forall j, es !! j = if decide (Z.of_nat j ∈ X.*2) then Some None else entries_ w !! j).
Proof.
  revert w. induction X as [|[p i] X IH]; intros w Hnd HX; cbn [fmap list_fmap unregister_all].
  - exists (entries_ w), (active_count_ w). split; [by destruct w|]. split_and!; [done..|].
    intros j. rewrite decide_False; [done|]. apply not_elem_of_nil.
  - cbn in Hnd. apply NoDup_cons in Hnd as [Hni Hnd]. cbn [fst].
    destruct (HX p i) as (Hi & Hei & d & c & D); [apply list_elem_of_here|].
    unfold data_at in D. destruct (heap w !! p) as [e|] eqn:He; [|done]. cbn in D. injection D as Ei _ _.
    unfold deref. rewrite He. cbn [outcome_bind]. unfold set_entry. rewrite Ei.
    assert (Hlt : (Z.to_nat i < length (entries_ w))%nat) by (by eapply lookup_lt_Some).
    destruct (Z.ltb_spec i (len (entries_ w))); [|unfold len in *; lia]. cbn [outcome_bind].
    set (w1 := with_entries _ _ w). destruct (IH w1 Hnd) as (es & n & -> & Hl & Hn & Hes).
    { intros q j Hq. destruct (HX q j) as (Hj & Hej & Hdj); [by apply list_elem_of_further|]. split_and!; [done| |done].
      unfold w1; cbn. rewrite list_lookup_insert_ne; [done|]. intros E. apply Hni. replace i with j by lia.
      by apply (list_elem_of_fmap_2 snd _ (q, j)). }
    exists es, n. split; [done|]. unfold w1 in *; cbn in *. rewrite len_insert in Hl. split_and!; [done| |].
    + rewrite (live_count_insert _ _ (Some p)) in Hn by done. cbn in Hn. lia.
    + intros j. rewrite Hes. destruct (decide (Z.of_nat j ∈ X.*2)) as [Hin|Hin].
      * rewrite decide_True; [done|]. by apply list_elem_of_further.
      * destruct (decide (Z.of_nat j = i)) as [<-|Hne].
        -- rewrite decide_True by apply list_elem_of_here. rewrite Nat2Z.id in *. by rewrite list_lookup_insert_eq.
        -- rewrite decide_False by (intros [?|?]%elem_of_cons; done). rewrite list_lookup_insert_ne by lia. done.
Qed.

(** Before the callbacks: the due entries are out of the slot and of the table. *)
Lemma inv_expire w L s X slots h es n :
  inv w L [] -> 0 <= s < num_slots_ w -> X.*1 = L s -> NoDup X.*2 ->
  (forall p i, (p, i) ∈ X -> exists d, live w p i d /\ d mod num_slots_ w = s) ->
  links_ok slots h (num_slots_ w) (upd_slot L s []) -> (forall q, data_at h q = data_at (heap w) q) ->
  len es = len (entries_ w) -> n - live_count es = active_count_ w - live_count (entries_ w) ->
  (forall j, es !! j = if decide (Z.of_nat j ∈ X.*2) then Some None else entries_ w !! j) ->
  let w' := with_entries es n (with_slots_heap slots h w) in
  inv w' (upd_slot L s []) X /\ (forall p i d, live w' p i d <-> live w p i d /\ d mod num_slots_ w <> s).
Proof.
  intros Hinv Hs HX1 Hnd2 HX Hlinks Hdata Hlen Hn Hes w'.
  assert (Hids : forall p i d, live w p i d -> i ∈ X.*2 <-> d mod num_slots_ w = s).
  { intros p i d Hl. split.
    - intros ([q j] & -> & Hq)%list_elem_of_fmap. destruct (HX q j Hq) as (d' & Hl' & Hd'). by destruct (live_fun _ _ _ _ _ _ Hl Hl') as [_ ->].
    - intros Hd. pose proof (live_slot _ _ _ Hinv _ _ _ Hl) as Hp. rewrite Hd, <- HX1 in Hp.
      apply list_elem_of_fmap in Hp as ([q j] & -> & Hq). destruct (HX q j Hq) as (d' & Hl' & _).
      destruct (live_ptr _ _ _ _ _ _ Hl Hl') as [-> _]. by apply (list_elem_of_fmap_2 snd _ (q, j)). }
  assert (HL : forall p i d, live w' p i d <-> live w p i d /\ d mod num_slots_ w <> s).
  { intros p i d. unfold live at 1, w'; cbn. rewrite Hes, Hdata. split.
    - intros (Hi & E & D). rewrite Z2Nat.id in E by lia. destruct (decide (i ∈ X.*2)) as [|Hni]; [done|].
      assert (Hl : live w p i d) by done. split; [done|]. by rewrite <- (Hids _ _ _ Hl).
    - intros [Hl Hd]. pose proof Hl as (Hi & E & D). rewrite Z2Nat.id by lia. rewrite decide_False by (by rewrite (Hids _ _ _ Hl)). done. }
  split; [|done]. pose proof Hinv as Hinv0. destruct Hinv. constructor; cbn; try done.
  - intros t p Ht. setoid_rewrite HL. unfold upd_slot. destruct (Z.eqb_spec t s) as [->|].
    + split; [intros Hp; by apply not_elem_of_nil in Hp|]. intros (i & d & [_ ?] & ?). done.
    + rewrite inv_mem0 by done. split; [intros (i & d & ? & ?); exists i, d; split_and!; congruence|].
      intros (i & d & [? _] & ?). by exists i, d.
  - intros j p Hj. rewrite Hes in Hj. destruct (decide (Z.of_nat j ∈ X.*2)) as [|Hni]; [done|].
    destruct (inv_ent0 _ _ Hj) as [d Hd]. exists d. apply HL. split; [done|]. by rewrite <- (Hids _ _ _ Hd).
  - intros p i d [Hl _]%HL. by apply (inv_win0 p i).
  - intros i Hi. destruct (inv_free0 i Hi) as [? E]. split; [done|]. rewrite Hes, E. by destruct (decide _).
  - lia.
  - rewrite inv_count0 in Hn. lia.
  - intros p [e He]. apply inv_heap0. specialize (Hdata p). unfold data_at in Hdata. rewrite He in Hdata. by destruct (heap w !! p).
  - split; [|done]. rewrite HX1. destruct Hlinks as (_ & _ & _). destruct inv_links0 as (_ & _ & Hnd). by destruct (Hnd s Hs) as (_ & ? & _).
  - intros p i Hp. destruct (HX p i Hp) as (d & (Hi & E & D) & _). split_and!; [done| | |].
    + rewrite Hes, Z2Nat.id by lia. rewrite decide_True; [done|]. by apply (list_elem_of_fmap_2 snd _ (p, i)).
    + intros Hf. destruct (inv_free0 i Hf). congruence.
    + exists d. by rewrite Hdata.
Qed.

(** After a callback: the entry is freed and its id recycled. *)
Lemma inv_finish w L X p i :
  inv w L ((p, i) :: X) ->
  let w1 := with_heap (delete p (heap w)) w in
  let w' := with_ids (next_id_ w1) (entries_ w1) (i :: free_ids_ w1) w1 in
  inv w' L X /\ (forall q j d, live w' q j d <-> live w q j d).
Proof.
  intros Hinv w1 w'. destruct (inv_exp _ _ _ Hinv p i) as (Hi & Hei & Hif & dp & Dp); [apply list_elem_of_here|].
  assert (Hnp : forall q j d, live w q j d -> q <> p).
  { intros q j d (_ & E & D) ->. rewrite Dp in D. injection D as -> _. congruence. }
  assert (HL : forall q j d, live w' q j d <-> live w q j d).
  { intros q j d. unfold live, w', w1, data_at; cbn. split.
    - intros (? & ? & D). destruct (decide (q = p)) as [->|]; [by rewrite lookup_delete_eq in D|]. by rewrite lookup_delete_ne in D.
    - intros Hl. pose proof (Hnp _ _ _ Hl). rewrite lookup_delete_ne by done. done. }
  split; [|done]. destruct Hinv. cbn in inv_exp_nd0. destruct inv_exp_nd0 as [[Hp1 Hnd1]%NoDup_cons [Hi2 Hnd2]%NoDup_cons].
  constructor; cbn; try done.
  - destruct inv_links0 as (? & ? & Hs). split_and!; [done..|]. intros s Hr. destruct (Hs s Hr) as (? & ? & Hseg). split_and!; [done..|].
    eapply dllseg_frame; [|exact Hseg]. intros q Hq. apply lookup_delete_ne. intros <-.
    apply inv_mem0 in Hq as (j & d & Hl & _); [|done]. by apply Hnp in Hl.
  - intros s q Hs. rewrite inv_mem0 by done. by setoid_rewrite HL.
  - intros j q Hj. destruct (inv_ent0 _ _ Hj) as [d Hd]. exists d. by apply HL.
  - intros q j d Hl%HL. by apply (inv_win0 q j).
  - by constructor.
  - intros j [->|Hj]%elem_of_cons; [done|]. by apply inv_free0.
  - intros q [e He]. apply inv_heap0. rewrite lookup_delete_Some in He. destruct He. by eexists.
  - intros q j Hq. destruct (inv_exp0 q j) as (? & ? & ? & d & D); [by apply list_elem_of_further|].
    assert (Hji : j <> i) by (intros ->; by apply Hi2, (list_elem_of_fmap_2 snd _ (q, i))).
    assert (Hqp : q <> p) by (intros ->; by apply Hp1, (list_elem_of_fmap_2 fst _ (p, j))).
    split_and!; [done..|by intros [?|?]%elem_of_cons|]. exists d. unfold data_at. by rewrite lookup_delete_ne.
Qed.

(** Advancing the tick when nothing is due keeps every deadline in the window. *)
Lemma inv_advance w L : inv w L [] -> none_due w -> inv (with_tick (u64 (current_tick_ w + 1)) w) L [].
Proof.
  intros Hinv Hnd. pose proof (num_slots_pos _ _ _ Hinv) as Hns. pose proof (inv_tick _ _ _ Hinv) as Ht.
  destruct Hinv. constructor; cbn; try done; [apply wrap_range; lia|].
  intros p i d Hl. destruct (inv_win0 p i d Hl) as [Hd Hw]. split; [done|]. specialize (Hnd p i d Hl).
  rewrite wrap_sub_r. replace (d - (current_tick_ w + 1)) with (d - current_tick_ w - 1) by lia. rewrite <- wrap_sub_l.
  assert (0 < u64 (d - current_tick_ w)).
  { pose proof (wrap_range 64 (d - current_tick_ w)) as [Hz _]; [lia|].
    destruct (decide (u64 (d - current_tick_ w) = 0)) as [E|]; [|lia]. exfalso. apply Hnd.
    unfold wrap, in_width in *. apply Z.mod_divide in E as [q Hq]; [|lia]. nia. }
  rewrite wrap_small by (unfold in_width; lia). lia.
Qed.

Section TickSpec.
Context {S : Type} (on_expire_ : S -> Z -> wheel_prog S) (Hcb : forall x i, 0 < i -> prog_ok 1 (on_expire_ x i)).

Lemma fire_all_spec X x w L :
  inv w L X -> none_due w ->
  exists x' w' L', fire_all on_expire_ X.*1 x w = Returns (X.*2, x', w') /\ inv w' L' [] /\ none_due w' /\
    current_tick_ w' = current_tick_ w /\ num_slots_ w' = num_slots_ w /\
    (forall i p d, (forall x j, j <> i -> prog_avoids i (on_expire_ x j)) -> live w p i d -> live w' p i d) /\
    (forall g, (forall x j, on_expire_ x j = Ret (g x j)) -> x' = foldl g x X.*2 /\ forall p i d, live w' p i d -> live w p i d).
Proof using Hcb.
  revert x w L. induction X as [|[p i] X IH]; intros x w L Hinv Hnd; cbn [fmap list_fmap fire_all fst snd foldl].
  { exists x, w, L. by split_and!. }
  destruct (inv_exp _ _ _ Hinv p i) as (Hi & Hei & _ & dp & Dp); [apply list_elem_of_here|].
  unfold data_at in Dp. destruct (heap w !! p) as [e|] eqn:He; [|done]. cbn in Dp. injection Dp as Ei _ _.
  unfold deref. rewrite He. cbn [outcome_bind]. rewrite Ei.
  destruct (run_prog_spec 1 (on_expire_ x i) w L _ ltac:(lia) Hinv (Hcb x i Hi)) as (x1 & w1 & L1 & Er & Hinv1 & Ht1 & Hns1 & Hnd1 & Hav1).
  rewrite Er. cbn [outcome_bind]. destruct (inv_finish _ _ _ _ _ Hinv1) as [Hinv2 HL2]. cbv zeta in *.
  set (w2 := with_ids _ _ _ _) in *.
  destruct (IH x1 w2 L1 Hinv2) as (x3 & w3 & L3 & -> & Hinv3 & Hnd3 & Ht3 & Hns3 & Hav3 & Hpure3).
  { intros q j d Hl%HL2. change (current_tick_ w2) with (current_tick_ w1). by eapply (Hnd1 ltac:(lia) Hnd). }
  cbn [outcome_bind]. exists x3, w3, L3. split_and!; [done..|rewrite Ht3; exact Ht1|rewrite Hns3; exact Hns1| |].
  - intros j q d Ha Hl. apply Hav3; [done|]. apply HL2. apply Hav1; [|done]. apply Ha.
    intros ->. destruct Hl as (_ & E & _). congruence.
  - intros g Hg. rewrite Hg in Er. cbn in Er. injection Er as <- <-. destruct (Hpure3 g Hg) as [-> Hl3]. split; [done|].
    intros q j d Hl%Hl3. by apply HL2.
Qed.

(** The slot of the current tick holds exactly the due entries. *)
Lemma due_entries w L :
  inv w L [] ->
  let s := current_tick_ w mod num_slots_ w in
  exists X, X.*1 = L s /\ NoDup X.*2 /\
    (forall p i, (p, i) ∈ X <-> live w p i (current_tick_ w)) /\
    (forall p i, (p, i) ∈ X -> exists d, live w p i d /\ d mod num_slots_ w = s).
Proof.
  intros Hinv s. pose proof (slot_range _ _ _ Hinv (current_tick_ w)) as Hs. fold s in Hs.
  assert (Hslot : forall p, p ∈ L s <-> exists i, live w p i (current_tick_ w)).
  { intros p. rewrite (inv_mem _ _ _ Hinv) by done. split; [|intros [i Hi]; by exists i, (current_tick_ w)].
    intros (i & d & Hl & Hd). exists i. destruct (inv_win _ _ _ Hinv _ _ _ Hl) as [Hd1 Hd2].
    by rewrite (same_slot_now _ _ _ Hinv d Hd1 Hd2 Hd) in Hl. }
  set (f := fun p => (p, default 0 (e_id <$> heap w !! p))).
  assert (Hf : forall p i d, live w p i d -> f p = (p, i)).
  { intros p i d Hl. destruct (live_alloc _ _ _ _ Hl) as (e & He & Hed). unfold f. rewrite He. cbn. by injection Hed as ->. }
  exists (f <$> L s). assert (H1 : (f <$> L s).*1 = L s) by (rewrite <- list_fmap_compose; apply list_fmap_id).
  assert (H2 : forall p i, (p, i) ∈ f <$> L s <-> live w p i (current_tick_ w)).
  { intros p i. split.
    - intros (q & E & Hq)%list_elem_of_fmap. apply Hslot in Hq as [j Hj]. rewrite (Hf _ _ _ Hj) in E. by injection E as -> ->.
    - intros Hl. rewrite <- (Hf _ _ _ Hl). apply list_elem_of_fmap_2, Hslot. by exists i. }
  split_and!; [done| |done|].
  - destruct (inv_links _ _ _ Hinv) as (_ & _ & Hnd). destruct (Hnd s Hs) as (_ & Hnds & _).
    rewrite <- H1 in Hnds. apply (NoDup_fmap_1 fst) in Hnds. apply NoDup_fmap_2_strong; [|done].
    intros [p i] [q j] Hp%H2 Hq%H2 E. cbn in E. subst j. by destruct (live_fun _ _ _ _ _ _ Hp Hq) as [-> _].
  - intros p i Hl%H2. by exists (current_tick_ w).
Qed.

Lemma tick_spec x w L :
  inv w L [] ->
  exists fired x' w' L', tick on_expire_ x w = Returns (fired, x', w') /\ inv w' L' [] /\
    current_tick_ w' = u64 (current_tick_ w + 1) /\ num_slots_ w' = num_slots_ w /\ NoDup fired /\
    (forall i, i ∈ fired <-> exists p, live w p i (current_tick_ w)) /\
    (forall i p d, (forall x j, j <> i -> prog_avoids i (on_expire_ x j)) -> live w p i d -> d <> current_tick_ w -> live w' p i d) /\
    (forall g, (forall x j, on_expire_ x j = Ret (g x j)) ->
       x' = foldl g x fired /\ forall p i d, live w' p i d <-> live w p i d /\ d <> current_tick_ w).
Proof using Hcb.
  intros Hinv. destruct (due_entries w L Hinv) as (X & HX1 & HX2 & HXl & HXs). unfold tick.
  rewrite (slot_of _ _ _ Hinv). set (s := current_tick_ w mod num_slots_ w) in *.
  pose proof (slot_range _ _ _ Hinv (current_tick_ w)) as Hs. fold s in Hs.
  pose proof (inv_links _ _ _ Hinv) as Hlk. rewrite (slot_head_ok _ _ _ _ _ Hlk Hs). cbn [outcome_bind].
  pose proof Hlk as (_ & _ & Hsl). destruct (Hsl s Hs) as (_ & Hnds & Hseg).
  rewrite (collect_spec _ _ _ None (L s) Hseg).
  2:{ rewrite <- (size_list_to_set (C := gset Z) (L s)) by done. rewrite <- size_dom. apply subseteq_size.
      intros p Hp%elem_of_list_to_set. apply elem_of_dom. by eapply dllseg_alloc. }
  2:{ intros p Hp. rewrite <- HX1 in Hp. apply list_elem_of_fmap in Hp as ([q i] & -> & Hq). apply HXl in Hq as (_ & _ & D). by exists i. }
  cbn [outcome_bind]. destruct (remove_all_spec (L s) w L s Hlk Hs eq_refl) as (s1 & h1 & -> & Hlk1 & Hd1). cbn [outcome_bind].
  destruct (unregister_all_spec X (with_slots_heap s1 h1 w) HX2) as (es & n & Eu & Hlen & Hn & Hes).
  { intros p i (Hi & E & D)%HXl. cbn. split_and!; [lia|done|]. rewrite Hd1. by eexists _, _. }
  rewrite <- HX1, Eu. cbn [outcome_bind]. cbn in Hlen, Hn, Hes.
  destruct (inv_expire w L s X s1 h1 es n Hinv Hs HX1 HX2 HXs Hlk1 Hd1 Hlen Hn Hes) as [Hinv1 HL1]. cbv zeta in *.
  set (w1 := with_entries es n _) in *.
  destruct (fire_all_spec X x w1 _ Hinv1) as (x2 & w2 & L2 & -> & Hinv2 & Hnd2 & Ht2 & Hns2 & Hav2 & Hpure2).
  { intros p i d [Hl Hd]%HL1 E. apply Hd. rewrite E. done. }
  cbn [outcome_bind]. eexists _, _, _, L2. split; [done|]. split; [|split_and!].
  - eapply inv_advance; done.
  - cbn. by rewrite Ht2.
  - done.
  - done.
  - intros i. split; [intros ([p j] & -> & Hp%HXl)%list_elem_of_fmap; by exists p|].
    intros [p Hp%HXl]. by apply (list_elem_of_fmap_2 snd _ (p, i)).
  - intros i p d Ha Hl Hd. change (live w2 p i d). apply Hav2; [done|]. apply HL1. split; [done|]. intros E. apply Hd.
    destruct (inv_win _ _ _ Hinv _ _ _ Hl). by eapply same_slot_now.
  - intros g Hg. destruct (Hpure2 g Hg) as [-> Hl2]. split; [done|]. intros p i d. change (live w2 p i d <-> live w p i d /\ d <> current_tick_ w). split.
    + intros [Hl Hd]%Hl2%HL1. split; [done|]. by intros ->.
    + intros [Hl Hd]. apply Hav2; [intros x0 j _; by rewrite Hg|]. apply HL1. split; [done|]. intros E. apply Hd.
      destruct (inv_win _ _ _ Hinv _ _ _ Hl). by eapply same_slot_now.
Qed.

End TickSpec.

(** ** Histories *)

Lemma wheel_make_inv n w : in_width 64 n -> make n = Returns w -> inv w (fun _ => []) [] /\ Z.max 1 n <= num_slots_ w.
Proof.
  intros Hn. unfold make. set (c := if n <? 1 then 1 else n).
  assert (Hc : 1 <= c < 2 ^ 64 /\ Z.max 1 n = c) by (unfold c, in_width in *; destruct (Z.ltb_spec n 1); lia).
  destruct (Z.eqb_spec (next_power_of_2 c) 0) as [|Hnz]; [done|]. intros [= <-].
  destruct (decide (c <= 2 ^ 63)); [|rewrite next_power_of_2_overflow in Hnz by lia; done].
  destruct (next_power_of_2_least c) as (k & Hk & -> & Hle & _); [lia|]. split; [|cbn; lia].
  assert (Hno : forall p i d, ~ live (mkTimingWheel (replicate (Z.to_nat (2 ^ k)) None) (2 ^ k) (2 ^ k - 1) 0 1 [] [] 0 empty 1) p i d)
    by (intros p i d (_ & E & _); cbn in E; by rewrite lookup_nil in E).
  constructor; cbn [num_slots_ mask_ current_tick_ slots_ heap entries_ free_ids_ next_id_ active_count_ heap_next]; try done.
  - by exists k.
  - split; [rewrite len_replicate; lia|]. split; [intros s s' p _ _ Hp; by apply not_elem_of_nil in Hp|].
    intros s Hs. split_and!; [apply lookup_replicate; split; [done|lia]|constructor|done].
  - intros s p Hs. split; [intros Hp; by apply not_elem_of_nil in Hp|]. intros (i & d & Hl & _). by apply Hno in Hl.
  - intros p i d Hl. by apply Hno in Hl.
  - constructor.
  - intros i Hi. by apply not_elem_of_nil in Hi.
  - intros p [e He]. by rewrite lookup_empty in He.
  - split; constructor.
  - intros p i Hp. by apply not_elem_of_nil in Hp.
Qed.

Section Histories.
Context {S : Type} (on_expire_ : S -> Z -> wheel_prog S) (Hcb : forall x i, 0 < i -> prog_ok 1 (on_expire_ x i)).

Lemma run_events_spec evs x w L :
  inv w L [] -> Forall event_ok evs ->
  exists f x' w' L', run_events on_expire_ evs x w = Returns (f, x', w') /\ inv w' L' [] /\ num_slots_ w' = num_slots_ w.
Proof using Hcb.
  intros Hinv Hev. revert x w L Hinv. induction Hev as [|ev evs Hok _ IH]; intros x w L Hinv; cbn [run_events].
  { by eexists _, _, _, L. }
  destruct ev as [|c].
  - destruct (tick_spec on_expire_ Hcb x w L Hinv) as (fired & x1 & w1 & L1 & -> & Hinv1 & _ & Hns & _). cbn [outcome_bind].
    destruct (IH x1 w1 L1 Hinv1) as (f & x2 & w2 & L2 & -> & Hinv2 & Hns2). eexists _, _, _, L2. split; [done|]. split; [done|congruence].
  - destruct (run_prog_spec 0 c w L [] ltac:(lia) Hinv Hok) as (u & w1 & L1 & -> & Hinv1 & _ & Hns & _). cbn [outcome_bind].
    destruct (IH x w1 L1 Hinv1) as (f & x2 & w2 & L2 & -> & Hinv2 & Hns2). eexists _, _, _, L2. split; [done|]. split; [done|congruence].
Qed.

(** A pending entry left alone fires at the tick its deadline names, not before. *)
Lemma fires_at evs x w L p i d f x' w' :
  inv w L [] -> Forall event_ok evs -> Forall (event_avoids i) evs -> (forall x j, j <> i -> prog_avoids i (on_expire_ x j)) ->
  live w p i d -> run_events on_expire_ evs x w = Returns (f, x', w') ->
  forall j fl, f !! j = Some fl -> Z.of_nat j <= u64 (d - current_tick_ w) ->
    (i ∈ fl <-> Z.of_nat j = u64 (d - current_tick_ w)).
Proof using Hcb.
  intros Hinv Hev Hav Hcba Hl. revert x w L f Hinv Hl. induction Hev as [|ev evs Hok Hev IH]; intros x w L f Hinv Hl Hrun j fl.
  { cbn in Hrun. injection Hrun as <- _ _. by rewrite lookup_nil. }
  apply Forall_cons in Hav as [Ha Hav]. destruct ev as [|c]; cbn [run_events] in Hrun.
  - destruct (tick_spec on_expire_ Hcb x w L Hinv) as (fired & x1 & w1 & L1 & E & Hinv1 & Ht1 & _ & _ & Hf & Hkeep & _).
    rewrite E in Hrun. cbn [outcome_bind] in Hrun.
    destruct (run_events on_expire_ evs x1 w1) as [[[f1 x2] w2]|] eqn:E2; [|done]. cbn [outcome_bind] in Hrun. injection Hrun as <- <- <-.
    destruct (inv_win _ _ _ Hinv _ _ _ Hl) as [Hd Hw]. pose proof (inv_tick _ _ _ Hinv) as Ht. unfold in_width in *.
    assert (Hz : d = current_tick_ w <-> u64 (d - current_tick_ w) = 0).
    { split; [intros ->; by rewrite Z.sub_diag|]. intros Hz. apply Z.mod_divide in Hz as [q Hq]; [|lia]. nia. }
    assert (Hif : i ∈ fired <-> d = current_tick_ w).
    { rewrite Hf. split; [intros [q Hq]; by destruct (live_fun _ _ _ _ _ _ Hl Hq)|intros <-; by exists p]. }
    destruct j as [|j]; cbn [lookup list_lookup].
    + intros [= <-] _. rewrite Hif, Hz. lia.
    + intros Hj Hle. assert (Hne : d <> current_tick_ w) by (rewrite Hz; lia).
      pose proof (Hkeep i p d Hcba Hl Hne) as Hl1.
      assert (Er : u64 (d - current_tick_ w1) = u64 (d - current_tick_ w) - 1).
      { rewrite Ht1, wrap_sub_r. replace (d - (current_tick_ w + 1)) with (d - current_tick_ w - 1) by lia. rewrite <- wrap_sub_l.
        pose proof (wrap_range 64 (d - current_tick_ w)). unfold in_width in *. apply wrap_small. unfold in_width. rewrite Hz in Hne. lia. }
      rewrite (IH Hav x1 w1 L1 f1 Hinv1 Hl1 E2 j fl Hj) by lia. lia.
  - destruct (run_prog_spec 0 c w L [] ltac:(lia) Hinv Hok) as (u & w1 & L1 & E & Hinv1 & Ht & _ & _ & Hkeep).
    rewrite E in Hrun. cbn [outcome_bind] in Hrun. rewrite <- Ht.
    eapply (IH Hav x w1 L1 f); try done. by apply Hkeep.
Qed.

End Histories.

(** C5: Timers fire exactly on time. On a wheel with any history, an entry
    scheduled [n] ticks ahead fires on the [n+1]-th following [tick] and on none
    before it, whatever else is scheduled, cancelled and rescheduled meanwhile
    between ticks or from callbacks, as long as nobody cancels or reschedules
    this entry and callbacks schedule at least one tick ahead; a request of
    [num_slots] ticks or more is refused with [out_of_range]. The 64-bit tick
    counter may wrap around. *)
Theorem timer_fires_on_time {S} (on_expire_ : S -> Z -> wheel_prog S) slots w0 evs0 x0 f0 x1 w1 n i w2 evs f x3 w3
    (Hslots : in_width 64 slots) (Hmake : make slots = Returns w0)
    (Hcb : forall x j, 0 < j -> prog_ok 1 (on_expire_ x j))
    (Hev0 : Forall event_ok evs0) (Hrun0 : run_events on_expire_ evs0 x0 w0 = Returns (f0, x1, w1))
    (Hn : in_width 32 n) (Hsched : schedule n w1 = Returns (i, w2))
    (Hcba : forall x j, j <> i -> prog_avoids i (on_expire_ x j))
    (Hev : Forall event_ok evs) (Hav : Forall (event_avoids i) evs)
    (Hrun : run_events on_expire_ evs x1 w2 = Returns (f, x3, w3)) :
  n < num_slots_ w1 /\ forall j fl, f !! j = Some fl -> Z.of_nat j <= n -> (i ∈ fl <-> Z.of_nat j = n).
Proof.
  destruct (wheel_make_inv _ _ Hslots Hmake) as [Hinv0 _].
  destruct (run_events_spec on_expire_ Hcb evs0 x0 w0 _ Hinv0 Hev0) as (? & ? & ? & L1 & E & Hinv1 & _).
  rewrite Hrun0 in E. injection E as <- <- <-. unfold in_width in Hn.
  pose proof (schedule_spec w1 L1 [] n Hinv1 ltac:(lia)) as Hs. destruct (Z.leb_spec (num_slots_ w1) n); [congruence|].
  destruct Hs as (i' & w2' & L2 & E & Hinv2 & _ & _ & Ht & _ & Hl). rewrite Hsched in E. injection E as <- <-. split; [lia|].
  destruct (compute_deadline_spec _ _ _ Hinv1 n) as [_ Hd]; [lia|].
  intros j fl Hj Hle. rewrite <- Hd in Hle |- *. rewrite <- Ht in *.
  eapply (fires_at on_expire_ Hcb evs x1 w2 L2 _ i); try done. apply Hl. by left.
Qed.

(** The wheel is memory safe and its bookkeeping consistent. From the
    constructor, every history of ticks, schedules, cancels and reschedules, from
    outside or from inside expiry callbacks (including a callback that cancels
    the entry being expired, or that throws), runs without dereferencing a freed
    entry or indexing out of range; afterwards every slot is a well-formed doubly
    linked list of exactly the pending entries of that slot, recycled ids are not
    in use, and [active_count()] is the number of pending entries. *)
Theorem timing_wheel_safe {S} (on_expire_ : S -> Z -> wheel_prog S) slots w0 evs x
    (Hslots : in_width 64 slots) (Hmake : make slots = Returns w0)
    (Hcb : forall x j, 0 < j -> prog_ok 1 (on_expire_ x j)) (Hev : Forall event_ok evs) :
  exists f x' w' L, run_events on_expire_ evs x w0 = Returns (f, x', w') /\ inv w' L [] /\
    active_count_ w' = live_count (entries_ w').
Proof.
  destruct (wheel_make_inv _ _ Hslots Hmake) as [Hinv0 _].
  destruct (run_events_spec on_expire_ Hcb evs x w0 _ Hinv0 Hev) as (f & x' & w' & L & E & Hinv & _).
  exists f, x', w', L. split_and!; [done..|]. apply (inv_count _ _ _ Hinv).
Qed.

(** Agreement of timers from agreement of live entries. *)
Lemma timer_ext w L X w' L' X' j :
  inv w L X -> inv w' L' X' -> 0 <= j -> (forall p d, live w' p j d <-> live w p j d) -> timer w' j = timer w j.
Proof.
  intros Hi Hi' Hj H. apply option_eq. intros d. rewrite (timer_spec _ _ _ Hi), (timer_spec _ _ _ Hi') by done.
  by setoid_rewrite H.
Qed.

Lemma timer_none w L X j : inv w L X -> 0 <= j -> (forall p d, ~ live w p j d) -> timer w j = None.
Proof.
  intros Hi Hj H. destruct (timer w j) as [d|] eqn:E; [|done]. apply (timer_spec _ _ _ Hi) in E as [p Hp]; [|done]. by apply H in Hp.
Qed.

(** What the operations do to the set of pending timers, on any reachable
    wheel. [schedule] issues an id that was not pending, never 0, and sets its
    deadline [n] ticks from now; [cancel] removes one timer and is a no-op for an
    unknown id; [reschedule] moves a pending timer and does nothing for an id
    that is not pending; no operation affects any other timer. *)
Theorem wheel_timer_operations w L X n i j
    (Hinv : inv w L X) (Hn : 0 <= n < num_slots_ w) (Hi : 0 <= i) (Hj : 0 <= j) :
  (exists k w', schedule n w = Returns (k, w') /\ 0 < k /\ timer w k = None /\
     timer w' j = if decide (j = k) then Some (compute_deadline n w) else timer w j) /\
  (exists w', cancel i w = Returns w' /\ timer w' j = if decide (j = i) then None else timer w j) /\
  (exists w', reschedule i n w = Returns w' /\
     timer w' j = if decide (j = i /\ timer w i <> None) then Some (compute_deadline n w) else timer w j).
Proof.
  split_and!.
  - pose proof (schedule_spec w L X n Hinv ltac:(lia)) as Hs. destruct (Z.leb_spec (num_slots_ w) n); [lia|].
    destruct Hs as (k & w' & L' & E & Hinv' & Hk & Hfresh & _ & _ & Hl). exists k, w'. split_and!; [done..| |].
    + eapply timer_none; (done || lia).
    + destruct (decide (j = k)) as [->|Hne].
      * apply (timer_spec _ _ _ Hinv'); [done|]. eexists. apply Hl. by left.
      * eapply timer_ext; try done. intros p d. rewrite Hl. naive_solver.
  - destruct (cancel_spec w L X i Hinv Hi) as (w' & L' & E & Hinv' & _ & _ & Hl). exists w'. split; [done|].
    destruct (decide (j = i)) as [->|Hne].
    + eapply timer_none; try done. intros p d [_ ?]%Hl. done.
    + eapply timer_ext; try done. intros p d. rewrite Hl. naive_solver.
  - pose proof (reschedule_spec w L X i n Hinv Hi ltac:(lia)) as Hs. destruct (Z.leb_spec (num_slots_ w) n); [lia|].
    destruct Hs as (w' & L' & E & Hinv' & _ & _ & Hl). exists w'. split; [done|].
    destruct (decide (j = i /\ timer w i <> None)) as [[-> Ht]|Hne].
    + apply (timer_spec _ _ _ Hinv'); [done|]. destruct (timer w i) as [d0|] eqn:E0; [|done].
      apply (timer_spec _ _ _ Hinv) in E0 as [p Hp]; [|done]. exists p. apply Hl. left. split_and!; [done..|]. by exists d0.
    + eapply timer_ext; try done. intros p d. rewrite Hl. split; [|intros Hp; right; split; [done|]].
      * intros [(-> & _ & d0 & Hd0)|[? _]]; [|done]. exfalso. apply Hne. split; [done|].
        assert (timer w i = Some d0) by (apply (timer_spec _ _ _ Hinv); [done|by exists p]). congruence.
      * intros ->. apply Hne. split; [done|]. assert (timer w i = Some d) by (apply (timer_spec _ _ _ Hinv); [done|by exists p]). congruence.
Qed.

(** ** A wheel of four slots *)

(** A callback that lets go of the entry it was called for. *)
Definition drop_callback (fired : list Z) (id : Z) : wheel_prog (list Z) := Cancel id (Ret (id :: fired)).

(** A callback that restarts itself two ticks ahead. *)
Definition restart_callback (n : Z) (_ : Z) : wheel_prog Z := Schedule 2 n (fun _ => Ret (n + 1)).

Lemma timer_fires_on_time_witness :
  exists w0 w2 f x3 w3, make 4 = Returns w0 /\ schedule 2 w0 = Returns (1, w2) /\
    run_events restart_callback [EvTick; EvCall (Schedule 0 tt (fun _ => Ret tt)); EvTick; EvTick] 0 w2 = Returns (f, x3, w3) /\
    f = [[]; [2]; [1]] /\ (1 ∈ [1] <-> Z.of_nat 2 = 2).
Proof.
  eexists _, _, _, _, _. split; [vm_compute; reflexivity|]. split; [vm_compute; reflexivity|].
  split; [vm_compute; reflexivity|]. split; [reflexivity|].
  eapply (timer_fires_on_time restart_callback 4 _ [] 0 [] 0 _ 2 1 _
    [EvTick; EvCall (Schedule 0 tt (fun _ => Ret tt)); EvTick; EvTick]).
  - unfold in_width. lia.
  - vm_compute. reflexivity.
  - intros x j _. cbn. split; [lia|done].
  - constructor.
  - reflexivity.
  - unfold in_width. lia.
  - vm_compute. reflexivity.
  - intros x j _. cbn. done.
  - apply Forall_cons. split; [done|]. apply Forall_cons. split; [cbn; split; [lia|done]|]. by repeat constructor.
  - by repeat constructor.
  - vm_compute. reflexivity.
  - reflexivity.
  - lia.
Defined.

Lemma timing_wheel_safe_witness :
  exists w0 f x' w' L, make 4 = Returns w0 /\
    run_events restart_callback [EvCall (Schedule 1 tt (fun id => Reschedule id 3 tt (Ret tt))); EvTick; EvTick; EvTick; EvTick; EvTick] 0 w0
      = Returns (f, x', w') /\ f = [[]; []; []; [1]; []] /\ inv w' L [] /\ active_count_ w' = 1.
Proof.
  destruct (make 4) as [w0|] eqn:E0; [|by vm_compute in E0].
  destruct (timing_wheel_safe restart_callback 4 w0
    [EvCall (Schedule 1 tt (fun id => Reschedule id 3 tt (Ret tt))); EvTick; EvTick; EvTick; EvTick; EvTick] 0)
    as (f & x' & w' & L & E & Hinv & _).
  - unfold in_width; lia.
  - exact E0.
  - intros x j _. cbn. split; [lia|done].
  - apply Forall_cons. split; [cbn; split; [lia|]; intros; split_and!; (done || lia)|]. by repeat constructor.
  - exists w0, f, x', w', L. split; [done|]. split; [exact E|]. vm_compute in E0. injection E0 as <-.
    vm_compute in E. injection E as <- <- <-. split_and!; [done|exact Hinv|done].
Defined.

Lemma wheel_timer_operations_witness :
  exists w0 w1, make 4 = Returns w0 /\ (exists k, schedule 3 w0 = Returns (k, w1) /\ timer w1 1 = Some 3).
Proof.
  destruct (make 4) as [w0|] eqn:E0; [|by vm_compute in E0].
  destruct (wheel_make_inv 4 w0 ltac:(unfold in_width; lia) E0) as [Hinv Hns].
  destruct (wheel_timer_operations w0 _ _ 3 0 1 Hinv ltac:(lia) ltac:(lia) ltac:(lia)) as [(k & w1 & E & _ & _ & Ht) _].
  exists w0, w1. split; [done|]. exists k. split; [done|]. vm_compute in E0. injection E0 as <-. vm_compute in E. injection E as <- <-.
  exact Ht.
Defined.

(** A callback that asks for "the next tick" the first time it runs. *)
Definition zero_callback (again : bool) (_ : Z) : wheel_prog bool :=
  if again then Schedule 0 false (fun _ => Ret false) else Ret false.

(** [schedule(0)] from inside an expiry callback is lost. On a wheel of four
    slots, the entry such a callback creates does not expire after a full
    revolution, nor in four of them: it stays in its slot, counted as active,
    because [tick] only fires entries whose deadline equals the current tick. *)
Theorem schedule_zero_in_callback_lost :
  exists w0 w1 w2 f, make 4 = Returns w0 /\ schedule 0 w0 = Returns (1, w1) /\
    run_events zero_callback (replicate 17 EvTick) true w1 = Returns (f, false, w2) /\
    f = [1] :: replicate 16 [] /\ active_count_ w2 = 1 /\ timer w2 2 = Some 0 /\ current_tick_ w2 = 17.
Proof. eexists _, _, _, _. do 3 (split; [vm_compute; reflexivity|]). split_and!; reflexivity. Qed.
