(* ===== verification/SlabAllocator.v ===== *)
(** * Slab allocator

    [apex::core::SlabAllocator] (apex_core/include/apex/core/slab_allocator.hpp,
    apex_core/src/slab_allocator.cpp): fixed-size slots carved from chunks, free
    slots threaded on an intrusive list, a magic word per slot to detect double
    frees.

    Addresses are integers and null is 0. [mem] is what the first sixteen bytes
    of each slot hold, read as a [FreeNode]; users of a slot may overwrite it
    ([user_write]). [std::aligned_alloc] is the argument [sys_alloc]: the base of
    a block of the given size, or null. *)

From S2P Require Import Prelude.

Record SlabAllocatorConfig : Type := mkConfig {
  auto_grow : bool;
  grow_chunk_size : Z;
  max_total_count : Z;
}.

Record FreeNode : Type := mkFreeNode { fn_next : Z; magic : Z }.
Record ChunkInfo : Type := mkChunkInfo { data : Z; count : Z }.

Record SlabAllocator : Type := mkSlabAllocator {
  chunks_ : list ChunkInfo;
  free_list_ : Z;
  slot_size_ : Z;
  total_count_ : Z;
  free_count_ : Z;
  config_ : SlabAllocatorConfig;
  initial_count_ : Z;
  grow_count_ : Z;
  peak_allocated_ : Z;
  double_free_count_ : Z;
  mem : gmap Z FreeNode;
}.

Definition SLAB_MAGIC_ALLOCATED : Z := 0xA110CA7E.
Definition SLAB_MAGIC_FREED : Z := 0xF2EED000.

(** [sizeof(FreeNode)], [alignof(std::max_align_t)] and the chunk alignment on
    x86-64. *)
Definition sizeof_FreeNode : Z := 16.
Definition max_align : Z := 16.
Definition kAlignment : Z := 64.

(** [(size + alignment - 1) & ~(alignment - 1)] in 64 bits. *)
Definition align_up (size alignment : Z) : Z :=
  Z.land (u64 (size + alignment - 1)) (u64 (- alignment)).

(** The free-list loop of [grow]: slots [i - 1] down to 0 pushed in turn. *)
Fixpoint push_slots (i : nat) (chunk slot_size : Z) (free_list : Z) (m : gmap Z FreeNode) : Z * gmap Z FreeNode :=
  match i with
  | O => (free_list, m)
  | S i' =>
      let node := chunk + Z.of_nat i' * slot_size in
      push_slots i' chunk slot_size node (<[node := mkFreeNode free_list SLAB_MAGIC_FREED]> m)
  end.

Section Allocation.
Context (sys_alloc : Z -> Z).

Definition grow (count : Z) (a : SlabAllocator) : outcome SlabAllocator :=
  if (0 <? count) && (SIZE_MAX / count <? slot_size_ a) then Throws bad_alloc
  else
    let alloc_size := align_up (slot_size_ a * count) kAlignment in
    let chunk := sys_alloc alloc_size in
    if chunk =? 0 then Throws bad_alloc
    else
      let '(fl, m) := push_slots (Z.to_nat count) chunk (slot_size_ a) (free_list_ a) (mem a) in
      Returns (mkSlabAllocator (chunks_ a ++ [mkChunkInfo chunk count]) fl (slot_size_ a) (u64 (total_count_ a + count))
                 (u64 (free_count_ a + count)) (config_ a) (initial_count_ a) (grow_count_ a) (peak_allocated_ a)
                 (double_free_count_ a) m).

Definition make (slot_size initial_count : Z) (config : SlabAllocatorConfig) : outcome SlabAllocator :=
  let slot := align_up (Z.max slot_size sizeof_FreeNode) max_align in
  if initial_count =? 0 then Throws invalid_argument
  else grow initial_count (mkSlabAllocator [] 0 slot 0 0 config initial_count 0 0 0 empty).

Definition allocated_count (a : SlabAllocator) : Z := u64 (total_count_ a - free_count_ a).

(** Growth on exhaustion: [None] when the pool may not grow. *)
Definition grow_chunk (a : SlabAllocator) : option Z :=
  if negb (auto_grow (config_ a)) then None
  else if (0 <? max_total_count (config_ a)) && (max_total_count (config_ a) <=? total_count_ a) then None
  else
    let chunk := if 0 <? grow_chunk_size (config_ a) then grow_chunk_size (config_ a) else initial_count_ a in
    let chunk := if 0 <? max_total_count (config_ a)
                 then Z.min chunk (max_total_count (config_ a) - total_count_ a) else chunk in
    if chunk =? 0 then None else Some chunk.

(** The part of [allocate] after the pool is known to have a free slot. *)
Definition pop_slot (a : SlabAllocator) : outcome (Z * SlabAllocator) :=
  let node := free_list_ a in
  match mem a !! node with
  | None => Throws undefined_behaviour
  | Some n =>
      let a := mkSlabAllocator (chunks_ a) (fn_next n) (slot_size_ a) (total_count_ a) (u64 (free_count_ a - 1)) (config_ a)
                 (initial_count_ a) (grow_count_ a) (peak_allocated_ a) (double_free_count_ a)
                 (<[node := mkFreeNode (fn_next n) SLAB_MAGIC_ALLOCATED]> (mem a)) in
      let current := allocated_count a in
      let peak := if peak_allocated_ a <? current then current else peak_allocated_ a in
      Returns (node, mkSlabAllocator (chunks_ a) (free_list_ a) (slot_size_ a) (total_count_ a) (free_count_ a) (config_ a)
                       (initial_count_ a) (grow_count_ a) peak (double_free_count_ a) (mem a))
  end.

(** [allocate()]: the slot, or null. *)
Definition allocate (a : SlabAllocator) : outcome (Z * SlabAllocator) :=
  if free_list_ a =? 0 then
    match grow_chunk a with
    | None => Returns (0, a)
    | Some chunk =>
        run a <- grow chunk a;
        pop_slot (mkSlabAllocator (chunks_ a) (free_list_ a) (slot_size_ a) (total_count_ a) (free_count_ a) (config_ a)
                    (initial_count_ a) (u64 (grow_count_ a + 1)) (peak_allocated_ a) (double_free_count_ a) (mem a))
    end
  else pop_slot a.

(** [allocate(size, align)]. *)
Definition allocate_sized (size align : Z) (a : SlabAllocator) : outcome (Z * SlabAllocator) :=
  if (size =? 0) || (slot_size_ a <? size) then Returns (0, a) else allocate a.

End Allocation.

Fixpoint owns_chunks (cs : list ChunkInfo) (slot_size ptr : Z) : bool :=
  match cs with
  | [] => false
  | c :: cs =>
      if (data c <=? ptr) && (ptr <? data c + slot_size * count c) then (ptr - data c) mod slot_size =? 0
      else owns_chunks cs slot_size ptr
  end.

Definition owns (ptr : Z) (a : SlabAllocator) : bool := owns_chunks (chunks_ a) (slot_size_ a) ptr.

(** [deallocate(ptr)]; reading the magic of an address outside the pool is
    undefined behaviour (the debug assertion is compiled out). *)
Definition deallocate (ptr : Z) (a : SlabAllocator) : outcome SlabAllocator :=
  if ptr =? 0 then Returns a
  else
    match mem a !! ptr with
    | None => Throws undefined_behaviour
    | Some node =>
        if magic node =? SLAB_MAGIC_FREED then
          Returns (mkSlabAllocator (chunks_ a) (free_list_ a) (slot_size_ a) (total_count_ a) (free_count_ a) (config_ a)
                     (initial_count_ a) (grow_count_ a) (peak_allocated_ a) (u64 (double_free_count_ a + 1)) (mem a))
        else
          Returns (mkSlabAllocator (chunks_ a) ptr (slot_size_ a) (total_count_ a) (u64 (free_count_ a + 1)) (config_ a)
                     (initial_count_ a) (grow_count_ a) (peak_allocated_ a) (double_free_count_ a)
                     (<[ptr := mkFreeNode (free_list_ a) SLAB_MAGIC_FREED]> (mem a)))
    end.

Definition used_bytes (a : SlabAllocator) : Z := u64 (allocated_count a * slot_size_ a).
Definition capacity (a : SlabAllocator) : Z := u64 (total_count_ a * slot_size_ a).

(** What the owner of an allocated slot writes over its first bytes. *)
Definition user_write (ptr : Z) (n : FreeNode) (a : SlabAllocator) : SlabAllocator :=
  mkSlabAllocator (chunks_ a) (free_list_ a) (slot_size_ a) (total_count_ a) (free_count_ a) (config_ a)
    (initial_count_ a) (grow_count_ a) (peak_allocated_ a) (double_free_count_ a) (<[ptr := n]> (mem a)).

(** ** Invariant *)

Definition chunk_slots (slot : Z) (c : ChunkInfo) : list Z := (fun i => data c + Z.of_nat i * slot) <$> seq 0 (Z.to_nat (count c)).
Definition slots (a : SlabAllocator) : list Z := chunks_ a ≫= chunk_slots (slot_size_ a).

(** The free list [F] threaded through the slots, each marked as freed. *)
Fixpoint chain (m : gmap Z FreeNode) (head : Z) (F : list Z) : Prop :=
  match F with
  | [] => head = 0
  | p :: F => head = p /\ exists n, m !! p = Some n /\ magic n = SLAB_MAGIC_FREED /\ chain m (fn_next n) F
  end.

Record inv (a : SlabAllocator) (F : list Z) : Prop := mk_inv {
  inv_slot : 16 <= slot_size_ a < 2 ^ 64 /\ slot_size_ a mod 16 = 0;
  inv_nodup : NoDup (slots a);
  inv_pos p : p ∈ slots a -> 0 < p /\ p mod 16 = 0 /\ p + slot_size_ a <= 2 ^ 64;
  inv_apart p q : p ∈ slots a -> q ∈ slots a -> p <> q -> p + slot_size_ a <= q \/ q + slot_size_ a <= p;
  inv_mem p : p ∈ slots a -> is_Some (mem a !! p);
  inv_free_nd : NoDup F;
  inv_free p : p ∈ F -> p ∈ slots a;
  inv_chain : chain (mem a) (free_list_ a) F;
  inv_total : total_count_ a = len (slots a) /\ len (slots a) < 2 ^ 60;
  inv_count : free_count_ a = len F;
  inv_peak : len (slots a) - len F <= peak_allocated_ a;
}.

(** A slot in use. *)
Definition in_use (a : SlabAllocator) (F : list Z) (p : Z) : Prop := p ∈ slots a /\ p ∉ F.

(** What the system allocator guarantees of a block of [n] bytes it returns:
    aligned, inside the address space, apart from every slot of the pool. *)
Definition sys_fresh (sys_alloc : Z -> Z) (a : SlabAllocator) : Prop :=
  forall n, sys_alloc n <> 0 ->
    0 < sys_alloc n /\ sys_alloc n mod 64 = 0 /\ sys_alloc n + n <= 2 ^ 64 /\
    forall p, p ∈ slots a -> p + slot_size_ a <= sys_alloc n \/ sys_alloc n + n <= p.

(** ** Clients *)

(** A pool together with the slots its clients hold. A client frees what it
    holds, may free it again later, and may write anything but the freed marker
    over the slots it holds. Growth stays within the address space. *)
Definition may_grow (a : SlabAllocator) : Prop :=
  forall n, grow_chunk a = Some n -> 0 < n /\ slot_size_ a * n <= 2 ^ 63 /\ len (slots a) + n < 2 ^ 60.

Inductive client_step : SlabAllocator * gset Z -> SlabAllocator * gset Z -> Prop :=
| cs_allocate sys_alloc a l p a' :
    sys_fresh sys_alloc a -> may_grow a -> allocate sys_alloc a = Returns (p, a') ->
    client_step (a, l) (a', if p =? 0 then l else {[p]} ∪ l)
| cs_deallocate a l p a' : p ∈ l -> deallocate p a = Returns a' -> client_step (a, l) (a', l ∖ {[p]})
| cs_double_free a l p a' : p ∈ slots a -> p ∉ l -> deallocate p a = Returns a' -> client_step (a, l) (a', l)
| cs_write a l p n : p ∈ l -> magic n <> SLAB_MAGIC_FREED -> client_step (a, l) (user_write p n a, l).

(** ** Slots of a chunk *)

Lemma elem_of_chunk_slots slot c p :
  p ∈ chunk_slots slot c <-> exists i, 0 <= i < count c /\ p = data c + i * slot.
Proof.
  unfold chunk_slots. rewrite list_elem_of_fmap. split.
  - intros (i & -> & [_ Hi]%elem_of_seq). exists (Z.of_nat i). split; [lia|done].
  - intros (i & Hi & ->). exists (Z.to_nat i). rewrite Z2Nat.id, elem_of_seq by lia. split; [done|lia].
Qed.

Lemma len_chunk_slots slot c : 0 <= count c -> len (chunk_slots slot c) = count c.
Proof. intros. unfold chunk_slots. rewrite len_fmap. unfold len. rewrite length_seq. lia. Qed.

Lemma chunk_slots_nodup slot c : 0 < slot -> NoDup (chunk_slots slot c).
Proof.
  intros. unfold chunk_slots. apply NoDup_fmap_2; [|apply NoDup_seq]. intros i j E. nia.
Qed.

(** Two slots of a chunk do not overlap. *)
Lemma chunk_slots_apart slot c p q :
  0 < slot -> p ∈ chunk_slots slot c -> q ∈ chunk_slots slot c -> p <> q -> p + slot <= q \/ q + slot <= p.
Proof.
  intros Hs (i & Hi & ->)%elem_of_chunk_slots (j & Hj & ->)%elem_of_chunk_slots Hne.
  assert (i <> j) by congruence. nia.
Qed.

(** ** The free list *)

Lemma chain_frame m m' head F : (forall p, p ∈ F -> m' !! p = m !! p) -> chain m head F -> chain m' head F.
Proof.
  revert head. induction F as [|p F IH]; intros head Hf; [done|]. cbn. intros [-> (n & Hn & Hm & Hc)]. split; [done|].
  exists n. rewrite Hf by apply list_elem_of_here. split_and!; [done..|]. apply IH; [|done].
  intros q Hq. apply Hf. by apply list_elem_of_further.
Qed.

Lemma chain_freed m head F p : chain m head F -> p ∈ F -> exists n, m !! p = Some n /\ magic n = SLAB_MAGIC_FREED.
Proof.
  revert head. induction F as [|q F IH]; intros head; [by intros _ ?%not_elem_of_nil|]. cbn.
  intros [-> (n & Hn & Hm & Hc)] [->|Hp]%elem_of_cons; [by exists n|by eapply IH].
Qed.

Lemma push_slots_spec i chunk slot fl m F :
  0 < slot -> chain m fl F ->
  (forall p, p ∈ F -> p ∉ (fun i => chunk + Z.of_nat i * slot) <$> seq 0 i) ->
  let N := (fun i => chunk + Z.of_nat i * slot) <$> seq 0 i in
  let r := push_slots i chunk slot fl m in
  chain r.2 r.1 (N ++ F) /\ (forall p, p ∉ N -> r.2 !! p = m !! p) /\ (forall p, p ∈ N -> is_Some (r.2 !! p)).
Proof.
  intros Hs. revert fl m F. induction i as [|i IH]; intros fl m F Hc Hd; [cbn; split_and!; [done..|]; by intros p ?%not_elem_of_nil|].
  cbv zeta. rewrite seq_S, fmap_app. cbn [fmap list_fmap]. rewrite Nat.add_0_l. cbn [push_slots]. set (node := chunk + Z.of_nat i * slot).
  set (m1 := <[node := mkFreeNode fl SLAB_MAGIC_FREED]> m).
  assert (Hd' : forall p, p ∈ F -> p <> node /\ p ∉ (fun i => chunk + Z.of_nat i * slot) <$> seq 0 i).
  { intros p Hp. specialize (Hd p Hp). rewrite seq_S, fmap_app in Hd. cbn in Hd. fold node in Hd. rewrite not_elem_of_app in Hd.
    destruct Hd as [? Hn]. split; [|done]. intros ->. by apply Hn, list_elem_of_here. }
  destruct (IH node m1 (node :: F)) as (H1 & H2 & H3).
  - cbn. split; [done|]. exists (mkFreeNode fl SLAB_MAGIC_FREED). unfold m1. rewrite lookup_insert_eq. split_and!; [done..|].
    eapply chain_frame; [|exact Hc]. intros p Hp. apply lookup_insert_ne. by destruct (Hd' p Hp).
  - intros p [->|Hp]%elem_of_cons; [|by apply Hd']. intros (j & E & [_ Hj]%elem_of_seq)%list_elem_of_fmap. unfold node in E. nia.
  - rewrite <- app_assoc. cbn [app]. split_and!; [done| |].
    + intros p [Hp1 Hp2]%not_elem_of_app. rewrite H2 by done. unfold m1. apply lookup_insert_ne. intros <-. by apply Hp2, list_elem_of_here.
    + intros p [Hp|Hp]%elem_of_app; [by apply H3|]. apply list_elem_of_singleton in Hp as ->.
      destruct (decide (node ∈ (fun i => chunk + Z.of_nat i * slot) <$> seq 0 i)) as [Hin|Hin]; [by apply H3|].
      rewrite H2 by done. unfold m1. rewrite lookup_insert_eq. by eexists.
Qed.

(** ** Growing *)

Lemma slots_grow cs slot c : (cs ++ [c]) ≫= chunk_slots slot = (cs ≫= chunk_slots slot) ++ chunk_slots slot c.
Proof. rewrite bind_app. cbn. by rewrite app_nil_r. Qed.

(** A new chunk extends the pool and its free list, and keeps the rest. *)
Lemma grow_spec sys_alloc n a F :
  inv a F -> 0 < n -> slot_size_ a * n <= 2 ^ 63 -> len (slots a) + n < 2 ^ 60 -> sys_fresh sys_alloc a ->
  let r := grow sys_alloc n a in
  r = Throws bad_alloc \/
  exists a', r = Returns a' /\ inv a' (chunk_slots (slot_size_ a) (mkChunkInfo (sys_alloc (align_up (slot_size_ a * n) kAlignment)) n) ++ F) /\
    slots a' = slots a ++ chunk_slots (slot_size_ a) (mkChunkInfo (sys_alloc (align_up (slot_size_ a * n) kAlignment)) n) /\
    slot_size_ a' = slot_size_ a /\ config_ a' = config_ a /\ total_count_ a' = total_count_ a + n /\ 0 < free_list_ a' /\
    (forall p, p ∈ slots a -> mem a' !! p = mem a !! p).
Proof.
  intros Hinv Hn Hsz Htot Hfresh. destruct (inv_slot _ _ Hinv) as [Hslot Hslot16]. unfold grow.
  destruct ((0 <? n) && _); [by left|]. destruct (Z.eqb_spec (sys_alloc (align_up (slot_size_ a * n) kAlignment)) 0) as [|Hnz]; [by left|].
  right. set (sz := align_up (slot_size_ a * n) kAlignment) in *. set (c := mkChunkInfo (sys_alloc sz) n).
  assert (Hszr : slot_size_ a * n <= sz).
  { pose proof (align_up_spec (slot_size_ a * n) 6 ltac:(nia) ltac:(lia) ltac:(lia)) as [[Hle _] _]. exact Hle. }
  destruct (Hfresh sz Hnz) as (Hb & Hb64 & Hbend & Hbd).
  assert (Hcs : forall p, p ∈ chunk_slots (slot_size_ a) c -> 0 < p /\ p mod 16 = 0 /\ sys_alloc sz <= p /\ p + slot_size_ a <= sys_alloc sz + sz).
  { intros p (i & Hi & ->)%elem_of_chunk_slots. cbn in *. split_and!; [nia| |nia|nia].
    apply Z.mod_divide in Hslot16 as [q Hq]; [|lia]. apply Z.mod_divide in Hb64 as [r Hr]; [|lia].
    rewrite Hr, Hq. replace (r * 64 + i * (q * 16)) with ((r * 4 + i * q) * 16) by lia. apply Z_mod_mult. }
  assert (Hdis : forall p, p ∈ slots a -> p ∉ chunk_slots (slot_size_ a) c).
  { intros p Hp Hc. destruct (Hbd p Hp), (Hcs p Hc) as (_ & _ & ? & ?); lia. }
  pose proof (push_slots_spec (Z.to_nat n) (sys_alloc sz) (slot_size_ a) (free_list_ a) (mem a) F ltac:(lia) (inv_chain _ _ Hinv)) as Hpush.
  destruct (push_slots _ _ _ _ _) as [fl m]. cbv zeta in Hpush. cbn [fst snd] in Hpush.
  change ((fun i => sys_alloc sz + Z.of_nat i * slot_size_ a) <$> seq 0 (Z.to_nat n)) with (chunk_slots (slot_size_ a) c) in Hpush.
  destruct Hpush as (Hchain & Hout & Hin); [intros p Hp; by apply Hdis, (inv_free _ _ Hinv)|].
  eexists. split; [done|]. assert (Hsl : slots (mkSlabAllocator (chunks_ a ++ [c]) fl (slot_size_ a) (u64 (total_count_ a + n))
    (u64 (free_count_ a + n)) (config_ a) (initial_count_ a) (grow_count_ a) (peak_allocated_ a) (double_free_count_ a) m)
    = slots a ++ chunk_slots (slot_size_ a) c) by apply slots_grow.
  assert (Hlc : len (chunk_slots (slot_size_ a) c) = n) by (apply len_chunk_slots; cbn; lia).
  destruct (inv_total _ _ Hinv) as [Ht Htb]. pose proof (inv_count _ _ Hinv) as Hfc. pose proof (len_nonneg (slots a)).
  assert (HlF : len F <= len (slots a)).
  { unfold len. apply inj_le. apply submseteq_length, NoDup_submseteq; [apply (inv_free_nd _ _ Hinv)|]. apply (inv_free _ _ Hinv). }
  assert (Etot : u64 (total_count_ a + n) = total_count_ a + n) by (apply wrap_small; unfold in_width; lia).
  pose proof (len_nonneg F).
  assert (Efc : u64 (free_count_ a + n) = free_count_ a + n) by (apply wrap_small; unfold in_width; lia).
  fold c. rewrite Etot, Efc in *.
  split; [|split_and!; [exact Hsl|done|done|done| |]].
  - constructor; rewrite ?Hsl; cbn -[slots wrap]; try done.
    + apply NoDup_app. split_and!; [apply Hinv|done|apply chunk_slots_nodup; lia].
    + intros p [Hp|Hp]%elem_of_app; [by apply (inv_pos _ _ Hinv)|]. destruct (Hcs p Hp) as (? & ? & ? & ?). split_and!; (done || lia).
    + intros p q [Hp|Hp]%elem_of_app [Hq|Hq]%elem_of_app Hne.
      * by apply (inv_apart _ _ Hinv).
      * destruct (Hbd p Hp), (Hcs q Hq) as (_ & _ & ? & ?); lia.
      * destruct (Hbd q Hq), (Hcs p Hp) as (_ & _ & ? & ?); lia.
      * by apply (chunk_slots_apart _ c); [lia|..].
    + intros p Hp. destruct (decide (p ∈ chunk_slots (slot_size_ a) c)) as [|Hni]; [by apply Hin|]. rewrite Hout by done.
      apply elem_of_app in Hp as [|]; [by apply (inv_mem _ _ Hinv)|done].
    + apply NoDup_app. split_and!; [apply chunk_slots_nodup; lia| |apply Hinv]. intros p Hp Hf. by apply (Hdis p); [apply (inv_free _ _ Hinv)|].
    + intros p [Hp|Hp]%elem_of_app; apply elem_of_app; [by right|left; by apply (inv_free _ _ Hinv)].
    + rewrite len_app. lia.
    + rewrite len_app. lia.
    + rewrite !len_app. pose proof (inv_peak _ _ Hinv). lia.
  - cbn. destruct (chunk_slots (slot_size_ a) c) as [|p l] eqn:E; [rewrite len_nil in Hlc; lia|].
    cbn in Hchain. destruct Hchain as [-> _]. destruct (Hcs p); [|done]. apply list_elem_of_here.
  - intros p Hp. cbn. apply Hout. by apply Hdis.
Qed.

(** ** Taking and returning slots *)

Lemma free_le_slots a F : inv a F -> len F <= len (slots a).
Proof.
  intros Hinv. unfold len. apply inj_le. apply submseteq_length, NoDup_submseteq; [apply (inv_free_nd _ _ Hinv)|apply (inv_free _ _ Hinv)].
Qed.

Lemma allocated_count_spec a F : inv a F -> allocated_count a = len (slots a) - len F.
Proof.
  intros Hinv. unfold allocated_count. destruct (inv_total _ _ Hinv) as [-> Hb]. rewrite (inv_count _ _ Hinv).
  pose proof (free_le_slots _ _ Hinv). pose proof (len_nonneg F). apply wrap_small. unfold in_width. lia.
Qed.

Lemma pop_slot_spec a p F :
  inv a (p :: F) ->
  exists a', pop_slot a = Returns (p, a') /\ inv a' F /\ slots a' = slots a /\ slot_size_ a' = slot_size_ a /\
    (exists n, mem a' !! p = Some n /\ magic n = SLAB_MAGIC_ALLOCATED) /\ (forall q, q <> p -> mem a' !! q = mem a !! q).
Proof.
  intros Hinv. pose proof (free_le_slots _ _ Hinv) as Hle. pose proof (len_nonneg F) as HF. rewrite len_cons in Hle.
  destruct (inv_total _ _ Hinv) as [Ht Hb]. pose proof (inv_count _ _ Hinv) as Hc. rewrite len_cons in Hc.
  pose proof (inv_chain _ _ Hinv) as Hch. cbn in Hch. destruct Hch as [Hfl (n & Hn & Hmag & Hch)].
  pose proof (inv_free_nd _ _ Hinv) as [Hni Hnd]%NoDup_cons.
  unfold pop_slot. rewrite Hfl, Hn. eexists. split; [done|]. cbn -[wrap slots allocated_count].
  unfold allocated_count; cbn -[wrap slots]. rewrite wrap_sub_r. rewrite Ht, Hc.
  assert (E1 : u64 (1 + len F - 1) = len F) by (rewrite wrap_small; [lia|unfold in_width; lia]).
  assert (E2 : u64 (len (slots a) - (1 + len F - 1)) = len (slots a) - len F) by (rewrite wrap_small; [lia|unfold in_width; lia]).
  rewrite E1, E2. split; [|split_and!; [done|done| |]].
  - destruct Hinv. constructor; cbn -[wrap slots]; try done.
    + intros q Hq. destruct (decide (q = p)) as [->|]; [rewrite lookup_insert_eq; by eexists|rewrite lookup_insert_ne by done; by apply inv_mem0].
    + intros q Hq. apply inv_free0. by apply list_elem_of_further.
    + eapply chain_frame; [|exact Hch]. intros q Hq. apply lookup_insert_ne. congruence.
    + destruct (Z.ltb_spec (peak_allocated_ a) (len (slots a) - len F)); change (slots (mkSlabAllocator _ _ _ _ _ _ _ _ _ _ _)) with (slots a); lia.
  - eexists. rewrite lookup_insert_eq. done.
  - intros q Hq. cbn. by rewrite lookup_insert_ne.
Qed.

(** [allocate]: null when the pool may not grow, [bad_alloc] when the system is
    out of memory, and otherwise a slot nobody holds. *)
Lemma allocate_spec sys_alloc a F :
  inv a F -> sys_fresh sys_alloc a -> may_grow a ->
  (F = [] /\ grow_chunk a = None /\ allocate sys_alloc a = Returns (0, a)) \/
  (F = [] /\ allocate sys_alloc a = Throws bad_alloc) \/
  exists p a' F', allocate sys_alloc a = Returns (p, a') /\ inv a' F' /\ 0 < p /\ in_use a' F' p /\ ~ in_use a F p /\
    (forall q, in_use a' F' q <-> q = p \/ in_use a F q) /\
    (exists n, mem a' !! p = Some n /\ magic n = SLAB_MAGIC_ALLOCATED) /\
    (forall q, in_use a F q -> mem a' !! q = mem a !! q).
Proof.
  intros Hinv Hfresh Hgrow. unfold allocate. pose proof (inv_chain _ _ Hinv) as Hch. destruct F as [|p F].
  - cbn in Hch. rewrite Hch. cbn [Z.eqb]. destruct (grow_chunk a) as [n|] eqn:Eg; [|by left]. right.
    destruct (Hgrow n Eg) as (Hn & Hsz & Hb).
    destruct (grow_spec sys_alloc n a [] Hinv Hn Hsz Hb Hfresh) as [->|(a1 & -> & Hinv1 & Hsl1 & Hss1 & _ & _ & _ & Hmem1)]; [by left|].
    right. cbn [outcome_bind]. set (N := chunk_slots _ _) in *. rewrite app_nil_r in Hinv1.
    set (a2 := mkSlabAllocator _ _ _ _ _ _ _ _ _ _ _). assert (Hinv2 : inv a2 N) by (by destruct Hinv1).
    assert (HN : 0 < len N) by (unfold N; rewrite len_chunk_slots; cbn; lia). clearbody N.
    destruct N as [|p N]; [done|].
    destruct (pop_slot_spec a2 p N Hinv2) as (a3 & -> & Hinv3 & Hsl3 & _ & Hmag & Hmem3).
    pose proof (inv_free_nd _ _ Hinv2) as [Hni _]%NoDup_cons. pose proof (inv_nodup _ _ Hinv2) as Hnd.
    change (slots a2) with (slots a1) in *. rewrite Hsl1 in *. apply NoDup_app in Hnd as (_ & Hdis & _).
    assert (Hpa : p ∉ slots a) by (intros Hp; apply (Hdis p Hp), list_elem_of_here).
    assert (Hp3 : p ∈ slots a3) by (rewrite Hsl3; apply elem_of_app; right; apply list_elem_of_here).
    exists p, a3, N. split_and!; [done|done| |done| | |done|].
    + by apply (inv_pos _ _ Hinv3).
    + by intros [? _].
    + intros q. unfold in_use. rewrite Hsl3, elem_of_app, elem_of_cons. split.
      * intros [[Hq|[->|Hq]] Hqn]; [right; split; [done|apply not_elem_of_nil]|by left|done].
      * intros [->|[Hq _]]; [split; [right; by left|done]|]. split; [by left|]. intros Hqn. apply (Hdis q Hq). by apply list_elem_of_further.
    + intros q [Hq _]. rewrite Hmem3 by congruence. change (mem a2) with (mem a1). by apply Hmem1.
  - right. right. cbn in Hch. destruct Hch as [Hfl _]. assert (Hp : p ∈ slots a) by (apply (inv_free _ _ Hinv), list_elem_of_here).
    destruct (inv_pos _ _ Hinv p Hp) as [Hpos _]. rewrite Hfl. destruct (Z.eqb_spec p 0); [lia|].
    destruct (pop_slot_spec a p F Hinv) as (a' & -> & Hinv' & Hsl & _ & Hmag & Hmem).
    pose proof (inv_free_nd _ _ Hinv) as [Hni _]%NoDup_cons.
    exists p, a', F. split_and!; [done..| | | |done|].
    + unfold in_use. by rewrite Hsl.
    + intros [_ Hn]. by apply Hn, list_elem_of_here.
    + intros q. unfold in_use. rewrite Hsl, not_elem_of_cons. split.
      * intros [Hq Hqn]. destruct (decide (q = p)); [by left|by right].
      * intros [->|(Hq & _ & Hqn)]; done.
    + intros q [_ Hq]. apply Hmem. intros ->. by apply Hq, list_elem_of_here.
Qed.

Lemma deallocate_spec a F p n :
  inv a F -> in_use a F p -> mem a !! p = Some n -> magic n <> SLAB_MAGIC_FREED ->
  exists a', deallocate p a = Returns a' /\ inv a' (p :: F) /\ slots a' = slots a /\
    (forall q, q <> p -> mem a' !! q = mem a !! q).
Proof.
  intros Hinv [Hp HpF] Hn Hmag. destruct (inv_pos _ _ Hinv p Hp) as [Hpos _]. unfold deallocate.
  destruct (Z.eqb_spec p 0); [lia|]. rewrite Hn. destruct (Z.eqb_spec (magic n) SLAB_MAGIC_FREED); [done|].
  eexists. split; [done|]. destruct (inv_total _ _ Hinv) as [Ht Hb]. pose proof (len_nonneg F).
  assert (Hlt : len F + 1 <= len (slots a)).
  { replace (len F + 1) with (len (p :: F)) by (rewrite len_cons; lia). unfold len. apply inj_le.
    apply submseteq_length, NoDup_submseteq; [constructor; [done|apply Hinv]|].
    intros q [->|Hq]%elem_of_cons; [done|by apply (inv_free _ _ Hinv)]. }
  split; [|split; [done|intros q Hq; cbn; by rewrite lookup_insert_ne]].
  destruct Hinv. constructor; cbn -[wrap slots]; try done.
  - intros q Hq. destruct (decide (q = p)) as [->|]; [rewrite lookup_insert_eq; by eexists|rewrite lookup_insert_ne by done; by apply inv_mem0].
  - by constructor.
  - intros q [->|Hq]%elem_of_cons; [done|by apply inv_free0].
  - split; [done|]. eexists. rewrite lookup_insert_eq. split_and!; [done..|]. cbn.
    eapply chain_frame; [|exact inv_chain0]. intros q Hq. apply lookup_insert_ne. congruence.
  - rewrite len_cons, inv_count0. rewrite wrap_small by (unfold in_width; lia). lia.
  - rewrite len_cons. change (slots (mkSlabAllocator _ _ _ _ _ _ _ _ _ _ _)) with (slots a). lia.
Qed.

(** Freeing a slot that is already free is counted and changes nothing else. *)
Lemma double_free_spec a F p :
  inv a F -> p ∈ F ->
  exists a', deallocate p a = Returns a' /\ inv a' F /\ slots a' = slots a /\ mem a' = mem a /\
    double_free_count_ a' = u64 (double_free_count_ a + 1).
Proof.
  intros Hinv Hp. destruct (inv_pos _ _ Hinv p) as [Hpos _]; [by apply (inv_free _ _ Hinv)|].
  destruct (chain_freed _ _ _ p (inv_chain _ _ Hinv) Hp) as (n & Hn & Hmag). unfold deallocate.
  destruct (Z.eqb_spec p 0); [lia|]. rewrite Hn, Hmag. cbn [Z.eqb]. rewrite Z.eqb_refl.
  eexists. split; [done|]. split_and!; [|done..]. destruct Hinv. by constructor.
Qed.

(** [owns] recognises exactly the slots of the pool. *)
Lemma owns_slot a F p : inv a F -> p ∈ slots a -> owns p a = true.
Proof.
  intros Hinv. destruct (inv_slot _ _ Hinv) as [Hs _]. pose proof (inv_apart _ _ Hinv) as Hap. unfold owns, slots in *.
  revert Hap. induction (chunks_ a) as [|c cs IH]; intros Hap Hp; [by apply not_elem_of_nil in Hp|]. cbn in Hap, Hp |- *.
  apply elem_of_app in Hp as Hp'. destruct (Z.leb_spec (data c) p) as [H1|H1]; cbn [andb].
  2:{ apply IH; [intros q r Hq Hr; apply Hap; apply elem_of_app; by right|]. destruct Hp' as [(i & Hi & ->)%elem_of_chunk_slots|]; [nia|done]. }
  destruct (Z.ltb_spec p (data c + slot_size_ a * count c)) as [H2|H2].
  2:{ apply IH; [intros q r Hq Hr; apply Hap; apply elem_of_app; by right|]. destruct Hp' as [(i & Hi & ->)%elem_of_chunk_slots|]; [nia|done]. }
  set (i := (p - data c) / slot_size_ a). pose proof (Z.div_mod (p - data c) (slot_size_ a) ltac:(lia)) as Hdm. fold i in Hdm.
  pose proof (Z.mod_pos_bound (p - data c) (slot_size_ a) ltac:(lia)) as Hm.
  assert (Hq : data c + i * slot_size_ a ∈ chunk_slots (slot_size_ a) c) by (apply elem_of_chunk_slots; exists i; split; [nia|done]).
  destruct (decide (p = data c + i * slot_size_ a)) as [E|Hne]; [apply Z.eqb_eq; nia|].
  destruct (Hap p (data c + i * slot_size_ a)); [done|apply elem_of_app; by left|done|nia|nia].
Qed.

(** ** Every client history *)

(** The pool and the slots held agree. *)
Definition agrees (s : SlabAllocator * gset Z) : Prop :=
  exists F, inv s.1 F /\ (forall p, p ∈ s.2 <-> in_use s.1 F p) /\
    (forall p, p ∈ s.2 -> exists n, mem s.1 !! p = Some n /\ magic n <> SLAB_MAGIC_FREED).

Lemma agrees_write a l p n : agrees (a, l) -> p ∈ l -> magic n <> SLAB_MAGIC_FREED -> agrees (user_write p n a, l).
Proof.
  intros (F & Hinv & Hl & Hm) Hp Hmag. cbn in *. assert (HpF : p ∉ F) by (by apply Hl in Hp as [_ ?]).
  exists F. split_and!; cbn; [|done|].
  - destruct Hinv. constructor; cbn -[slots]; try done.
    + intros q Hq. destruct (decide (q = p)) as [->|]; [rewrite lookup_insert_eq; by eexists|rewrite lookup_insert_ne by done; by apply inv_mem0].
    + eapply chain_frame; [|exact inv_chain0]. intros q Hq. apply lookup_insert_ne. congruence.
  - intros q Hq. destruct (decide (q = p)) as [->|]; [exists n; by rewrite lookup_insert_eq|]. rewrite lookup_insert_ne by done. by apply Hm.
Qed.

Lemma client_step_agrees s s' : client_step s s' -> agrees s -> agrees s'.
Proof.
  intros Hstep (F & Hinv & Hl & Hm).
  destruct Hstep as [sys a l p a' Hf Hg E|a l p a' Hp E|a l p a' Hp Hpl E|a l p n Hp Hmag]; cbn in *.
  - destruct (allocate_spec sys a F Hinv Hf Hg) as [(-> & _ & E')|[(_ & E')|(p' & a1 & F' & E' & Hinv' & Hpos & Hpu & Hpn & Hu & (n & Hn & Hmag) & Hmem)]];
      rewrite E' in E; [|done|]; injection E as <- <-.
    + by exists [].
    + destruct (Z.eqb_spec p' 0); [lia|]. exists F'. cbn. split_and!; [done| |].
      * intros q. rewrite elem_of_union, elem_of_singleton, Hl. by rewrite Hu.
      * intros q [->%elem_of_singleton|Hq]%elem_of_union; [exists n; split; [done|]; rewrite Hmag; discriminate|].
        rewrite Hmem by (by apply Hl). by apply Hm.
  - destruct (Hm p Hp) as (n & Hn & Hmag). destruct (deallocate_spec a F p n Hinv) as (a1 & E' & Hinv' & Hsl & Hmem); [by apply Hl|done..|].
    rewrite E' in E. injection E as <-. exists (p :: F). cbn. split_and!; [done| |].
    + intros q. rewrite elem_of_difference, elem_of_singleton, Hl. unfold in_use. rewrite Hsl, not_elem_of_cons. tauto.
    + intros q [Hq Hne]%elem_of_difference. rewrite elem_of_singleton in Hne. rewrite Hmem by done. by apply Hm.
  - assert (HpF : p ∈ F) by (destruct (decide (p ∈ F)); [done|]; exfalso; apply Hpl, Hl; done).
    destruct (double_free_spec a F p Hinv HpF) as (a1 & E' & Hinv' & Hsl & Hmem & _). rewrite E' in E. injection E as <-.
    exists F. cbn. split_and!; [done| |by rewrite Hmem]. intros q. unfold in_use. rewrite Hsl. apply Hl.
  - apply agrees_write; [by exists F|done|done].
Qed.

Lemma make_agrees sys_alloc slot n config a :
  0 <= slot < 2 ^ 62 -> 0 < n < 2 ^ 60 -> align_up (Z.max slot sizeof_FreeNode) max_align * n <= 2 ^ 63 ->
  (forall k, sys_alloc k <> 0 -> 0 < sys_alloc k /\ sys_alloc k mod 64 = 0 /\ sys_alloc k + k <= 2 ^ 64) ->
  make sys_alloc slot n config = Returns a -> agrees (a, ∅) /\ slot <= slot_size_ a.
Proof.
  intros Hslot Hn Hsz Hsys. unfold make. destruct (Z.eqb_spec n 0); [lia|].
  pose proof (align_up_spec (Z.max slot 16) 4 ltac:(lia) ltac:(lia) ltac:(lia)) as [Hr Hr16]. cbv zeta in Hr, Hr16.
  change (Z.land (u64 (Z.max slot 16 + 2 ^ 4 - 1)) (u64 (- 2 ^ 4))) with (align_up (Z.max slot sizeof_FreeNode) max_align) in Hr, Hr16.
  set (ss := align_up (Z.max slot sizeof_FreeNode) max_align) in *.
  set (a0 := mkSlabAllocator _ _ _ _ _ _ _ _ _ _ _). intros E.
  assert (Hnil : forall p, p ∉ slots a0) by (intros p; apply not_elem_of_nil).
  assert (Hinv : inv a0 []).
  { constructor; cbn -[slots]; try done; try (by intros p Hp; exfalso; eapply Hnil).
    - split; [change (2 ^ 4) with 16 in *; lia|exact Hr16].
    - constructor.
    - by intros p q Hp; exfalso; eapply Hnil.
    - constructor. }
  destruct (grow_spec sys_alloc n a0 [] Hinv) as [E'|(a' & E' & Hinv' & Hsl & Hss & _)]; [lia|done|change (0 + n < 2 ^ 60); lia| |congruence|].
  { intros k Hk. destruct (Hsys k Hk) as (? & ? & ?). split_and!; [done..|]. intros p Hp. by apply Hnil in Hp. }
  rewrite E' in E. injection E as ->. split; [|rewrite Hss; cbn; lia].
  eexists. split; [exact Hinv'|]. split; [|by intros p ?%elem_of_empty]. intros p. cbn. split; [by intros ?%elem_of_empty|].
  intros [Hp Hn']. exfalso. apply Hn'. rewrite Hsl in Hp. rewrite app_nil_r. apply elem_of_app in Hp as [Hp|Hp]; [by apply Hnil in Hp|done].
Qed.

(** Slots never overlap and are never handed out twice. Start from a pool and
    let its clients allocate, free, free again what is already free, and write
    over what they hold, in any order, growing or not. Then the slots held at any
    moment are non-null, 16-byte aligned, recognised by [owns], at least as large
    as requested and pairwise disjoint in memory; [allocated_count] is their
    number and never exceeds the recorded peak; freeing a held slot always
    succeeds, and freeing a slot that is free is counted without corrupting the
    pool. *)
Theorem slab_slots_disjoint sys_alloc slot n config a0 a l
    (Hslot : 0 <= slot < 2 ^ 62) (Hn : 0 < n < 2 ^ 60)
    (Hsz : align_up (Z.max slot sizeof_FreeNode) max_align * n <= 2 ^ 63)
    (Hsys : forall k, sys_alloc k <> 0 -> 0 < sys_alloc k /\ sys_alloc k mod 64 = 0 /\ sys_alloc k + k <= 2 ^ 64)
    (Hmake : make sys_alloc slot n config = Returns a0) (Hrun : rtc client_step (a0, ∅) (a, l)) :
  (forall p, p ∈ l -> 0 < p /\ p mod 16 = 0 /\ p + slot_size_ a <= 2 ^ 64 /\ owns p a = true /\
     exists a', deallocate p a = Returns a' /\ double_free_count_ a' = double_free_count_ a) /\
  (forall p q, p ∈ l -> q ∈ l -> p <> q -> p + slot_size_ a <= q \/ q + slot_size_ a <= p) /\
  allocated_count a = Z.of_nat (size l) /\ Z.of_nat (size l) <= peak_allocated_ a /\
  (forall p, p ∈ slots a -> p ∉ l ->
     exists a', deallocate p a = Returns a' /\ slots a' = slots a /\ mem a' = mem a /\ double_free_count_ a' = u64 (double_free_count_ a + 1)).
Proof.
  destruct (make_agrees _ _ _ _ _ Hslot Hn Hsz Hsys Hmake) as [Hag0 _].
  assert (Hag : agrees (a, l)).
  { clear -Hag0 Hrun. revert Hag0. generalize (a, l) as t, (a0, ∅ : gset Z) as s, Hrun. clear.
    intros t s Hrun. induction Hrun as [|s1 s2 s3 Hs _ IH]; [done|]. intros H. apply IH. by eapply client_step_agrees. }
  destruct Hag as (F & Hinv & Hl & Hm). cbn in *.
  assert (Hsize : Z.of_nat (size l) = len (slots a) - len F).
  { assert (El : l = list_to_set (slots a) ∖ list_to_set F).
    { apply set_eq. intros p. rewrite Hl, elem_of_difference, !elem_of_list_to_set. done. }
    rewrite El, size_difference.
    - rewrite !size_list_to_set by apply Hinv. pose proof (free_le_slots _ _ Hinv). unfold len in *. lia.
    - intros p. rewrite !elem_of_list_to_set. apply (inv_free _ _ Hinv). }
  split_and!.
  - intros p Hp. destruct (Hm p Hp) as (nd & Hnd & Hmag). apply Hl in Hp as Hu. destruct Hu as [Hps HpF].
    destruct (inv_pos _ _ Hinv p Hps) as (? & ? & ?). split_and!; [done..|by eapply owns_slot|].
    unfold deallocate. destruct (Z.eqb_spec p 0); [lia|]. rewrite Hnd. destruct (Z.eqb_spec (magic nd) SLAB_MAGIC_FREED); [done|]. by eexists.
  - intros p q Hp%Hl Hq%Hl. apply (inv_apart _ _ Hinv); [apply Hp|apply Hq].
  - rewrite (allocated_count_spec _ _ Hinv). lia.
  - rewrite Hsize. apply (inv_peak _ _ Hinv).
  - intros p Hp Hpl. assert (HpF : p ∈ F) by (destruct (decide (p ∈ F)); [done|]; exfalso; apply Hpl, Hl; done).
    destruct (double_free_spec a F p Hinv HpF) as (a' & ? & _ & ? & ? & ?). by exists a'.
Qed.

(** One chunk of two 32-byte slots, both taken. *)
Lemma slab_slots_disjoint_witness :
  let sys := fun k => if k =? 64 then 4096 else 0 in
  exists a0 a1 a2, make sys 24 2 (mkConfig false 0 0) = Returns a0 /\
    allocate (fun _ => 0) a0 = Returns (4096, a1) /\ allocate (fun _ => 0) a1 = Returns (4128, a2) /\
    (4096 + slot_size_ a2 <= 4128 \/ 4128 + slot_size_ a2 <= 4096).
Proof.
  intros sys. destruct (make sys 24 2 (mkConfig false 0 0)) as [a0|] eqn:E0; [|by vm_compute in E0].
  destruct (allocate (fun _ => 0) a0) as [[p1 a1]|] eqn:E1; [|by vm_compute in E0; injection E0 as <-; vm_compute in E1].
  destruct (allocate (fun _ => 0) a1) as [[p2 a2]|] eqn:E2;
    [|by vm_compute in E0; injection E0 as <-; vm_compute in E1; injection E1 as <- <-; vm_compute in E2].
  assert (Hs : forall a, sys_fresh (fun _ => 0) a) by (intros a k Hk; done).
  assert (p1 = 4096 /\ p2 = 4128 /\ grow_chunk a0 = None /\ grow_chunk a1 = None) as (-> & -> & Hg0 & Hg1).
  { vm_compute in E0. injection E0 as <-. vm_compute in E1. injection E1 as <- <-. vm_compute in E2. by injection E2 as <- <-. }
  exists a0, a1, a2. split_and!; [done..|].
  destruct (slab_slots_disjoint sys 24 2 (mkConfig false 0 0) a0 a2 ({[4128]} ∪ ({[4096]} ∪ ∅))) as (_ & Hap & _).
  - lia.
  - lia.
  - vm_compute. discriminate.
  - intros k. unfold sys. destruct (Z.eqb_spec k 64) as [->|]; [|done]. intros _. split_and!; [lia|done|lia].
  - exact E0.
  - eapply rtc_l; [eapply (cs_allocate (fun _ => 0) a0 ∅ 4096); [done|by intros n Hn; rewrite Hg0 in Hn|exact E1]|].
    eapply rtc_l; [eapply (cs_allocate (fun _ => 0) a1 _ 4128); [done|by intros n Hn; rewrite Hg1 in Hn|exact E2]|]. apply rtc_refl.
  - apply Hap; [set_solver|set_solver|lia].
Defined.
