(* ===== verification/Arena.v ===== *)
(** * Bump and arena allocators

    [apex::core::BumpAllocator] (bump_allocator.{hpp,cpp}) and
    [apex::core::ArenaAllocator] (arena_allocator.{hpp,cpp}): cursors advanced
    over one block, or over a chain of blocks bounded by [max_bytes].

    Addresses are 64-bit integers and null is 0; pointer sums are computed modulo
    2^64, as the machine does. [std::malloc] is the argument [malloc]: the base of
    a block of the given size, or null. *)

From Stdlib Require Import Lists.List.
From S2P Require Import Prelude MathUtils.

(** Two memory ranges (start, size) do not overlap. *)
Definition apart (b c : Z * Z) : Prop := b.1 + b.2 <= c.1 \/ c.1 + c.2 <= b.1.

(** [(addr + align - 1) & ~(align - 1)]. *)
Definition align_ptr (addr align : Z) : Z := Z.land (u64 (addr + align - 1)) (u64 (- align)).

(** [align == 0 || (align & (align - 1)) != 0]. *)
Definition bad_align (align : Z) : bool := (align =? 0) || negb (Z.land align (align - 1) =? 0).

(** ** Bump allocator *)

Record BumpAllocator : Type := mkBump { base_ : Z; cursor_ : Z; end_ : Z }.

Definition bump_make (malloc : Z -> Z) (capacity : Z) : outcome BumpAllocator :=
  if capacity =? 0 then Returns (mkBump 0 0 0)
  else
    let base := malloc capacity in
    if base =? 0 then Throws bad_alloc else Returns (mkBump base base (u64 (base + capacity))).

Definition bump_allocate (size align : Z) (b : BumpAllocator) : Z * BumpAllocator :=
  if size =? 0 then (0, b)
  else if bad_align align then (0, b)
  else if base_ b =? 0 then (0, b)
  else
    let result := align_ptr (cursor_ b) align in
    if end_ b <? u64 (result + size) then (0, b)
    else (result, mkBump (base_ b) (u64 (result + size)) (end_ b)).

Definition bump_reset (b : BumpAllocator) : BumpAllocator := mkBump (base_ b) (base_ b) (end_ b).
Definition bump_owns (ptr : Z) (b : BumpAllocator) : bool := (base_ b <=? ptr) && (ptr <? end_ b).
Definition bump_used_bytes (b : BumpAllocator) : Z := u64 (cursor_ b - base_ b).
Definition bump_capacity (b : BumpAllocator) : Z := u64 (end_ b - base_ b).

Definition bump_rebind_memory (malloc : Z -> Z) (b : BumpAllocator) : outcome BumpAllocator :=
  if base_ b =? 0 then Returns b
  else
    let cap := bump_capacity b in
    let base := malloc cap in
    if base =? 0 then Throws bad_alloc else Returns (mkBump base base (u64 (base + cap))).

(** The move constructor: the new allocator and what is left of the old one. *)
Definition bump_move (other : BumpAllocator) : BumpAllocator * BumpAllocator := (other, mkBump 0 0 0).

(** ** Arena allocator *)

Record Block : Type := mkBlock { b_base : Z; b_cursor : Z; b_end : Z; b_size : Z }.

Record ArenaAllocator : Type := mkArena {
  blocks_ : list Block;
  block_size_ : Z;
  max_bytes_ : Z;
  total_allocated_ : Z;
}.

Definition kDefaultBlockSize : Z := 4096.
Definition kDefaultMaxBytes : Z := 1024 * 1024.

Definition make_block (malloc : Z -> Z) (size : Z) : outcome Block :=
  let base := malloc size in
  if base =? 0 then Throws bad_alloc else Returns (mkBlock base base (u64 (base + size)) size).

Definition arena_make (malloc : Z -> Z) (block_size max_bytes : Z) : outcome ArenaAllocator :=
  run b <- make_block malloc block_size;
  Returns (mkArena [b] block_size max_bytes block_size).

(** [blocks_.back()] of an empty vector is undefined behaviour. *)
Definition arena_allocate (malloc : Z -> Z) (size align : Z) (a : ArenaAllocator) : outcome (Z * ArenaAllocator) :=
  if size =? 0 then Returns (0, a)
  else if bad_align align then Returns (0, a)
  else
    match last (blocks_ a) with
    | None => Throws undefined_behaviour
    | Some current =>
        let front := removelast (blocks_ a) in
        let result := align_ptr (b_cursor current) align in
        let new_cursor := u64 (result + size) in
        if new_cursor <=? b_end current then
          Returns (result, mkArena (front ++ [mkBlock (b_base current) new_cursor (b_end current) (b_size current)])
                             (block_size_ a) (max_bytes_ a) (total_allocated_ a))
        else
          let needed := u64 (size + (if 1 <? align then align - 1 else 0)) in
          let new_block_size := Z.max (block_size_ a) needed in
          if max_bytes_ a <? u64 (total_allocated_ a + new_block_size) then Returns (0, a)
          else
            run fresh <- make_block malloc new_block_size;
            let result := align_ptr (b_cursor fresh) align in
            let fresh := mkBlock (b_base fresh) (u64 (result + size)) (b_end fresh) (b_size fresh) in
            Returns (result, mkArena (blocks_ a ++ [fresh]) (block_size_ a) (max_bytes_ a)
                               (u64 (total_allocated_ a + new_block_size)))
    end.

Definition arena_reset (a : ArenaAllocator) : ArenaAllocator :=
  match blocks_ a with
  | [] => a
  | b :: _ => mkArena [mkBlock (b_base b) (b_base b) (b_end b) (b_size b)] (block_size_ a) (max_bytes_ a) (b_size b)
  end.

Definition arena_owns (ptr : Z) (a : ArenaAllocator) : bool :=
  existsb (fun b => (b_base b <=? ptr) && (ptr <? b_end b)) (blocks_ a).

Definition arena_used_bytes (a : ArenaAllocator) : Z :=
  foldl (fun total b => u64 (total + u64 (b_cursor b - b_base b))) 0 (blocks_ a).

Definition arena_capacity (a : ArenaAllocator) : Z := total_allocated_ a.

Definition arena_rebind_memory (malloc : Z -> Z) (a : ArenaAllocator) : outcome ArenaAllocator :=
  run b <- make_block malloc (block_size_ a);
  Returns (mkArena [b] (block_size_ a) (max_bytes_ a) (block_size_ a)).

(** ** Clients *)

(** The bump allocator with the blocks handed out since the last reset. The
    allocators live in user space, below 2^47, and requests are below 2^62. *)
Inductive bump_step : BumpAllocator * list (Z * Z) -> BumpAllocator * list (Z * Z) -> Prop :=
| bump_step_allocate b l size align p b' :
    0 <= size < 2 ^ 62 -> 0 <= align <= 2 ^ 62 -> bump_allocate size align b = (p, b') ->
    bump_step (b, l) (b', if p =? 0 then l else (p, size) :: l)
| bump_step_reset b l : bump_step (b, l) (bump_reset b, []).

(** What [malloc] guarantees of a block of [n] bytes: it lies in user space,
    apart from the blocks in use. *)
Definition malloc_fresh (malloc : Z -> Z) (bs : list (Z * Z)) : Prop :=
  forall n, malloc n <> 0 -> 0 < malloc n /\ malloc n + n < 2 ^ 47 /\ forall b, b ∈ bs -> apart (malloc n, n) b.

Definition block_range (b : Block) : Z * Z := (b_base b, b_size b).

Inductive arena_step : ArenaAllocator * list (Z * Z) -> ArenaAllocator * list (Z * Z) -> Prop :=
| arena_step_allocate malloc a l size align p a' :
    malloc_fresh malloc (block_range <$> blocks_ a) -> 0 <= size < 2 ^ 62 -> 0 <= align <= 2 ^ 62 ->
    arena_allocate malloc size align a = Returns (p, a') ->
    arena_step (a, l) (a', if p =? 0 then l else (p, size) :: l)
| arena_step_reset a l : arena_step (a, l) (arena_reset a, []).

(** ** Invariants *)

Definition bump_inv (s : BumpAllocator * list (Z * Z)) : Prop :=
  let '(b, l) := s in
  0 <= base_ b /\ base_ b <= cursor_ b <= end_ b /\ end_ b < 2 ^ 47 /\
  ForallOrdPairs apart l /\ Forall (fun r => base_ b <= r.1 /\ 0 < r.2 /\ r.1 + r.2 <= cursor_ b) l.

Definition block_ok (b : Block) : Prop :=
  0 < b_base b /\ b_base b <= b_cursor b <= b_end b /\ b_end b = b_base b + b_size b /\ b_end b < 2 ^ 47.

Fixpoint blocks_total (bs : list Block) : Z :=
  match bs with [] => 0 | b :: bs => b_size b + blocks_total bs end.

Definition inside (r : Z * Z) (b : Block) : Prop := b_base b <= r.1 /\ r.1 + r.2 <= b_cursor b.

Record arena_inv (a : ArenaAllocator) (l : list (Z * Z)) : Prop := mk_arena_inv {
  ai_nonempty : blocks_ a <> [];
  ai_limits : 0 <= block_size_ a < 2 ^ 62 /\ 0 <= max_bytes_ a < 2 ^ 62;
  ai_blocks : Forall block_ok (blocks_ a);
  ai_apart : ForallOrdPairs apart (block_range <$> blocks_ a);
  ai_total : total_allocated_ a = blocks_total (blocks_ a) /\ 0 <= total_allocated_ a <= Z.max (block_size_ a) (max_bytes_ a);
  ai_live : ForallOrdPairs apart l;
  ai_inside r : r ∈ l -> 0 < r.2 /\ exists b, b ∈ blocks_ a /\ inside r b;
}.

(** ** Alignment *)

Lemma bad_align_pow2 align : 0 <= align <= 2 ^ 62 -> bad_align align = false -> exists k, 0 <= k <= 62 /\ align = 2 ^ k.
Proof.
  intros Ha. unfold bad_align. destruct (Z.eqb_spec align 0); [done|]. cbn [orb].
  destruct (Z.eqb_spec (Z.land align (align - 1)) 0) as [E|]; [|done]. intros _.
  apply land_pred_iff in E as (k & Hk & ->); [|lia]. exists k. split; [|done]. split; [done|].
  destruct (decide (k <= 62)); [done|]. pose proof (Z.pow_le_mono_r 2 63 k). lia.
Qed.

Lemma align_ptr_spec addr align :
  0 <= addr < 2 ^ 47 -> 0 <= align <= 2 ^ 62 -> bad_align align = false ->
  addr <= align_ptr addr align < addr + align /\ align_ptr addr align mod align = 0.
Proof.
  intros Ha Hal Hb. destruct (bad_align_pow2 _ Hal Hb) as (k & Hk & ->).
  apply (align_up_spec addr k); lia.
Qed.

Lemma apart_sym b c : apart b c -> apart c b.
Proof. unfold apart. tauto. Qed.

Lemma ordpairs_lookup l i j b c :
  ForallOrdPairs apart l -> (i < j)%nat -> l !! i = Some b -> l !! j = Some c -> apart b c.
Proof.
  intros HF. revert i j. induction HF as [|x l Hx _ IH]; intros i j Hij Hi Hj; [done|].
  destruct i as [|i]; destruct j as [|j]; try lia; cbn in Hi, Hj.
  - injection Hi as ->. rewrite Forall_forall in Hx. apply Hx. by eapply list_elem_of_lookup_2.
  - eapply (IH i j); (done || lia).
Qed.

Lemma ordpairs_snoc l b : ForallOrdPairs apart l -> (forall c, c ∈ l -> apart c b) -> ForallOrdPairs apart (l ++ [b]).
Proof.
  intros HF Hb. induction HF as [|x l Hx _ IH]; [repeat constructor|]. cbn. constructor.
  - apply Forall_app. split; [done|]. apply Forall_singleton, Hb, list_elem_of_here.
  - apply IH. intros c Hc. apply Hb. by apply list_elem_of_further.
Qed.

(** ** Bump allocator *)

(** [allocate] refuses exactly when the aligned request does not fit. *)
Lemma bump_allocate_spec b l size align :
  bump_inv (b, l) -> 0 <= size < 2 ^ 62 -> 0 <= align <= 2 ^ 62 ->
  let r := bump_allocate size align b in
  if (size =? 0) || bad_align align || (base_ b =? 0) || (end_ b <? align_ptr (cursor_ b) align + size)
  then r = (0, b)
  else r = (align_ptr (cursor_ b) align, mkBump (base_ b) (align_ptr (cursor_ b) align + size) (end_ b)) /\
       0 < align_ptr (cursor_ b) align /\ align_ptr (cursor_ b) align mod align = 0 /\ cursor_ b <= align_ptr (cursor_ b) align.
Proof.
  intros (Hb & Hc & He & _) Hs Hal. unfold bump_allocate. cbv zeta.
  destruct (Z.eqb_spec size 0); [done|]. cbn [orb]. destruct (bad_align align) eqn:Ea; [done|]. cbn [orb].
  destruct (Z.eqb_spec (base_ b) 0); [done|]. cbn [orb].
  destruct (align_ptr_spec (cursor_ b) align) as [Hr Hm]; [lia|done|done|].
  rewrite wrap_small by (unfold in_width; lia). destruct (Z.ltb_spec (end_ b) (align_ptr (cursor_ b) align + size)); [done|].
  split_and!; [done|lia|done|lia].
Qed.

Lemma bump_step_inv s s' : bump_step s s' -> bump_inv s -> bump_inv s'.
Proof.
  intros Hst Hinv. destruct Hst as [b l size align p b' Hs Hal E|b l].
  - pose proof (bump_allocate_spec b l size align Hinv Hs Hal) as Hsp. cbv zeta in Hsp. rewrite E in Hsp.
    destruct Hinv as (Hb & Hc & He & Hp & Hl). destruct (_ || _) eqn:Ec.
    + injection Hsp as -> ->. done.
    + destruct Hsp as (Hsp & Hpos & Hm & Hle). injection Hsp as Ep ->. rewrite !orb_false_iff, Z.eqb_neq, Z.ltb_ge in Ec.
      destruct Ec as [[[Hs0 _] _] Hfit]. rewrite <- Ep in *. destruct (Z.eqb_spec p 0); [lia|]. cbn. split_and!; [done|lia|lia|done| |].
      * constructor; [|done]. eapply Forall_impl; [exact Hl|]. cbn. intros r Hr. unfold apart; cbn. lia.
      * constructor; [cbn; lia|]. eapply Forall_impl; [exact Hl|]. cbn. lia.
  - destruct Hinv as (Hb & Hc & He & _). cbn. split_and!; [lia|lia|lia|done|constructor|constructor].
Qed.

(** ** Arena allocator *)

Lemma last_split {A} (l : list A) x : last l = Some x -> l = removelast l ++ [x].
Proof.
  intros E. apply last_Some in E as [k ->]. by rewrite removelast_last.
Qed.

Lemma blocks_total_app bs cs : blocks_total (bs ++ cs) = blocks_total bs + blocks_total cs.
Proof. induction bs as [|b bs IH]; cbn; [done|]. rewrite IH. lia. Qed.

(** A new range placed in a block above its cursor is apart from all live ones. *)
Lemma above_cursor_apart a l b p n :
  arena_inv a l -> b ∈ blocks_ a -> b_cursor b <= p -> p + n <= b_end b -> 0 < n -> Forall (apart (p, n)) l.
Proof.
  intros Hinv Hb Hp Hn Hn0. apply Forall_forall. intros r Hr. destruct (ai_inside _ _ Hinv r Hr) as (Hr0 & c & Hc & Hi1 & Hi2).
  pose proof (ai_blocks _ _ Hinv) as Hok. rewrite Forall_forall in Hok. destruct (Hok b Hb) as (? & ? & ? & ?), (Hok c Hc) as (? & ? & ? & ?).
  apply list_elem_of_lookup in Hb as [i Ei]. apply list_elem_of_lookup in Hc as [j Ej].
  unfold apart; cbn. destruct (decide (i = j)) as [->|Hne]; [rewrite Ei in Ej; injection Ej as ->; lia|].
  assert (Hap : apart (block_range b) (block_range c)).
  { pose proof (ai_apart _ _ Hinv) as HF. clear -HF Ei Ej Hne.
    destruct (decide (i < j)%nat); [|apply apart_sym; assert (j < i)%nat by lia]; eapply ordpairs_lookup; try done; by rewrite list_lookup_fmap, ?Ei, ?Ej. }
  unfold apart, block_range in Hap; cbn in Hap. lia.
Qed.

(** The current block takes the request. *)
Lemma arena_inv_bump a l front cur p n :
  arena_inv a l -> blocks_ a = front ++ [cur] -> b_cursor cur <= p -> p + n <= b_end cur -> 0 < n ->
  arena_inv (mkArena (front ++ [mkBlock (b_base cur) (p + n) (b_end cur) (b_size cur)]) (block_size_ a) (max_bytes_ a) (total_allocated_ a))
    ((p, n) :: l).
Proof.
  intros Hinv E Hp Hn Hn0. assert (Hcur : cur ∈ blocks_ a) by (rewrite E; apply elem_of_app; right; apply list_elem_of_here).
  pose proof (above_cursor_apart a l cur p n Hinv Hcur Hp Hn Hn0) as Hnew. destruct Hinv. rewrite E in *.
  apply Forall_app in ai_blocks0 as [Hf Hc]. rewrite Forall_singleton in Hc. pose proof Hc as (? & ? & ? & ?).
  constructor; cbn [blocks_ block_size_ max_bytes_ total_allocated_].
  - by destruct front.
  - done.
  - apply Forall_app. split; [done|]. apply Forall_singleton. unfold block_ok; cbn. lia.
  - by rewrite fmap_app in *.
  - rewrite blocks_total_app in *. done.
  - by constructor.
  - intros r [->|Hr]%elem_of_cons; [split; [done|]|].
    + eexists. split; [apply elem_of_app; right; apply list_elem_of_here|]. unfold inside; cbn. lia.
    + destruct (ai_inside0 r Hr) as (? & b & Hb & Hi). split; [done|]. apply elem_of_app in Hb as [Hb| ->%list_elem_of_singleton].
      * exists b. split; [apply elem_of_app; by left|done].
      * eexists. split; [apply elem_of_app; right; apply list_elem_of_here|]. unfold inside in *; cbn. lia.
Qed.

Lemma arena_inv_push a l base size p n :
  arena_inv a l -> 0 < base -> base + size < 2 ^ 47 -> (forall b, b ∈ block_range <$> blocks_ a -> apart (base, size) b) ->
  total_allocated_ a + size <= max_bytes_ a -> base <= p -> p + n <= base + size -> 0 < n ->
  arena_inv (mkArena (blocks_ a ++ [mkBlock base (p + n) (base + size) size]) (block_size_ a) (max_bytes_ a) (total_allocated_ a + size))
    ((p, n) :: l).
Proof.
  intros Hinv Hb Hbs Hap Ht Hp Hn Hn0. destruct Hinv.
  assert (Hlive : forall r, r ∈ l -> apart (p, n) r).
  { intros r Hr. destruct (ai_inside0 r Hr) as (? & b & Hb' & Hi1 & Hi2). specialize (Hap (block_range b)).
    rewrite Forall_forall in ai_blocks0. destruct (ai_blocks0 b Hb') as (? & ? & ? & ?).
    destruct Hap as [?|?]; [by apply list_elem_of_fmap_2|..]; unfold apart, block_range in *; cbn in *; lia. }
  constructor; cbn [blocks_ block_size_ max_bytes_ total_allocated_].
  - by destruct (blocks_ a).
  - done.
  - apply Forall_app. split; [done|]. apply Forall_singleton. unfold block_ok; cbn. lia.
  - rewrite fmap_app. apply ordpairs_snoc; [done|]. intros b Hbb. apply apart_sym. by apply Hap.
  - rewrite blocks_total_app. cbn. lia.
  - constructor; [|done]. by apply Forall_forall.
  - intros r [->|Hr]%elem_of_cons; [split; [done|]|].
    + eexists. split; [apply elem_of_app; right; apply list_elem_of_here|]. unfold inside; cbn. lia.
    + destruct (ai_inside0 r Hr) as (? & b & Hb' & Hi). split; [done|]. exists b. split; [apply elem_of_app; by left|done].
Qed.

(** [allocate] on every branch. *)
Lemma arena_allocate_spec malloc a l size align :
  arena_inv a l -> malloc_fresh malloc (block_range <$> blocks_ a) -> 0 <= size < 2 ^ 62 -> 0 <= align <= 2 ^ 62 ->
  arena_allocate malloc size align a = Returns (0, a) \/
  arena_allocate malloc size align a = Throws bad_alloc \/
  exists p a', arena_allocate malloc size align a = Returns (p, a') /\ 0 < p /\ p mod align = 0 /\ arena_inv a' ((p, size) :: l).
Proof.
  intros Hinv Hm Hs Hal. unfold arena_allocate. destruct (Z.eqb_spec size 0); [by left|].
  destruct (bad_align align) eqn:Ea; [by left|]. destruct (last (blocks_ a)) as [cur|] eqn:El.
  2:{ apply last_None in El. by destruct (ai_nonempty _ _ Hinv). }
  pose proof (last_split _ _ El) as Eb. pose proof (ai_blocks _ _ Hinv) as Hok. rewrite Eb in Hok.
  apply Forall_app in Hok as [_ Hc]. rewrite Forall_singleton in Hc. destruct Hc as (? & ? & ? & ?).
  destruct (align_ptr_spec (b_cursor cur) align) as [Hr Hmod]; [lia|done|done|].
  rewrite wrap_small by (unfold in_width; lia).
  destruct (Z.leb_spec (align_ptr (b_cursor cur) align + size) (b_end cur)).
  { right. right. eexists _, _. split; [done|]. split_and!; [lia|done|]. eapply arena_inv_bump; (done || lia). }
  assert (Hn : u64 (size + (if 1 <? align then align - 1 else 0)) = size + Z.max 0 (align - 1)).
  { rewrite wrap_small; destruct (Z.ltb_spec 1 align); unfold in_width; lia. }
  rewrite Hn. set (nb := Z.max (block_size_ a) _). destruct (ai_limits _ _ Hinv) as [Hl1 Hl2]. destruct (ai_total _ _ Hinv) as [_ Ht].
  rewrite wrap_small by (unfold in_width; lia). destruct (Z.ltb_spec (max_bytes_ a) (total_allocated_ a + nb)); [by left|].
  unfold make_block. destruct (Z.eqb_spec (malloc nb) 0) as [|Hnz]; [by right; left|]. right. right. cbn [outcome_bind].
  destruct (Hm nb Hnz) as (Hb & Hbe & Hap). cbn [b_cursor b_base b_end b_size].
  destruct (align_ptr_spec (malloc nb) align) as [Hr' Hmod']; [lia|done|done|].
  rewrite !wrap_small by (unfold in_width; lia).
  eexists _, _. split; [done|]. split_and!; [lia|done|]. apply arena_inv_push; (done || lia).
Qed.

Lemma arena_step_inv s s' : arena_step s s' -> arena_inv s.1 s.2 -> arena_inv s'.1 s'.2.
Proof.
  intros Hst Hinv. destruct Hst as [malloc a l size align p a' Hm Hs Hal E|a l]; cbn in *.
  - destruct (arena_allocate_spec malloc a l size align Hinv Hm Hs Hal) as [E'|[E'|(q & a1 & E' & Hq & _ & Hinv')]]; rewrite E' in E; [|done|].
    + by injection E as <- <-.
    + injection E as <- <-. by destruct (Z.eqb_spec q 0); [lia|].
  - destruct Hinv. unfold arena_reset. destruct (blocks_ a) as [|b bs] eqn:E; [done|].
    apply Forall_cons in ai_blocks0 as [(? & ? & ? & ?) Hbs].
    constructor; cbn; try done.
    + apply Forall_singleton. unfold block_ok; cbn. lia.
    + repeat constructor.
    + cbn in ai_total0. assert (0 <= blocks_total bs); [|lia]. clear -Hbs.
      induction Hbs as [|c bs (? & ? & ? & ?) _ IH]; cbn; lia.
    + constructor.
    + intros r Hr. by apply not_elem_of_nil in Hr.
Qed.

(** ** Every client history *)

Lemma bump_make_inv malloc cap b :
  0 <= cap -> malloc_fresh malloc [] -> bump_make malloc cap = Returns b -> bump_inv (b, []).
Proof.
  intros Hc Hm. unfold bump_make. destruct (Z.eqb_spec cap 0).
  - intros [= <-]. cbn. split_and!; try lia; constructor.
  - destruct (Z.eqb_spec (malloc cap) 0) as [|Hnz]; [done|]. intros [= <-]. destruct (Hm cap Hnz) as (? & ? & _).
    cbn -[wrap]. rewrite wrap_small by (unfold in_width; lia). split_and!; try lia; constructor.
Qed.

(** A bump allocator hands out disjoint, aligned memory inside its block.
    After any sequence of requests and resets, the blocks handed out since the
    last reset are pairwise disjoint and lie between the base and the cursor, and
    a request is refused exactly when it is empty, its alignment is not a power
    of two, the allocator has no memory, or the aligned request does not fit;
    otherwise the result is aligned as asked and at or above the old cursor. *)
Theorem bump_blocks_disjoint malloc cap b0 b l size align
    (Hcap : 0 <= cap) (Hm : malloc_fresh malloc []) (Hmake : bump_make malloc cap = Returns b0)
    (Hrun : rtc bump_step (b0, []) (b, l)) (Hs : 0 <= size < 2 ^ 62) (Hal : 0 <= align <= 2 ^ 62) :
  ForallOrdPairs apart l /\ Forall (fun r => base_ b <= r.1 /\ r.1 + r.2 <= cursor_ b) l /\ cursor_ b <= end_ b /\
  let r := bump_allocate size align b in
  if (size =? 0) || bad_align align || (base_ b =? 0) || (end_ b <? align_ptr (cursor_ b) align + size)
  then r = (0, b)
  else cursor_ b <= r.1 /\ r.1 mod align = 0 /\ r.1 + size = cursor_ r.2 /\ cursor_ r.2 <= end_ b.
Proof.
  assert (Hinv : bump_inv (b, l)).
  { pose proof (bump_make_inv _ _ _ Hcap Hm Hmake) as H0. revert H0. generalize (b, l) as t, (b0, [] : list (Z * Z)) as s, Hrun. clear.
    intros t s Hrun. induction Hrun as [|s1 s2 s3 Hs _ IH]; [done|]. intros H. apply IH. by eapply bump_step_inv. }
  pose proof (bump_allocate_spec b l size align Hinv Hs Hal) as Hsp. cbv zeta in *.
  destruct Hinv as (Hb & Hc & He & Hp & Hl). split_and!; [done| |lia|].
  - eapply Forall_impl; [exact Hl|]. cbn. lia.
  - destruct (_ || _) eqn:Ec; [done|]. rewrite !orb_false_iff, Z.ltb_ge in Ec. destruct Ec as [_ Hfit].
    destruct Hsp as (-> & ? & ? & ?). cbn. split_and!; (done || lia).
Qed.

Lemma bump_blocks_disjoint_witness :
  exists b0 b1, bump_make (fun n => if n =? 256 then 4096 else 0) 256 = Returns b0 /\
    bump_allocate 10 8 b0 = (4096, b1) /\ (bump_allocate 16 16 b1).1 mod 16 = 0 /\ (bump_allocate 16 16 b1).1 = 4112.
Proof.
  set (malloc := fun n => if n =? 256 then 4096 else 0). destruct (bump_make malloc 256) as [b0|] eqn:E0; [|by vm_compute in E0].
  vm_compute in E0. injection E0 as <-. eexists _, _. split; [done|]. split; [vm_compute; reflexivity|].
  match goal with |- (bump_allocate _ _ ?b).1 mod _ = _ /\ _ => set (b1 := b) end.
  split; [|done].
  refine (proj1 (proj2 (proj2 (proj2 (proj2 (bump_blocks_disjoint malloc 256 (mkBump 4096 4096 4352) b1 [(4096, 10)] 16 16 _ _ _ _ _ _)))))).
  - lia.
  - intros n. unfold malloc. destruct (Z.eqb_spec n 256) as [->|]; [|done]. intros _. split_and!; [lia|lia|]. by intros b ?%not_elem_of_nil.
  - done.
  - eapply rtc_l; [|apply rtc_refl]. apply (bump_step_allocate (mkBump 4096 4096 4352) [] 10 8 4096); [lia|lia|done].
  - lia.
  - lia.
Defined.

(** The sum [result + size] of the bump allocator is not guarded. On a block
    of 64 bytes at 4096, a request of 2^64 - 4096 bytes is granted: the sum wraps
    to 0, the cursor leaves the block, and the next request is answered with an
    address outside it. *)
Theorem bump_request_wraps :
  let b := mkBump 4096 4096 4160 in
  (bump_allocate (2 ^ 64 - 4096) 16 b).1 = 4096 /\ cursor_ (bump_allocate (2 ^ 64 - 4096) 16 b).2 = 0 /\
  let b' := (bump_allocate (2 ^ 64 - 4096) 16 b).2 in
  (bump_allocate 32 16 (bump_allocate 16 16 b').2).1 = 16 /\ bump_owns 16 b = false.
Proof. vm_compute. done. Qed.

Lemma arena_make_inv malloc bs mx a :
  0 <= bs < 2 ^ 62 -> 0 <= mx < 2 ^ 62 -> malloc_fresh malloc [] -> arena_make malloc bs mx = Returns a -> arena_inv a [].
Proof.
  intros Hb Hx Hm. unfold arena_make, make_block. destruct (Z.eqb_spec (malloc bs) 0) as [|Hnz]; [done|]. cbn [outcome_bind].
  intros [= <-]. destruct (Hm bs Hnz) as (? & ? & _). rewrite wrap_small by (unfold in_width; lia).
  constructor; cbn; try done; try lia.
  - apply Forall_singleton. unfold block_ok; cbn. lia.
  - repeat constructor.
  - constructor.
  - intros r Hr. by apply not_elem_of_nil in Hr.
Qed.

(** An arena hands out disjoint, aligned memory and respects its limit. After
    any sequence of requests and resets, with blocks chained as needed, the
    memory handed out since the last reset is pairwise disjoint and every piece
    lies inside one owned block; the bytes taken from the system are the sum of
    the block sizes and stay within [max_bytes] (or the first block); a further
    request answers null, throws [bad_alloc] when the system is out of memory, or
    yields memory aligned as asked. *)
Theorem arena_memory_disjoint malloc bs mx a0 a l malloc' size align
    (Hbs : 0 <= bs < 2 ^ 62) (Hmx : 0 <= mx < 2 ^ 62) (Hm : malloc_fresh malloc [])
    (Hmake : arena_make malloc bs mx = Returns a0) (Hrun : rtc arena_step (a0, []) (a, l))
    (Hm' : malloc_fresh malloc' (block_range <$> blocks_ a)) (Hs : 0 <= size < 2 ^ 62) (Hal : 0 <= align <= 2 ^ 62) :
  ForallOrdPairs apart l /\ (forall r, r ∈ l -> exists b, b ∈ blocks_ a /\ b_base b <= r.1 /\ r.1 + r.2 <= b_end b) /\
  arena_capacity a = blocks_total (blocks_ a) /\ arena_capacity a <= Z.max (block_size_ a) (max_bytes_ a) /\
  (arena_allocate malloc' size align a = Returns (0, a) \/ arena_allocate malloc' size align a = Throws bad_alloc \/
   exists p a', arena_allocate malloc' size align a = Returns (p, a') /\ 0 < p /\ p mod align = 0 /\
     ForallOrdPairs apart ((p, size) :: l)).
Proof.
  assert (Hinv : arena_inv a l).
  { pose proof (arena_make_inv _ _ _ _ Hbs Hmx Hm Hmake) as H0. clear -H0 Hrun. change (arena_inv (a, l).1 (a, l).2).
    change (arena_inv (a0, [] : list (Z * Z)).1 (a0, [] : list (Z * Z)).2) in H0. revert H0.
    generalize (a, l) as t, (a0, [] : list (Z * Z)) as s, Hrun. clear.
    intros t s Hrun. induction Hrun as [|s1 s2 s3 Hs _ IH]; [done|]. intros H. apply IH. by eapply arena_step_inv. }
  split_and!; [apply Hinv| |apply (ai_total _ _ Hinv)..|].
  - intros r Hr. destruct (ai_inside _ _ Hinv r Hr) as (_ & b & Hb & Hi1 & Hi2). exists b. pose proof (ai_blocks _ _ Hinv) as Hok.
    rewrite Forall_forall in Hok. destruct (Hok b Hb) as (? & ? & ? & ?). split_and!; (done || lia).
  - destruct (arena_allocate_spec malloc' a l size align Hinv Hm' Hs Hal) as [?|[?|(p & a' & E & ? & ? & Hinv')]]; [by left|by right; left|].
    right. right. exists p, a'. split_and!; [done..|]. apply Hinv'.
Qed.

Lemma arena_memory_disjoint_witness :
  let malloc := fun n => if n =? 64 then 4096 else 0 in
  let malloc' := fun n => if n =? 107 then 8192 else 0 in
  exists a0 a1, arena_make malloc 64 1000 = Returns a0 /\ arena_allocate malloc 40 8 a0 = Returns (4096, a1) /\
    exists p a', arena_allocate malloc' 100 8 a1 = Returns (p, a') /\ ForallOrdPairs apart [(p, 100); (4096, 40)].
Proof.
  intros malloc malloc'. destruct (arena_make malloc 64 1000) as [a0|] eqn:E0; [|by vm_compute in E0].
  destruct (arena_allocate malloc 40 8 a0) as [[p a1]|] eqn:E1; [|by vm_compute in E0; injection E0 as <-; vm_compute in E1].
  assert (p = 4096 /\ blocks_ a1 = [mkBlock 4096 4136 4160 64] /\ blocks_ a0 = [mkBlock 4096 4096 4160 64]) as (-> & Eb & Eb0).
  { vm_compute in E0. injection E0 as <-. vm_compute in E1. by injection E1 as <- <-. }
  assert (Hf : forall l, (forall b, b ∈ l -> b = (4096, 64)) -> malloc_fresh malloc' l).
  { intros l Hl n. unfold malloc'. destruct (Z.eqb_spec n 107) as [->|]; [|done]. intros _. split_and!; [lia|lia|].
    intros b ->%Hl. unfold apart; cbn. lia. }
  exists a0, a1. split_and!; [done..|].
  destruct (arena_memory_disjoint malloc 64 1000 a0 a1 [(4096, 40)] malloc' 100 8) as (_ & _ & _ & _ & [E|[E|(p & a' & E & _ & _ & Hp)]]).
  - lia.
  - lia.
  - intros n. unfold malloc. destruct (Z.eqb_spec n 64) as [->|]; [|done]. intros _. split_and!; [lia|lia|]. by intros b ?%not_elem_of_nil.
  - exact E0.
  - eapply rtc_l; [|apply rtc_refl]. apply (arena_step_allocate (fun _ => 0) a0 [] 40 8 4096); [by intros n Hn|lia|lia|].
    vm_compute in E0. injection E0 as <-. vm_compute in E1. injection E1 as <-. vm_compute. reflexivity.
  - apply Hf. rewrite Eb. cbn. by intros b ?%list_elem_of_singleton.
  - lia.
  - lia.
  - vm_compute in E0. injection E0 as <-. vm_compute in E1. injection E1 as <-. by vm_compute in E.
  - vm_compute in E0. injection E0 as <-. vm_compute in E1. injection E1 as <-. by vm_compute in E.
  - exists p, a'. split; [exact E|exact Hp].
Defined.
