(* ===== verification/Session.v ===== *)
(** * Session write queue

    [apex::core::Session] (apex_core/include/apex/core/session.hpp,
    apex_core/src/session.cpp): the per-connection write queue and the coroutine
    ([write_pump]) that drains it.

    A session runs on one core: between suspension points a coroutine is not
    interleaved with another. One step is therefore the code from one suspension
    to the next: a call from outside, the start of a spawned pump, or a completed
    socket write. Spawned pumps are a list, so that "at most one pump" is a
    theorem and not the shape of the state. [issued] and [accepted] record what
    was given to the socket and what was taken into the queue; [results] are the
    completion results that have been signalled to waiting senders. *)

From S2P Require Import Prelude ErrorCode WireHeader FrameCodec.

Inductive State : Type := Connected | Active | Closed.

#[global] Instance State_eq_dec : EqDecision State.
Proof. solve_decision. Defined.

(** A queued write; [waiter] is the completion signal of an awaiting sender. *)
Record WriteRequest : Type := mkWriteRequest { wr_data : list Z; waiter : option Z }.

(** Where a pump is: spawned but not started, or suspended in [async_write]. *)
Inductive pump : Type :=
| Spawned
| Writing (req : WriteRequest).

Record Session : Type := mkSession {
  state_ : State;
  write_queue_ : list WriteRequest;
  pump_running_ : bool;
  max_queue_depth_ : Z;
  pumps : list pump;
  next_waiter : Z;
  results : gmap Z (Result unit);
  accepted : list (list Z);
  issued : list (list Z);
}.

Definition make (max_queue_depth : Z) : Session := mkSession Connected [] false max_queue_depth [] 1 empty [] [].

Definition is_open (s : Session) : bool :=
  match state_ s with Connected | Active => true | Closed => false end.

(** [set_state(Active)], when the manager registers the session. *)
Definition set_active (s : Session) : Session :=
  mkSession Active (write_queue_ s) (pump_running_ s) (max_queue_depth_ s) (pumps s) (next_waiter s) (results s) (accepted s) (issued s).

Definition close (s : Session) : Session :=
  match state_ s with
  | Closed => s
  | _ => mkSession Closed (write_queue_ s) (pump_running_ s) (max_queue_depth_ s) (pumps s) (next_waiter s) (results s)
           (accepted s) (issued s)
  end.

(** [push_back] and, unless a pump runs, [co_spawn] of a new one. *)
Definition push_request (req : WriteRequest) (s : Session) : Session :=
  let pumps' := if pump_running_ s then pumps s else pumps s ++ [Spawned] in
  mkSession (state_ s) (write_queue_ s ++ [req]) true (max_queue_depth_ s) pumps' (next_waiter s) (results s)
    (accepted s ++ [wr_data req]) (issued s).

Definition enqueue_write (data : list Z) (s : Session) : Result unit * Session :=
  if negb (is_open s) then (Err SessionClosed, s)
  else if max_queue_depth_ s <=? len (write_queue_ s) then (Err BufferFull, s)
  else (Ok tt, push_request (mkWriteRequest data None) s).

Definition enqueue_write_raw (data : list Z) (s : Session) : Result unit * Session := enqueue_write data s.

(** [enqueue_and_await] up to its suspension: the waiter it will resume on, or an
    immediate error. *)
Definition enqueue_and_await (data : list Z) (s : Session) : Result Z * Session :=
  if max_queue_depth_ s <=? len (write_queue_ s) then (Err BufferFull, s)
  else
    let w := next_waiter s in
    let s := push_request (mkWriteRequest data (Some w)) s in
    (Ok w, mkSession (state_ s) (write_queue_ s) (pump_running_ s) (max_queue_depth_ s) (pumps s) (w + 1) (results s)
             (accepted s) (issued s)).

Definition async_send (header : WireHeader) (payload : list Z) (s : Session) : Result Z * Session :=
  if negb (is_open s) then (Err SessionClosed, s)
  else enqueue_and_await (serialize header ++ payload) s.

Definition async_send_raw (data : list Z) (s : Session) : Result Z * Session :=
  if negb (is_open s) then (Err SessionClosed, s) else enqueue_and_await data s.

(** [*completion_result = r; completion_timer->cancel()]. *)
Definition signal (req : WriteRequest) (r : Result unit) (rs : gmap Z (Result unit)) : gmap Z (Result unit) :=
  match waiter req with Some w => <[w := r]> rs | None => rs end.

(** The loop head of [write_pump] number [i]: take the next request and start the
    socket write, or finish. *)
Definition pump_loop (i : nat) (s : Session) : Session :=
  match write_queue_ s with
  | req :: rest =>
      if is_open s then
        mkSession (state_ s) rest (pump_running_ s) (max_queue_depth_ s) (<[i := Writing req]> (pumps s)) (next_waiter s)
          (results s) (accepted s) (issued s ++ [wr_data req])
      else
        mkSession (state_ s) (write_queue_ s) false (max_queue_depth_ s) (delete i (pumps s)) (next_waiter s) (results s)
          (accepted s) (issued s)
  | [] =>
      mkSession (state_ s) [] false (max_queue_depth_ s) (delete i (pumps s)) (next_waiter s) (results s) (accepted s) (issued s)
  end.

(** The socket write of pump [i] completed with or without an error. *)
Definition write_done (i : nat) (req : WriteRequest) (ec : bool) (s : Session) : Session :=
  if ec then
    let rs := signal req (Err SendFailed) (results s) in
    let rs := foldl (fun rs pending => signal pending (Err SendFailed) rs) rs (write_queue_ s) in
    let s := mkSession (state_ s) [] (pump_running_ s) (max_queue_depth_ s) (pumps s) (next_waiter s) rs (accepted s) (issued s) in
    let s := close s in
    mkSession (state_ s) (write_queue_ s) false (max_queue_depth_ s) (delete i (pumps s)) (next_waiter s) (results s)
      (accepted s) (issued s)
  else
    pump_loop i
      (mkSession (state_ s) (write_queue_ s) (pump_running_ s) (max_queue_depth_ s) (pumps s) (next_waiter s)
         (signal req (Ok tt) (results s)) (accepted s) (issued s)).

(** One uninterrupted stretch of execution. *)
Inductive step : Session -> Session -> Prop :=
| step_enqueue data s : step s (enqueue_write data s).2
| step_send header payload s : step s (async_send header payload s).2
| step_send_raw data s : step s (async_send_raw data s).2
| step_activate s : state_ s = Connected -> step s (set_active s)
| step_close s : step s (close s)
| step_start i s : pumps s !! i = Some Spawned -> step s (pump_loop i s)
| step_written i req ec s : pumps s !! i = Some (Writing req) -> step s (write_done i req ec s).

(** ** Invariant *)

(** The requests a running pump has taken and not completed. *)
Definition in_flight (s : Session) : list WriteRequest :=
  pumps s ≫= fun p => match p with Writing req => [req] | Spawned => [] end.

Record inv (s : Session) : Prop := mk_inv {
  inv_pump : (pump_running_ s = true /\ exists p, pumps s = [p]) \/ (pump_running_ s = false /\ pumps s = []);
  inv_work : is_open s = true -> pump_running_ s = false -> write_queue_ s = [];
  inv_depth : len (write_queue_ s) <= Z.max 0 (max_queue_depth_ s);
  inv_order : is_open s = true -> accepted s = issued s ++ (wr_data <$> write_queue_ s);
  inv_prefix : exists rest, accepted s = issued s ++ rest;
  inv_flight : forall req, req ∈ in_flight s -> last (issued s) = Some (wr_data req);
  inv_waiters : NoDup (omap waiter (in_flight s ++ write_queue_ s));
  inv_waiter w : w ∈ omap waiter (in_flight s ++ write_queue_ s) -> w < next_waiter s /\ results s !! w = None;
  inv_results w : is_Some (results s !! w) -> w < next_waiter s;
  inv_all w : 1 <= w < next_waiter s -> is_Some (results s !! w) \/ w ∈ omap waiter (in_flight s ++ write_queue_ s);
}.

(** The session with its pump back at the loop head. *)
Definition at_loop_head (s : Session) : Session :=
  mkSession (state_ s) (write_queue_ s) (pump_running_ s) (max_queue_depth_ s) [Spawned] (next_waiter s) (results s)
    (accepted s) (issued s).

Lemma session_make_inv d : inv (make d).
Proof.
  constructor; cbn -[len]; try done; try lia.
  - by right.
  - rewrite len_nil. lia.
  - by exists [].
  - intros req Hr. by apply not_elem_of_nil in Hr.
  - constructor.
  - intros w Hw. by apply not_elem_of_nil in Hw.
  - intros w [r Hr]. by rewrite lookup_empty in Hr.
Qed.

Lemma is_open_close s : is_open (close s) = false.
Proof. unfold close. destruct (state_ s) eqn:E; unfold is_open; cbn; [done..|]. by rewrite E. Qed.

Lemma session_close_inv s : inv s -> inv (close s).
Proof.
  intros Hi. unfold close. destruct (state_ s); [..|done]; (destruct Hi; constructor; cbn; done).
Qed.

Lemma push_inv s req nw :
  inv s -> is_open s = true -> len (write_queue_ s) < max_queue_depth_ s ->
  (waiter req = None /\ nw = next_waiter s \/ waiter req = Some (next_waiter s) /\ nw = next_waiter s + 1) ->
  let s' := push_request req s in
  inv (mkSession (state_ s') (write_queue_ s') (pump_running_ s') (max_queue_depth_ s') (pumps s') nw (results s')
         (accepted s') (issued s')).
Proof.
  intros Hi Ho Hd Hw s'. assert (Hfl : in_flight s' = in_flight s).
  { unfold in_flight, s'; cbn. destruct (pump_running_ s); [done|]. rewrite bind_app. cbn. by rewrite app_nil_r. }
  assert (Hwl : omap waiter (in_flight s ++ (write_queue_ s ++ [req])) =
                omap waiter (in_flight s ++ write_queue_ s) ++ (match waiter req with Some w => [w] | None => [] end)).
  { rewrite app_assoc, omap_app. done. }
  destruct Hi. constructor; cbn -[in_flight].
  - left. split; [done|]. destruct inv_pump0 as [(-> & p & ->)|[-> ->]]; by eexists.
  - done.
  - rewrite len_app, len_cons, len_nil. lia.
  - intros _. rewrite fmap_app, app_assoc, <- inv_order0 by done. done.
  - destruct inv_prefix0 as [rest ->]. exists (rest ++ [wr_data req]). by rewrite app_assoc.
  - change (in_flight (mkSession _ _ _ _ _ _ _ _ _)) with (in_flight s'). rewrite Hfl. done.
  - change (in_flight (mkSession _ _ _ _ _ _ _ _ _)) with (in_flight s'). rewrite Hfl, Hwl.
    destruct Hw as [[-> _]|[-> _]]; [by rewrite app_nil_r|]. apply NoDup_app. split_and!; [done| |apply NoDup_singleton].
    intros w Hw1 ->%list_elem_of_singleton. apply inv_waiter0 in Hw1 as [? _]. lia.
  - change (in_flight (mkSession _ _ _ _ _ _ _ _ _)) with (in_flight s'). rewrite Hfl, Hwl. intros w [Hw1|Hw1]%elem_of_app.
    + destruct (inv_waiter0 w Hw1). split; [destruct Hw as [[_ ->]|[_ ->]]; lia|done].
    + destruct Hw as [[E ->]|[E ->]]; rewrite E in Hw1; [by apply not_elem_of_nil in Hw1|]. apply list_elem_of_singleton in Hw1 as ->.
      split; [lia|]. destruct (results s !! next_waiter s) eqn:Er; [|done]. pose proof (inv_results0 (next_waiter s) ltac:(by eexists)). lia.
  - intros w Hr. apply inv_results0 in Hr. destruct Hw as [[_ ->]|[_ ->]]; lia.
  - change (in_flight (mkSession _ _ _ _ _ _ _ _ _)) with (in_flight s'). rewrite Hfl, Hwl. intros w Hw1. rewrite elem_of_app.
    destruct (decide (w < next_waiter s)); [destruct (inv_all0 w ltac:(lia)); [by left|right; by left]|].
    destruct Hw as [[_ ->]|[-> ->]]; [lia|]. right. right. apply list_elem_of_singleton. lia.
Qed.

Lemma pump_loop_inv s : inv (at_loop_head s) -> inv (pump_loop 0 (at_loop_head s)).
Proof.
  intros Hi. unfold pump_loop; cbn. destruct (write_queue_ s) as [|req rest] eqn:Eq.
  { destruct Hi; cbn in *. rewrite Eq in *. constructor; cbn; try done.
    by right. }
  change (is_open (at_loop_head s)) with (is_open s). destruct (is_open s) eqn:Eo.
  - destruct Hi; cbn -[omap len] in *. rewrite Eq in *. constructor; cbn -[omap len]; try done.
    + left. destruct inv_pump0 as [[? _]|[_ ?]]; [|done]. split; [done|by eexists].
    + intros _ E. destruct inv_pump0 as [[? _]|[_ ?]]; congruence.
    + rewrite len_cons in inv_depth0. pose proof (len_nonneg rest). lia.
    + intros _. rewrite inv_order0 by done. cbn. by rewrite <- app_assoc.
    + exists (wr_data <$> rest). rewrite inv_order0 by done. cbn. by rewrite <- app_assoc.
    + intros r ->%list_elem_of_singleton. apply last_snoc.
  - destruct Hi; cbn in *. rewrite Eq in *. constructor; cbn; try done.
    + by right.
    + intros Ho. change (is_open s = true) in Ho. congruence.
Qed.

Lemma pump_loop_head i s p : pumps s = [p] -> i = 0%nat -> pump_loop i s = pump_loop 0 (at_loop_head s).
Proof. intros Hp ->. unfold pump_loop, at_loop_head, is_open; cbn. rewrite Hp. done. Qed.

(** Signals of the requests left in the queue. *)
Lemma signal_all_lookup q r rs w :
  foldl (fun rs req => signal req r rs) rs q !! w = if decide (w ∈ omap waiter q) then Some r else rs !! w.
Proof.
  revert rs. induction q as [|req q IH]; intros rs; cbn [foldl].
  - rewrite decide_False; [done|]. apply not_elem_of_nil.
  - rewrite IH. cbn. unfold signal. destruct (waiter req) as [v|]; [|done].
    destruct (decide (w ∈ omap waiter q)) as [Hin|Hin].
    + rewrite decide_True; [done|]. by apply list_elem_of_further.
    + destruct (decide (w = v)) as [->|Hne].
      * rewrite lookup_insert_eq, decide_True; [done|]. apply list_elem_of_here.
      * rewrite lookup_insert_ne, decide_False; [done| |congruence]. intros [?|?]%elem_of_cons; done.
Qed.

Lemma write_done_inv s req ec : inv s -> pumps s = [Writing req] -> inv (write_done 0 req ec s).
Proof.
  intros Hi Hp. assert (Hfl : in_flight s = [req]) by (unfold in_flight; by rewrite Hp).
  assert (Hol : omap waiter (in_flight s ++ write_queue_ s) =
    (match waiter req with Some w => [w] | None => [] end) ++ omap waiter (write_queue_ s)).
  { rewrite Hfl. cbn. by destruct (waiter req). }
  unfold write_done. destruct ec.
  - set (rs := foldl _ _ _).
    assert (Hrs : forall w, rs !! w = if decide (w ∈ omap waiter (in_flight s ++ write_queue_ s)) then Some (Err SendFailed) else results s !! w).
    { intros w. unfold rs. rewrite signal_all_lookup, Hol. unfold signal.
      destruct (decide (w ∈ omap waiter (write_queue_ s))) as [Hin|Hin]; [rewrite decide_True; [done|]; apply elem_of_app; by right|].
      destruct (waiter req) as [v|]; [|by rewrite decide_False].
      destruct (decide (w = v)) as [->|Hne].
      - rewrite lookup_insert_eq, decide_True; [done|]. apply list_elem_of_here.
      - rewrite lookup_insert_ne, decide_False; [done| |congruence]. intros [?|?]%elem_of_cons; done. }
    set (s1 := mkSession (state_ s) [] _ _ _ _ rs _ _). assert (Hc : state_ (close s1) = Closed) by (unfold close; cbn; by destruct (state_ s)).
    assert (Hr1 : results (close s1) = rs) by (unfold close; cbn; by destruct (state_ s)).
    assert (Hq1 : write_queue_ (close s1) = []) by (unfold close; cbn; by destruct (state_ s)).
    assert (Hrest : accepted (close s1) = accepted s /\ issued (close s1) = issued s /\ next_waiter (close s1) = next_waiter s /\ pumps (close s1) = pumps s)
      by (unfold close; cbn; by destruct (state_ s)).
    destruct Hrest as (Ha & His & Hnw & Hpp). rewrite Hq1, Hr1, Ha, His, Hnw, Hpp, Hp. destruct Hi. constructor; cbn -[len close]; try done.
    + by right.
    + rewrite len_nil. lia.
    + unfold is_open; cbn -[close]. by rewrite Hc.
    + intros r Hr. by apply not_elem_of_nil in Hr.
    + constructor.
    + intros w Hw. by apply not_elem_of_nil in Hw.
    + intros w. rewrite Hrs. destruct (decide _) as [Hin|]; [by destruct (inv_waiter0 w Hin)|apply inv_results0].
    + intros w Hw. left. rewrite Hrs. destruct (decide _) as [|Hin]; [by eexists|]. by destruct (inv_all0 w Hw).
  - rewrite (pump_loop_head 0 _ (Writing req)) by done. apply pump_loop_inv. unfold at_loop_head; cbn. destruct Hi. rewrite Hol in *.
    assert (Hlk : forall w, signal req (Ok tt) (results s) !! w = if decide (waiter req = Some w) then Some (Ok tt) else results s !! w).
    { intros w. unfold signal. destruct (waiter req) as [v|]; [|done]. destruct (decide (Some v = Some w)) as [[= ->]|Hne];
        [by rewrite lookup_insert_eq|by rewrite lookup_insert_ne by congruence]. }
    constructor; cbn; try done.
    + left. destruct inv_pump0 as [[? _]|[_ ?]]; [|congruence]. split; [done|by eexists].
    + intros r Hr. by apply not_elem_of_nil in Hr.
    + by apply NoDup_app in inv_waiters0 as (_ & _ & ?).
    + intros w Hw. destruct (inv_waiter0 w) as [? Hn]; [apply elem_of_app; by right|]. split; [done|]. rewrite Hlk, decide_False; [done|].
      intros E. rewrite E in inv_waiters0. apply NoDup_cons in inv_waiters0 as [? _]. done.
    + intros w. rewrite Hlk. destruct (decide _) as [E|]; [|apply inv_results0]. intros _. apply inv_waiter0. rewrite E. apply list_elem_of_here.
    + intros w Hw. rewrite Hlk. destruct (decide _) as [|Hne]; [left; by eexists|]. destruct (inv_all0 w Hw) as [|[Hin|]%elem_of_app]; [by left| |by right].
      destruct (waiter req) as [v|]; [|by apply not_elem_of_nil in Hin]. apply list_elem_of_singleton in Hin as ->. done.
Qed.

Lemma session_step_inv s s' : step s s' -> inv s -> inv s'.
Proof.
  intros Hst Hi. destruct Hst as [data s|h b s|data s|s Hs|s|i s Hp|i req ec s Hp].
  - unfold enqueue_write. destruct (is_open s) eqn:Ho; [|done]. cbn [negb].
    destruct (Z.leb_spec (max_queue_depth_ s) (len (write_queue_ s))); [done|]. cbn [snd].
    apply (push_inv s (mkWriteRequest data None) (next_waiter s)); auto with lia.
  - unfold async_send, enqueue_and_await. destruct (is_open s) eqn:Ho; [|done]. cbn [negb].
    destruct (Z.leb_spec (max_queue_depth_ s) (len (write_queue_ s))); [done|]. cbn [snd].
    apply (push_inv s (mkWriteRequest _ (Some (next_waiter s))) (next_waiter s + 1)); auto.
  - unfold async_send_raw, enqueue_and_await. destruct (is_open s) eqn:Ho; [|done]. cbn [negb].
    destruct (Z.leb_spec (max_queue_depth_ s) (len (write_queue_ s))); [done|]. cbn [snd].
    apply (push_inv s (mkWriteRequest _ (Some (next_waiter s))) (next_waiter s + 1)); auto.
  - destruct Hi. unfold is_open in *. rewrite Hs in *. by constructor.
  - by apply session_close_inv.
  - destruct (inv_pump _ Hi) as [(_ & p & E)|[_ E]]; rewrite E in Hp; [|done]. destruct i; [|done]. injection Hp as ->.
    rewrite (pump_loop_head 0 s Spawned) by done. apply pump_loop_inv. destruct s; cbn in *. subst. exact Hi.
  - destruct (inv_pump _ Hi) as [(_ & p & E)|[_ E]]; rewrite E in Hp; [|done]. destruct i; [|done]. injection Hp as ->.
    by apply write_done_inv.
Qed.

Lemma session_reachable_inv d s : rtc step (make d) s -> inv s.
Proof.
  intros Hr. pose proof (session_make_inv d) as Hi. revert Hi. induction Hr as [|s1 s2 s3 Hs _ IH]; [done|]. intros Hi.
  apply IH. by eapply session_step_inv.
Qed.

Lemma depth_const s s' : step s s' -> max_queue_depth_ s' = max_queue_depth_ s.
Proof.
  assert (Hl : forall i s, max_queue_depth_ (pump_loop i s) = max_queue_depth_ s)
    by (intros i t; unfold pump_loop; destruct (write_queue_ t); [done|]; by destruct (is_open t)).
  assert (Hc : forall s, max_queue_depth_ (close s) = max_queue_depth_ s) by (intros t; unfold close; by destruct (state_ t)).
  intros [data t|h b t|data t|t _|t|i t _|i req ec t _];
    unfold enqueue_write, async_send, async_send_raw, enqueue_and_await, write_done; try done; try (by split_ifs).
  destruct ec; [|by rewrite Hl]. cbn [max_queue_depth_]. by rewrite Hc.
Qed.

(** C40: Writes go out whole, once, in the order they were accepted. In every
    interleaving of senders, the pump and socket completions: at most one pump
    exists, so at most one socket write is outstanding; what was given to the
    socket is a prefix of what was accepted, and while the session is open the
    rest is exactly the queue; the queue never exceeds its configured depth; and
    an open session with queued data always has a pump that will take it. *)
Theorem session_write_order d s (Hrun : rtc step (make d) s) :
  (length (pumps s) <= 1)%nat /\ (exists rest, accepted s = issued s ++ rest) /\
  (is_open s = true -> accepted s = issued s ++ (wr_data <$> write_queue_ s)) /\
  len (write_queue_ s) <= Z.max 0 d /\
  (is_open s = true -> write_queue_ s <> [] -> exists p, pumps s = [p]).
Proof.
  pose proof (session_reachable_inv d s Hrun) as Hi.
  assert (Hd : max_queue_depth_ s = d).
  { clear Hi. enough (max_queue_depth_ s = max_queue_depth_ (make d)) by done.
    induction Hrun as [|s1 s2 s3 Hs _ IH]; [done|]. rewrite IH. by apply depth_const. }
  split_and!.
  - destruct (inv_pump _ Hi) as [(_ & p & ->)|[_ ->]]; cbn; lia.
  - apply Hi.
  - apply Hi.
  - rewrite <- Hd. apply Hi.
  - intros Ho Hq. destruct (inv_pump _ Hi) as [(_ & Hp)|[Hr _]]; [done|]. by destruct Hq; apply (inv_work _ Hi).
Qed.

(** Once signalled, a result stays. *)
Lemma results_stable s s' w r : step s s' -> inv s -> results s !! w = Some r -> results s' !! w = Some r.
Proof.
  assert (Hl : forall i t, results (pump_loop i t) = results t)
    by (intros i t; unfold pump_loop; destruct (write_queue_ t); [done|]; by destruct (is_open t)).
  assert (Hc : forall t, results (close t) = results t) by (intros t; unfold close; by destruct (state_ t)).
  intros Hst Hi Hr. destruct Hst as [data t|h b t|data t|t _|t|i t _|i req ec t Hp];
    unfold enqueue_write, async_send, async_send_raw, enqueue_and_await;
    [split_ifs; exact Hr..|exact Hr|by rewrite Hc|by rewrite Hl|].
  destruct (inv_pump _ Hi) as [(_ & p & E)|[_ E]]; rewrite E in Hp; [|done]. destruct i; [|done]. injection Hp as ->.
  assert (Hw : w ∉ omap waiter (in_flight t ++ write_queue_ t)) by (intros Hw; apply (inv_waiter _ Hi) in Hw as [_ ?]; congruence).
  assert (Hol : omap waiter (in_flight t ++ write_queue_ t) =
    (match waiter req with Some w => [w] | None => [] end) ++ omap waiter (write_queue_ t))
    by (unfold in_flight; rewrite E; cbn; by destruct (waiter req)).
  rewrite Hol, not_elem_of_app in Hw. destruct Hw as [Hw1 Hw2].
  assert (Hs : forall r', signal req r' (results t) !! w = Some r).
  { intros r'. unfold signal. destruct (waiter req) as [v|]; [|done]. rewrite lookup_insert_ne; [done|]. intros ->. by apply Hw1, list_elem_of_here. }
  unfold write_done. destruct ec; cbn [results]; [rewrite Hc; cbn [results]|rewrite Hl; apply Hs].
  rewrite signal_all_lookup, decide_False by done. apply Hs.
Qed.

(** Awaiting senders are completed at most once and never lost track of. In
    every reachable state each sender that was accepted either has its result or
    its request is, once, in the queue or in the outstanding socket write; a
    result once given never changes; and when the outstanding write fails, every
    accepted sender has a result at once. *)
Theorem sender_completion d s (Hrun : rtc step (make d) s) :
  NoDup (omap waiter (in_flight s ++ write_queue_ s)) /\
  (forall w, 1 <= w < next_waiter s ->
     (is_Some (results s !! w) /\ w ∉ omap waiter (in_flight s ++ write_queue_ s)) \/
     (results s !! w = None /\ w ∈ omap waiter (in_flight s ++ write_queue_ s))) /\
  (forall s' w r, step s s' -> results s !! w = Some r -> results s' !! w = Some r) /\
  (forall i req w, pumps s !! i = Some (Writing req) -> 1 <= w < next_waiter s -> is_Some (results (write_done i req true s) !! w)).
Proof.
  pose proof (session_reachable_inv d s Hrun) as Hi. split_and!.
  - apply Hi.
  - intros w Hw. destruct (decide (w ∈ omap waiter (in_flight s ++ write_queue_ s))) as [Hin|Hin].
    + right. split; [|done]. by destruct (inv_waiter _ Hi w Hin).
    + left. split; [|done]. by destruct (inv_all _ Hi w Hw).
  - intros s' w r Hst Hr. by eapply results_stable.
  - intros i req w Hp Hw. assert (Hi' : inv (write_done i req true s)) by (eapply session_step_inv; [by constructor|done]).
    destruct (inv_all _ Hi' w) as [?|Hin]; [|done|].
    + unfold write_done; cbn. unfold close; cbn. by destruct (state_ s).
    + exfalso. destruct (inv_pump _ Hi) as [(_ & p & E)|[_ E]]; rewrite E in Hp; [|done]. destruct i; [|done].
      unfold write_done, in_flight in Hin; cbn in Hin. unfold close in Hin; cbn in Hin.
      destruct (state_ s); cbn in Hin; rewrite E in Hin; by apply not_elem_of_nil in Hin.
Qed.

(** A closed session without a pump stays that way and its queue stays put. *)
Lemma stranded_step s s' :
  is_open s = false -> pumps s = [] -> step s s' ->
  is_open s' = false /\ pumps s' = [] /\ write_queue_ s' = write_queue_ s /\ results s' = results s.
Proof.
  intros Ho Hp Hst. destruct Hst as [data t|h b t|data t|t Hs|t|i t Hi|i req ec t Hi]; try (rewrite Hp in Hi; done).
  - unfold enqueue_write. by rewrite Ho.
  - unfold async_send. by rewrite Ho.
  - unfold async_send_raw. by rewrite Ho.
  - unfold is_open in Ho. by rewrite Hs in Ho.
  - unfold close. unfold is_open in *. by destruct (state_ t) eqn:E; cbn; rewrite ?E.
Qed.

(** A sender queued when the session closes is never resumed. If the session
    is closed from outside while a socket write is outstanding and that write
    still completes successfully, the pump ends without completing the queued
    requests; from then on no execution ever signals them, although
    [write_pump] signals every queued request when a write fails. *)
Theorem close_strands_senders :
  exists s w, rtc step (make 8) s /\ w ∈ omap waiter (write_queue_ s) /\
    forall s', rtc step s s' -> results s' !! w = None.
Proof.
  set (s1 := (async_send_raw [1] (make 8)).2). set (s2 := pump_loop 0 s1). set (s3 := (async_send_raw [2] s2).2).
  set (s4 := close s3). set (s5 := write_done 0 (mkWriteRequest [1] (Some 1)) false s4).
  exists s5, 2. split_and!.
  - eapply rtc_l; [apply (step_send_raw [1])|]. eapply rtc_l; [apply (step_start 0); reflexivity|].
    eapply rtc_l; [apply (step_send_raw [2])|]. eapply rtc_l; [apply step_close|].
    eapply rtc_l; [apply (step_written 0 (mkWriteRequest [1] (Some 1)) false); reflexivity|]. apply rtc_refl.
  - vm_compute. constructor.
  - assert (H0 : is_open s5 = false /\ pumps s5 = [] /\ results s5 !! 2 = None) by (vm_compute; done).
    intros s' Hr. clearbody s5. clear s1 s2 s3 s4. induction Hr as [|a b c Hab _ IH]; [apply H0|]. apply IH.
    destruct H0 as (Ho & Hp & Hn). destruct (stranded_step a b Ho Hp Hab) as (? & ? & _ & ->). done.
Qed.

(** A queue depth of 0 is not "unlimited": such a session accepts nothing,
    every send on it fails with [BufferFull]. *)
Theorem zero_depth_rejects s data h (Ho : is_open s = true) (Hd : max_queue_depth_ s = 0) :
  enqueue_write data s = (Err BufferFull, s) /\ async_send h data s = (Err BufferFull, s) /\
  async_send_raw data s = (Err BufferFull, s).
Proof.
  unfold enqueue_write, async_send, async_send_raw, enqueue_and_await. rewrite Ho, Hd. cbn [negb].
  destruct (Z.leb_spec 0 (len (write_queue_ s))); [done|]. pose proof (len_nonneg (write_queue_ s)). lia.
Qed.

Lemma session_write_order_witness :
  let s := (enqueue_write [2] (pump_loop 0 (enqueue_write [1] (make 2)).2)).2 in
  rtc step (make 2) s /\ accepted s = [[1]; [2]] /\ issued s = [[1]] /\
  accepted s = issued s ++ (wr_data <$> write_queue_ s).
Proof.
  intros s. assert (Hr : rtc step (make 2) s).
  { eapply rtc_l; [apply (step_enqueue [1])|]. eapply rtc_l; [apply (step_start 0); reflexivity|].
    eapply rtc_l; [apply (step_enqueue [2])|]. apply rtc_refl. }
  split_and!; [done..|]. by apply (session_write_order 2 s Hr).
Defined.

Lemma sender_completion_witness :
  let s := pump_loop 0 (async_send_raw [1] (make 2)).2 in
  rtc step (make 2) s /\ results (write_done 0 (mkWriteRequest [1] (Some 1)) true s) !! 1 = Some (Err SendFailed) /\
  is_Some (results (write_done 0 (mkWriteRequest [1] (Some 1)) true s) !! 1).
Proof.
  intros s. assert (Hr : rtc step (make 2) s).
  { eapply rtc_l; [apply (step_send_raw [1])|]. eapply rtc_l; [apply (step_start 0); reflexivity|]. apply rtc_refl. }
  split_and!; [done|by vm_compute|]. apply (sender_completion 2 s Hr); [done|vm_compute; done].
Defined.

Lemma zero_depth_rejects_witness : enqueue_write [1] (make 0) = (Err BufferFull, make 0).
Proof. apply (zero_depth_rejects (make 0) [1] default_header); reflexivity. Defined.
