(* ===== verification/SessionManager.v ===== *)
(** * Session manager

    [apex::core::SessionManager] (apex_core/include/apex/core/session_manager.hpp,
    apex_core/src/session_manager.cpp): the sessions of one core, each with a
    heartbeat entry in the timing wheel, the maps between the two, and the
    eviction of silent sessions.

    Sessions are shared objects: [objs] is the store of session objects by id, and
    [sessions_] the ids registered in the manager's map, so that a session removed
    from the map is still seen closed by whoever holds it. The wheel is the one of
    [TimingWheel], with [on_timer_expire] as its callback. Callbacks into services
    are recorded in the order they are made. Whether the session pool still has a
    slot is an argument of [create_session]. *)

From S2P Require Import Prelude ErrorCode RingBuffer TimingWheel Session.

Record SessObj : Type := mkSessObj {
  so_session : Session.Session;
  timer_entry_id_ : Z;
  recv_buf_ : RingBuffer.RingBuffer;
}.

(** The manager's own state, without the wheel. *)
Record Manager : Type := mkManager {
  heartbeat_timeout_ticks_ : Z;
  recv_buf_capacity_ : Z;
  max_queue_depth_ : Z;
  next_id_ : Z;
  metric_sessions_created_ : Z;
  metric_sessions_timeout_ : Z;
  metric_heap_fallback_ : Z;
  sessions_ : gset Z;
  timer_to_session_ : gmap Z Z;
  objs : gmap Z SessObj;
  shrink_tick_counter_ : Z;
  remove_calls : list Z;
  timeout_calls : list Z;
}.

Definition kShrinkIntervalTicks : Z := 600.

Definition with_maps (ss : gset Z) (tts : gmap Z Z) (os : gmap Z SessObj) (m : Manager) : Manager :=
  mkManager (heartbeat_timeout_ticks_ m) (recv_buf_capacity_ m) (max_queue_depth_ m) (next_id_ m) (metric_sessions_created_ m)
    (metric_sessions_timeout_ m) (metric_heap_fallback_ m) ss tts os (shrink_tick_counter_ m) (remove_calls m) (timeout_calls m).

Definition set_timer (t : Z) (o : SessObj) : SessObj := mkSessObj (so_session o) t (recv_buf_ o).
Definition close_obj (o : SessObj) : SessObj := mkSessObj (Session.close (so_session o)) (timer_entry_id_ o) (recv_buf_ o).

(** The state of a manager: its maps and its wheel. *)
Definition mgr_state : Type := Manager * TimingWheel.

Definition make (heartbeat_timeout_ticks timer_wheel_slots recv_buf_capacity max_queue_depth : Z) : outcome mgr_state :=
  run w <- TimingWheel.make timer_wheel_slots;
  Returns (mkManager heartbeat_timeout_ticks recv_buf_capacity max_queue_depth 1 0 0 0 ∅ ∅ ∅ 0 [] [], w).

Section Operations.
Context (malloc_ok : Z -> bool) (fill : Z).

(** [create_session]: the id, or the exception it leaves with, and the state
    then. An exception of [schedule] leaves the session registered. *)
Definition create_session (pool_has_slot : bool) (s : mgr_state) : outcome Z * mgr_state :=
  let '(m, w) := s in
  let id := next_id_ m in
  let m := mkManager (heartbeat_timeout_ticks_ m) (recv_buf_capacity_ m) (max_queue_depth_ m) (u64 (id + 1))
             (metric_sessions_created_ m) (metric_sessions_timeout_ m) (metric_heap_fallback_ m) (sessions_ m)
             (timer_to_session_ m) (objs m) (shrink_tick_counter_ m) (remove_calls m) (timeout_calls m) in
  match RingBuffer.make malloc_ok fill (recv_buf_capacity_ m) with
  | Throws x => (Throws x, (m, w))
  | Returns rb =>
      let fallback := if pool_has_slot then metric_heap_fallback_ m else u64 (metric_heap_fallback_ m + 1) in
      let o := mkSessObj (Session.set_active (Session.make (max_queue_depth_ m))) 0 rb in
      let m := mkManager (heartbeat_timeout_ticks_ m) (recv_buf_capacity_ m) (max_queue_depth_ m) (next_id_ m)
                 (metric_sessions_created_ m) (metric_sessions_timeout_ m) fallback ({[id]} ∪ sessions_ m)
                 (timer_to_session_ m) (<[id := o]> (objs m)) (shrink_tick_counter_ m) (remove_calls m) (timeout_calls m) in
      let created m := mkManager (heartbeat_timeout_ticks_ m) (recv_buf_capacity_ m) (max_queue_depth_ m) (next_id_ m)
                 (u64 (metric_sessions_created_ m + 1)) (metric_sessions_timeout_ m) (metric_heap_fallback_ m) (sessions_ m)
                 (timer_to_session_ m) (objs m) (shrink_tick_counter_ m) (remove_calls m) (timeout_calls m) in
      if 0 <? heartbeat_timeout_ticks_ m then
        match schedule (heartbeat_timeout_ticks_ m) w with
        | Throws x => (Throws x, (m, w))
        | Returns (timer_id, w) =>
            (Returns id, (created (with_maps (sessions_ m) (<[timer_id := id]> (timer_to_session_ m))
                                     (<[id := set_timer timer_id o]> (objs m)) m), w))
        end
      else (Returns id, (created m, w))
  end.

Definition remove_session (id : Z) (s : mgr_state) : outcome mgr_state :=
  let '(m, w) := s in
  if decide (id ∈ sessions_ m) then
    match objs m !! id with
    | None => Throws undefined_behaviour
    | Some o =>
        let o := close_obj o in
        run (tts, o, w) <-
          (if timer_entry_id_ o =? 0 then Returns (timer_to_session_ m, o, w)
           else run w <- cancel (timer_entry_id_ o) w;
                Returns (delete (timer_entry_id_ o) (timer_to_session_ m), set_timer 0 o, w));
        Returns (mkManager (heartbeat_timeout_ticks_ m) (recv_buf_capacity_ m) (max_queue_depth_ m) (next_id_ m)
                   (metric_sessions_created_ m) (metric_sessions_timeout_ m) (metric_heap_fallback_ m) (sessions_ m ∖ {[id]})
                   tts (<[id := o]> (objs m)) (shrink_tick_counter_ m) (remove_calls m ++ [id]) (timeout_calls m), w)
    end
  else Returns s.

Definition find_session (id : Z) (s : mgr_state) : option SessObj :=
  if decide (id ∈ sessions_ s.1) then objs s.1 !! id else None.

Definition touch_session (id : Z) (s : mgr_state) : outcome mgr_state :=
  let '(m, w) := s in
  if heartbeat_timeout_ticks_ m =? 0 then Returns s
  else
    match find_session id s with
    | None => Returns s
    | Some o =>
        if timer_entry_id_ o =? 0 then Returns s
        else run w <- reschedule (timer_entry_id_ o) (heartbeat_timeout_ticks_ m) w; Returns (m, w)
    end.

(** [on_timer_expire]; [close] comes after the timeout callback. *)
Definition on_timer_expire (m : Manager) (entry_id : Z) : Manager :=
  match timer_to_session_ m !! entry_id with
  | None => m
  | Some session_id =>
      let m := with_maps (sessions_ m) (delete entry_id (timer_to_session_ m)) (objs m) m in
      match (if decide (session_id ∈ sessions_ m) then objs m !! session_id else None) with
      | None => m
      | Some o =>
          mkManager (heartbeat_timeout_ticks_ m) (recv_buf_capacity_ m) (max_queue_depth_ m) (next_id_ m)
            (metric_sessions_created_ m) (u64 (metric_sessions_timeout_ m + 1)) (metric_heap_fallback_ m)
            (sessions_ m ∖ {[session_id]}) (timer_to_session_ m) (<[session_id := close_obj (set_timer 0 o)]> (objs m))
            (shrink_tick_counter_ m) (remove_calls m ++ [session_id]) (timeout_calls m ++ [session_id])
      end
  end.

Definition expire_prog (m : Manager) (entry_id : Z) : wheel_prog Manager := Ret (on_timer_expire m entry_id).

(** The registered sessions' receive buffers give back their scratch memory. *)
Definition shrink_all (m : Manager) : Manager :=
  with_maps (sessions_ m) (timer_to_session_ m)
    (map_imap (fun id o => Some (if decide (id ∈ sessions_ m)
                                 then mkSessObj (so_session o) (timer_entry_id_ o) (shrink_to_fit malloc_ok fill (recv_buf_ o))
                                 else o)) (objs m)) m.

Definition with_shrink_counter (n : Z) (m : Manager) : Manager :=
  mkManager (heartbeat_timeout_ticks_ m) (recv_buf_capacity_ m) (max_queue_depth_ m) (next_id_ m) (metric_sessions_created_ m)
    (metric_sessions_timeout_ m) (metric_heap_fallback_ m) (sessions_ m) (timer_to_session_ m) (objs m) n (remove_calls m) (timeout_calls m).

Definition tick (s : mgr_state) : outcome mgr_state :=
  run (_, m, w) <- TimingWheel.tick expire_prog s.1 s.2;
  let n := u32 (shrink_tick_counter_ m + 1) in
  if kShrinkIntervalTicks <=? n then Returns (shrink_all (with_shrink_counter 0 m), w)
  else Returns (with_shrink_counter n m, w).

End Operations.

Definition session_count (s : mgr_state) : Z := Z.of_nat (size (sessions_ s.1)).

(** ** Histories *)

Inductive mgr_op : Type :=
| OpCreate (pool_has_slot : bool)
| OpRemove (id : Z)
| OpTouch (id : Z)
| OpTick.

(** One operation; a [create_session] that throws keeps the state it leaves. *)
Definition run_op (malloc_ok : Z -> bool) (fill : Z) (o : mgr_op) (s : mgr_state) : outcome mgr_state :=
  match o with
  | OpCreate b => Returns (create_session malloc_ok fill b s).2
  | OpRemove id => remove_session id s
  | OpTouch id => touch_session id s
  | OpTick => tick malloc_ok fill s
  end.

Fixpoint run_ops (malloc_ok : Z -> bool) (fill : Z) (os : list mgr_op) (s : mgr_state) : outcome mgr_state :=
  match os with
  | [] => Returns s
  | o :: os => run s <- run_op malloc_ok fill o s; run_ops malloc_ok fill os s
  end.

Definition is_tick (o : mgr_op) : bool := match o with OpTick => true | _ => false end.
Definition ticks (os : list mgr_op) : Z := len (filter (fun o => is_tick o = true) os).

(** Operations that neither touch nor remove session [id]. *)
Definition leaves (id : Z) (o : mgr_op) : Prop :=
  match o with OpRemove i | OpTouch i => i <> id | _ => True end.

(** ** Invariant *)

(** Maps and session objects agree; [due] are wheel entries already fired whose
    callback has not run. *)
Record maps_ok (m : Manager) (live_ids : Z -> Prop) (due : list Z) : Prop := mk_maps_ok {
  mo_objs id : id ∈ sessions_ m -> 0 < id < next_id_ m /\ exists o, objs m !! id = Some o;
  mo_timer t id : timer_to_session_ m !! t = Some id <->
    id ∈ sessions_ m /\ t <> 0 /\ exists o, objs m !! id = Some o /\ timer_entry_id_ o = t;
  mo_live t : is_Some (timer_to_session_ m !! t) <-> live_ids t \/ t ∈ due;
  mo_gone id o : objs m !! id = Some o -> id ∉ sessions_ m -> timer_entry_id_ o = 0 /\ Session.is_open (so_session o) = false;
  mo_heartbeat id o : 0 < heartbeat_timeout_ticks_ m -> id ∈ sessions_ m -> objs m !! id = Some o -> timer_entry_id_ o <> 0;
  mo_known id o : objs m !! id = Some o -> 0 < id < next_id_ m;
}.

Definition wheel_ids (w : TimingWheel) (t : Z) : Prop := exists p d, live w p t d.

Record minv (s : mgr_state) : Prop := mk_minv {
  mi_wheel : exists L, TimingWheel.inv s.2 L [];
  mi_maps : maps_ok s.1 (wheel_ids s.2) [];
  mi_hb : 0 <= heartbeat_timeout_ticks_ s.1 < num_slots_ s.2;
  mi_next : 0 < next_id_ s.1;
}.

(** The tick at which a registered session will be evicted. *)
Definition deadline (s : mgr_state) (id : Z) : option Z :=
  match find_session id s with
  | Some o => timer s.2 (timer_entry_id_ o)
  | None => None
  end.

(** How many ticks a registered session has left before the one that evicts it. *)
Definition ticks_left (s : mgr_state) (id : Z) : option Z :=
  (fun d => u64 (d - current_tick_ s.2)) <$> deadline s id.

(** The record of removals agrees with the map, and no session waits longer than
    the heartbeat timeout. *)
Record hist_ok (s : mgr_state) : Prop := mk_hist_ok {
  ho_once : NoDup (remove_calls s.1);
  ho_gone id : id ∈ remove_calls s.1 -> 0 < id < next_id_ s.1 /\ id ∉ sessions_ s.1;
  ho_due id : 0 < heartbeat_timeout_ticks_ s.1 -> id ∈ sessions_ s.1 -> exists k, ticks_left s id = Some k /\ 0 <= k <= heartbeat_timeout_ticks_ s.1;
}.

(** ** Expiry *)

Lemma insert_keeps {A} (m : gmap Z A) i j x : is_Some (m !! j) -> is_Some (<[i := x]> m !! j).
Proof. intros. destruct (decide (i = j)) as [->|]; [rewrite lookup_insert_eq; by eexists|by rewrite lookup_insert_ne]. Qed.

Lemma session_closed_stays o : Session.is_open (so_session (close_obj o)) = false.
Proof. apply Session.is_open_close. Qed.

Lemma timer_owner m LI due t id sid o :
  maps_ok m LI due -> timer_to_session_ m !! t = Some sid -> id ∈ sessions_ m -> objs m !! id = Some o ->
  timer_entry_id_ o = t -> id = sid.
Proof.
  intros Hm Ht Hid Ho Hto. pose proof (proj1 (mo_timer _ _ _ Hm t sid) Ht) as (_ & Ht0 & _).
  assert (timer_to_session_ m !! t = Some id) by (apply (mo_timer _ _ _ Hm); split_and!; [done..|by exists o]). congruence.
Qed.

(** One expiry callback evicts the session of that entry. *)
Lemma on_timer_expire_spec m LI t due :
  maps_ok m LI (t :: due) -> ~ LI t -> t ∉ due ->
  exists id o, timer_to_session_ m !! t = Some id /\ id ∈ sessions_ m /\ objs m !! id = Some o /\ timer_entry_id_ o = t /\
    let m' := on_timer_expire m t in
    maps_ok m' LI due /\ sessions_ m' = sessions_ m ∖ {[id]} /\ objs m' = <[id := close_obj (set_timer 0 o)]> (objs m) /\
    heartbeat_timeout_ticks_ m' = heartbeat_timeout_ticks_ m /\ next_id_ m' = next_id_ m /\
    shrink_tick_counter_ m' = shrink_tick_counter_ m /\
    remove_calls m' = remove_calls m ++ [id] /\ timeout_calls m' = timeout_calls m ++ [id].
Proof.
  intros Hm Hnl Hnd. destruct (proj2 (mo_live _ _ _ Hm t) ltac:(right; apply list_elem_of_here)) as [id Hid].
  pose proof (proj1 (mo_timer _ _ _ Hm t id) Hid) as (Hs & Ht0 & o & Ho & Hto). exists id, o. split_and!; [done..|].
  unfold on_timer_expire. rewrite Hid. cbn [sessions_ objs with_maps]. rewrite decide_True by done. rewrite Ho. cbv zeta.
  split_and!; [|done..]. destruct Hm. constructor; cbn.
  - intros j [Hj Hne]%elem_of_difference. destruct (mo_objs0 j Hj) as [? [oj Hoj]]. split; [done|].
    rewrite elem_of_singleton in Hne. exists oj. by rewrite lookup_insert_ne.
  - intros t' j. rewrite lookup_delete_Some, mo_timer0. rewrite elem_of_difference, elem_of_singleton. split.
    + intros (Hne & Hj & Ht' & oj & Hoj & Htj). assert (j <> id) by (intros ->; congruence). split_and!; [done..|].
      exists oj. by rewrite lookup_insert_ne.
    + intros ([Hj Hne] & Ht' & oj & Hoj & Htj). rewrite lookup_insert_ne in Hoj by done. split; [|split_and!; [done..|by exists oj]].
      intros ->. assert (timer_to_session_ m !! t' = Some j) by (apply mo_timer0; split_and!; [done..|by exists oj]). congruence.
  - intros t'. destruct (decide (t' = t)) as [->|Hne].
    + rewrite lookup_delete_eq. split; [by intros [? ?]|]. intros [?|?]; done.
    + rewrite lookup_delete_ne by done. rewrite mo_live0, elem_of_cons. naive_solver.
  - intros j oj Hoj Hj. destruct (decide (j = id)) as [->|Hne].
    + rewrite lookup_insert_eq in Hoj. injection Hoj as <-. split; [done|apply session_closed_stays].
    + rewrite lookup_insert_ne in Hoj by done. apply (mo_gone0 j); [done|]. rewrite elem_of_difference, elem_of_singleton in Hj. tauto.
  - intros j oj Hhb [Hj Hne]%elem_of_difference Hoj. rewrite elem_of_singleton in Hne. rewrite lookup_insert_ne in Hoj by done. by apply (mo_heartbeat0 j).
  - intros j oj Hoj. destruct (decide (j = id)) as [->|Hne]; [by apply (mo_known0 id o)|]. rewrite lookup_insert_ne in Hoj by done. by apply (mo_known0 j oj).
Qed.

(** All callbacks of a tick: exactly the sessions of the fired entries go. *)
Lemma expire_all_spec m LI due :
  maps_ok m LI due -> NoDup due -> (forall t, t ∈ due -> ~ LI t) ->
  let m' := foldl on_timer_expire m due in
  maps_ok m' LI [] /\ heartbeat_timeout_ticks_ m' = heartbeat_timeout_ticks_ m /\ next_id_ m' = next_id_ m /\
  (forall id, id ∈ sessions_ m' <-> id ∈ sessions_ m /\ forall o, objs m !! id = Some o -> timer_entry_id_ o ∉ due) /\
  (forall id, id ∈ sessions_ m' -> objs m' !! id = objs m !! id) /\
  (forall id, is_Some (objs m !! id) -> is_Some (objs m' !! id)) /\
  (exists gone, remove_calls m' = remove_calls m ++ gone /\ timeout_calls m' = timeout_calls m ++ gone /\ NoDup gone /\
     forall id, id ∈ gone <-> id ∈ sessions_ m /\ id ∉ sessions_ m').
Proof.
  intros Hm Hnd Hd. revert m Hm. induction Hnd as [|t due Ht Hnd IH]; intros m Hm; cbn [foldl].
  { split_and!; [done..| |done|done|].
    - intros id. split; [|by intros [? _]]. intros Hid. split; [done|]. intros o _. apply not_elem_of_nil.
    - exists []. rewrite !app_nil_r. split_and!; [done..|constructor|]. intros id. split; [by intros ?%not_elem_of_nil|by intros [? ?]]. }
  destruct (on_timer_expire_spec m LI t due Hm) as (sid & o & Htt & Hs & Ho & Hto & Hm1 & Hss & Hobj & Hhb & Hni & _ & Hrc & Htc);
    [by apply Hd, list_elem_of_here|done|]. cbv zeta in *. set (m1 := on_timer_expire m t) in *.
  destruct (IH ltac:(intros; apply Hd; by apply list_elem_of_further) m1 Hm1) as (Hm2 & Hhb2 & Hni2 & Hs2 & Ho2 & Hk2 & gone & Hrc2 & Htc2 & Hgn & Hg).
  assert (Hobj1 : forall id, id <> sid -> objs m1 !! id = objs m !! id) by (intros; rewrite Hobj; by rewrite lookup_insert_ne).
  assert (Hss1 : forall id, id ∈ sessions_ m1 <-> id ∈ sessions_ m /\ id <> sid) by (intros; rewrite Hss, elem_of_difference, elem_of_singleton; done).
  split_and!; [done|congruence|congruence| | | |].
  - intros id. rewrite Hs2, Hss1. split.
    + intros [[Hid Hne] Hdue]. split; [done|]. intros oi Hoi. rewrite Hobj1 in Hdue by done. specialize (Hdue oi Hoi).
      apply not_elem_of_cons. split; [|done]. intros E. apply Hne. by apply (timer_owner m LI (t :: due) t id sid oi).
    + intros [Hid Hdue]. assert (Hne : id <> sid).
      { intros ->. apply (Hdue o Ho). rewrite Hto. apply list_elem_of_here. }
      split; [done|]. intros oi. rewrite Hobj1 by done. intros Hoi. specialize (Hdue oi Hoi). by apply not_elem_of_cons in Hdue as [_ ?].
  - intros id Hid. rewrite Ho2 by done. apply Hobj1. apply Hs2 in Hid as [Hid _]. by apply Hss1 in Hid as [_ ?].
  - intros id Hid. apply Hk2. rewrite Hobj. destruct (decide (id = sid)) as [->|]; [rewrite lookup_insert_eq; by eexists|by rewrite lookup_insert_ne].
  - exists (sid :: gone). rewrite Hrc2, Htc2, Hrc, Htc, <- !app_assoc. split_and!; [done..| |].
    + constructor; [|done]. intros Hin. apply Hg in Hin as [Hin _]. by apply Hss1 in Hin as [_ ?].
    + intros id. rewrite elem_of_cons, Hg, Hss1. split.
      * intros [->|[[? ?] ?]]; [|done]. split; [done|]. intros Hin. apply Hs2 in Hin as [Hin _]. by apply Hss1 in Hin as [_ ?].
      * intros [Hid Hn]. destruct (decide (id = sid)); [by left|by right].
Qed.

(** ** Operations and the deadline of each session *)

Lemma wheel_ids_pos w t : wheel_ids w t -> 0 < t.
Proof. by intros (p & d & ? & _). Qed.

Lemma timer_nonneg m w due id o :
  maps_ok m (wheel_ids w) due -> Forall (fun t => 0 <= t) due -> id ∈ sessions_ m -> objs m !! id = Some o -> 0 <= timer_entry_id_ o.
Proof.
  intros Hm Hd Hid Ho. destruct (decide (timer_entry_id_ o = 0)) as [->|Hne]; [done|].
  assert (Ht : is_Some (timer_to_session_ m !! timer_entry_id_ o)) by (exists id; apply (mo_timer _ _ _ Hm); split_and!; [done..|by exists o]).
  apply (mo_live _ _ _ Hm) in Ht as [Ht|Ht]; [apply wheel_ids_pos in Ht; lia|]. rewrite Forall_forall in Hd. by apply Hd.
Qed.

Lemma session_timer s id :
  minv s -> id ∈ sessions_ s.1 -> exists o, objs s.1 !! id = Some o /\ 0 <= timer_entry_id_ o /\ find_session id s = Some o /\
    deadline s id = timer s.2 (timer_entry_id_ o).
Proof.
  intros Hs Hid. destruct (mo_objs _ _ _ (mi_maps _ Hs) id Hid) as [_ [o Ho]]. exists o.
  assert (Hf : find_session id s = Some o) by (unfold find_session; by rewrite decide_True).
  split_and!; [done|by eapply timer_nonneg; [apply Hs|constructor| |]|done|]. unfold deadline. by rewrite Hf.
Qed.

(** Deadlines that an operation does not move. *)
Lemma deadline_same s s' id :
  minv s -> minv s' -> id ∈ sessions_ s.1 -> id ∈ sessions_ s'.1 ->
  (timer_entry_id_ <$> objs s'.1 !! id) = (timer_entry_id_ <$> objs s.1 !! id) ->
  (forall o p d, objs s.1 !! id = Some o -> live s'.2 p (timer_entry_id_ o) d <-> live s.2 p (timer_entry_id_ o) d) ->
  deadline s' id = deadline s id.
Proof.
  intros Hs Hs' Hid Hid' Ho Hl. destruct (session_timer s id Hs Hid) as (o & Eo & Ht & _ & ->).
  destruct (session_timer s' id Hs' Hid') as (o' & Eo' & _ & _ & ->). rewrite Eo, Eo' in Ho. injection Ho as ->.
  destruct (mi_wheel _ Hs) as [L Hw], (mi_wheel _ Hs') as [L' Hw']. eapply timer_ext; [done..|]. intros p d. by apply Hl.
Qed.

(** Every registered session of a manager with a heartbeat has a deadline. *)
Lemma deadline_some s id :
  minv s -> 0 < heartbeat_timeout_ticks_ s.1 -> id ∈ sessions_ s.1 ->
  exists d, deadline s id = Some d /\ in_width 64 d /\ u64 (d - current_tick_ s.2) < num_slots_ s.2.
Proof.
  intros Hs Hhb Hid. destruct (session_timer s id Hs Hid) as (o & Eo & Ht & _ & ->). destruct (mi_wheel _ Hs) as [L Hw].
  pose proof (mo_heartbeat _ _ _ (mi_maps _ Hs) id o Hhb Hid Eo) as Hnz.
  assert (Hl : is_Some (timer_to_session_ s.1 !! timer_entry_id_ o)) by (exists id; apply (mo_timer _ _ _ (mi_maps _ Hs)); split_and!; [done..|by exists o]).
  apply (mo_live _ _ _ (mi_maps _ Hs)) in Hl as [(p & d & Hl)|?%not_elem_of_nil]; [|done]. exists d.
  split; [apply (timer_spec _ _ _ Hw); [done|by exists p]|]. by apply (inv_win _ _ _ Hw p (timer_entry_id_ o)).
Qed.

Lemma session_timers_differ s i j oi oj :
  minv s -> i <> j -> i ∈ sessions_ s.1 -> j ∈ sessions_ s.1 -> objs s.1 !! i = Some oi -> objs s.1 !! j = Some oj ->
  timer_entry_id_ oi <> 0 -> timer_entry_id_ oj <> timer_entry_id_ oi.
Proof.
  intros Hs Hne Hi Hj Ei Ej Hnz E. apply Hne. symmetry. eapply (timer_owner s.1 _ _ (timer_entry_id_ oi) j i oj); [apply Hs| |done..].
  apply (mo_timer _ _ _ (mi_maps _ Hs)). split_and!; [done..|by exists oi].
Qed.

(** Registering a new session with its heartbeat entry ([t = 0]: none). *)
Lemma maps_ok_register m m' LI LI' t o :
  maps_ok m LI [] -> 0 < next_id_ m -> (t <> 0 -> ~ LI t) -> timer_entry_id_ o = t -> (0 < heartbeat_timeout_ticks_ m -> t <> 0) ->
  (forall u, LI' u <-> LI u \/ (u = t /\ t <> 0)) ->
  heartbeat_timeout_ticks_ m' = heartbeat_timeout_ticks_ m -> next_id_ m' = next_id_ m + 1 ->
  sessions_ m' = {[next_id_ m]} ∪ sessions_ m -> objs m' = <[next_id_ m := o]> (objs m) ->
  timer_to_session_ m' = (if t =? 0 then timer_to_session_ m else <[t := next_id_ m]> (timer_to_session_ m)) ->
  maps_ok m' LI' [].
Proof.
  intros Hm Hnx Hnew Ho Hhb Hli Eh En Es Eo Et.
  assert (Hfresh : next_id_ m ∉ sessions_ m) by (intros H; apply (mo_objs _ _ _ Hm) in H as [? _]; lia).
  assert (Htt : t <> 0 -> timer_to_session_ m !! t = None).
  { intros Hz. destruct (timer_to_session_ m !! t) eqn:E; [|done]. assert (is_Some (timer_to_session_ m !! t)) as Hl by (by eexists).
    apply (mo_live _ _ _ Hm) in Hl as [?|?%not_elem_of_nil]; [by apply Hnew in Hz|done]. }
  assert (Hold : forall id, id ∈ sessions_ m -> objs m' !! id = objs m !! id).
  { intros id Hid. rewrite Eo, lookup_insert_ne; [done|]. congruence. }
  constructor; rewrite ?Eh, ?En, ?Es.
  - intros id [->%elem_of_singleton|Hid]%elem_of_union; [split; [lia|]; exists o; by rewrite Eo, lookup_insert_eq|].
    rewrite Hold by done. apply (mo_objs _ _ _ Hm) in Hid as [? ?]. split; [lia|done].
  - intros u id. rewrite elem_of_union, elem_of_singleton.
    assert (Hu : timer_to_session_ m' !! u = Some id <-> (u = t /\ t <> 0 /\ id = next_id_ m) \/ timer_to_session_ m !! u = Some id).
    { rewrite Et. destruct (Z.eqb_spec t 0); [naive_solver|]. destruct (decide (u = t)) as [->|Hne].
      - rewrite lookup_insert_eq, Htt by done. naive_solver.
      - rewrite lookup_insert_ne by done. naive_solver. }
    rewrite Hu, (mo_timer _ _ _ Hm). split.
    + intros [(-> & Hz & ->)|(Hid & Hz & oi & Hoi)]; [split_and!; [by left|done|]; exists o; by rewrite Eo, lookup_insert_eq|].
      split_and!; [by right|done|]. exists oi. by rewrite Hold.
    + intros (Hid & Hz & oi & Hoi & Hti). destruct (decide (id = next_id_ m)) as [->|Hne].
      * left. rewrite Eo, lookup_insert_eq in Hoi. injection Hoi as <-. split_and!; congruence.
      * right. destruct Hid as [?|Hid]; [done|]. rewrite Hold in Hoi by done. split_and!; [done..|by exists oi].
  - intros u. pose proof (mo_live _ _ _ Hm u) as Hu. rewrite Hli, Et. destruct (Z.eqb_spec t 0); [naive_solver|].
    destruct (decide (u = t)) as [->|Hne]; [rewrite lookup_insert_eq; naive_solver|]. rewrite lookup_insert_ne by done. naive_solver.
  - intros id oi. rewrite Eo, not_elem_of_union, not_elem_of_singleton. intros Hoi [Hne Hn]. rewrite lookup_insert_ne in Hoi by done. by apply (mo_gone _ _ _ Hm id).
  - intros id oi Hpos [->%elem_of_singleton|Hid]%elem_of_union Hoi.
    + rewrite Eo, lookup_insert_eq in Hoi. injection Hoi as <-. rewrite Ho. by apply Hhb.
    + rewrite Hold in Hoi by done. by apply (mo_heartbeat _ _ _ Hm id).
  - intros id oi. rewrite Eo. destruct (decide (id = next_id_ m)) as [->|Hne]; [lia|]. rewrite lookup_insert_ne by done. intros Hoi.
    apply (mo_known _ _ _ Hm) in Hoi. lia.
Qed.

(** What an operation leaves of the manager's parameters and of a session. *)
Definition same_params (s s' : mgr_state) : Prop :=
  heartbeat_timeout_ticks_ s'.1 = heartbeat_timeout_ticks_ s.1 /\ num_slots_ s'.2 = num_slots_ s.2.

Definition keeps (s s' : mgr_state) (id : Z) : Prop :=
  id ∈ sessions_ s.1 -> id ∈ sessions_ s'.1 /\ deadline s' id = deadline s id.

(** The state after a registration, given what the wheel did. *)
Lemma register_spec m w m' w' t o :
  minv (m, w) -> (exists L, TimingWheel.inv w' L []) -> num_slots_ w' = num_slots_ w ->
  timer_entry_id_ o = t -> 0 <= t -> (0 < heartbeat_timeout_ticks_ m -> t <> 0) ->
  (t <> 0 -> forall p d, ~ live w p t d) -> (forall q j d, j <> t -> live w' q j d <-> live w q j d) ->
  (t = 0 -> w' = w) -> (t <> 0 -> exists p d, live w' p t d) ->
  heartbeat_timeout_ticks_ m' = heartbeat_timeout_ticks_ m -> next_id_ m' = next_id_ m + 1 ->
  sessions_ m' = {[next_id_ m]} ∪ sessions_ m -> objs m' = <[next_id_ m := o]> (objs m) ->
  timer_to_session_ m' = (if t =? 0 then timer_to_session_ m else <[t := next_id_ m]> (timer_to_session_ m)) ->
  minv (m', w') /\ (forall id, keeps (m, w) (m', w') id) /\ find_session (next_id_ m) (m', w') = Some o /\
  deadline (m', w') (next_id_ m) = timer w' t.
Proof.
  intros Hs Hw' Hns Ho Ht0 Hhb Hnew Hother Hw0 Ht1 Eh En Es Eo Et. pose proof Hs as [[L Hw] Hm Hb Hn]. cbn [fst snd] in *.
  assert (Hs' : minv (m', w')).
  { constructor; cbn [fst snd]; [done| |by rewrite Eh, Hns|lia].
    apply (maps_ok_register m m' (wheel_ids w) (wheel_ids w') t o); try done.
    - intros Hz (p & d & Hl). by apply (Hnew Hz) in Hl.
    - intros u. destruct (decide (u = t)) as [->|Hne].
      + destruct (decide (t = 0)) as [E|Hz]; [rewrite Hw0 by done; naive_solver|]. split; [by right|]. intros _. by apply Ht1.
      + unfold wheel_ids. setoid_rewrite Hother; [|done]. naive_solver. }
  assert (Hf : find_session (next_id_ m) (m', w') = Some o).
  { unfold find_session. cbn [fst]. rewrite Es, decide_True by (apply elem_of_union_l, elem_of_singleton; done). by rewrite Eo, lookup_insert_eq. }
  split_and!; [done| |done|unfold deadline; rewrite Hf; cbn [snd]; by rewrite Ho].
  intros id Hid. cbn [fst] in *. assert (Hne : id <> next_id_ m) by (intros ->; apply (mo_objs _ _ _ Hm) in Hid as [? _]; lia).
  assert (Hid' : id ∈ sessions_ m') by (rewrite Es; by apply elem_of_union_r). split; [done|].
  apply deadline_same; cbn [fst snd]; try done; [by rewrite Eo, lookup_insert_ne|].
  intros oi p d Hoi. destruct (decide (timer_entry_id_ oi = t)) as [E|]; [|by apply Hother].
  destruct (decide (t = 0)) as [E0|Hz]; [by rewrite Hw0|]. exfalso. rewrite <- E in Hz.
  assert (Hl : is_Some (timer_to_session_ m !! timer_entry_id_ oi)) by (exists id; apply (mo_timer _ _ _ Hm); split_and!; [done..|by exists oi]).
  apply (mo_live _ _ _ Hm) in Hl as [(q & e & Hl)|?%not_elem_of_nil]; [|done]. rewrite E in Hz, Hl. by apply (Hnew Hz q e).
Qed.

Lemma create_session_spec malloc_ok fill b s :
  minv s -> next_id_ s.1 < 2 ^ 64 - 1 ->
  let '(r, s') := create_session malloc_ok fill b s in
  minv s' /\ same_params s s' /\ current_tick_ s'.2 = current_tick_ s.2 /\ next_id_ s'.1 = next_id_ s.1 + 1 /\ (forall id, keeps s s' id) /\
  remove_calls s'.1 = remove_calls s.1 /\ (forall id, is_Some (objs s.1 !! id) -> is_Some (objs s'.1 !! id)) /\
  match r with
  | Returns id => id = next_id_ s.1 /\ sessions_ s'.1 = {[id]} ∪ sessions_ s.1 /\
      (exists o, find_session id s' = Some o /\ Session.is_open (so_session o) = true) /\
      (0 < heartbeat_timeout_ticks_ s.1 -> deadline s' id = Some (compute_deadline (heartbeat_timeout_ticks_ s.1) s.2))
  | Throws _ => sessions_ s'.1 = sessions_ s.1
  end.
Proof.
  destruct s as [m w]. intros Hs Hnx. cbn [fst snd] in Hnx. unfold create_session. cbn [recv_buf_capacity_].
  pose proof Hs as [[L Hw] Hm Hhb Hn]. cbn [fst snd] in Hw, Hm, Hhb, Hn.
  assert (En : u64 (next_id_ m + 1) = next_id_ m + 1) by (apply wrap_small; unfold in_width; lia).
  destruct (RingBuffer.make malloc_ok fill (recv_buf_capacity_ m)) as [rb|x].
  2:{ rewrite En. match goal with |- minv ?s' /\ _ => assert (Hs' : minv s') end.
      { constructor; cbn; [by exists L| |done|lia]. destruct Hm. constructor; cbn; try done.
        - intros id Hid. destruct (mo_objs0 id Hid) as [? ?]. split; [lia|done].
        - intros id o Ho. apply mo_known0 in Ho. lia. }
      split_and!; done. }
  cbn [heartbeat_timeout_ticks_ with_maps sessions_ timer_to_session_ objs max_queue_depth_ next_id_]. rewrite En.
  destruct (Z.ltb_spec 0 (heartbeat_timeout_ticks_ m)) as [Hpos|Hz].
  - pose proof (schedule_spec w L [] (heartbeat_timeout_ticks_ m) Hw ltac:(lia)) as Hsch.
    destruct (Z.leb_spec (num_slots_ w) (heartbeat_timeout_ticks_ m)); [lia|].
    destruct Hsch as (i & w' & L' & -> & Hw' & Hi & Hnew & Hct & Hns & Hl).
    set (o := mkSessObj _ _ rb).
    match goal with |- minv ?s' /\ _ => destruct (register_spec m w s'.1 s'.2 i (set_timer i o)) as (H1 & H2 & H3 & H4) end;
      cbn [fst snd]; try done; try lia.
    + by exists L'.
    + intros q j d Hne. rewrite Hl. naive_solver.
    + intros _. exists (heap_next w), (compute_deadline (heartbeat_timeout_ticks_ m) w). apply Hl. by left.
    + cbn. by rewrite insert_insert_eq.
    + cbn. destruct (Z.eqb_spec i 0); [lia|done].
    + split_and!; try done; [intros id Hid; cbn; rewrite insert_insert_eq; by apply insert_keeps|by eexists|]. intros _. cbn [fst snd] in H4 |- *. rewrite H4.
      apply (timer_spec _ _ _ Hw'); [lia|]. exists (heap_next w). apply Hl. by left.
  - match goal with |- minv ?s' /\ _ => destruct (register_spec m w s'.1 s'.2 0 (mkSessObj (Session.set_active (Session.make (max_queue_depth_ m))) 0 rb)) as (H1 & H2 & H3 & H4) end;
      cbn [fst snd]; try done; try lia; [by exists L|].
    split_and!; try done; [intros id Hid; cbn; by apply insert_keeps|by eexists|]. cbn. lia.
Qed.

(** The maps after a session is taken out together with its entry. *)
Lemma maps_ok_remove m m' LI LI' id o :
  maps_ok m LI [] -> id ∈ sessions_ m -> objs m !! id = Some o ->
  (forall u, LI' u <-> LI u /\ u <> timer_entry_id_ o) ->
  heartbeat_timeout_ticks_ m' = heartbeat_timeout_ticks_ m -> next_id_ m' = next_id_ m ->
  sessions_ m' = sessions_ m ∖ {[id]} -> objs m' = <[id := set_timer 0 (close_obj o)]> (objs m) ->
  timer_to_session_ m' = delete (timer_entry_id_ o) (timer_to_session_ m) ->
  maps_ok m' LI' [].
Proof.
  intros Hm Hid Ho Hli Eh En Es Eo Et.
  assert (Hold : forall j, j <> id -> objs m' !! j = objs m !! j) by (intros; by rewrite Eo, lookup_insert_ne).
  constructor; rewrite ?Eh, ?En, ?Es.
  - intros j [Hj Hne]%elem_of_difference. rewrite elem_of_singleton in Hne. rewrite Hold by done. by apply (mo_objs _ _ _ Hm).
  - intros u j. rewrite Et, lookup_delete_Some, (mo_timer _ _ _ Hm), elem_of_difference, elem_of_singleton. split.
    + intros (Hne & Hj & Hu & oj & Hoj & Htj). assert (j <> id) by congruence. split_and!; [done..|]. exists oj. by rewrite Hold.
    + intros ([Hj Hne] & Hu & oj & Hoj & Htj). rewrite Hold in Hoj by done. split; [|split_and!; [done..|by exists oj]].
      intros E. apply Hne. symmetry. apply (timer_owner m LI [] u id j o); try done. apply (mo_timer _ _ _ Hm). split_and!; [done..|by exists oj].
  - intros u. rewrite Et, Hli. destruct (decide (u = timer_entry_id_ o)) as [->|Hne].
    + rewrite lookup_delete_eq. split; [by intros [? ?]|]. intros [[_ ?]|?%not_elem_of_nil]; done.
    + rewrite lookup_delete_ne by done. rewrite (mo_live _ _ _ Hm). naive_solver.
  - intros j oj Hoj Hj. destruct (decide (j = id)) as [->|Hne].
    + rewrite Eo, lookup_insert_eq in Hoj. injection Hoj as <-. split; [done|apply Session.is_open_close].
    + rewrite Hold in Hoj by done. apply (mo_gone _ _ _ Hm j); [done|]. rewrite elem_of_difference, elem_of_singleton in Hj. tauto.
  - intros j oj Hpos [Hj Hne]%elem_of_difference Hoj. rewrite elem_of_singleton in Hne. rewrite Hold in Hoj by done. by apply (mo_heartbeat _ _ _ Hm j).
  - intros j oj Hoj. destruct (decide (j = id)) as [->|Hne]; [by apply (mo_known _ _ _ Hm id o)|]. rewrite Hold in Hoj by done. by apply (mo_known _ _ _ Hm j oj).
Qed.

Lemma maps_ok_ext m LI LI' due : maps_ok m LI due -> (forall t, LI' t <-> LI t) -> maps_ok m LI' due.
Proof. intros [] H. constructor; try done. intros t. by rewrite H. Qed.

Lemma close_set_timer o : timer_entry_id_ o = 0 -> close_obj o = set_timer 0 (close_obj o).
Proof. destruct o. cbn. intros ->. done. Qed.

(** What [remove_session] computes for a registered session. *)
Lemma remove_session_eq id m w o :
  minv (m, w) -> id ∈ sessions_ m -> objs m !! id = Some o ->
  exists m' w', remove_session id (m, w) = Returns (m', w') /\
    timer_to_session_ m' = delete (timer_entry_id_ o) (timer_to_session_ m) /\
    sessions_ m' = sessions_ m ∖ {[id]} /\ objs m' = <[id := set_timer 0 (close_obj o)]> (objs m) /\ next_id_ m' = next_id_ m /\
    heartbeat_timeout_ticks_ m' = heartbeat_timeout_ticks_ m /\ remove_calls m' = remove_calls m ++ [id] /\
    (exists L', TimingWheel.inv w' L' []) /\ current_tick_ w' = current_tick_ w /\ num_slots_ w' = num_slots_ w /\
    (forall q j d, live w' q j d <-> live w q j d /\ j <> timer_entry_id_ o).
Proof.
  intros Hs Hid Ho. pose proof Hs as [[L Hw] Hm Hb Hn]. cbn [fst snd] in *. unfold remove_session. rewrite decide_True, Ho by done.
  cbn [timer_entry_id_ close_obj]. destruct (Z.eqb_spec (timer_entry_id_ o) 0) as [E|].
  - eexists _, w. cbn [outcome_bind]. split; [reflexivity|]. cbn. split_and!; try done.
    + rewrite delete_id; [done|]. destruct (timer_to_session_ m !! timer_entry_id_ o) as [k|] eqn:Ek; [|done].
      apply (mo_timer _ _ _ Hm) in Ek as (_ & ? & _). done.
    + by rewrite <- close_set_timer.
    + by exists L.
    + intros q j d. split; [|tauto]. intros Hq. split; [done|]. rewrite E. destruct Hq as [? _]. lia.
  - assert (Ht0 : 0 <= timer_entry_id_ o) by (by eapply timer_nonneg; [apply Hm|constructor| |]).
    destruct (cancel_spec w L [] (timer_entry_id_ o) Hw Ht0) as (w1 & L1 & Hc & Hw1 & Hct & Hns & Hl).
    eexists _, w1. rewrite Hc. cbn [outcome_bind]. split; [reflexivity|]. cbn. split_and!; try done. by exists L1.
Qed.

Lemma remove_session_spec id s :
  minv s ->
  exists s', remove_session id s = Returns s' /\ minv s' /\ same_params s s' /\ current_tick_ s'.2 = current_tick_ s.2 /\ next_id_ s'.1 = next_id_ s.1 /\
    (forall j, j <> id -> keeps s s' j) /\ sessions_ s'.1 = sessions_ s.1 ∖ {[id]} /\
    (forall j, is_Some (objs s.1 !! j) -> is_Some (objs s'.1 !! j)) /\
    remove_calls s'.1 = remove_calls s.1 ++ (if decide (id ∈ sessions_ s.1) then [id] else []).
Proof.
  destruct s as [m w]. intros Hs. pose proof Hs as [_ Hm Hb Hn]. cbn [fst snd] in *. case_decide as Hid.
  2:{ unfold remove_session. rewrite decide_False by done. exists (m, w). split_and!; try done; [|by rewrite app_nil_r].
      cbn [fst]. symmetry. apply difference_disjoint_L. set_solver. }
  destruct (session_timer (m, w) id Hs Hid) as (o & Ho & Ht0 & _ & _). cbn [fst] in Ho.
  destruct (remove_session_eq id m w o Hs Hid Ho) as (m' & w' & E & Et & Es & Eo & En & Eh & Er & Hw' & Hct' & Hns' & Hl').
  exists (m', w'). rewrite E. assert (Hs' : minv (m', w')).
  { constructor; cbn [fst snd]; [done| |by rewrite Eh, Hns'|lia]. eapply (maps_ok_remove m m'); try done.
    intros u. unfold wheel_ids. setoid_rewrite Hl'. naive_solver. }
  split_and!; try done; [|intros j Hj; cbn [fst]; rewrite Eo; by apply insert_keeps]. intros j Hne Hj. cbn [fst] in *.
  assert (Hj' : j ∈ sessions_ m') by (rewrite Es; set_solver). split; [done|].
  apply deadline_same; cbn [fst snd]; try done; [by rewrite Eo, lookup_insert_ne|].
  intros oj p d Hoj. rewrite Hl'. split; [by intros [? _]|]. intros Hq. split; [done|]. intros E'.
  destruct Hq as [Hpos _]. apply (session_timers_differ (m, w) id j o oj) in E'; try done; congruence || lia.
Qed.

Lemma touch_session_spec id s :
  minv s ->
  exists s', touch_session id s = Returns s' /\ minv s' /\ same_params s s' /\ current_tick_ s'.2 = current_tick_ s.2 /\ s'.1 = s.1 /\
    (forall j, j <> id -> keeps s s' j) /\
    (0 < heartbeat_timeout_ticks_ s.1 -> id ∈ sessions_ s.1 ->
       deadline s' id = Some (compute_deadline (heartbeat_timeout_ticks_ s.1) s.2)).
Proof.
  destruct s as [m w]. intros Hs. pose proof Hs as [[L Hw] Hm Hb Hn]. cbn [fst snd] in *. unfold touch_session.
  destruct (Z.eqb_spec (heartbeat_timeout_ticks_ m) 0) as [Ez|Ez]; [exists (m, w); split_and!; try done; lia|].
  destruct (decide (id ∈ sessions_ m)) as [Hid|Hid].
  2:{ unfold find_session. rewrite decide_False by done. exists (m, w). split_and!; done. }
  destruct (session_timer (m, w) id Hs Hid) as (o & Ho & Ht0 & -> & _). cbn [fst] in Ho.
  pose proof (mo_heartbeat _ _ _ Hm id o ltac:(lia) Hid Ho) as Hnz. destruct (Z.eqb_spec (timer_entry_id_ o) 0); [done|].
  pose proof (reschedule_spec w L [] (timer_entry_id_ o) (heartbeat_timeout_ticks_ m) Hw Ht0 ltac:(lia)) as Hr.
  destruct (Z.leb_spec (num_slots_ w) (heartbeat_timeout_ticks_ m)); [lia|].
  destruct Hr as (w' & L' & -> & Hw' & Hct & Hns & Hl). cbn [outcome_bind]. exists (m, w').
  assert (Hlive : wheel_ids w (timer_entry_id_ o)).
  { assert (Hi : is_Some (timer_to_session_ m !! timer_entry_id_ o)) by (exists id; apply (mo_timer _ _ _ Hm); split_and!; [done..|by exists o]).
    by apply (mo_live _ _ _ Hm) in Hi as [?|?%not_elem_of_nil]. }
  assert (Hs' : minv (m, w')).
  { constructor; cbn [fst snd]; [by exists L'| |by rewrite Hns|lia]. eapply maps_ok_ext; [done|]. intros t. unfold wheel_ids. setoid_rewrite Hl.
    destruct Hlive as (p & d & Hl0). destruct (decide (t = timer_entry_id_ o)) as [->|]; [|naive_solver].
    split; [by eexists _, _|]. intros _. eexists p, _. left. split_and!; [done..|by eexists]. }
  split_and!; try done.
  - intros j Hne Hj. split; [done|]. apply deadline_same; try done. intros oj p d Hoj. cbn [snd]. rewrite Hl.
    pose proof (session_timers_differ (m, w) id j o oj Hs ltac:(congruence) Hid Hj Ho Hoj Hnz). naive_solver.
  - intros _ _. destruct (session_timer (m, w') id Hs' Hid) as (o' & Ho' & _ & _ & ->). cbn [fst snd] in *. rewrite Ho in Ho'. injection Ho' as <-.
    apply (timer_spec _ _ _ Hw'); [done|]. destruct Hlive as (p & d & Hl0). exists p. apply Hl. left. split_and!; [done..|by eexists].
Qed.

(** States that differ only in receive buffers and counters. *)
Lemma maps_ok_bufs m m' LI due :
  maps_ok m LI due -> heartbeat_timeout_ticks_ m' = heartbeat_timeout_ticks_ m -> next_id_ m' = next_id_ m ->
  sessions_ m' = sessions_ m -> timer_to_session_ m' = timer_to_session_ m ->
  (forall id, ((fun o => (so_session o, timer_entry_id_ o)) <$> objs m' !! id) = ((fun o => (so_session o, timer_entry_id_ o)) <$> objs m !! id)) ->
  maps_ok m' LI due.
Proof.
  intros Hm Eh En Es Et Eo.
  assert (Hfw : forall id o, objs m' !! id = Some o -> exists o0, objs m !! id = Some o0 /\ so_session o0 = so_session o /\ timer_entry_id_ o0 = timer_entry_id_ o).
  { intros id o Ho. specialize (Eo id). rewrite Ho in Eo. destruct (objs m !! id) as [o0|]; [|done]. cbn in Eo. injection Eo as ? ?. by exists o0. }
  assert (Hbw : forall id o, objs m !! id = Some o -> exists o0, objs m' !! id = Some o0 /\ timer_entry_id_ o0 = timer_entry_id_ o).
  { intros id o Ho. specialize (Eo id). rewrite Ho in Eo. destruct (objs m' !! id) as [o0|]; [|done]. cbn in Eo. injection Eo as ? ?. by exists o0. }
  constructor; rewrite ?Eh, ?En, ?Es, ?Et.
  - intros id Hid. apply (mo_objs _ _ _ Hm) in Hid as (? & o & Ho). apply Hbw in Ho as (o0 & ? & _). split; [done|by exists o0].
  - intros t id. rewrite (mo_timer _ _ _ Hm). split; intros (? & ? & o & Ho & Hto); split_and!; try done.
    + apply Hbw in Ho as (o0 & ? & ?). exists o0. split; [done|congruence].
    + apply Hfw in Ho as (o0 & ? & _ & ?). exists o0. split; [done|congruence].
  - apply (mo_live _ _ _ Hm).
  - intros id o Ho Hid. apply Hfw in Ho as (o0 & Ho & <- & <-). by apply (mo_gone _ _ _ Hm id).
  - intros id o Hhb Hid Ho. apply Hfw in Ho as (o0 & Ho & _ & <-). by apply (mo_heartbeat _ _ _ Hm id).
  - intros id o Ho. apply Hfw in Ho as (o0 & Ho & _). by apply (mo_known _ _ _ Hm id o0).
Qed.

Lemma shrink_all_objs malloc_ok fill m id :
  ((fun o => (so_session o, timer_entry_id_ o)) <$> objs (shrink_all malloc_ok fill m) !! id) =
  ((fun o => (so_session o, timer_entry_id_ o)) <$> objs m !! id).
Proof. unfold shrink_all. cbn. rewrite map_lookup_imap. destruct (objs m !! id); [|done]. cbn. by case_decide. Qed.

Lemma prog_ok_expire x j : 0 < j -> prog_ok 1 (expire_prog x j).
Proof. done. Qed.

Lemma tick_maps malloc_ok fill s :
  minv s ->
  exists (fired : list Z) s', tick malloc_ok fill s = Returns s' /\ (exists L, TimingWheel.inv s'.2 L []) /\ maps_ok s'.1 (wheel_ids s'.2) [] /\ same_params s s' /\
    current_tick_ s'.2 = u64 (current_tick_ s.2 + 1) /\ next_id_ s'.1 = next_id_ s.1 /\
    (forall i, i ∈ fired <-> exists p, live s.2 p i (current_tick_ s.2)) /\
    (forall p i d, live s'.2 p i d <-> live s.2 p i d /\ d <> current_tick_ s.2) /\
    (forall id, id ∈ sessions_ s'.1 <-> id ∈ sessions_ s.1 /\ forall o, objs s.1 !! id = Some o -> timer_entry_id_ o ∉ fired) /\
    (forall id, id ∈ sessions_ s'.1 -> (timer_entry_id_ <$> objs s'.1 !! id) = (timer_entry_id_ <$> objs s.1 !! id)) /\
    (forall id, is_Some (objs s.1 !! id) -> is_Some (objs s'.1 !! id)) /\
    exists gone, remove_calls s'.1 = remove_calls s.1 ++ gone /\ timeout_calls s'.1 = timeout_calls s.1 ++ gone /\ NoDup gone /\
     forall id, id ∈ gone <-> id ∈ sessions_ s.1 /\ id ∉ sessions_ s'.1.
Proof.
  destruct s as [m w]. intros [[L Hw] Hm Hb Hn]. cbn [fst snd] in *. unfold tick. cbn [fst snd].
  destruct (tick_spec expire_prog prog_ok_expire m w L Hw) as (fired & m1 & w' & L' & -> & Hw' & Hct & Hns & Hnd & Hf & _ & Hg).
  destruct (Hg on_timer_expire) as [Em1 Hl]; [done|]. clear Hg. cbn [outcome_bind].
  destruct (expire_all_spec m (wheel_ids w') fired) as (Hm1 & Eh & En & Hs1 & Ho1 & Hk1 & gone & Hrc & Htc & Hgn & Hg).
  { destruct Hm. constructor; try done. intros t. rewrite mo_live0. rewrite Hf. unfold wheel_ids. setoid_rewrite Hl. split.
    - intros [(p & d & Hp)|?%not_elem_of_nil]; [|done]. destruct (decide (d = current_tick_ w)) as [->|]; [right; by exists p|left; by exists p, d].
    - intros [(p & d & Hp & _)|[p Hp]]; left; by eexists _, _. }
  { done. }
  { intros t [p Hp]%Hf (q & d & Hq). apply Hl in Hq as [Hq Hd]. apply Hd. by eapply live_fun. }
  cbv zeta in *. rewrite <- Em1 in *. clear Em1. set (n := u32 _).
  assert (Hbuf : forall id, id ∈ sessions_ m1 -> (timer_entry_id_ <$> objs (shrink_all malloc_ok fill (with_shrink_counter 0 m1)) !! id) = (timer_entry_id_ <$> objs m !! id)).
  { intros id Hid. pose proof (shrink_all_objs malloc_ok fill (with_shrink_counter 0 m1) id) as E. rewrite <- Ho1 by done.
    cbn [objs with_shrink_counter] in E |- *. destruct (objs m1 !! id), (objs (shrink_all _ _ _) !! id); try done. cbn in *. by injection E as _ ->. }
  destruct (kShrinkIntervalTicks <=? n); eexists fired, _; (split; [reflexivity|]); cbn [fst snd]; split_and!; try done.
  - by exists L'.
  - apply (maps_ok_bufs m1); [done..|]. intros id. apply (shrink_all_objs malloc_ok fill (with_shrink_counter 0 m1)).
  - intros id Hid. apply Hk1 in Hid. pose proof (shrink_all_objs malloc_ok fill (with_shrink_counter 0 m1) id) as E.
    cbn [objs with_shrink_counter] in E. destruct Hid as [o Ho]. rewrite Ho in E. destruct (objs (shrink_all _ _ _) !! id); [by eexists|done].
  - exists gone. split_and!; done.
  - by exists L'.
  - by apply (maps_ok_bufs m1).
  - intros id Hid. cbn in *. by rewrite Ho1.
  - exists gone. split_and!; done.
Qed.

Lemma tick_session_spec malloc_ok fill s :
  minv s ->
  exists s', tick malloc_ok fill s = Returns s' /\ minv s' /\ same_params s s' /\ current_tick_ s'.2 = u64 (current_tick_ s.2 + 1) /\
    next_id_ s'.1 = next_id_ s.1 /\
    (forall id, id ∈ sessions_ s'.1 <-> id ∈ sessions_ s.1 /\ deadline s id <> Some (current_tick_ s.2)) /\
    (forall id, id ∈ sessions_ s'.1 -> deadline s' id = deadline s id) /\
    (forall id, is_Some (objs s.1 !! id) -> is_Some (objs s'.1 !! id)) /\
    exists gone, remove_calls s'.1 = remove_calls s.1 ++ gone /\ timeout_calls s'.1 = timeout_calls s.1 ++ gone /\ NoDup gone /\
     forall id, id ∈ gone <-> id ∈ sessions_ s.1 /\ id ∉ sessions_ s'.1.
Proof.
  intros Hs. destruct (tick_maps malloc_ok fill s Hs) as (fired & s' & E & Hw' & Hm' & [Ph Pn] & Hct & En & Hf & Hl & Hss & Hot & Hk & Hgone).
  exists s'. assert (Hs' : minv s').
  { destruct Hs. constructor; [done..|by rewrite Ph, Pn|lia]. }
  destruct (mi_wheel _ Hs) as [L Hw].
  assert (Hsess : forall id, id ∈ sessions_ s'.1 <-> id ∈ sessions_ s.1 /\ deadline s id <> Some (current_tick_ s.2)).
  { intros id. rewrite Hss. split; intros [Hid Hd]; (split; [done|]); destruct (session_timer s id Hs Hid) as (o & Ho & Ht & _ & Ed).
    - rewrite Ed. intros [p Hp]%(timer_spec _ _ _ Hw); [|done]. apply (Hd o Ho), Hf. by exists p.
    - intros o' Ho'. rewrite Ho in Ho'. injection Ho' as <-. rewrite Hf. intros Hp. apply Hd. rewrite Ed. by apply (timer_spec _ _ _ Hw). }
  split_and!; try done. intros id Hid. pose proof (proj1 (Hsess id) Hid) as [Hid0 Hne]. apply deadline_same; try done; [by apply Hot|].
  intros o p d Ho. rewrite Hl. split; [by intros [? _]|]. intros Hp. split; [done|]. intros ->. apply Hne.
  destruct (session_timer s id Hs Hid0) as (o' & Ho' & Ht & _ & ->). rewrite Ho in Ho'. injection Ho' as <-. apply (timer_spec _ _ _ Hw); [done|by exists p].
Qed.

(** ** Histories *)

Lemma ticks_left_set s s' id n :
  minv s -> current_tick_ s'.2 = current_tick_ s.2 -> 0 <= n < num_slots_ s.2 -> deadline s' id = Some (compute_deadline n s.2) ->
  ticks_left s' id = Some n.
Proof.
  intros Hs Hc Hn Hd. destruct (mi_wheel _ Hs) as [L Hw]. unfold ticks_left. rewrite Hd. cbn. rewrite Hc. f_equal.
  by apply (compute_deadline_spec _ _ _ Hw).
Qed.

Lemma ticks_left_keeps s s' id :
  current_tick_ s'.2 = current_tick_ s.2 -> id ∈ sessions_ s.1 -> keeps s s' id -> id ∈ sessions_ s'.1 /\ ticks_left s' id = ticks_left s id.
Proof. intros Hc Hid Hk. destruct (Hk Hid) as [? Hd]. split; [done|]. unfold ticks_left. by rewrite Hd, Hc. Qed.

(** What one operation does to a session that it does not name. *)
Definition evolves (o : mgr_op) (s s' : mgr_state) (id : Z) : Prop :=
  if is_tick o
  then if decide (ticks_left s id = Some 0) then id ∉ sessions_ s'.1
       else id ∈ sessions_ s'.1 /\ ticks_left s' id = Z.pred <$> ticks_left s id
  else id ∈ sessions_ s'.1 /\ ticks_left s' id = ticks_left s id.

Lemma tick_evolves malloc_ok fill s s' id :
  minv s -> tick malloc_ok fill s = Returns s' -> id ∈ sessions_ s.1 -> evolves OpTick s s' id.
Proof.
  intros Hs E Hid. destruct (tick_session_spec malloc_ok fill s Hs) as (s1 & E1 & Hs1 & _ & Hct & _ & Hss & Hd & _).
  rewrite E in E1. injection E1 as <-. destruct (mi_wheel _ Hs) as [L Hw]. pose proof (inv_tick _ _ _ Hw) as Hc.
  assert (H0 : ticks_left s id = Some 0 <-> deadline s id = Some (current_tick_ s.2)).
  { unfold ticks_left. destruct (session_timer s id Hs Hid) as (o & Ho & Ht & _ & ->).
    destruct (timer s.2 (timer_entry_id_ o)) as [d|] eqn:Ed; [|done]. cbn. split; [|intros [= ->]; by rewrite Z.sub_diag].
    intros [= Hz]. f_equal. apply (timer_spec _ _ _ Hw) in Ed as [p Hp]; [|done]. apply (inv_win _ _ _ Hw) in Hp as [Hin _].
    unfold in_width in *. assert (u64 d = u64 (current_tick_ s.2)); [|by rewrite !wrap_small in * by done].
    replace d with (d - current_tick_ s.2 + current_tick_ s.2) by lia. rewrite <- wrap_add_l, Hz. done. }
  unfold evolves. cbn [is_tick]. case_decide as Hz; [intros Hn; apply Hss in Hn as [_ Hn]; by apply Hn, H0|].
  assert (Hid' : id ∈ sessions_ s'.1) by (apply Hss; split; [done|by rewrite <- H0]). split; [done|].
  unfold ticks_left in *. rewrite Hd by done. destruct (deadline s id) as [d|]; [|done]. cbn in *. f_equal. rewrite Hct, wrap_sub_r.
  replace (d - (current_tick_ s.2 + 1)) with (d - current_tick_ s.2 - 1) by lia. rewrite <- wrap_sub_l.
  pose proof (wrap_range 64 (d - current_tick_ s.2) ltac:(lia)) as Hr. unfold in_width in Hr. rewrite wrap_small; [lia|].
  unfold in_width. assert (u64 (d - current_tick_ s.2) <> 0) by (intros E0; apply Hz; by rewrite E0). lia.
Qed.

Section Steps.
Context (malloc_ok : Z -> bool) (fill : Z).

(** The common consequences of one operation. *)
Definition step_ok (o : mgr_op) (s s' : mgr_state) : Prop :=
  minv s' /\ hist_ok s' /\ same_params s s' /\ next_id_ s.1 <= next_id_ s'.1 <= next_id_ s.1 + 1 /\
  (forall id, is_Some (objs s.1 !! id) -> is_Some (objs s'.1 !! id)) /\
  (forall id, id ∈ remove_calls s.1 -> id ∈ remove_calls s'.1) /\
  (forall id, id ∈ sessions_ s.1 -> id ∉ sessions_ s'.1 -> id ∈ remove_calls s'.1) /\
  (forall id, id ∈ sessions_ s.1 -> leaves id o -> evolves o s s' id).

Lemma create_step b s : minv s -> hist_ok s -> next_id_ s.1 < 2 ^ 64 - 1 -> step_ok (OpCreate b) s (create_session malloc_ok fill b s).2.
Proof.
  intros Hs [H1 H2 H3] Hn. pose proof (create_session_spec malloc_ok fill b s Hs Hn) as Hc.
  destruct (create_session malloc_ok fill b s) as [r s']. destruct Hc as (Hs' & [Ph Pn] & Hct & En & Hk & Hr & Hd & Hres). cbn [snd].
  assert (Hss : forall id, id ∈ sessions_ s'.1 -> id ∈ sessions_ s.1 \/ (id = next_id_ s.1 /\ (0 < heartbeat_timeout_ticks_ s.1 -> ticks_left s' id = Some (heartbeat_timeout_ticks_ s.1)))).
  { intros id Hid. destruct r as [i|x]; [|rewrite Hres in Hid; by left]. destruct Hres as (-> & Es & _ & Hdl). rewrite Es in Hid.
    apply elem_of_union in Hid as [->%elem_of_singleton|?]; [right|by left]. split; [done|]. intros Hp.
    apply (ticks_left_set s s'); [done|done|apply Hs|auto]. }
  split_and!; try done; try lia.
  - split; rewrite ?Hr, ?En, ?Ph; [done|..].
    + intros id Hid. destruct (H2 id Hid) as [? Hns]. split; [lia|]. intros [?|[-> _]]%Hss; [done|lia].
    + intros id Hp [Hid|[-> Hl]]%Hss; [|rewrite Hl by done; eexists; split; [done|lia]].
      destruct (ticks_left_keeps s s' id Hct Hid (Hk id)) as [_ ->]. by apply H3.
  - by rewrite Hr.
  - intros id Hid Hn'. by destruct (Hk id Hid).
  - intros id Hid _. cbn. by apply ticks_left_keeps.
Qed.

Lemma remove_step id s s' : minv s -> hist_ok s -> remove_session id s = Returns s' -> step_ok (OpRemove id) s s'.
Proof.
  intros Hs [H1 H2 H3] E. destruct (remove_session_spec id s Hs) as (s1 & E1 & Hs' & [Ph Pn] & Hct & En & Hk & Es & Hd & Hr).
  rewrite E in E1. injection E1 as <-.
  assert (Hss : forall j, j ∈ sessions_ s'.1 -> j ∈ sessions_ s.1 /\ j <> id) by (intros j; rewrite Es; set_solver).
  split_and!; try done; try lia.
  - split; rewrite ?Hr, ?En, ?Ph.
    + case_decide as Hid; [|by rewrite app_nil_r]. apply NoDup_app. split_and!; [done| |apply NoDup_singleton].
      intros j Hj ->%list_elem_of_singleton. by apply H2 in Hj as [_ ?].
    + intros j [Hj|Hj]%elem_of_app.
      * destruct (H2 j Hj) as [? Hn]. split; [done|]. by intros [? _]%Hss.
      * case_decide as Hid; [|by apply not_elem_of_nil in Hj]. apply list_elem_of_singleton in Hj as ->.
        apply (mo_objs _ _ _ (mi_maps _ Hs)) in Hid as [? _]. split; [done|]. by intros [_ ?]%Hss.
    + intros j Hp [Hj Hne]%Hss. destruct (ticks_left_keeps s s' j Hct Hj (Hk j Hne)) as [_ ->]. by apply H3.
  - intros j Hj. rewrite Hr. apply elem_of_app. by left.
  - intros j Hj Hn. rewrite Es in Hn. apply not_elem_of_difference in Hn as [? | ->%elem_of_singleton]; [done|]. rewrite Hr, decide_True by done. apply elem_of_app. right. apply list_elem_of_here.
  - intros j Hj Hne. cbn in *. apply ticks_left_keeps; [done..|]. apply Hk. congruence.
Qed.

Lemma touch_step id s s' : minv s -> hist_ok s -> touch_session id s = Returns s' -> step_ok (OpTouch id) s s'.
Proof.
  intros Hs [H1 H2 H3] E. destruct (touch_session_spec id s Hs) as (s1 & E1 & Hs' & [Ph Pn] & Hct & Em & Hk & Hd).
  rewrite E in E1. injection E1 as <-. split_and!; rewrite ?Em; try done; try lia.
  - split; rewrite ?Em; [done..|]. intros j Hp Hj. destruct (decide (j = id)) as [->|Hne].
    + exists (heartbeat_timeout_ticks_ s.1). split; [|lia]. apply (ticks_left_set s s'); [done|done|apply Hs|auto].
    + destruct (ticks_left_keeps s s' j Hct Hj (Hk j Hne)) as [_ ->]. by apply H3.
  - intros j Hj Hne. cbn in *. apply ticks_left_keeps; [done..|]. apply Hk. congruence.
Qed.

Lemma tick_step s s' : minv s -> hist_ok s -> tick malloc_ok fill s = Returns s' -> step_ok OpTick s s'.
Proof.
  intros Hs [H1 H2 H3] E.
  destruct (tick_session_spec malloc_ok fill s Hs) as (s1 & E1 & Hs' & [Ph Pn] & Hct & En & Hss & Hdl & Hd & gone & Hr & _ & Hgn & Hg).
  rewrite E in E1. injection E1 as <-. split_and!; try done; try lia.
  - split; rewrite ?Hr, ?En, ?Ph.
    + apply NoDup_app. split_and!; [done| |done]. intros j Hj [Hj' _]%Hg. by apply H2 in Hj as [_ ?].
    + intros j [Hj|[Hj Hn]%Hg]%elem_of_app; [|by apply (mo_objs _ _ _ (mi_maps _ Hs)) in Hj as [? _]].
      destruct (H2 j Hj) as [? Hn]. split; [done|]. by intros [? _]%Hss.
    + intros j Hp Hj. pose proof (proj1 (Hss j) Hj) as [Hj0 _]. pose proof (tick_evolves _ _ s s' j Hs E Hj0) as Hev. unfold evolves in Hev. cbn in Hev.
      destruct (H3 j Hp Hj0) as (k & Hk & Hr'). case_decide as Hz; [done|]. destruct Hev as [_ ->]. rewrite Hk. exists (Z.pred k). split; [done|].
      assert (k <> 0) by congruence. lia.
  - intros j Hj. rewrite Hr. apply elem_of_app. by left.
  - intros j Hj Hn. rewrite Hr. apply elem_of_app. right. by apply Hg.
  - intros j Hj _. by eapply tick_evolves.
Qed.

Lemma run_op_spec o s :
  minv s -> hist_ok s -> next_id_ s.1 < 2 ^ 64 - 1 -> exists s', run_op malloc_ok fill o s = Returns s' /\ step_ok o s s'.
Proof.
  intros Hs Hh Hn. destruct o as [b|id|id|]; cbn [run_op].
  - eexists. split; [done|]. by apply create_step.
  - destruct (remove_session_spec id s Hs) as (s' & E & _). rewrite E. eexists. split; [done|]. by apply remove_step.
  - destruct (touch_session_spec id s Hs) as (s' & E & _). rewrite E. eexists. split; [done|]. by apply touch_step.
  - destruct (tick_session_spec malloc_ok fill s Hs) as (s' & E & _). rewrite E. eexists. split; [done|]. by apply tick_step.
Qed.

End Steps.

Lemma make_ok hb slots cap depth s :
  in_width 64 slots -> 0 <= hb < num_slots_ s.2 -> make hb slots cap depth = Returns s ->
  minv s /\ hist_ok s /\ next_id_ s.1 = 1 /\ heartbeat_timeout_ticks_ s.1 = hb.
Proof.
  intros Hw Hb. unfold make. destruct (TimingWheel.make slots) as [w|] eqn:E; [|done]. cbn [outcome_bind]. intros [= <-]. cbn [snd] in Hb.
  destruct (wheel_make_inv slots w Hw E) as [Hi Hns].
  assert (Hno : forall t, ~ wheel_ids w t).
  { intros t (p & d & _ & He & _). apply (inv_ent _ _ _ Hi) in He as [d' He].
    pose proof (inv_mem _ _ _ Hi (d' mod num_slots_ w) p (slot_range _ _ _ Hi d')) as Hm. cbv beta in Hm.
    apply (not_elem_of_nil p), Hm. by eexists _, d'. }
  split_and!; try done.
  - constructor; cbn; [by exists (fun _ => [])| |lia|lia]. constructor; cbn; try done.
    + intros t id. split; [done|]. by intros [? _].
    + intros t. split; [by intros [? ?]|]. intros [?|?%not_elem_of_nil]; [by destruct (Hno t)|done].
  - constructor; cbn; try done; [constructor|]. by intros ? ?%not_elem_of_nil.
Qed.

Lemma run_ops_spec malloc_ok fill os s :
  minv s -> hist_ok s -> next_id_ s.1 + len os < 2 ^ 64 ->
  exists s', run_ops malloc_ok fill os s = Returns s' /\ minv s' /\ hist_ok s' /\ same_params s s' /\
    next_id_ s'.1 <= next_id_ s.1 + len os /\
    (forall id, is_Some (objs s.1 !! id) -> is_Some (objs s'.1 !! id)) /\
    (forall id, id ∈ sessions_ s.1 \/ id ∈ remove_calls s.1 -> id ∈ sessions_ s'.1 \/ id ∈ remove_calls s'.1).
Proof.
  revert s. induction os as [|o os IH]; intros s Hs Hh Hn; cbn [run_ops].
  { exists s. rewrite len_nil. split_and!; try done. lia. }
  rewrite len_cons in Hn |- *. pose proof (len_nonneg os).
  destruct (run_op_spec malloc_ok fill o s Hs Hh) as (s1 & -> & Hs1 & Hh1 & [Ph Pn] & Hn1 & Hd1 & Hr1 & Hg1 & _); [lia|]. cbn [outcome_bind].
  destruct (IH s1 Hs1 Hh1) as (s' & -> & Hs' & Hh' & [Ph' Pn'] & Hn' & Hd' & Hg'); [lia|].
  exists s'. split_and!; try done; try lia; [split; congruence|by intros; apply Hd', Hd1|].
  intros id [Hid|Hid]; apply Hg'; [|right; by apply Hr1]. destruct (decide (id ∈ sessions_ s1.1)); [by left|right; by apply Hg1].
Qed.

(** A session reported as removed never comes back. *)
Lemma gone_stays malloc_ok fill os s s' id :
  minv s -> hist_ok s -> next_id_ s.1 + len os < 2 ^ 64 -> id ∈ remove_calls s.1 ->
  run_ops malloc_ok fill os s = Returns s' -> id ∉ sessions_ s'.1.
Proof.
  revert s. induction os as [|o os IH]; intros s Hs Hh Hn Hid; cbn [run_ops]; [intros [= <-]; by apply (ho_gone _ Hh)|].
  rewrite len_cons in Hn. pose proof (len_nonneg os).
  destruct (run_op_spec malloc_ok fill o s Hs Hh) as (s1 & -> & Hs1 & Hh1 & _ & Hn1 & _ & Hr1 & _); [lia|]. cbn [outcome_bind].
  apply IH; [done..|lia|by apply Hr1].
Qed.

(** A session left alone counts down with the ticks. *)
Lemma countdown malloc_ok fill os s s' id k :
  minv s -> hist_ok s -> next_id_ s.1 + len os < 2 ^ 64 -> id ∈ sessions_ s.1 -> ticks_left s id = Some k -> 0 <= k ->
  Forall (leaves id) os -> run_ops malloc_ok fill os s = Returns s' ->
  if ticks os <=? k then id ∈ sessions_ s'.1 /\ ticks_left s' id = Some (k - ticks os) else id ∉ sessions_ s'.1.
Proof.
  intros Hs Hh Hn Hid Hk Hk0 Hl. revert s k Hs Hh Hn Hid Hk Hk0. induction Hl as [|o os Ho _ IH]; intros s k Hs Hh Hn Hid Hk Hk0; cbn [run_ops].
  { intros [= <-]. change (ticks []) with 0. rewrite Z.sub_0_r. destruct (Z.leb_spec 0 k); [done|lia]. }
  rewrite len_cons in Hn. pose proof (len_nonneg os).
  destruct (run_op_spec malloc_ok fill o s Hs Hh) as (s1 & -> & Hs1 & Hh1 & [Ph Pn] & Hn1 & Hd1 & Hr1 & Hg1 & Hev); [lia|]. cbn [outcome_bind].
  intros E. specialize (Hev id Hid Ho). unfold evolves in Hev.
  assert (Ht : ticks (o :: os) = ticks os + if is_tick o then 1 else 0).
  { unfold ticks. rewrite filter_cons. destruct (is_tick o); [rewrite decide_True, len_cons by done|rewrite decide_False by done]; lia. }
  assert (0 <= ticks os) by apply len_nonneg.
  rewrite Ht. destruct (is_tick o).
  - rewrite Hk in Hev. case_decide as Hz.
    + injection Hz as ->. destruct (Z.leb_spec (ticks os + 1) 0); [lia|]. apply (gone_stays malloc_ok fill os s1 s' id); try done; lia || auto.
    + destruct Hev as [Hid1 Hk1]. cbn in Hk1. assert (k <> 0) by congruence.
      specialize (IH s1 (Z.pred k) Hs1 Hh1 ltac:(lia) Hid1 Hk1 ltac:(lia) E).
      destruct (Z.leb_spec (ticks os) (Z.pred k)), (Z.leb_spec (ticks os + 1) k); try lia; [|done]. by replace (k - (ticks os + 1)) with (Z.pred k - ticks os) by lia.
  - rewrite Z.add_0_r. destruct Hev as [Hid1 Hk1]. rewrite Hk in Hk1. apply (IH s1 k); try done; lia.
Qed.

(** Under every sequence of creations, removals, touches and ticks the manager
    returns (no dangling timer, no out-of-range slot); the sessions in its map are
    backed by objects and, when heartbeats are on, each has between 0 and
    [heartbeat_timeout_ticks] ticks left; a timer is pending in the wheel exactly
    when a registered session holds its id; sessions no longer registered are
    closed and hold no timer; the remove callback ran at most once per session. *)
Theorem session_manager_safe malloc_ok fill hb slots cap depth s0 os
    (Hslots : in_width 64 slots) (Hmake : make hb slots cap depth = Returns s0) (Hhb : 0 <= hb < num_slots_ s0.2)
    (Hlen : len os < 2 ^ 64 - 1) :
  exists s, run_ops malloc_ok fill os s0 = Returns s /\
    (forall id, id ∈ sessions_ s.1 -> exists o, find_session id s = Some o /\
       (0 < hb -> exists k, ticks_left s id = Some k /\ 0 <= k <= hb)) /\
    (forall t, 0 < t -> is_Some (timer s.2 t) <-> exists id o, find_session id s = Some o /\ timer_entry_id_ o = t) /\
    (forall id o, objs s.1 !! id = Some o -> id ∉ sessions_ s.1 -> timer_entry_id_ o = 0 /\ Session.is_open (so_session o) = false) /\
    NoDup (remove_calls s.1) /\ (forall id, id ∈ remove_calls s.1 -> id ∉ sessions_ s.1).
Proof.
  destruct (make_ok hb slots cap depth s0) as (Hs0 & Hh0 & Hn0 & Hb0); [done..|].
  destruct (run_ops_spec malloc_ok fill os s0 Hs0 Hh0) as (s & E & Hs & Hh & [Ph _] & _); [rewrite Hn0; lia|].
  exists s. rewrite Hb0 in Ph. split; [done|]. split.
  { intros id Hid. destruct (session_timer s id Hs Hid) as (o & _ & _ & Hf & _). exists o. split; [done|]. rewrite <- Ph. intros Hp. by apply (ho_due _ Hh). }
  split; [|split; [apply (mo_gone _ _ _ (mi_maps _ Hs))|split; [apply Hh|intros id Hid; by apply (ho_gone _ Hh)]]].
  intros t Ht. destruct (mi_wheel _ Hs) as [L Hw]. pose proof (mo_live _ _ _ (mi_maps _ Hs) t) as Hl. split.
  - intros [d Hd]. apply (timer_spec _ _ _ Hw) in Hd as [p Hp]; [|lia]. destruct (proj2 Hl ltac:(left; by eexists _, _)) as [id Hid].
    apply (mo_timer _ _ _ (mi_maps _ Hs)) in Hid as (Hid & _ & o & Ho & Hto). exists id, o. split; [|done]. unfold find_session. by rewrite decide_True.
  - intros (id & o & Hf & Hto). unfold find_session in Hf. case_decide as Hid; [|done].
    assert (Hi : is_Some (timer_to_session_ s.1 !! t)) by (exists id; apply (mo_timer _ _ _ (mi_maps _ Hs)); split_and!; [done|lia|by exists o]).
    apply Hl in Hi as [(p & d & Hp)|?%not_elem_of_nil]; [|done]. exists d. apply (timer_spec _ _ _ Hw); [lia|by exists p].
Qed.

Lemma session_manager_safe_witness :
  exists s0 s, make 2 8 64 4 = Returns s0 /\
    run_ops (fun _ => true) 0 [OpCreate true; OpTick; OpCreate false; OpTick; OpTouch 2; OpTick; OpRemove 2; OpTick] s0 = Returns s /\
    NoDup (remove_calls s.1) /\ remove_calls s.1 = [1; 2].
Proof.
  destruct (make 2 8 64 4) as [s0|x] eqn:E; [|exfalso; vm_compute in E; discriminate].
  destruct (session_manager_safe (fun _ => true) 0 2 8 64 4 s0 [OpCreate true; OpTick; OpCreate false; OpTick; OpTouch 2; OpTick; OpRemove 2; OpTick])
    as (s & Hr & _ & _ & _ & Hnd & _).
  - vm_compute. split; congruence.
  - done.
  - vm_compute in E. injection E as <-. vm_compute. split; congruence.
  - vm_compute. reflexivity.
  - exists s0, s. split; [done|]. split; [done|]. split; [done|].
    vm_compute in E. injection E as <-. vm_compute in Hr. injection Hr as <-. reflexivity.
Defined.

(** C6: Heartbeat expiry is exact. In any reachable manager with heartbeats on, a
    session that is touched and then neither touched nor removed stays registered
    through the next [heartbeat_timeout_ticks] ticks whatever else happens, and is
    evicted by the tick after those: closed, its timer released, and reported to
    the remove callback exactly once. *)
Theorem idle_session_evicted malloc_ok fill hb slots cap depth s0 pre s id s1 post s2
    (Hslots : in_width 64 slots) (Hmake : make hb slots cap depth = Returns s0) (Hhb : 0 < hb < num_slots_ s0.2)
    (Hpre : run_ops malloc_ok fill pre s0 = Returns s) (Hid : id ∈ sessions_ s.1)
    (Htouch : touch_session id s = Returns s1) (Halone : Forall (leaves id) post)
    (Hpost : run_ops malloc_ok fill post s1 = Returns s2) (Hlen : len pre + len post < 2 ^ 64 - 1) :
  (id ∈ sessions_ s2.1 <-> ticks post <= hb) /\
  (hb < ticks post -> (exists o, objs s2.1 !! id = Some o /\ Session.is_open (so_session o) = false /\ timer_entry_id_ o = 0) /\
     NoDup (remove_calls s2.1) /\ id ∈ remove_calls s2.1).
Proof.
  destruct (make_ok hb slots cap depth s0) as (Hs0 & Hh0 & Hn0 & Hb0); [done|lia|done|]. pose proof (len_nonneg pre). pose proof (len_nonneg post).
  destruct (run_ops_spec malloc_ok fill pre s0 Hs0 Hh0) as (s' & E & Hs & Hh & [Ph _] & Hn & _); [lia|]. rewrite Hpre in E. injection E as <-.
  destruct (touch_session_spec id s Hs) as (s' & E & _ & _ & Hct & Em & _ & Hd). rewrite Htouch in E. injection E as <-.
  destruct (touch_step id s s1 Hs Hh Htouch) as (Hs1 & Hh1 & [Ph1 _] & _). rewrite Hb0 in Ph.
  assert (Hid1 : id ∈ sessions_ s1.1) by (by rewrite Em).
  assert (Hk : ticks_left s1 id = Some hb).
  { rewrite Ph in Hd. apply (ticks_left_set s s1); [done|done| |auto with lia]. rewrite <- Ph. apply Hs. }
  assert (Hn1 : next_id_ s1.1 + len post < 2 ^ 64) by (rewrite Em; lia).
  pose proof (countdown malloc_ok fill post s1 s2 id hb Hs1 Hh1 Hn1 Hid1 Hk ltac:(lia) Halone Hpost) as Hc.
  destruct (run_ops_spec malloc_ok fill post s1 Hs1 Hh1 Hn1) as (s' & E & Hs2 & Hh2 & _ & _ & Hdom & Hg). rewrite Hpost in E. injection E as <-.
  destruct (Z.leb_spec (ticks post) hb); [split; [tauto|lia]|]. split; [split; [done|lia]|]. intros _.
  destruct (Hdom id) as [o Ho]; [apply (mo_objs _ _ _ (mi_maps _ Hs1)) in Hid1 as [_ ?]; destruct_and?; naive_solver|].
  split_and!; [|apply Hh2|by destruct (Hg id ltac:(by left))]. exists o. split; [done|]. by apply and_comm, (mo_gone _ _ _ (mi_maps _ Hs2) id).
Qed.

Lemma idle_session_evicted_witness :
  exists s0 s s1 s2, make 2 8 64 4 = Returns s0 /\ run_ops (fun _ => true) 0 [OpCreate true; OpTick; OpTick] s0 = Returns s /\
    touch_session 1 s = Returns s1 /\ run_ops (fun _ => true) 0 [OpTick; OpCreate true; OpTick; OpTouch 2; OpTick] s1 = Returns s2 /\
    (1 ∉ sessions_ s2.1) /\ (1 ∈ remove_calls s2.1).
Proof.
  destruct (make 2 8 64 4) as [s0|x] eqn:E0; [|exfalso; vm_compute in E0; discriminate].
  destruct (run_ops (fun _ => true) 0 [OpCreate true; OpTick; OpTick] s0) as [s|x] eqn:E1;
    [|exfalso; vm_compute in E0; injection E0 as <-; vm_compute in E1; discriminate].
  destruct (touch_session 1 s) as [s1|x] eqn:E2;
    [|exfalso; vm_compute in E0; injection E0 as <-; vm_compute in E1; injection E1 as <-; vm_compute in E2; discriminate].
  destruct (run_ops (fun _ => true) 0 [OpTick; OpCreate true; OpTick; OpTouch 2; OpTick] s1) as [s2|x] eqn:E3;
    [|exfalso; vm_compute in E0; injection E0 as <-; vm_compute in E1; injection E1 as <-; vm_compute in E2; injection E2 as <-; vm_compute in E3; discriminate].
  exists s0, s, s1, s2. split; [done|]. split; [done|]. split; [done|]. split; [done|].
  destruct (idle_session_evicted (fun _ => true) 0 2 8 64 4 s0 [OpCreate true; OpTick; OpTick] s 1 s1 [OpTick; OpCreate true; OpTick; OpTouch 2; OpTick] s2) as [Hin Hout]; try done.
  - vm_compute in E0. injection E0 as <-. vm_compute. split; congruence.
  - vm_compute in E0. injection E0 as <-. vm_compute in E1. injection E1 as <-. vm_compute. reflexivity.
  - repeat constructor. done.
  - change (ticks [OpTick; OpCreate true; OpTick; OpTouch 2; OpTick]) with 3 in Hin, Hout. split; [rewrite Hin; lia|apply Hout; lia].
Defined.
