(* ===== verification/Server.v ===== *)
(** * The server

    [apex::core::Server] (apex_core/src/server.cpp): its construction, with the
    assignment of worker threads to processors, and its life from [run] to the
    destructor.

    The life is a state machine. [run] makes one call after the other and then blocks on
    the control loop; [stop] may be called by any thread at any time; the control loop
    runs the handlers of the shutdown. The adapters, services, listeners and the engine
    are seen through the calls made to them, which are recorded in order in [calls]; a
    call that throws is an argument. [finalize_shutdown] is cut at each of its calls, which
    take the time they take, and its polling loop at each look at the counters, so that
    coroutines end in between or not. *)

From stdpp Require Import sorting.
From S2P Require Import Prelude ErrorCode MathUtils TimingWheel SessionManager CpuTopology.
Import Topology.

Module Server.

(** ** Construction *)

Record ServerConfig : Type := mkConfig {
  num_cores : Z;
  heartbeat_timeout_ticks : Z;
  timer_wheel_slots : Z;
  recv_buf_capacity : Z;
  session_max_queue_depth : Z;
  affinity_enabled : bool;
  worker_cores : list Z;
}.

Record CoreAssignment : Type := mkAssignment { logical_core_id : Z; assigned_node : Z }.

(** The check at the start of the constructor. *)
Definition check_heartbeat (config : ServerConfig) : outcome unit :=
  if 0 <? heartbeat_timeout_ticks config then
    let actual_slots := next_power_of_2 (if timer_wheel_slots config <? 1 then 1 else timer_wheel_slots config) in
    if actual_slots <=? heartbeat_timeout_ticks config then Throws invalid_argument else Returns tt
  else Returns tt.

(** The node of the core that has the thread. *)
Definition find_numa (logical_id : Z) (cores : list PhysicalCore) : Z :=
  match filter (λ pc, logical_id ∈ logical_ids pc) cores with pc :: _ => numa_node pc | [] => 0 end.

Definition rank (t : CoreType) : Z := match t with Performance => 0 | Unknown => 1 | Efficiency => 2 end.

(** The comparison given to [std::stable_sort]. *)
Definition before (a b : PhysicalCore) : bool :=
  if negb (rank (type a) =? rank (type b)) then rank (type a) <? rank (type b) else numa_node a <? numa_node b.
Fixpoint stable_insert (x : PhysicalCore) (l : list PhysicalCore) : list PhysicalCore :=
  match l with y :: l' => if before y x then y :: stable_insert x l' else x :: l | [] => [x] end.
Definition stable_sort (l : list PhysicalCore) : list PhysicalCore := foldr stable_insert [] l.

(** The workers' processors and their number. *)
Definition assign (t : CpuTopology) (config : ServerConfig) : list CoreAssignment * Z :=
  if negb (affinity_enabled config) then ([], num_cores config)
  else
    match worker_cores config with
    | _ :: _ =>
        let l := (λ id, mkAssignment id (find_numa id (physical_cores t))) <$> worker_cores config in (l, u32 (len l))
    | [] =>
        let sorted := stable_sort (physical_cores t) in
        let worker_count := if num_cores config =? 0 then physical_core_count t else num_cores config in
        let worker_count := Z.min worker_count (u32 (len sorted)) in
        ((λ pc, mkAssignment (primary_logical_id pc) (numa_node pc)) <$> takeZ worker_count sorted, worker_count)
    end.

(** [CoreEngine::CoreEngine]. *)
Definition engine_cores (hw num_cores : Z) : Z := if num_cores =? 0 then if 0 <? hw then hw else 1 else num_cores.

Record built : Type := mkBuilt { assignments : list CoreAssignment; core_count : Z; managers : list mgr_state }.

Definition make_server (sys : Sysfs) (t : CpuTopology) (config : ServerConfig) : outcome built :=
  run _ <- check_heartbeat config;
  let '(core_assignments, n) := assign t config in
  let n := engine_cores (hardware_concurrency sys) n in
  run m <- SessionManager.make (heartbeat_timeout_ticks config) (timer_wheel_slots config) (recv_buf_capacity config) (session_max_queue_depth config);
  Returns (mkBuilt core_assignments n (replicate (Z.to_nat n) m)).

(** ** The calls of a life *)

Inductive call : Type :=
| AdapterInit (a : nat) | AdapterMetrics (a : nat) | MakeScheduler (c : nat) | CreateService (c f : nat) | RegisterRef (c f : nat)
| Configure (c f : nat) | Wire (c f : nat) | Start (c f : nat) | SyncHandlers (l c : nat) | WireServices (a : nat) | SetRemoveCallback (c : nat)
| PostInit | SetTickCallback | EngineStart | InjectLimiters (l : nat) | ListenerStart (l : nat) | CoreMetrics (c : nat) | Freeze | HttpStart
| ListenerDrain (l : nat) | CloseSessions (c : nat)
| HttpStop | ListenerStop (l : nat) | AdapterDrain (a : nat) | SchedulerStop (c : nat) | ServiceStop (c f : nat) | AdapterClose (a : nat)
| EngineStop | EngineJoin | EngineDrainRemaining | ExecutorShutdown | ClearGlobals | ControlStop.
#[global] Instance call_eq_dec : EqDecision call.
Proof. solve_decision. Defined.

Section Calls.
(** The numbers of cores, service factories, adapters and listeners. *)
Context (cores factories adapters listeners : nat) (limit_per_ip : bool).

Abbreviation each n f := (f <$> seq 0 n).
Abbreviation each_service f := (seq 0 cores ≫= λ c, f c <$> seq 0 factories).

(** [run] up to the control loop: adapters and services, then the engine and the
    listeners. *)
Definition start_services : list call :=
  each adapters AdapterInit ++ each adapters AdapterMetrics ++ each cores MakeScheduler ++
  (seq 0 cores ≫= λ c, (CreateService c <$> seq 0 factories) ++ (RegisterRef c <$> seq 0 factories)) ++
  each_service Configure ++ each_service Wire ++ each_service Start ++
  (seq 0 cores ≫= λ c, (λ l, SyncHandlers l c) <$> seq 1 (listeners - 1)) ++
  each adapters WireServices.
Definition start_network : list call :=
  each cores SetRemoveCallback ++ [PostInit; SetTickCallback; EngineStart] ++
  (if limit_per_ip then each listeners InjectLimiters else []) ++ each listeners ListenerStart ++ each cores CoreMetrics ++ [Freeze; HttpStart].
Definition startup : list call := start_services ++ start_network.

(** [finalize_shutdown] before and after the loop over the coroutines; of the schedulers
    and services, those that [run] had made. *)
Definition finalize_first (made : list call) : list call :=
  [HttpStop] ++ each listeners ListenerStop ++ each adapters AdapterDrain ++
  (SchedulerStop <$> filter (λ c, MakeScheduler c ∈ made) (seq 0 cores)) ++
  ((λ cf, ServiceStop cf.1 cf.2) <$> filter (λ cf, CreateService cf.1 cf.2 ∈ made) (seq 0 cores ≫= λ c, pair c <$> seq 0 factories)).
Definition finalize_last : list call :=
  each adapters AdapterClose ++ [EngineStop; EngineJoin; EngineDrainRemaining; ExecutorShutdown; ClearGlobals; ControlStop].

(** ** The state *)

(** Where the main thread is. *)
Inductive phase : Type :=
| Fresh
| Starting (todo : list call)
| Looping (** in [control_io_.run()] *)
| Stopping (todo : list call) (** [finalize_shutdown] up to the wait for the coroutines *)
| Finalizing (coro_deadline wake : Z) (** waiting for them, asleep until [wake] *)
| Closing (todo : list call) (** the rest of it *)
| Finalized
| Returned
| Failed
| Destroyed.

(** The handlers of the control loop. *)
Inductive control_handler : Type := BeginShutdown | PollShutdown.

Record Server : Type := mkServer {
  calls : list call;
  main : phase;
  run_count_ : Z;
  running_ : bool;
  stopping_ : bool;
  control_io_ : list control_handler;
  shutdown_timer_ : option Z; (** the expiry, while a wait is pending *)
  shutdown_deadline_ : Z;
  clock : Z;
}.

Definition fresh_server : Server := mkServer [] Fresh 0 false false [] None 0 0.

Definition log (cs : list call) (s : Server) : Server :=
  mkServer (calls s ++ cs) (main s) (run_count_ s) (running_ s) (stopping_ s) (control_io_ s) (shutdown_timer_ s) (shutdown_deadline_ s) (clock s).
Definition goto (p : phase) (s : Server) : Server :=
  mkServer (calls s) p (run_count_ s) (running_ s) (stopping_ s) (control_io_ s) (shutdown_timer_ s) (shutdown_deadline_ s) (clock s).
Definition set_running (b : bool) (s : Server) : Server :=
  mkServer (calls s) (main s) (run_count_ s) b (stopping_ s) (control_io_ s) (shutdown_timer_ s) (shutdown_deadline_ s) (clock s).
Definition with_control (q : list control_handler) (s : Server) : Server :=
  mkServer (calls s) (main s) (run_count_ s) (running_ s) (stopping_ s) q (shutdown_timer_ s) (shutdown_deadline_ s) (clock s).
Definition with_timer (t : option Z) (s : Server) : Server :=
  mkServer (calls s) (main s) (run_count_ s) (running_ s) (stopping_ s) (control_io_ s) t (shutdown_deadline_ s) (clock s).
Definition advance (d : Z) (s : Server) : Server :=
  mkServer (calls s) (main s) (run_count_ s) (running_ s) (stopping_ s) (control_io_ s) (shutdown_timer_ s) (shutdown_deadline_ s) (clock s + Z.max 0 d).

Definition has_started (l : nat) (s : Server) : bool := bool_decide (ListenerStart l ∈ calls s).

(** ** Operations *)

Context (drain_timeout : Z).

(** [run] up to its first call. *)
Definition enter_run (s : Server) : outcome unit * Server :=
  let s' := mkServer (calls s) (main s) (u32 (run_count_ s + 1)) (running_ s) (stopping_ s) (control_io_ s) (shutdown_timer_ s) (shutdown_deadline_ s) (clock s) in
  if negb (run_count_ s =? 0) then (Throws logic_error, s')
  else (Returns tt, mkServer (calls s') (Starting startup) (run_count_ s') (running_ s') false (control_io_ s') (shutdown_timer_ s') (shutdown_deadline_ s') (clock s')).

(** The next call of [run]; after the last, the server is running. *)
Definition run_step (throws : bool) (s : Server) : option Server :=
  match main s with
  | Starting (c :: todo) => Some (if throws then goto Failed s else goto (Starting todo) (log [c] s))
  | Starting [] => Some (goto Looping (set_running true s))
  | _ => None
  end.

Definition stop (s : Server) : Server :=
  if stopping_ s then s
  else
    let s := log (ListenerDrain <$> filter (λ l, has_started l s = true) (seq 0 listeners)) s in
    mkServer (calls s) (main s) (run_count_ s) (running_ s) true (control_io_ s ++ [BeginShutdown]) (shutdown_timer_ s) (shutdown_deadline_ s) (clock s).

Definition finalize_begin (s : Server) : Server := goto (Stopping (finalize_first (calls s))) (with_timer None s).

(** [total_active_sessions] is an argument. *)
Definition poll_shutdown (sessions : Z) (s : Server) : Server :=
  if sessions =? 0 then finalize_begin s
  else if shutdown_deadline_ s <=? clock s then finalize_begin s
  else with_timer (Some (clock s + 10 ^ 6)) s.

(** A new timer replaces the one there was, whose wait is aborted. *)
Definition begin_shutdown (sessions : Z) (s : Server) : Server :=
  let s := mkServer (calls s) (main s) (run_count_ s) (running_ s) (stopping_ s) (control_io_ s) (shutdown_timer_ s) (clock s + drain_timeout) (clock s) in
  poll_shutdown sessions (with_timer None (log (CloseSessions <$> seq 0 cores) s)).

Definition run_handler (sessions : Z) (h : control_handler) (s : Server) : Server :=
  match h with BeginShutdown => begin_shutdown sessions s | PollShutdown => poll_shutdown sessions s end.

(** The next call of [finalize_shutdown]; after the last before the loop over the
    coroutines, the deadline of that loop. *)
Definition finalize_step (s : Server) : option Server :=
  match main s with
  | Stopping (c :: todo) => Some (goto (Stopping todo) (log [c] s))
  | Stopping [] => Some (goto (Finalizing (clock s + drain_timeout) (clock s)) s)
  | Closing (c :: todo) => Some (goto (Closing todo) (log [c] s))
  | Closing [] => Some (goto Finalized s)
  | _ => None
  end.

(** A turn of the loop over the coroutines, which sleeps for ten milliseconds. *)
Definition finalize_turn (outstanding : Z) (s : Server) : option Server :=
  match main s with
  | Finalizing d wake =>
      if wake <=? clock s then
        Some (if (clock s <? d) && negb (outstanding =? 0) then goto (Finalizing d (clock s + 10 ^ 7)) s else goto (Closing finalize_last) s)
      else None
  | _ => None
  end.

(** The destructor. [poll] of the control loop runs what is queued; a shutdown begun
    there goes through at once. *)
Fixpoint poll_control (sessions : Z) (q : list control_handler) (s : Server) : Server :=
  match q with
  | [] => s
  | h :: q =>
      let s := run_handler sessions h s in
      match main s with Stopping todo => log (todo ++ finalize_last) s | _ => poll_control sessions q s end
  end.

Definition still_started (s : Server) : list (nat * nat) :=
  filter (λ cf, Start cf.1 cf.2 ∈ calls s /\ ServiceStop cf.1 cf.2 ∉ calls s) (seq 0 cores ≫= λ c, pair c <$> seq 0 factories).

(** [restart] and [poll] of a loop whose thread still runs it are undefined. *)
Definition destroy (sessions : Z) (s : Server) : outcome Server :=
  let s := log ((λ cf, ServiceStop cf.1 cf.2) <$> still_started s) s in
  if bool_decide (EngineStart ∈ calls s) && negb (bool_decide (EngineJoin ∈ calls s)) then Throws undefined_behaviour
  else Returns (goto Destroyed (poll_control sessions (control_io_ s) (with_control [] s))).

(** ** Schedules *)

Inductive event : Type :=
| Run
| RunStep (throws : bool)
| Stop
| TimerExpire
| Control (sessions : Z)
| FinalizeStep
| FinalizeTurn (outstanding : Z)
| RunReturn
| Destroy (sessions : Z)
| Tick (d : Z).
#[global] Instance event_eq_dec : EqDecision event.
Proof. solve_decision. Defined.

Definition exec (e : event) (s : Server) : option (outcome Server) :=
  match e with
  | Run => match main s with Destroyed => None | _ => Some (Returns (enter_run s).2) end
  | RunStep throws => Returns <$> run_step throws s
  | Stop => match main s with Destroyed => None | _ => Some (Returns (stop s)) end
  | TimerExpire =>
      match shutdown_timer_ s with
      | Some t => if t <=? clock s then Some (Returns (with_control (control_io_ s ++ [PollShutdown]) (with_timer None s))) else None
      | None => None
      end
  | Control sessions =>
      match main s, control_io_ s with
      | Looping, h :: q => Some (Returns (run_handler sessions h (with_control q s)))
      | _, _ => None
      end
  | FinalizeStep => Returns <$> finalize_step s
  | FinalizeTurn outstanding => Returns <$> finalize_turn outstanding s
  | RunReturn => match main s with Finalized => Some (Returns (goto Returned (set_running false s))) | _ => None end
  | Destroy sessions => match main s with Fresh | Returned | Failed => Some (destroy sessions s) | _ => None end
  | Tick d => Some (Returns (advance d s))
  end.

Fixpoint exec_all (es : list event) (s : Server) : option (outcome Server) :=
  match es with
  | [] => Some (Returns s)
  | e :: es =>
      match exec e s with
      | Some (Returns s) => exec_all es s
      | Some (Throws x) => Some (Throws x)
      | None => None
      end
  end.

End Calls.
End Server.
Import Server.

(** ** The workers' processors *)

Lemma stable_insert_perm x l : stable_insert x l ≡ₚ x :: l.
Proof. induction l as [| y l IH]; [done |]. cbn. destruct (before y x); [| done]. rewrite IH. constructor. Qed.

Lemma stable_sort_perm l : stable_sort l ≡ₚ l.
Proof. induction l as [| x l IH]; [done |]. cbn. rewrite stable_insert_perm. by constructor. Qed.

Definition not_after (a b : PhysicalCore) : Prop := before b a = false.
#[local] Instance not_after_trans : Transitive not_after.
Proof.
  intros a b c. unfold not_after, before.
  destruct (Z.eqb_spec (rank (type b)) (rank (type a))), (Z.eqb_spec (rank (type c)) (rank (type b))), (Z.eqb_spec (rank (type c)) (rank (type a))); cbn [negb];
    rewrite !Z.ltb_ge; lia.
Qed.

Lemma before_asym a b : before a b = true -> before b a = false.
Proof.
  unfold before. destruct (Z.eqb_spec (rank (type a)) (rank (type b))), (Z.eqb_spec (rank (type b)) (rank (type a))); cbn [negb]; rewrite Z.ltb_ge, Z.ltb_lt; lia.
Qed.

Lemma stable_insert_sorted x l : StronglySorted not_after l -> StronglySorted not_after (stable_insert x l).
Proof.
  induction 1 as [| y l Hs IH Hy]; cbn; [by constructor; [constructor |] |]. destruct (before y x) eqn:E.
  - constructor; [done |]. rewrite stable_insert_perm. constructor; [by apply before_asym | done].
  - constructor; [by constructor |]. constructor; [done |]. eapply Forall_impl; [exact Hy |]. intros z Hz. by etrans; [exact E |].
Qed.

Lemma stable_sort_sorted l : StronglySorted not_after (stable_sort l).
Proof. induction l as [| x l IH]; cbn; [constructor | by apply stable_insert_sorted]. Qed.

Lemma sorted_take_drop n (l : list PhysicalCore) a b : StronglySorted not_after l -> a ∈ take n l -> b ∈ drop n l -> not_after a b.
Proof.
  intros Hs. rewrite <- (take_drop n l) in Hs. apply StronglySorted_app in Hs as (Hs & _). by eauto.
Qed.

Section Workers.
Context (sys : Sysfs) (Hends : forall node l, node_cpulist sys node = Some l -> parse_cpulist l <> Endless).

Lemma few_cores t : discover_topology sys = Some t -> hardware_concurrency sys < 2 ^ 32 -> 0 < len (physical_cores t) < 2 ^ 32.
Proof.
  intros Ht Hhw. destruct (first_threads sys Hends t Ht) as (Hne & Hnd & Hr). assert (0 < len (physical_cores t)) by (destruct (physical_cores t); [done | rewrite len_cons; pose proof (len_nonneg l); lia]).
  split; [done |]. rewrite <- (len_fmap primary_logical_id). set (ids := primary_logical_id <$> physical_cores t) in *.
  assert (Hsub : ids ⊆+ (Z.of_nat <$> seq 0 (Z.to_nat (concurrency sys)))).
  { apply NoDup_submseteq; [done |]. intros x (pc & -> & Hpc)%list_elem_of_fmap. rewrite Forall_forall in Hr. apply Hr in Hpc.
    apply list_elem_of_fmap. exists (Z.to_nat (primary_logical_id pc)). split; [lia |]. apply elem_of_seq. lia. }
  apply submseteq_length in Hsub. rewrite length_fmap, length_seq in Hsub. unfold len. unfold concurrency in Hsub. destruct (Z.ltb_spec 0 (hardware_concurrency sys)); lia.
Qed.

(** A server that pins its workers by itself has at least one of them and never two on
    one processor: each has the first thread of a physical core of its own, and its
    node. They are as many as configured, or as there are cores if that is less or
    nothing is configured; and no core left without a worker goes before one that has
    it, performance cores going first and efficiency cores last, then by node. Each
    worker has a session manager, whose timing wheel is longer than the heartbeat. *)
Theorem workers_pinned t config b
    (Hhw : hardware_concurrency sys < 2 ^ 32) (Hcfg : in_width 32 (num_cores config)) (Ht : discover_topology sys = Some t)
    (Haff : affinity_enabled config = true) (Hauto : worker_cores config = []) (Hmake : make_server sys t config = Returns b) :
  0 < core_count b /\ len (assignments b) = core_count b /\
  core_count b = (if num_cores config =? 0 then len (physical_cores t) else Z.min (num_cores config) (len (physical_cores t))) /\
  NoDup (logical_core_id <$> assignments b) /\
  exists pinned idle, physical_cores t ≡ₚ pinned ++ idle /\
    assignments b = (λ pc, mkAssignment (primary_logical_id pc) (numa_node pc)) <$> pinned /\
    (forall pc pc', pc ∈ pinned -> pc' ∈ idle -> before pc' pc = false) /\
    len (managers b) = core_count b /\
    Forall (λ m, 0 < heartbeat_timeout_ticks config -> heartbeat_timeout_ticks config < num_slots_ m.2) (managers b).
Proof.
  destruct (few_cores t Ht Hhw) as [Hpos Hbig]. destruct (first_threads sys Hends t Ht) as (_ & Hnd & _).
  unfold make_server in Hmake. destruct (check_heartbeat config) as [u |] eqn:Ehb; [cbn in Hmake | done].
  unfold assign in Hmake. rewrite Haff, Hauto in Hmake. cbn [negb] in Hmake. unfold physical_core_count in Hmake. pose proof (stable_sort_perm (physical_cores t)) as Hp.
  assert (Hlen : len (stable_sort (physical_cores t)) = len (physical_cores t)) by (unfold len; by rewrite Hp). rewrite Hlen in Hmake.
  rewrite (wrap_small 32 (len _)) in Hmake by (unfold in_width; lia).
  set (n := Z.min _ _) in Hmake. assert (Hn : n = if num_cores config =? 0 then len (physical_cores t) else Z.min (num_cores config) (len (physical_cores t))).
  { subst n. destruct (Z.eqb_spec (num_cores config) 0); lia. }
  assert (Hn0 : 0 < n <= len (physical_cores t)) by (rewrite Hn; destruct (Z.eqb_spec (num_cores config) 0); unfold in_width in Hcfg; lia).
  assert (En : engine_cores (hardware_concurrency sys) n = n) by (unfold engine_cores; destruct (Z.eqb_spec n 0); lia). rewrite En in Hmake. clearbody n.
  destruct (SessionManager.make _ _ _ _) as [m |] eqn:Em; [cbn in Hmake | done]. injection Hmake as <-. cbn [core_count assignments managers].
  split_and!; [lia | | done | |].
  - rewrite len_fmap, len_takeZ; lia.
  - rewrite <- list_fmap_compose. change (logical_core_id ∘ _) with primary_logical_id.
    rewrite <- Hp, <- (take_drop (Z.to_nat n) (stable_sort _)), fmap_app in Hnd. by apply NoDup_app in Hnd as (? & _).
  - exists (takeZ n (stable_sort (physical_cores t))), (dropZ n (stable_sort (physical_cores t))). split_and!; [| done | | |].
    + unfold takeZ, dropZ. by rewrite take_drop, Hp.
    + intros pc pc' H1 H2. exact (sorted_take_drop _ _ _ _ (stable_sort_sorted _) H1 H2).
    + unfold len. rewrite length_replicate. lia.
    + apply Forall_replicate. intros Hh. unfold check_heartbeat in Ehb. rewrite (proj2 (Z.ltb_lt 0 _) Hh) in Ehb.
      unfold SessionManager.make, TimingWheel.make in Em. destruct (_ =? 0) in Em; [done |]. injection Em as <-. cbn [snd num_slots_].
      destruct (Z.leb_spec (next_power_of_2 (if timer_wheel_slots config <? 1 then 1 else timer_wheel_slots config)) (heartbeat_timeout_ticks config)); [done | lia].
Qed.

End Workers.

Lemma workers_pinned_witness : exists t b, discover_topology example_sys = Some t /\
  make_server example_sys t (mkConfig 3 300 1000 8192 256 true []) = Returns b /\ logical_core_id <$> assignments b = [0; 1; 4] /\ NoDup (logical_core_id <$> assignments b).
Proof.
  destruct (discover_topology example_sys) as [t |] eqn:Et; [| by vm_compute in Et].
  destruct (make_server example_sys t (mkConfig 3 300 1000 8192 256 true [])) as [b |] eqn:Eb.
  - exists t, b. split_and!; [done | exact Eb | |].
    + vm_compute in Et. injection Et as <-. vm_compute in Eb. injection Eb as <-. reflexivity.
    + eapply (workers_pinned example_sys); [| cbn; lia | | exact Et | | | exact Eb]; [| unfold in_width; cbn; lia | done | done].
      intros node l. cbn. destruct (node =? 0); [intros [= <-]; by vm_compute |]. destruct (node =? 1); [intros [= <-]; by vm_compute | done].
  - vm_compute in Et. injection Et as <-. by vm_compute in Eb.
Defined.

(** ** The life of a server *)

Section Life.
Context (cores factories adapters listeners : nat) (limit_per_ip : bool) (drain_timeout : Z) (Hdrain : 0 <= drain_timeout).

Abbreviation startup := (startup cores factories adapters listeners limit_per_ip).
Abbreviation exec := (exec cores factories adapters listeners limit_per_ip drain_timeout).
Abbreviation exec_all := (exec_all cores factories adapters listeners limit_per_ip drain_timeout).
Abbreviation services := (seq 0 cores ≫= λ c, pair c <$> seq 0 factories).

(** The calls of a shutdown that have a fixed place. *)
Definition shutdown_first : list call :=
  [HttpStop] ++ (ListenerStop <$> seq 0 listeners) ++ (AdapterDrain <$> seq 0 adapters) ++ (SchedulerStop <$> seq 0 cores) ++
  ((λ cf, ServiceStop cf.1 cf.2) <$> services).
Definition whole_life : list call := startup ++ shutdown_first ++ finalize_last adapters.

Definition in_place (c : call) : bool := match c with ListenerDrain _ | CloseSessions _ => false | _ => true end.
Abbreviation placed cs := (filter (λ c, in_place c = true) cs).

(** A pending shutdown: begun by [stop], then polling the sessions. *)
Definition pending (s : Server) : Prop :=
  if stopping_ s then
    control_io_ s = [BeginShutdown] /\ shutdown_timer_ s = None \/
    shutdown_deadline_ s <= clock s + drain_timeout /\
      (control_io_ s = [PollShutdown] /\ shutdown_timer_ s = None \/
       control_io_ s = [] /\ exists t, shutdown_timer_ s = Some t /\ t <= clock s + 10 ^ 6)
  else control_io_ s = [] /\ shutdown_timer_ s = None.

Definition quiet (s : Server) : Prop := stopping_ s = true /\ control_io_ s = [] /\ shutdown_timer_ s = None.

Definition life_inv (s : Server) : Prop :=
  match main s with
  | Starting todo => placed (calls s) ++ todo = startup /\ running_ s = false /\ shutdown_timer_ s = None /\ control_io_ s = if stopping_ s then [BeginShutdown] else []
  | Looping => placed (calls s) = startup /\ running_ s = true /\ pending s
  | Stopping todo => (exists made, placed (calls s) = startup ++ made /\ made ++ todo = shutdown_first) /\ running_ s = true /\ quiet s
  | Finalizing d wake => placed (calls s) = startup ++ shutdown_first /\ running_ s = true /\ quiet s /\ d <= clock s + drain_timeout /\ wake <= clock s + 10 ^ 7
  | Closing todo => (exists made, placed (calls s) = startup ++ made /\ made ++ todo = shutdown_first ++ finalize_last adapters) /\ running_ s = true /\ quiet s
  | Finalized => placed (calls s) = whole_life /\ running_ s = true /\ quiet s
  | Returned | Destroyed => placed (calls s) = whole_life /\ running_ s = false /\ quiet s
  | Fresh | Failed => False
  end.

Lemma filter_all {A} (P : A -> Prop) `{!forall x, Decision (P x)} (l : list A) : (forall x, x ∈ l -> P x) -> filter P l = l.
Proof.
  induction l as [| x l IH]; intros Hl; [done |]. rewrite filter_cons_True by (apply Hl; left). f_equal. apply IH. intros. apply Hl. by right.
Qed.
Lemma filter_none {A} (P : A -> Prop) `{!forall x, Decision (P x)} (l : list A) : (forall x, x ∈ l -> ~ P x) -> filter P l = [].
Proof.
  induction l as [| x l IH]; intros Hl; [done |]. rewrite filter_cons_False by (apply Hl; left). apply IH. intros. apply Hl. by right.
Qed.

Lemma placed_incl (cs : list call) : placed cs ⊆ cs.
Proof. intros c [_ Hc]%list_elem_of_filter. done. Qed.

(** The lists of calls, one group after the other. *)
Ltac groups := repeat match goal with
  | |- Forall _ (_ ++ _) => apply Forall_app; split
  | |- Forall _ (_ :: _) => constructor
  | |- Forall _ [] => constructor
  | |- Forall _ (_ <$> _) => apply Forall_fmap, Forall_forall; intros ? _
  | |- Forall _ (_ ≫= _) => apply Forall_bind, Forall_forall; intros ? _; unfold compose
  | |- Forall _ (if ?b then _ else _) => destruct b
  end.

Lemma startup_placed : Forall (λ c, in_place c = true) startup.
Proof. unfold Server.startup, start_services, start_network. groups; done. Qed.
Lemma shutdown_first_placed : Forall (λ c, in_place c = true) shutdown_first.
Proof. unfold shutdown_first. groups; done. Qed.
Lemma finalize_last_placed : Forall (λ c, in_place c = true) (finalize_last adapters).
Proof. unfold finalize_last. groups; done. Qed.

Lemma placed_all (cs : list call) : Forall (λ c, in_place c = true) cs -> placed cs = cs.
Proof. intros H. apply filter_all. by apply Forall_forall. Qed.

Lemma in_startup c : (c < cores)%nat -> MakeScheduler c ∈ startup /\ forall f, (f < factories)%nat -> CreateService c f ∈ startup.
Proof.
  intros Hc. unfold Server.startup, start_services. split; [| intros f Hf]; rewrite !elem_of_app; left; do 2 right; [left | right; left].
  - apply list_elem_of_fmap_2, elem_of_seq. lia.
  - apply list_elem_of_bind. exists c. split; [| apply elem_of_seq; lia]. apply elem_of_app. left. apply list_elem_of_fmap_2, elem_of_seq. lia.
Qed.

Lemma finalize_first_whole made : startup ⊆ made -> finalize_first cores factories adapters listeners made = shutdown_first.
Proof.
  intros Hm. unfold finalize_first, shutdown_first. do 3 f_equal.
  rewrite filter_all by (intros c Hc%elem_of_seq; apply Hm, in_startup; lia).
  rewrite filter_all; [done |]. intros [c f] (c' & (f' & [= -> ->] & Hf%elem_of_seq)%list_elem_of_fmap & Hc%elem_of_seq)%list_elem_of_bind. apply Hm, in_startup; cbn; lia.
Qed.

Lemma placed_log (cs new : list call) : placed (cs ++ new) = placed cs ++ placed new.
Proof. apply filter_app. Qed.

(** Sessions polled. *)
Lemma poll_life sessions s : main s = Looping -> placed (calls s) = startup -> running_ s = true -> quiet s -> shutdown_deadline_ s <= clock s + drain_timeout ->
  life_inv (poll_shutdown cores factories adapters listeners sessions s).
Proof.
  intros Hm Hc Hr (Hs & Hq & Ht) Hd. assert (Hf : life_inv (finalize_begin cores factories adapters listeners s)).
  { unfold life_inv, finalize_begin, quiet. cbn -[finalize_first]. rewrite Hc, finalize_first_whole by (rewrite <- Hc; apply placed_incl).
    split_and!; [| done..]. exists []. by rewrite app_nil_r. }
  unfold poll_shutdown. destruct (sessions =? 0); [done |]. destruct (shutdown_deadline_ s <=? clock s); [done |].
  unfold life_inv, pending. cbn. rewrite Hm, Hs. split_and!; [done | done |]. right. split; [done |]. right. split; [done |]. eexists. split; [done | lia].
Qed.

Lemma begin_life sessions s : main s = Looping -> placed (calls s) = startup -> running_ s = true -> quiet s ->
  life_inv (begin_shutdown cores factories adapters listeners drain_timeout sessions s).
Proof.
  intros Hm Hc Hr (Hs & Hq & Ht). unfold begin_shutdown. apply poll_life; cbn; [done | | done | done | lia].
  rewrite placed_log, Hc, (filter_none _ (CloseSessions <$> _)), app_nil_r; [done |]. by intros ? (c & -> & _)%list_elem_of_fmap.
Qed.

Lemma stop_life s : life_inv s -> main s <> Destroyed -> life_inv (stop listeners s) /\ run_count_ (stop listeners s) = run_count_ s.
Proof.
  intros Hi Hd. unfold stop. destruct (stopping_ s) eqn:Es; [done |]. split; [| done].
  unfold life_inv, pending, quiet in *. cbn. rewrite placed_log, (filter_none _ (ListenerDrain <$> _)), app_nil_r by (by intros ? (c & -> & _)%list_elem_of_fmap).
  rewrite Es in Hi. destruct (main s); try done.
  - by destruct Hi as (? & ? & ? & ->).
  - destruct Hi as (? & ? & -> & ?). auto.
  - by destruct Hi as (_ & _ & [? _]).
  - by destruct Hi as (_ & _ & [? _] & _).
  - by destruct Hi as (_ & _ & [? _]).
  - by destruct Hi as (_ & _ & [? _]).
  - by destruct Hi as (_ & _ & [? _]).
Qed.

(** The engine has been joined and the services have been stopped by then. *)
Lemma destroy_life sessions s : main s = Returned -> life_inv s -> exists s', destroy cores factories adapters listeners drain_timeout sessions s = Returns s' /\ life_inv s' /\ run_count_ s' = run_count_ s.
Proof.
  intros Hm Hi. unfold life_inv in Hi. rewrite Hm in Hi. destruct Hi as (Hc & Hr & Hs & Hq & Ht).
  assert (Hin : forall c, c ∈ whole_life -> c ∈ calls s) by (intros c; rewrite <- Hc; apply placed_incl).
  assert (He : still_started cores factories s = []).
  { unfold still_started. apply filter_none. intros cf Hcf [_ []]. apply Hin. unfold whole_life, shutdown_first. rewrite !elem_of_app. right. left. do 4 right. apply list_elem_of_fmap. by exists cf. }
  unfold destroy. rewrite He. cbn [fmap list_fmap]. assert (Hj : EngineJoin ∈ calls s).
  { apply Hin. unfold whole_life, finalize_last. rewrite !elem_of_app. do 3 right. set_solver. }
  assert (Hl : calls (log [] s) = calls s) by apply app_nil_r. rewrite Hl, (bool_decide_eq_true_2 _ Hj), andb_false_r.
  eexists. split; [done |]. cbn. rewrite Hq. unfold life_inv. cbn. by rewrite app_nil_r.
Qed.

Lemma control_life sessions h q s : main s = Looping -> life_inv s -> control_io_ s = h :: q ->
  life_inv (run_handler cores factories adapters listeners drain_timeout sessions h (with_control q s)).
Proof.
  intros Hm Hi Hq. unfold life_inv, pending in Hi. rewrite Hm, Hq in Hi. destruct Hi as (Hc & Hr & Hp). destruct (stopping_ s) eqn:Es; [| by destruct Hp].
  destruct Hp as [([= -> ->] & Ht) | (Hd & [([= -> ->] & Ht) | [[=] _]])]; cbn [run_handler].
  - apply begin_life; try done.
  - apply poll_life; try done.
Qed.

(** A call of a fixed list has been made. *)
Lemma placed_one (made todo all : list call) c : made ++ c :: todo = all -> Forall (λ c, in_place c = true) all -> placed [c] = [c].
Proof. intros <- Hp. apply placed_all. apply Forall_app in Hp as [_ Hp]. inv Hp. by constructor. Qed.

Lemma placed_next (cs todo all : list call) c : placed cs ++ c :: todo = all -> Forall (λ c, in_place c = true) all -> placed (cs ++ [c]) ++ todo = all.
Proof. intros E Hp. rewrite placed_log, (placed_one _ _ _ _ E Hp), <- app_assoc. done. Qed.

Lemma finalize_step_life s s' : life_inv s -> finalize_step drain_timeout s = Some s' -> life_inv s' /\ run_count_ s' = run_count_ s.
Proof.
  unfold finalize_step, life_inv. intros Hi. destruct (main s) as [| | | [| c todo] | | [| c todo] | | | |] eqn:Em; try done; intros [= <-]; (split; [| done]); cbn.
  - destruct Hi as ((made & Hc & Hm) & ? & ?). rewrite app_nil_r in Hm. subst made. split_and!; [done.. | lia | lia].
  - destruct Hi as ((made & Hc & Hm) & Hr & Hq). split_and!; [| done..]. exists (made ++ [c]). rewrite <- app_assoc. split; [| done].
    by rewrite placed_log, Hc, app_assoc, (placed_one _ _ _ _ Hm shutdown_first_placed).
  - destruct Hi as ((made & Hc & Hm) & ? & ?). rewrite app_nil_r in Hm. by subst made.
  - destruct Hi as ((made & Hc & Hm) & Hr & Hq). split_and!; [| done..]. exists (made ++ [c]). rewrite <- app_assoc. split; [| done].
    rewrite placed_log, Hc, app_assoc, (placed_one _ _ _ _ Hm); [done |]. apply Forall_app. split; [apply shutdown_first_placed | apply finalize_last_placed].
Qed.

Lemma finalize_turn_life n s s' : life_inv s -> finalize_turn adapters n s = Some s' -> life_inv s' /\ run_count_ s' = run_count_ s.
Proof.
  unfold finalize_turn, life_inv. intros Hi. destruct (main s) eqn:Em; try done. destruct (wake <=? clock s); [| done]. intros [= <-].
  destruct Hi as (Hc & Hr & Hq & Hd & Hw). destruct ((clock s <? _) && _); (split; [| done]); cbn -[finalize_last].
  - split_and!; [done.. | lia | lia].
  - split_and!; [| done..]. by exists shutdown_first.
Qed.

(** One step, other than a call of [run] that throws. *)
Lemma exec_life e s o : e <> RunStep true -> life_inv s -> 0 < run_count_ s < 2 ^ 32 - 1 -> exec e s = Some o ->
  exists s', o = Returns s' /\ life_inv s' /\ run_count_ s <= run_count_ s' <= run_count_ s + 1.
Proof.
  intros He Hi Hn. unfold Server.exec. destruct e as [| [] | | | sessions | | outstanding | | sessions | d]; try done.
  - intros Eo. assert (o = Returns (enter_run cores factories adapters listeners limit_per_ip s).2) as -> by (destruct (main s); congruence). eexists. split; [done |].
    unfold enter_run. destruct (Z.eqb_spec (run_count_ s) 0); [lia |]. cbn. rewrite wrap_small by (unfold in_width; lia). split; [exact Hi | lia].
  - unfold run_step. destruct (main s) as [| [| c todo] | | | | | | | |] eqn:Em; try done; intros [= <-]; eexists; (split; [done |]); cbn; (split; [| lia]);
      unfold life_inv in *; rewrite Em in Hi; cbn.
    + destruct Hi as (Hc & _ & Ht & Hq). rewrite app_nil_r in Hc. split_and!; [done | done |]. unfold pending. cbn. rewrite Hq, Ht. destruct (stopping_ s); auto.
    + destruct Hi as (Hc & Hr & Ht & Hq). split_and!; [| done..]. eapply placed_next; [done | apply startup_placed].
  - intros Eo. assert (main s <> Destroyed /\ o = Returns (stop listeners s)) as [Hd ->] by (destruct (main s); split; congruence).
    eexists. split; [done |]. destruct (stop_life s Hi Hd) as [? ->]. split; [done | lia].
  - destruct (shutdown_timer_ s) as [t |] eqn:Et; [| done]. destruct (t <=? clock s); [| done]. intros [= <-]. eexists. split; [done |]. split; [| cbn; lia].
    unfold life_inv, pending, quiet in *. cbn. rewrite Et in Hi. destruct (main s); try (by naive_solver).
    destruct (stopping_ s); [| by naive_solver]. destruct Hi as (? & ? & [[? [=]] | (? & [[? [=]] | (-> & _)])]). auto 10.
  - destruct (main s) eqn:Em; try done. destruct (control_io_ s) as [| h q] eqn:Eq; [done |]. intros [= <-]. eexists. split; [done |]. split; [by apply control_life |].
    destruct h; cbn; unfold begin_shutdown, poll_shutdown; repeat case_match; cbn; lia.
  - destruct (finalize_step drain_timeout s) as [s' |] eqn:E; [| done]. intros [= <-]. exists s'. split; [done |]. destruct (finalize_step_life s s' Hi E). split; [done | lia].
  - destruct (finalize_turn adapters outstanding s) as [s' |] eqn:E; [| done]. intros [= <-]. exists s'. split; [done |]. destruct (finalize_turn_life _ s s' Hi E). split; [done | lia].
  - destruct (main s) eqn:Em; try done. intros [= <-]. eexists. split; [done |]. split; [| cbn; lia]. unfold life_inv in *. rewrite Em in Hi. cbn. by destruct Hi as (? & _ & ?).
  - intros Eo. assert (main s = Returned) as Em by (unfold life_inv in Hi; destruct (main s); done). rewrite Em in Eo. injection Eo as <-.
    destruct (destroy_life sessions s Em Hi) as (s' & E & Hi' & Hc). exists s'. split_and!; [done | done | lia | lia].
  - intros [= <-]. eexists. split; [done |]. split; [| cbn; lia]. unfold life_inv, pending, quiet in *. cbn. destruct (main s); try done.
    + destruct Hi as (? & ? & Hp). split_and!; [done | done |]. destruct (stopping_ s); [| done]. destruct Hp as [? | (? & [? | (? & t & ? & ?)])]; [auto | |].
      * right. split; [lia | auto].
      * right. split; [lia |]. right. split; [done |]. exists t. split; [done | lia].
    + destruct Hi as (? & ? & (? & ? & ?) & ? & ?). split_and!; [done.. | lia | lia].
Qed.

Lemma run_life : exists s, exec Run fresh_server = Some (Returns s) /\ life_inv s /\ run_count_ s = 1.
Proof. eexists. split; [reflexivity |]. split; [| reflexivity]. unfold life_inv. cbn -[Server.startup]. done. Qed.

Lemma exec_all_life es : forall s o, RunStep true ∉ es -> life_inv s -> 0 < run_count_ s -> run_count_ s + len es < 2 ^ 32 -> exec_all es s = Some o ->
  exists s', o = Returns s' /\ life_inv s' /\ 0 < run_count_ s' < 2 ^ 32.
Proof.
  induction es as [| e es IH]; intros s o Hes Hi Hn Hl; cbn.
  - intros [= <-]. exists s. split_and!; [done | done | done |]. rewrite len_nil in Hl. lia.
  - apply not_elem_of_cons in Hes as [He Hes]. rewrite len_cons in Hl. pose proof (len_nonneg es). destruct (exec e s) as [o' |] eqn:E; [| done].
    destruct (exec_life e s o') as (s' & -> & Hi' & Hc); [congruence | done | lia | done |]. apply IH; [done | done | lia | lia].
Qed.

(** *** What a life has to be *)

(** The calls that a server with these cores, factories, adapters and listeners has to
    make, each once. *)
Definition due (x : call) : bool :=
  match x with
  | AdapterInit a | AdapterMetrics a | WireServices a | AdapterDrain a | AdapterClose a => a <? adapters
  | MakeScheduler c | SetRemoveCallback c | CoreMetrics c | SchedulerStop c => c <? cores
  | CreateService c f | RegisterRef c f | Configure c f | Wire c f | Start c f | ServiceStop c f => (c <? cores) && (f <? factories)
  | SyncHandlers l c => (0 <? l) && (l <? listeners) && (c <? cores)
  | InjectLimiters l => limit_per_ip && (l <? listeners)
  | ListenerStart l | ListenerStop l => l <? listeners
  | ListenerDrain _ | CloseSessions _ => false
  | PostInit | SetTickCallback | EngineStart | Freeze | HttpStart | HttpStop | EngineStop | EngineJoin | EngineDrainRemaining | ExecutorShutdown | ClearGlobals | ControlStop => true
  end%nat.

(** The order the parts rely on: [d], where it is due, must have been called before [x]. *)
Definition needs (x d : call) : bool :=
  match x, d with
  (* adapters are what services are built on *)
  | AdapterMetrics _, AdapterInit _ | CreateService _ _, AdapterInit _ => true
  (* a service is registered once it exists; all exist before one is configured, are
     configured and registered before one looks for another, and wired before one starts *)
  | RegisterRef c f, CreateService c' f' => bool_decide (c = c' /\ f = f')
  | Configure _ _, CreateService _ _ => true
  | Wire _ _, (Configure _ _ | RegisterRef _ _ | MakeScheduler _) => true
  | Start _ _, Wire _ _ => true
  (* handlers are registered by the start of a service *)
  | SyncHandlers _ _, Start _ _ | WireServices _, Start _ _ => true
  (* no thread runs before the services and callbacks are in place, no connection is
     accepted before the threads run and the limits are set *)
  | EngineStart, (Start _ _ | SyncHandlers _ _ | WireServices _ | SetRemoveCallback _ | PostInit | SetTickCallback) => true
  | ListenerStart _, (EngineStart | InjectLimiters _) => true
  (* nothing is registered after the metrics are frozen, none is served before *)
  | Freeze, (AdapterMetrics _ | CoreMetrics _) | HttpStart, Freeze => true
  (* what is stopped has been started *)
  | HttpStop, HttpStart | ListenerStop _, ListenerStart _ | ServiceStop _ _, Start _ _ | EngineStop, EngineStart => true
  (* no connection comes when adapters refuse requests; no timer fires into a stopped service *)
  | AdapterDrain _, ListenerStop _ | ServiceStop _ _, (AdapterDrain _ | SchedulerStop _) => true
  (* adapters close when nobody uses them and the threads still run *)
  | AdapterClose _, ServiceStop _ _ | EngineStop, AdapterClose _ => true
  | EngineJoin, EngineStop | EngineDrainRemaining, EngineJoin | ExecutorShutdown, EngineJoin => true
  (* the globals go last, and then [run] returns *)
  | ClearGlobals, (EngineDrainRemaining | ExecutorShutdown) | ControlStop, ClearGlobals => true
  | _, _ => false
  end.

(** The calls of the start. *)
Definition starting (x : call) : bool :=
  match x with
  | AdapterInit _ | AdapterMetrics _ | MakeScheduler _ | CreateService _ _ | RegisterRef _ _ | Configure _ _ | Wire _ _ | Start _ _ | SyncHandlers _ _
  | WireServices _ | SetRemoveCallback _ | PostInit | SetTickCallback | EngineStart | InjectLimiters _ | ListenerStart _ | CoreMetrics _ | Freeze | HttpStart => true
  | _ => false
  end.

(** *** The life is one *)

(** A number for each group of calls; creation and registration alternate by core. *)
Abbreviation span := (2 * cores + 2)%nat.
Definition stage (x : call) : nat :=
  match x with
  | AdapterInit _ => 0 | AdapterMetrics _ => 1 * span | MakeScheduler _ => 2 * span
  | CreateService c _ => 3 * span + 2 * c | RegisterRef c _ => 3 * span + 2 * c + 1
  | Configure _ _ => 4 * span | Wire _ _ => 5 * span | Start _ _ => 6 * span | SyncHandlers _ _ => 7 * span | WireServices _ => 8 * span
  | SetRemoveCallback _ => 9 * span | PostInit => 10 * span | SetTickCallback => 11 * span | EngineStart => 12 * span
  | InjectLimiters _ => 13 * span | ListenerStart _ => 14 * span | CoreMetrics _ => 15 * span | Freeze => 16 * span | HttpStart => 17 * span
  | HttpStop => 18 * span | ListenerStop _ => 19 * span | AdapterDrain _ => 20 * span | SchedulerStop _ => 21 * span | ServiceStop _ _ => 22 * span
  | AdapterClose _ => 23 * span | EngineStop => 24 * span | EngineJoin => 25 * span | EngineDrainRemaining => 26 * span
  | ExecutorShutdown => 27 * span | ClearGlobals => 28 * span | ControlStop => 29 * span
  | ListenerDrain _ | CloseSessions _ => 30 * span
  end%nat.

Definition staged (lo hi : nat) (l : list call) : Prop :=
  NoDup l /\ StronglySorted (λ a b, stage a <= stage b)%nat l /\ Forall (λ x, lo <= stage x < hi)%nat l.

Lemma staged_app lo mid hi l1 l2 : (lo <= mid <= hi)%nat -> staged lo mid l1 -> staged mid hi l2 -> staged lo hi (l1 ++ l2).
Proof.
  intros Hm (Hn1 & Hs1 & Hf1) (Hn2 & Hs2 & Hf2). rewrite Forall_forall in Hf1, Hf2. split_and!.
  - apply NoDup_app. split_and!; [done | | done]. intros x H1 H2. specialize (Hf1 x H1). specialize (Hf2 x H2). lia.
  - apply StronglySorted_app. split_and!; [| done | done]. intros x y Hx Hy. specialize (Hf1 x Hx). specialize (Hf2 y Hy). lia.
  - apply Forall_app. split; apply Forall_forall; intros x Hx; [specialize (Hf1 x Hx) | specialize (Hf2 x Hx)]; lia.
Qed.

Lemma staged_flat n lo hi l : (lo <= n < hi)%nat -> NoDup l -> Forall (λ x, stage x = n) l -> staged lo hi l.
Proof.
  intros Hn Hd Hf. split_and!; [done | | eapply Forall_impl; [exact Hf |]; cbn; lia].
  clear Hd. induction Hf as [| x l Hx Hf IH]; constructor; [done |]. eapply Forall_impl; [exact Hf |]. cbn. lia.
Qed.

Lemma nodup_each (f : nat -> call) a n : (forall i j, f i = f j -> i = j) -> NoDup (f <$> seq a n).
Proof. intros Hf. apply NoDup_fmap_2; [intros i j; apply Hf | apply NoDup_seq]. Qed.

Lemma nodup_services (f : nat -> nat -> call) a n : (forall c c' i j, f c i = f c' j -> c = c' /\ i = j) -> NoDup (seq 0 cores ≫= λ c, f c <$> seq a n).
Proof.
  intros Hf. apply NoDup_bind; [| | apply NoDup_seq].
  - intros c c' x _ _ (i & -> & _)%list_elem_of_fmap (j & E & _)%list_elem_of_fmap. by apply Hf in E as [-> _].
  - intros c _. apply nodup_each. intros i j E. by apply Hf in E as [_ ->].
Qed.

Lemma staged_cores b (f : nat -> list call) a n : (forall c, staged (b + 2 * c) (b + 2 * c + 2) (f c))%nat -> staged (b + 2 * a) (b + 2 * (a + n))%nat (seq a n ≫= f).
Proof.
  intros Hf. revert a. induction n as [| n IH]; intros a; [split_and!; constructor |]. cbn [seq mbind list_bind].
  eapply (staged_app _ (b + 2 * a + 2)%nat); [lia | apply Hf |]. specialize (IH (S a)).
  replace (b + 2 * S a)%nat with (b + 2 * a + 2)%nat in IH by lia. by replace (b + 2 * (a + S n))%nat with (b + 2 * (S a + n))%nat by lia.
Qed.

(** Peel off the first group, which is all of stage [n]. *)
Ltac group n := eapply (staged_app _ (n * span + 1)%nat); [lia | apply (staged_flat (n * span)%nat); [lia | | groups; cbn; lia] |].
Ltac distinct := first [apply NoDup_singleton | apply nodup_each; congruence | apply nodup_services; intros; split; congruence].

Lemma staged_services : staged 0 (9 * span) (start_services cores factories adapters listeners).
Proof.
  unfold start_services. group 0%nat; [distinct |]. group 1%nat; [distinct |]. group 2%nat; [distinct |].
  eapply (staged_app _ (3 * span + 2 * cores)%nat); [lia | |].
  { assert (Hb : staged (3 * span + 2 * 0) (3 * span + 2 * (0 + cores)) (seq 0 cores ≫= λ c, (CreateService c <$> seq 0 factories) ++ (RegisterRef c <$> seq 0 factories))).
    { apply staged_cores. intros c. eapply (staged_app _ (3 * span + 2 * c + 1)%nat); [lia | |].
      - apply (staged_flat (3 * span + 2 * c)%nat); [lia | distinct | groups; reflexivity].
      - apply (staged_flat (3 * span + 2 * c + 1)%nat); [lia | distinct | groups; reflexivity]. }
    destruct Hb as (Hn & Hs & Hf). split_and!; [done.. |]. eapply Forall_impl; [exact Hf |]. cbn beta. lia. }
  group 4%nat; [distinct |]. group 5%nat; [distinct |]. group 6%nat; [distinct |]. group 7%nat.
  - apply (nodup_services (λ c l, SyncHandlers l c)). intros; split; congruence.
  - apply (staged_flat (8 * span)%nat); [lia | distinct | groups; cbn; lia].
Qed.

Lemma staged_network : staged (9 * span) (18 * span) (start_network cores listeners limit_per_ip).
Proof.
  unfold start_network. group 9%nat; [distinct |].
  change [PostInit; SetTickCallback; EngineStart] with ([PostInit] ++ [SetTickCallback] ++ [EngineStart]). rewrite <- !app_assoc.
  group 10%nat; [distinct |]. group 11%nat; [distinct |]. group 12%nat; [distinct |].
  group 13%nat; [destruct limit_per_ip; [distinct | constructor] |]. group 14%nat; [distinct |]. group 15%nat; [distinct |].
  change [Freeze; HttpStart] with ([Freeze] ++ [HttpStart]). group 16%nat; [distinct |].
  apply (staged_flat (17 * span)%nat); [lia | distinct | groups; cbn; lia].
Qed.

Lemma staged_shutdown : staged (18 * span) (23 * span) shutdown_first.
Proof.
  unfold shutdown_first. group 18%nat; [distinct |]. group 19%nat; [distinct |]. group 20%nat; [distinct |]. group 21%nat; [distinct |].
  apply (staged_flat (22 * span)%nat); [lia | | groups; cbn; lia]. apply NoDup_fmap_2; [intros [c f] [c' f']; cbn; congruence |].
  apply NoDup_bind; [| | apply NoDup_seq].
  - intros c c' x _ _ (i & -> & _)%list_elem_of_fmap (j & E & _)%list_elem_of_fmap. congruence.
  - intros c _. apply NoDup_fmap_2; [intros i j; congruence | apply NoDup_seq].
Qed.

Lemma staged_last : staged (23 * span) (30 * span) (finalize_last adapters).
Proof.
  unfold finalize_last. group 23%nat; [distinct |].
  change [EngineStop; EngineJoin; EngineDrainRemaining; ExecutorShutdown; ClearGlobals; ControlStop]
    with ([EngineStop] ++ [EngineJoin] ++ [EngineDrainRemaining] ++ [ExecutorShutdown] ++ [ClearGlobals] ++ [ControlStop]).
  group 24%nat; [distinct |]. group 25%nat; [distinct |]. group 26%nat; [distinct |]. group 27%nat; [distinct |]. group 28%nat; [distinct |].
  apply (staged_flat (29 * span)%nat); [lia | distinct | groups; cbn; lia].
Qed.

Lemma staged_life : staged 0 (30 * span) whole_life.
Proof.
  unfold whole_life, Server.startup. rewrite <- app_assoc. eapply staged_app; [| apply staged_services |]; [lia |].
  eapply staged_app; [| apply staged_network |]; [lia |]. eapply staged_app; [| apply staged_shutdown | apply staged_last]. lia.
Qed.

(** The calls made are those due. *)
Ltac bounds := repeat match goal with
  | |- Forall _ (_ ++ _) => apply Forall_app; split
  | |- Forall _ (_ :: _) => constructor
  | |- Forall _ [] => constructor
  | |- Forall _ (_ <$> _) => apply Forall_fmap, Forall_forall; intros ? ?%elem_of_seq; unfold compose
  | |- Forall _ (_ ≫= _) => apply Forall_bind, Forall_forall; intros ? ?%elem_of_seq; unfold compose
  | |- Forall _ (if ?b then _ else _) => destruct b eqn:?
  end.

Ltac in_range := split; [cbn [due]; rewrite ?andb_true_iff, ?Nat.ltb_lt; split_and?; done || lia | done].

Lemma startup_due : Forall (λ x, due x = true /\ starting x = true) startup.
Proof. unfold Server.startup, start_services, start_network. bounds; in_range. Qed.

Lemma in_services c f : (c, f) ∈ services <-> (c < cores)%nat /\ (f < factories)%nat.
Proof.
  rewrite list_elem_of_bind. split.
  - intros (c' & (f' & [= -> ->] & Hf%elem_of_seq)%list_elem_of_fmap & Hc%elem_of_seq). lia.
  - intros [Hc Hf]. exists c. split; [apply list_elem_of_fmap_2 |]; apply elem_of_seq; lia.
Qed.

Lemma shutdown_due : Forall (λ x, due x = true /\ starting x = false) (shutdown_first ++ finalize_last adapters).
Proof.
  unfold shutdown_first, finalize_last. rewrite !Forall_app. split_and!.
  5: { apply Forall_fmap, Forall_forall. intros [c f] [Hc Hf]%in_services. in_range. }
  all: bounds; in_range.
Qed.

(** Look for a call among the groups. *)
Ltac found := first
  [ match goal with |- _ ∈ _ :: _ => rewrite !elem_of_cons; tauto end
  | apply list_elem_of_fmap; eexists; split; [reflexivity | apply elem_of_seq; lia]
  | apply list_elem_of_bind; eexists; split; [found | apply elem_of_seq; lia]
  | apply elem_of_app; left; found
  | apply elem_of_app; right; found ].

Lemma due_lived x : due x = true -> x ∈ whole_life.
Proof.
  unfold whole_life, Server.startup, start_services, start_network, shutdown_first, finalize_last.
  destruct x; cbn [due]; rewrite ?andb_true_iff, ?Nat.ltb_lt; intros Hd; try done; try solve [found].
  - rewrite (proj1 Hd). found.
  - apply elem_of_app; right. apply elem_of_app; left. do 4 (apply elem_of_app; right). apply list_elem_of_fmap. exists (c, f). split; [done |]. by apply in_services.
Qed.
Lemma needs_stage x d : needs x d = true -> due x = true -> due d = true -> (stage d < stage x)%nat.
Proof.
  destruct x, d; cbn [needs due]; try done; rewrite ?andb_true_iff, ?Nat.ltb_lt; try (intros; cbn [stage]; lia).
  intros [-> ->]%bool_decide_eq_true _ _. cbn [stage]. lia.
Qed.

(** In a beginning of the life, what a call needs has been called. *)
Lemma life_ordered l1 x l2 d : (l1 ++ x :: l2) `prefix_of` whole_life -> needs x d = true -> due d = true -> d ∈ l1.
Proof.
  intros [rest E] Hn Hd. rewrite <- app_assoc in E. cbn in E.
  assert (Hx : x ∈ whole_life) by (rewrite E; apply elem_of_app; right; left).
  assert (Hdx : due x = true).
  { pose proof startup_due as H1. pose proof shutdown_due as H2. rewrite Forall_forall in H1, H2. unfold whole_life in Hx.
    apply elem_of_app in Hx as [Hx | Hx]; [by apply H1 | by apply H2]. }
  pose proof (needs_stage x d Hn Hdx Hd) as Hlt. pose proof (due_lived d Hd) as Hin. rewrite E in Hin. apply elem_of_app in Hin as [Hin | Hin]; [done |].
  destruct staged_life as (_ & Hs & _). rewrite E in Hs. apply StronglySorted_app_1_r, StronglySorted_inv in Hs as [_ Hs]. rewrite Forall_forall in Hs.
  apply elem_of_cons in Hin as [-> | Hin]; [lia |]. specialize (Hs d Hin). cbn in Hs. lia.
Qed.

Lemma prefix_lived cs x : placed cs `prefix_of` whole_life -> in_place x = true -> x ∈ cs -> due x = true.
Proof.
  intros [rest E] Hp Hx. assert (Hin : x ∈ whole_life) by (rewrite E; apply elem_of_app; left; by apply list_elem_of_filter).
  pose proof startup_due as H1. pose proof shutdown_due as H2. rewrite Forall_forall in H1, H2. apply elem_of_app in Hin as [Hin | Hin]; [by apply H1 | by apply H2].
Qed.

Lemma due_in_place x : due x = true -> in_place x = true.
Proof. by destruct x. Qed.
Lemma needs_in_place x d : needs x d = true -> in_place x = true.
Proof. by destruct x, d. Qed.

(** How far the calls have come. *)
Lemma life_prefix s : life_inv s -> placed (calls s) `prefix_of` whole_life /\
  (main s = Returned \/ main s = Destroyed -> placed (calls s) = whole_life) /\ (running_ s = true -> startup `prefix_of` placed (calls s)).
Proof.
  unfold life_inv, whole_life. destruct (main s); try done; intros (Hc & Hr & _); try destruct Hc as (made & Hc & Hm);
    (split_and!; [| by intros [? | ?] | intros Hr'; try congruence]); try rewrite Hc; try done; try (by apply prefix_app_r).
  - rewrite <- Hc, <- app_assoc. by apply prefix_app_r.
  - rewrite <- Hm, <- !app_assoc. apply prefix_app. by apply prefix_app_r.
  - rewrite app_assoc. by apply prefix_app_r.
  - rewrite <- Hm. apply prefix_app. by apply prefix_app_r.
Qed.

(** What [running] tells. *)
Definition serving (s : Server) : bool :=
  match main s with Looping | Stopping _ | Finalizing _ _ | Closing _ | Finalized => true | _ => false end.

(** C25: when no call of [run] throws and nobody stops the server before it runs, then in
    whatever order [stop], the timer, the control loop and the destructor come, nothing is
    undefined. Listener drains and session closes aside, which come when [stop] does, only
    calls that are due are made, none of them twice, and none before the calls it needs:
    adapters come up before services, each service is created, configured, wired and
    started in step with all the others, threads run after that and listeners last; on the
    way down listeners stop first, adapters close when the services have stopped and while
    the threads still run. When [run] has returned, every call that is due has been made.
    [running] holds from the end of the start, when all of its calls have been made, to
    that return; and a second [run] throws and leaves all but its counter as it was. *)
Theorem server_lifecycle es o (Hthrow : RunStep true ∉ es) (Hlen : len es < 2 ^ 32 - 1) (Hrun : exec_all (Run :: es) fresh_server = Some o) :
  exists s, o = Returns s /\
    NoDup (placed (calls s)) /\ (forall x, x ∈ calls s -> in_place x = true -> due x = true) /\
    (forall l1 x l2 d, calls s = l1 ++ x :: l2 -> needs x d = true -> due d = true -> d ∈ l1) /\
    (main s = Returned \/ main s = Destroyed -> forall x, due x = true -> x ∈ calls s) /\
    running_ s = serving s /\ (running_ s = true -> forall x, due x = true -> starting x = true -> x ∈ calls s) /\
    let '(again, s') := enter_run cores factories adapters listeners limit_per_ip s in
    again = Throws logic_error /\ calls s' = calls s /\ main s' = main s /\ stopping_ s' = stopping_ s.
Proof.
  cbn [Server.exec_all] in Hrun. destruct run_life as (s1 & E1 & Hi1 & Hc1). rewrite E1 in Hrun.
  destruct (exec_all_life es s1 o) as (s & -> & Hi & Hc); [done | done | lia | lia | done |]. exists s. split; [done |].
  unfold enter_run. destruct (Z.eqb_spec (run_count_ s) 0); [lia |]. cbn [negb calls main stopping_].
  destruct (life_prefix s Hi) as (Hpre & Hall & Hup). split_and!; try done.
  - destruct Hpre as [rest E]. destruct staged_life as (Hn & _). rewrite E in Hn. by apply NoDup_app in Hn as [? _].
  - intros x Hx Hp. by eapply prefix_lived.
  - intros l1 x l2 d E Hn Hd. apply placed_incl. apply (life_ordered (placed l1) x (placed l2)); [| done | done].
    rewrite E, placed_log, filter_cons_True in Hpre by (by eapply needs_in_place). done.
  - intros Hm x Hd. apply placed_incl. rewrite (Hall Hm). by apply due_lived.
  - unfold life_inv in Hi. unfold serving. destruct (main s); naive_solver.
  - intros Hr x Hd Hs. destruct (Hup Hr) as [rest E]. apply placed_incl. rewrite E. apply elem_of_app. left.
    pose proof (due_lived x Hd) as Hin. unfold whole_life in Hin. apply elem_of_app in Hin as [Hin | Hin]; [done |].
    pose proof shutdown_due as H2. rewrite Forall_forall in H2. specialize (H2 x Hin). destruct H2. congruence.
Qed.

(** *** A shutdown comes to an end *)

(** What the server finds, at each step of a shutdown: sessions and coroutines left, and
    how long the call it makes takes or how late it is. *)
Record environment : Type := mkEnv { sessions_at : nat -> Z; outstanding_at : nat -> Z; lag : nat -> Z }.

(** The [i]th step: time passes until the step is due, and the time it takes. *)
Definition next_step (env : environment) (i : nat) (s : Server) : list event :=
  match main s, control_io_ s, shutdown_timer_ s with
  | Looping, _ :: _, _ => [Tick (lag env i); Control (sessions_at env i)]
  | Looping, [], Some t => [Tick (Z.max 0 (t - clock s) + lag env i); TimerExpire]
  | (Stopping _ | Closing _), _, _ => [Tick (lag env i); FinalizeStep]
  | Finalizing _ wake, _, _ => [Tick (Z.max 0 (wake - clock s) + lag env i); FinalizeTurn (outstanding_at env i)]
  | Finalized, _, _ => [Tick (lag env i); RunReturn]
  | _, _, _ => []
  end.

Fixpoint proceed (env : environment) (i n : nat) (s : Server) : option (outcome Server) :=
  match n with
  | O => Some (Returns s)
  | S n =>
      match exec_all (next_step env i s) s with
      | Some (Returns s) => proceed env (S i) n s
      | o => o
      end
  end.

Fixpoint lags (env : environment) (i n : nat) : Z := match n with O => 0 | S n => lag env i + lags env (S i) n end.

Section Shutdown.
Context (env : environment) (Hlag : forall i, 0 <= lag env i).

(** Lags aside, [run] returns by [t]. *)
Definition returns_by (i : nat) (t : Z) (s : Server) : Prop :=
  exists n s', proceed env i n s = Some (Returns s') /\ main s' = Returned /\ clock s' <= t + lags env i n.

Lemma returns_step i t t' s s' : exec_all (next_step env i s) s = Some (Returns s') -> t' <= t + lag env i -> returns_by (S i) t' s' -> returns_by i t s.
Proof. intros E Ht (n & s'' & Ep & Hm & Hc). exists (S n), s''. cbn [proceed lags]. rewrite E. split_and!; [done | done | lia]. Qed.

Lemma returns_later i t t' s : t <= t' -> returns_by i t s -> returns_by i t' s.
Proof. intros Ht (n & s' & E & Hm & Hc). exists n, s'. split_and!; [done | done | lia]. Qed.

Lemma finalized_returns i s : main s = Finalized -> returns_by i (clock s) s.
Proof.
  intros Hm. pose proof (Hlag i). eapply (returns_step i _ (clock s + lag env i)); [unfold next_step; rewrite Hm; cbn; rewrite Hm; reflexivity | lia |].
  exists 0%nat. eexists. split_and!; [reflexivity | done |]. cbn. lia.
Qed.

Lemma closing_returns todo : forall i s, main s = Closing todo -> returns_by i (clock s) s.
Proof.
  induction todo as [| c todo IH]; intros i s Hm; pose proof (Hlag i);
    (eapply (returns_step i _ (clock s + lag env i)); [unfold next_step; rewrite Hm; cbn; unfold finalize_step; cbn; rewrite Hm; reflexivity | lia |]).
  - eapply returns_later; [| by apply finalized_returns]. cbn. lia.
  - eapply returns_later; [| by apply IH]. cbn. lia.
Qed.

(** The loop over the coroutines: the time left grows shorter by ten milliseconds a turn. *)
Lemma finalizing_returns fuel : forall i s d wake, main s = Finalizing d wake -> (Z.to_nat (d - Z.max (clock s) wake) < fuel)%nat ->
  returns_by i (Z.max (Z.max (clock s) wake) (d + 10 ^ 7)) s.
Proof.
  induction fuel as [| fuel IH]; intros i s d wake Hm Hf; [lia |]. pose proof (Hlag i).
  set (s1 := advance (Z.max 0 (wake - clock s) + lag env i) s).
  assert (Ec : clock s1 = Z.max (clock s) wake + lag env i) by (cbn; lia).
  assert (E : exec_all (next_step env i s) s = match finalize_turn adapters (outstanding_at env i) s1 with Some s2 => Some (Returns s2) | None => None end).
  { unfold next_step. rewrite Hm. cbn. unfold finalize_turn. cbn. rewrite Hm. by repeat case_match. }
  unfold finalize_turn in E. replace (main s1) with (Finalizing d wake) in E by (by rewrite <- Hm). rewrite (proj2 (Z.leb_le wake (clock s1))) in E by lia.
  destruct ((clock s1 <? d) && negb (outstanding_at env i =? 0)) eqn:Eb.
  - apply andb_prop in Eb as [Hlt%Z.ltb_lt _]. eapply returns_step; [exact E | | eapply IH; [reflexivity |]]; cbn [clock goto]; lia.
  - eapply returns_step; [exact E | | by eapply closing_returns]. cbn [clock goto]. lia.
Qed.

Lemma stopping_returns todo : forall i s, main s = Stopping todo -> returns_by i (clock s + drain_timeout + 10 ^ 7) s.
Proof.
  induction todo as [| c todo IH]; intros i s Hm; pose proof (Hlag i).
  - eapply returns_step; [unfold next_step; rewrite Hm; cbn; unfold finalize_step; cbn; rewrite Hm; reflexivity | | eapply finalizing_returns; [reflexivity | apply Nat.lt_succ_diag_r]].
    cbn [clock goto advance]. lia.
  - eapply returns_step; [unfold next_step; rewrite Hm; cbn; unfold finalize_step; cbn; rewrite Hm; reflexivity | | by apply IH]. cbn. lia.
Qed.

Abbreviation poll_shutdown := (poll_shutdown cores factories adapters listeners).

(** A look at the sessions: it is over, or there is another one a millisecond later. *)
Lemma poll_returns fuel : forall i n s, main s = Looping -> control_io_ s = [] -> (Z.to_nat (shutdown_deadline_ s - clock s) < fuel)%nat ->
  returns_by i (Z.max (clock s) (shutdown_deadline_ s + 10 ^ 6) + drain_timeout + 10 ^ 7) (poll_shutdown n s).
Proof.
  induction fuel as [| fuel IH]; intros i n s Hm Hq Hf; [lia |].
  assert (Hend : returns_by i (Z.max (clock s) (shutdown_deadline_ s + 10 ^ 6) + drain_timeout + 10 ^ 7) (finalize_begin cores factories adapters listeners s)).
  { eapply returns_later; [| by eapply stopping_returns]. cbn [finalize_begin goto with_timer clock]. lia. }
  unfold Server.poll_shutdown at 1. destruct (n =? 0); [done |]. destruct (Z.leb_spec (shutdown_deadline_ s) (clock s)) as [| Hlt]; [done |].
  pose proof (Hlag i). pose proof (Hlag (S i)). set (s1 := with_timer _ s). set (s2 := advance (Z.max 0 (clock s + 10 ^ 6 - clock s) + lag env i) s1).
  set (s3 := with_control [PollShutdown] (with_timer None s2)). set (s4 := with_control [] (advance (lag env (S i)) s3)).
  assert (E4 : clock s4 = clock s + 10 ^ 6 + lag env i + lag env (S i) /\ shutdown_deadline_ s4 = shutdown_deadline_ s) by (cbn -[Z.pow]; lia).
  pose proof (IH (S (S i)) (sessions_at env (S i)) s4 Hm eq_refl ltac:(lia)) as H4.
  assert (H3 : returns_by (S i) (Z.max (clock s) (shutdown_deadline_ s + 10 ^ 6) + drain_timeout + 10 ^ 7 + lag env i) s3).
  { eapply returns_step; [| | exact H4]; [| lia]. unfold next_step. cbn -[Z.pow Server.poll_shutdown]. rewrite Hm. cbn -[Z.pow Server.poll_shutdown]. rewrite Hm. reflexivity. }
  eapply returns_step; [| | exact H3]; [| lia]. unfold next_step. subst s3 s2 s1. cbn -[Z.pow]. rewrite Hm, Hq. cbn -[Z.pow].
  destruct (Z.leb_spec (clock s + 10 ^ 6) (clock s + Z.max 0 (Z.max 0 (clock s + 10 ^ 6 - clock s) + lag env i))); [by rewrite Hq | lia].
Qed.

(** From the end of the start on. *)
Lemma looping_returns i s : main s = Looping -> stopping_ s = true -> pending s -> returns_by i (clock s + 2 * drain_timeout + 11 * 10 ^ 6) s.
Proof.
  intros Hm Hs Hp. unfold pending in Hp. rewrite Hs in Hp. pose proof (Hlag i). destruct Hp as [[Hq Ht] | (Hd & [[Hq Ht] | (Hq & t & Ht & Hc)])].
  - eapply returns_step; [unfold next_step; rewrite Hm, Hq; cbn -[Z.pow begin_shutdown]; rewrite Hm, Hq; reflexivity | |];
      [| unfold run_handler, begin_shutdown; eapply poll_returns; [done | done | apply Nat.lt_succ_diag_r]]. cbn -[Z.pow]. lia.
  - eapply returns_step; [unfold next_step; rewrite Hm, Hq; cbn -[Z.pow Server.poll_shutdown]; rewrite Hm, Hq; reflexivity | |];
      [| unfold run_handler; eapply poll_returns; [done | done | apply Nat.lt_succ_diag_r]]. cbn -[Z.pow]. lia.
  - pose proof (Hlag (S i)). set (s1 := with_control [PollShutdown] (with_timer None (advance (Z.max 0 (t - clock s) + lag env i) s))).
    set (s2 := with_control [] (advance (lag env (S i)) s1)).
    assert (H2 : returns_by (S i) (clock s + 2 * drain_timeout + 11 * 10 ^ 6 + lag env i) s1).
    { eapply (returns_step _ _ _ s1 (poll_shutdown (sessions_at env (S i)) s2)); [unfold next_step; cbn -[Z.pow Server.poll_shutdown]; rewrite Hm; cbn -[Z.pow Server.poll_shutdown]; rewrite Hm; reflexivity | |];
        [| eapply poll_returns; [done | done | apply Nat.lt_succ_diag_r]]. cbn -[Z.pow]. lia. }
    eapply returns_step; [| | exact H2]; [| lia]. unfold next_step. subst s2 s1. rewrite Hm, Hq, Ht. cbn -[Z.pow]. rewrite Ht.
    destruct (Z.leb_spec t (clock s + Z.max 0 (Z.max 0 (t - clock s) + lag env i))); [by rewrite Hq | lia].
Qed.

End Shutdown.

(** C26: once the server has started and has been told to stop, [run] returns, whatever
    sessions never close, whatever coroutines never end, however long the calls take that
    are made on the way and however late the steps of the shutdown come. The bound is
    twice the drain timeout and eleven milliseconds, besides that time: an adapter or an
    engine whose call does not return holds the shutdown up. *)
Theorem shutdown_completes es s env (Hthrow : RunStep true ∉ es) (Hlen : len es < 2 ^ 32 - 1) (Hlag : forall i, 0 <= lag env i)
    (Hrun : exec_all (Run :: es) fresh_server = Some (Returns s)) (Hstop : stopping_ s = true) (Hup : serving s = true) :
  exists n s', proceed env 0 n s = Some (Returns s') /\ main s' = Returned /\ clock s' <= clock s + 2 * drain_timeout + 11 * 10 ^ 6 + lags env 0 n.
Proof.
  cbn [Server.exec_all] in Hrun. destruct run_life as (s1 & E1 & Hi1 & Hc1). rewrite E1 in Hrun.
  destruct (exec_all_life es s1 (Returns s)) as (s' & [= <-] & Hi & _); [done | done | lia | lia | done |].
  change (returns_by env 0 (clock s + 2 * drain_timeout + 11 * 10 ^ 6) s). unfold life_inv in Hi. unfold serving in Hup. destruct (main s) eqn:Em; try done.
  - apply looping_returns; [done.. |]. apply Hi.
  - eapply returns_later; [| by eapply stopping_returns]. lia.
  - eapply returns_later; [| eapply finalizing_returns; [done | done | apply Nat.lt_succ_diag_r]]. destruct Hi as (_ & _ & _ & Hd & Hw). lia.
  - eapply returns_later; [| by eapply closing_returns]. lia.
  - eapply returns_later; [| by eapply finalized_returns]. lia.
Qed.

End Life.

(** A server of two cores with a service, an adapter and two listeners; [stop] comes
    while it starts and one session stays. *)
Abbreviation small_exec := (exec_all 2 1 1 2 true (5 * 10 ^ 9)).
Definition starts : list event := replicate 31 (RunStep false).
Definition stopped_early : list event := replicate 20 (RunStep false) ++ [Stop] ++ replicate 11 (RunStep false).
Definition finalized : list event := replicate 9 FinalizeStep ++ [FinalizeTurn 0] ++ replicate 8 FinalizeStep ++ [RunReturn].
Definition lived : list event := stopped_early ++ [Control 1; Tick (6 * 10 ^ 9); TimerExpire; Stop; Control 1] ++ finalized ++ [Destroy 0].

Lemma server_lifecycle_witness : exists s, small_exec (Run :: lived) fresh_server = Some (Returns s) /\
  main s = Destroyed /\ forall x, due 2 1 1 2 true x = true -> x ∈ calls s.
Proof.
  destruct (small_exec (Run :: lived) fresh_server) as [o |] eqn:E; [| by vm_compute in E].
  destruct (server_lifecycle 2 1 1 2 true (5 * 10 ^ 9) ltac:(lia) lived o) as (s & -> & _ & _ & _ & Hw & _).
  - by apply (bool_decide_unpack _).
  - by vm_compute.
  - exact E.
  - exists s. assert (Hm : main s = Destroyed) by (vm_compute in E; by injection E as <-). exact (conj eq_refl (conj Hm (Hw (or_intror Hm)))).
Defined.

(** Three sessions never close, seven coroutines never end; each step takes a microsecond. *)
Definition stubborn : environment := mkEnv (λ _, 3) (λ _, 7) (λ _, 1000).

Lemma shutdown_completes_witness : exists s n s', small_exec (Run :: stopped_early) fresh_server = Some (Returns s) /\
  proceed 2 1 1 2 true (5 * 10 ^ 9) stubborn 0 n s = Some (Returns s') /\ main s' = Returned /\ clock s' <= clock s + 2 * (5 * 10 ^ 9) + 11 * 10 ^ 6 + lags stubborn 0 n.
Proof.
  destruct (small_exec (Run :: stopped_early) fresh_server) as [[s |] |] eqn:E; [| by vm_compute in E..].
  destruct (shutdown_completes 2 1 1 2 true (5 * 10 ^ 9) ltac:(lia) stopped_early s stubborn) as (n & s' & H); [| | | exact E | | | exists s, n, s'; exact (conj eq_refl H)].
  - by apply (bool_decide_unpack _).
  - by vm_compute.
  - intros i. cbn. lia.
  - vm_compute in E. by injection E as <-.
  - vm_compute in E. by injection E as <-.
Defined.

(** ** Defects *)

(** A listener whose port cannot be bound throws out of [run] when the engine's threads
    are running already; the destructor then restarts and polls their loops. *)
Lemma failed_listener_undefined : small_exec ([Run] ++ replicate 24 (RunStep false) ++ [RunStep true; Destroy 0]) fresh_server = Some (Throws undefined_behaviour).
Proof. by vm_compute. Qed.

(** [run] forgets that [stop] has been called, but not the handler that it posted: a
    second [stop] posts another, and the destructor shuts down once more. *)
Lemma early_stop_finalizes_twice : exists s,
  small_exec ([Stop; Run] ++ starts ++ [Control 0; Stop] ++ finalized ++ [Destroy 0]) fresh_server = Some (Returns s) /\
  length (filter (.= ServiceStop 0 0) (calls s)) = 2%nat /\ length (filter (.= EngineStop) (calls s)) = 2%nat.
Proof. eexists. split; [vm_compute; reflexivity | by vm_compute]. Qed.
