(* ===== verification/Dispatcher.v ===== *)
(** * Message dispatch and periodic tasks

    [apex::core::MessageDispatcher] (apex_core/src/message_dispatcher.cpp), which
    finds the handler of a message, and [apex::core::PeriodicTaskScheduler]
    (apex_core/src/periodic_task_scheduler.cpp), which runs tasks at an interval on
    one core.

    A handler acts on the session and on the rest of the world [W], also when it
    throws. The dispatcher with a session is an instance of [ConnOps], so that what
    is proved of the read loop holds of it.

    The scheduler's timers are the waits its [steady_timer]s have outstanding. A
    wait is armed, ready (expired, its completion queued) or aborted; [cancel] on a
    timer aborts armed waits and, as documented, not ready ones. What a task does to
    the scheduler is the argument [body]; the storage of its closure is left out. *)

From S2P Require Import Prelude ErrorCode WireHeader RingBuffer FrameCodec Protocol Session ConnectionHandler.

(** ** The dispatcher *)

Module Dispatcher.
Section Dispatcher.
Context {W : Type}.

(** How the coroutine of a handler ends: it returns, or an exception leaves it. *)
Inductive handled : Type := Handled (r : Result unit) | Threw.

Definition Handler : Type := Z -> list Z -> Session * W -> handled * (Session * W).

Record MessageDispatcher : Type := mkDispatcher {
  handlers_ : gmap Z Handler;
  default_handler_ : option Handler;
  metric_dispatched_ : Z;
  metric_exceptions_ : Z;
}.

Definition make_dispatcher : MessageDispatcher := mkDispatcher ∅ None 0 0.

Definition register_handler (msg_id : Z) (handler : Handler) (d : MessageDispatcher) : MessageDispatcher :=
  mkDispatcher (<[msg_id := handler]> (handlers_ d)) (default_handler_ d) (metric_dispatched_ d) (metric_exceptions_ d).

Definition unregister_handler (msg_id : Z) (d : MessageDispatcher) : MessageDispatcher :=
  mkDispatcher (delete msg_id (handlers_ d)) (default_handler_ d) (metric_dispatched_ d) (metric_exceptions_ d).

Definition set_default_handler (handler : Handler) (d : MessageDispatcher) : MessageDispatcher :=
  mkDispatcher (handlers_ d) (Some handler) (metric_dispatched_ d) (metric_exceptions_ d).

Definition clear_default_handler (d : MessageDispatcher) : MessageDispatcher :=
  mkDispatcher (handlers_ d) None (metric_dispatched_ d) (metric_exceptions_ d).

Definition has_handler (msg_id : Z) (d : MessageDispatcher) : bool := bool_decide (is_Some (handlers_ d !! msg_id)).

Definition has_default_handler (d : MessageDispatcher) : bool := match default_handler_ d with Some _ => true | None => false end.

Definition handler_count (d : MessageDispatcher) : Z := Z.of_nat (size (handlers_ d)).

(** Count the dispatch, run the handler, and turn an exception into an error. *)
Definition call_handler (handler : Handler) (msg_id : Z) (payload : list Z) (d : MessageDispatcher) (x : Session * W)
    : Result unit * MessageDispatcher * (Session * W) :=
  let dispatched := u64 (metric_dispatched_ d + 1) in
  match handler msg_id payload x with
  | (Handled r, x) => (r, mkDispatcher (handlers_ d) (default_handler_ d) dispatched (metric_exceptions_ d), x)
  | (Threw, x) =>
      (Err HandlerException, mkDispatcher (handlers_ d) (default_handler_ d) dispatched (u64 (metric_exceptions_ d + 1)), x)
  end.

Definition dispatch (msg_id : Z) (payload : list Z) (d : MessageDispatcher) (x : Session * W)
    : Result unit * MessageDispatcher * (Session * W) :=
  match handlers_ d !! msg_id with
  | None =>
      match default_handler_ d with
      | Some handler => call_handler handler msg_id payload d x
      | None => (Err HandlerNotFound, d, x)
      end
  | Some handler => call_handler handler msg_id payload d x
  end.

End Dispatcher.
Arguments Handler : clear implicits.
Arguments MessageDispatcher : clear implicits.

(** The connection handler over this dispatcher and a session. *)
#[global] Instance dispatcher_conn {W} : ConnOps (MessageDispatcher W * (Session * W)) := {|
  c_is_open s := is_open s.2.1;
  c_close s := (s.1, (close s.2.1, s.2.2));
  c_dispatch s msg_id payload := let '(r, d, x) := dispatch msg_id payload s.1 s.2 in (r, (d, x));
  c_enqueue_write_raw s data := (s.1, ((enqueue_write_raw data s.2.1).2, s.2.2));
|}.

#[global] Instance dispatcher_conn_laws {W} : ConnLaws (MessageDispatcher W * (Session * W)).
Proof. constructor. intros [d [s w]]. apply is_open_close. Qed.

End Dispatcher.
Import Dispatcher.

(** ** Requests over TCP *)

Section Requests.
Context {W : Type} (error_response : Z -> list Z -> Z -> list Z).

(** The handler a message goes to. *)
Definition handler_for (d : MessageDispatcher W) (msg_id : Z) : option (Handler W) :=
  match handlers_ d !! msg_id with Some h => Some h | None => default_handler_ d end.

(** The frames that go into the write queue; one that finds it full is dropped. *)
Definition sends (s : Session) (frames : list (list Z)) : Session := foldl (λ s f, (enqueue_write_raw f s).2) s frames.

(** Handlers that use their session only to put frames into its write queue: how they
    end, the frames, and what becomes of the world. *)
Definition sends_only (d : MessageDispatcher W) (behave : Z -> list Z -> W -> handled * list (list Z) * W) : Prop :=
  forall msg_id h, handler_for d msg_id = Some h ->
    forall payload s w, let '(o, frames, w') := behave msg_id payload w in h msg_id payload (s, w) = (o, (sends s frames, w')).

(** The error frame for a request, if any: a [ServiceError] means that the handler has
    already answered. *)
Definition told (o : handled) : option ErrorCode :=
  match o with
  | Handled (Ok _) => None
  | Handled (Err ServiceError) => None
  | Handled (Err e) => Some e
  | Threw => Some HandlerException
  end.

Record served : Type := mkServed { replies : list (list Z); world : W; calls : Z; throws : Z }.

Definition error_frame (msg_id : Z) (o : handled) : list (list Z) :=
  match told o with Some e => [build_error_frame error_response msg_id e [] 0] | None => [] end.
Definition threw (o : handled) : Z := match o with Threw => 1 | Handled _ => 0 end.

(** A sequence of requests, one after the other. *)
Fixpoint serve (d : MessageDispatcher W) (behave : Z -> list Z -> W -> handled * list (list Z) * W)
    (fs : list (WireHeader * list Z)) (w : W) : served :=
  match fs with
  | [] => mkServed [] w 0 0
  | (h, body) :: fs =>
      match handler_for d (msg_id h) with
      | None =>
          let r := serve d behave fs w in
          mkServed (build_error_frame error_response (msg_id h) HandlerNotFound [] 0 :: replies r) (world r) (calls r) (throws r)
      | Some _ =>
          let '(o, frames, w) := behave (msg_id h) body w in
          let r := serve d behave fs w in
          mkServed (frames ++ error_frame (msg_id h) o ++ replies r) (world r) (calls r + 1) (throws r + threw o)
      end
  end.

Lemma serve_counts d behave fs w : 0 <= throws (serve d behave fs w) <= calls (serve d behave fs w).
Proof.
  revert w. induction fs as [| [h body] fs IH]; intros w; cbn [serve throws calls]; [lia |].
  destruct (handler_for d (msg_id h)); [| apply IH]. destruct (behave (msg_id h) body w) as [[o fr] w']. cbn. specialize (IH w'). destruct o; cbn; lia.
Qed.

(** The dispatcher after its metrics have counted. *)
Definition counted (d : MessageDispatcher W) (n m : Z) : MessageDispatcher W :=
  mkDispatcher (handlers_ d) (default_handler_ d) (u64 (metric_dispatched_ d + n)) (u64 (metric_exceptions_ d + m)).

Lemma sends_app s fs gs : sends s (fs ++ gs) = sends (sends s fs) gs.
Proof. apply foldl_app. Qed.

Lemma enqueue_full data s : is_open s = true ->
  (enqueue_write_raw data s).2 = if max_queue_depth_ s <=? len (write_queue_ s) then s else push_request (mkWriteRequest data None) s.
Proof. intros Ho. unfold enqueue_write_raw, enqueue_write. rewrite Ho. by destruct (_ <=? _). Qed.

Lemma sends_open s fs : is_open s = true -> is_open (sends s fs) = true.
Proof.
  revert s. induction fs as [| f fs IH]; intros s Ho; [done |]. change (is_open (sends ((enqueue_write_raw f s).2) fs) = true). apply IH.
  rewrite enqueue_full by done. by destruct (_ <=? _).
Qed.

(** The frames that find room. *)
Lemma sends_accepted s fs : is_open s = true -> accepted (sends s fs) = accepted s ++ takeZ (max_queue_depth_ s - len (write_queue_ s)) fs.
Proof.
  revert s. induction fs as [| f fs IH]; intros s Ho; [unfold takeZ; by rewrite take_nil, app_nil_r |].
  change (accepted (sends ((enqueue_write_raw f s).2) fs) = accepted s ++ takeZ (max_queue_depth_ s - len (write_queue_ s)) (f :: fs)).
  rewrite enqueue_full by done. destruct (Z.leb_spec (max_queue_depth_ s) (len (write_queue_ s))).
  - rewrite IH by done. unfold takeZ. by rewrite !Z2Nat.nonpos by lia.
  - rewrite IH by done. cbn [accepted push_request write_queue_ max_queue_depth_ wr_data]. rewrite len_app, len_cons, len_nil. unfold takeZ.
    replace (Z.to_nat (max_queue_depth_ s - len (write_queue_ s))) with (S (Z.to_nat (max_queue_depth_ s - (len (write_queue_ s) + (1 + 0))))) by lia. by rewrite <- app_assoc.
Qed.

Lemma serve_counted d n m behave fs w : serve (counted d n m) behave fs w = serve d behave fs w.
Proof.
  revert w. induction fs as [| [h body] fs IH]; intros w; [done |]. cbn [serve]. change (handler_for (counted d n m) (msg_id h)) with (handler_for d (msg_id h)).
  destruct (handler_for d (msg_id h)); [| by rewrite IH]. destruct (behave (msg_id h) body w) as [[o fr] w']. by rewrite IH.
Qed.

Lemma counted_counted d n m n' m' : counted (counted d n m) n' m' = counted d (n + n') (m + m').
Proof. unfold counted. cbn [metric_dispatched_ metric_exceptions_ handlers_ default_handler_]. by rewrite !wrap_add_l, !Z.add_assoc. Qed.

Definition result_of (o : handled) : Result unit := match o with Handled r => r | Threw => Err HandlerException end.

(** The dispatch of one message. *)
Lemma dispatch_sends d behave msg_id payload s w : sends_only d behave -> in_width 64 (metric_exceptions_ d) ->
  dispatch msg_id payload d (s, w) =
  match handler_for d msg_id with
  | None => (Err HandlerNotFound, d, (s, w))
  | Some _ => let '(o, frames, w') := behave msg_id payload w in (result_of o, counted d 1 (threw o), (sends s frames, w'))
  end.
Proof.
  intros Hq He. specialize (Hq msg_id). unfold dispatch, handler_for in *.
  destruct (handlers_ d !! msg_id) as [h |]; [| destruct (default_handler_ d) as [h |]; [| done]].
  all: specialize (Hq h eq_refl payload s w); destruct (behave msg_id payload w) as [[o fr] w']; unfold call_handler; rewrite Hq; destruct o as [r |]; [| done].
  all: unfold counted; cbn [threw]; rewrite Z.add_0_r, (wrap_small _ (metric_exceptions_ d)) by done; done.
Qed.

(** The error frame of the read loop. *)
Lemma answer_sends msg_id o (d : MessageDispatcher W) s w :
  answer_error error_response (result_of o) msg_id (d, (s, w)) = (d, (sends s (error_frame msg_id o), w)).
Proof. unfold error_frame. destruct o as [[u | e] |]; [done | | done]. by destruct e. Qed.

Lemma deliver_served d behave fs s w :
  sends_only d behave -> in_width 64 (metric_dispatched_ d) -> in_width 64 (metric_exceptions_ d) -> is_open s = true ->
  let r := serve d behave fs w in
  deliver error_response (d, (s, w)) fs = (counted d (calls r) (throws r), (sends s (replies r), world r)).
Proof.
  intros Hq Hd He Ho. revert d s w Hq Hd He Ho. induction fs as [| [h body] fs IH]; intros d s w Hq Hd He Ho.
  { unfold counted. cbn. rewrite !Z.add_0_r, !wrap_small by done. by destruct d. }
  cbn [deliver serve]. cbn [c_dispatch dispatcher_conn fst snd]. rewrite (dispatch_sends d behave) by done. destruct (handler_for d (msg_id h)).
  - destruct (behave (msg_id h) body w) as [[o fr] w'] eqn:Eb. cbn [replies world calls throws]. rewrite answer_sends. cbn [c_is_open dispatcher_conn fst snd].
    set (d1 := counted d 1 (threw o)). assert (Ho1 : is_open (sends (sends s fr) (error_frame (msg_id h) o)) = true) by (by repeat apply sends_open). rewrite Ho1.
    rewrite (IH d1) by (done || (apply wrap_range; lia)). unfold d1 at 2 3 4 5. rewrite !serve_counted, !sends_app. unfold d1. rewrite counted_counted. do 2 f_equal; lia.
  - change (Err HandlerNotFound) with (result_of (Handled (Err HandlerNotFound))). rewrite answer_sends. cbn [c_is_open dispatcher_conn fst snd replies world calls throws].
    rewrite sends_open by done. by rewrite IH by (try apply sends_open; done).
Qed.

End Requests.

(** C3: requests sent over TCP are served once each, in order, through the read
    loop, the dispatcher and the session's write queue, if memory can be had and the
    handlers use their session only to put frames into its write queue. A request goes
    to the handler registered for its id, else to the default handler. What its handler
    sends goes into the write queue, followed by one error frame if there is no handler,
    if it throws, or if it reports an error other than [ServiceError], by which it says
    that it has answered itself; a frame that finds the queue full, as nothing is written
    out meanwhile, is dropped. A handler that throws does not disturb the requests after
    it, the metrics count the calls and the exceptions, the session stays open and no byte
    is left over. *)
Theorem tcp_requests_served {W M} error_response malloc_ok fill touch evs fs (d : MessageDispatcher W) behave s w rb (m : M) l
    (Hm : forall n, malloc_ok n = true) (Hwf : wf rb) (Hempty : contents rb = []) (Hopen : is_open s = true)
    (Hd : in_width 64 (metric_dispatched_ d)) (He : in_width 64 (metric_exceptions_ d)) (Hq : sends_only d behave)
    (Hfs : Forall (fun f => wf_frame f.1 f.2) fs)
    (Hrun : read_while (P := TcpBinaryProtocol) error_response malloc_ok fill touch evs (frames_bytes fs) (d, (s, w)) rb m = Some (Returns l))
    (Hall : l_stream l = []) :
  let r := serve error_response d behave fs w in
  let '(d', (s', w')) := l_session l in
  accepted s' = accepted s ++ takeZ (max_queue_depth_ s - len (write_queue_ s)) (replies r) /\ w' = world r /\ is_open s' = true /\
  metric_dispatched_ d' = u64 (metric_dispatched_ d + calls r) /\ metric_exceptions_ d' = u64 (metric_exceptions_ d + throws r) /\
  contents (l_buf l) = [].
Proof.
  destruct (read_while_spec (H := TcpBinaryProtocol) error_response malloc_ok fill Hm touch evs (frames_bytes fs) (d, (s, w)) (d, (s, w)) rb m [])
    as (l' & more & E & Hwl & Hst & Hc & Hs); [apply _ | done | exact Hopen | exact Hopen | by rewrite pbytes_step, p_next_nil, Hempty |].
  rewrite Hrun in E. injection E as <-. rewrite Hall, app_nil_r in Hst. subst more. rewrite app_nil_l in *.
  destruct (tcp_deliver (H := dispatcher_conn) error_response (d, (s, w)) fs Hopen Hfs) as [E1 E2].
  pose proof (deliver_served error_response d behave fs s w Hq Hd He Hopen) as Hdel. cbv zeta in Hdel.
  assert (Ho : is_open (sends s (replies (serve error_response d behave fs w))) = true) by (by apply sends_open).
  rewrite E1, Hdel in Hs. rewrite Hdel in E2. specialize (E2 Ho). rewrite E2 in Hc.
  destruct Hs as [Hs | (_ & _ & _ & Hs)]; [| pose proof (capacity_pos _ Hwl); rewrite Hc, len_nil in Hs; lia].
  rewrite Hs. cbv zeta. split_and!; try done. by apply sends_accepted.
Qed.

(** A request that is answered, one without a handler and one whose handler throws; the
    queue has room for three of the four frames. *)
Lemma tcp_requests_served_witness :
  let behave (mid : Z) (_ : list Z) (n : Z) := (if mid =? 7 then Handled (Ok tt) else Threw, if mid =? 7 then [[mid]] else [], n + mid) in
  let h : Handler Z := λ mid body x, ((behave mid body x.2).1.1, (sends x.1 (behave mid body x.2).1.2, (behave mid body x.2).2)) in
  let d := register_handler 9 h (register_handler 7 h make_dispatcher) in
  let fs := [(mkWireHeader 2 0 7 1 0, [1]); (mkWireHeader 2 0 8 0 0, []); (mkWireHeader 2 0 9 0 0, []); (mkWireHeader 2 0 7 0 0, [])] in
  exists rb l, RingBuffer.make (fun _ => true) 0 64 = Returns rb /\
    read_while (P := TcpBinaryProtocol) (fun c _ _ => [c]) (fun _ => true) 0 (Z.add 1) [ReadSome 20; ReadSome 9; ReadSome 40]
      (frames_bytes fs) (d, (make 3, 0)) rb 0 = Some (Returns l) /\
    let '(d', (s', w')) := l_session l in
    len (accepted s') = 3 /\ w' = 23 /\ metric_dispatched_ d' = 3 /\ metric_exceptions_ d' = 1.
Proof.
  intros behave h d fs. destruct (RingBuffer.make (fun _ => true) 0 64) as [rb |] eqn:E; [| by vm_compute in E].
  destruct (make_spec _ _ 64 _ ltac:(unfold in_width; lia) E) as (Hwf & Hc & _).
  exists rb. assert (Hq : sends_only d behave).
  { intros mid h0 Hh body s w. unfold handler_for, d, register_handler in Hh. cbn [handlers_ default_handler_ make_dispatcher] in Hh.
    destruct (decide (mid = 9)) as [-> | ]; [rewrite lookup_insert_eq in Hh; by injection Hh as <- |].
    rewrite lookup_insert_ne in Hh by done. destruct (decide (mid = 7)) as [-> | ]; [rewrite lookup_insert_eq in Hh; by injection Hh as <- |].
    rewrite lookup_insert_ne, lookup_empty in Hh by done. done. }
  assert (Hl : exists l, read_while (P := TcpBinaryProtocol) (fun c _ _ => [c]) (fun _ => true) 0 (Z.add 1) [ReadSome 20; ReadSome 9; ReadSome 40]
      (frames_bytes fs) (d, (make 3, 0)) rb 0 = Some (Returns l) /\ l_stream l = []).
  { vm_compute in E. injection E as <-. eexists. split; vm_compute; reflexivity. }
  destruct Hl as (l & Hrun & Hall). exists l. split; [done |]. split; [exact Hrun |].
  pose proof (tcp_requests_served (fun c _ _ => [c]) (fun _ => true) 0 (Z.add 1) [ReadSome 20; ReadSome 9; ReadSome 40] fs d behave (make 3) 0 rb 0 l) as H.
  assert (Hfs : Forall (fun f => wf_frame f.1 f.2) fs) by (repeat constructor; cbn; unfold in_width, len, MAX_BODY_SIZE; cbn; lia).
  specialize (H ltac:(done) Hwf Hc eq_refl ltac:(done) ltac:(done) Hq Hfs Hrun Hall). cbv zeta in H.
  destruct (l_session l) as [d' [s' w']]. destruct H as (-> & -> & _ & -> & -> & _). split_and!; vm_compute; reflexivity.
Defined.

(** ** Periodic tasks *)

Module Scheduler.

Inductive wait_state : Type := Armed | Ready | Aborted.
#[global] Instance wait_state_eq_dec : EqDecision wait_state.
Proof. solve_decision. Defined.

(** An outstanding [async_wait] on the timer of a task. *)
Record Wait : Type := mkWait { w_handle : Z; w_state : wait_state; w_due : Z }.

Record TaskEntry : Type := mkTask { task : Z; interval : Z; cancelled : bool }.

(** The members, the waits on the timers, the time, and two records of what
    happened: the number of handles issued and the runs, latest first. *)
Record PeriodicTaskScheduler : Type := mkScheduler {
  tasks_ : gmap Z TaskEntry;
  next_handle_ : Z;
  waits : list Wait;
  now : Z;
  issued : Z;
  runs : list (Z * Z);
}.

Definition make_scheduler (start : Z) : PeriodicTaskScheduler := mkScheduler ∅ 1 [] start 0 [].

Definition with_tasks (ts : gmap Z TaskEntry) (s : PeriodicTaskScheduler) : PeriodicTaskScheduler :=
  mkScheduler ts (next_handle_ s) (waits s) (now s) (issued s) (runs s).
Definition with_waits (ws : list Wait) (s : PeriodicTaskScheduler) : PeriodicTaskScheduler :=
  mkScheduler (tasks_ s) (next_handle_ s) ws (now s) (issued s) (runs s).

(** [timer->cancel()] on the timers of the handles that satisfy [p]. *)
Definition abort (p : Z -> bool) (w : Wait) : Wait :=
  match w_state w with
  | Armed => if p (w_handle w) then mkWait (w_handle w) Aborted (w_due w) else w
  | Ready | Aborted => w
  end.
Definition cancel_timers (p : Z -> bool) (s : PeriodicTaskScheduler) : PeriodicTaskScheduler := with_waits (abort p <$> waits s) s.

(** [expires_after] cancels what waits on the timer; [async_wait] adds a wait. *)
Definition schedule_next (handle : Z) (s : PeriodicTaskScheduler) : PeriodicTaskScheduler :=
  match tasks_ s !! handle with
  | None => s
  | Some entry =>
      let s := cancel_timers (Z.eqb handle) s in
      with_waits (waits s ++ [mkWait handle Armed (now s + interval entry)]) s
  end.

Definition schedule (interval task : Z) (s : PeriodicTaskScheduler) : Z * PeriodicTaskScheduler :=
  let handle := next_handle_ s in
  let s := mkScheduler (<[handle := mkTask task interval false]> (tasks_ s)) (u64 (handle + 1)) (waits s) (now s) (issued s + 1) (runs s) in
  (handle, schedule_next handle s).

Definition cancel (handle : Z) (s : PeriodicTaskScheduler) : PeriodicTaskScheduler :=
  match tasks_ s !! handle with
  | Some _ => with_tasks (delete handle (tasks_ s)) (cancel_timers (Z.eqb handle) s)
  | None => s
  end.

Definition stop_all (s : PeriodicTaskScheduler) : PeriodicTaskScheduler :=
  with_tasks ∅ (cancel_timers (λ h, bool_decide (is_Some (tasks_ s !! h))) s).

(** What a task, or the code around, does to the scheduler. *)
Inductive op : Type := OpSchedule (interval task : Z) | OpCancel (handle : Z) | OpStopAll.

Definition run_op (o : op) (s : PeriodicTaskScheduler) : PeriodicTaskScheduler :=
  match o with
  | OpSchedule i t => (schedule i t s).2
  | OpCancel h => cancel h s
  | OpStopAll => stop_all s
  end.

Section Run.
(** The operations of a task; whether it throws after them makes no difference. *)
Context (body : Z -> list op).

(** The completion of the wait of [schedule_next], taken out of the list. *)
Definition on_wait (w : Wait) (s : PeriodicTaskScheduler) : option PeriodicTaskScheduler :=
  match w_state w with
  | Armed => None
  | Aborted => Some s
  | Ready =>
      match tasks_ s !! w_handle w with
      | None => Some s
      | Some entry =>
          if cancelled entry then Some s
          else
            let s := mkScheduler (tasks_ s) (next_handle_ s) (waits s) (now s) (issued s) ((w_handle w, now s) :: runs s) in
            let s := foldl (λ s o, run_op o s) s (body (task entry)) in
            Some (schedule_next (w_handle w) s)
      end
  end.

Inductive event : Type :=
| Call (o : op)
| Elapse (dt : Z)
| Expire (i : nat)
| Complete (i : nat).

Definition exec (e : event) (s : PeriodicTaskScheduler) : option PeriodicTaskScheduler :=
  match e with
  | Call o => Some (run_op o s)
  | Elapse dt => if 0 <=? dt then Some (mkScheduler (tasks_ s) (next_handle_ s) (waits s) (now s + dt) (issued s) (runs s)) else None
  | Expire i =>
      match waits s !! i with
      | Some w =>
          match w_state w with
          | Armed => if w_due w <=? now s then Some (with_waits (<[i := mkWait (w_handle w) Ready (w_due w)]> (waits s)) s) else None
          | Ready | Aborted => None
          end
      | None => None
      end
  | Complete i =>
      match waits s !! i with
      | Some w => on_wait w (with_waits (delete i (waits s)) s)
      | None => None
      end
  end.

Fixpoint exec_all (es : list event) (s : PeriodicTaskScheduler) : option PeriodicTaskScheduler :=
  match es with [] => Some s | e :: es => exec e s ≫= exec_all es end.

End Run.
End Scheduler.
Import Scheduler.

(** A wait that will complete without error. *)
Definition alive (h : Z) (w : Wait) : bool := (w_handle w =? h) && bool_decide (w_state w <> Aborted).
Definition live (h : Z) (ws : list Wait) : nat := length (filter (λ w, alive h w = true) ws).

Lemma abort_handle p w : w_handle (abort p w) = w_handle w.
Proof. unfold abort. destruct (w_state w); [destruct (p _) |..]; done. Qed.

Lemma abort_due p w : w_due (abort p w) = w_due w.
Proof. unfold abort. destruct (w_state w); [destruct (p _) |..]; done. Qed.

Lemma abort_state p w : w_state (abort p w) = match w_state w with Armed => if p (w_handle w) then Aborted else Armed | st => st end.
Proof. unfold abort. destruct (w_state w) eqn:E; [destruct (p _) |..]; done. Qed.

Lemma alive_abort p h w : alive h (abort p w) = true -> alive h w = true.
Proof. unfold alive. rewrite abort_handle, abort_state, !andb_true_iff, !bool_decide_eq_true. intros [Hh Hs]. split; [done |]. destruct (w_state w); congruence. Qed.

Lemma live_app h a b : live h (a ++ b) = (live h a + live h b)%nat.
Proof. unfold live. by rewrite filter_app, length_app. Qed.

Lemma live_armed h k due : live k [mkWait h Armed due] = if h =? k then 1%nat else 0%nat.
Proof. unfold live, alive. rewrite filter_cons. cbn [w_handle w_state]. by destruct (h =? k). Qed.

Lemma live_0 h ws : live h ws = 0%nat <-> forall w, w ∈ ws -> alive h w = false.
Proof.
  unfold live. rewrite length_zero_iff_nil. split.
  - intros E w Hw. destruct (alive h w) eqn:Ea; [| done]. assert (w ∈ filter (λ w, alive h w = true) ws) as Hf by (by apply list_elem_of_filter).
    rewrite E in Hf. by apply not_elem_of_nil in Hf.
  - intros Hw. destruct (filter _ ws) as [| w l] eqn:E; [done |]. assert (w ∈ filter (λ w, alive h w = true) ws) as Hf by (rewrite E; left).
    apply list_elem_of_filter in Hf as [Ha Hi]. by rewrite Hw in Ha.
Qed.

Lemma live_abort p h ws : p h = false -> live h (abort p <$> ws) = live h ws.
Proof.
  intros Hp. unfold live. induction ws as [| w ws IH]; [done |]. cbn [fmap list_fmap]. rewrite !filter_cons.
  assert (alive h (abort p w) = alive h w) as ->.
  { unfold alive. rewrite abort_handle, abort_state. destruct (Z.eqb_spec (w_handle w) h) as [-> |]; [rewrite Hp; by destruct (w_state w) | done]. }
  destruct (decide _); cbn; by rewrite IH.
Qed.

Lemma live_delete h i w ws : ws !! i = Some w -> live h ws = (live h (delete i ws) + if alive h w then 1 else 0)%nat.
Proof.
  intros Hi. rewrite <- (take_drop_middle _ _ _ Hi) at 1. rewrite delete_take_drop, !live_app. unfold live at 2. rewrite filter_cons.
  destruct (alive h w); [rewrite decide_True by done | rewrite decide_False by done]; unfold live; cbn; lia.
Qed.

Lemma live_replace h i w w' ws : ws !! i = Some w -> alive h w' = alive h w -> live h (<[i := w']> ws) = live h ws.
Proof.
  intros Hi Ha. rewrite <- (take_drop_middle _ _ _ Hi) at 2. rewrite insert_take_drop by (by eapply lookup_lt_Some).
  rewrite !live_app. f_equal. unfold live. rewrite !filter_cons, Ha. by destruct (decide _).
Qed.

(** The times at which a task ran, latest first. *)
Definition times (h : Z) (rs : list (Z * Z)) : list Z := (filter (λ r, r.1 = h) rs).*2.

(** [x] are the tasks without a wait: the one being scheduled, and the one whose
    body is running. *)
Record sched_inv (x : list Z) (s : PeriodicTaskScheduler) : Prop := {
  si_next : 0 <= issued s /\ next_handle_ s = issued s + 1;
  si_tasks h e : tasks_ s !! h = Some e -> 1 <= h <= issued s /\ cancelled e = false;
  si_waits w : w ∈ waits s -> 1 <= w_handle w <= issued s;
  si_live h : is_Some (tasks_ s !! h) -> live h (waits s) = if decide (h ∈ x) then 0%nat else 1%nat;
  si_without h : h ∈ x -> h <= issued s;
  si_armed w : w ∈ waits s -> w_state w = Armed -> is_Some (tasks_ s !! w_handle w);
  si_ready w : w ∈ waits s -> w_state w = Ready -> w_due w <= now s;
  si_runs h t : (h, t) ∈ runs s -> 1 <= h <= issued s /\ t <= now s;
  si_due h e w t : tasks_ s !! h = Some e -> w ∈ waits s -> alive h w = true -> (h, t) ∈ runs s -> t + interval e <= w_due w;
  si_gap h e : tasks_ s !! h = Some e -> ForallOrdPairs (λ later earlier, earlier + interval e <= later) (times h (runs s));
}.

Ltac sched_simpl := cbn [tasks_ next_handle_ waits now issued runs with_tasks with_waits cancel_timers].

Lemma sched_make_inv start : sched_inv [] (make_scheduler start).
Proof. split; cbn; try done; intros; try (by apply not_elem_of_nil in H); try (rewrite lookup_empty in *; done). Qed.

(** Cancelling the timers of tasks that are then removed. *)
Lemma remove_tasks_inv x (p : Z -> bool) (ts : gmap Z TaskEntry) s : sched_inv x s -> (forall h, ts !! h = if p h then None else tasks_ s !! h) ->
  sched_inv x (with_tasks ts (cancel_timers p s)).
Proof.
  intros [Hn Ht Hw Hl Hx Ha Hr Hru Hd Hg] Hts.
  assert (Hin : forall h e, ts !! h = Some e -> p h = false /\ tasks_ s !! h = Some e) by (intros h e; rewrite Hts; destruct (p h); done).
  split; sched_simpl; try done.
  - intros h e He. apply Hin in He as [_ He]. eauto.
  - intros w (w0 & -> & H0)%list_elem_of_fmap. rewrite abort_handle. auto.
  - intros h [e He]. apply Hin in He as [Hp He]. rewrite live_abort by done. eauto.
  - intros w (w0 & -> & H0)%list_elem_of_fmap. rewrite abort_handle, abort_state, Hts. intros Hs.
    destruct (w_state w0) eqn:E; [| done..]. destruct (p (w_handle w0)); [done |]. auto.
  - intros w (w0 & -> & H0)%list_elem_of_fmap. rewrite abort_due, abort_state. intros Hs. apply Hr; [done |]. destruct (w_state w0); [destruct (p _) |..]; done.
  - intros h e w t He (w0 & -> & H0)%list_elem_of_fmap Hal. rewrite abort_due. apply Hin in He as [_ He]. apply alive_abort in Hal. eauto.
  - intros h e He. apply Hin in He as [_ He]. eauto.
Qed.

Lemma cancel_inv x h s : sched_inv x s -> sched_inv x (cancel h s).
Proof.
  intros Hi. unfold cancel. destruct (tasks_ s !! h) as [e |] eqn:E; [| done]. apply remove_tasks_inv; [done |].
  intros k. destruct (Z.eqb_spec h k) as [-> |]; [apply lookup_delete_eq | by apply lookup_delete_ne].
Qed.

Lemma stop_all_inv x s : sched_inv x s -> sched_inv x (stop_all s).
Proof.
  intros Hi. unfold stop_all. apply remove_tasks_inv; [done |]. intros k. rewrite lookup_empty.
  case_bool_decide as E; [done |]. by apply eq_None_not_Some in E.
Qed.

Lemma schedule_next_inv x h s : sched_inv (h :: x) s -> h ∉ x -> sched_inv x (schedule_next h s).
Proof.
  intros [Hn Ht Hw Hl Hx Ha Hr Hru Hd Hg] Hhx. unfold schedule_next.
  assert (Hother : forall k, k <> h -> is_Some (tasks_ s !! k) -> live k (waits s) = if decide (k ∈ x) then 0%nat else 1%nat).
  { intros k Hk Hs. rewrite (Hl k Hs). destruct (decide (k ∈ h :: x)) as [E | E], (decide (k ∈ x)) as [E' | E']; try done.
    - by apply elem_of_cons in E as [-> |].
    - destruct E. by right. }
  destruct (tasks_ s !! h) as [e |] eqn:Eh.
  2:{ split; try done; [| intros k Hk; apply Hx; by right]. intros k Hk. apply Hother; [| done]. intros ->. rewrite Eh in Hk. by destruct Hk. }
  assert (H0 : live h (waits s) = 0%nat) by (rewrite Hl by (by rewrite Eh); apply decide_True; left).
  rewrite live_0 in H0. split; sched_simpl; try done.
  - intros w [(w0 & -> & Hw0)%list_elem_of_fmap | ->%list_elem_of_singleton]%elem_of_app; [rewrite abort_handle; auto |]. cbn. by destruct (Ht _ _ Eh).
  - intros k Hk. rewrite live_app, live_armed. destruct (Z.eqb_spec h k) as [-> | Hne].
    + rewrite (decide_False (P := k ∈ x)) by done.
      assert (live k (abort (Z.eqb k) <$> waits s) = 0%nat) as ->; [| done]. apply live_0. intros w (w0 & -> & Hw0)%list_elem_of_fmap.
      destruct (alive k (abort (Z.eqb k) w0)) eqn:E; [| done]. apply alive_abort in E. by rewrite H0 in E.
    + rewrite live_abort by (by apply Z.eqb_neq). rewrite Nat.add_0_r. by apply Hother.
  - intros k Hk. apply Hx. by right.
  - intros w [(w0 & -> & Hw0)%list_elem_of_fmap | ->%list_elem_of_singleton]%elem_of_app; [| cbn; by rewrite Eh].
    rewrite abort_handle, abort_state. intros Hs. destruct (w_state w0) eqn:E; [| done..]. auto.
  - intros w [(w0 & -> & Hw0)%list_elem_of_fmap | ->%list_elem_of_singleton]%elem_of_app; [| done].
    rewrite abort_due, abort_state. intros Hs. apply Hr; [done |]. destruct (w_state w0); [destruct (Z.eqb _ _) |..]; done.
  - intros k e' w t He' [(w0 & -> & Hw0)%list_elem_of_fmap | ->%list_elem_of_singleton]%elem_of_app Hal Hrt.
    + rewrite abort_due. apply alive_abort in Hal. eauto.
    + apply andb_true_iff in Hal as [Hal _]. cbn in Hal. apply Z.eqb_eq in Hal as <-. rewrite Eh in He'. injection He' as <-.
      cbn. destruct (Hru _ _ Hrt). lia.
Qed.

Lemma schedule_inv x i t s : sched_inv x s -> issued s < 2 ^ 64 - 2 -> sched_inv x (schedule i t s).2.
Proof.
  intros [[Hn0 Hn] Ht Hw Hl Hx Ha Hr Hru Hd Hg] Hb. unfold schedule. cbn [snd].
  assert (Hfresh : tasks_ s !! (issued s + 1) = None) by (destruct (tasks_ s !! (issued s + 1)) eqn:E; [apply Ht in E; lia | done]).
  assert (Hnew : forall k, is_Some (<[issued s + 1 := mkTask t i false]> (tasks_ s) !! k) -> k = issued s + 1 \/ k <> issued s + 1 /\ is_Some (tasks_ s !! k)).
  { intros k. destruct (decide (k = issued s + 1)) as [-> | Hk]; [by left |]. rewrite lookup_insert_ne by done. by right. }
  apply schedule_next_inv; [| intros Hin; apply Hx in Hin; lia].
  rewrite Hn. split; sched_simpl; try done.
  - rewrite wrap_small by (unfold in_width; lia). lia.
  - intros k e. destruct (decide (k = issued s + 1)) as [-> | Hk]; [rewrite lookup_insert_eq; intros [= <-]; split; [lia | done] |].
    rewrite lookup_insert_ne by done. intros He. destruct (Ht _ _ He). split; [lia | done].
  - intros w Hin. specialize (Hw w Hin). lia.
  - intros k Hk. apply Hnew in Hk as [-> | [Hne Hk]].
    + rewrite decide_True by left. apply live_0. intros w Hin. specialize (Hw w Hin). unfold alive. destruct (Z.eqb_spec (w_handle w) (issued s + 1)); [lia | done].
    + rewrite (Hl k Hk). destruct (decide (k ∈ x)); [rewrite decide_True by (by right); done |]. rewrite decide_False; [done |]. intros [-> |]%elem_of_cons; done.
  - intros k [-> | Hk]%elem_of_cons; [lia |]. specialize (Hx k Hk). lia.
  - intros w Hin Hs. destruct (decide (w_handle w = issued s + 1)) as [-> | Hne]; [rewrite lookup_insert_eq; by eexists |]. rewrite lookup_insert_ne by done. auto.
  - intros k tm Hin. destruct (Hru _ _ Hin). lia.
  - intros k e w tm. destruct (decide (k = issued s + 1)) as [-> | Hk]; [intros _ _ _ Hin; destruct (Hru _ _ Hin); lia |].
    rewrite lookup_insert_ne by done. eauto.
  - intros k e. destruct (decide (k = issued s + 1)) as [-> | Hk]; [| rewrite lookup_insert_ne by done; eauto].
    intros _. assert (times (issued s + 1) (runs s) = []) as ->; [| constructor].
    unfold times. destruct (filter _ (runs s)) as [| [h0 t0] l] eqn:E; [done |].
    assert ((h0, t0) ∈ filter (λ r, r.1 = issued s + 1) (runs s)) as Hf by (rewrite E; left). apply list_elem_of_filter in Hf as [Hh Hin].
    cbn in Hh. destruct (Hru _ _ Hin). lia.
Qed.

Lemma schedule_next_issued h s : issued (schedule_next h s) = issued s.
Proof. unfold schedule_next. by destruct (tasks_ s !! h). Qed.

Lemma run_op_issued o s : issued (run_op o s) = issued s + match o with OpSchedule _ _ => 1 | _ => 0 end.
Proof.
  destruct o; cbn [run_op]; [unfold schedule; cbn [snd]; by rewrite schedule_next_issued | | unfold stop_all; sched_simpl; lia].
  unfold cancel. destruct (tasks_ s !! handle); sched_simpl; lia.
Qed.

Lemma run_op_inv x o s : sched_inv x s -> issued (run_op o s) < 2 ^ 64 - 1 -> sched_inv x (run_op o s).
Proof.
  intros Hi Hb. rewrite run_op_issued in Hb. destruct o; cbn [run_op]; [apply schedule_inv; [done | lia] | by apply cancel_inv | by apply stop_all_inv].
Qed.

Lemma run_ops_issued os s : issued s <= issued (foldl (λ s o, run_op o s) s os).
Proof.
  revert s. induction os as [| o os IH]; intros s; cbn; [lia |]. specialize (IH (run_op o s)). rewrite run_op_issued in IH. destruct o; lia.
Qed.

Lemma run_ops_inv x os s : sched_inv x s -> issued (foldl (λ s o, run_op o s) s os) < 2 ^ 64 - 1 -> sched_inv x (foldl (λ s o, run_op o s) s os).
Proof.
  revert s. induction os as [| o os IH]; intros s Hi Hb; cbn in *; [done |]. apply IH; [| done]. apply run_op_inv; [done |].
  pose proof (run_ops_issued os (run_op o s)). lia.
Qed.

Lemma delete_wait_inv x i w s : sched_inv [] s -> waits s !! i = Some w ->
  (forall h, is_Some (tasks_ s !! h) -> alive h w = bool_decide (h ∈ x)) -> (forall h, h ∈ x -> h <= issued s) ->
  sched_inv x (with_waits (delete i (waits s)) s).
Proof.
  intros [Hn Ht Hw Hl Hx Ha Hr Hru Hd Hg] Hi Halive Hxb.
  assert (Hin : forall w', w' ∈ delete i (waits s) -> w' ∈ waits s).
  { intros w'. rewrite delete_take_drop. rewrite <- (take_drop_middle _ _ _ Hi) at 3. rewrite !elem_of_app, elem_of_cons. naive_solver. }
  split; sched_simpl; eauto.
  intros h Hh. pose proof (live_delete h i w _ Hi) as E. rewrite (Hl h Hh), (Halive h Hh) in E.
  rewrite decide_False in E by (apply not_elem_of_nil). case_bool_decide; [rewrite decide_True by done | rewrite decide_False by done]; lia.
Qed.

(** The run of a task is recorded before its body starts. *)
Definition begin_run (i : nat) (w : Wait) (s : PeriodicTaskScheduler) : PeriodicTaskScheduler :=
  mkScheduler (tasks_ s) (next_handle_ s) (delete i (waits s)) (now s) (issued s) ((w_handle w, now s) :: runs s).

Lemma begin_run_inv i w e s : sched_inv [] s -> waits s !! i = Some w -> w_state w = Ready -> tasks_ s !! w_handle w = Some e ->
  sched_inv [w_handle w] (begin_run i w s).
Proof.
  intros Hinv Hi Es Et. destruct (si_tasks _ _ Hinv _ _ Et) as [Hrange Hc].
  assert (Hwin : w ∈ waits s) by (by eapply list_elem_of_lookup_2).
  assert (Halw : alive (w_handle w) w = true) by (unfold alive; rewrite Z.eqb_refl, Es; done).
  destruct (delete_wait_inv [w_handle w] i w s Hinv Hi) as [Hn Ht Hw Hl Hx Ha Hr Hru Hd Hg].
  { intros h _. unfold alive. rewrite Es, (bool_decide_true (Ready <> Aborted)), andb_true_r by done.
    destruct (Z.eqb_spec (w_handle w) h) as [<- |]; case_bool_decide as E; rewrite list_elem_of_singleton in E; congruence. }
  { intros h ->%list_elem_of_singleton. lia. }
  unfold begin_run. split; sched_simpl; cbn [tasks_ waits issued runs now with_waits] in *; try done.
  - intros h t [[= -> ->] | Hin]%elem_of_cons; [lia | eauto].
  - intros h e' w' t He' Hw' Hal' [[= -> ->] | Hin]%elem_of_cons; [| eauto].
    assert (live (w_handle w) (delete i (waits s)) = 0%nat) as H0 by (rewrite Hl by (by eexists); apply decide_True; left).
    rewrite live_0 in H0. by rewrite H0 in Hal'.
  - intros h e' He'. unfold times. rewrite filter_cons. cbn [fst]. destruct (decide (w_handle w = h)) as [<- |]; [| by apply Hg].
    cbn [fmap list_fmap snd]. constructor; [| by apply Hg]. rewrite Et in He'. injection He' as <-. apply Forall_forall.
    intros t ([h0 t0] & -> & [Hh0 Hin]%list_elem_of_filter)%list_elem_of_fmap. cbn in Hh0 |- *. subst h0.
    pose proof (si_due _ _ Hinv _ _ _ _ Et Hwin Halw Hin). pose proof (si_ready _ _ Hinv _ Hwin Es). lia.
Qed.

Section Sched.
Context (body : Z -> list op).

(** The completion of a wait of a scheduler in order. *)
Lemma on_wait_cases i w s s' : sched_inv [] s -> waits s !! i = Some w -> on_wait body w (with_waits (delete i (waits s)) s) = Some s' ->
  (s' = with_waits (delete i (waits s)) s /\ (w_state w = Aborted \/ w_state w = Ready /\ tasks_ s !! w_handle w = None)) \/
  (exists e, w_state w = Ready /\ tasks_ s !! w_handle w = Some e /\
     s' = schedule_next (w_handle w) (foldl (λ s o, run_op o s) (begin_run i w s) (body (task e)))).
Proof.
  intros Hinv Hi E. unfold on_wait in E. destruct (w_state w) eqn:Es; [done | | injection E as <-; left; auto].
  cbn [tasks_ with_waits] in E. destruct (tasks_ s !! w_handle w) as [e |] eqn:Et; [| injection E as <-; left; auto].
  destruct (si_tasks _ _ Hinv _ _ Et) as [_ Hc]. rewrite Hc in E. injection E as <-. right. by exists e.
Qed.

Lemma on_wait_inv i w s s' : sched_inv [] s -> waits s !! i = Some w -> on_wait body w (with_waits (delete i (waits s)) s) = Some s' ->
  issued s' < 2 ^ 64 - 1 -> sched_inv [] s'.
Proof.
  intros Hinv Hi E Hb. destruct (on_wait_cases i w s s' Hinv Hi E) as [[-> Hc] | (e & Es & Et & ->)].
  - apply (delete_wait_inv _ _ w); [done.. | | by intros h ?%not_elem_of_nil]. intros h Hh. unfold alive.
    destruct Hc as [Es | [Es Et]]; rewrite Es, ?andb_false_r; [done |].
    destruct (Z.eqb_spec (w_handle w) h) as [<- |]; [by rewrite Et in Hh; destruct Hh | done].
  - rewrite schedule_next_issued in Hb. apply schedule_next_inv; [| apply not_elem_of_nil]. apply run_ops_inv; [| exact Hb]. by eapply begin_run_inv.
Qed.

Lemma expire_inv i w s : sched_inv [] s -> waits s !! i = Some w -> w_state w = Armed -> w_due w <= now s ->
  sched_inv [] (with_waits (<[i := mkWait (w_handle w) Ready (w_due w)]> (waits s)) s).
Proof.
  intros [Hn Ht Hw Hl Hx Ha Hr Hru Hd Hg] Hi Hs Hdue. set (w' := mkWait (w_handle w) Ready (w_due w)).
  assert (Hwin : w ∈ waits s) by (by eapply list_elem_of_lookup_2).
  assert (Hin : forall v, v ∈ <[i := w']> (waits s) -> v = w' \/ v ∈ waits s).
  { intros v (j & Hj)%list_elem_of_lookup. apply list_lookup_insert_Some in Hj as [(_ & <- & _) | [_ Hj]]; [by left | right; by eapply list_elem_of_lookup_2]. }
  assert (Hal : forall h, alive h w' = alive h w) by (intros h; unfold alive; cbn; by rewrite Hs).
  split; sched_simpl; try done.
  - intros v [-> | Hv]%Hin; [cbn |]; auto.
  - intros h Hh. rewrite (live_replace h i w) by done. auto.
  - intros v [-> | Hv]%Hin; [done |]. auto.
  - intros v [-> | Hv]%Hin; [done |]. auto.
  - intros h e v t He [-> | Hv]%Hin Hav Hrt; [| eauto]. rewrite Hal in Hav. cbn. eauto.
Qed.

Lemma sched_exec_issued e s s' : exec body e s = Some s' -> issued s <= issued s'.
Proof.
  destruct e as [o | dt | i | i]; cbn [exec].
  - intros [= <-]. rewrite run_op_issued. destruct o; lia.
  - destruct (0 <=? dt); [| done]. intros [= <-]. done.
  - destruct (waits s !! i) as [w |]; [| done]. destruct (w_state w); [| done..]. destruct (w_due w <=? now s); [| done]. by intros [= <-].
  - destruct (waits s !! i) as [w |]; [| done]. unfold on_wait. destruct (w_state w); [done | | by intros [= <-]].
    cbn [tasks_ with_waits]. destruct (tasks_ s !! w_handle w) as [e |]; [| by intros [= <-]]. destruct (cancelled e); intros [= <-]; [done |].
    rewrite schedule_next_issued. apply (run_ops_issued (body (task e)) (mkScheduler _ _ _ _ _ _)).
Qed.

Lemma sched_exec_inv e s s' : sched_inv [] s -> exec body e s = Some s' -> issued s' < 2 ^ 64 - 1 -> sched_inv [] s'.
Proof.
  intros Hi E Hb. destruct e as [o | dt | i | i]; cbn [exec] in E.
  - injection E as <-. by apply run_op_inv.
  - destruct (0 <=? dt) eqn:Edt; [| done]. injection E as <-. apply Z.leb_le in Edt. destruct Hi as [Hn Ht Hw Hl Hx Ha Hr Hru Hd Hg].
    split; sched_simpl; try done.
    + intros w Hw1 Hw2. specialize (Hr w Hw1 Hw2). lia.
    + intros h t Hin. destruct (Hru h t Hin). lia.
  - destruct (waits s !! i) as [w |] eqn:Ew; [| done]. destruct (w_state w) eqn:Es; [| done..].
    destruct (Z.leb_spec (w_due w) (now s)); [| done]. injection E as <-. by apply expire_inv.
  - destruct (waits s !! i) as [w |] eqn:Ew; [| done]. by eapply on_wait_inv.
Qed.

Lemma sched_exec_all_issued es s s' : exec_all body es s = Some s' -> issued s <= issued s'.
Proof.
  revert s. induction es as [| e es IH]; intros s; cbn [exec_all]; [by intros [= <-] |].
  destruct (exec body e s) as [s1 |] eqn:E; [| done]. cbn. intros H. apply sched_exec_issued in E. apply IH in H. lia.
Qed.

Lemma sched_exec_all_inv es s s' : sched_inv [] s -> exec_all body es s = Some s' -> issued s' < 2 ^ 64 - 1 -> sched_inv [] s'.
Proof.
  revert s. induction es as [| e es IH]; intros s Hi; cbn [exec_all]; [by intros [= <-] |].
  destruct (exec body e s) as [s1 |] eqn:E; [| done]. cbn. intros H Hb. eapply IH; [| done..].
  eapply sched_exec_inv; [done.. |]. apply sched_exec_all_issued in H. lia.
Qed.

(** Operations run nothing, and a task that is gone does not come back. *)
Lemma run_op_runs o s : runs (run_op o s) = runs s.
Proof. destruct o; cbn [run_op]; unfold schedule, schedule_next, cancel, stop_all; cbn [snd]; repeat case_match; done. Qed.

Lemma run_ops_runs os s : runs (foldl (λ s o, run_op o s) s os) = runs s.
Proof. revert s. induction os as [| o os IH]; intros s; cbn; [done |]. by rewrite IH, run_op_runs. Qed.

Lemma schedule_next_tasks h s : tasks_ (schedule_next h s) = tasks_ s.
Proof. unfold schedule_next. by destruct (tasks_ s !! h). Qed.

Lemma schedule_next_runs h s : runs (schedule_next h s) = runs s.
Proof. unfold schedule_next. by destruct (tasks_ s !! h). Qed.

Lemma run_op_gone x o h s : sched_inv x s -> h <= issued s -> tasks_ s !! h = None -> tasks_ (run_op o s) !! h = None.
Proof.
  intros [[_ Hn] _ _ _ _ _ _ _ _ _] Hh Hg. destruct o as [i t | k |]; cbn [run_op].
  - unfold schedule. cbn [snd]. rewrite schedule_next_tasks. cbn [tasks_]. rewrite lookup_insert_ne; [done | lia].
  - unfold cancel. destruct (tasks_ s !! k); [| done]. sched_simpl. destruct (decide (k = h)) as [-> |]; [apply lookup_delete_eq | by rewrite lookup_delete_ne].
  - apply lookup_empty.
Qed.

Lemma run_ops_gone x os h s : sched_inv x s -> h <= issued s -> issued (foldl (λ s o, run_op o s) s os) < 2 ^ 64 - 1 -> tasks_ s !! h = None ->
  tasks_ (foldl (λ s o, run_op o s) s os) !! h = None.
Proof.
  revert s. induction os as [| o os IH]; intros s Hi Hh Hb Hg; cbn in *; [done |].
  pose proof (run_ops_issued os (run_op o s)). pose proof (run_op_issued o s).
  apply IH; [apply run_op_inv; [done | lia] | destruct o; lia | done | by eapply run_op_gone].
Qed.

Lemma sched_exec_gone e h s s' : sched_inv [] s -> h <= issued s -> tasks_ s !! h = None -> exec body e s = Some s' -> issued s' < 2 ^ 64 - 1 ->
  tasks_ s' !! h = None /\ times h (runs s') = times h (runs s).
Proof.
  intros Hi Hh Hg E Hb. destruct e as [o | dt | i | i]; cbn [exec] in E.
  - injection E as <-. rewrite run_op_runs. split; [by eapply run_op_gone | done].
  - destruct (0 <=? dt); [| done]. by injection E as <-.
  - destruct (waits s !! i) as [w |]; [| done]. destruct (w_state w); [| done..]. destruct (w_due w <=? now s); [| done]. by injection E as <-.
  - destruct (waits s !! i) as [w |] eqn:Ew; [| done]. destruct (on_wait_cases i w s s' Hi Ew E) as [[-> _] | (e & Es & Et & ->)]; [done |].
    rewrite schedule_next_issued in Hb. rewrite schedule_next_tasks, schedule_next_runs, run_ops_runs. split.
    + eapply run_ops_gone; [by eapply begin_run_inv | done..].
    + unfold times. cbn [begin_run runs]. rewrite filter_cons, decide_False; [done |]. cbn. congruence.
Qed.

Lemma sched_exec_all_gone es h s s' : sched_inv [] s -> h <= issued s -> tasks_ s !! h = None -> exec_all body es s = Some s' -> issued s' < 2 ^ 64 - 1 ->
  times h (runs s') = times h (runs s).
Proof.
  revert s. induction es as [| e es IH]; intros s Hi Hh Hg; cbn [exec_all]; [by intros [= <-] |].
  destruct (exec body e s) as [s1 |] eqn:E; [| done]. cbn. intros H Hb.
  pose proof (sched_exec_all_issued _ _ _ H). pose proof (sched_exec_issued _ _ _ E).
  destruct (sched_exec_gone e h s s1 Hi Hh Hg E ltac:(lia)) as [Hg1 <-]. apply IH; [eapply sched_exec_inv; [done.. | lia] | lia | done..].
Qed.

Lemma complete_ready i w e s : waits s !! i = Some w -> w_state w = Ready -> tasks_ s !! w_handle w = Some e -> cancelled e = false ->
  exists s', exec body (Complete i) s = Some s' /\ runs s' = (w_handle w, now s) :: runs s.
Proof.
  intros Hi Es Et Hc. cbn [exec]. rewrite Hi. unfold on_wait. rewrite Es. cbn [tasks_ with_waits]. rewrite Et, Hc. eexists. split; [done |].
  by rewrite schedule_next_runs, run_ops_runs.
Qed.

(** A registered task runs again when its timer does, whatever else happens. *)
Definition timer_event (e : event) : Prop := match e with Call _ => False | _ => True end.

Lemma sched_runs_again h e s : sched_inv [] s -> tasks_ s !! h = Some e ->
  exists es s' t, Forall timer_event es /\ exec_all body es s = Some s' /\ runs s' = (h, t) :: runs s.
Proof.
  intros Hi Et. destruct (si_tasks _ _ Hi _ _ Et) as [_ Hc].
  assert (exists i w, waits s !! i = Some w /\ alive h w = true) as (i & w & Hw & Hal).
  { pose proof (si_live _ _ Hi h ltac:(by rewrite Et)) as Hl. rewrite decide_False in Hl by (apply not_elem_of_nil). unfold live in Hl.
    destruct (filter _ (waits s)) as [| w l] eqn:E; [done |]. assert (w ∈ filter (λ w, alive h w = true) (waits s)) as Hf by (rewrite E; left).
    apply list_elem_of_filter in Hf as [Hal (i & Hin)%list_elem_of_lookup]. eauto. }
  unfold alive in Hal. apply andb_true_iff in Hal as [<-%Z.eqb_eq Hs%bool_decide_eq_true]. destruct (w_state w) eqn:Es; [| | done].
  - set (dt := Z.max 0 (w_due w - now s)).
    set (s1 := with_waits (<[i := mkWait (w_handle w) Ready (w_due w)]> (waits s)) (mkScheduler (tasks_ s) (next_handle_ s) (waits s) (now s + dt) (issued s) (runs s))).
    destruct (complete_ready i (mkWait (w_handle w) Ready (w_due w)) e s1) as (s' & E & Hr); [| done..|].
    { apply list_lookup_insert_eq. by eapply lookup_lt_Some. }
    exists [Elapse dt; Expire i; Complete i], s'. eexists. split; [repeat constructor |]. split; [| exact Hr].
    cbn [exec_all exec]. rewrite (proj2 (Z.leb_le 0 dt)) by lia. cbn [mbind option_bind]. cbn [waits]. rewrite Hw, Es.
    cbn [w_due now]. rewrite (proj2 (Z.leb_le _ _)) by lia. cbn [mbind option_bind]. fold s1. unfold exec in E. rewrite E. done.
  - destruct (complete_ready i w e s Hw Es Et Hc) as (s' & E & Hr). exists [Complete i], s'. eexists. split; [repeat constructor |].
    split; [| exact Hr]. cbn [exec_all]. by rewrite E.
Qed.

End Sched.

(** A periodic task runs until it is cancelled and not after. Whatever is
    scheduled, cancelled and stopped, from outside or by the tasks themselves, and
    however timers expire and complete: a registered task has exactly one wait
    outstanding and its timer alone leads to its next run; two runs of it are at
    least its interval apart; and after [cancel] of its handle, or [stop_all], it
    never runs again, even if its timer had already expired. *)
Theorem periodic_tasks_run body start es s :
  exec_all body es (make_scheduler start) = Some s -> issued s < 2 ^ 64 - 1 ->
  (forall h e, tasks_ s !! h = Some e ->
     live h (waits s) = 1%nat /\ ForallOrdPairs (λ later earlier, earlier + interval e <= later) (times h (runs s)) /\
     exists es' s' t, Forall timer_event es' /\ exec_all body es' s = Some s' /\ runs s' = (h, t) :: runs s) /\
  (forall h o es' s', 1 <= h <= issued s -> o = OpCancel h \/ o = OpStopAll -> exec_all body (Call o :: es') s = Some s' ->
     issued s' < 2 ^ 64 - 1 -> times h (runs s') = times h (runs s)).
Proof.
  intros E Hb. pose proof (sched_exec_all_inv body es _ s (sched_make_inv start) E Hb) as Hi. split.
  - intros h e Et. split_and!; [| by eapply si_gap | by eapply sched_runs_again].
    rewrite (si_live _ _ Hi) by (by rewrite Et). by rewrite decide_False by (apply not_elem_of_nil).
  - intros h o es' s' Hh Ho E' Hb'. cbn [exec_all exec] in E'. cbn [mbind option_bind] in E'. pose proof (sched_exec_all_issued _ _ _ _ E').
    rewrite (sched_exec_all_gone body es' h (run_op o s) s'); [by rewrite run_op_runs | apply run_op_inv; [done | lia] | rewrite run_op_issued; destruct o; lia | | done | done].
    destruct Ho as [-> | ->]; cbn [run_op]; [| apply lookup_empty]. unfold cancel.
    destruct (tasks_ s !! h) eqn:Et; [sched_simpl; apply lookup_delete_eq | done].
Qed.

(** A task that runs twice, and is then cancelled with its timer expired. *)
Lemma periodic_tasks_run_witness :
  let es := [Call (OpSchedule 10 7); Elapse 10; Expire 0; Complete 0; Elapse 12; Expire 0; Complete 0; Elapse 10; Expire 0] in
  exists s s', exec_all (λ _, []) es (make_scheduler 100) = Some s /\ times 1 (runs s) = [122; 110] /\
    live 1 (waits s) = 1%nat /\ exec_all (λ _, []) [Call (OpCancel 1); Complete 0] s = Some s' /\ times 1 (runs s') = [122; 110].
Proof.
  intros es. destruct (exec_all (λ _, []) es (make_scheduler 100)) as [s |] eqn:E; [| by vm_compute in E].
  assert (Hs : issued s < 2 ^ 64 - 1 /\ times 1 (runs s) = [122; 110] /\ tasks_ s !! 1 = Some (mkTask 7 10 false)).
  { vm_compute in E. injection E as <-. split_and!; [cbn; lia | reflexivity | reflexivity]. }
  destruct Hs as (Hb & Ht & He). destruct (periodic_tasks_run (λ _, []) 100 es s E Hb) as [H1 H2].
  destruct (exec_all (λ _, []) [Call (OpCancel 1); Complete 0] s) as [s' |] eqn:E'; [| vm_compute in E; injection E as <-; by vm_compute in E'].
  exists s, s'. split_and!; [done | done | by eapply H1 | done |]. rewrite <- Ht. eapply (H2 1 (OpCancel 1) [Complete 0]); [| by left | done |].
  all: vm_compute in E; injection E as <-; vm_compute in E'; injection E' as <-; cbn; lia.
Defined.
