(* ===== verification/SpscQueue.v ===== *)
(** * Single-producer single-consumer queue

    [apex::core::SpscQueue<T>] (apex_core/include/apex/core/spsc_queue.hpp): the
    bounded queue between two cores, with the awaitable [enqueue] and the wake-up
    of a waiting producer.

    Two threads interleave. Each thread's code is cut at its accesses to the
    shared atomics: one event of the model is the code of one thread from one such
    access to the next, so that every interleaving of the atomics is a sequence of
    events. Atomics are sequentially consistent; the acquire/release pairs of the
    code are what makes the slot and handler accesses between them ordered.

    Coroutines of the producer core run on its one thread: a coroutine that awaits
    is a [call] kept in [pending_handler_] or in [posted], the handlers posted to
    the producer's io_context. *)

From S2P Require Import Prelude MathUtils.

Section SpscQueue.
Context {T : Type} (dflt : T).

(** A running [try_enqueue] or [enqueue]: [KAwait] before the suspension point of
    [enqueue], [KResumed] after it. *)
Inductive kind : Type := KTry | KAwait | KResumed.
Record call : Type := mkCall { c_id : nat; c_item : T; c_kind : kind }.

(** How a call ended: its return value, an item dropped after a resume that found
    no space (the assertion in [enqueue]), or [operation_aborted]. *)
Inductive ending : Type := Enqueued | Refused | Dropped | Aborted.

(** Where the producer thread is; the argument of [PWrite] and [PDecide] is the
    value it loaded from [consumed_]. *)
Inductive producer_pc : Type :=
| PIdle
| PLoad (c : call)
| PWrite (c : call) (consumed : Z)
| PPublish (c : call)
| PRecheck (c : call)
| PDecide (c : call) (consumed : Z)
| PFlag (c : call).

(** Where the consumer thread is; [ec] tells a cancellation from a notification. *)
Inductive consumer_pc : Type :=
| CIdle
| CLoad
| CRead (published : Z)
| CStore (item : T)
| CDrainLoad (n : Z)
| CDrainRead (count i : Z) (batch : list T)
| CDrainStore (batch : list T)
| CWaiting (ec : bool)
| CClear (ec : bool)
| CPost (ec : bool).

Record SpscQueue : Type := mkSpscQueue {
  head_ : Z;
  tail_ : Z;
  published_ : Z;
  consumed_ : Z;
  capacity_ : Z;
  mask_ : Z;
  slots_ : list T;
  producer_waiting_ : bool;
  pending_handler_ : option call;
  posted : list (call * bool);
  ppc : producer_pc;
  cpc : consumer_pc;
  (* what was written into slots, what the consumer's calls returned, and how
     the producer's calls ended, in order *)
  accepted : list T;
  delivered : list T;
  endings : list (call * ending);
}.

Definition make (capacity : Z) : outcome SpscQueue :=
  let c := next_power_of_2 (if capacity <? 1 then 1 else capacity) in
  if c =? 0 then Throws overflow_error
  else Returns (mkSpscQueue 0 0 0 0 c (u64 (c - 1)) (replicate (Z.to_nat c) dflt) false None [] PIdle CIdle [] [] []).

Definition slot (q : SpscQueue) (i : Z) : T := default dflt (slots_ q !! Z.to_nat (Z.land i (mask_ q))).

Definition set_ppc (p : producer_pc) (q : SpscQueue) : SpscQueue :=
  mkSpscQueue (head_ q) (tail_ q) (published_ q) (consumed_ q) (capacity_ q) (mask_ q) (slots_ q) (producer_waiting_ q)
    (pending_handler_ q) (posted q) p (cpc q) (accepted q) (delivered q) (endings q).
Definition set_cpc (c : consumer_pc) (q : SpscQueue) : SpscQueue :=
  mkSpscQueue (head_ q) (tail_ q) (published_ q) (consumed_ q) (capacity_ q) (mask_ q) (slots_ q) (producer_waiting_ q)
    (pending_handler_ q) (posted q) (ppc q) c (accepted q) (delivered q) (endings q).
Definition set_wake (waiting : bool) (h : option call) (ps : list (call * bool)) (q : SpscQueue) : SpscQueue :=
  mkSpscQueue (head_ q) (tail_ q) (published_ q) (consumed_ q) (capacity_ q) (mask_ q) (slots_ q) waiting
    h ps (ppc q) (cpc q) (accepted q) (delivered q) (endings q).
Definition finish (c : call) (e : ending) (q : SpscQueue) : SpscQueue :=
  mkSpscQueue (head_ q) (tail_ q) (published_ q) (consumed_ q) (capacity_ q) (mask_ q) (slots_ q) (producer_waiting_ q)
    (pending_handler_ q) (posted q) PIdle (cpc q) (accepted q) (delivered q) (endings q ++ [(c, e)]).

(** [try_enqueue] after its load of [consumed_]: the full check, the slot write
    and [++head_]. *)
Definition enqueue_write (c : call) (consumed : Z) (q : SpscQueue) : SpscQueue :=
  if capacity_ q <=? u64 (head_ q - consumed) then
    match c_kind c with
    | KTry => finish c Refused q
    | KAwait => set_ppc (PRecheck c) q
    | KResumed => finish c Dropped q
    end
  else
    mkSpscQueue (u64 (head_ q + 1)) (tail_ q) (published_ q) (consumed_ q) (capacity_ q) (mask_ q)
      (<[Z.to_nat (Z.land (head_ q) (mask_ q)) := c_item c]> (slots_ q)) (producer_waiting_ q) (pending_handler_ q) (posted q)
      (PPublish c) (cpc q) (accepted q ++ [c_item c]) (delivered q) (endings q).

Definition publish (c : call) (q : SpscQueue) : SpscQueue :=
  finish c Enqueued
    (mkSpscQueue (head_ q) (tail_ q) (head_ q) (consumed_ q) (capacity_ q) (mask_ q) (slots_ q) (producer_waiting_ q)
       (pending_handler_ q) (posted q) (ppc q) (cpc q) (accepted q) (delivered q) (endings q)).

(** The initiation of [enqueue]'s suspension, after its load of [consumed_]. *)
Definition decide_suspend (c : call) (consumed : Z) (q : SpscQueue) : SpscQueue :=
  if u64 (head_ q - consumed) <? capacity_ q
  then set_ppc PIdle (set_wake (producer_waiting_ q) (pending_handler_ q) (posted q ++ [(c, false)]) q)
  else set_ppc (PFlag c) (set_wake (producer_waiting_ q) (Some c) (posted q) q).

(** The producer's next access. *)
Definition producer_step (q : SpscQueue) : option SpscQueue :=
  match ppc q with
  | PIdle => None
  | PLoad c => Some (set_ppc (PWrite c (consumed_ q)) q)
  | PWrite c consumed => Some (enqueue_write c consumed q)
  | PPublish c => Some (publish c q)
  | PRecheck c => Some (set_ppc (PDecide c (consumed_ q)) q)
  | PDecide c consumed => Some (decide_suspend c consumed q)
  | PFlag c => Some (set_ppc PIdle (set_wake true (pending_handler_ q) (posted q) q))
  end.

(** The producer's io_context runs the next posted handler. *)
Definition producer_resume (q : SpscQueue) : option SpscQueue :=
  match ppc q, posted q with
  | PIdle, (c, ec) :: rest =>
      let q := set_wake (producer_waiting_ q) (pending_handler_ q) rest q in
      Some (if ec : bool then finish c Aborted q else set_ppc (PLoad (mkCall (c_id c) (c_item c) KResumed)) q)
  | _, _ => None
  end.

Definition producer_call (c : call) (q : SpscQueue) : option SpscQueue :=
  match ppc q with PIdle => Some (set_ppc (PLoad c) q) | _ => None end.

(** [try_dequeue] after its load of [published_]. *)
Definition dequeue_read (published : Z) (q : SpscQueue) : SpscQueue :=
  if published <=? tail_ q then set_cpc CIdle q
  else
    let item := slot q (tail_ q) in
    set_cpc (CStore item)
      (mkSpscQueue (head_ q) (u64 (tail_ q + 1)) (published_ q) (consumed_ q) (capacity_ q) (mask_ q) (slots_ q)
         (producer_waiting_ q) (pending_handler_ q) (posted q) (ppc q) (cpc q) (accepted q) (delivered q) (endings q)).

(** The store to [consumed_] and the return of the items read. *)
Definition consume (items : list T) (q : SpscQueue) : SpscQueue :=
  mkSpscQueue (head_ q) (tail_ q) (published_ q) (tail_ q) (capacity_ q) (mask_ q) (slots_ q) (producer_waiting_ q)
    (pending_handler_ q) (posted q) (ppc q) CIdle (accepted q) (delivered q ++ items) (endings q).

(** One iteration of the copy loop of [drain], or what follows the loop. *)
Definition drain_read (count i : Z) (batch : list T) (q : SpscQueue) : SpscQueue :=
  if i <? count then set_cpc (CDrainRead count (i + 1) (batch ++ [slot q (u64 (tail_ q + i))])) q
  else
    let q := mkSpscQueue (head_ q) (u64 (tail_ q + count)) (published_ q) (consumed_ q) (capacity_ q) (mask_ q) (slots_ q)
               (producer_waiting_ q) (pending_handler_ q) (posted q) (ppc q) (cpc q) (accepted q) (delivered q) (endings q) in
    if 0 <? count then set_cpc (CDrainStore batch) q else set_cpc CIdle q.

(** [notify_producer_if_waiting] and [cancel_waiting_producer] after the flag is
    cleared: the pending handler is posted to the producer's io_context. *)
Definition post_handler (ec : bool) (q : SpscQueue) : SpscQueue :=
  match pending_handler_ q with
  | Some c => set_cpc CIdle (set_wake (producer_waiting_ q) None (posted q ++ [(c, ec)]) q)
  | None => set_cpc CIdle q
  end.

(** The consumer's next access. *)
Definition consumer_step (q : SpscQueue) : option SpscQueue :=
  match cpc q with
  | CIdle => None
  | CLoad => Some (set_cpc (CRead (published_ q)) q)
  | CRead published => Some (dequeue_read published q)
  | CStore item => Some (consume [item] q)
  | CDrainLoad n => Some (set_cpc (CDrainRead (Z.min (u64 (published_ q - tail_ q)) n) 0 []) q)
  | CDrainRead count i batch => Some (drain_read count i batch q)
  | CDrainStore batch => Some (consume batch q)
  | CWaiting ec => Some (set_cpc (if producer_waiting_ q then CClear ec else CIdle) q)
  | CClear ec => Some (set_cpc (CPost ec) (set_wake false (pending_handler_ q) (posted q) q))
  | CPost ec => Some (post_handler ec q)
  end.

Inductive consumer_op : Type := TryDequeue | Drain (n : Z) | Notify | Cancel.

Definition consumer_call (o : consumer_op) (q : SpscQueue) : option SpscQueue :=
  match cpc q with
  | CIdle =>
      Some (set_cpc (match o with TryDequeue => CLoad | Drain n => CDrainLoad n | Notify => CWaiting false | Cancel => CWaiting true end) q)
  | _ => None
  end.

Definition size_approx (q : SpscQueue) : Z :=
  if consumed_ q <=? published_ q then u64 (published_ q - consumed_ q) else 0.
Definition empty (q : SpscQueue) : bool := published_ q =? consumed_ q.

(** ** Histories *)

Inductive event : Type :=
| EvCall (id : nat) (item : T) (await : bool)
| EvProducer
| EvResume
| EvOp (o : consumer_op)
| EvConsumer.

Definition exec (e : event) (q : SpscQueue) : option SpscQueue :=
  match e with
  | EvCall id item await => producer_call (mkCall id item (if await then KAwait else KTry)) q
  | EvProducer => producer_step q
  | EvResume => producer_resume q
  | EvOp o => consumer_call o q
  | EvConsumer => consumer_step q
  end.

Fixpoint exec_all (es : list event) (q : SpscQueue) : option SpscQueue :=
  match es with [] => Some q | e :: es => match exec e q with Some q => exec_all es q | None => None end end.

(** The coroutines that still have a way to continue. *)
Definition runnable (q : SpscQueue) : list nat :=
  match ppc q with
  | PIdle => []
  | PLoad c | PWrite c _ | PPublish c | PRecheck c | PDecide c _ | PFlag c => [c_id c]
  end ++ (c_id <$> option_list (pending_handler_ q)) ++ (c_id ∘ fst <$> posted q).

(** ** Invariant *)

(** Items read from their slots whose call has not returned yet. *)
Definition in_hand (q : SpscQueue) : list T :=
  match cpc q with CStore item => [item] | CDrainStore batch => batch | _ => [] end.

Definition unpublished (q : SpscQueue) : Z := match ppc q with PPublish _ => 1 | _ => 0 end.

Definition producer_ok (q : SpscQueue) : Prop :=
  match ppc q with PWrite _ k | PDecide _ k => 0 <= k <= consumed_ q | _ => True end.

Definition consumer_ok (q : SpscQueue) : Prop :=
  match cpc q with
  | CRead p => p <= published_ q
  | CDrainLoad n => 0 <= n
  | CDrainRead count i batch => 0 <= i <= count /\ tail_ q + count <= published_ q /\ batch = slice (tail_ q) i (accepted q)
  | _ => True
  end.

(** The items whose call returned success, in order. *)
Definition enqueued (q : SpscQueue) : list T :=
  omap (fun ce : call * ending => match ce.2 with Enqueued => Some (c_item ce.1) | _ => None end) (endings q).

Record inv (q : SpscQueue) : Prop := mk_inv {
  i_cap : exists k, 0 <= k <= 63 /\ capacity_ q = 2 ^ k;
  i_mask : mask_ q = capacity_ q - 1;
  i_slots_len : len (slots_ q) = capacity_ q;
  i_head : head_ q = len (accepted q);
  i_published : published_ q = head_ q - unpublished q;
  i_consumed : consumed_ q = len (delivered q);
  i_tail : tail_ q = consumed_ q + len (in_hand q);
  i_order : tail_ q <= published_ q;
  i_bound : head_ q <= consumed_ q + capacity_ q;
  i_fifo : delivered q ++ in_hand q = takeZ (tail_ q) (accepted q);
  i_enqueued : accepted q = enqueued q ++ match ppc q with PPublish c => [c_item c] | _ => [] end;
  i_slot i : consumed_ q <= i < head_ q -> accepted q !! Z.to_nat i = Some (slot q i);
  i_producer : producer_ok q;
  i_consumer : consumer_ok q;
}.

(** ** Preservation *)

(** Events that move a thread or a handler without touching the data. *)
Lemma spsc_inv_frame q q' :
  inv q ->
  (head_ q', tail_ q', published_ q', consumed_ q', capacity_ q', mask_ q', slots_ q', accepted q', delivered q') =
  (head_ q, tail_ q, published_ q, consumed_ q, capacity_ q, mask_ q, slots_ q, accepted q, delivered q) ->
  in_hand q' = in_hand q -> enqueued q' = enqueued q -> 
  ppc q' = ppc q \/ (unpublished q = 0 /\ unpublished q' = 0) -> producer_ok q' -> consumer_ok q' -> inv q'.
Proof.
  intros [] E Eh Ee Epc Hp Hc.
  assert (unpublished q' = unpublished q /\ match ppc q' with PPublish c => [c_item c] | _ => [] end = match ppc q with PPublish c => [c_item c] | _ => [] end) as [Eu Ec].
  { destruct Epc as [Epc|[E0 E1']]; [unfold unpublished; by rewrite Epc|]. unfold unpublished in *. destruct (ppc q); destruct (ppc q'); done. } injection E as E1 E2 E3 E4 E5 E6 E7 E8 E9.
  assert (Hs : forall i, slot q' i = slot q i) by (intros; unfold slot; by rewrite E6, E7).
  constructor; rewrite ?E1, ?E2, ?E3, ?E4, ?E5, ?E6, ?E7, ?E8, ?E9, ?Eh, ?Eu, ?Ee, ?Ec; try done. intros i Hi. rewrite Hs. auto.
Qed.

Lemma enqueued_finish c e q : enqueued (finish c e q) = enqueued q ++ match e with Enqueued => [c_item c] | _ => [] end.
Proof. unfold enqueued. cbn. rewrite omap_app. by destruct e. Qed.

(** Two live indices share a slot only when they are equal. *)
Lemma slot_index q i j :
  inv q -> 0 <= i -> i <= j < i + capacity_ q -> Z.land i (mask_ q) = Z.land j (mask_ q) -> i = j.
Proof.
  intros Hq Hi Hj. destruct (i_cap q Hq) as (k & Hk & Ec). rewrite (i_mask q Hq), Ec. rewrite Ec in Hj. apply land_mask_inj; lia.
Qed.

Lemma slot_index_range q i : inv q -> 0 <= Z.land i (mask_ q) < capacity_ q.
Proof.
  intros Hq. destruct (i_cap q Hq) as (k & Hk & Ec). rewrite (i_mask q Hq), Ec, land_mask by lia. apply Z.mod_pos_bound. lia.
Qed.

Lemma spsc_inv_bounds q : inv q -> 0 <= consumed_ q <= tail_ q /\ tail_ q <= published_ q /\ published_ q <= head_ q /\ 0 < capacity_ q <= 2 ^ 63.
Proof.
  intros []. pose proof (len_nonneg (delivered q)). pose proof (len_nonneg (in_hand q)).
  assert (0 <= unpublished q) by (unfold unpublished; destruct (ppc q); lia).
  destruct i_cap0 as (k & Hk & ->). pose proof (Z.pow_pos_nonneg 2 k). pose proof (Z.pow_le_mono_r 2 k 63). lia.
Qed.

Lemma enqueue_write_inv q c k :
  inv q -> ppc q = PWrite c k -> len (accepted (enqueue_write c k q)) < 2 ^ 64 -> inv (enqueue_write c k q).
Proof.
  intros Hq Hpc Hlen. pose proof (spsc_inv_bounds q Hq) as Hb. pose proof (i_producer q Hq) as Hk. unfold producer_ok in Hk. rewrite Hpc in Hk.
  assert (Hu : unpublished q = 0) by (unfold unpublished; by rewrite Hpc).
  pose proof (i_published q Hq) as Hpub. rewrite Hu in Hpub.
  unfold enqueue_write in *. destruct (Z.leb_spec (capacity_ q) (u64 (head_ q - k))) as [Hfull|Hroom].
  { destruct (c_kind c); apply (spsc_inv_frame q); try done; try (by right); try apply Hq; rewrite enqueued_finish; apply app_nil_r. }
  cbn [accepted] in Hlen. rewrite len_app, len_cons, len_nil in Hlen. pose proof (i_head q Hq) as Eh.
  rewrite wrap_small in Hroom by (unfold in_width; lia).
  assert (Eh1 : u64 (head_ q + 1) = head_ q + 1) by (apply wrap_small; unfold in_width; lia).
  pose proof (slot_index_range q (head_ q) Hq) as Hr.
  constructor; cbn [capacity_ mask_ slots_ head_ tail_ published_ consumed_ accepted delivered ppc cpc]; try apply Hq; rewrite ?Eh1.
  - rewrite len_insert. apply Hq.
  - rewrite len_app, len_cons, len_nil. lia.
  - cbn. lia.
  - lia.
  - change (in_hand _) with (in_hand q). rewrite takeZ_app_le by lia. apply Hq.
  - pose proof (i_enqueued q Hq) as He. rewrite Hpc, app_nil_r in He. by rewrite He at 1.
  - intros i Hi. unfold slot. cbn. destruct (decide (i = head_ q)) as [->|Hne].
    + rewrite list_lookup_insert_eq by (pose proof (i_slots_len q Hq); unfold len in *; lia). cbn. rewrite Eh. unfold len. rewrite Nat2Z.id.
      by rewrite list_lookup_middle.
    + rewrite list_lookup_insert_ne.
      * rewrite lookup_app_l by (unfold len in *; lia). apply (i_slot q Hq). lia.
      * intros E. apply Hne. pose proof (slot_index_range q i Hq). apply Z2Nat.inj in E; [|lia..].
        apply (slot_index q i (head_ q) Hq); [lia|lia|congruence].
  - done.
  - pose proof (i_consumer q Hq) as Hc. unfold consumer_ok in *. cbn. destruct (cpc q); try done.
    destruct Hc as (? & ? & ->). split_and!; [lia..|]. rewrite slice_app_l; [done|lia..].
Qed.

Lemma publish_inv q c : inv q -> ppc q = PPublish c -> inv (publish c q).
Proof.
  intros Hq Hpc. pose proof (spsc_inv_bounds q Hq) as Hb. pose proof (i_published q Hq) as Hp. unfold unpublished in Hp. rewrite Hpc in Hp.
  constructor; cbn [publish finish capacity_ mask_ slots_ head_ tail_ published_ consumed_ accepted delivered]; try apply Hq; try done; try lia.
  - cbn. lia.
  - change (enqueued _) with (enqueued (finish c Enqueued q)). rewrite enqueued_finish. cbn. rewrite app_nil_r. pose proof (i_enqueued q Hq) as He. by rewrite Hpc in He.
  - pose proof (i_consumer q Hq) as Hc. unfold consumer_ok in *. cbn. destruct (cpc q); try done; [lia|]. split_and!; [lia..|]. tauto.
Qed.

Lemma producer_step_inv q q' : inv q -> producer_step q = Some q' -> len (accepted q') < 2 ^ 64 -> inv q'.
Proof.
  intros Hq. unfold producer_step. pose proof (spsc_inv_bounds q Hq) as Hb. destruct (ppc q) as [|c|c k|c|c|c k|c] eqn:Hpc; [done| | | | | |]; intros [= <-] Hlen.
  - apply (spsc_inv_frame q); try done; [right; unfold unpublished; by rewrite Hpc|cbn; lia|apply Hq].
  - by apply enqueue_write_inv.
  - by apply publish_inv.
  - apply (spsc_inv_frame q); try done; [right; unfold unpublished; by rewrite Hpc|cbn; lia|apply Hq].
  - unfold decide_suspend. destruct (_ <? _); apply (spsc_inv_frame q); try done; try (right; unfold unpublished; by rewrite Hpc); apply Hq.
  - apply (spsc_inv_frame q); try done; [right; unfold unpublished; by rewrite Hpc|apply Hq].
Qed.

Lemma slice_snoc {A} off n (l : list A) x : 0 <= off -> 0 <= n -> l !! Z.to_nat (off + n) = Some x -> slice off n l ++ [x] = slice off (n + 1) l.
Proof.
  intros Ho Hn Hx. unfold slice, takeZ, dropZ. replace (Z.to_nat (n + 1)) with (S (Z.to_nat n)) by lia.
  symmetry. apply take_S_r. rewrite lookup_drop. rewrite <- Hx. f_equal. lia.
Qed.

Lemma read_item q i : inv q -> 0 <= i -> tail_ q + i < published_ q -> accepted q !! Z.to_nat (tail_ q + i) = Some (slot q (tail_ q + i)).
Proof. intros Hq Hi Hp. pose proof (spsc_inv_bounds q Hq). apply (i_slot q Hq). lia. Qed.

Lemma dequeue_read_inv q p : inv q -> cpc q = CRead p -> len (accepted q) < 2 ^ 64 -> inv (dequeue_read p q).
Proof.
  intros Hq Hpc Hlen. pose proof (spsc_inv_bounds q Hq) as Hb. pose proof (i_consumer q Hq) as Hc. unfold consumer_ok in Hc. rewrite Hpc in Hc.
  unfold dequeue_read. assert (Hh : in_hand q = []) by (unfold in_hand; by rewrite Hpc).
  destruct (Z.leb_spec p (tail_ q)); [apply (spsc_inv_frame q); try done; [by left|apply Hq]|].
  pose proof (i_head q Hq) as Eh. pose proof (i_tail q Hq) as Et. pose proof (i_fifo q Hq) as Hf. rewrite Hh in Et, Hf. rewrite len_nil in Et.
  assert (Et1 : u64 (tail_ q + 1) = tail_ q + 1) by (apply wrap_small; unfold in_width; lia).
  pose proof (read_item q 0 Hq ltac:(lia) ltac:(lia)) as Hr. rewrite Z.add_0_r in Hr.
  constructor; cbn [set_cpc capacity_ mask_ slots_ head_ tail_ published_ consumed_ accepted delivered]; try apply Hq; rewrite ?Et1; try done; try lia.
  - change (in_hand _) with [slot q (tail_ q)]. rewrite len_cons, len_nil. lia.
  - change (in_hand _) with [slot q (tail_ q)]. rewrite app_nil_r in Hf. rewrite Hf, !takeZ_slice, slice_snoc; [done|lia..|done].
Qed.

Lemma consume_inv q items : inv q -> in_hand q = items -> inv (consume items q).
Proof.
  intros Hq Hh. pose proof (spsc_inv_bounds q Hq) as Hb. pose proof (i_tail q Hq) as Et. pose proof (i_consumed q Hq) as Ec. rewrite Hh in Et.
  constructor; cbn [consume capacity_ mask_ slots_ head_ tail_ published_ consumed_ accepted delivered]; try apply Hq.
  - rewrite len_app. lia.
  - change (in_hand _) with (@nil T). rewrite len_nil. lia.
  - pose proof (i_bound q Hq). lia.
  - cbn. rewrite app_nil_r. rewrite <- Hh. apply Hq.
  - intros i Hi. apply (i_slot q Hq). lia.
  - pose proof (i_producer q Hq) as Hp. unfold producer_ok in *. cbn. destruct (ppc q); try done; lia.
  - done.
Qed.

Lemma drain_read_inv q count i batch : inv q -> cpc q = CDrainRead count i batch -> len (accepted q) < 2 ^ 64 -> inv (drain_read count i batch q).
Proof.
  intros Hq Hpc Hlen. pose proof (spsc_inv_bounds q Hq) as Hb. pose proof (i_consumer q Hq) as Hc. unfold consumer_ok in Hc. rewrite Hpc in Hc.
  destruct Hc as (Hi & Hcount & ->). assert (Hh : in_hand q = []) by (unfold in_hand; by rewrite Hpc). pose proof (i_head q Hq) as Eh.
  unfold drain_read. destruct (Z.ltb_spec i count).
  { apply (spsc_inv_frame q); try done; [by left|apply Hq|]. cbn. split_and!; [lia..|]. rewrite wrap_small by (unfold in_width; lia).
    apply slice_snoc; [lia..|]. by apply read_item; [|lia..]. }
  assert (i = count) as -> by lia. cbv zeta.
  pose proof (i_tail q Hq) as Et. pose proof (i_fifo q Hq) as Hf. rewrite Hh in Et, Hf. rewrite len_nil in Et. rewrite app_nil_r in Hf.
  assert (Et1 : u64 (tail_ q + count) = tail_ q + count) by (apply wrap_small; unfold in_width; lia).
  destruct (Z.ltb_spec 0 count).
  - constructor; cbn [set_cpc capacity_ mask_ slots_ head_ tail_ published_ consumed_ accepted delivered]; try apply Hq; rewrite ?Et1; cbn [in_hand cpc]; try done; try lia.
    + change (in_hand _) with (slice (tail_ q) count (accepted q)). rewrite len_slice; lia.
    + change (in_hand _) with (slice (tail_ q) count (accepted q)). rewrite Hf, !takeZ_slice. symmetry. rewrite slice_split; [|lia..]. done.
  - assert (count = 0) as -> by lia. rewrite Z.add_0_r in Et1. apply (spsc_inv_frame q); try done; [|by left|apply Hq].
    cbn. rewrite Z.add_0_r, Et1. done.
Qed.

Lemma consumer_step_inv q q' : inv q -> consumer_step q = Some q' -> len (accepted q) < 2 ^ 64 -> inv q'.
Proof.
  intros Hq. pose proof (spsc_inv_bounds q Hq) as Hb. pose proof (i_consumer q Hq) as Hc. unfold consumer_step, consumer_ok in *.
  assert (Hframe : forall c, in_hand (set_cpc c q) = in_hand q -> consumer_ok (set_cpc c q) -> inv (set_cpc c q)).
  { intros c Hh Hok. apply (spsc_inv_frame q); try done; [by left|apply Hq]. }
  destruct (cpc q) as [| |p|item|n|count i batch|batch|ec|ec|ec] eqn:Hpc; [done|..]; intros [= <-] Hlen.
  - apply Hframe; [unfold in_hand; by rewrite Hpc|cbn; lia].
  - by apply dequeue_read_inv.
  - apply consume_inv; [done|unfold in_hand; by rewrite Hpc].
  - apply Hframe; [unfold in_hand; by rewrite Hpc|]. cbn. pose proof (i_head q Hq). rewrite wrap_small by (unfold in_width; lia). split_and!; [lia..|]. done.
  - by apply drain_read_inv.
  - apply consume_inv; [done|unfold in_hand; by rewrite Hpc].
  - apply Hframe; [unfold in_hand; rewrite Hpc|]; by destruct (producer_waiting_ q).
  - apply (spsc_inv_frame q); try done; [unfold in_hand; by rewrite Hpc|by left|apply Hq].
  - unfold post_handler. destruct (pending_handler_ q); apply (spsc_inv_frame q); try done; try (unfold in_hand; by rewrite Hpc); try (by left); apply Hq.
Qed.

Definition event_ok (e : event) : Prop := match e with EvOp (Drain n) => 0 <= n | _ => True end.

Lemma spsc_exec_inv e q q' : inv q -> event_ok e -> exec e q = Some q' -> len (accepted q') < 2 ^ 64 -> inv q'.
Proof.
  intros Hq Hev He Hlen. destruct e as [id item await| | |o|]; cbn [exec] in He.
  - unfold producer_call in He. destruct (ppc q) eqn:Hpc; try done. injection He as <-.
    apply (spsc_inv_frame q); try done; [right; unfold unpublished; by rewrite Hpc|apply Hq].
  - by eapply producer_step_inv.
  - unfold producer_resume in He. destruct (ppc q) eqn:Hpc; try done. destruct (posted q) as [|[c ec] rest]; [done|]. injection He as <-.
    destruct ec; apply (spsc_inv_frame q); try done; try apply Hq; try (right; unfold unpublished; by rewrite Hpc). rewrite enqueued_finish. apply app_nil_r.
  - unfold consumer_call in He. destruct (cpc q) eqn:Hpc; try done. injection He as <-.
    apply (spsc_inv_frame q); try done; [unfold in_hand; rewrite Hpc; by destruct o|by left|apply Hq|by destruct o].
  - eapply consumer_step_inv; [done|done|]. revert He Hlen. unfold consumer_step.
    destruct (cpc q); intros [= <-]; cbn; try done; unfold dequeue_read, drain_read, post_handler; split_ifs; try done. by destruct (pending_handler_ q).
Qed.

Lemma exec_accepted e q q' : exec e q = Some q' -> len (accepted q) <= len (accepted q') /\ capacity_ q' = capacity_ q.
Proof.
  destruct e as [id item await| | |o|]; cbn [exec].
  - unfold producer_call. destruct (ppc q); intros [= <-]; done.
  - unfold producer_step. destruct (ppc q) as [|c|c k|c|c|c k|c]; intros [= <-]; cbn; try done.
    + unfold enqueue_write. split_ifs; [by destruct (c_kind c)|]. cbn. rewrite len_app. pose proof (len_nonneg [c_item c]). lia.
    + unfold decide_suspend. by split_ifs.
  - unfold producer_resume. destruct (ppc q); try done. destruct (posted q) as [|[c ec] rest]; [done|]. intros [= <-]. by destruct ec.
  - unfold consumer_call. destruct (cpc q); intros [= <-]; done.
  - unfold consumer_step. destruct (cpc q); intros [= <-]; cbn; try done; unfold dequeue_read, drain_read, post_handler; split_ifs; try done. by destruct (pending_handler_ q).
Qed.

Lemma spsc_exec_all_inv es q q' :
  inv q -> Forall event_ok es -> exec_all es q = Some q' -> len (accepted q') < 2 ^ 64 -> inv q' /\ capacity_ q' = capacity_ q.
Proof.
  intros Hq Hev. revert q Hq. induction Hev as [|e es He _ IH]; intros q Hq; cbn [exec_all]; [by intros [= <-]|].
  destruct (exec e q) as [q1|] eqn:E; [|done]. intros Hes Hlen.
  assert (Hmono : len (accepted q1) <= len (accepted q')).
  { clear - Hes. revert q1 Hes. induction es as [|e es IH]; intros q1; cbn [exec_all]; [by intros [= <-]|].
    destruct (exec e q1) eqn:E; [|done]. intros H%IH. apply exec_accepted in E. lia. }
  destruct (IH q1) as [Hq' Ec]; [eapply spsc_exec_inv; try done; lia|done..|]. split; [done|]. apply exec_accepted in E. destruct E. congruence.
Qed.

Lemma spsc_make_inv c q : in_width 64 c -> make c = Returns q -> inv q /\ Z.max 1 c <= capacity_ q.
Proof.
  intros Hc. unfold make. set (c1 := if c <? 1 then 1 else c).
  assert (Hc1 : 1 <= c1 < 2 ^ 64 /\ Z.max 1 c = c1) by (unfold c1, in_width in *; destruct (Z.ltb_spec c 1); lia).
  destruct (Z.eqb_spec (next_power_of_2 c1) 0) as [|Hnz]; [done|]. intros [= <-].
  destruct (decide (c1 <= 2 ^ 63)); [|rewrite next_power_of_2_overflow in Hnz by lia; done].
  destruct (next_power_of_2_least c1) as (k & Hk & -> & Hle & _); [lia|]. pose proof (Z.pow_le_mono_r 2 k 63).
  split; [|cbn; lia]. constructor; cbn; try done; try lia.
  - by exists k.
  - apply wrap_small. unfold in_width. lia.
  - rewrite len_replicate. lia.
Qed.

(** The slot the producer's next access writes, and the one the consumer's reads. *)
Definition writing (q : SpscQueue) : option Z :=
  match ppc q with
  | PWrite _ k => if capacity_ q <=? u64 (head_ q - k) then None else Some (Z.land (head_ q) (mask_ q))
  | _ => None
  end.
Definition reading (q : SpscQueue) : option Z :=
  match cpc q with
  | CRead p => if p <=? tail_ q then None else Some (Z.land (tail_ q) (mask_ q))
  | CDrainRead count i _ => if i <? count then Some (Z.land (u64 (tail_ q + i)) (mask_ q)) else None
  | _ => None
  end.

Lemma no_slot_race q s : inv q -> len (accepted q) < 2 ^ 64 -> writing q = Some s -> reading q = Some s -> False.
Proof.
  intros Hq Hlen Hw Hr. pose proof (spsc_inv_bounds q Hq) as Hb. pose proof (i_head q Hq) as Eh. pose proof (i_consumer q Hq) as Hc.
  pose proof (i_producer q Hq) as Hp. unfold writing, reading, producer_ok, consumer_ok in *.
  destruct (ppc q) as [| |c k| | | |] eqn:Hpc; try done.
  destruct (Z.leb_spec (capacity_ q) (u64 (head_ q - k))); [done|]. rewrite wrap_small in * by (unfold in_width; lia). injection Hw as <-.
  assert (Hpub : published_ q = head_ q) by (rewrite (i_published q Hq); unfold unpublished; rewrite Hpc; lia).
  assert (exists j, tail_ q <= j < published_ q /\ Z.land j (mask_ q) = Z.land (head_ q) (mask_ q)) as (j & Hj & E).
  { destruct (cpc q) as [| |p| | |count i batch| | | |]; try done.
    - destruct (Z.leb_spec p (tail_ q)); [done|]. injection Hr as E. exists (tail_ q). split; [lia|done].
    - destruct (Z.ltb_spec i count); [|done]. injection Hr as E. rewrite wrap_small in E by (unfold in_width; lia). exists (tail_ q + i). split; [lia|done]. }
  assert (j = head_ q) by (apply (slot_index q j (head_ q) Hq); [lia|lia|done]). lia.
Qed.

End SpscQueue.

Arguments SpscQueue : clear implicits.
Arguments event : clear implicits.

(** C7: The queue is FIFO under every interleaving of the two threads. What the
    consumer's calls return is, in order, a prefix of what the producer's calls
    accepted: the items of the calls that returned success, followed by at most
    the one whose publication is under way. Never more than [capacity] items are
    waiting, and the two threads never access the same slot at the same time. *)
Theorem spsc_queue_fifo {T} (dflt : T) capacity q0 es q
    (Hcap : in_width 64 capacity) (Hmake : make dflt capacity = Returns q0)
    (Hev : Forall event_ok es) (Hrun : exec_all dflt es q0 = Some q) (Hlen : len (accepted q) < 2 ^ 64) :
  (delivered q `prefix_of` accepted q) /\
  (exists last, accepted q = enqueued q ++ last /\ len last <= 1) /\
  len (accepted q) <= len (delivered q) + capacity_ q0 /\
  (forall s, ~ (writing q = Some s /\ reading q = Some s)).
Proof.
  destruct (spsc_make_inv dflt capacity q0 Hcap Hmake) as [Hq0 _].
  destruct (spsc_exec_all_inv dflt es q0 q Hq0 Hev Hrun Hlen) as [Hq Ec]. rewrite <- Ec.
  split; [|split; [|split]].
  - exists (in_hand q ++ dropZ (tail_ q) (accepted q)). rewrite app_assoc, (i_fifo _ _ Hq). symmetry. apply take_dropZ.
  - eexists. split; [apply (i_enqueued _ _ Hq)|]. destruct (ppc q); vm_compute; done.
  - rewrite <- (i_head _ _ Hq), <- (i_consumed _ _ Hq). apply Hq.
  - intros s [Hw Hr]. by eapply no_slot_race.
Qed.

Definition two_items : list (event Z) :=
  [EvCall 1 7 false; EvOp TryDequeue; EvProducer; EvConsumer; EvProducer; EvProducer; EvConsumer; EvCall 2 8 true;
   EvProducer; EvOp (Drain 4); EvProducer; EvConsumer; EvConsumer; EvProducer; EvConsumer; EvConsumer].

Lemma spsc_queue_fifo_witness :
  exists q0 q, make 0 2 = Returns q0 /\ exec_all 0 two_items q0 = Some q /\ delivered q = [7] /\ accepted q = [7; 8] /\
    delivered q `prefix_of` accepted q.
Proof.
  destruct (make 0 2) as [q0|x] eqn:E; [|exfalso; vm_compute in E; discriminate].
  destruct (exec_all 0 two_items q0) as [q|] eqn:R; [|exfalso; vm_compute in E; injection E as <-; vm_compute in R; discriminate].
  exists q0, q. split; [done|]. split; [done|].
  assert (Hd : delivered q = [7] /\ accepted q = [7; 8]) by (vm_compute in E; injection E as <-; vm_compute in R; injection R as <-; split; reflexivity).
  destruct Hd as [Hd Ha]. split; [done|]. split; [done|].
  apply (spsc_queue_fifo 0 2 q0 two_items q); [vm_compute; split; congruence|done|repeat constructor; vm_compute; congruence|done|rewrite Ha; vm_compute; reflexivity].
Defined.

(** A whole [try_enqueue] by an idle producer, its accesses one after the other. *)
Lemma try_enqueue_run {T} (dflt : T) q id x :
  inv dflt q -> len (accepted q) + 1 < 2 ^ 64 -> ppc q = PIdle ->
  if head_ q - consumed_ q <? capacity_ q
  then exists q', exec_all dflt [EvCall id x false; EvProducer; EvProducer; EvProducer] q = Some q' /\ ppc q' = PIdle /\
         enqueued q' = enqueued q ++ [x] /\ accepted q' = accepted q ++ [x]
  else exists q', exec_all dflt [EvCall id x false; EvProducer; EvProducer] q = Some q' /\ ppc q' = PIdle /\
         endings q' = endings q ++ [(mkCall id x KTry, Refused)] /\ accepted q' = accepted q.
Proof.
  intros Hq Hlen Hp. pose proof (spsc_inv_bounds _ q Hq) as Hb. pose proof (i_head _ q Hq) as Eh.
  assert (Hw : u64 (head_ q - consumed_ q) = head_ q - consumed_ q) by (apply wrap_small; unfold in_width; lia).
  clear Hq Hlen Hb Eh. destruct q. cbn in Hp, Hw. subst. cbn -[wrap]. unfold enqueue_write. cbn -[wrap]. rewrite Hw.
  destruct (Z.leb_spec capacity_0 (head_0 - consumed_0)), (Z.ltb_spec (head_0 - consumed_0) capacity_0); try lia.
  - eexists. split; [reflexivity|done].
  - eexists. split; [reflexivity|]. split; [done|]. split; [|done]. unfold publish. by rewrite enqueued_finish.
Qed.

(** A whole [try_dequeue] by an idle consumer. *)
Lemma try_dequeue_run {T} (dflt : T) q :
  inv dflt q -> cpc q = CIdle ->
  if published_ q <=? tail_ q
  then exists q', exec_all dflt [EvOp TryDequeue; EvConsumer; EvConsumer] q = Some q' /\ cpc q' = CIdle /\ delivered q' = delivered q
  else exists q', exec_all dflt [EvOp TryDequeue; EvConsumer; EvConsumer; EvConsumer] q = Some q' /\ cpc q' = CIdle /\
         delivered q' = delivered q ++ [slot dflt q (tail_ q)] /\ accepted q' = accepted q.
Proof.
  intros _ Hc. destruct q. cbn in Hc. subst. cbn -[wrap slot]. unfold dequeue_read. cbn -[wrap slot].
  destruct (published_0 <=? tail_0); eexists; (split; [reflexivity|]); done.
Qed.

(** The calls are wait-free. An idle producer's [try_enqueue] ends after its own
    accesses alone, with success exactly when fewer than [capacity] items are
    unconsumed, and the item is then the next one published; an idle consumer's
    [try_dequeue] ends after its own accesses alone and returns the oldest item
    that was published, if there is one. *)
Theorem spsc_wait_free {T} (dflt : T) q id x
    (Hq : inv dflt q) (Hlen : len (accepted q) + 1 < 2 ^ 64) (Hp : ppc q = PIdle) (Hc : cpc q = CIdle) :
  (if len (accepted q) - len (delivered q) <? capacity_ q
   then exists q', exec_all dflt [EvCall id x false; EvProducer; EvProducer; EvProducer] q = Some q' /\ ppc q' = PIdle /\
          enqueued q' = enqueued q ++ [x] /\ inv dflt q'
   else exists q', exec_all dflt [EvCall id x false; EvProducer; EvProducer] q = Some q' /\ ppc q' = PIdle /\
          endings q' = endings q ++ [(mkCall id x KTry, Refused)] /\ accepted q' = accepted q) /\
  match accepted q !! length (delivered q) with
  | Some y => exists q', exec_all dflt [EvOp TryDequeue; EvConsumer; EvConsumer; EvConsumer] q = Some q' /\ cpc q' = CIdle /\
                delivered q' = delivered q ++ [y] /\ inv dflt q'
  | None => exists q', exec_all dflt [EvOp TryDequeue; EvConsumer; EvConsumer] q = Some q' /\ cpc q' = CIdle /\ delivered q' = delivered q
  end.
Proof.
  pose proof (spsc_inv_bounds _ q Hq) as Hb. pose proof (i_head _ q Hq) as Eh. pose proof (i_consumed _ q Hq) as Ec.
  pose proof (i_published _ q Hq) as Ep. pose proof (i_tail _ q Hq) as Et. unfold unpublished in Ep. unfold in_hand in Et. rewrite Hp in Ep. rewrite Hc, len_nil in Et.
  split.
  - rewrite <- Eh, <- Ec. pose proof (try_enqueue_run dflt q id x Hq Hlen Hp) as Hr.
    destruct (_ <? capacity_ q); [|done]. destruct Hr as (q' & E & Hpc & He & Ha). exists q'. split_and!; [done..|].
    eapply spsc_exec_all_inv; [done| |done|]; [by repeat constructor|]. rewrite Ha, len_app, len_cons, len_nil. lia.
  - pose proof (try_dequeue_run dflt q Hq Hc) as Hr. assert (El : Z.of_nat (length (delivered q)) = tail_ q) by (unfold len in *; lia).
    destruct (accepted q !! length (delivered q)) as [y|] eqn:Ey; destruct (Z.leb_spec (published_ q) (tail_ q)) as [Hle|Hlt].
    + apply lookup_lt_Some in Ey. unfold len in *. lia.
    + destruct Hr as (q' & E & Hpc & Hd & Ha). exists q'. pose proof (i_slot _ q Hq (tail_ q) ltac:(lia)) as Hs.
      rewrite <- El, Nat2Z.id, El, Ey in Hs. injection Hs as ->. split_and!; [done..|].
      eapply spsc_exec_all_inv; [done| |done|]; [by repeat constructor|]. rewrite Ha. lia.
    + done.
    + apply lookup_ge_None in Ey. unfold len in *. lia.
Qed.

Lemma spsc_wait_free_witness :
  exists q0, make 0 2 = Returns q0 /\
    (exists q, exec_all 0 [EvCall 1 7 false; EvProducer; EvProducer; EvProducer] q0 = Some q /\ enqueued q = [7]).
Proof.
  destruct (make 0 2) as [q0|x] eqn:E; [|exfalso; vm_compute in E; discriminate]. exists q0. split; [done|].
  destruct (spsc_make_inv 0 2 q0) as [Hq0 _]; [vm_compute; split; congruence|done|].
  destruct (spsc_wait_free 0 q0 1 7 Hq0) as [H1 _].
  - vm_compute in E. injection E as <-. vm_compute. reflexivity.
  - vm_compute in E. injection E as <-. reflexivity.
  - vm_compute in E. injection E as <-. reflexivity.
  - assert (Hb : (len (accepted q0) - len (delivered q0) <? capacity_ q0) = true) by (vm_compute in E; injection E as <-; vm_compute; reflexivity).
    rewrite Hb in H1. destruct H1 as (q & Hr & _ & He & _). exists q. split; [done|]. rewrite He.
    vm_compute in E. injection E as <-. reflexivity.
Defined.

(** ** Backpressure *)

(** Fill a queue of capacity 1, then await space for a second item. *)
Definition fill_one : list (event Z) := [EvCall 1 7 true; EvProducer; EvProducer; EvProducer].
Definition await_space (id : nat) (item : Z) : list (event Z) :=
  [EvCall id item true; EvProducer; EvProducer; EvProducer; EvProducer; EvProducer].

(** The consumer finds the queue empty just before the producer fills it, then
    notifies: the resumed producer finds no space. *)
Definition spurious_resume : list (event Z) :=
  [EvOp TryDequeue; EvConsumer] ++ fill_one ++ await_space 2 8 ++
  [EvConsumer; EvOp Notify; EvConsumer; EvConsumer; EvConsumer; EvResume; EvProducer; EvProducer].

(** The consumer drains and notifies between the producer's second look at
    [consumed_] and its setting of the flag. *)
Definition missed_wakeup : list (event Z) :=
  fill_one ++ [EvCall 2 8 true; EvProducer; EvProducer; EvProducer;
    EvOp TryDequeue; EvConsumer; EvConsumer; EvConsumer; EvOp TryDequeue; EvConsumer; EvConsumer; EvOp Notify; EvConsumer;
    EvProducer; EvProducer].

(** Two coroutines await space on the same queue. *)
Definition two_waiters : list (event Z) := fill_one ++ await_space 2 8 ++ await_space 3 9.

(** The awaitable [enqueue] can lose items and coroutines, on a queue of one
    slot: (1) with a single waiter, a notification can come without space, and the
    awaited item is then dropped although its [enqueue] completes; (2) a waiter can
    suspend with the queue empty and both threads idle, with no notification under
    way; (3) a second waiter on the same queue replaces the first one's handler,
    which is then neither finished nor ever resumed. *)
Theorem spsc_enqueue_loses :
  exists q0 q1 q2 q3, make 0 1 = Returns q0 /\
    (exec_all 0 spurious_resume q0 = Some q1 /\ (mkCall 2 8 KResumed, Dropped) ∈ endings q1 /\ delivered q1 = [] /\ enqueued q1 = [7]) /\
    (exec_all 0 missed_wakeup q0 = Some q2 /\ empty q2 = true /\ ppc q2 = PIdle /\ cpc q2 = CIdle /\ posted q2 = [] /\
       pending_handler_ q2 = Some (mkCall 2 8 KAwait)) /\
    (exec_all 0 two_waiters q0 = Some q3 /\ (2%nat ∉ runnable q3) /\ (2%nat ∉ (c_id ∘ fst <$> endings q3)) /\ 3%nat ∈ runnable q3).
Proof.
  destruct (make 0 1) as [q0|x] eqn:E; [|exfalso; vm_compute in E; discriminate].
  destruct (exec_all 0 spurious_resume q0) as [q1|] eqn:E1; [|exfalso; vm_compute in E; injection E as <-; vm_compute in E1; discriminate].
  destruct (exec_all 0 missed_wakeup q0) as [q2|] eqn:E2; [|exfalso; vm_compute in E; injection E as <-; vm_compute in E2; discriminate].
  destruct (exec_all 0 two_waiters q0) as [q3|] eqn:E3; [|exfalso; vm_compute in E; injection E as <-; vm_compute in E3; discriminate].
  exists q0, q1, q2, q3. split; [done|]. rewrite E1, E2, E3. vm_compute in E. injection E as <-.
  vm_compute in E1, E2, E3. injection E1 as <-. injection E2 as <-. injection E3 as <-.
  split; [|split].
  - split; [done|]. split; [right; left|done].
  - split_and!; done.
  - split; [done|]. cbn. rewrite !elem_of_cons, !elem_of_nil. naive_solver lia.
Qed.
