(* ===== verification/MpscQueue.v ===== *)
(** * Multi-producer single-consumer queue

    [apex::core::MpscQueue<T>] (apex_core/include/apex/core/mpsc_queue.hpp): the
    lock-free bounded queue with a ready flag per slot.

    Any number of producer threads and one consumer thread interleave. Their code
    is cut at the accesses to shared memory: an event is the code of one thread
    from one such access to the next. Atomics are sequentially consistent. The
    weak compare-and-exchange may fail although the value matches. *)

From S2P Require Import Prelude ErrorCode MathUtils.

Section MpscQueue.
Context {T : Type} (dflt : T).

Record Slot : Type := mkSlot { ready : bool; data : T }.

(** Where a producer is in [enqueue]: before its loads of [head_] and [tail_], at
    the full check with the values loaded, after it reserved index [i], after it
    wrote the item there, or returned. *)
Inductive producer_pc : Type :=
| PLoadHead
| PLoadTail (head : Z)
| PCheck (head tail : Z)
| PWrite (i : Z)
| PReady (i : Z)
| PDone (r : Result unit).

Record Producer : Type := mkProducer { item : T; pc : producer_pc }.

(** Where the consumer is in [dequeue]; [tail] is the value it loaded. *)
Inductive consumer_pc : Type :=
| CIdle
| CReady (tail : Z)
| CRead (tail : Z)
| CClear (tail : Z) (x : T)
| CAdvance (tail : Z) (x : T).

Record MpscQueue : Type := mkMpscQueue {
  head_ : Z;
  tail_ : Z;
  capacity_ : Z;
  mask_ : Z;
  slots_ : list Slot;
  producers : list Producer;
  consumer : consumer_pc;
  (* items in the order their slots were reserved, and items returned *)
  reserved : list T;
  delivered : list T;
}.

Definition make (capacity : Z) : outcome MpscQueue :=
  let c := next_power_of_2 (if capacity <? 1 then 1 else capacity) in
  if c =? 0 then Throws overflow_error
  else Returns (mkMpscQueue 0 0 c (u64 (c - 1)) (replicate (Z.to_nat c) (mkSlot false dflt)) [] CIdle [] []).

Definition index (i : Z) (q : MpscQueue) : nat := Z.to_nat (Z.land i (mask_ q)).
Definition slot (i : Z) (q : MpscQueue) : Slot := default (mkSlot false dflt) (slots_ q !! index i q).

Definition with_producer (p : nat) (v : Producer) (q : MpscQueue) : MpscQueue :=
  mkMpscQueue (head_ q) (tail_ q) (capacity_ q) (mask_ q) (slots_ q) (<[p := v]> (producers q)) (consumer q) (reserved q) (delivered q).
Definition with_slot (i : Z) (s : Slot) (q : MpscQueue) : MpscQueue :=
  mkMpscQueue (head_ q) (tail_ q) (capacity_ q) (mask_ q) (<[index i q := s]> (slots_ q)) (producers q) (consumer q) (reserved q) (delivered q).
Definition with_consumer (c : consumer_pc) (q : MpscQueue) : MpscQueue :=
  mkMpscQueue (head_ q) (tail_ q) (capacity_ q) (mask_ q) (slots_ q) (producers q) c (reserved q) (delivered q).

(** The full check and the compare-and-exchange; [spurious] is a failure of the
    weak exchange on a matching value. After a failure the loop reloads [tail_]. *)
Definition try_reserve (p : nat) (x : T) (head tail : Z) (spurious : bool) (q : MpscQueue) : MpscQueue :=
  if capacity_ q <=? u64 (head - tail) then with_producer p (mkProducer x (PDone (Err BufferFull))) q
  else if (head_ q =? head) && negb spurious then
    mkMpscQueue (u64 (head + 1)) (tail_ q) (capacity_ q) (mask_ q) (slots_ q) (<[p := mkProducer x (PWrite head)]> (producers q))
      (consumer q) (reserved q ++ [x]) (delivered q)
  else with_producer p (mkProducer x (PLoadTail (head_ q))) q.

(** The next access of producer [p]. *)
Definition producer_step (p : nat) (spurious : bool) (q : MpscQueue) : option MpscQueue :=
  match producers q !! p with
  | None => None
  | Some (mkProducer x c) =>
      match c with
      | PLoadHead => Some (with_producer p (mkProducer x (PLoadTail (head_ q))) q)
      | PLoadTail head => Some (with_producer p (mkProducer x (PCheck head (tail_ q))) q)
      | PCheck head tail => Some (try_reserve p x head tail spurious q)
      | PWrite i => Some (with_producer p (mkProducer x (PReady i)) (with_slot i (mkSlot (ready (slot i q)) x) q))
      | PReady i => Some (with_producer p (mkProducer x (PDone (Ok tt))) (with_slot i (mkSlot true (data (slot i q))) q))
      | PDone _ => None
      end
  end.

(** A new call of [enqueue]. *)
Definition enqueue (x : T) (q : MpscQueue) : MpscQueue :=
  mkMpscQueue (head_ q) (tail_ q) (capacity_ q) (mask_ q) (slots_ q) (producers q ++ [mkProducer x PLoadHead]) (consumer q) (reserved q) (delivered q).

(** The next access of [dequeue]. *)
Definition consumer_step (q : MpscQueue) : option MpscQueue :=
  match consumer q with
  | CIdle => Some (with_consumer (CReady (tail_ q)) q)
  | CReady tail => Some (with_consumer (if ready (slot tail q) then CRead tail else CIdle) q)
  | CRead tail => Some (with_consumer (CClear tail (data (slot tail q))) q)
  | CClear tail x => Some (with_consumer (CAdvance tail x) (with_slot tail (mkSlot false (data (slot tail q))) q))
  | CAdvance tail x =>
      Some (mkMpscQueue (head_ q) (u64 (tail + 1)) (capacity_ q) (mask_ q) (slots_ q) (producers q) CIdle (reserved q) (delivered q ++ [x]))
  end.

Definition size_approx (q : MpscQueue) : Z := u64 (head_ q - tail_ q).
Definition empty (q : MpscQueue) : bool := head_ q =? tail_ q.

Inductive event : Type :=
| EvEnqueue (x : T)
| EvProducer (p : nat) (spurious : bool)
| EvConsumer.

Definition exec (e : event) (q : MpscQueue) : option MpscQueue :=
  match e with
  | EvEnqueue x => Some (enqueue x q)
  | EvProducer p spurious => producer_step p spurious q
  | EvConsumer => consumer_step q
  end.

Fixpoint exec_all (es : list event) (q : MpscQueue) : option MpscQueue :=
  match es with [] => Some q | e :: es => match exec e q with Some q => exec_all es q | None => None end end.

(** ** Invariant *)

(** The index a producer has reserved and not yet made ready. *)
Definition claim (p : Producer) : option Z := match pc p with PWrite i | PReady i => Some i | _ => None end.

Definition producer_ok (q : MpscQueue) (p : Producer) : Prop :=
  match pc p with
  | PLoadTail head => 0 <= head <= head_ q
  | PCheck head tail => 0 <= head <= head_ q /\ 0 <= tail <= tail_ q
  | PWrite i => tail_ q <= i < head_ q /\ reserved q !! Z.to_nat i = Some (item p) /\ ready (slot i q) = false
  | PReady i => tail_ q <= i < head_ q /\ reserved q !! Z.to_nat i = Some (item p) /\ slot i q = mkSlot false (item p)
  | _ => True
  end.

Definition consumer_ok (q : MpscQueue) : Prop :=
  match consumer q with
  | CIdle => True
  | CReady tail => tail = tail_ q
  | CRead tail => tail = tail_ q /\ tail < head_ q /\ ready (slot tail q) = true
  | CClear tail x => tail = tail_ q /\ tail < head_ q /\ ready (slot tail q) = true /\ reserved q !! Z.to_nat tail = Some x
  | CAdvance tail x => tail = tail_ q /\ tail < head_ q /\ ready (slot tail q) = false /\ reserved q !! Z.to_nat tail = Some x /\
      (forall p v, producers q !! p = Some v -> claim v <> Some tail)
  end.

(** Index [tail_] is spent once its ready flag is cleared. *)
Definition spent (q : MpscQueue) (i : Z) : Prop := match consumer q with CAdvance tail _ => i = tail | _ => False end.

Record inv (q : MpscQueue) : Prop := mk_inv {
  m_cap : exists k, 0 <= k <= 63 /\ capacity_ q = 2 ^ k;
  m_mask : mask_ q = capacity_ q - 1;
  m_slots : len (slots_ q) = capacity_ q;
  m_head : head_ q = len (reserved q);
  m_tail : tail_ q = len (delivered q);
  m_bound : tail_ q <= head_ q <= tail_ q + capacity_ q;
  m_fifo : delivered q = takeZ (tail_ q) (reserved q);
  m_producers p v : producers q !! p = Some v -> producer_ok q v;
  m_claims p p' v v' i : producers q !! p = Some v -> producers q !! p' = Some v' -> claim v = Some i -> claim v' = Some i -> p = p';
  m_consumer : consumer_ok q;
  m_live i : tail_ q <= i < head_ q -> ~ spent q i ->
    (exists p v, producers q !! p = Some v /\ claim v = Some i) \/ (ready (slot i q) = true /\ reserved q !! Z.to_nat i = Some (data (slot i q)));
  m_free i : head_ q <= i < tail_ q + capacity_ q -> ready (slot i q) = false;
}.

(** ** Preservation *)

Lemma mpsc_inv_bounds q : inv q -> 0 <= tail_ q <= head_ q /\ head_ q <= tail_ q + capacity_ q /\ 0 < capacity_ q <= 2 ^ 63.
Proof.
  intros Hq. pose proof (m_bound q Hq). pose proof (m_tail q Hq). pose proof (len_nonneg (delivered q)).
  destruct (m_cap q Hq) as (k & Hk & E). rewrite E in *. pose proof (Z.pow_pos_nonneg 2 k). pose proof (Z.pow_le_mono_r 2 k 63). lia.
Qed.

Lemma index_range q i : inv q -> (index i q < length (slots_ q))%nat.
Proof.
  intros Hq. pose proof (m_slots q Hq) as Hs. destruct (m_cap q Hq) as (k & Hk & E). unfold index, len in *. rewrite (m_mask q Hq), E in *.
  rewrite land_mask by lia. pose proof (Z.mod_pos_bound i (2 ^ k) ltac:(lia)). lia.
Qed.

Lemma index_inj q i j : inv q -> tail_ q <= i < tail_ q + capacity_ q -> tail_ q <= j < tail_ q + capacity_ q -> index i q = index j q -> i = j.
Proof.
  intros Hq Hi Hj. destruct (m_cap q Hq) as (k & Hk & E). unfold index. rewrite (m_mask q Hq), E in *. intros H.
  assert (Z.land i (2 ^ k - 1) = Z.land j (2 ^ k - 1)).
  { rewrite !land_mask in * by lia. pose proof (Z.mod_pos_bound i (2 ^ k) ltac:(lia)). pose proof (Z.mod_pos_bound j (2 ^ k) ltac:(lia)). lia. }
  destruct (decide (i <= j)); [apply (land_mask_inj k); lia|symmetry; apply (land_mask_inj k); lia].
Qed.

(** A slot write shows at its own index only, within the window of live indices. *)
Lemma slot_with_slot q i j s :
  inv q -> tail_ q <= i < tail_ q + capacity_ q -> tail_ q <= j < tail_ q + capacity_ q ->
  slot j (with_slot i s q) = if decide (i = j) then s else slot j q.
Proof.
  intros Hq Hi Hj. unfold slot, with_slot, index at 1. cbn. fold (index j q). case_decide as E.
  - subst. rewrite list_lookup_insert_eq by (by apply index_range). done.
  - rewrite list_lookup_insert_ne; [done|]. intros E'. by apply E, (index_inj q).
Qed.

(** A producer moves without taking or giving up an index. *)
Lemma producer_moves q p v v' :
  inv q -> producers q !! p = Some v -> claim v' = claim v -> producer_ok q v' -> inv (with_producer p v' q).
Proof.
  intros Hq Hp Hc Hok. destruct Hq.
  assert (Hl : forall p1 v1, <[p := v']> (producers q) !! p1 = Some v1 -> exists v0, producers q !! p1 = Some v0 /\ claim v0 = claim v1).
  { intros p1 v1 H. destruct (decide (p = p1)) as [<-|]; [|rewrite list_lookup_insert_ne in H by done; by exists v1].
    rewrite list_lookup_insert_eq in H by (by eapply lookup_lt_Some). injection H as <-. by exists v. }
  constructor; cbn [with_producer head_ tail_ capacity_ mask_ slots_ producers consumer reserved delivered]; try done.
  - intros p1 v1 H. destruct (decide (p = p1)) as [<-|]; [|rewrite list_lookup_insert_ne in H by done; by apply (m_producers0 p1)].
    rewrite list_lookup_insert_eq in H by (by eapply lookup_lt_Some). by injection H as <-.
  - intros p1 p2 v1 v2 i (w1 & E1 & C1)%Hl (w2 & E2 & C2)%Hl Hc1 Hc2. eapply (m_claims0 p1 p2 w1 w2 i); congruence.
  - unfold consumer_ok in *. cbn. destruct (consumer q); try done. split_and!; try tauto. intros p1 v1 (w & E & C)%Hl. rewrite <- C. destruct_and! m_consumer0. eauto.
  - intros i Hi Hs. destruct (m_live0 i Hi Hs) as [(p1 & v1 & E & C)|?]; [|by right]. left.
    destruct (decide (p = p1)) as [<-|].
    + exists p, v'. rewrite list_lookup_insert_eq by (by eapply lookup_lt_Some). split; [done|]. congruence.
    + exists p1, v1. by rewrite list_lookup_insert_ne.
Qed.

Lemma enqueue_inv x q : inv q -> inv (enqueue x q).
Proof.
  intros []. assert (Hl : forall p v, (producers q ++ [mkProducer x PLoadHead]) !! p = Some v -> producers q !! p = Some v \/ v = mkProducer x PLoadHead).
  { intros p v [H|[_ H]]%lookup_app_Some; [by left|]. apply list_lookup_singleton_Some in H as [_ <-]. by right. }
  constructor; cbn [enqueue head_ tail_ capacity_ mask_ slots_ producers consumer reserved delivered]; try done.
  - intros p v [H| ->]%Hl; [by apply (m_producers0 p)|done].
  - intros p p' v v' i [H| ->]%Hl [H'| ->]%Hl; try done. by apply m_claims0.
  - unfold consumer_ok in *. cbn. destruct (consumer q); try done. split_and!; try tauto. intros p v [H| ->]%Hl; [|done]. destruct_and! m_consumer0. eauto.
  - intros i Hi Hs. destruct (m_live0 i Hi Hs) as [(p & v & E & C)|?]; [|by right]. left. exists p, v. by rewrite lookup_app_l by (by eapply lookup_lt_Some).
Qed.

Lemma claim_range q p v i : inv q -> producers q !! p = Some v -> claim v = Some i ->
  tail_ q <= i < head_ q /\ ready (slot i q) = false /\ reserved q !! Z.to_nat i = Some (item v).
Proof.
  intros Hq Hp Hc. pose proof (m_producers q Hq p v Hp) as Hok. unfold claim, producer_ok in *. destruct (pc v); try done; injection Hc as ->.
  - tauto.
  - destruct Hok as (? & ? & E). rewrite E. done.
Qed.

(** What a thread knows stays true when an index is reserved. *)
Lemma producer_ok_reserve q q' v :
  producer_ok q v -> 0 <= tail_ q -> head_ q = len (reserved q) -> tail_ q' = tail_ q -> head_ q <= head_ q' -> slots_ q' = slots_ q -> mask_ q' = mask_ q ->
  (exists l, reserved q' = reserved q ++ l) -> producer_ok q' v.
Proof.
  intros Hok Ht Hh Et Eh Es Em [l Er].
  assert (Hs : forall i, slot i q' = slot i q) by (intros i; unfold slot, index; by rewrite Es, Em).
  assert (Hr : forall i, tail_ q <= i < head_ q -> reserved q' !! Z.to_nat i = reserved q !! Z.to_nat i).
  { intros i Hi. rewrite Er, lookup_app_l; [done|]. unfold len in *. lia. }
  unfold producer_ok in *. destruct (pc v); try done; try lia; rewrite Et, Hs.
  - destruct Hok as (? & ? & ?). rewrite Hr by done. split_and!; try done; lia.
  - destruct Hok as (? & ? & ?). rewrite Hr by done. split_and!; try done; lia.
Qed.

Lemma try_reserve_inv q p x head tail spurious :
  inv q -> producers q !! p = Some (mkProducer x (PCheck head tail)) -> len (reserved (try_reserve p x head tail spurious q)) < 2 ^ 64 ->
  inv (try_reserve p x head tail spurious q).
Proof.
  intros Hq Hp Hlen. pose proof (mpsc_inv_bounds q Hq) as Hb. pose proof (m_producers q Hq p _ Hp) as Hok. cbn in Hok.
  unfold try_reserve in *. destruct (Z.leb_spec (capacity_ q) (u64 (head - tail))) as [|Hroom]; [by apply (producer_moves q p (mkProducer x (PCheck head tail)))|].
  destruct (Z.eqb_spec (head_ q) head) as [<-|]; [|by apply (producer_moves q p (mkProducer x (PCheck head tail))); cbn; try done; lia].
  destruct spurious; cbn [negb andb] in *; [by apply (producer_moves q p (mkProducer x (PCheck (head_ q) tail))); cbn; try done; lia|].
  cbn [reserved] in Hlen. rewrite len_app, len_cons, len_nil in Hlen. pose proof (m_head q Hq) as Hh.
  rewrite wrap_small in Hroom by (unfold in_width; lia). rewrite (wrap_small 64 (head_ q + 1)) by (unfold in_width; lia).
  set (q' := mkMpscQueue _ _ _ _ _ _ _ _ _).
  assert (Hs : forall i, slot i q' = slot i q) by done.
  assert (Hr : forall i, 0 <= i < head_ q -> reserved q' !! Z.to_nat i = reserved q !! Z.to_nat i).
  { intros i Hi. unfold q'. cbn. rewrite lookup_app_l; [done|]. unfold len in *. lia. }
  assert (Hrh : reserved q' !! Z.to_nat (head_ q) = Some x).
  { unfold q'. cbn. rewrite Hh. unfold len. rewrite Nat2Z.id. by rewrite list_lookup_middle. }
  assert (Hl : forall p1 v1, producers q' !! p1 = Some v1 -> (p1 = p /\ v1 = mkProducer x (PWrite (head_ q))) \/ (p1 <> p /\ producers q !! p1 = Some v1)).
  { intros p1 v1 H. unfold q' in H. cbn in H. destruct (decide (p = p1)) as [<-|]; [left|right; by rewrite list_lookup_insert_ne in H].
    rewrite list_lookup_insert_eq in H by (by eapply lookup_lt_Some). by injection H as <-. }
  constructor; try apply Hq.
  - unfold q'. cbn. rewrite len_app, len_cons, len_nil. lia.
  - unfold q'. cbn. lia.
  - unfold q'. cbn. rewrite takeZ_app_le by lia. apply Hq.
  - intros p1 v1 [[-> ->]|[_ H]]%Hl.
    + unfold producer_ok. cbn [pc item]. split_and!; [unfold q'; cbn; lia..|done|]. apply (m_free q Hq). lia.
    + apply (producer_ok_reserve q); [by apply (m_producers q Hq p1)|lia|done|done|unfold q'; cbn; lia|done|done|]. by exists [x].
  - intros p1 p2 v1 v2 i [[-> ->]|[H1' H1]]%Hl [[-> ->]|[H2' H2]]%Hl C1 C2; [done|..].
    + injection C1 as <-. apply (claim_range q p2 v2) in C2; [lia|done..].
    + injection C2 as <-. apply (claim_range q p1 v1) in C1; [lia|done..].
    + by apply (m_claims q Hq p1 p2 v1 v2 i).
  - pose proof (m_consumer q Hq) as Hc. unfold consumer_ok in *. change (consumer q') with (consumer q). change (tail_ q') with (tail_ q).
    change (head_ q') with (head_ q + 1). destruct (consumer q); try done; rewrite Hs; rewrite ?Hr by lia; split_and!; try tauto; try lia.
    destruct Hc as (-> & Hlt & _ & _ & Hno). intros p1 v1 [[-> ->]|[_ H]]%Hl; [intros [= E]; lia|by apply (Hno p1)].
  - intros i Hi Hsp. change (tail_ q') with (tail_ q) in Hi. change (head_ q') with (head_ q + 1) in Hi. rewrite Hs.
    destruct (decide (i = head_ q)) as [->|Hne].
    + left. exists p, (mkProducer x (PWrite (head_ q))). split; [|done]. unfold q'. cbn. by rewrite list_lookup_insert_eq by (by eapply lookup_lt_Some).
    + destruct (m_live q Hq i ltac:(lia) Hsp) as [(p1 & v1 & E & C)|[? E]]; [left|right; by rewrite Hr by lia].
      exists p1, v1. split; [|done]. unfold q'. cbn. rewrite list_lookup_insert_ne; [done|]. intros ->. rewrite Hp in E. by injection E as <-.
  - intros i Hi. rewrite Hs. apply (m_free q Hq). change (tail_ q') with (tail_ q) in Hi. change (head_ q') with (head_ q + 1) in Hi. change (capacity_ q') with (capacity_ q) in Hi. lia.
Qed.

(** Claimed indices are never the one the consumer is at, past its ready check. *)
Lemma consumer_no_claim q p v tail :
  inv q -> ready (slot tail q) = true -> producers q !! p = Some v -> claim v <> Some tail.
Proof. intros Hq Hr Hp Hc. apply (claim_range q p v) in Hc as (_ & Hf & _); [congruence|done..]. Qed.

(** The item goes into the claimed slot. *)
Lemma write_item_inv q p v i :
  inv q -> producers q !! p = Some v -> pc v = PWrite i ->
  inv (with_producer p (mkProducer (item v) (PReady i)) (with_slot i (mkSlot (ready (slot i q)) (item v)) q)).
Proof.
  intros Hq Hp Hpc. assert (Hc : claim v = Some i) by (unfold claim; by rewrite Hpc).
  destruct (claim_range q p v i Hq Hp Hc) as (Hi & Hrd & Hres). pose proof (mpsc_inv_bounds q Hq) as Hb. rewrite Hrd.
  set (q1 := with_slot i (mkSlot false (item v)) q).
  assert (Hs : forall j, tail_ q <= j < tail_ q + capacity_ q -> slot j q1 = if decide (i = j) then mkSlot false (item v) else slot j q)
    by (intros j Hj; apply slot_with_slot; [done|lia|done]).
  assert (Hrdy : forall j, tail_ q <= j < tail_ q + capacity_ q -> ready (slot j q1) = ready (slot j q))
    by (intros j Hj; rewrite Hs by done; case_decide; [subst; cbn; by rewrite Hrd|done]).
  assert (Hq1 : inv q1).
  { constructor; try apply Hq.
    - unfold q1. cbn. rewrite len_insert. apply Hq.
    - intros p1 v1 H1. change (producers q1) with (producers q) in H1. pose proof (m_producers q Hq p1 v1 H1) as Hok. pose proof (claim_range q p1 v1) as Hcr. unfold producer_ok, claim in *. destruct (pc v1) eqn:E1; try done.
      + destruct Hok as ([? ?] & ? & ?). split_and!; try done. rewrite Hrdy by lia. done.
      + destruct Hok as ([? ?] & ? & E). split_and!; try done. rewrite Hs by lia. case_decide as Ei; [|done]. subst i0.
        assert (p1 = p) as -> by (eapply (m_claims q Hq p1 p); [done..|unfold claim; by rewrite E1|done]). rewrite Hp in H1. injection H1 as <-. congruence.
    - pose proof (m_consumer q Hq) as Hco. unfold consumer_ok in *. change (consumer q1) with (consumer q). destruct (consumer q) as [| |t|t x|t x]; try done.
      + destruct Hco as (-> & ? & ?). split_and!; try done. rewrite Hrdy by lia. done.
      + destruct Hco as (-> & ? & ? & ?). split_and!; try done. rewrite Hrdy by lia. done.
      + destruct Hco as (-> & ? & ? & ? & ?). split_and!; try done. rewrite Hrdy by lia. done.
    - intros j Hj Hsp. change (tail_ q1) with (tail_ q) in Hj. change (head_ q1) with (head_ q) in Hj. destruct (decide (i = j)) as [<-|Hne]; [left; by exists p, v|].
      rewrite Hs by lia. rewrite decide_False by done. by apply (m_live q Hq).
    - intros j Hj. change (tail_ q1) with (tail_ q) in Hj. change (head_ q1) with (head_ q) in Hj. change (capacity_ q1) with (capacity_ q) in Hj. rewrite Hrdy by lia. by apply (m_free q Hq). }
  apply (producer_moves q1 p v); [done|done|by rewrite Hc|]. unfold producer_ok. cbn [pc item]. destruct Hi. split_and!; try done. rewrite Hs by lia. by rewrite decide_True.
Qed.

(** The ready flag publishes the claimed slot. *)
Lemma set_ready_inv q p v i :
  inv q -> producers q !! p = Some v -> pc v = PReady i ->
  inv (with_producer p (mkProducer (item v) (PDone (Ok tt))) (with_slot i (mkSlot true (data (slot i q))) q)).
Proof.
  intros Hq Hp Hpc. assert (Hc : claim v = Some i) by (unfold claim; by rewrite Hpc).
  destruct (claim_range q p v i Hq Hp Hc) as (Hi & Hrd & Hres). pose proof (mpsc_inv_bounds q Hq) as Hb.
  assert (Hd : data (slot i q) = item v) by (pose proof (m_producers q Hq p v Hp) as Hok; unfold producer_ok in Hok; rewrite Hpc in Hok; destruct Hok as (_ & _ & ->); done).
  rewrite Hd. set (q1 := with_producer p _ _).
  assert (Hs : forall j, tail_ q <= j < tail_ q + capacity_ q -> slot j q1 = if decide (i = j) then mkSlot true (item v) else slot j q)
    by (intros j Hj; apply slot_with_slot; [done|lia|done]).
  assert (Hl : forall p1 v1, producers q1 !! p1 = Some v1 -> (p1 = p /\ claim v1 = None /\ producer_ok q1 v1) \/ (p1 <> p /\ producers q !! p1 = Some v1 /\ claim v1 <> Some i)).
  { intros p1 v1 H. unfold q1 in H. cbn in H. destruct (decide (p = p1)) as [<-|Hne].
    - left. rewrite list_lookup_insert_eq in H by (by eapply lookup_lt_Some). by injection H as <-.
    - right. rewrite list_lookup_insert_ne in H by done. split_and!; [done..|]. intros C. apply Hne. by apply (m_claims q Hq p p1 v v1 i). }
  constructor; try apply Hq.
  - unfold q1. cbn. rewrite len_insert. apply Hq.
  - intros p1 v1 [(_ & _ & ?)|(_ & H1 & Hnc)]%Hl; [done|]. pose proof (m_producers q Hq p1 v1 H1) as Hok. unfold producer_ok, claim in *.
    destruct (pc v1); try done; destruct Hok as ([? ?] & ? & ?); split_and!; try done; rewrite Hs by lia; rewrite decide_False by congruence; done.
  - intros p1 p2 v1 v2 j [(_ & C1 & _)|(_ & H1 & _)]%Hl [(_ & C2 & _)|(_ & H2 & _)]%Hl Hc1 Hc2; try congruence. by apply (m_claims q Hq p1 p2 v1 v2 j).
  - pose proof (m_consumer q Hq) as Hco. unfold consumer_ok in *. change (consumer q1) with (consumer q). change (tail_ q1) with (tail_ q). change (head_ q1) with (head_ q).
    change (reserved q1) with (reserved q). destruct (consumer q) as [| |t|t x|t x]; try done.
    + destruct Hco as (-> & ? & ?). split_and!; try done. rewrite Hs by lia. by case_decide.
    + destruct Hco as (-> & ? & ? & ?). split_and!; try done. rewrite Hs by lia. by case_decide.
    + destruct Hco as (-> & ? & ? & ? & Hno). split_and!; try done.
      * rewrite Hs by lia. rewrite decide_False; [done|]. intros ->. by apply (Hno p v).
      * intros p1 v1 [(_ & C1 & _)|(_ & H1' & _)]%Hl; [congruence|by apply (Hno p1)].
  - intros j Hj Hsp. change (tail_ q1) with (tail_ q) in Hj. change (head_ q1) with (head_ q) in Hj. rewrite Hs by lia. case_decide as E; [subst; by right|].
    destruct (m_live q Hq j Hj Hsp) as [(p1 & v1 & E1 & C)|?]; [left|by right]. exists p1, v1. split; [|done].
    unfold q1. cbn. rewrite list_lookup_insert_ne; [done|]. intros ->. rewrite Hp in E1. injection E1 as <-. congruence.
  - intros j Hj. change (tail_ q1) with (tail_ q) in Hj. change (head_ q1) with (head_ q) in Hj. change (capacity_ q1) with (capacity_ q) in Hj.
    rewrite Hs by lia. rewrite decide_False by lia. by apply (m_free q Hq).
Qed.

(** The consumer moves without touching shared memory. *)
Lemma consumer_moves q c : inv q -> consumer_ok (with_consumer c q) -> (forall t x, c <> CAdvance t x) -> (forall t x, consumer q <> CAdvance t x) -> inv (with_consumer c q).
Proof.
  intros Hq Hok Hn Hn'. constructor; try apply Hq; [done|]. intros i Hi _. apply (m_live q Hq); [done|]. unfold spent. intros H. destruct (consumer q) as [| | | |t x]; try done. by destruct (Hn' t x).
Qed.

Lemma consumer_clear_inv q tail x :
  inv q -> consumer q = CClear tail x -> inv (with_consumer (CAdvance tail x) (with_slot tail (mkSlot false (data (slot tail q))) q)).
Proof.
  intros Hq Hc. pose proof (m_consumer q Hq) as Hok. unfold consumer_ok in Hok. rewrite Hc in Hok. destruct Hok as (-> & Hlt & Hrd & Hres). pose proof (mpsc_inv_bounds q Hq) as Hb.
  set (q1 := with_consumer _ _).
  assert (Hs : forall j, tail_ q <= j < tail_ q + capacity_ q -> slot j q1 = if decide (tail_ q = j) then mkSlot false (data (slot (tail_ q) q)) else slot j q)
    by (intros j Hj; apply slot_with_slot; [done|lia|done]).
  constructor; try apply Hq.
  - unfold q1. cbn. rewrite len_insert. apply Hq.
  - intros p v Hp. pose proof (m_producers q Hq p v Hp) as Hok. pose proof (consumer_no_claim q p v (tail_ q) Hq Hrd Hp) as Hnc. unfold producer_ok, claim in *.
    destruct (pc v); try done; destruct Hok as ([? ?] & ? & ?); split_and!; try done; rewrite Hs by lia; rewrite decide_False by congruence; done.
  - split_and!; try done; [rewrite Hs by lia; by rewrite decide_True|]. intros p v Hp. by apply (consumer_no_claim q p).
  - intros j Hj Hsp. change (tail_ q1) with (tail_ q) in Hj. change (head_ q1) with (head_ q) in Hj. rewrite Hs by lia. rewrite decide_False by (intros <-; by apply Hsp).
    apply (m_live q Hq); [done|]. unfold spent. rewrite Hc. tauto.
  - intros j Hj. change (tail_ q1) with (tail_ q) in Hj. change (head_ q1) with (head_ q) in Hj. change (capacity_ q1) with (capacity_ q) in Hj.
    rewrite Hs by lia. case_decide; [done|]. by apply (m_free q Hq).
Qed.

Lemma consumer_advance_inv q tail x :
  inv q -> consumer q = CAdvance tail x -> len (reserved q) < 2 ^ 64 ->
  inv (mkMpscQueue (head_ q) (u64 (tail + 1)) (capacity_ q) (mask_ q) (slots_ q) (producers q) CIdle (reserved q) (delivered q ++ [x])).
Proof.
  intros Hq Hc Hlen. pose proof (m_consumer q Hq) as Hok. unfold consumer_ok in Hok. rewrite Hc in Hok. destruct Hok as (-> & Hlt & Hrd & Hres & Hno).
  pose proof (mpsc_inv_bounds q Hq) as Hb. pose proof (m_head q Hq) as Hh. rewrite wrap_small by (unfold in_width; lia).
  constructor; cbn [head_ tail_ capacity_ mask_ slots_ producers consumer reserved delivered]; try apply Hq; try done; try lia.
  - rewrite len_app, len_cons, len_nil. rewrite (m_tail q Hq) at 1. lia.
  - rewrite (m_fifo q Hq). unfold takeZ. replace (Z.to_nat (tail_ q + 1)) with (S (Z.to_nat (tail_ q))) by lia. symmetry. by apply take_S_r.
  - intros p v Hp. pose proof (m_producers q Hq p v Hp) as Hok. pose proof (Hno p v Hp) as Hnc. unfold producer_ok, claim in *.
    destruct (pc v); try done; cbn [tail_ head_ reserved]; [lia|..]; destruct Hok as ([? ?] & ? & ?); split_and!; try done; assert (i <> tail_ q) by congruence; lia.
  - intros i Hi _. apply (m_live q Hq); [lia|]. unfold spent. rewrite Hc. lia.
  - intros i Hi. destruct (decide (i = tail_ q + capacity_ q)) as [->|]; [|apply (m_free q Hq); lia].
    rewrite <- Hrd. f_equal. unfold slot, index. cbn [mask_ slots_]. do 3 f_equal.
    destruct (m_cap q Hq) as (k & Hk & E). rewrite (m_mask q Hq), E, !land_mask by lia. rewrite <- (Z.mul_1_l (2 ^ k)) at 1. apply Z_mod_plus_full.
Qed.

Lemma mpsc_exec_inv e q q' : inv q -> exec e q = Some q' -> len (reserved q') < 2 ^ 64 -> inv q'.
Proof.
  intros Hq. pose proof (mpsc_inv_bounds q Hq) as Hb. destruct e as [x|p spurious|]; cbn [exec].
  - intros [= <-] _. by apply enqueue_inv.
  - unfold producer_step. destruct (producers q !! p) as [[x c]|] eqn:Hp; [|done]. pose proof (m_producers q Hq p _ Hp) as Hok. unfold producer_ok in Hok. cbn [pc item] in Hok.
    destruct c as [|head|head tail|i|i|r]; intros [= <-] Hlen.
    + apply (producer_moves q p (mkProducer x PLoadHead)); try done. cbn. lia.
    + apply (producer_moves q p (mkProducer x (PLoadTail head))); try done. cbn. lia.
    + by apply try_reserve_inv.
    + by apply (write_item_inv q p (mkProducer x (PWrite i))).
    + by apply (set_ready_inv q p (mkProducer x (PReady i))).
  - unfold consumer_step. pose proof (m_consumer q Hq) as Hok. unfold consumer_ok in Hok. destruct (consumer q) as [|t|t|t x|t x] eqn:Hc; intros [= <-] Hlen.
    + apply consumer_moves; try done. by rewrite Hc.
    + subst t. destruct (ready (slot (tail_ q) q)) eqn:Hr; apply consumer_moves; try done; try (by rewrite Hc).
      split_and!; [done| |done]. destruct (decide (tail_ q < head_ q)); [done|]. rewrite (m_free q Hq) in Hr by lia. done.
    + destruct Hok as (-> & Hlt & Hr). apply consumer_moves; try done; [|by rewrite Hc]. split_and!; try done.
      destruct (m_live q Hq (tail_ q) ltac:(lia)) as [(p & v & E & C)|[_ ?]]; [unfold spent; rewrite Hc; tauto| |done]. by apply (consumer_no_claim q p v) in C.
    + by apply consumer_clear_inv.
    + by apply consumer_advance_inv.
Qed.

Lemma exec_mono e q q' : exec e q = Some q' -> len (reserved q) <= len (reserved q') /\ capacity_ q' = capacity_ q.
Proof.
  destruct e as [x|p spurious|]; cbn [exec].
  - by intros [= <-].
  - unfold producer_step. destruct (producers q !! p) as [[x c]|]; [|done]. destruct c; intros [= <-]; try done.
    unfold try_reserve. split_ifs; try done. cbn. rewrite len_app. pose proof (len_nonneg [x]). lia.
  - unfold consumer_step. destruct (consumer q); intros [= <-]; done.
Qed.

Lemma mpsc_exec_all_inv es q q' : inv q -> exec_all es q = Some q' -> len (reserved q') < 2 ^ 64 -> inv q' /\ capacity_ q' = capacity_ q.
Proof.
  revert q. induction es as [|e es IH]; intros q Hq; cbn [exec_all]; [by intros [= <-]|].
  destruct (exec e q) as [q1|] eqn:E; [|done]. intros Hes Hlen.
  assert (Hmono : len (reserved q1) <= len (reserved q')).
  { clear - Hes. revert q1 Hes. induction es as [|e es IH]; intros q1; cbn [exec_all]; [by intros [= <-]|].
    destruct (exec e q1) eqn:E; [|done]. intros H%IH. apply exec_mono in E. lia. }
  destruct (IH q1) as [? Ec]; [eapply mpsc_exec_inv; try done; lia|done..|]. split; [done|]. apply exec_mono in E. destruct E. congruence.
Qed.

Lemma mpsc_make_inv c q : in_width 64 c -> make c = Returns q -> inv q.
Proof.
  intros Hc. unfold make. set (c1 := if c <? 1 then 1 else c).
  assert (Hc1 : 1 <= c1 < 2 ^ 64) by (unfold c1, in_width in *; destruct (Z.ltb_spec c 1); lia).
  destruct (Z.eqb_spec (next_power_of_2 c1) 0) as [|Hnz]; [done|]. intros [= <-].
  destruct (decide (c1 <= 2 ^ 63)); [|rewrite next_power_of_2_overflow in Hnz by lia; done].
  destruct (next_power_of_2_least c1) as (k & Hk & -> & Hle & _); [lia|]. pose proof (Z.pow_le_mono_r 2 k 63).
  constructor; cbn; try done; try lia.
  - by exists k.
  - apply wrap_small. unfold in_width. lia.
  - rewrite len_replicate. lia.
  - intros i _. unfold slot. cbn. destruct (replicate _ _ !! _) eqn:E; [|done]. by apply lookup_replicate in E as [-> _].
Qed.

(** ** Calls and items *)

(** The item of a call that has reserved its slot. *)
Definition taken (p : Producer) : option T :=
  match pc p with PWrite _ | PReady _ | PDone (Ok _) => Some (item p) | _ => None end.

Lemma omap_insert (l : list Producer) p v v' :
  l !! p = Some v -> taken v = None -> omap taken (<[p := v']> l) ≡ₚ option_list (taken v') ++ omap taken l.
Proof.
  revert p. induction l as [|y l IH]; intros [|p] Hp Hn; try done.
  - cbn in Hp. injection Hp as ->. change (<[0%nat := v']> (v :: l)) with (v' :: l). cbn. rewrite Hn. by destruct (taken v').
  - change (<[S p := v']> (y :: l)) with (y :: <[p := v']> l). cbn. specialize (IH p Hp Hn). destruct (taken y); [|done]. rewrite IH. by destruct (taken v'); cbn; [constructor|].
Qed.

Lemma omap_insert_same (l : list Producer) p v v' : l !! p = Some v -> taken v = taken v' -> omap taken (<[p := v']> l) = omap taken l.
Proof.
  revert p. induction l as [|y l IH]; intros [|p] Hp Hn; try done.
  - cbn in Hp. injection Hp as ->. change (<[0%nat := v']> (v :: l)) with (v' :: l). cbn. by rewrite Hn.
  - change (<[S p := v']> (y :: l)) with (y :: <[p := v']> l). cbn. by rewrite (IH p Hp Hn).
Qed.

Definition items_ok (q : MpscQueue) : Prop := reserved q ≡ₚ omap taken (producers q).

Lemma exec_items e q q' : items_ok q -> exec e q = Some q' -> items_ok q'.
Proof.
  unfold items_ok. intros Hi. destruct e as [x|p spurious|]; cbn [exec].
  - intros [= <-]. cbn. rewrite omap_app. cbn. by rewrite app_nil_r.
  - unfold producer_step. destruct (producers q !! p) as [[x c]|] eqn:Hp; [|done].
    destruct c as [|head|head tail|i|i|r]; intros [= <-]; try (cbn; by erewrite omap_insert_same by done).
    unfold try_reserve. split_ifs; try (cbn; by erewrite omap_insert_same by done). cbn.
    erewrite omap_insert by done. cbn. rewrite Permutation_app_comm. cbn. by rewrite Hi.
  - unfold consumer_step. destruct (consumer q); intros [= <-]; done.
Qed.

Lemma exec_all_items es q q' : items_ok q -> exec_all es q = Some q' -> items_ok q'.
Proof. revert q. induction es as [|e es IH]; intros q Hq; cbn [exec_all]; [by intros [= <-]|]. destruct (exec e q) eqn:E; [|done]. apply IH. by eapply exec_items. Qed.

End MpscQueue.

Arguments MpscQueue : clear implicits.
Arguments event : clear implicits.

(** C8: The queue loses, duplicates and corrupts nothing under any interleaving of
    producers and consumer. The items taken are exactly those of the calls that
    reserved a slot, a returned success among them; the consumer returns them in
    the order of their reservations, each as it was written; at most [capacity]
    are waiting; and a slot being written is neither read by the consumer nor
    written by another producer. *)
Theorem mpsc_queue_fifo {T} (dflt : T) capacity q0 es q
    (Hcap : in_width 64 capacity) (Hmake : make dflt capacity = Returns q0)
    (Hrun : exec_all dflt es q0 = Some q) (Hlen : len (reserved q) < 2 ^ 64) :
  reserved q ≡ₚ omap taken (producers q) /\
  (delivered q `prefix_of` reserved q) /\
  len (reserved q) <= len (delivered q) + capacity_ q0 /\
  (forall p v i, producers q !! p = Some v -> pc v = PWrite i ->
     (forall t, consumer q = CRead t -> index i q <> index t q) /\
     (forall p' v' j, p' <> p -> producers q !! p' = Some v' -> pc v' = PWrite j -> index i q <> index j q)).
Proof.
  pose proof (mpsc_make_inv dflt capacity q0 Hcap Hmake) as Hq0. destruct (mpsc_exec_all_inv dflt es q0 q Hq0 Hrun Hlen) as [Hq Ec].
  pose proof (mpsc_inv_bounds _ q Hq) as Hb. split; [|split; [|split]].
  - apply (exec_all_items dflt es q0); [|done]. unfold make in Hmake. destruct (_ =? 0); [done|]. injection Hmake as <-. constructor.
  - rewrite (m_fifo _ q Hq). apply prefix_take.
  - rewrite <- (m_head _ q Hq), <- (m_tail _ q Hq), <- Ec. lia.
  - intros p v i Hp Hpc. assert (Hc : claim v = Some i) by (unfold claim; by rewrite Hpc). destruct (claim_range _ q p v i Hq Hp Hc) as (Hi & Hrd & _). split.
    + intros t Ht E. pose proof (m_consumer _ q Hq) as Hco. unfold consumer_ok in Hco. rewrite Ht in Hco. destruct Hco as (-> & Hlt & Hr).
      apply (index_inj dflt q) in E as ->; [congruence|done|lia..].
    + intros p' v' j Hne Hp' Hpc' E. assert (Hc' : claim v' = Some j) by (unfold claim; by rewrite Hpc'). destruct (claim_range _ q p' v' j Hq Hp' Hc') as (Hj & _ & _).
      apply (index_inj dflt q) in E as ->; [|done|lia..]. apply Hne. by apply (m_claims _ q Hq p' p v' v j).
Qed.

Definition two_producers : list (event Z) :=
  [EvEnqueue 7; EvEnqueue 8; EvProducer 0 false; EvProducer 1 false; EvProducer 0 false; EvProducer 1 false; EvProducer 1 true; EvProducer 0 false;
   EvProducer 1 false; EvProducer 1 false; EvProducer 1 false; EvProducer 1 false; EvProducer 1 false; EvConsumer; EvConsumer; EvProducer 0 false; EvProducer 0 false;
   EvConsumer; EvConsumer; EvConsumer; EvConsumer; EvConsumer].

Lemma mpsc_queue_fifo_witness :
  exists q0 q, make 0 2 = Returns q0 /\ exec_all 0 two_producers q0 = Some q /\ reserved q = [7; 8] /\ delivered q = [7] /\
    reserved q ≡ₚ omap taken (producers q).
Proof.
  destruct (make 0 2) as [q0|x] eqn:E; [|exfalso; vm_compute in E; discriminate].
  destruct (exec_all 0 two_producers q0) as [q|] eqn:R; [|exfalso; vm_compute in E; injection E as <-; vm_compute in R; discriminate].
  assert (Hd : reserved q = [7; 8] /\ delivered q = [7]) by (vm_compute in E; injection E as <-; vm_compute in R; injection R as <-; split; reflexivity).
  destruct Hd as [Hr Hd]. exists q0, q. split; [done|]. split; [done|]. split; [done|]. split; [done|].
  apply (mpsc_queue_fifo 0 2 q0 two_producers q); [vm_compute; split; congruence|done|done|rewrite Hr; vm_compute; reflexivity].
Defined.

(** A producer loads [head_], then an item goes through the queue, then the
    producer loads [tail_]. *)
Definition stale_head : list (event Z) :=
  [EvEnqueue 7; EvProducer 0 false; EvEnqueue 8; EvProducer 1 false; EvProducer 1 false; EvProducer 1 false; EvProducer 1 false; EvProducer 1 false;
   EvConsumer; EvConsumer; EvConsumer; EvConsumer; EvConsumer; EvProducer 0 false; EvProducer 0 false].

(** [enqueue] can report a full queue that is empty: a [head_] loaded before
    the [tail_] it is compared with makes the unsigned difference wrap. *)
Theorem mpsc_spurious_full :
  exists q0 q v, make 0 1 = Returns q0 /\ exec_all 0 stale_head q0 = Some q /\ empty q = true /\ delivered q = [8] /\
    producers q !! 0%nat = Some v /\ pc v = PDone (Err BufferFull).
Proof.
  destruct (make 0 1) as [q0|x] eqn:E; [|exfalso; vm_compute in E; discriminate].
  destruct (exec_all 0 stale_head q0) as [q|] eqn:R; [|exfalso; vm_compute in E; injection E as <-; vm_compute in R; discriminate].
  assert (Hq : empty q = true /\ delivered q = [8] /\ producers q !! 0%nat = Some (mkProducer 7 (PDone (Err BufferFull))))
    by (vm_compute in E; injection E as <-; vm_compute in R; injection R as <-; split_and!; reflexivity).
  destruct Hq as (? & ? & ?). eexists q0, q, _. split_and!; done.
Qed.
