(* ===== verification/CoreEngine.v ===== *)
(** * Inter-core messaging

    [apex::core::CoreEngine] (apex_core/src/core_engine.cpp), [SpscMesh]
    (apex_core/src/spsc_mesh.cpp) and [CrossCoreDispatcher]
    (apex_core/src/cross_core_dispatcher.cpp): posting messages between cores, the
    coalesced wake-up of the receiving core, and the draining of its inbox.

    The inbox of one destination core [dst] is modelled: a queue per source core,
    the [drain_pending_] flag and the handlers posted to the core's io_context.
    The queues are the bounded FIFOs that [SpscQueue] implements. The source cores
    and the destination core are separate threads; an event is the code of one of
    them from one access to shared state to the next.

    The flag is cleared by a release store that is followed by plain loads of the
    queues, which no fence separates, so the store may still be in the core's store
    buffer when they run: [clear_buffered], with the event [EvFlush]. The other
    accesses cannot move past each other under total store order: a source's exchange
    on the flag empties its own buffer, and until it runs a message counts as not
    posted yet. *)

From S2P Require Import Prelude ErrorCode.

(** The operation codes: the four named ones and those of applications. *)
Inductive CrossCoreOp : Type := Noop | Shutdown | LegacyCrossCoreFn | Custom | AppOp (code : Z).

#[global] Instance CrossCoreOp_eq_dec : EqDecision CrossCoreOp.
Proof. solve_decision. Defined.

Record CoreMessage : Type := mkCoreMessage { op : CrossCoreOp; source_core : Z; data : Z }.

(** ** Dispatch *)

(** What a message makes the core call; a [LegacyCrossCoreFn] task is deleted
    after it ran, whether or not it threw. *)
Inductive action : Type :=
| RunTask (task : Z)
| CallHandler (o : CrossCoreOp) (source_core data : Z)
| CallMessageHandler (m : CoreMessage)
| Nothing.

Definition has_handler (handlers_ : list CrossCoreOp) (o : CrossCoreOp) : bool := bool_decide (o ∈ handlers_).

Definition dispatch_message (handlers_ : list CrossCoreOp) (message_handler_ : bool) (msg : CoreMessage) : action :=
  if decide (op msg = LegacyCrossCoreFn) then (if data msg =? 0 then Nothing else RunTask (data msg))
  else if has_handler handlers_ (op msg) then CallHandler (op msg) (source_core msg) (data msg)
  else if message_handler_ then CallMessageHandler msg
  else Nothing.

(** ** The inbox of one core *)

Inductive task : Type := TaskDrain | TaskDispatch (m : CoreMessage).

(** Where the destination core's thread is: inside [drain_all_for] at a source
    offset with a count of messages taken, before the clearing of the flag, or in
    the re-check of the queues that follows. *)
Inductive target_pc : Type :=
| TIdle
| TDrain (offset total : Z)
| TClear
| TRecheck (src : Z).

Record Inbox : Type := mkInbox {
  queues : list (list CoreMessage);
  drain_pending_ : bool;
  io_queue : list task;
  drain_rotate_ : Z;
  tpc : target_pc;
  (* sources that have enqueued and not yet called schedule_drain *)
  scheduling : gset Z;
  (* messages taken by the queues, and messages dispatched, with their source *)
  sent : list (Z * CoreMessage);
  dispatched : list (Z * CoreMessage);
  dispatched_direct : list CoreMessage;
  (* the store of false to drain_pending_ is in the core's store buffer *)
  clear_buffered : bool;
  (* a source has tested the flag while it was, and no drain was posted since *)
  missed : bool;
}.

Section Inbox.
Context (num_cores dst capacity batch_limit : Z).

Definition make_inbox : Inbox := mkInbox (replicate (Z.to_nat num_cores) []) false [] 0 TIdle ∅ [] [] [] false false.

Definition queue (src : Z) (b : Inbox) : list CoreMessage := default [] (queues b !! Z.to_nat src).

Definition with_tpc (p : target_pc) (b : Inbox) : Inbox :=
  mkInbox (queues b) (drain_pending_ b) (io_queue b) (drain_rotate_ b) p (scheduling b) (sent b) (dispatched b) (dispatched_direct b) (clear_buffered b) (missed b).

(** The buffered store reaches memory. *)
Definition flush (b : Inbox) : Inbox :=
  if clear_buffered b
  then mkInbox (queues b) false (io_queue b) (drain_rotate_ b) (tpc b) (scheduling b) (sent b) (dispatched b) (dispatched_direct b) false (missed b)
  else b.

(** [schedule_drain]: the exchange on the flag and the post of a drain. The exchange
    sees what is in memory; on the core itself it first empties the store buffer. *)
Definition schedule_drain (b : Inbox) : Inbox :=
  if drain_pending_ b
  then mkInbox (queues b) true (io_queue b) (drain_rotate_ b) (tpc b) (scheduling b) (sent b) (dispatched b) (dispatched_direct b) (clear_buffered b)
         (missed b || clear_buffered b)
  else mkInbox (queues b) true (io_queue b ++ [TaskDrain]) (drain_rotate_ b) (tpc b) (scheduling b) (sent b) (dispatched b) (dispatched_direct b) false false.

Definition post_direct (m : CoreMessage) (b : Inbox) : Inbox :=
  mkInbox (queues b) (drain_pending_ b) (io_queue b ++ [TaskDispatch m]) (drain_rotate_ b) (tpc b) (scheduling b) (sent b) (dispatched b) (dispatched_direct b) (clear_buffered b) (missed b).

(** [post_to] up to its call of [schedule_drain]; [src] is the posting core, or
    none for a thread that is not a core. *)
Definition post_to (src : option Z) (m : CoreMessage) (b : Inbox) : Result unit * Inbox :=
  if num_cores <=? dst then (Err Unknown, b) else
  match src with
  | Some s =>
      if (1 <? num_cores) && negb (s =? dst) then
        if len (queue s b) <? capacity then
          (Ok tt, mkInbox (<[Z.to_nat s := queue s b ++ [m]]> (queues b)) (drain_pending_ b) (io_queue b) (drain_rotate_ b) (tpc b)
                    ({[s]} ∪ scheduling b) (sent b ++ [(s, m)]) (dispatched b) (dispatched_direct b) (clear_buffered b) (missed b))
        else (Err CrossCoreQueueFull, b)
      else (Ok tt, post_direct m b)
  | None => (Ok tt, post_direct m b)
  end.

(** One iteration of the loops of [drain_all_for]. *)
Definition drain_step (offset total : Z) (b : Inbox) : Inbox :=
  let done_ := mkInbox (queues b) (drain_pending_ b) (io_queue b) ((drain_rotate_ b + 1) mod num_cores) TClear (scheduling b) (sent b) (dispatched b) (dispatched_direct b) (clear_buffered b) (missed b) in
  if num_cores <=? offset then done_
  else
    let src := u32 (drain_rotate_ b + offset) mod num_cores in
    if src =? dst then with_tpc (TDrain (offset + 1) total) b
    else if batch_limit <=? total then done_
    else
      match queue src b with
      | [] => with_tpc (TDrain (offset + 1) total) b
      | m :: rest =>
          mkInbox (<[Z.to_nat src := rest]> (queues b)) (drain_pending_ b) (io_queue b) (drain_rotate_ b) (TDrain offset (total + 1))
            (scheduling b) (sent b) (dispatched b ++ [(src, m)]) (dispatched_direct b) (clear_buffered b) (missed b)
      end.

(** One iteration of the re-check after a drain. *)
Definition recheck_step (src : Z) (b : Inbox) : Inbox :=
  if num_cores <=? src then with_tpc TIdle b
  else if src =? dst then with_tpc (TRecheck (src + 1)) b
  else match queue src b with [] => with_tpc (TRecheck (src + 1)) b | _ :: _ => with_tpc TIdle (schedule_drain (flush b)) end.

(** The destination core's next action: the next handler of its io_context, or
    the next access of the one it is running. *)
Definition target_step (b : Inbox) : option Inbox :=
  match tpc b with
  | TIdle =>
      match io_queue b with
      | [] => None
      | t :: rest =>
          let b' := mkInbox (queues b) (drain_pending_ b) rest (drain_rotate_ b) (tpc b) (scheduling b) (sent b) (dispatched b) (dispatched_direct b) (clear_buffered b) (missed b) in
          match t with
          | TaskDrain => Some (with_tpc (TDrain 0 0) b')
          | TaskDispatch m =>
              Some (mkInbox (queues b) (drain_pending_ b) rest (drain_rotate_ b) TIdle (scheduling b) (sent b) (dispatched b) (dispatched_direct b ++ [m]) (clear_buffered b) (missed b))
          end
      end
  | TDrain offset total => Some (drain_step offset total b)
  | TClear =>
      Some (mkInbox (queues b) (drain_pending_ b) (io_queue b) (drain_rotate_ b) (TRecheck 0) (scheduling b) (sent b) (dispatched b) (dispatched_direct b) true (missed b))
  | TRecheck src => Some (recheck_step src b)
  end.

(** ** Histories *)

Inductive event : Type :=
| EvPost (src : option Z) (m : CoreMessage)
| EvSchedule (src : Z)
| EvTarget
| EvFlush.

Definition exec (e : event) (b : Inbox) : option Inbox :=
  match e with
  | EvPost (Some s) m =>
      if decide (s ∈ scheduling b) then None
      else if (0 <=? s) && (s <? num_cores) then Some (post_to (Some s) m b).2 else None
  | EvPost None m => Some (post_to None m b).2
  | EvSchedule s =>
      if decide (s ∈ scheduling b)
      then Some (schedule_drain (mkInbox (queues b) (drain_pending_ b) (io_queue b) (drain_rotate_ b) (tpc b) (scheduling b ∖ {[s]}) (sent b) (dispatched b) (dispatched_direct b) (clear_buffered b) (missed b)))
      else None
  | EvTarget => target_step b
  | EvFlush => Some (flush b)
  end.

Fixpoint exec_all (es : list event) (b : Inbox) : option Inbox :=
  match es with [] => Some b | e :: es => match exec e b with Some b => exec_all es b | None => None end end.

(** Nothing is under way: no handler posted or running, no source between its
    enqueue and its [schedule_drain], no store in the buffer. *)
Definition quiescent (b : Inbox) : Prop := tpc b = TIdle /\ io_queue b = [] /\ scheduling b = ∅ /\ clear_buffered b = false.

Definition from (src : Z) (l : list (Z * CoreMessage)) : list CoreMessage := snd <$> filter (fun p => p.1 = src) l.

(** ** Invariant *)

Fixpoint count_drains (l : list task) : nat :=
  match l with [] => O | TaskDrain :: l => S (count_drains l) | TaskDispatch _ :: l => count_drains l end.
Definition drains_posted (b : Inbox) : nat := count_drains (io_queue b).
Definition draining (b : Inbox) : nat := match tpc b with TDrain _ _ | TClear => 1%nat | _ => 0%nat end.

(** The flag is set and will stay so until a drain clears it. *)
Definition wanted (b : Inbox) : bool := drain_pending_ b && negb (clear_buffered b).

Record inv (b : Inbox) : Prop := mk_inv {
  v_len : len (queues b) = num_cores;
  v_rotate : 0 <= drain_rotate_ b < num_cores;
  v_buffered : clear_buffered b = true -> drain_pending_ b = true;
  v_drain : (drains_posted b + draining b)%nat = if wanted b then 1%nat else 0%nat;
  v_wake src : 0 <= src < num_cores -> queue src b <> [] ->
    wanted b = true \/ src ∈ scheduling b \/ (exists i, tpc b = TRecheck i /\ i <= src) \/ missed b = true;
  v_fifo src : 0 <= src < num_cores -> from src (sent b) = from src (dispatched b) ++ queue src b;
  v_own : queue dst b = [];
  v_pc : match tpc b with TDrain o t => 0 <= o /\ 0 <= t | TRecheck i => 0 <= i | _ => True end;
}.

Local Ltac inbox_cbn := cbn [fst snd queues drain_pending_ io_queue drain_rotate_ tpc scheduling sent dispatched dispatched_direct].

Context (Hn : 0 < num_cores <= 2 ^ 31) (Hdst : 0 <= dst < num_cores).

Lemma from_app src l k : from src (l ++ k) = from src l ++ from src k.
Proof using. unfold from. by rewrite filter_app, fmap_app. Qed.

Lemma from_one src s m : from src [(s, m)] = if decide (s = src) then [m] else [].
Proof using. unfold from. rewrite filter_cons. cbn. by case_decide. Qed.

Lemma queue_insert qs s q src : 0 <= src -> 0 <= s < len qs ->
  default [] (<[Z.to_nat s := q]> qs !! Z.to_nat src) = if decide (s = src) then q else default ([] : list CoreMessage) (qs !! Z.to_nat src).
Proof using.
  intros Hs Hr. case_decide as E.
  - subst. rewrite list_lookup_insert_eq by (unfold len in *; lia). done.
  - rewrite list_lookup_insert_ne by lia. done.
Qed.

Lemma inbox_make_inv : inv make_inbox.
Proof using Hn Hdst.
  assert (Hq : forall src, queue src make_inbox = []).
  { intros src. unfold queue, make_inbox. cbn. destruct (replicate _ _ !! _) eqn:E; [|done]. by apply lookup_replicate in E as [-> _]. }
  constructor; try apply Hq; cbn; try done; try lia; [rewrite len_replicate; lia|].
  intros src _ H. by rewrite Hq in H.
Qed.

(** Steps that leave the queues and the records alone. *)
Lemma inbox_inv_frame b b' :
  inv b -> queues b' = queues b -> sent b' = sent b -> dispatched b' = dispatched b -> 0 <= drain_rotate_ b' < num_cores ->
  (clear_buffered b' = true -> drain_pending_ b' = true) ->
  (drains_posted b' + draining b')%nat = (if wanted b' then 1%nat else 0%nat) ->
  match tpc b' with TDrain o t => 0 <= o /\ 0 <= t | TRecheck i => 0 <= i | _ => True end ->
  (forall src, 0 <= src < num_cores -> queue src b <> [] ->
     wanted b' = true \/ src ∈ scheduling b' \/ (exists i, tpc b' = TRecheck i /\ i <= src) \/ missed b' = true) ->
  inv b'.
Proof using.
  intros [] Eq Es Ed Hr Hbuf Hd Hpc Hw.
  assert (Hq : forall src, queue src b' = queue src b) by (intros; unfold queue; by rewrite Eq).
  constructor; rewrite ?Eq, ?Es, ?Ed; try done; try (by rewrite Hq).
  - intros src Hsrc. rewrite Hq. auto.
  - intros src Hsrc. rewrite Hq. auto.
Qed.

Lemma drains_app l k : count_drains (l ++ k) = (count_drains l + count_drains k)%nat.
Proof using. induction l as [|[] l IH]; cbn; [done|by rewrite IH|done]. Qed.

Lemma flush_inv b : inv b -> inv (flush b).
Proof using.
  intros Hb. unfold flush. destruct (clear_buffered b) eqn:Ec; [|done]. pose proof (v_drain b Hb) as Hd. unfold wanted in Hd. rewrite Ec, andb_false_r in Hd.
  apply (inbox_inv_frame b); try done; try apply Hb. intros src Hsrc Hne. right. destruct (v_wake b Hb src Hsrc Hne) as [E|[?|[?|?]]]; [|by left|by right; left|by right; right].
  unfold wanted in E. by rewrite Ec, andb_false_r in E.
Qed.

Lemma flushed b : clear_buffered (flush b) = false.
Proof using. unfold flush. by destruct (clear_buffered b) eqn:E. Qed.

Definition unscheduled (s : Z) (b : Inbox) : Inbox :=
  mkInbox (queues b) (drain_pending_ b) (io_queue b) (drain_rotate_ b) (tpc b) (scheduling b ∖ {[s]}) (sent b) (dispatched b) (dispatched_direct b) (clear_buffered b) (missed b).

(** The exchange, by a source that then has nothing more to do, or by the core. *)
Lemma schedule_drain_inv b S p :
  inv b -> match p with TDrain o t => 0 <= o /\ 0 <= t | TRecheck i => 0 <= i | _ => True end ->
  draining b = draining (with_tpc p b) ->
  inv (schedule_drain (mkInbox (queues b) (drain_pending_ b) (io_queue b) (drain_rotate_ b) p S (sent b) (dispatched b) (dispatched_direct b) (clear_buffered b) (missed b))).
Proof using.
  intros Hb Hp Hdr. unfold schedule_drain. cbn [drain_pending_ clear_buffered missed]. pose proof (v_drain b Hb) as Hd. rewrite Hdr in Hd. unfold wanted in Hd. destruct (drain_pending_ b) eqn:Ep.
  - apply (inbox_inv_frame b); try done; try apply Hb. intros src _ _. unfold wanted. cbn. destruct (clear_buffered b); [right; right; right; by rewrite orb_true_r|by left].
  - apply (inbox_inv_frame b); try done; try apply Hb; [|by left]. unfold drains_posted, wanted, draining in *. cbn in *. rewrite drains_app. cbn. lia.
Qed.

Lemma post_inv src m b : inv b -> (match src with Some s => 0 <= s < num_cores | None => True end) -> inv (post_to src m b).2.
Proof using Hn Hdst.
  intros Hb Hs. unfold post_to. destruct (num_cores <=? dst); [done|].
  assert (Hdirect : inv (post_direct m b)).
  { apply (inbox_inv_frame b); try done; try apply Hb. pose proof (v_drain b Hb). unfold drains_posted, draining, wanted in *. cbn. rewrite drains_app. cbn. lia. }
  destruct src as [s|]; [|done]. destruct (1 <? num_cores); [|done]. destruct (Z.eqb_spec s dst) as [|Hne]; [done|]. cbn.
  destruct (_ <? capacity); [|done]. pose proof (v_len b Hb) as Hl.
  assert (Hq : forall src, 0 <= src -> default [] (<[Z.to_nat s := queue s b ++ [m]]> (queues b) !! Z.to_nat src) = if decide (s = src) then queue s b ++ [m] else queue src b).
  { intros src Hsrc. rewrite queue_insert by lia. done. }
  constructor; inbox_cbn; try apply Hb.
  - by rewrite len_insert.
  - intros src Hsrc. unfold queue. inbox_cbn. rewrite Hq by lia. case_decide as E; [subst; right; left; set_solver|].
    intros Hne'. destruct (v_wake b Hb src Hsrc Hne') as [?|[?|?]]; [by left|right; left; set_solver|by right; right].
  - intros src Hsrc. unfold queue. inbox_cbn. rewrite Hq by lia. rewrite from_app, from_one, (v_fifo b Hb) by done.
    case_decide as E; [subst; by rewrite app_assoc|]. by rewrite app_nil_r.
  - unfold queue. inbox_cbn. rewrite Hq by lia. rewrite decide_False by done. apply Hb.
Qed.

(** While a drain runs, the flag is set in memory. *)
Lemma draining_wanted b : inv b -> draining b = 1%nat -> wanted b = true /\ drain_pending_ b = true /\ clear_buffered b = false.
Proof using.
  intros Hb Hd. pose proof (v_drain b Hb) as H. rewrite Hd in H. assert (wanted b = true) as Hw by (destruct (wanted b); [done|lia]).
  split; [done|]. unfold wanted in Hw. apply andb_true_iff in Hw as [? Hc]. by destruct (clear_buffered b).
Qed.

Lemma drain_step_inv o t b : inv b -> tpc b = TDrain o t -> inv (drain_step o t b).
Proof using Hn Hdst.
  intros Hb Hpc. pose proof (v_pc b Hb) as Hv. rewrite Hpc in Hv. assert (Hdr : draining b = 1%nat) by (unfold draining; by rewrite Hpc).
  destruct (draining_wanted b Hb Hdr) as (Hw & Hp & Hc). pose proof (v_drain b Hb) as Hd. rewrite Hdr, Hw in Hd.
  assert (Hw' : forall q io r p S se di dd, wanted (mkInbox q (drain_pending_ b) io r p S se di dd (clear_buffered b) (missed b)) = true) by (intros; exact Hw).
  assert (Hdone : forall r, 0 <= r < num_cores -> inv (mkInbox (queues b) (drain_pending_ b) (io_queue b) r TClear (scheduling b) (sent b) (dispatched b) (dispatched_direct b) (clear_buffered b) (missed b))).
  { intros r Hr. apply (inbox_inv_frame b); try done; [by rewrite Hw'|]. intros; by left. }
  unfold drain_step. pose proof (Z.mod_pos_bound (drain_rotate_ b + 1) num_cores ltac:(lia)) as Hr1.
  destruct (num_cores <=? o); [by apply Hdone|].
  set (src := u32 (drain_rotate_ b + o) mod num_cores). pose proof (Z.mod_pos_bound (u32 (drain_rotate_ b + o)) num_cores ltac:(lia)) as Hsrc. fold src in Hsrc.
  assert (Hnext : inv (with_tpc (TDrain (o + 1) t) b)) by (apply (inbox_inv_frame b); try done; try apply Hb; [unfold with_tpc; by rewrite Hw'|cbn; lia|intros; by left]).
  destruct (Z.eqb_spec src dst) as [|Hne]; [done|]. destruct (batch_limit <=? t); [by apply Hdone|].
  destruct (queue src b) as [|m rest] eqn:Eq; [done|]. pose proof (v_len b Hb) as Hl.
  constructor; inbox_cbn; try apply Hb; try done; try lia.
  - by rewrite len_insert.
  - rewrite Hw'. done.
  - intros; left. apply Hw'.
  - intros s Hs. unfold queue. inbox_cbn. rewrite queue_insert by lia. rewrite from_app, from_one, (v_fifo b Hb) by done.
    case_decide as E; [|by rewrite app_nil_r]. subst s. rewrite Eq. by rewrite <- app_assoc.
  - unfold queue. inbox_cbn. rewrite queue_insert by lia. rewrite decide_False by done. apply Hb.
Qed.

Lemma recheck_step_inv i b : inv b -> tpc b = TRecheck i -> inv (recheck_step i b).
Proof using Hn Hdst.
  intros Hb Hpc. pose proof (v_pc b Hb) as Hv. rewrite Hpc in Hv. pose proof (v_drain b Hb) as Hd. unfold draining in Hd. rewrite Hpc in Hd.
  unfold recheck_step. destruct (Z.leb_spec num_cores i) as [Hge|Hlt].
  { apply (inbox_inv_frame b); try done; try apply Hb. intros src Hsrc Hne. destruct (v_wake b Hb src Hsrc Hne) as [?|[?|[(j & E & ?)|?]]]; [by left|by right; left| |by right; right; right].
    rewrite Hpc in E. injection E as <-. lia. }
  assert (Hnext : queue i b = [] -> inv (with_tpc (TRecheck (i + 1)) b)).
  { intros Eq. apply (inbox_inv_frame b); try done; try apply Hb; [cbn; lia|]. intros src Hsrc Hne.
    destruct (v_wake b Hb src Hsrc Hne) as [?|[?|[(j & E & ?)|?]]]; [by left|by right; left| |by right; right; right]. rewrite Hpc in E. injection E as <-.
    right; right; left. exists (i + 1). split; [done|]. assert (src <> i) by congruence. lia. }
  destruct (Z.eqb_spec i dst) as [->|Hne]; [apply Hnext, Hb|]. destruct (queue i b) eqn:Eq; [by apply Hnext|].
  pose proof (flush_inv b Hb) as Hf. assert (Hpf : tpc (flush b) = TRecheck i) by (unfold flush; by destruct (clear_buffered b)).
  pose proof (schedule_drain_inv (flush b) (scheduling (flush b)) TIdle Hf I) as H. unfold draining in H. rewrite Hpf in H. specialize (H eq_refl).
  unfold schedule_drain in *. cbn [drain_pending_] in H. by destruct (drain_pending_ (flush b)).
Qed.

Lemma inbox_exec_inv e b b' : inv b -> exec e b = Some b' -> inv b'.
Proof using Hn Hdst.
  intros Hb. destruct e as [[s|] m|s| |]; cbn [exec].
  - case_decide; [done|]. destruct (Z.leb_spec 0 s), (Z.ltb_spec s num_cores); cbn; try done. intros [= <-]. apply post_inv; [done|lia].
  - intros [= <-]. by apply post_inv.
  - case_decide; [|done]. intros [= <-]. apply (schedule_drain_inv b); [done|apply Hb|done].
  - unfold target_step. destruct (tpc b) as [|o t| |i] eqn:Hpc.
    + destruct (io_queue b) as [|t rest] eqn:Eio; [done|]. pose proof (v_drain b Hb) as Hd. unfold drains_posted, draining in Hd. rewrite Hpc, Eio in Hd.
      destruct t as [|m]; cbn in Hd; intros [= <-].
      * assert (Ep : wanted b = true) by (destruct (wanted b); [done|lia]). rewrite Ep in Hd. unfold wanted in Ep.
        apply (inbox_inv_frame b); try done; try apply Hb; [unfold drains_posted, draining, wanted; cbn; rewrite Ep; lia|]. intros; by left.
      * apply (inbox_inv_frame b); try done; try apply Hb. intros src Hsrc Hne. destruct (v_wake b Hb src Hsrc Hne) as [?|[?|[(j & E & ?)|?]]]; [by left|by right; left| |by right; right; right]. by rewrite Hpc in E.
    + intros [= <-]. by apply drain_step_inv.
    + intros [= <-]. assert (Hdr : draining b = 1%nat) by (unfold draining; by rewrite Hpc). destruct (draining_wanted b Hb Hdr) as (Hw & Hp & Hc).
      pose proof (v_drain b Hb) as Hd. rewrite Hdr, Hw in Hd.
      apply (inbox_inv_frame b); try done; try apply Hb; [unfold drains_posted, draining, wanted in *; inbox_cbn; rewrite andb_false_r; lia|].
      intros src Hsrc Hne. right; right; left. exists 0. split; [done|lia].
    + intros [= <-]. by apply recheck_step_inv.
  - intros [= <-]. by apply flush_inv.
Qed.

Lemma inbox_exec_all_inv es b b' : inv b -> exec_all es b = Some b' -> inv b'.
Proof using Hn Hdst.
  revert b. induction es as [|e es IH]; intros b Hb; cbn [exec_all]; [by intros [= <-]|]. destruct (exec e b) as [b1|] eqn:E; [|done].
  apply IH. by eapply inbox_exec_inv.
Qed.

(** ** Every posted message is dispatched *)

Definition no_post (e : event) : Prop := match e with EvPost _ _ => False | _ => True end.


Fixpoint total (qs : list (list CoreMessage)) : nat := match qs with [] => O | q :: qs => (length q + total qs)%nat end.
Definition backlog (b : Inbox) : nat := total (queues b).

Lemma total_insert qs i q q' : qs !! i = Some q -> (total (<[i := q']> qs) + length q = total qs + length q')%nat.
Proof using.
  revert i. induction qs as [|x qs IH]; intros [|i] E; [done..|injection E as ->; cbn; lia|]. specialize (IH i E). change (<[S i := q']> (x :: qs)) with (x :: <[i := q']> qs). cbn [total]. lia.
Qed.

Lemma total_zero qs : total qs = O <-> forall i q, qs !! i = Some q -> q = [].
Proof using.
  induction qs as [|x qs IH]; cbn; [split; [intros _ i q E; by rewrite lookup_nil in E|done]|]. split.
  - intros H [|i] q; cbn; [intros [= <-]; destruct x; [done|cbn in H; lia]|]. apply IH. lia.
  - intros H. assert (x = []) as -> by (by apply (H O)). apply IH. intros i q. apply (H (S i)).
Qed.

Lemma backlog_zero b : inv b -> (backlog b = O <-> forall src, 0 <= src < num_cores -> queue src b = []).
Proof using.
  intros Hb. pose proof (v_len b Hb) as Hl. unfold len in Hl. unfold backlog. rewrite total_zero. split.
  - intros H src Hsrc. unfold queue. destruct (queues b !! Z.to_nat src) eqn:E; [by apply H in E|done].
  - intros H i q E. pose proof (lookup_lt_Some _ _ _ E). specialize (H (Z.of_nat i) ltac:(lia)). unfold queue in H. by rewrite Nat2Z.id, E in H.
Qed.

(** [b'] is reached from [b] by the destination core alone. *)
Definition target_reaches (b b' : Inbox) : Prop := exists k, exec_all (replicate k EvTarget) b = Some b'.

Lemma reaches_refl b : target_reaches b b.
Proof using. by exists O. Qed.

Lemma reaches_step b b1 b' : target_step b = Some b1 -> target_reaches b1 b' -> target_reaches b b'.
Proof using. intros E [k Hk]. exists (S k). cbn. by rewrite E. Qed.

Lemma exec_all_app es1 es2 b : exec_all (es1 ++ es2) b = match exec_all es1 b with Some b1 => exec_all es2 b1 | None => None end.
Proof using. revert b. induction es1 as [|e es1 IH]; intros b; cbn; [done|]. by destruct (exec e b). Qed.

Lemma reaches_trans b b1 b' : target_reaches b b1 -> target_reaches b1 b' -> target_reaches b b'.
Proof using. intros [k Hk] [j Hj]. exists (k + j)%nat. by rewrite replicate_add, exec_all_app, Hk. Qed.

Lemma reaches_inv b b' : inv b -> target_reaches b b' -> inv b'.
Proof using Hn Hdst. intros Hb [k Hk]. by eapply inbox_exec_all_inv. Qed.

Context (Hlim : 0 < batch_limit).

(** The queues at the offsets before [o] are empty. *)
Definition scanned (o : Z) (b : Inbox) : Prop := forall i, 0 <= i < o -> queue ((drain_rotate_ b + i) mod num_cores) b = [].

Lemma scanned_all o b : inv b -> num_cores <= o -> scanned o b -> backlog b = O.
Proof using Hn.
  intros Hb Ho Hs. apply backlog_zero; [done|]. intros src Hsrc. pose proof (Z.mod_pos_bound (src - drain_rotate_ b) num_cores ltac:(lia)) as Hm.
  specialize (Hs ((src - drain_rotate_ b) mod num_cores) ltac:(lia)). rewrite Zplus_mod_idemp_r in Hs.
  replace (drain_rotate_ b + (src - drain_rotate_ b)) with src in Hs by lia. by rewrite Z.mod_small in Hs.
Qed.

(** The loops of [drain_all_for] end; a drain from the start that found a
    backlog has taken at least one message. *)
Lemma drain_reaches b o t :
  inv b -> tpc b = TDrain o t ->
  exists b', target_reaches b b' /\ tpc b' = TClear /\ scheduling b' = scheduling b /\ io_queue b' = io_queue b /\
    (backlog b' <= backlog b)%nat /\ (t = 0 -> scanned o b -> (0 < backlog b)%nat -> (backlog b' < backlog b)%nat).
Proof using Hn Hdst Hlim.
  remember (Z.to_nat (num_cores - o) + backlog b)%nat as n eqn:En. revert b o t En.
  induction n as [n IH] using lt_wf_ind. intros b o t -> Hb Hpc.
  pose proof (v_pc b Hb) as Hv. rewrite Hpc in Hv. pose proof (v_rotate b Hb) as Hrot.
  assert (Hstep : target_step b = Some (drain_step o t b)) by (unfold target_step; by rewrite Hpc).
  pose proof (drain_step_inv o t b Hb Hpc) as Hb1. unfold drain_step in Hstep, Hb1.
  destruct (Z.leb_spec num_cores o) as [Hge|Hlt].
  { eexists. split; [eapply reaches_step; [exact Hstep|apply reaches_refl]|]. split_and!; try done. intros -> Hsc Hpos.
    pose proof (scanned_all o b Hb Hge Hsc). lia. }
  assert (Hu : u32 (drain_rotate_ b + o) = drain_rotate_ b + o) by (apply wrap_small; unfold in_width; lia). rewrite Hu in *.
  set (src := (drain_rotate_ b + o) mod num_cores) in *.
  assert (Hnext : queue src b = [] -> inv (with_tpc (TDrain (o + 1) t) b) -> target_step b = Some (with_tpc (TDrain (o + 1) t) b) ->
    exists b', target_reaches b b' /\ tpc b' = TClear /\ scheduling b' = scheduling b /\ io_queue b' = io_queue b /\
    (backlog b' <= backlog b)%nat /\ (t = 0 -> scanned o b -> (0 < backlog b)%nat -> (backlog b' < backlog b)%nat)).
  { intros Eq Hbn Hs. edestruct (IH (Z.to_nat (num_cores - (o + 1)) + backlog b)%nat ltac:(lia) (with_tpc (TDrain (o + 1) t) b) (o + 1) t) as (b' & Hr & Hp & Hsch & Hio & Hbl & Hst); [done..|].
    exists b'. split; [by eapply reaches_step|]. split_and!; try done. intros Ht Hsc. apply Hst; [done|]. intros i Hi.
    change (queue ((drain_rotate_ b + i) mod num_cores) b = []). destruct (decide (i = o)) as [->|]; [done|]. apply Hsc. lia. }
  destruct (Z.eqb_spec src dst) as [E|Hne]; [apply Hnext; [rewrite E; apply Hb|done..]|].
  destruct (Z.leb_spec batch_limit t).
  { eexists. split; [eapply reaches_step; [exact Hstep|apply reaches_refl]|]. split_and!; try done. lia. }
  destruct (queue src b) as [|m rest] eqn:Eq; [by apply Hnext|].
  set (b1 := mkInbox _ _ _ _ _ _ _ _ _ _ _) in Hstep, Hb1.
  assert (Hbl : backlog b = S (backlog b1)).
  { unfold queue in Eq. destruct (queues b !! Z.to_nat src) as [q|] eqn:E; [|done]. cbn in Eq. subst q.
    pose proof (total_insert _ _ _ rest E) as Ht. unfold backlog, b1. cbn in *. lia. }
  destruct (IH (Z.to_nat (num_cores - o) + backlog b1)%nat ltac:(lia) b1 o (t + 1)) as (b' & Hr & Hp & Hs & Hio & Hm & _); [done..|].
  exists b'. split; [by eapply reaches_step|]. split_and!; try done; lia.
Qed.

(** The re-check ends, and posts a drain only if some queue is not empty. *)
Lemma recheck_reaches b i :
  inv b -> tpc b = TRecheck i ->
  exists b', target_reaches b b' /\ tpc b' = TIdle /\ scheduling b' = scheduling b /\ backlog b' = backlog b /\
    (length (io_queue b') <= length (io_queue b) + Nat.min 1 (backlog b))%nat.
Proof using Hn Hdst.
  remember (Z.to_nat (num_cores - i)) as n eqn:En. revert b i En. induction n as [n IH] using lt_wf_ind. intros b i -> Hb Hpc.
  pose proof (v_pc b Hb) as Hv. rewrite Hpc in Hv. pose proof (recheck_step_inv i b Hb Hpc) as Hb1.
  assert (Hstep : target_step b = Some (recheck_step i b)) by (unfold target_step; by rewrite Hpc).
  unfold recheck_step in Hstep, Hb1. destruct (Z.leb_spec num_cores i).
  { eexists. split; [eapply reaches_step; [exact Hstep|apply reaches_refl]|]. split_and!; try done. cbn. lia. }
  assert (Hnext : inv (with_tpc (TRecheck (i + 1)) b) -> target_step b = Some (with_tpc (TRecheck (i + 1)) b) ->
    exists b', target_reaches b b' /\ tpc b' = TIdle /\ scheduling b' = scheduling b /\ backlog b' = backlog b /\
    (length (io_queue b') <= length (io_queue b) + Nat.min 1 (backlog b))%nat).
  { intros Hbn Hs. destruct (IH (Z.to_nat (num_cores - (i + 1))) ltac:(lia) (with_tpc (TRecheck (i + 1)) b) (i + 1)) as (b' & Hr & Hrest); [done..|].
    exists b'. split; [by eapply reaches_step|done]. }
  destruct (i =? dst); [by apply Hnext|]. destruct (queue i b) as [|m rest] eqn:Eq; [by apply Hnext|].
  eexists. split; [eapply reaches_step; [exact Hstep|apply reaches_refl]|]. split; [done|].
  assert (Hnz : backlog b <> O) by (intros E; rewrite (backlog_zero b Hb) in E; rewrite E in Eq by lia; done).
  unfold schedule_drain, flush. destruct (clear_buffered b), (drain_pending_ b); split_and!; try done; cbn [with_tpc io_queue drain_pending_]; rewrite ?length_app; cbn [length]; lia.
Qed.

(** From the clearing of the flag to idle. *)
Lemma clear_reaches b :
  inv b -> tpc b = TClear ->
  exists b', target_reaches b b' /\ tpc b' = TIdle /\ scheduling b' = scheduling b /\ backlog b' = backlog b /\
    (length (io_queue b') <= length (io_queue b) + Nat.min 1 (backlog b))%nat.
Proof using Hn Hdst.
  intros Hb Hpc. set (b1 := mkInbox (queues b) (drain_pending_ b) (io_queue b) (drain_rotate_ b) (TRecheck 0) (scheduling b) (sent b) (dispatched b) (dispatched_direct b) true (missed b)).
  assert (Hst : target_step b = Some b1) by (unfold target_step; by rewrite Hpc).
  assert (Hb1 : inv b1) by (by eapply (inbox_exec_inv EvTarget)).
  destruct (recheck_reaches b1 0 Hb1 eq_refl) as (b' & Hr & Hrest). exists b'. split; [by eapply reaches_step|done].
Qed.

(** A drain handler from its start: it takes a message if there is one. *)
Lemma drain_task_reaches b o t :
  inv b -> tpc b = TDrain o t ->
  exists b', target_reaches b b' /\ tpc b' = TIdle /\ scheduling b' = scheduling b /\ (backlog b' <= backlog b)%nat /\
    (o = 0 -> t = 0 -> (0 < backlog b)%nat -> (backlog b' < backlog b)%nat) /\
    (length (io_queue b') <= length (io_queue b) + Nat.min 1 (backlog b'))%nat.
Proof using Hn Hdst Hlim.
  intros Hb Hpc. destruct (drain_reaches b o t Hb Hpc) as (b1 & Hr1 & Hpc1 & Hs1 & Hio1 & Hbl1 & Hlt1).
  destruct (clear_reaches b1) as (b2 & Hr2 & Hpc2 & Hs2 & Hbl2 & Hio2); [by eapply reaches_inv|done|].
  exists b2. split; [by eapply reaches_trans|]. rewrite Hbl2, <- Hio1. split_and!; try done; [congruence|].
  intros -> ->. apply Hlt1; [done|]. intros i Hi. lia.
Qed.

(** Finishing whatever handler is running. *)
Lemma target_idles b : inv b -> exists b', target_reaches b b' /\ tpc b' = TIdle /\ scheduling b' = scheduling b.
Proof using Hn Hdst Hlim.
  intros Hb. destruct (tpc b) as [|o t| |i] eqn:Hpc.
  - exists b. split; [apply reaches_refl|done].
  - destruct (drain_task_reaches b o t Hb Hpc) as (b' & ? & ? & ? & _). by exists b'.
  - destruct (clear_reaches b Hb Hpc) as (b' & ? & ? & ? & _). by exists b'.
  - destruct (recheck_reaches b i Hb Hpc) as (b' & ? & ? & ? & _). by exists b'.
Qed.

(** Left alone, the destination core runs all posted handlers. *)
Lemma target_settles b : inv b -> tpc b = TIdle -> exists b', target_reaches b b' /\ tpc b' = TIdle /\ scheduling b' = scheduling b /\ io_queue b' = [].
Proof using Hn Hdst Hlim.
  remember (backlog b) as m eqn:Em. remember (length (io_queue b)) as l eqn:El. revert l b Em El.
  induction m as [m IHm] using lt_wf_ind. induction l as [l IHl] using lt_wf_ind. intros b -> -> Hb Hpc.
  destruct (io_queue b) as [|t rest] eqn:Eio; [exists b; split; [apply reaches_refl|done]|].
  assert (Hst : exists b1, target_step b = Some b1 /\ queues b1 = queues b /\ scheduling b1 = scheduling b /\ io_queue b1 = rest /\
    tpc b1 = match t with TaskDrain => TDrain 0 0 | TaskDispatch _ => TIdle end).
  { unfold target_step. rewrite Hpc, Eio. destruct t; eexists; (split; [done|]); done. }
  destruct Hst as (b1 & Hst & Hq1 & Hs1 & Hio1 & Hpc1). assert (Hb1 : inv b1) by (by eapply (inbox_exec_inv EvTarget)).
  assert (Hbl1 : backlog b1 = backlog b) by (unfold backlog; by rewrite Hq1). rewrite <- Hs1.
  destruct t as [|msg].
  - destruct (drain_task_reaches b1 0 0 Hb1 Hpc1) as (b2 & Hr2 & Hpc2 & Hs2 & Hle & Hlt & Hio2). assert (Hb2 : inv b2) by (by eapply reaches_inv).
    assert (Hfin : exists b', target_reaches b2 b' /\ tpc b' = TIdle /\ scheduling b' = scheduling b2 /\ io_queue b' = []).
    { destruct (decide (backlog b1 = O)) as [E|E].
      - apply (IHl (length (io_queue b2))); [rewrite Hio1 in Hio2; cbn; lia|lia|done..].
      - apply (IHm (backlog b2) ltac:(specialize (Hlt eq_refl eq_refl); lia) (length (io_queue b2))); done. }
    destruct Hfin as (b' & Hr & ? & ? & ?). exists b'. split; [|split_and!; [done|congruence|done]].
    eapply reaches_step; [done|]. by eapply reaches_trans.
  - destruct (IHl (length (io_queue b1)) ltac:(rewrite Hio1; cbn; lia) b1) as (b' & Hr & Hrest); [done..|].
    exists b'. split; [by eapply reaches_step|done].
Qed.

(** Sources finish their pending [schedule_drain] calls. *)
Lemma sources_schedule b : inv b -> clear_buffered b = false ->
  exists es b', Forall no_post es /\ exec_all es b = Some b' /\ scheduling b' = ∅ /\ clear_buffered b' = false /\ (missed b = false -> missed b' = false).
Proof using Hn Hdst Hlim.
  remember (size (scheduling b)) as n eqn:En. revert b En. induction n as [|n IH]; intros b En Hb Hc.
  { exists [], b. split_and!; [constructor|done| |done|done]. by apply leibniz_equiv, size_empty_iff. }
  destruct (size_pos_elem_of (scheduling b)) as [s Hs]; [lia|].
  assert (E1 : exec (EvSchedule s) b = Some (schedule_drain (unscheduled s b))) by (cbn; by rewrite decide_True).
  assert (Es : scheduling (schedule_drain (unscheduled s b)) = scheduling b ∖ {[s]} /\ clear_buffered (schedule_drain (unscheduled s b)) = false /\
    (missed b = false -> missed (schedule_drain (unscheduled s b)) = false)).
  { unfold schedule_drain. cbn. destruct (drain_pending_ b); cbn; [|done]. rewrite Hc, orb_false_r. done. }
  destruct Es as (Es & Ec & Em).
  destruct (IH (schedule_drain (unscheduled s b))) as (es & b' & Hes & Hr & He & Hc' & Hm); [rewrite Es, size_difference, size_singleton by set_solver; lia|by eapply inbox_exec_inv|done|].
  exists (EvSchedule s :: es), b'. split_and!; [by constructor| |done|done|auto]. cbn [exec_all]. by rewrite E1.
Qed.

(** The core alone does not miss a wake-up. *)
Lemma target_missed b b' : target_reaches b b' -> missed b = false -> missed b' = false.
Proof using.
  intros [k Hk]. revert b Hk. induction k as [|k IH]; intros b; cbn [replicate exec_all exec]; [by intros [= <-]|].
  destruct (target_step b) as [b1|] eqn:E; [|done]. intros Hk Hm. apply (IH b1 Hk). unfold target_step in E. destruct (tpc b).
  - destruct (io_queue b) as [|[] ?]; [done|..]; by injection E as <-.
  - injection E as <-. unfold drain_step. split_ifs; try done. by destruct (queue _ b).
  - by injection E as <-.
  - injection E as <-. unfold recheck_step. split_ifs; try done. destruct (queue _ b); [done|]. unfold schedule_drain. cbn [missed with_tpc].
    destruct (drain_pending_ (flush b)); [|done]. cbn. rewrite flushed, orb_false_r. unfold flush. by destruct (clear_buffered b).
Qed.

Lemma no_post_sent es b b' : Forall no_post es -> exec_all es b = Some b' -> sent b' = sent b.
Proof using.
  intros H. revert b. induction H as [|e es He _ IH]; intros b; cbn [exec_all]; [by intros [= <-]|].
  destruct (exec e b) as [b1|] eqn:E; [|done]. intros ->%IH. destruct e as [| | |]; [done|..]; cbn [exec] in E.
  - case_decide; [|done]. injection E as <-. unfold schedule_drain. by destruct (drain_pending_ _).
  - unfold target_step in E. destruct (tpc b).
    + destruct (io_queue b) as [|[] ?]; [done|..]; by injection E as <-.
    + injection E as <-. unfold drain_step. split_ifs; try done. by destruct (queue _ b).
    + by injection E as <-.
    + injection E as <-. unfold recheck_step, schedule_drain, flush. split_ifs; try done; destruct (queue _ b), (clear_buffered b); try done; by destruct (drain_pending_ b).
  - injection E as <-. unfold flush. by destruct (clear_buffered b).
Qed.

Lemma inbox_settles b : inv b -> exists es b', Forall no_post es /\ exec_all es b = Some b' /\ quiescent b' /\ (missed b = false -> missed b' = false).
Proof using Hn Hdst Hlim.
  intros Hb. destruct (sources_schedule (flush b) (flush_inv b Hb) (flushed b)) as (es & b1 & Hes & Hr1 & Hs1 & _ & Hm1).
  assert (Hb1 : inv b1) by (eapply inbox_exec_all_inv; [by apply flush_inv|done]).
  destruct (target_idles b1 Hb1) as (b2 & Ht2 & Hpc2 & Hs2). assert (Hb2 : inv b2) by (by eapply reaches_inv).
  destruct (target_settles b2 Hb2 Hpc2) as (b3 & Ht3 & Hpc3 & Hs3 & Hio3).
  pose proof (target_missed _ _ Ht2) as Hm2. pose proof (target_missed _ _ Ht3) as Hm3. destruct Ht2 as [k2 Hr2], Ht3 as [k3 Hr3].
  exists (EvFlush :: es ++ replicate k2 EvTarget ++ replicate k3 EvTarget ++ [EvFlush]), (flush b3). split_and!.
  - constructor; [done|]. apply Forall_app; split; [done|]. apply Forall_app; split; [by apply Forall_replicate|]. apply Forall_app; split; [by apply Forall_replicate|]. by repeat constructor.
  - cbn [exec_all exec]. by rewrite exec_all_app, Hr1, exec_all_app, Hr2, exec_all_app, Hr3.
  - split_and!; try apply flushed; unfold flush; destruct (clear_buffered b3); cbn; congruence.
  - intros Hm. assert (missed (flush b) = false) as Hf by (unfold flush; by destruct (clear_buffered b)). specialize (Hm3 (Hm2 (Hm1 Hf))). unfold flush. by destruct (clear_buffered b3).
Qed.

Lemma quiescent_idle b : inv b -> quiescent b -> drain_pending_ b = false.
Proof using.
  intros Hb (Hpc & Hio & _ & Hc). pose proof (v_drain b Hb) as Hd. unfold drains_posted, draining, wanted in Hd. rewrite Hpc, Hio, Hc, andb_true_r in Hd. cbn in Hd. by destruct (drain_pending_ b).
Qed.

Lemma quiescent_dispatched b src : inv b -> quiescent b -> missed b = false -> 0 <= src < num_cores -> from src (dispatched b) = from src (sent b).
Proof using.
  intros Hb Hq Hm Hsrc. rewrite (v_fifo b Hb) by done. destruct (queue src b) as [|m rest] eqn:Eq; [by rewrite app_nil_r|].
  exfalso. pose proof (quiescent_idle b Hb Hq) as Hp. destruct Hq as (Hpc & _ & Hs & _).
  destruct (v_wake b Hb src Hsrc) as [E|[E|[(i & E & _)|E]]]; [by rewrite Eq| |rewrite Hs in E; by apply not_elem_of_empty in E|congruence|congruence].
  unfold wanted in E. by rewrite Hp in E.
Qed.

(** A post to an idle core wakes it. *)
Lemma post_wakes b s m : inv b -> quiescent b -> 0 <= s < num_cores -> s <> dst -> len (queue s b) < capacity ->
  exists b', exec_all [EvPost (Some s) m; EvSchedule s] b = Some b' /\ missed b' = false /\ sent b' = sent b ++ [(s, m)].
Proof using Hn Hdst.
  clear Hlim. intros Hb Hq Hs Hne Hroom. pose proof (quiescent_idle b Hb Hq) as Hp. destruct Hq as (_ & _ & Hsch & _). cbn [exec_all exec]. rewrite decide_False by (rewrite Hsch; set_solver).
  rewrite (proj2 (Z.leb_le 0 s)), (proj2 (Z.ltb_lt s num_cores)) by lia. cbn [andb]. unfold post_to. rewrite (proj2 (Z.leb_gt num_cores dst)) by lia.
  rewrite (proj2 (Z.ltb_lt 1 num_cores)), (proj2 (Z.eqb_neq s dst)), (proj2 (Z.ltb_lt (len (queue s b)) capacity)) by lia. cbn [andb negb snd scheduling].
  rewrite decide_True by set_solver. eexists. split; [done|]. unfold schedule_drain. cbn [drain_pending_]. by rewrite Hp.
Qed.

End Inbox.


Definition sample_posts : list event :=
  [EvPost (Some 0) (mkCoreMessage Custom 0 5); EvSchedule 0; EvTarget; EvPost (Some 2) (mkCoreMessage Custom 2 6); EvTarget; EvSchedule 2;
   EvPost (Some 0) (mkCoreMessage Custom 0 7); EvTarget].


(** The missed wake-up: core 0 posts after the core has looked at its queue again and
    before the cleared flag is in memory, finds the flag set and posts no drain. The
    message stays in the queue with nothing left to run. *)
Example store_buffer_strands : exists b,
  exec_all 2 1 4 8 ([EvPost (Some 0) (mkCoreMessage Custom 0 5); EvSchedule 0] ++ replicate 9 EvTarget ++
    [EvPost (Some 0) (mkCoreMessage Custom 0 6); EvSchedule 0; EvFlush]) (make_inbox 2) = Some b /\
  quiescent b /\ from 0 (sent b) = [mkCoreMessage Custom 0 5; mkCoreMessage Custom 0 6] /\ from 0 (dispatched b) = [mkCoreMessage Custom 0 5].
Proof. eexists. split; [vm_compute; reflexivity|]. by split_and!. Qed.
