(* ===== verification/CrossCoreCall.v ===== *)
(** * Calls on another core

    [cross_core_call] and [broadcast_cross_core]
    (apex_core/include/apex/core/cross_core_call.hpp) and the reference count of
    [SharedPayload] (apex_core/include/apex/core/shared_payload.hpp).

    [cross_core_call] runs a function on the target core while a coroutine of the
    calling core waits with a timeout; the two race on [status]. The function is an
    argument: it acts on the target core's state and returns a value or throws.
    Both overloads of the code are the model at a value type, [unit] for the void
    one. *)

From S2P Require Import Prelude ErrorCode.

Section Call.
Context {S R : Type} (func : S -> option R * S).

(** Where the task is on the target core: in its queue, past the check of
    [status], past the call of the function with what it returned ([None]: it
    threw), or deleted. *)
Inductive task_pc : Type :=
| Queued
| Checked
| Invoked (r : option R)
| TaskDone.

(** Where the calling coroutine is: waiting on the timer, past the wait, past its
    exchange on [status], or returned. *)
Inductive caller_pc : Type :=
| Waiting
| Woken
| Settled
| CallerDone (r : outcome (Result R)).

Record Call : Type := mkCall {
  status : Z;
  result : option R;
  task : task_pc;
  caller : caller_pc;
  (* the function's calls so far *)
  ran : list (option R);
}.

(** After a successful post of the task. *)
Definition start : Call := mkCall 0 None Queued Waiting [].

(** The task's accesses to [status], on the target core. *)
Definition task_step (c : Call) (s : S) : option (Call * S) :=
  match task c with
  | Queued => Some (mkCall (status c) (result c) (if status c =? 0 then Checked else TaskDone) (caller c) (ran c), s)
  | Checked =>
      let '(r, s) := func s in
      Some (mkCall (status c) (match r with Some _ => r | None => result c end) (Invoked r) (caller c) (ran c ++ [r]), s)
  | Invoked r =>
      Some (mkCall (if status c =? 0 then (match r with Some _ => 1 | None => 3 end) else status c) (result c) TaskDone (caller c) (ran c), s)
  | TaskDone => None
  end.

(** The caller's steps; its timer fires or is cancelled at any time. *)
Definition caller_step (c : Call) : option Call :=
  match caller c with
  | Waiting => Some (mkCall (status c) (result c) (task c) Woken (ran c))
  | Woken =>
      if status c =? 0
      then Some (mkCall 2 (result c) (task c) (CallerDone (Returns (Err CrossCoreTimeout))) (ran c))
      else Some (mkCall (status c) (result c) (task c) Settled (ran c))
  | Settled =>
      Some (mkCall (status c) (result c) (task c)
        (CallerDone (if status c =? 3 then Returns (Err CrossCoreFuncException)
                     else match result c with Some r => Returns (Ok r) | None => Throws undefined_behaviour end)) (ran c))
  | CallerDone _ => None
  end.

(** The two cores interleave; other work of the target core changes its state. *)
Inductive step : Call * S -> Call * S -> Prop :=
| step_task c s c' s' : task_step c s = Some (c', s') -> step (c, s) (c', s')
| step_caller c s c' : caller_step c = Some c' -> step (c, s) (c', s)
| step_other c s s' : step (c, s) (c, s').

(** What the task has done, by its position. *)
Definition task_ran (c : Call) : Prop :=
  match task c with
  | Queued | Checked => ran c = []
  | Invoked r => ran c = [r] /\ (forall v, r = Some v -> result c = Some v)
  | TaskDone => (length (ran c) <= 1)%nat
  end.

(** [status] tells which side won the race, and is final once it is set. *)
Definition inv (c : Call) : Prop :=
  (status c = 0 /\ task c <> TaskDone /\ task_ran c /\ (caller c = Waiting \/ caller c = Woken)) \/
  (status c = 1 /\ task c = TaskDone /\ exists r, result c = Some r /\ ran c = [Some r] /\
     (caller c = Waiting \/ caller c = Woken \/ caller c = Settled \/ caller c = CallerDone (Returns (Ok r)))) \/
  (status c = 2 /\ task_ran c /\ caller c = CallerDone (Returns (Err CrossCoreTimeout))) \/
  (status c = 3 /\ task c = TaskDone /\ ran c = [None] /\
     (caller c = Waiting \/ caller c = Woken \/ caller c = Settled \/ caller c = CallerDone (Returns (Err CrossCoreFuncException)))).

Lemma task_ran_once c : task_ran c -> (length (ran c) <= 1)%nat.
Proof. unfold task_ran. destruct (task c); [intros ->; cbn; lia..|intros [-> _]; done|done]. Qed.

Lemma start_inv : inv start.
Proof. left. split_and!; try done. by left. Qed.

Lemma task_step_inv c s c' s' : inv c -> task_step c s = Some (c', s') -> inv c'.
Proof.
  intros Hc. unfold task_step. destruct Hc as [(Hs & Ht & Hr & Hw)|[(Hs & Ht & _)|[(Hs & Hr & Hw)|(Hs & Ht & _)]]]; try (by rewrite Ht).
  - rewrite Hs. unfold task_ran in Hr. destruct (task c) as [| |r|] eqn:Et; cbn; [| | |done].
    + intros [= <- <-]. left. split_and!; done.
    + destruct (func s) as [r s1]. intros [= <- <-]. left. split_and!; cbn; try done. unfold task_ran. cbn. rewrite Hr. split; [done|]. by intros v ->.
    + intros [= <- <-]. destruct Hr as [Hran Hres]. destruct r as [v|].
      * right; left. split_and!; cbn; try done. exists v. split_and!; [by apply Hres|done|]. destruct Hw; auto.
      * right; right; right. split_and!; cbn; try done. destruct Hw; auto.
  - rewrite Hs. unfold task_ran in Hr. destruct (task c) as [| |r|] eqn:Et; cbn; [| | |done].
    + intros [= <- <-]. right; right; left. split_and!; try done. unfold task_ran. cbn. rewrite Hr. cbn. lia.
    + destruct (func s) as [r s1]. intros [= <- <-]. right; right; left. split_and!; try done. unfold task_ran. cbn. rewrite Hr. split; [done|]. by intros v ->.
    + intros [= <- <-]. right; right; left. split_and!; try done. unfold task_ran. cbn. destruct Hr as [-> _]. done.
Qed.

Lemma caller_step_inv c c' : inv c -> caller_step c = Some c' -> inv c'.
Proof.
  intros Hc. unfold caller_step. destruct Hc as [(Hs & Ht & Hr & [Hw|Hw])|[(Hs & Ht & r & Hres & Hran & Hw)|[(Hs & Hr & Hw)|(Hs & Ht & Hran & Hw)]]].
  - rewrite Hw. intros [= <-]. left. split_and!; try done. by right.
  - rewrite Hw, Hs. intros [= <-]. right; right; left. split_and!; done.
  - right; left. destruct Hw as [Hw|[Hw|[Hw|Hw]]]; rewrite Hw in *; rewrite ?Hs, ?Hres in *; [..|done]; injection H as <-; split_and!; cbn; try done; exists r; split_and!; auto.
  - by rewrite Hw.
  - right; right; right. destruct Hw as [Hw|[Hw|[Hw|Hw]]]; rewrite Hw in *; rewrite ?Hs in *; [..|done]; injection H as <-; split_and!; cbn; auto.
Qed.

Lemma call_step_inv cs cs' : step cs cs' -> inv cs.1 -> inv cs'.1.
Proof. intros [c s c' s' E|c s c' E|c s s'] Hc; [by eapply task_step_inv|by eapply caller_step_inv|done]. Qed.

Lemma call_reachable_inv cs s0 : rtc step (start, s0) cs -> inv cs.1.
Proof. intros H. remember (start, s0) as cs0 eqn:E. assert (Hi : inv cs0.1) by (subst; apply start_inv). clear E. induction H as [|? ? ? Hs _ IH]; [done|]. by apply IH, (call_step_inv x). Qed.

(** Steps of the caller alone. *)
Fixpoint caller_run (n : nat) (c : Call) : Call :=
  match n with O => c | Datatypes.S n => match caller_step c with Some c => caller_run n c | None => c end end.

End Call.

(** C10: [cross_core_call] returns what happened. Under every interleaving of the
    two cores the function runs at most once; the caller gets the value exactly of
    that one run, [CrossCoreFuncException] only if that run threw, and otherwise
    [CrossCoreTimeout]; the result is always there when it is read; a task still
    queued at a timeout never runs; and once its timer fires the caller returns
    after at most two more of its own steps. *)
Theorem cross_core_call_outcome {S R} (func : S -> option R * S) s0 c s
    (Hrun : rtc (step func) (start, s0) (c, s)) :
  (length (ran c) <= 1)%nat /\
  (forall o, caller c = CallerDone o ->
     (exists r, o = Returns (Ok r) /\ ran c = [Some r]) \/ (o = Returns (Err CrossCoreFuncException) /\ ran c = [None]) \/
     o = Returns (Err CrossCoreTimeout)) /\
  (caller c = CallerDone (Returns (Err CrossCoreTimeout)) -> task c = Queued ->
     forall c' s', rtc (step func) (c, s) (c', s') -> ran c' = []) /\
  exists o, caller (caller_run 3 c) = CallerDone o.
Proof.
  pose proof (call_reachable_inv func (c, s) s0 Hrun) as Hc. cbn [fst] in Hc. split_and!.
  - destruct Hc as [(_ & _ & Hr & _)|[(_ & _ & r & _ & -> & _)|[(_ & Hr & _)|(_ & _ & -> & _)]]]; try done; by apply task_ran_once.
  - intros o Ho. destruct Hc as [(_ & _ & _ & [E|E])|[(_ & _ & r & _ & Hran & E)|[(_ & _ & E)|(_ & _ & Hran & E)]]]; rewrite Ho in E; try done.
    + left. exists r. naive_solver.
    + right; right. congruence.
    + right; left. naive_solver.
  - intros Ho Ht c' s' Hr. assert (Hp : status c = 2 /\ ran c = []).
    { destruct Hc as [(_ & _ & _ & [E|E])|[(_ & E & _)|[(E & Hr' & _)|(_ & E & _)]]]; try congruence. split; [done|]. unfold task_ran in Hr'. by rewrite Ht in Hr'. }
    assert (Hq : forall cs cs', rtc (step func) cs cs' -> status cs.1 = 2 /\ ran cs.1 = [] /\ (task cs.1 = Queued \/ task cs.1 = TaskDone) /\ caller cs.1 = CallerDone (Returns (Err CrossCoreTimeout)) -> ran cs'.1 = []).
    { clear. intros cs cs' H. induction H as [|cs1 cs2 cs3 Hs _ IH]; [tauto|]. intros (Hst & Hran & Ht & Hw). apply IH.
      destruct Hs as [c s c' s' E|c s c' E|c s s']; cbn [fst] in *; [| |done].
      - unfold task_step in E. destruct Ht as [Ht|Ht]; rewrite Ht, ?Hst in E; [|done]. injection E as <- <-. cbn. split_and!; auto.
      - unfold caller_step in E. by rewrite Hw in E. }
    apply (Hq _ _ Hr). cbn. naive_solver.
  - destruct Hc as [(Hs & _ & _ & [E|E])|[(Hs & _ & r & Hr & _ & E)|[(_ & _ & E)|(Hs & _ & _ & E)]]].
    + unfold caller_run, caller_step. rewrite E. cbn. rewrite Hs. cbn. by eexists.
    + unfold caller_run, caller_step. rewrite E, Hs. cbn. by eexists.
    + destruct E as [E|[E|[E|E]]]; unfold caller_run, caller_step; rewrite E; cbn; rewrite ?Hs; cbn; rewrite ?E, ?Hs, ?Hr; cbn; rewrite ?Hr; eauto.
    + unfold caller_run, caller_step. rewrite E. eauto.
    + destruct E as [E|[E|[E|E]]]; unfold caller_run, caller_step; rewrite E; cbn; rewrite ?Hs; cbn; rewrite ?E, ?Hs; cbn; eauto.
Qed.

Lemma cross_core_call_outcome_witness :
  exists c s, rtc (step (fun n : Z => (Some (n + 1), n + 1))) (start, 4) (c, s) /\ caller c = CallerDone (Returns (Ok 5)) /\ ran c = [Some 5].
Proof.
  pose (f := fun n : Z => (Some (n + 1), n + 1)).
  assert (H : rtc (step f) (start, 4) (mkCall 1 (Some 5) TaskDone (CallerDone (Returns (Ok 5))) [Some 5], 5)).
  { eapply rtc_l; [apply step_task; reflexivity|]. eapply rtc_l; [apply step_task; reflexivity|]. eapply rtc_l; [apply step_caller; reflexivity|].
    eapply rtc_l; [apply step_task; reflexivity|]. eapply rtc_l; [apply step_caller; reflexivity|]. eapply rtc_l; [apply step_caller; reflexivity|]. apply rtc_refl. }
  eexists _, _. split; [exact H|]. split; [reflexivity|].
  destruct (cross_core_call_outcome f 4 _ _ H) as (_ & Ho & _). destruct (Ho _ eq_refl) as [(r & Er & Hr)|[[? ?]|?]]; [|discriminate..].
  injection Er as <-. exact Hr.
Defined.

(** ** Broadcast of a shared payload *)

Record SharedPayload : Type := mkSharedPayload { refcount_ : Z; deletions : nat }.

Definition add_ref (p : SharedPayload) : SharedPayload := mkSharedPayload (u32 (refcount_ p + 1)) (deletions p).
Definition set_refcount (count : Z) (p : SharedPayload) : SharedPayload := mkSharedPayload count (deletions p).

Definition release (p : SharedPayload) : SharedPayload :=
  mkSharedPayload (u32 (refcount_ p - 1)) (if refcount_ p =? 1 then S (deletions p) else deletions p).

Fixpoint release_n (n : nat) (p : SharedPayload) : SharedPayload :=
  match n with O => p | S n => release_n n (release p) end.

(** The posting loop from core [i] on: the cores posted to, and whether a post
    threw. *)
Fixpoint post_all (fuel : nat) (i core_count source_core : Z) (post_ok : Z -> bool) : list Z * bool :=
  match fuel with
  | O => ([], false)
  | S fuel =>
      if core_count <=? i then ([], false)
      else if i =? source_core then post_all fuel (i + 1) core_count source_core post_ok
      else if post_ok i then let '(l, threw) := post_all fuel (i + 1) core_count source_core post_ok in (i :: l, threw)
      else ([], true)
  end.

(** [broadcast_cross_core]: the receivers, whether it threw, and the payload. *)
Definition broadcast_cross_core (core_count source_core : Z) (post_ok : Z -> bool) (p : SharedPayload) : list Z * bool * SharedPayload :=
  if core_count <=? 1 then ([], false, mkSharedPayload (refcount_ p) (S (deletions p)))
  else
    let total_receivers := u32 (core_count - 1) in
    let '(delivered, threw) := post_all (Z.to_nat core_count) 0 core_count source_core post_ok in
    if threw then (delivered, true, release_n (Z.to_nat (u32 (total_receivers - len delivered))) p)
    else (delivered, false, p).

Lemma release_n_spec n p :
  Z.of_nat n <= refcount_ p < 2 ^ 32 -> deletions p = O ->
  refcount_ (release_n n p) = refcount_ p - Z.of_nat n /\
  deletions (release_n n p) = if (0 <? Z.of_nat n) && (refcount_ p =? Z.of_nat n) then 1%nat else 0%nat.
Proof.
  revert p. induction n as [|n IH]; intros p Hp Hd; [cbn -[Z.of_nat]; rewrite Hd; split; [lia|done]|].
  cbn [release_n]. assert (Hr : refcount_ (release p) = refcount_ p - 1) by (cbn; apply wrap_small; unfold in_width; lia).
  destruct n as [|n].
  - cbn [release_n]. split; [lia|]. cbn -[Z.of_nat]. rewrite Hd. by destruct (Z.eqb_spec (refcount_ p) 1), (Z.eqb_spec (refcount_ p) (Z.of_nat 1)); lia || done.
  - assert (Hd' : deletions (release p) = O) by (cbn; destruct (Z.eqb_spec (refcount_ p) 1); [lia|done]).
    destruct (IH (release p)) as [-> ->]; [lia|done|]. rewrite Hr. split; [lia|].
    destruct (Z.ltb_spec 0 (Z.of_nat (S n))), (Z.ltb_spec 0 (Z.of_nat (S (S n)))); try lia. cbn [andb].
    destruct (Z.eqb_spec (refcount_ p - 1) (Z.of_nat (S n))), (Z.eqb_spec (refcount_ p) (Z.of_nat (S (S n)))); lia || done.
Qed.

(** The receivers from [i] on: in order, without the source; all of them when no
    post throws. *)
Lemma post_all_spec fuel i n src post_ok l threw :
  0 <= i <= n -> 0 <= src < n -> n - i <= Z.of_nat fuel -> post_all fuel i n src post_ok = (l, threw) ->
  (forall x, x ∈ l -> i <= x < n /\ x <> src) /\ NoDup l /\
  let m := n - i - (if i <=? src then 1 else 0) in (if threw then len l < m else len l = m).
Proof.
  revert i l threw. induction fuel as [|fuel IH]; intros i l threw Hi Hs Hf; cbn [post_all]; cbv zeta in *.
  { intros [= <- <-]. split_and!; [by intros x ?%not_elem_of_nil|constructor|]. destruct (Z.leb_spec i src); rewrite len_nil; lia. }
  destruct (Z.leb_spec n i).
  { intros [= <- <-]. split_and!; [by intros x ?%not_elem_of_nil|constructor|]. destruct (Z.leb_spec i src); rewrite len_nil; lia. }
  destruct (Z.eqb_spec i src) as [->|Hne].
  - intros E. destruct (IH (src + 1) l threw ltac:(lia) Hs ltac:(lia) E) as (H1 & H2 & H3). split_and!; [|done|].
    + intros x Hx%H1. lia.
    + destruct (Z.leb_spec (src + 1) src), (Z.leb_spec src src); try lia. destruct threw; lia.
  - destruct (post_ok i).
    + destruct (post_all fuel (i + 1) n src post_ok) as [l' t'] eqn:E. intros [= <- <-].
      destruct (IH (i + 1) l' t' ltac:(lia) Hs ltac:(lia) E) as (H1 & H2 & H3). split_and!.
      * intros x [->|Hx%H1]%elem_of_cons; lia.
      * constructor; [|done]. intros Hx%H1. lia.
      * rewrite len_cons. destruct (Z.leb_spec (i + 1) src), (Z.leb_spec i src); try lia; destruct t'; lia.
    + intros [= <- <-]. split_and!; [by intros x ?%not_elem_of_nil|constructor|]. rewrite len_nil. destruct (Z.leb_spec i src); lia.
Qed.

(** A broadcast payload is deleted exactly once. With the count set to the
    number of receivers, whatever posts fail: the receivers posted to are distinct
    and never the source; the sender gives back the references of the others, so
    that the count left is the number of receivers posted to; and after each of
    those has released it the payload has been deleted once, by the last
    release. *)
Theorem broadcast_releases core_count source_core post_ok p
    (Hcores : 1 <= core_count < 2 ^ 32) (Hsrc : 0 <= source_core < core_count) (Hnew : deletions p = O)
    (Href : refcount_ p = core_count - 1) :
  let '(delivered, threw, p') := broadcast_cross_core core_count source_core post_ok p in
  NoDup delivered /\ (forall x, x ∈ delivered -> 0 <= x < core_count /\ x <> source_core) /\
  (threw = false -> len delivered = core_count - 1) /\
  refcount_ p' = len delivered /\ deletions p' = (if delivered is [] then 1 else 0)%nat /\
  deletions (release_n (length delivered) p') = 1%nat.
Proof.
  unfold broadcast_cross_core. destruct (Z.leb_spec core_count 1).
  { split_and!; cbn; [constructor|by intros x ?%not_elem_of_nil|rewrite len_nil; lia|rewrite len_nil; lia|by rewrite Hnew..]. }
  cbv zeta. rewrite (wrap_small 32 (core_count - 1)) by (unfold in_width; lia).
  destruct (post_all _ 0 core_count source_core post_ok) as [l threw] eqn:E.
  destruct (post_all_spec (Z.to_nat core_count) 0 core_count source_core post_ok l threw ltac:(lia) Hsrc ltac:(lia) E) as (H1 & H2 & H3). cbv zeta in H3.
  destruct (Z.leb_spec 0 source_core); [|lia]. pose proof (len_nonneg l) as Hl.
  assert (Hlen : Z.of_nat (length l) = len l) by done.
  destruct threw.
  - rewrite wrap_small by (unfold in_width; lia). set (k := Z.to_nat (core_count - 1 - len l)).
    destruct (release_n_spec k p ltac:(unfold k; lia) Hnew) as [Hr Hd].
    assert (Hd0 : deletions (release_n k p) = if l is [] then 1%nat else 0%nat).
    { rewrite Hd. assert (Hk : Z.of_nat k = core_count - 1 - len l) by (unfold k; lia). rewrite Hk.
      destruct (Z.ltb_spec 0 (core_count - 1 - len l)); [|lia]. cbn [andb]. destruct l as [|x l].
      - rewrite len_nil in *. destruct (Z.eqb_spec (refcount_ p) (core_count - 1 - 0)); [done|lia].
      - rewrite len_cons in *. pose proof (len_nonneg l). destruct (Z.eqb_spec (refcount_ p) (core_count - 1 - (1 + len l))); [lia|done]. }
    split_and!; [done..|unfold k in *; lia|done|].
    destruct l as [|x l]; [done|]. destruct (release_n_spec (length (x :: l)) (release_n k p)) as [_ ->]; [unfold k in *; lia|done|].
    destruct (Z.ltb_spec 0 (Z.of_nat (length (x :: l)))); [|cbn in *; lia]. destruct (Z.eqb_spec (refcount_ (release_n k p)) (Z.of_nat (length (x :: l)))); [done|unfold k in *; lia].
  - split_and!; try done; [lia|lia|rewrite Hnew; destruct l; [rewrite len_nil in *; lia|done]|].
    destruct (release_n_spec (length l) p) as [_ ->]; [lia|done|]. destruct (Z.ltb_spec 0 (Z.of_nat (length l))); [|lia].
    destruct (Z.eqb_spec (refcount_ p) (Z.of_nat (length l))); [done|lia].
Qed.

Lemma broadcast_releases_witness :
  let '(delivered, threw, p') := broadcast_cross_core 4 1 (fun i => i <? 3) (mkSharedPayload 3 0) in
  delivered = [0; 2] /\ threw = true /\ refcount_ p' = 2 /\ deletions (release_n (length delivered) p') = 1%nat.
Proof.
  pose proof (broadcast_releases 4 1 (fun i => i <? 3) (mkSharedPayload 3 0) ltac:(lia) ltac:(lia) eq_refl eq_refl) as H.
  change (broadcast_cross_core 4 1 (fun i => i <? 3) (mkSharedPayload 3 0)) with ([0; 2], true, mkSharedPayload 2 0) in *.
  destruct H as (_ & _ & _ & H1 & _ & H2). split; [reflexivity|]. split; [reflexivity|]. split; [exact H1|exact H2].
Defined.
