(* ===== verification/Listener.v ===== *)
(** * Accepting connections under a per-IP limit

    [apex::core::ConnectionLimiter] (apex_core/src/connection_limiter.cpp) and the
    accept path of [Listener<P, T>] (apex_core/include/apex/core/listener.hpp):
    each core owns the counters of the addresses that hash to it, and the accepting
    core asks the owner through [cross_core_call] before it forwards a socket to
    the core that will serve it.

    The steps of the accept coroutines, of the tasks on the owner cores and of the
    posted decrements interleave; each is one event. A peer address is its string
    of bytes. Sockets and sessions appear as the phase of a connection only. *)

From S2P Require Import Prelude ErrorCode CrossCoreCall.

Abbreviation ip_string := (list Z).

(** ** The counters of one core *)

Record ConnectionLimiter : Type := mkLimiter { core_id_ : Z; num_cores_ : Z; max_per_ip_ : Z; counts_ : gmap ip_string Z }.

(** A debug build asserts that [num_cores] and [max_per_ip] are positive, as they are in
    [make_listener]. *)
Definition make_limiter (core_id num_cores max_per_ip : Z) : ConnectionLimiter := mkLimiter core_id num_cores max_per_ip ∅.

Definition with_counts (m : gmap ip_string Z) (l : ConnectionLimiter) : ConnectionLimiter :=
  mkLimiter (core_id_ l) (num_cores_ l) (max_per_ip_ l) m.

Definition try_increment (ip : ip_string) (l : ConnectionLimiter) : bool * ConnectionLimiter :=
  match ip with
  | [] => (false, l)
  | _ :: _ =>
      let '(v, inserted, m) := match counts_ l !! ip with Some v => (v, false, counts_ l) | None => (0, true, <[ip := 0]> (counts_ l)) end in
      if max_per_ip_ l <=? v then (false, with_counts (if inserted : bool then delete ip m else m) l)
      else (true, with_counts (<[ip := u32 (v + 1)]> m) l)
  end.

Definition decrement (ip : ip_string) (l : ConnectionLimiter) : ConnectionLimiter :=
  match counts_ l !! ip with
  | None => l
  | Some v =>
      if v =? 0 then with_counts (delete ip (counts_ l)) l
      else if v - 1 =? 0 then with_counts (delete ip (counts_ l)) l
      else with_counts (<[ip := v - 1]> (counts_ l)) l
  end.

Definition count (ip : ip_string) (l : ConnectionLimiter) : Z := default 0 (counts_ l !! ip).
Definition tracked_ips (l : ConnectionLimiter) : Z := Z.of_nat (size (counts_ l)).

Fixpoint fnv1a (hash : Z) (ip : ip_string) : Z :=
  match ip with
  | [] => hash
  | c :: ip => fnv1a (u64 (Z.lxor hash (u8 c) * 1099511628211)) ip
  end.

Definition owner_core (ip : ip_string) (num_cores : Z) : Z :=
  if num_cores =? 0 then 0 else u32 (fnv1a 14695981039346656037 ip mod num_cores).

(** ** Accepting *)

(** A connection on its way: at [checked_accept], waiting on the owner core,
    abandoned by a caller that timed out (its task may still run), forwarded to
    its target core, served, or gone. [Leaked] is a forwarded connection whose
    session could not be created: no callback releases it. *)
Inductive phase : Type :=
| Checking
| Calling (c : @Call bool)
| Abandoned (c : @Call bool)
| Forwarding
| Serving
| Leaked
| Gone.

Record Conn : Type := mkConn { remote_ip : ip_string; accepting_core : Z; target_core : Z; ph : phase }.

Record Listener : Type := mkListener {
  (* one for each core, or none when no limiters were injected *)
  limiters : list ConnectionLimiter;
  conns : list Conn;
  (* decrements posted to owner cores *)
  posted : list (Z * ip_string);
  next_core_ : Z;
}.

Definition set_ph (p : phase) (c : Conn) : Conn := mkConn (remote_ip c) (accepting_core c) (target_core c) p.

(** Connections with a running read loop. *)
Fixpoint serving (l : list Conn) : Z :=
  match l with [] => 0 | c :: l => (match ph c with Serving => 1 | _ => 0 end) + serving l end.

Section Accept.
Context (num_cores max_connections_ : Z).

Definition owner (c : Conn) : Z := owner_core (remote_ip c) num_cores.

(** A listener as [Server::run] starts it: without a limit it is given no limiters. *)
Definition make_listener (max_per_ip : Z) : Listener :=
  mkListener (if 0 <? max_per_ip then (fun i => make_limiter (Z.of_nat i) num_cores max_per_ip) <$> seq 0 (Z.to_nat num_cores) else []) [] [] 0.

Definition with_conn (i : nat) (c : Conn) (s : Listener) : Listener :=
  mkListener (limiters s) (<[i := c]> (conns s)) (posted s) (next_core_ s).
Definition with_limiter (o : Z) (l : ConnectionLimiter) (s : Listener) : Listener :=
  mkListener (<[Z.to_nat o := l]> (limiters s)) (conns s) (posted s) (next_core_ s).
Definition with_posted (ps : list (Z * ip_string)) (s : Listener) : Listener :=
  mkListener (limiters s) (conns s) ps (next_core_ s).

(** The limit on all connections: [true] when the socket is closed at once. *)
Definition over_max (s : Listener) : bool := (0 <? max_connections_) && (max_connections_ <=? u32 (serving (conns s))).

(** [on_accept] with one acceptor on core 0 ([core = None]) or the acceptor of one
    core; then [dispatch_accept], which checks a connection with a known address when
    there are limiters. *)
Definition on_accept (ip : ip_string) (core : option Z) (s : Listener) : Listener :=
  if over_max s then s
  else
    let '(a, t, next) := match core with
                         | None => (0, next_core_ s mod num_cores, u32 (next_core_ s + 1))
                         | Some i => (i, i, next_core_ s)
                         end in
    mkListener (limiters s) (conns s ++ [mkConn ip a t (match ip, limiters s with _ :: _, _ :: _ => Checking | _, _ => Forwarding end)]) (posted s) next.

(** [checked_accept] up to its first suspension. *)
Definition checked_accept (i : nat) (c : Conn) (s : Listener) : option Listener :=
  if owner c =? accepting_core c then
    match limiters s !! Z.to_nat (owner c) with
    | None => None
    | Some l =>
        let '(allowed, l) := try_increment (remote_ip c) l in
        Some (with_conn i (set_ph (if allowed : bool then Forwarding else Gone) c) (with_limiter (owner c) l s))
    end
  else Some (with_conn i (set_ph (Calling start) c) s).

(** The function called on the owner core. *)
Definition owner_check (ip : ip_string) (l : ConnectionLimiter) : option bool * ConnectionLimiter :=
  let '(b, l) := try_increment ip l in (Some b, l).

(** [checked_accept] after the call returned [r]. *)
Definition after_call (i : nat) (c : Conn) (k : Call) (r : outcome (Result bool)) (s : Listener) : Listener :=
  match r with
  | Returns (Ok true) => with_conn i (set_ph Forwarding c) s
  | Returns (Ok false) => with_conn i (set_ph Gone c) s
  | _ => with_posted (posted s ++ [(owner c, remote_ip c)]) (with_conn i (set_ph (Abandoned k) c) s)
  end.

(** The connection-closed callback of the target core. *)
Definition on_closed (c : Conn) (s : Listener) : option Listener :=
  match remote_ip c, limiters s with
  | [], _ | _, [] => Some s
  | _ :: _, _ :: _ =>
      if owner c =? target_core c then
        match limiters s !! Z.to_nat (owner c) with
        | None => None
        | Some l => Some (with_limiter (owner c) (decrement (remote_ip c) l) s)
        end
      else Some (with_posted (posted s ++ [(owner c, remote_ip c)]) s)
  end.

(** ** Events *)

Inductive event : Type :=
| EvAccept (ip : ip_string) (core : option Z)
| EvCheck (i : nat)
| EvTask (i : nat)
| EvCaller (i : nat)
| EvResume (i : nat)
| EvForward (i : nat) (created : bool)
| EvClose (i : nat)
| EvPosted (k : nat).

(** [strict] executions are those where no call to an owner core times out: a
    caller wakes only when the task has settled [status]. *)
Definition exec (strict : bool) (e : event) (s : Listener) : option Listener :=
  match e with
  | EvAccept ip core => Some (on_accept ip core s)
  | EvCheck i =>
      match conns s !! i with
      | Some c => match ph c with Checking => checked_accept i c s | _ => None end
      | None => None
      end
  | EvTask i =>
      match conns s !! i with
      | Some c =>
          match limiters s !! Z.to_nat (owner c) with
          | Some l =>
              match ph c with
              | Calling k => match task_step (owner_check (remote_ip c)) k l with
                             | Some (k, l) => Some (with_conn i (set_ph (Calling k) c) (with_limiter (owner c) l s))
                             | None => None end
              | Abandoned k => match task_step (owner_check (remote_ip c)) k l with
                               | Some (k, l) => Some (with_conn i (set_ph (Abandoned k) c) (with_limiter (owner c) l s))
                               | None => None end
              | _ => None
              end
          | None => None
          end
      | None => None
      end
  | EvCaller i =>
      match conns s !! i with
      | Some c =>
          match ph c with
          | Calling k => if strict && (status k =? 0) then None
                         else match caller_step k with Some k => Some (with_conn i (set_ph (Calling k) c) s) | None => None end
          | _ => None
          end
      | None => None
      end
  | EvResume i =>
      match conns s !! i with
      | Some c => match ph c with
                  | Calling k => match caller k with CallerDone r => Some (after_call i c k r s) | _ => None end
                  | _ => None end
      | None => None
      end
  | EvForward i created =>
      match conns s !! i with
      | Some c => match ph c with Forwarding => Some (with_conn i (set_ph (if created : bool then Serving else Leaked) c) s) | _ => None end
      | None => None
      end
  | EvClose i =>
      match conns s !! i with
      | Some c => match ph c with Serving => on_closed c (with_conn i (set_ph Gone c) s) | _ => None end
      | None => None
      end
  | EvPosted k =>
      match posted s !! k with
      | Some (o, ip) =>
          match limiters s !! Z.to_nat o with
          | Some l => Some (with_posted (delete k (posted s)) (with_limiter o (decrement ip l) s))
          | None => None
          end
      | None => None
      end
  end.

Fixpoint exec_all (strict : bool) (es : list event) (s : Listener) : option Listener :=
  match es with [] => Some s | e :: es => match exec strict e s with Some s => exec_all strict es s | None => None end end.

(** Connections of [ip] being served. *)
Fixpoint serving_ip (ip : ip_string) (l : list Conn) : Z :=
  match l with
  | [] => 0
  | c :: l => (if decide (remote_ip c = ip) then (match ph c with Serving => 1 | _ => 0 end) else 0) + serving_ip ip l
  end.

(** ** Accounting *)

(** Whether a call has taken a count, and whether a connection holds one count of
    its address. *)
Definition took (r : list (option bool)) : Z := match r with [Some true] => 1 | _ => 0 end.
Definition holds (c : Conn) : Z :=
  match ph c with
  | Calling k | Abandoned k => took (ran k)
  | Forwarding | Serving | Leaked => 1
  | Checking | Gone => 0
  end.

Fixpoint holding (ip : ip_string) (l : list Conn) : Z :=
  match l with [] => 0 | c :: l => (if decide (remote_ip c = ip) then holds c else 0) + holding ip l end.

Fixpoint pending (ip : ip_string) (l : list (Z * ip_string)) : Z :=
  match l with [] => 0 | x :: l => (if decide (x.2 = ip) then 1 else 0) + pending ip l end.

Definition limiter_ok (m : Z) (l : ConnectionLimiter) : Prop :=
  max_per_ip_ l = m /\ forall ip v, counts_ l !! ip = Some v -> 0 < v <= m.

Definition conn_ok (c : Conn) : Prop :=
  match ph c with
  | Checking => remote_ip c <> []
  | Calling k => remote_ip c <> [] /\ CrossCoreCall.inv k /\ status k <> 2 /\ None ∉ ran k
  | Abandoned _ => False
  | _ => True
  end.

Record inv (m : Z) (s : Listener) : Prop := mk_inv {
  w_limiters o l : limiters s !! o = Some l -> limiter_ok m l;
  w_conns : Forall conn_ok (conns s);
  w_posted o ip : (o, ip) ∈ posted s -> o = owner_core ip num_cores /\ ip <> [];
  w_count ip : ip <> [] -> exists l, limiters s !! Z.to_nat (owner_core ip num_cores) = Some l /\
    count ip l = holding ip (conns s) + pending ip (posted s);
}.

End Accept.

(** ** Counters *)

Lemma try_increment_spec m ip l :
  limiter_ok m l -> m < 2 ^ 32 -> ip <> [] ->
  let '(b, l') := try_increment ip l in
  limiter_ok m l' /\ b = (count ip l <? m) /\ count ip l' = count ip l + (if b then 1 else 0) /\
  forall ip', ip' <> ip -> count ip' l' = count ip' l.
Proof.
  intros [Hm Hc] Hw Hip. unfold try_increment. destruct ip as [|x ip0]; [done|]. set (ip := x :: ip0). unfold count. rewrite Hm.
  destruct (counts_ l !! ip) as [v|] eqn:E; cbn [default id].
  - pose proof (Hc _ _ E) as Hv. destruct (Z.leb_spec m v), (Z.ltb_spec v m); try lia; cbn [counts_ with_counts].
    + split_and!; [split; done|done|rewrite E; cbn; lia|done].
    + rewrite wrap_small by (unfold in_width; lia). split_and!.
      * split; [done|]. cbn. intros ip' v'. destruct (decide (ip = ip')) as [<-|]; [rewrite lookup_insert_eq; intros [= <-]; lia|rewrite lookup_insert_ne by done; apply Hc].
      * done.
      * rewrite lookup_insert_eq. done.
      * intros ip' Hne. by rewrite lookup_insert_ne.
  - destruct (Z.leb_spec m 0), (Z.ltb_spec 0 m); try lia; cbn [counts_ with_counts].
    + rewrite delete_insert_id by done. split_and!; [split; done|done|rewrite E; done|done].
    + rewrite wrap_small by (unfold in_width; lia). split_and!.
      * split; [done|]. cbn. intros ip' v'. destruct (decide (ip = ip')) as [<-|]; [rewrite lookup_insert_eq; intros [= <-]; lia|]. rewrite !lookup_insert_ne by done. apply Hc.
      * done.
      * rewrite lookup_insert_eq. done.
      * intros ip' Hne. by rewrite !lookup_insert_ne.
Qed.

Lemma decrement_spec m ip l :
  limiter_ok m l -> limiter_ok m (decrement ip l) /\ count ip (decrement ip l) = Z.max 0 (count ip l - 1) /\
  forall ip', ip' <> ip -> count ip' (decrement ip l) = count ip' l.
Proof.
  intros [Hm Hc]. unfold decrement, count. destruct (counts_ l !! ip) as [v|] eqn:E; cbn [default id]; [|rewrite E; done].
  pose proof (Hc _ _ E) as Hv. destruct (Z.eqb_spec v 0); [lia|].
  destruct (Z.eqb_spec (v - 1) 0); cbn [counts_ with_counts].
  - split_and!.
    + split; [done|]. cbn. intros ip' v' [_ H]%lookup_delete_Some. by apply (Hc ip').
    + rewrite lookup_delete_eq. cbn. lia.
    + intros ip' Hne. by rewrite lookup_delete_ne.
  - split_and!.
    + split; [done|]. cbn. intros ip' v'. destruct (decide (ip = ip')) as [<-|]; [rewrite lookup_insert_eq; intros [= <-]; lia|rewrite lookup_insert_ne by done; apply Hc].
    + rewrite lookup_insert_eq. cbn. lia.
    + intros ip' Hne. by rewrite lookup_insert_ne.
Qed.

Lemma holding_app ip l k : holding ip (l ++ k) = holding ip l + holding ip k.
Proof. induction l as [|c l IH]; cbn [app holding]; [lia|]. rewrite IH. lia. Qed.

Lemma holding_insert ip l i c c' :
  l !! i = Some c -> remote_ip c' = remote_ip c ->
  holding ip (<[i := c']> l) = holding ip l + if decide (remote_ip c = ip) then holds c' - holds c else 0.
Proof.
  intros Hc E. revert i Hc. induction l as [|x l IH]; intros [|i] Hc; try done.
  - cbn in Hc. injection Hc as ->. change (<[0%nat := c']> (c :: l)) with (c' :: l). cbn [holding]. rewrite E. case_decide; lia.
  - change (<[S i := c']> (x :: l)) with (x :: <[i := c']> l). cbn [holding]. rewrite (IH i Hc). lia.
Qed.

Lemma holding_nonneg ip l : 0 <= holding ip l.
Proof. induction l as [|c l IH]; cbn [holding]; [lia|]. assert (0 <= holds c) by (unfold holds; destruct (ph c); try lia; unfold took; destruct (ran c0) as [|[[]|] []]; lia). case_decide; lia. Qed.

Lemma serving_le_holding ip l : serving_ip ip l <= holding ip l.
Proof.
  induction l as [|c l IH]; cbn [holding serving_ip]; [lia|]. assert (match ph c with Serving => 1 | _ => 0 end <= holds c); [|case_decide; lia].
  unfold holds. destruct (ph c); try lia; unfold took; destruct (ran c0) as [|[[]|] []]; lia.
Qed.

Lemma pending_app ip l k : pending ip (l ++ k) = pending ip l + pending ip k.
Proof. induction l as [|c l IH]; cbn [app pending]; [lia|]. rewrite IH. lia. Qed.

Lemma pending_nonneg ip l : 0 <= pending ip l.
Proof. induction l as [|c l IH]; cbn [pending]; [lia|]. case_decide; lia. Qed.

Lemma pending_delete ip l k o ip' : l !! k = Some (o, ip') -> pending ip (delete k l) = pending ip l - if decide (ip' = ip) then 1 else 0.
Proof.
  revert k. induction l as [|x l IH]; intros [|k] E; try done.
  - cbn in E. injection E as ->. change (delete 0%nat ((o, ip') :: l)) with l. cbn [pending snd]. lia.
  - change (delete (S k) (x :: l)) with (x :: delete k l). cbn [pending]. rewrite (IH k E). lia.
Qed.

(** ** Preservation *)

Section Strict.
Context (num_cores max_connections_ m : Z) (Hm : m < 2 ^ 32).

(** A step of one connection with an address: its phase, its owner's counters and
    the posted decrements change together. *)
Lemma inv_change s i c c' l l' ps nx :
  inv num_cores m s -> conns s !! i = Some c -> remote_ip c' = remote_ip c -> remote_ip c <> [] -> conn_ok c' ->
  limiters s !! Z.to_nat (owner num_cores c) = Some l -> limiter_ok m l' ->
  (forall ip, ip <> remote_ip c -> count ip l' = count ip l) ->
  (forall o ip, (o, ip) ∈ ps -> o = owner_core ip num_cores /\ ip <> []) ->
  (forall ip, ip <> remote_ip c -> pending ip ps = pending ip (posted s)) ->
  count (remote_ip c) l' - count (remote_ip c) l = holds c' - holds c + pending (remote_ip c) ps - pending (remote_ip c) (posted s) ->
  inv num_cores m (mkListener (<[Z.to_nat (owner num_cores c) := l']> (limiters s)) (<[i := c']> (conns s)) ps nx).
Proof.
  intros Hs Hc Eip Hne Hok Hl Hlok Hother Hps Hpo Hcount. constructor; cbn [limiters conns posted].
  - intros o lo. destruct (decide (Z.to_nat (owner num_cores c) = o)) as [<-|].
    + rewrite list_lookup_insert_eq by (by eapply lookup_lt_Some). by intros [= <-].
    + rewrite list_lookup_insert_ne by done. apply (w_limiters _ _ _ Hs).
  - apply Forall_insert; [apply (w_conns _ _ _ Hs)|done].
  - done.
  - intros ip Hip. destruct (w_count _ _ _ Hs ip Hip) as (lo & Elo & Hlo). rewrite (holding_insert ip _ i c c') by done.
    destruct (decide (remote_ip c = ip)) as [<-|Hneq].
    + fold (owner num_cores c) in *. rewrite Hl in Elo. injection Elo as <-. exists l'. rewrite list_lookup_insert_eq by (by eapply lookup_lt_Some). split; [done|lia].
    + destruct (decide (Z.to_nat (owner num_cores c) = Z.to_nat (owner_core ip num_cores))) as [E|].
      * rewrite <- E in Elo |- *. rewrite Hl in Elo. injection Elo as <-. exists l'. rewrite list_lookup_insert_eq by (by eapply lookup_lt_Some).
        split; [done|]. rewrite Hother, Hpo by congruence. lia.
      * exists lo. rewrite list_lookup_insert_ne by done. split; [done|]. rewrite Hpo by congruence. lia.
Qed.

(** The same without a change of counters. *)
Lemma inv_conn s i c c' ps :
  inv num_cores m s -> conns s !! i = Some c -> remote_ip c' = remote_ip c -> conn_ok c' ->
  (forall o ip, (o, ip) ∈ ps -> o = owner_core ip num_cores /\ ip <> []) ->
  (forall ip, ip <> remote_ip c -> pending ip ps = pending ip (posted s)) ->
  (remote_ip c <> [] -> holds c' - holds c + pending (remote_ip c) ps - pending (remote_ip c) (posted s) = 0) ->
  inv num_cores m (mkListener (limiters s) (<[i := c']> (conns s)) ps (next_core_ s)).
Proof.
  intros Hs Hc Eip Hok Hps Hpo Hcount. constructor; cbn [limiters conns posted].
  - apply (w_limiters _ _ _ Hs).
  - apply Forall_insert; [apply (w_conns _ _ _ Hs)|done].
  - done.
  - intros ip Hip. destruct (w_count _ _ _ Hs ip Hip) as (lo & Elo & Hlo). exists lo. split; [done|].
    rewrite (holding_insert ip _ i c c') by done. case_decide as E; [subst ip; specialize (Hcount Hip); lia|]. rewrite Hpo by congruence. lia.
Qed.

Lemma owner_limiter s ip : inv num_cores m s -> ip <> [] ->
  exists l, limiters s !! Z.to_nat (owner_core ip num_cores) = Some l /\ limiter_ok m l.
Proof. intros Hs Hip. destruct (w_count _ _ _ Hs ip Hip) as (l & El & _). exists l. split; [done|]. by apply (w_limiters _ _ _ Hs _ _ El). Qed.

Lemma conn_lookup s i c : inv num_cores m s -> conns s !! i = Some c -> conn_ok c.
Proof. intros Hs Hc. pose proof (w_conns _ _ _ Hs) as Hf. rewrite Forall_forall in Hf. apply Hf. by eapply list_elem_of_lookup_2. Qed.

Lemma check_inv s i c s' :
  inv num_cores m s -> conns s !! i = Some c -> ph c = Checking -> checked_accept num_cores i c s = Some s' -> inv num_cores m s'.
Proof.
  intros Hs Hc Hph. pose proof (conn_lookup s i c Hs Hc) as Hok. unfold conn_ok in Hok. rewrite Hph in Hok. unfold checked_accept.
  assert (Hh : holds c = 0) by (unfold holds; by rewrite Hph).
  destruct (_ =? _).
  - destruct (owner_limiter s (remote_ip c) Hs Hok) as (l & El & Hl). fold (owner num_cores c) in El. rewrite El.
    pose proof (try_increment_spec m (remote_ip c) l Hl Hm Hok) as Ht. destruct (try_increment (remote_ip c) l) as [b l']. destruct Ht as (Hl' & _ & Hcnt & Ho).
    intros [= <-]. apply (inv_change s i c (set_ph (if b then Forwarding else Gone) c) l l'); try done; [by destruct b|apply (w_posted _ _ _ Hs)|].
    rewrite Hh, Hcnt. destruct b; cbn; lia.
  - intros [= <-]. apply (inv_conn s i c); try done; [split_and!; [done|apply start_inv|done|apply not_elem_of_nil]|apply (w_posted _ _ _ Hs)|].
    intros _. rewrite Hh. cbn. lia.
Qed.

(** The task of a call that has not timed out: it takes a count exactly when its
    run returns [true]. *)
Lemma task_holds ip l k k' l' :
  limiter_ok m l -> ip <> [] -> CrossCoreCall.inv k -> None ∉ ran k -> task_step (owner_check ip) k l = Some (k', l') ->
  limiter_ok m l' /\ CrossCoreCall.inv k' /\ (None ∉ ran k') /\ (status k = 2 <-> status k' = 2) /\
  (forall ip', ip' <> ip -> count ip' l' = count ip' l) /\
  count ip l' - count ip l = took (ran k') - took (ran k).
Proof.
  intros Hl Hip Hk Hn E. pose proof (task_step_inv _ _ _ _ _ Hk E) as Hk'. unfold task_step in E. destruct (task k) as [| |r|] eqn:Et; [| | |done].
  - injection E as <- <-. cbn [ran status]. split_and!; try done. lia.
  - assert (Hr : ran k = []).
    { destruct Hk as [(_ & _ & Hr & _)|[(_ & E' & _)|[(_ & Hr & _)|(_ & E' & _)]]]; try congruence; unfold task_ran in Hr; by rewrite Et in Hr. }
    unfold owner_check in E. pose proof (try_increment_spec m ip l Hl Hm Hip) as Ht. destruct (try_increment ip l) as [b l1]. destruct Ht as (Hl1 & _ & Hc & Ho).
    injection E as <- <-. cbn [ran status]. rewrite Hr in Hk' |- *. cbn [app] in Hk' |- *. split_and!; try done; [by intros ?%list_elem_of_singleton|]. rewrite Hc. destruct b; cbn [took]; lia.
  - injection E as <- <-. cbn [ran status]. split_and!; try done; [|lia]. destruct (Z.eqb_spec (status k) 0) as [->|]; [destruct r; split; lia|done].
Qed.

Lemma task_inv s i c k s' l k' l' :
  inv num_cores m s -> conns s !! i = Some c -> ph c = Calling k -> limiters s !! Z.to_nat (owner num_cores c) = Some l ->
  task_step (owner_check (remote_ip c)) k l = Some (k', l') ->
  s' = with_conn i (set_ph (Calling k') c) (with_limiter (owner num_cores c) l' s) -> inv num_cores m s'.
Proof.
  intros Hs Hc Hph El E ->. pose proof (conn_lookup s i c Hs Hc) as Hok. unfold conn_ok in Hok. rewrite Hph in Hok. destruct Hok as (Hip & Hk & Hst & Hn).
  destruct (task_holds (remote_ip c) l k k' l') as (Hl' & Hk' & Hn' & Hst' & Ho & Hcnt); try done; [by apply (w_limiters _ _ _ Hs _ _ El)|].
  apply (inv_change s i c (set_ph (Calling k') c) l l'); try done; [split_and!; try done; by rewrite <- Hst'|apply (w_posted _ _ _ Hs)|].
  assert (holds c = took (ran k)) by (unfold holds; by rewrite Hph). change (holds (set_ph (Calling k') c)) with (took (ran k')). cbn [posted with_limiter with_conn]. lia.
Qed.

Lemma caller_inv s i c k k' :
  inv num_cores m s -> conns s !! i = Some c -> ph c = Calling k -> status k <> 0 -> caller_step k = Some k' ->
  inv num_cores m (with_conn i (set_ph (Calling k') c) s).
Proof.
  intros Hs Hc Hph Hst0 E. pose proof (conn_lookup s i c Hs Hc) as Hok. unfold conn_ok in Hok. rewrite Hph in Hok. destruct Hok as (Hip & Hk & Hst & Hn).
  pose proof (caller_step_inv _ _ Hk E) as Hk'.
  assert (Hsame : status k' = status k /\ ran k' = ran k).
  { unfold caller_step in E. destruct (caller k); [| | |done]; [by injection E as <-| |by injection E as <-]. destruct (Z.eqb_spec (status k) 0); [lia|by injection E as <-]. }
  destruct Hsame as [Es Er]. apply (inv_conn s i c); try done; [split_and!; try done; by rewrite ?Es, ?Er|apply (w_posted _ _ _ Hs)|].
  intros _. change (holds (set_ph (Calling k') c)) with (took (ran k')). unfold holds. rewrite Hph, Er. lia.
Qed.

Lemma resume_inv s i c k r :
  inv num_cores m s -> conns s !! i = Some c -> ph c = Calling k -> caller k = CallerDone r -> inv num_cores m (after_call num_cores i c k r s).
Proof.
  intros Hs Hc Hph Hr. pose proof (conn_lookup s i c Hs Hc) as Hok. unfold conn_ok in Hok. rewrite Hph in Hok. destruct Hok as (Hip & Hk & Hst & Hn).
  assert (exists b, r = Returns (Ok b) /\ ran k = [Some b]) as (b & -> & Hran).
  { destruct Hk as [(_ & _ & _ & [E|E])|[(_ & _ & b & _ & Hran & E)|[(? & _)|(_ & _ & Hran & _)]]]; try congruence.
    - exists b. rewrite Hr in E. naive_solver.
    - exfalso. apply Hn. rewrite Hran. apply list_elem_of_here. }
  assert (Hh : holds c = if b then 1 else 0) by (unfold holds; rewrite Hph, Hran; by destruct b).
  destruct b; cbn [after_call]; apply (inv_conn s i c); try done; try apply (w_posted _ _ _ Hs); intros _; cbn [holds set_ph ph]; lia.
Qed.

Lemma listener_close_inv s i c s' :
  inv num_cores m s -> conns s !! i = Some c -> ph c = Serving -> on_closed num_cores c (with_conn i (set_ph Gone c) s) = Some s' -> inv num_cores m s'.
Proof.
  intros Hs Hc Hph. assert (Hh : holds c = 1) by (unfold holds; by rewrite Hph). unfold on_closed.
  destruct (remote_ip c) as [|x ip0] eqn:Eip.
  { intros [= <-]. apply (inv_conn s i c); try done; apply (w_posted _ _ _ Hs). }
  rewrite <- Eip. assert (Hip : remote_ip c <> []) by (by rewrite Eip). clear Eip. cbn [limiters with_conn].
  assert (Hlim : exists l0 ls, limiters s = l0 :: ls).
  { destruct (w_count _ _ _ Hs _ Hip) as (l & El & _). destruct (limiters s) as [| l0 ls]; [done | by eexists _, _]. }
  destruct Hlim as (l0 & ls & Hlim). rewrite Hlim. rewrite <- Hlim. clear l0 ls Hlim.
  destruct (_ =? _).
  - destruct (w_count _ _ _ Hs _ Hip) as (l & El & Hcnt). fold (owner num_cores c) in El. rewrite El. intros [= <-].
    destruct (decrement_spec m (remote_ip c) l) as (Hl' & Hc' & Ho); [by apply (w_limiters _ _ _ Hs _ _ El)|].
    apply (inv_change s i c (set_ph Gone c) l); try done; [apply (w_posted _ _ _ Hs)|].
    assert (1 <= count (remote_ip c) l); [|rewrite Hc', Hh; cbn [holds set_ph ph posted with_limiter with_conn]; lia].
    rewrite Hcnt. pose proof (pending_nonneg (remote_ip c) (posted s)). assert (1 <= holding (remote_ip c) (conns s)); [|lia].
    pose proof (holding_insert (remote_ip c) (conns s) i c (set_ph Gone c) Hc eq_refl) as Hi. rewrite decide_True in Hi by done.
    change (holds (set_ph Gone c)) with 0 in Hi. pose proof (holding_nonneg (remote_ip c) (<[i := set_ph Gone c]> (conns s))). lia.
  - intros [= <-]. cbn [posted with_conn]. apply (inv_conn s i c); try done.
    + intros o ip [H|H%list_elem_of_singleton]%elem_of_app; [by apply (w_posted _ _ _ Hs)|]. by injection H as -> ->.
    + intros ip Hne. rewrite pending_app. cbn [pending snd]. rewrite decide_False by congruence. lia.
    + intros _. rewrite pending_app. cbn [pending snd]. rewrite decide_True by done. rewrite Hh. cbn [holds set_ph ph]. lia.
Qed.

Lemma posted_inv s k o ip l :
  inv num_cores m s -> posted s !! k = Some (o, ip) -> limiters s !! Z.to_nat o = Some l ->
  inv num_cores m (with_posted (delete k (posted s)) (with_limiter o (decrement ip l) s)).
Proof.
  intros Hs Hp El. destruct (w_posted _ _ _ Hs o ip) as [-> Hip]; [by eapply list_elem_of_lookup_2|].
  destruct (w_count _ _ _ Hs ip Hip) as (l0 & El0 & Hcnt). rewrite El in El0. injection El0 as <-.
  destruct (decrement_spec m ip l) as (Hl' & Hc' & Ho); [by apply (w_limiters _ _ _ Hs _ _ El)|].
  assert (Hpos : 1 <= pending ip (posted s)).
  { pose proof (pending_delete ip _ _ _ _ Hp) as Hd. rewrite decide_True in Hd by done. pose proof (pending_nonneg ip (delete k (posted s))). lia. }
  pose proof (holding_nonneg ip (conns s)).
  constructor; cbn [limiters conns posted with_posted with_limiter].
  - intros o' lo. destruct (decide (Z.to_nat (owner_core ip num_cores) = o')) as [<-|].
    + rewrite list_lookup_insert_eq by (by eapply lookup_lt_Some). by intros [= <-].
    + rewrite list_lookup_insert_ne by done. apply (w_limiters _ _ _ Hs).
  - apply (w_conns _ _ _ Hs).
  - intros o' ip' Hin. apply (w_posted _ _ _ Hs). rewrite delete_take_drop, elem_of_app in Hin. rewrite <- (take_drop_middle _ _ _ Hp), elem_of_app, elem_of_cons. naive_solver.
  - intros ip' Hip'. rewrite (pending_delete ip' _ _ _ _ Hp). destruct (w_count _ _ _ Hs ip' Hip') as (lo & Elo & Hlo).
    destruct (decide (Z.to_nat (owner_core ip num_cores) = Z.to_nat (owner_core ip' num_cores))) as [E|].
    + rewrite <- E in Elo |- *. rewrite El in Elo. injection Elo as <-. eexists. rewrite list_lookup_insert_eq by (by eapply lookup_lt_Some). split; [done|].
      case_decide as E'; [subst ip'; rewrite Hc'; lia|]. rewrite Ho by congruence. lia.
    + exists lo. rewrite list_lookup_insert_ne by done. split; [done|]. rewrite decide_False by congruence. lia.
Qed.

Lemma accept_inv s ip core : inv num_cores m s -> inv num_cores m (on_accept num_cores max_connections_ ip core s).
Proof.
  intros Hs. unfold on_accept. destruct (over_max _ s); [done|]. destruct (match core with None => _ | Some _ => _ end) as [[a t] nx].
  constructor; cbn [limiters conns posted]; try apply Hs.
  - apply Forall_app. split; [apply Hs|]. constructor; [|done]. by destruct ip, (limiters s).
  - intros ip' Hip'. destruct (w_count _ _ _ Hs ip' Hip') as (l & El & Hl). exists l. split; [done|]. rewrite holding_app. cbn [holding remote_ip].
    rewrite Hl. case_decide as E; [|lia]. subst ip'. destruct ip; [done|]. destruct (limiters s); [done|]. cbn [holds ph]. lia.
Qed.

Lemma listener_exec_inv e s s' : inv num_cores m s -> exec num_cores max_connections_ true e s = Some s' -> inv num_cores m s'.
Proof.
  intros Hs. destruct e as [ip core|i|i|i|i|i created|i|k]; cbn [exec].
  - intros [= <-]. by apply accept_inv.
  - destruct (conns s !! i) as [c|] eqn:Hc; [|done]. destruct (ph c) eqn:Hph; try done. by eapply check_inv.
  - destruct (conns s !! i) as [c|] eqn:Hc; [|done]. destruct (limiters s !! _) as [l|] eqn:El; [|done]. destruct (ph c) as [|k|k| | | |] eqn:Hph; try done.
    + destruct (task_step _ k l) as [[k' l']|] eqn:E; [|done]. intros [= <-]. by eapply task_inv.
    + exfalso. pose proof (conn_lookup s i c Hs Hc) as Hok. unfold conn_ok in Hok. by rewrite Hph in Hok.
  - destruct (conns s !! i) as [c|] eqn:Hc; [|done]. destruct (ph c) as [|k|k| | | |] eqn:Hph; try done. cbn [andb].
    destruct (Z.eqb_spec (status k) 0); [done|]. destruct (caller_step k) eqn:E; [|done]. intros [= <-]. by eapply caller_inv.
  - destruct (conns s !! i) as [c|] eqn:Hc; [|done]. destruct (ph c) as [|k|k| | | |] eqn:Hph; try done. destruct (caller k) eqn:E; try done.
    intros [= <-]. by apply resume_inv.
  - destruct (conns s !! i) as [c|] eqn:Hc; [|done]. destruct (ph c) eqn:Hph; try done. intros [= <-].
    apply (inv_conn s i c); try done; [by destruct created|apply (w_posted _ _ _ Hs)|]. intros _. unfold holds. rewrite Hph. destruct created; cbn [ph set_ph]; lia.
  - destruct (conns s !! i) as [c|] eqn:Hc; [|done]. destruct (ph c) eqn:Hph; try done. by eapply listener_close_inv.
  - destruct (posted s !! k) as [[o ip]|] eqn:Hp; [|done]. destruct (limiters s !! Z.to_nat o) as [l|] eqn:El; [|done]. intros [= <-]. by apply posted_inv.
Qed.

Lemma listener_exec_all_inv es s s' : inv num_cores m s -> exec_all num_cores max_connections_ true es s = Some s' -> inv num_cores m s'.
Proof.
  revert s. induction es as [|e es IH]; intros s Hs; cbn [exec_all]; [by intros [= <-]|]. destruct (exec _ _ _ e s) eqn:E; [|done]. apply IH. by eapply listener_exec_inv.
Qed.

Lemma owner_core_range ip : 0 < num_cores < 2 ^ 32 -> 0 <= owner_core ip num_cores < num_cores.
Proof.
  intros Hn. unfold owner_core. destruct (Z.eqb_spec num_cores 0); [lia|]. pose proof (Z.mod_pos_bound (fnv1a 14695981039346656037 ip) num_cores ltac:(lia)).
  rewrite wrap_small by (unfold in_width; lia). lia.
Qed.

Lemma make_listener_inv : 0 < num_cores < 2 ^ 32 -> 0 < m -> inv num_cores m (make_listener num_cores m).
Proof.
  intros Hn Hm0. unfold make_listener. rewrite (proj2 (Z.ltb_lt 0 m)) by done. set (s := mkListener _ _ _ _). assert (Hl : forall o l, limiters s !! o = Some l -> max_per_ip_ l = m /\ counts_ l = ∅).
  { intros o l Hl. cbn in Hl. apply list_lookup_fmap_Some in Hl as (i & -> & _). done. }
  constructor.
  - intros o l [Hmx Hc]%Hl. split; [done|]. intros ip v. by rewrite Hc.
  - constructor.
  - by intros o ip ?%not_elem_of_nil.
  - intros ip Hip. pose proof (owner_core_range ip Hn).
    destruct (limiters s !! Z.to_nat (owner_core ip num_cores)) as [l|] eqn:E.
    + exists l. split; [done|]. unfold count. apply Hl in E as [_ ->]. done.
    + apply lookup_ge_None in E. cbn in E. rewrite length_fmap, length_seq in E. lia.
Qed.

(** Without limiters nothing is counted. *)
Lemma unlimited_exec e s s' : limiters s = [] -> posted s = [] -> Forall (λ c, match ph c with Checking | Calling _ | Abandoned _ => False | _ => True end) (conns s) ->
  exec num_cores max_connections_ true e s = Some s' ->
  limiters s' = [] /\ posted s' = [] /\ Forall (λ c, match ph c with Checking | Calling _ | Abandoned _ => False | _ => True end) (conns s').
Proof.
  intros Hl Hp Hc. assert (Hph : forall i c, conns s !! i = Some c -> match ph c with Checking | Calling _ | Abandoned _ => False | _ => True end)
    by (intros i c Hi; exact (proj1 (Forall_lookup _ _) Hc i c Hi)).
  destruct e as [ip core|i|i|i|i|i created|i|k]; cbn [exec].
  - intros [= <-]. unfold on_accept. destruct (over_max _ s); [done|]. destruct (match core with None => _ | Some _ => _ end) as [[a t] nx]. cbn. split_and!; [done..|].
    apply Forall_app. split; [done|]. constructor; [|done]. rewrite Hl. by destruct ip.
  - destruct (conns s !! i) as [c|] eqn:E; [|done]. specialize (Hph i c E). by destruct (ph c).
  - destruct (conns s !! i) as [c|] eqn:E; [|done]. by rewrite Hl, lookup_nil.
  - destruct (conns s !! i) as [c|] eqn:E; [|done]. specialize (Hph i c E). by destruct (ph c).
  - destruct (conns s !! i) as [c|] eqn:E; [|done]. specialize (Hph i c E). by destruct (ph c).
  - destruct (conns s !! i) as [c|] eqn:E; [|done]. destruct (ph c); try done. intros [= <-]. cbn. split_and!; [done..|]. apply Forall_insert; [done|]. by destruct created.
  - destruct (conns s !! i) as [c|] eqn:E; [|done]. destruct (ph c) eqn:Eph; try done. unfold on_closed. cbn [limiters with_conn]. rewrite Hl.
    assert (Hs' : with_conn i (set_ph Gone c) s = s' -> limiters s' = [] /\ posted s' = [] /\ Forall (λ c, match ph c with Checking | Calling _ | Abandoned _ => False | _ => True end) (conns s')).
    { intros <-. cbn. split_and!; [done..|]. by apply Forall_insert. }
    destruct (remote_ip c); intros [= E']; by apply Hs'.
  - by rewrite Hp, lookup_nil.
Qed.

Lemma unlimited_exec_all es s s' : limiters s = [] -> posted s = [] -> Forall (λ c, match ph c with Checking | Calling _ | Abandoned _ => False | _ => True end) (conns s) ->
  exec_all num_cores max_connections_ true es s = Some s' -> limiters s' = [] /\ posted s' = [].
Proof.
  revert s. induction es as [|e es IH]; intros s Hl Hp Hc; cbn [exec_all]; [by intros [= <-]|]. destruct (exec _ _ _ e s) as [s1|] eqn:E; [|done].
  destruct (unlimited_exec e s s1 Hl Hp Hc E) as (? & ? & ?). by apply IH.
Qed.

End Strict.

(** C11: The per-IP limit holds. In every execution in which no call to an owner
    core times out, however accepts, checks, closes and posted decrements of all
    addresses interleave across the cores: never more than [max_per_ip]
    connections of an address are served, and once no accept or release of that
    address is under way, the owner's counter is the number of connections that
    were accepted and not released. A limit of zero stands for no limit: then nothing
    is counted at all. *)
Theorem per_ip_limit num_cores max_connections max_per_ip es s ip
    (Hn : 0 < num_cores < 2 ^ 32) (Hm : 0 <= max_per_ip < 2 ^ 32) (Hip : ip <> [])
    (Hrun : exec_all num_cores max_connections true es (make_listener num_cores max_per_ip) = Some s) :
  if max_per_ip =? 0 then limiters s = [] /\ posted s = []
  else
    serving_ip ip (conns s) <= max_per_ip /\
    exists l, limiters s !! Z.to_nat (owner_core ip num_cores) = Some l /\ count ip l = holding ip (conns s) + pending ip (posted s) /\
      count ip l <= max_per_ip.
Proof.
  destruct (Z.eqb_spec max_per_ip 0) as [-> | Hnz]; [eapply unlimited_exec_all; [..|exact Hrun]; done|].
  assert (Hs : inv num_cores max_per_ip s) by (eapply listener_exec_all_inv; [lia|apply make_listener_inv; lia|done]).
  destruct (w_count _ _ _ Hs ip Hip) as (l & El & Hc). destruct (w_limiters _ _ _ Hs _ _ El) as [_ Hl].
  assert (count ip l <= max_per_ip). { unfold count. destruct (counts_ l !! ip) eqn:E; cbn; [apply Hl in E; lia|lia]. }
  split; [|by exists l]. pose proof (serving_le_holding ip (conns s)). pose proof (pending_nonneg ip (posted s)). lia.
Qed.

(** A connection of the address "2", accepted on core 0 and counted on core 1. *)
Definition served_connection (i : nat) : list event :=
  [EvAccept [50] None; EvCheck i; EvTask i; EvTask i; EvTask i; EvCaller i; EvCaller i; EvCaller i; EvResume i; EvForward i true].

Lemma per_ip_limit_witness :
  exists s, exec_all 2 0 true (served_connection 0 ++ served_connection 1) (make_listener 2 2) = Some s /\
    serving_ip [50] (conns s) = 2 /\ serving_ip [50] (conns s) <= 2.
Proof.
  destruct (exec_all 2 0 true (served_connection 0 ++ served_connection 1) (make_listener 2 2)) as [s|] eqn:E; [|exfalso; vm_compute in E; discriminate].
  exists s. split; [done|].
  destruct (per_ip_limit 2 0 2 (served_connection 0 ++ served_connection 1) s [50]) as [H _]; [lia|lia|done|done|].
  split; [|done]. vm_compute in E. injection E as <-. reflexivity.
Defined.

(** An accept whose call to the owner times out before its task runs: the task
    then does nothing, and the compensating decrement runs. *)
Definition timed_out_connection (i : nat) : list event :=
  [EvAccept [50] None; EvCheck i; EvCaller i; EvCaller i; EvResume i; EvTask i; EvPosted 0].

(** A timeout of the owner-core check undoes a count it never took. With a
    limit of one connection per address, one served connection, then an accept
    whose check times out while its task is still queued, then another accept:
    two connections of the address are served while the owner's counter is 1. *)
Theorem per_ip_limit_bypassed :
  exists s l, exec_all 2 0 false (served_connection 0 ++ timed_out_connection 1 ++ served_connection 2) (make_listener 2 1) = Some s /\
    serving_ip [50] (conns s) = 2 /\ limiters s !! Z.to_nat (owner_core [50] 2) = Some l /\ max_per_ip_ l = 1 /\ count [50] l = 1.
Proof.
  destruct (exec_all 2 0 false (served_connection 0 ++ timed_out_connection 1 ++ served_connection 2) (make_listener 2 1)) as [s|] eqn:E; [|exfalso; vm_compute in E; discriminate].
  vm_compute in E. injection E as <-. eexists _, _. split; [reflexivity|]. split; [reflexivity|]. split; [reflexivity|]. split; reflexivity.
Qed.
