(* ===== verification/Double.v ===== *)
(** * IEEE 754 double arithmetic on the values the program computes

    A [double] is the rational it denotes, and an operation is the exact result
    rounded to 53 significant bits, ties to even, which is the default rounding of
    IEEE 754 binary64. The exponent range, infinities and NaN are left out: the
    rate limiters divide by a positive window, and every value they compute is 0
    or lies between [2^-64] and [2^64]. *)

From S2P Require Import Prelude.
From Stdlib Require Import QArith Qround Qpower Lqa.

#[local] Open Scope Z_scope.

Definition pow2 (e : Z) : Q := Qpower 2 e.

(** ** Rounding to an integer, ties to even *)

Definition rne (q : Q) : Z :=
  let f := Qfloor q in
  match Qcompare (q - inject_Z f)%Q (1 # 2) with
  | Lt => f
  | Gt => f + 1
  | Eq => if Z.even f then f else f + 1
  end.

(** The binade of a positive rational. *)
Definition ilog2 (q : Q) : Z :=
  let e := Z.log2 (Qnum q) - Z.log2 (Zpos (Qden q)) in
  if Qle_bool (pow2 e) q then e else e - 1.

Definition round_pos (q : Q) : Q :=
  let e := ilog2 q in (inject_Z (rne (q * pow2 (52 - e))) * pow2 (e - 52))%Q.

Definition round64 (q : Q) : Q :=
  match Qcompare q 0 with Lt => (- round_pos (- q))%Q | Eq => 0%Q | Gt => round_pos q end.

(** ** The operations *)

Definition of_int (z : Z) : Q := round64 (inject_Z z).
Definition dadd (x y : Q) : Q := Qred (round64 (x + y)).
Definition dsub (x y : Q) : Q := Qred (round64 (x - y)).
Definition dmul (x y : Q) : Q := Qred (round64 (x * y)).
Definition ddiv (x y : Q) : Q := Qred (round64 (x / y)).
Definition dgeb (x y : Q) : bool := Qle_bool y x.
Definition dgtb (x y : Q) : bool := negb (Qle_bool x y).

(** ** Powers of two *)

Lemma pow2_pos e : (0 < pow2 e)%Q.
Proof. apply Qpower_0_lt. reflexivity. Qed.

Lemma pow2_add a b : (pow2 (a + b) == pow2 a * pow2 b)%Q.
Proof. apply Qpower_plus. discriminate. Qed.

Lemma pow2_Z e : 0 <= e -> (pow2 e == inject_Z (2 ^ e))%Q.
Proof. intros H. unfold pow2. rewrite <- (Zpower_Qpower 2 e H). reflexivity. Qed.

Lemma pow2_mono a b : a <= b -> (pow2 a <= pow2 b)%Q.
Proof. intros H. apply Qpower_le_compat_l; [done | discriminate]. Qed.

Lemma pow2_scale q e : (q * pow2 (52 - e) * pow2 (e - 52) == q)%Q.
Proof.
  rewrite <- Qmult_assoc, <- pow2_add. replace (52 - e + (e - 52)) with 0 by lia.
  change (pow2 0) with 1%Q. ring.
Qed.

(** ** Rounding to an integer is monotone and exact on integers *)

Lemma rne_bounds q : Qfloor q <= rne q <= Qfloor q + 1.
Proof. unfold rne. destruct (Qcompare _ _); [destruct (Z.even _) | |]; lia. Qed.

Lemma rne_mono x y : (x <= y)%Q -> rne x <= rne y.
Proof.
  intros H. pose proof (Qfloor_resp_le _ _ H) as Hf. pose proof (rne_bounds x). pose proof (rne_bounds y).
  destruct (Z.eq_dec (Qfloor x) (Qfloor y)) as [E | ?]; [| lia].
  unfold rne in *. rewrite <- E in *.
  destruct (Qcompare_spec (x - inject_Z (Qfloor x)) (1 # 2)), (Qcompare_spec (y - inject_Z (Qfloor x)) (1 # 2));
    try destruct (Z.even _); try lia; exfalso; lra.
Qed.

Lemma rne_int z : rne (inject_Z z) = z.
Proof.
  unfold rne. rewrite Qfloor_Z. destruct (Qcompare_spec (inject_Z z - inject_Z z) (1 # 2)) as [E | E | E]; [| done |]; exfalso; lra.
Qed.

#[export] Instance rne_proper : Proper (Qeq ==> eq) rne.
Proof. intros x y E. apply Z.le_antisymm; apply rne_mono; rewrite E; apply Qle_refl. Qed.

(** ** The binade *)

Lemma ilog2_spec q : (0 < q)%Q -> (pow2 (ilog2 q) <= q < pow2 (ilog2 q + 1))%Q.
Proof.
  destruct q as [n d]. intros Hq. assert (Hn : 0 < n) by (unfold Qlt in Hq; cbn in Hq; lia).
  unfold ilog2. cbn [Qnum Qden]. set (a := Z.log2 n). set (b := Z.log2 (Zpos d)).
  pose proof (Z.log2_spec n Hn) as [Hn1 Hn2]. pose proof (Z.log2_spec (Zpos d) eq_refl) as [Hd1 Hd2].
  fold a in Hn1, Hn2. fold b in Hd1, Hd2.
  pose proof (Z.log2_nonneg n) as Ha. pose proof (Z.log2_nonneg (Zpos d)) as Hb. fold a in Ha. fold b in Hb.
  assert (Hd0 : (0 < inject_Z (Zpos d))%Q) by (unfold Qlt; cbn; lia).
  assert (Hq' : (n # d == inject_Z n / inject_Z (Zpos d))%Q) by (apply Qmake_Qdiv).
  assert (Hup : (n # d < pow2 (a - b + 1))%Q).
  { rewrite Hq'. apply Qlt_shift_div_r; [done |].
    apply Qlt_le_trans with (pow2 (a + 1)).
    - rewrite pow2_Z by lia. rewrite <- Zlt_Qlt. replace (a + 1) with (Z.succ a) by lia. done.
    - replace (a + 1) with (a - b + 1 + b) by lia. rewrite pow2_add.
      apply Qmult_le_l; [apply pow2_pos |]. rewrite pow2_Z by lia. rewrite <- Zle_Qle. done. }
  assert (Hlo : (pow2 (a - b - 1) <= n # d)%Q).
  { rewrite Hq'. apply Qle_shift_div_l; [done |].
    apply Qle_trans with (pow2 a).
    - replace a with (a - b - 1 + (b + 1)) at 2 by lia. rewrite pow2_add.
      apply Qmult_le_l; [apply pow2_pos |]. rewrite pow2_Z by lia. rewrite <- Zle_Qle. replace (b + 1) with (Z.succ b) by lia. lia.
    - rewrite pow2_Z by lia. rewrite <- Zle_Qle. done. }
  destruct (Qle_bool (pow2 (a - b)) (n # d)) eqn:E.
  - apply Qle_bool_iff in E. done.
  - split; [done |]. replace (a - b - 1 + 1) with (a - b) by lia.
    apply Qnot_le_lt. intros H. apply Qle_bool_iff in H. congruence.
Qed.

Lemma ilog2_mono x y : (0 < x)%Q -> (x <= y)%Q -> ilog2 x <= ilog2 y.
Proof.
  intros Hx Hxy. assert (Hy : (0 < y)%Q) by lra.
  destruct (ilog2_spec x Hx) as [Hx1 _]. destruct (ilog2_spec y Hy) as [_ Hy2].
  destruct (Z.le_gt_cases (ilog2 x) (ilog2 y)) as [? | H]; [done |].
  exfalso. pose proof (pow2_mono (ilog2 y + 1) (ilog2 x) ltac:(lia)). lra.
Qed.

(** ** Rounding to a double *)

Lemma round_pos_binade q : (0 < q)%Q -> (pow2 (ilog2 q) <= round_pos q <= pow2 (ilog2 q + 1))%Q.
Proof.
  intros Hq. destruct (ilog2_spec q Hq) as [H1 H2]. unfold round_pos. set (e := ilog2 q) in *.
  pose proof (pow2_pos (52 - e)) as Hp. pose proof (pow2_pos (e - 52)) as Hp'.
  assert (E52 : (inject_Z (2 ^ 52) == pow2 e * pow2 (52 - e))%Q).
  { rewrite <- pow2_add, <- pow2_Z by lia. replace (e + (52 - e)) with 52 by lia. reflexivity. }
  assert (E53 : (inject_Z (2 ^ 53) == pow2 (e + 1) * pow2 (52 - e))%Q).
  { rewrite <- pow2_add, <- pow2_Z by lia. replace (e + 1 + (52 - e)) with 53 by lia. reflexivity. }
  split.
  - rewrite <- (pow2_scale (pow2 e) e). apply Qmult_le_r; [done |]. rewrite <- E52, <- Zle_Qle, <- (rne_int (2 ^ 52)).
    apply rne_mono. rewrite E52. apply Qmult_le_r; done.
  - rewrite <- (pow2_scale (pow2 (e + 1)) e). apply Qmult_le_r; [done |]. rewrite <- E53, <- Zle_Qle, <- (rne_int (2 ^ 53)).
    apply rne_mono. rewrite E53. apply Qmult_le_r; [done | lra].
Qed.

Lemma round_pos_mono x y : (0 < x)%Q -> (x <= y)%Q -> (round_pos x <= round_pos y)%Q.
Proof.
  intros Hx Hxy. assert (Hy : (0 < y)%Q) by lra.
  destruct (Z.eq_dec (ilog2 x) (ilog2 y)) as [E | Hne].
  - unfold round_pos. rewrite E. apply Qmult_le_r; [apply pow2_pos |]. rewrite <- Zle_Qle.
    apply rne_mono. apply Qmult_le_r; [apply pow2_pos | done].
  - pose proof (ilog2_mono x y Hx Hxy). destruct (round_pos_binade x Hx) as [_ H1]. destruct (round_pos_binade y Hy) as [H2 _].
    pose proof (pow2_mono (ilog2 x + 1) (ilog2 y) ltac:(lia)). lra.
Qed.

Lemma round_pos_pos q : (0 < q)%Q -> (0 < round_pos q)%Q.
Proof. intros H. destruct (round_pos_binade q H). pose proof (pow2_pos (ilog2 q)). lra. Qed.

Lemma round64_mono x y : (x <= y)%Q -> (round64 x <= round64 y)%Q.
Proof.
  intros H. unfold round64.
  destruct (Qcompare_spec x 0) as [Ex | Ex | Ex], (Qcompare_spec y 0) as [Ey | Ey | Ey]; try (exfalso; lra).
  - lra.
  - pose proof (round_pos_pos y Ey). lra.
  - assert (Hx : (0 < - x)%Q) by lra. pose proof (round_pos_pos _ Hx). lra.
  - pose proof (round_pos_mono (- y) (- x) ltac:(lra) ltac:(lra)). lra.
  - assert (Hx : (0 < - x)%Q) by lra. pose proof (round_pos_pos _ Hx). pose proof (round_pos_pos _ Ey). lra.
  - apply round_pos_mono; done.
Qed.

#[export] Instance round64_proper : Proper (Qeq ==> Qeq) round64.
Proof. intros x y E. apply Qle_antisym; apply round64_mono; rewrite E; apply Qle_refl. Qed.

(** Integers of at most 53 bits are doubles. *)
Lemma round64_int z : 0 <= z < 2 ^ 53 -> (round64 (inject_Z z) == inject_Z z)%Q.
Proof.
  intros [H0 H]. unfold round64. destruct (Qcompare_spec (inject_Z z) 0) as [E | E | E]; [lra | |].
  { exfalso. change 0%Q with (inject_Z 0) in E. rewrite <- Zlt_Qlt in E. lia. }
  destruct (ilog2_spec _ E) as [He1 _]. unfold round_pos. set (e := ilog2 (inject_Z z)) in *.
  assert (He : e <= 52).
  { destruct (Z.le_gt_cases e 52) as [? | Hgt]; [done |]. exfalso.
    pose proof (pow2_mono 53 e ltac:(lia)) as Hm. rewrite (pow2_Z 53) in Hm by lia.
    assert (inject_Z (2 ^ 53) <= inject_Z z)%Q as Hz by lra. rewrite <- Zle_Qle in Hz. lia. }
  assert (Hi : (inject_Z z * pow2 (52 - e) == inject_Z (z * 2 ^ (52 - e)))%Q) by (rewrite inject_Z_mult, pow2_Z by lia; reflexivity).
  rewrite Hi, rne_int, <- Hi. apply pow2_scale.
Qed.

(** Hence rounding keeps a value between the integers it lies between. *)
Lemma round64_ge z q : 0 <= z < 2 ^ 53 -> (inject_Z z <= q)%Q -> (inject_Z z <= round64 q)%Q.
Proof. intros Hz H. rewrite <- (round64_int z Hz). apply round64_mono, H. Qed.

Lemma round64_le z q : 0 <= z < 2 ^ 53 -> (q <= inject_Z z)%Q -> (round64 q <= inject_Z z)%Q.
Proof. intros Hz H. rewrite <- (round64_int z Hz). apply round64_mono, H. Qed.
