(* ===== verification/SlidingWindow.v ===== *)
(** * The sliding window counter

    [apex::shared::rate_limit::SlidingWindowCounter]
    (apex_shared/lib/rate_limit/src/sliding_window_counter.cpp): two counters, the
    current window's and the one before it, and a decision on the estimate
    [previous * (1 - ratio) + current] computed in [double].

    Time points and durations are the nanosecond counts of [steady_clock]. Both
    are non-negative 64-bit values, so no difference of them overflows, and
    [window_start_ + window_size_] is computed only when it is at most [now]. *)

From S2P Require Import Prelude Double.
From Stdlib Require Import QArith Lqa.

#[local] Open Scope Z_scope.

Module Window.

Record SlidingWindowCounter : Type := mkCounter {
  limit_ : Z;
  window_size_ : Z;
  current_count_ : Z;
  previous_count_ : Z;
  window_start_ : Z;
  last_access_ : Z
}.

Definition make_counter (limit window_size : Z) : SlidingWindowCounter :=
  mkCounter limit (if 0 <? window_size then window_size else 1) 0 0 0 0.

Definition rotate_to (current previous start : Z) (c : SlidingWindowCounter) : SlidingWindowCounter :=
  mkCounter (limit_ c) (window_size_ c) current previous start (last_access_ c).

Definition advance_window (now : Z) (c : SlidingWindowCounter) : SlidingWindowCounter :=
  if window_start_ c =? 0 then rotate_to (current_count_ c) (previous_count_ c) now c
  else
    let elapsed := now - window_start_ c in
    if elapsed <? window_size_ c then c
    else
      let windows_passed := elapsed ÷ window_size_ c in
      if windows_passed =? 1 then rotate_to 0 (current_count_ c) (window_start_ c + window_size_ c) c
      else rotate_to 0 0 now c.

(** [previous * (1.0 - ratio) + current], with [ratio] capped at 1. *)
Definition weighted (elapsed window previous current : Z) : Q :=
  let ratio := ddiv (of_int elapsed) (of_int window) in
  let ratio := if dgtb ratio 1 then 1%Q else ratio in
  dadd (dmul (of_int previous) (dsub 1 ratio)) (of_int current).

Definition allow (now : Z) (c : SlidingWindowCounter) : bool * SlidingWindowCounter :=
  let c := advance_window now c in
  let elapsed := now - window_start_ c in
  let estimate := weighted elapsed (window_size_ c) (previous_count_ c) (current_count_ c) in
  if dgeb estimate (of_int (limit_ c)) then (false, c)
  else (true, mkCounter (limit_ c) (window_size_ c) (u32 (current_count_ c + 1)) (previous_count_ c) (window_start_ c) now).

Definition estimated_count (now : Z) (c : SlidingWindowCounter) : Q :=
  let elapsed_since_start := now - window_start_ c in
  if (0 <? window_size_ c) && (window_size_ c <=? elapsed_since_start) then
    let windows_passed := elapsed_since_start ÷ window_size_ c in
    if windows_passed =? 1 then weighted (now - (window_start_ c + window_size_ c)) (window_size_ c) (current_count_ c) 0
    else 0%Q
  else weighted (now - window_start_ c) (window_size_ c) (previous_count_ c) (current_count_ c).

Definition reset (c : SlidingWindowCounter) : SlidingWindowCounter := mkCounter (limit_ c) (window_size_ c) 0 0 0 0.

(** Calls of [allow] at the given times, and their answers. *)
Fixpoint run_calls (nows : list Z) (c : SlidingWindowCounter) : list (Z * bool) * SlidingWindowCounter :=
  match nows with
  | [] => ([], c)
  | now :: nows =>
      let '(b, c) := allow now c in
      let '(answers, c) := run_calls nows c in ((now, b) :: answers, c)
  end.

End Window.
Import Window.

(** ** The estimate lies between the current count and the sum of both *)

Lemma weighted_bounds elapsed window previous current :
  0 <= elapsed -> 0 < window -> 0 <= previous < 2 ^ 32 -> 0 <= current < 2 ^ 32 ->
  (inject_Z current <= weighted elapsed window previous current <= inject_Z (previous + current))%Q.
Proof.
  intros He Hw Hp Hc. unfold weighted, dadd, dmul, dsub, ddiv, dgtb.
  set (r := Qred (round64 (of_int elapsed / of_int window))).
  set (r' := if negb (Qle_bool r 1) then 1%Q else r). rewrite !Qred_correct.
  assert (H1 : (of_int 1 == 1)%Q) by reflexivity.
  assert (Hw1 : (1 <= of_int window)%Q).
  { apply (round64_ge 1); [lia |]. change 1%Q with (inject_Z 1). rewrite <- Zle_Qle. lia. }
  assert (He0 : (0 <= of_int elapsed)%Q).
  { apply (round64_ge 0); [lia |]. change 0%Q with (inject_Z 0). rewrite <- Zle_Qle. done. }
  assert (Hr0 : (0 <= r)%Q).
  { subst r. rewrite Qred_correct. apply (round64_ge 0); [lia |]. change (inject_Z 0) with 0%Q.
    apply Qle_shift_div_l; lra. }
  assert (Hr' : (0 <= r' <= 1)%Q).
  { subst r'. destruct (Qle_bool r 1) eqn:E; cbn; [apply Qle_bool_iff in E |]; split; (done || lra). }
  assert (Hs : (0 <= round64 (1 - r') <= 1)%Q).
  { split; [apply (round64_ge 0) | apply (round64_le 1)]; try lia; change (inject_Z 0) with 0%Q; change (inject_Z 1) with 1%Q; lra. }
  pose proof (round64_int previous ltac:(lia)) as Ep. pose proof (round64_int current ltac:(lia)) as Ec.
  fold (of_int previous) in Ep. fold (of_int current) in Ec. rewrite Ep, Ec.
  assert (Hp0 : (0 <= inject_Z previous)%Q) by (change 0%Q with (inject_Z 0); rewrite <- Zle_Qle; lia).
  assert (Hm : (0 <= round64 (inject_Z previous * round64 (1 - r')) <= inject_Z previous)%Q).
  { split; [apply (round64_ge 0) | apply (round64_le previous)]; try lia; change (inject_Z 0) with 0%Q; nra. }
  split; [apply round64_ge | apply round64_le]; try lia; [lra |]. rewrite inject_Z_plus. lra.
Qed.

Lemma dgeb_int z q : 0 <= z < 2 ^ 53 -> dgeb q (of_int z) = false -> (q < inject_Z z)%Q.
Proof.
  intros Hz H. pose proof (round64_int z Hz) as E. apply Qnot_le_lt. intros Hle.
  assert (Qle_bool (of_int z) q = true) by (apply Qle_bool_iff; unfold of_int; lra). unfold dgeb in H. congruence.
Qed.

Lemma dgeb_zero z : 0 < z < 2 ^ 53 -> dgeb 0 (of_int z) = false.
Proof.
  intros Hz. unfold dgeb. apply not_true_is_false. rewrite Qle_bool_iff. pose proof (round64_int z ltac:(lia)) as E.
  unfold of_int. rewrite E. change 0%Q with (inject_Z 0). rewrite <- Zle_Qle. lia.
Qed.

Lemma weighted_zero elapsed window : 0 <= elapsed -> 0 < window -> (weighted elapsed window 0 0 == 0)%Q.
Proof.
  intros He Hw. destruct (weighted_bounds elapsed window 0 0) as [H1 H2]; try lia.
  change (inject_Z 0) with 0%Q in *. change (inject_Z (0 + 0)) with 0%Q in *. lra.
Qed.

(** ** The requests admitted in an interval *)

Definition admitted_in (a b : Z) (h : list Z) : Z := len (filter (λ t, a <= t < b) h).

Lemma admitted_cons a b x h : admitted_in a b (x :: h) = admitted_in a b h + (if decide (a <= x < b) then 1 else 0).
Proof. unfold admitted_in. rewrite filter_cons. destruct (decide _); unfold len; cbn [length]; lia. Qed.

Lemma admitted_nonneg a b h : 0 <= admitted_in a b h.
Proof. unfold admitted_in, len. lia. Qed.

Lemma admitted_none a b h : (forall t, t ∈ h -> t < a) -> admitted_in a b h = 0.
Proof.
  induction h as [| x h IH]; intros H; [done |]. rewrite admitted_cons, IH by (intros t Ht; apply H; right; done).
  specialize (H x ltac:(left)). rewrite decide_False by lia. done.
Qed.

Lemma admitted_split a b s x y h : s <= b -> x <= a -> b <= y -> s <= y -> x <= s ->
  admitted_in a b h <= admitted_in x s h + admitted_in s y h.
Proof.
  intros. induction h as [| z h IH]; [done |]. rewrite !admitted_cons. repeat destruct (decide _); lia.
Qed.

Lemma admitted_le a b x y h : x <= a -> b <= y -> admitted_in a b h <= admitted_in x y h.
Proof. intros. induction h as [| z h IH]; [done |]. rewrite !admitted_cons. repeat destruct (decide _); lia. Qed.

(** ** The invariant of a counter with its admitted requests *)

Record counter_inv (limit W last : Z) (c : SlidingWindowCounter) (h : list Z) : Prop := {
  ci_limit : limit_ c = limit /\ 0 <= limit < 2 ^ 32;
  ci_window : window_size_ c = W /\ 0 < W;
  ci_current : 0 <= current_count_ c <= limit;
  ci_previous : 0 <= previous_count_ c <= limit;
  ci_start : 0 <= window_start_ c <= last;
  ci_fresh : window_start_ c = 0 -> h = [] /\ current_count_ c = 0 /\ previous_count_ c = 0;
  ci_now : admitted_in (window_start_ c) (window_start_ c + W) h = current_count_ c;
  ci_before : admitted_in (window_start_ c - W) (window_start_ c) h <= limit;
  ci_recent : forall t, t ∈ h -> t < window_start_ c + W;
  ci_interval : forall t, admitted_in t (t + W) h <= 2 * limit
}.

Lemma make_counter_inv limit window : 0 <= limit < 2 ^ 32 -> counter_inv limit (window_size_ (make_counter limit window)) 0 (make_counter limit window) [].
Proof.
  intros H. split; cbn; try done; try lia.
  - split; [done |]. destruct (Z.ltb_spec 0 window); lia.
  - change (0 <= limit). lia.
  - intros t Ht. apply elem_of_nil in Ht. done.
  - intros t. change (0 <= 2 * limit). lia.
Qed.

(** After [advance_window], [now] lies in the current window. *)
Lemma advance_window_inv limit W last now c h :
  counter_inv limit W last c h -> last <= now -> 0 < now ->
  counter_inv limit W now (advance_window now c) h /\ (0 <= now - window_start_ (advance_window now c) < W /\ 0 < window_start_ (advance_window now c)).
Proof.
  intros [Hl Hw Hc Hp Hs Hf Hn Hb Hr Hi] Hlast Hnow. unfold advance_window.
  destruct (Z.eqb_spec (window_start_ c) 0) as [E0 | E0].
  { destruct (Hf E0) as (-> & Hc0 & Hp0). split; [| cbn; lia]. split; cbn [rotate_to limit_ window_size_ current_count_ previous_count_ window_start_]; try done; try lia.
    intros t Ht. apply elem_of_nil in Ht. done. }
  destruct Hw as [HW HW0]. rewrite HW. destruct (Z.ltb_spec (now - window_start_ c) W) as [Hlt | Hge].
  { split; [| lia]. split; try done; lia. }
  destruct (Z.eqb_spec ((now - window_start_ c) ÷ W) 1) as [E1 | E1]; rewrite Z.quot_div_nonneg in E1 by lia.
  - assert (W <= now - window_start_ c < 2 * W) by (pose proof (Z.div_mod (now - window_start_ c) W); pose proof (Z.mod_pos_bound (now - window_start_ c) W); nia).
    split; [| cbn; lia].
    split; cbn [rotate_to limit_ window_size_ current_count_ previous_count_ window_start_]; try done; try lia.
    + apply admitted_none. done.
    + replace (window_start_ c + W - W) with (window_start_ c) by lia. lia.
    + intros t Ht. specialize (Hr t Ht). lia.
  - assert (2 * W <= now - window_start_ c).
    { pose proof (Z.div_mod (now - window_start_ c) W). pose proof (Z.mod_pos_bound (now - window_start_ c) W).
      pose proof (Z.div_le_mono W (now - window_start_ c) W HW0 Hge). rewrite Z.div_same in * by lia. nia. }
    split; [| cbn; lia].
    split; cbn [rotate_to limit_ window_size_ current_count_ previous_count_ window_start_]; try done; try lia.
    + apply admitted_none. intros t Ht. specialize (Hr t Ht). lia.
    + rewrite admitted_none; [lia |]. intros t Ht. specialize (Hr t Ht). lia.
    + intros t Ht. specialize (Hr t Ht). lia.
Qed.

Lemma admit_inv limit W now c h :
  counter_inv limit W now c h -> 0 <= now - window_start_ c < W /\ 0 < window_start_ c -> 0 < now -> current_count_ c < limit ->
  counter_inv limit W now (mkCounter (limit_ c) (window_size_ c) (u32 (current_count_ c + 1)) (previous_count_ c) (window_start_ c) now) (now :: h).
Proof.
  intros [Hl Hw Hc Hp Hs Hf Hn Hb Hr Hi] Hin Hnow Hlt.
  assert (E : u32 (current_count_ c + 1) = current_count_ c + 1) by (apply wrap_small; unfold in_width; lia). rewrite E.
  split; cbn [limit_ window_size_ current_count_ previous_count_ window_start_]; try done; try lia.
  - rewrite admitted_cons, decide_True by lia. lia.
  - rewrite admitted_cons, decide_False by lia. lia.
  - intros t [-> | Ht]%elem_of_cons; [lia | auto].
  - intros t. rewrite admitted_cons. specialize (Hi t). destruct (decide (t <= now < t + W)) as [Hd | Hd]; [| lia].
    destruct (Z.le_gt_cases (window_start_ c) t) as [Ht | Ht].
    + pose proof (admitted_none (window_start_ c + W) (t + W) h Hr).
      pose proof (admitted_split t (t + W) (window_start_ c + W) (window_start_ c) (t + W) h ltac:(lia) ltac:(lia) ltac:(lia) ltac:(lia) ltac:(lia)).
      lia.
    + pose proof (admitted_split t (t + W) (window_start_ c) (window_start_ c - W) (window_start_ c + W) h ltac:(lia) ltac:(lia) ltac:(lia) ltac:(lia) ltac:(lia)).
      lia.
Qed.

Lemma allow_inv limit W last now c h :
  counter_inv limit W last c h -> last <= now -> 0 < now ->
  let '(b, c') := allow now c in counter_inv limit W now c' (if b : bool then now :: h else h).
Proof.
  intros Hinv Hlast Hnow. destruct (advance_window_inv _ _ _ _ _ _ Hinv Hlast Hnow) as [Ha Hin]. unfold allow.
  set (c' := advance_window now c) in *. destruct (dgeb _ _) eqn:E; [done |].
  apply admit_inv; [done.. |]. destruct Ha as [[Hl Hl'] [Hw Hw'] Hc Hp _ _ _ _ _ _]. rewrite Hl in E. apply dgeb_int in E; [| lia].
  destruct (weighted_bounds (now - window_start_ c') (window_size_ c') (previous_count_ c') (current_count_ c')) as [Hlo _]; try lia.
  rewrite Zlt_Qlt. lra.
Qed.

(** ** Sequences of calls *)

(** The times of the calls never go back. *)
Fixpoint monotone_from (last : Z) (nows : list Z) : Prop :=
  match nows with [] => True | now :: nows => last <= now /\ monotone_from now nows end.

Lemma monotone_lower last nows : monotone_from last nows -> forall now, now ∈ nows -> last <= now.
Proof.
  revert last. induction nows as [| x nows IH]; intros last H now Hin; [by apply elem_of_nil in Hin |].
  destruct H as [Hx H]. apply elem_of_cons in Hin as [-> | Hin]; [done |]. specialize (IH x H now Hin). lia.
Qed.

(** The times of the requests answered [true]. *)
Definition admitted (answers : list (Z * bool)) : list Z := (filter (λ a, a.2 = true) answers).*1.

Lemma run_calls_inv limit W nows last c h :
  counter_inv limit W last c h -> monotone_from last nows -> (forall now, now ∈ nows -> 0 < now) ->
  let '(answers, c') := run_calls nows c in
  exists last', counter_inv limit W last' c' (rev (admitted answers) ++ h).
Proof.
  revert last c h. induction nows as [| now nows IH]; intros last c h Hinv Hm Hpos; cbn [run_calls]; [by exists last |].
  destruct Hm as [Hlast Hm]. pose proof (allow_inv _ _ _ _ _ _ Hinv Hlast ltac:(apply Hpos; left)) as Ha.
  destruct (allow now c) as [b c1]. specialize (IH now c1 _ Ha Hm ltac:(intros; apply Hpos; right; done)).
  destruct (run_calls nows c1) as [answers c2]. destruct IH as [last' IH]. exists last'.
  unfold admitted in *. rewrite filter_cons. destruct b; cbn [snd].
  - rewrite decide_True by done. cbn [fmap list_fmap fst rev]. rewrite <- app_assoc. done.
  - rewrite decide_False by done. done.
Qed.

Lemma admitted_in_rev a b h : admitted_in a b (rev h) = admitted_in a b h.
Proof. unfold admitted_in, len. f_equal. apply Permutation_length. rewrite <- (Permutation_rev h). done. Qed.

(** C12: over any sequence of calls whose times do not go back, at most [limit]
    requests are admitted in the counter's current window, and any interval of one
    window's length, wherever it starts, holds at most twice the limit; the decision
    is made in double arithmetic and this holds whatever it rounds. *)
Theorem sliding_window_bound limit window nows :
  0 <= limit < 2 ^ 32 -> monotone_from 1 nows ->
  let W := window_size_ (make_counter limit window) in
  let '(answers, c) := run_calls nows (make_counter limit window) in
  admitted_in (window_start_ c) (window_start_ c + W) (admitted answers) <= limit /\
  forall t, admitted_in t (t + W) (admitted answers) <= 2 * limit.
Proof.
  intros Hl Hm W. pose proof (run_calls_inv limit W nows 0 _ [] (make_counter_inv limit window Hl)) as H.
  destruct (run_calls nows _) as [answers c]. destruct H as [last [_ _ Hc _ _ _ Hn _ _ Hi]].
  { destruct nows; [done |]. destruct Hm. split; [lia | done]. }
  { intros now Hin. apply (monotone_lower 1 nows Hm) in Hin. lia. }
  rewrite app_nil_r in *. split; [rewrite <- admitted_in_rev; lia |]. intros t. rewrite <- admitted_in_rev. apply Hi.
Qed.

Lemma sliding_window_bound_witness :
  let '(answers, c) := run_calls [1; 2; 5; 12; 13; 40] (make_counter 2 10) in
  admitted answers = [1; 2; 12; 40] /\ forall t, admitted_in t (t + 10) (admitted answers) <= 2 * 2.
Proof.
  pose proof (sliding_window_bound 2 10 [1; 2; 5; 12; 13; 40] ltac:(lia) ltac:(cbn; lia)) as H.
  cbn zeta in H. destruct (run_calls _ _) as [answers c] eqn:E. vm_compute in E. injection E as <- <-.
  destruct H as [_ H]. split; [reflexivity | exact H].
Defined.

(** [estimated_count], which does not move the window, foretells the answer of
    [allow] at the same time: [allow] admits the request exactly when the estimate
    is below the limit. *)
Lemma estimate_foretells limit W last c h now :
  counter_inv limit W last c h -> last <= now -> 0 < now -> 0 < limit ->
  (allow now c).1 = negb (dgeb (estimated_count now c) (of_int limit)).
Proof.
  intros Hinv Hlast Hnow Hlim. destruct (advance_window_inv _ _ _ _ _ _ Hinv Hlast Hnow) as [Ha Hin].
  destruct Hinv as [[Hl Hl'] [HW HW0] Hc Hp Hs Hf _ _ _ _].
  assert (Hz : forall e, 0 <= e -> dgeb (weighted e W 0 0) (of_int limit) = false).
  { intros e He. unfold dgeb. rewrite weighted_zero by done. apply dgeb_zero. lia. }
  unfold allow, estimated_count. unfold advance_window in *. rewrite HW in *. replace (0 <? W) with true by lia. cbn [andb].
  assert (Hfst : forall (x : bool) (a b : SlidingWindowCounter), (if x then (false, a) else (true, b)).1 = negb x) by (intros [] ? ?; done).
  rewrite Hfst. f_equal. destruct (Z.eqb_spec (window_start_ c) 0) as [E0 | E0].
  - destruct (Hf E0) as (_ & Hc0 & Hp0). cbn [rotate_to limit_ window_size_ current_count_ previous_count_ window_start_].
    rewrite Hl, HW, E0, Hc0, Hp0, Hz by lia. destruct (Z.leb_spec W (now - 0)); [| rewrite Hz by lia; done].
    destruct (_ =? 1); [rewrite Hz by lia; done | symmetry; apply dgeb_zero; lia].
  - destruct (Z.ltb_spec (now - window_start_ c) W).
    { rewrite Hl, HW. replace (W <=? now - window_start_ c) with false by lia. done. }
    replace (W <=? now - window_start_ c) with true by lia.
    destruct (_ =? 1); cbn [rotate_to limit_ window_size_ current_count_ previous_count_ window_start_]; rewrite Hl, HW; [done |].
    rewrite Hz by lia. symmetry. apply dgeb_zero. lia.
Qed.

(** Two windows after the current one began the counter has forgotten every
    earlier request, and a request is admitted. *)
Lemma idle_counter_recovers limit W last c h now :
  counter_inv limit W last c h -> 0 < limit -> last <= now -> 0 < now ->
  window_start_ c + 2 * W <= now -> (allow now c).1 = true.
Proof.
  intros Hinv Hlim Hlast Hnow Hidle. destruct (advance_window_inv _ _ _ _ _ _ Hinv Hlast Hnow) as [Ha Hin].
  destruct Hinv as [[Hl Hl'] [HW HW0] Hc Hp Hs Hf _ _ _ _].
  assert (Hz : current_count_ (advance_window now c) = 0 /\ previous_count_ (advance_window now c) = 0).
  { unfold advance_window. rewrite HW. destruct (Z.eqb_spec (window_start_ c) 0) as [E0 | E0]; [apply Hf, E0 |].
    replace (now - window_start_ c <? W) with false by lia. rewrite Z.quot_div_nonneg by lia.
    assert (2 <= (now - window_start_ c) / W) by (apply Z.div_le_lower_bound; lia).
    destruct (Z.eqb_spec ((now - window_start_ c) / W) 1); [lia | done]. }
  destruct Ha as [[Hla _] [HWa _] _ _ _ _ _ _ _ _]. unfold allow. rewrite Hla, HWa. destruct Hz as [-> ->].
  replace (dgeb _ _) with false; [done |]. symmetry. unfold dgeb. rewrite weighted_zero by lia. apply dgeb_zero. lia.
Qed.
