(* ===== verification/PerIpRateLimiter.v ===== *)
(** * The per-IP rate limiter

    [apex::shared::rate_limit::PerIpRateLimiter]
    (apex_shared/lib/rate_limit/src/per_ip_rate_limiter.cpp): one sliding window
    counter per client address, a vector that orders the addresses for eviction and
    an index into it in every entry.

    The schedule, cancel and reschedule callbacks are the caller's: an operation
    lists the calls it makes, and the handle [schedule_fn_] returns is an argument
    of [allow]. A TTL callback that runs is the operation [remove_entry]. *)

From S2P Require Import Prelude SlidingWindow.
Import SlidingWindow.Window.

Abbreviation ip_address := (list Z).

Module PerIp.

Record PerIpRateLimiterConfig : Type := mkConfig {
  total_limit : Z; window_seconds : Z; num_cores : Z; max_entries : Z; ttl_multiplier : Z
}.

Record Entry : Type := mkEntry { counter : SlidingWindowCounter; timer_handle : Z; lru_index : Z }.

Record PerIpRateLimiter : Type := mkPerIp {
  config_ : PerIpRateLimiterConfig;
  per_core_limit_ : Z;
  ttl_ : Z;
  entries_ : gmap ip_address Entry;
  lru_order_ : list ip_address
}.

Inductive timer_call : Type :=
| ScheduleExpiry (delay : Z) (ip : ip_address)
| CancelTimer (handle : Z)
| RescheduleTimer (handle delay : Z).

Definition core_limit (config : PerIpRateLimiterConfig) : Z :=
  Z.max 1 (total_limit config `div` Z.max 1 (num_cores config)).
Definition ttl_ms (config : PerIpRateLimiterConfig) : Z := window_seconds config * ttl_multiplier config * 1000.

Definition make_limiter (config : PerIpRateLimiterConfig) : PerIpRateLimiter :=
  mkPerIp config (core_limit config) (ttl_ms config) ∅ [].

Definition with_entries (m : gmap ip_address Entry) (order : list ip_address) (l : PerIpRateLimiter) : PerIpRateLimiter :=
  mkPerIp (config_ l) (per_core_limit_ l) (ttl_ l) m order.

Definition set_index (i : Z) (e : Entry) : Entry := mkEntry (counter e) (timer_handle e) i.
Definition set_counter (c : SlidingWindowCounter) (e : Entry) : Entry := mkEntry c (timer_handle e) (lru_index e).

Definition cancel_entry (e : Entry) : list timer_call := if timer_handle e =? 0 then [] else [CancelTimer (timer_handle e)].

(** [std::swap(v[i], v[j])]. *)
Definition swap (i j : nat) (l : list ip_address) : list ip_address :=
  match l !! i, l !! j with Some x, Some y => <[i := y]> (<[j := x]> l) | _, _ => l end.
Definition pop_back (l : list ip_address) : list ip_address := take (length l - 1) l.
Definition back_index (l : list ip_address) : nat := length l - 1.

Definition evict_lru (l : PerIpRateLimiter) : list timer_call * PerIpRateLimiter :=
  match lru_order_ l with
  | [] => ([], l)
  | oldest_ip :: _ =>
      let '(calls, m) := match entries_ l !! oldest_ip with
                         | Some e => (cancel_entry e, delete oldest_ip (entries_ l))
                         | None => ([], entries_ l)
                         end in
      let order := lru_order_ l in
      if 1 <? len order then
        let m := match order !! back_index order with Some back_ip => alter (set_index 0) back_ip m | None => m end in
        (calls, with_entries m (pop_back (swap 0 (back_index order) order)) l)
      else (calls, with_entries m (pop_back order) l)
  end.

Definition remove_entry (ip : ip_address) (l : PerIpRateLimiter) : PerIpRateLimiter :=
  match entries_ l !! ip with
  | None => l
  | Some e =>
      let lru_idx := lru_index e in
      let m := delete ip (entries_ l) in
      let order := lru_order_ l in
      if lru_idx <? len order then
        if negb (lru_idx =? len order - 1) then
          let m := match order !! back_index order with Some back_ip => alter (set_index lru_idx) back_ip m | None => m end in
          with_entries m (pop_back (swap (Z.to_nat lru_idx) (back_index order) order)) l
        else with_entries m (pop_back order) l
      else with_entries m order l
  end.

(** [entry] is the entry of [ip], a reference into the map. *)
Definition touch_lru (ip : ip_address) (map_index : Z) (l : PerIpRateLimiter) : PerIpRateLimiter :=
  let order := lru_order_ l in
  if len order <=? map_index then l
  else
    let last_idx := u32 (len order - 1) in
    if map_index =? last_idx then l
    else
      let m := match order !! Z.to_nat last_idx with Some back_ip => alter (set_index map_index) back_ip (entries_ l) | None => entries_ l end in
      let m := alter (set_index last_idx) ip m in
      with_entries m (swap (Z.to_nat map_index) (Z.to_nat last_idx) order) l.

(** [new_it->second.counter.allow(now)]. *)
Definition count_request (ip : ip_address) (now : Z) (l : PerIpRateLimiter) : outcome (bool * PerIpRateLimiter) :=
  match entries_ l !! ip with
  | None => Throws undefined_behaviour
  | Some e =>
      let '(b, c) := Window.allow now (counter e) in
      Returns (b, with_entries (<[ip := set_counter c e]> (entries_ l)) (lru_order_ l) l)
  end.

Definition allow (ip : ip_address) (now handle : Z) (l : PerIpRateLimiter) : outcome (bool * list timer_call * PerIpRateLimiter) :=
  match entries_ l !! ip with
  | None =>
      let '(calls, l) := if max_entries (config_ l) <=? Z.of_nat (size (entries_ l)) then evict_lru l else ([], l) in
      let e := mkEntry (make_counter (per_core_limit_ l) (window_seconds (config_ l) * 10 ^ 9)) handle (u32 (len (lru_order_ l))) in
      let calls := calls ++ [ScheduleExpiry (ttl_ l) ip] in
      let l := with_entries (<[ip := e]> (entries_ l)) (lru_order_ l ++ [ip]) l in
      run (b, l) <- count_request ip now l; Returns (b, calls, l)
  | Some e =>
      let calls := [RescheduleTimer (timer_handle e) (ttl_ l)] in
      let l := touch_lru ip (lru_index e) l in
      run (b, l) <- count_request ip now l; Returns (b, calls, l)
  end.

Definition entry_count (l : PerIpRateLimiter) : Z := u32 (Z.of_nat (size (entries_ l))).

Definition cancel_all (l : PerIpRateLimiter) : list timer_call := mjoin ((λ p, cancel_entry p.2) <$> map_to_list (entries_ l)).

Definition update_config (config : PerIpRateLimiterConfig) (l : PerIpRateLimiter) : list timer_call * PerIpRateLimiter :=
  (cancel_all l, mkPerIp config (core_limit config) (ttl_ms config) ∅ []).

End PerIp.
Import PerIp.

(** ** The order and the indices agree *)

Record order_ok (order : list ip_address) (m : gmap ip_address Entry) : Prop := {
  oo_lookup : forall ip i, order !! i = Some ip <-> exists e, m !! ip = Some e /\ lru_index e = Z.of_nat i;
  oo_index : forall ip e, m !! ip = Some e -> 0 <= lru_index e
}.

Lemma order_nodup order m : order_ok order m -> NoDup order.
Proof.
  intros [H _]. apply NoDup_alt. intros i j ip Hi Hj. apply H in Hi as (e & He & Hi). apply H in Hj as (e' & He' & Hj).
  simplify_eq. lia.
Qed.

Lemma order_dom order m : order_ok order m -> dom m = list_to_set order.
Proof.
  intros [H H']. apply set_eq. intros ip. rewrite elem_of_dom, elem_of_list_to_set, list_elem_of_lookup. split.
  - intros [e He]. exists (Z.to_nat (lru_index e)). apply H. exists e. split; [done |]. specialize (H' ip e He). lia.
  - intros [i Hi]. apply H in Hi as (e & He & _). by exists e.
Qed.

Lemma order_size order m : order_ok order m -> size m = length order.
Proof.
  intros H. rewrite <- size_dom, (order_dom _ _ H), size_list_to_set by (eapply order_nodup, H). done.
Qed.

Lemma lookup_swap i j l k x y : l !! i = Some x -> l !! j = Some y ->
  swap i j l !! k = (if decide (k = i) then Some y else if decide (k = j) then Some x else l !! k).
Proof.
  intros Hi Hj. unfold swap. rewrite Hi, Hj. apply lookup_lt_Some in Hi as Li. apply lookup_lt_Some in Hj as Lj.
  destruct (decide (k = i)) as [-> | ?]; [rewrite list_lookup_insert_eq; [done | rewrite length_insert; lia] |].
  rewrite list_lookup_insert_ne by done. destruct (decide (k = j)) as [-> | ?]; [rewrite list_lookup_insert_eq; done |].
  rewrite list_lookup_insert_ne by done. done.
Qed.

Lemma length_swap i j l : length (swap i j l) = length l.
Proof. unfold swap. repeat case_match; rewrite ?length_insert; done. Qed.

Lemma back_index_swap i j l : back_index (swap i j l) = back_index l.
Proof. unfold back_index. rewrite length_swap. done. Qed.

Lemma order_swap order m i j x y : order_ok order m -> order !! i = Some x -> order !! j = Some y -> i <> j ->
  order_ok (swap i j order) (alter (set_index (Z.of_nat j)) x (alter (set_index (Z.of_nat i)) y m)).
Proof.
  intros Hok Hi Hj Hij. assert (Hxy : x <> y) by (intros <-; apply Hij; eapply NoDup_lookup; [eapply order_nodup, Hok | done..]).
  destruct Hok as [H H']. pose proof Hi as (ex & Hex & Ex)%H. pose proof Hj as (ey & Hey & Ey)%H.
  assert (Hl : forall ip, alter (set_index (Z.of_nat j)) x (alter (set_index (Z.of_nat i)) y m) !! ip =
    (if decide (ip = x) then Some (set_index (Z.of_nat j) ex) else if decide (ip = y) then Some (set_index (Z.of_nat i) ey) else m !! ip)).
  { intros ip. destruct (decide (ip = x)) as [-> | ?].
    - rewrite lookup_alter_eq, lookup_alter_ne, Hex by done. done.
    - rewrite lookup_alter_ne by done. destruct (decide (ip = y)) as [-> | ?]; [rewrite lookup_alter_eq, Hey; done | rewrite lookup_alter_ne; done]. }
  split.
  - intros ip k. rewrite (lookup_swap i j order k x y Hi Hj), Hl. specialize (H ip k).
    destruct (decide (ip = x)) as [-> | ?]; [| destruct (decide (ip = y)) as [-> | ?]].
    + destruct (decide (k = i)) as [-> | ?]; [| destruct (decide (k = j)) as [-> | ?]].
      * split; [congruence |]. intros (e & [= <-] & E). cbn in E. lia.
      * split; [intros _; by eexists | done].
      * rewrite H. split; intros (e & He & E); [simplify_eq; lia |]. injection He as <-. cbn in E. lia.
    + destruct (decide (k = i)) as [-> | ?]; [| destruct (decide (k = j)) as [-> | ?]].
      * split; [intros _; by eexists | done].
      * split; [congruence |]. intros (e & [= <-] & E). cbn in E. lia.
      * rewrite H. split; intros (e & He & E); [simplify_eq; lia |]. injection He as <-. cbn in E. lia.
    + destruct (decide (k = i)) as [-> | ?]; [| destruct (decide (k = j)) as [-> | ?]; [| exact H]].
      * split; [congruence |]. intros Hk%H. congruence.
      * split; [congruence |]. intros Hk%H. congruence.
  - intros ip e. rewrite Hl. destruct (decide _); [intros [= <-]; cbn; lia |]. destruct (decide _); [intros [= <-]; cbn; lia | apply H'].
Qed.

Lemma order_pop order m ip : order_ok order m -> order !! back_index order = Some ip -> order_ok (pop_back order) (delete ip m).
Proof.
  intros Hok Hb. pose proof (order_nodup _ _ Hok) as Hnd. destruct Hok as [H H']. unfold pop_back, back_index in *. split.
  - intros ip' k. destruct (decide (k < length order - 1)%nat) as [Hk | Hk].
    + rewrite lookup_take_lt by done. rewrite (H ip' k). split; intros (e & He & E).
      * exists e. rewrite lookup_delete_ne; [done |]. intros <-. apply H in Hb as (e2 & He2 & E2). simplify_eq. lia.
      * apply lookup_delete_Some in He as [_ He]. by exists e.
    + rewrite lookup_take_ge by lia. split; [done |]. intros (e & He & E). apply lookup_delete_Some in He as [Hne He].
      assert (Hk' : order !! k = Some ip') by (apply H; by exists e). apply lookup_lt_Some in Hk' as Hlt.
      assert (k = (length order - 1)%nat) as -> by lia. congruence.
  - intros ip' e He. apply lookup_delete_Some in He as [_ He]. eapply H', He.
Qed.

Lemma order_push order m ip e : order_ok order m -> m !! ip = None -> lru_index e = len order ->
  order_ok (order ++ [ip]) (<[ip := e]> m).
Proof.
  intros [H H'] Hn Hi. split.
  - intros ip' k. destruct (decide (k < length order)%nat) as [Hk | Hk].
    + rewrite lookup_app_l by done. destruct (decide (ip' = ip)) as [-> | ?].
      * rewrite lookup_insert_eq, H. split; [intros (e' & He' & _); congruence |]. intros (e' & [= <-] & E). unfold len in Hi. lia.
      * rewrite lookup_insert_ne by done. apply H.
    + rewrite lookup_app_r by lia. split.
      * intros Hx. apply list_lookup_singleton_Some in Hx as [Hk0 <-]. exists e. rewrite lookup_insert_eq. unfold len in Hi. split; [done | lia].
      * intros (e' & He' & E). destruct (decide (ip' = ip)) as [-> | ?].
        -- rewrite lookup_insert_eq in He'. simplify_eq. unfold len in Hi. replace (k - length order)%nat with 0%nat by lia. done.
        -- rewrite lookup_insert_ne in He' by done. exfalso. assert (Hx : order !! k = Some ip') by (apply H; by exists e').
           apply lookup_lt_Some in Hx. lia.
  - intros ip' e'. destruct (decide (ip' = ip)) as [-> | ?].
    + rewrite lookup_insert_eq. intros [= <-]. unfold len in Hi. lia.
    + rewrite lookup_insert_ne by done. apply H'.
Qed.

Lemma order_update order m ip e e' : order_ok order m -> m !! ip = Some e -> lru_index e' = lru_index e -> order_ok order (<[ip := e']> m).
Proof.
  intros [H H'] He Hi. split.
  - intros ip' k. rewrite H. destruct (decide (ip' = ip)) as [-> | ?]; [| rewrite lookup_insert_ne by done; done].
    rewrite lookup_insert_eq, He. split; intros (x & [= <-] & E); [exists e' | exists e]; split; (done || lia).
  - intros ip' x. destruct (decide (ip' = ip)) as [-> | ?]; [| rewrite lookup_insert_ne by done; apply H'].
    rewrite lookup_insert_eq. intros [= <-]. rewrite Hi. eapply H', He.
Qed.

(** Taking the entry at position [i] out, as [evict_lru] and [remove_entry] do. *)
Lemma order_remove order m i ip : order_ok order m -> order !! i = Some ip ->
  let m' := delete ip m in
  if decide (i = back_index order) then order_ok (pop_back order) m'
  else exists back_ip, order !! back_index order = Some back_ip /\
       order_ok (pop_back (swap i (back_index order) order)) (alter (set_index (Z.of_nat i)) back_ip m').
Proof.
  intros Hok Hi m'. destruct (decide _) as [-> | Hne]; [by apply order_pop |].
  apply lookup_lt_Some in Hi as Hlt. destruct (lookup_lt_is_Some_2 order (back_index order)) as [b Hb]; [unfold back_index; lia |].
  exists b. split; [done |]. assert (Hbi : b <> ip) by (intros ->; apply Hne; eapply NoDup_lookup; [eapply order_nodup, Hok | done..]).
  pose proof (order_pop _ _ ip (order_swap _ _ _ _ _ _ Hok Hi Hb Hne)) as Hp.
  subst m'. rewrite <- delete_alter_ne by done.
  rewrite delete_alter_eq in Hp. apply Hp. rewrite back_index_swap, (lookup_swap _ _ _ _ _ _ Hi Hb), decide_False, decide_True by done. done.
Qed.

(** ** What the operations leave of the other entries *)

(** Every entry of [m'] is an entry of [m] with the same counter and timer. *)
Definition keeps_counters (m m' : gmap ip_address Entry) : Prop :=
  forall ip e', m' !! ip = Some e' -> exists e, m !! ip = Some e /\ counter e' = counter e /\ timer_handle e' = timer_handle e.

#[export] Instance keeps_counters_refl : Reflexive keeps_counters.
Proof. intros m ip e He. by exists e. Qed.

#[export] Instance keeps_counters_trans : Transitive keeps_counters.
Proof.
  intros m1 m2 m3 H12 H23 ip e3 H3. destruct (H23 _ _ H3) as (e2 & H2 & E2 & T2). destruct (H12 _ _ H2) as (e1 & H1 & E1 & T1).
  exists e1. split_and!; congruence.
Qed.

Lemma keeps_delete m ip : keeps_counters m (delete ip m).
Proof. intros ip' e He. apply lookup_delete_Some in He as [_ He]. by exists e. Qed.

Lemma keeps_alter m ip i : keeps_counters m (alter (set_index i) ip m).
Proof.
  intros ip' e He. apply lookup_alter_Some in He as [(-> & e0 & He0 & ->) | [_ He]]; [| by exists e]. by exists e0.
Qed.

Create HintDb rate_limit.
#[export] Hint Resolve keeps_delete keeps_alter keeps_counters_refl : rate_limit.

Lemma keeps_delete_alter m ip ip' i : keeps_counters m (alter (set_index i) ip' (delete ip m)).
Proof. etransitivity; [apply keeps_delete | apply keeps_alter]. Qed.

(** ** The invariant *)

Definition window_of (l : PerIpRateLimiter) : Z := window_size_ (make_counter (per_core_limit_ l) (window_seconds (config_ l) * 10 ^ 9)).

Record limiter_inv (last : Z) (l : PerIpRateLimiter) (hist : gmap ip_address (list Z)) : Prop := {
  li_order : order_ok (lru_order_ l) (entries_ l);
  li_limit : 1 <= per_core_limit_ l < 2 ^ 32;
  li_max : 0 <= max_entries (config_ l) < 2 ^ 32;
  li_size : len (lru_order_ l) <= Z.max 1 (max_entries (config_ l));
  li_counters : forall ip e, entries_ l !! ip = Some e ->
    counter_inv (per_core_limit_ l) (window_of l) last (counter e) (default [] (hist !! ip))
}.

Lemma counter_inv_later limit W last now c h : counter_inv limit W last c h -> last <= now -> counter_inv limit W now c h.
Proof. intros [] H. split; try done. lia. Qed.

(** Reordering and removing entries keeps the invariant. *)
Lemma limiter_inv_keep last now l m order hist :
  limiter_inv last l hist -> last <= now -> order_ok order m -> keeps_counters (entries_ l) m -> len order <= len (lru_order_ l) ->
  limiter_inv now (with_entries m order l) hist.
Proof.
  intros [Ho Hl Hm Hs Hc] Hlast Hok Hk Hlen. split; try done; cbn [with_entries lru_order_ config_ entries_]; [lia |].
  intros ip e He. destruct (Hk ip e He) as (e0 & He0 & -> & _). eapply counter_inv_later, Hlast. apply Hc, He0.
Qed.

Lemma pop_back_len order : order <> [] -> len (pop_back order) = len order - 1.
Proof. intros H. unfold pop_back, len. rewrite length_take. destruct order; [done |]. cbn [length]. lia. Qed.

Lemma len_swap i j order : len (swap i j order) = len order.
Proof. unfold len. rewrite length_swap. done. Qed.

Lemma swap_nonempty i j order : order <> [] -> swap i j order <> [].
Proof. intros H E. apply (f_equal length) in E. rewrite length_swap in E. destruct order; done. Qed.

Lemma evict_lru_spec last now l hist : limiter_inv last l hist -> last <= now -> lru_order_ l <> [] ->
  let l' := (evict_lru l).2 in
  limiter_inv now l' hist /\ keeps_counters (entries_ l) (entries_ l') /\ len (lru_order_ l') = len (lru_order_ l) - 1 /\
  config_ l' = config_ l /\ per_core_limit_ l' = per_core_limit_ l.
Proof.
  intros Hinv Hlast Hne l'. assert (Ho := li_order _ _ _ Hinv). subst l'. unfold evict_lru.
  destruct (lru_order_ l) as [| ip rest] eqn:E; [done |]. rewrite <- E in *.
  assert (H0 : lru_order_ l !! 0%nat = Some ip) by (rewrite E; done).
  destruct (proj1 (oo_lookup _ _ Ho ip 0%nat) H0) as (e & He & _). rewrite He.
  pose proof (order_remove _ _ 0%nat ip Ho H0) as Hr. cbn zeta in Hr.
  destruct (decide (0%nat = back_index (lru_order_ l))) as [Hb | Hb].
  - destruct (Z.ltb_spec 1 (len (lru_order_ l))) as [Hlt | _]; [unfold back_index, len in *; lia |]. cbn [snd with_entries entries_ lru_order_ config_ per_core_limit_].
    split_and!; [| auto with rate_limit | by apply pop_back_len | done..].
    eapply limiter_inv_keep; [done.. | auto with rate_limit |]. rewrite pop_back_len by done. lia.
  - assert (Hlen : 1 < len (lru_order_ l)) by (apply lookup_lt_Some in H0; unfold back_index, len in *; lia).
    destruct (Z.ltb_spec 1 (len (lru_order_ l))) as [_ | ?]; [| lia]. destruct Hr as (b & Hbl & Hr). rewrite Hbl. cbn [snd with_entries entries_ lru_order_ config_ per_core_limit_].
    assert (Hl : len (pop_back (swap 0 (back_index (lru_order_ l)) (lru_order_ l))) = len (lru_order_ l) - 1) by (rewrite pop_back_len, len_swap by (by apply swap_nonempty); done).
    split_and!; [| apply keeps_delete_alter | done..].
    eapply limiter_inv_keep; [done.. | apply keeps_delete_alter | lia].
Qed.

Lemma evict_entry_spec last now ip l hist : limiter_inv last l hist -> last <= now ->
  limiter_inv now (remove_entry ip l) hist /\ keeps_counters (entries_ l) (entries_ (remove_entry ip l)) /\ entries_ (remove_entry ip l) !! ip = None.
Proof.
  intros Hinv Hlast. assert (Ho := li_order _ _ _ Hinv). unfold remove_entry. destruct (entries_ l !! ip) as [e |] eqn:He.
  2:{ split_and!; [| reflexivity | done]. destruct Hinv. split; try done. intros ip' e' He'. eapply counter_inv_later, Hlast. auto. }
  pose proof (oo_index _ _ Ho _ _ He) as Hi. set (i := Z.to_nat (lru_index e)).
  assert (H0 : lru_order_ l !! i = Some ip) by (apply (oo_lookup _ _ Ho); exists e; split; [done | lia]).
  apply lookup_lt_Some in H0 as Hlt. pose proof (order_remove _ _ i ip Ho H0) as Hr. cbn zeta in Hr.
  replace (lru_index e <? len (lru_order_ l)) with true by (unfold len; lia).
  assert (Hne : lru_order_ l <> []) by (intros E; rewrite E in H0; done).
  destruct (decide (i = back_index (lru_order_ l))) as [Hb | Hb].
  - replace (lru_index e =? len (lru_order_ l) - 1) with true by (unfold len, back_index in *; lia). cbn [negb with_entries entries_].
    split_and!; [| auto with rate_limit | apply lookup_delete_eq].
    eapply limiter_inv_keep; [done.. | auto with rate_limit |]. rewrite pop_back_len by done. lia.
  - replace (lru_index e =? len (lru_order_ l) - 1) with false by (unfold len, back_index in *; lia). cbn [negb].
    destruct Hr as (b & Hbl & Hr). rewrite Hbl. fold i. cbn [with_entries entries_]. replace (Z.of_nat i) with (lru_index e) in Hr by lia.
    split_and!; [| apply keeps_delete_alter |].
    + eapply limiter_inv_keep; [done.. | apply keeps_delete_alter |]. rewrite pop_back_len, len_swap by (by apply swap_nonempty). lia.
    + rewrite lookup_alter_None. apply lookup_delete_eq.
Qed.

Lemma touch_lru_spec last now ip e l hist : limiter_inv last l hist -> last <= now -> entries_ l !! ip = Some e ->
  let l' := touch_lru ip (lru_index e) l in
  limiter_inv now l' hist /\ keeps_counters (entries_ l) (entries_ l') /\
  lru_order_ l' !! back_index (lru_order_ l') = Some ip /\ config_ l' = config_ l /\ per_core_limit_ l' = per_core_limit_ l.
Proof.
  intros Hinv Hlast He l'. subst l'. assert (Ho := li_order _ _ _ Hinv). pose proof (oo_index _ _ Ho _ _ He) as Hi. set (i := Z.to_nat (lru_index e)).
  assert (H0 : lru_order_ l !! i = Some ip) by (apply (oo_lookup _ _ Ho); exists e; split; [done | lia]).
  apply lookup_lt_Some in H0 as Hlt. unfold touch_lru.
  assert (Hu : u32 (len (lru_order_ l) - 1) = len (lru_order_ l) - 1).
  { pose proof (li_size _ _ _ Hinv). pose proof (li_max _ _ _ Hinv). apply wrap_small. unfold in_width, len in *. lia. }
  rewrite Hu. replace (len (lru_order_ l) <=? lru_index e) with false by (unfold len; lia).
  destruct (Z.eqb_spec (lru_index e) (len (lru_order_ l) - 1)) as [E | E].
  { split_and!; [| reflexivity | | done..].
    - destruct Hinv. split; try done. intros ip' e' He'. eapply counter_inv_later, Hlast. auto.
    - rewrite <- H0. f_equal. unfold back_index, len in *. lia. }
  replace (Z.to_nat (len (lru_order_ l) - 1)) with (back_index (lru_order_ l)) by (unfold back_index, len; lia). fold i.
  assert (Hb : i <> back_index (lru_order_ l)) by (unfold back_index, len in *; lia).
  destruct (lookup_lt_is_Some_2 (lru_order_ l) (back_index (lru_order_ l))) as [b Hbl]; [unfold back_index; lia |]. rewrite Hbl.
  pose proof (order_swap _ _ _ _ _ _ Ho H0 Hbl Hb) as Hs. replace (Z.of_nat i) with (lru_index e) in Hs by lia.
  replace (Z.of_nat (back_index (lru_order_ l))) with (len (lru_order_ l) - 1) in Hs by (unfold back_index, len; lia).
  cbn [with_entries entries_ lru_order_ config_ per_core_limit_]. split_and!; [| | | done..].
  - eapply limiter_inv_keep; [done.. | etransitivity; apply keeps_alter | rewrite len_swap; done].
  - etransitivity; apply keeps_alter.
  - rewrite back_index_swap, (lookup_swap _ _ _ _ _ _ H0 Hbl), decide_False, decide_True by done. done.
Qed.

(** ** Whole requests *)

(** The admitted requests counted by the entry of [ip] after a request. *)
Definition history (l : PerIpRateLimiter) (ip : ip_address) (now : Z) (allowed : bool) (hist : gmap ip_address (list Z)) : gmap ip_address (list Z) :=
  let h := if decide (is_Some (entries_ l !! ip)) then default [] (hist !! ip) else [] in
  <[ip := if allowed then now :: h else h]> hist.

Lemma count_request_spec last now ip e l hist h :
  limiter_inv last l hist -> last <= now -> 0 < now -> entries_ l !! ip = Some e -> default [] (hist !! ip) = h ->
  exists b l', count_request ip now l = Returns (b, l') /\ limiter_inv now l' (<[ip := if b : bool then now :: h else h]> hist) /\
    entries_ l' = <[ip := set_counter (Window.allow now (counter e)).2 e]> (entries_ l) /\ b = (Window.allow now (counter e)).1 /\
    lru_order_ l' = lru_order_ l /\ config_ l' = config_ l.
Proof.
  intros [Ho Hl Hm Hs Hc] Hlast Hnow He <-. unfold count_request. rewrite He.
  pose proof (allow_inv _ _ _ _ _ _ (Hc ip e He) Hlast Hnow) as Ha. destruct (Window.allow now (counter e)) as [b c].
  do 2 eexists. split_and!; [done | | done..]. split; cbn [with_entries lru_order_ entries_ config_ per_core_limit_]; try done.
  - eapply order_update; [done.. |]. done.
  - intros ip' e'. destruct (decide (ip' = ip)) as [-> | Hne].
    + rewrite !lookup_insert_eq. intros [= <-]. done.
    + rewrite !lookup_insert_ne by done. intros He'. eapply counter_inv_later, Hlast. apply Hc, He'.
Qed.

(** Adding the entry of a new address, once there is room. *)
Lemma add_entry_spec last now ip handle l hist :
  limiter_inv last l hist -> last <= now -> 0 <= last -> entries_ l !! ip = None -> len (lru_order_ l) < Z.max 1 (max_entries (config_ l)) ->
  let e := mkEntry (make_counter (per_core_limit_ l) (window_seconds (config_ l) * 10 ^ 9)) handle (u32 (len (lru_order_ l))) in
  limiter_inv now (with_entries (<[ip := e]> (entries_ l)) (lru_order_ l ++ [ip]) l) (<[ip := []]> hist).
Proof.
  intros [Ho Hl Hm Hs Hc] Hlast H0 Hn Hlen e.
  assert (Hu : u32 (len (lru_order_ l)) = len (lru_order_ l)) by (apply wrap_small; unfold in_width, len in *; lia).
  split; cbn [with_entries lru_order_ entries_ config_ per_core_limit_]; try done.
  - apply order_push; [done.. |]. cbn. done.
  - unfold len in *. rewrite length_app. cbn. lia.
  - intros ip' e'. destruct (decide (ip' = ip)) as [-> | Hne].
    + rewrite !lookup_insert_eq. intros [= <-]. apply (counter_inv_later _ _ 0).
      { exact (make_counter_inv (per_core_limit_ l) (window_seconds (config_ l) * 10 ^ 9) ltac:(lia)). } lia.
    + rewrite !lookup_insert_ne by done. intros He'. eapply counter_inv_later, Hlast. apply Hc, He'.
Qed.

Lemma allow_spec last now ip handle l hist :
  limiter_inv last l hist -> last <= now -> 0 <= last -> 0 < now ->
  exists b calls l', allow ip now handle l = Returns (b, calls, l') /\ limiter_inv now l' (history l ip now b hist) /\
    keeps_counters (entries_ l) (delete ip (entries_ l')) /\ lru_order_ l' !! back_index (lru_order_ l') = Some ip.
Proof.
  intros Hinv Hlast H0 Hnow. unfold allow, history. destruct (entries_ l !! ip) as [e |] eqn:He.
  - rewrite decide_True by (by eexists).
    destruct (touch_lru_spec _ now ip e l hist Hinv Hlast He) as (Ht & Hk & Hb & _ & _).
    assert (Hin : is_Some (entries_ (touch_lru ip (lru_index e) l) !! ip)).
    { destruct (proj1 (oo_lookup _ _ (li_order _ _ _ Ht) _ _) Hb) as (e' & He' & _). by eexists. }
    destruct Hin as [e' He']. destruct (count_request_spec _ now ip e' _ hist _ Ht (Z.le_refl _) Hnow He' eq_refl) as (b & l' & -> & Hl & Em & _ & Eo & _).
    do 3 eexists. split_and!; [done | done | | by rewrite Eo]. rewrite Em, delete_insert_eq. etransitivity; [exact Hk | apply keeps_delete].
  - rewrite decide_False by (intros [? [=]]).
    set (p := if _ <=? _ then evict_lru l else ([], l)).
    assert (Hp : limiter_inv now p.2 hist /\ keeps_counters (entries_ l) (entries_ p.2) /\ len (lru_order_ p.2) < Z.max 1 (max_entries (config_ p.2))).
    { pose proof (order_size _ _ (li_order _ _ _ Hinv)) as Hsz. pose proof (li_size _ _ _ Hinv) as Hs. subst p.
      destruct (Z.leb_spec (max_entries (config_ l)) (Z.of_nat (size (entries_ l)))) as [Hfull | Hroom].
      - destruct (decide (lru_order_ l = [])) as [E | E].
        + unfold evict_lru. rewrite E. cbn [snd]. split_and!; [| reflexivity | rewrite E; change (0 < Z.max 1 (max_entries (config_ l))); lia].
          destruct Hinv. split; try done. intros ip' e' He'. eapply counter_inv_later, Hlast. auto.
        + destruct (evict_lru_spec _ now _ _ Hinv Hlast E) as (Hl & Hk & Hlen & Ec & _). split_and!; [done.. |]. rewrite Ec. lia.
      - cbn [snd]. split_and!; [| reflexivity | unfold len in *; lia].
        destruct Hinv. split; try done. intros ip' e' He'. eapply counter_inv_later, Hlast. auto. }
    destruct p as [calls l1]. cbn [snd] in Hp. destruct Hp as (Hl1 & Hk & Hroom).
    assert (Hn : entries_ l1 !! ip = None) by (apply eq_None_not_Some; intros [e1 He1]; destruct (Hk _ _ He1) as (? & ? & _); congruence).
    pose proof (add_entry_spec now now ip handle l1 hist Hl1 (Z.le_refl _) ltac:(lia) Hn Hroom) as Hadd. cbn zeta in Hadd.
    pose proof (λ e He, count_request_spec _ now ip e _ _ [] Hadd (Z.le_refl _) Hnow He ltac:(rewrite lookup_insert_eq; done)) as Hc.
    edestruct Hc as (b & l' & -> & Hl & Em & _ & Eo & _); [cbn [with_entries entries_]; apply lookup_insert_eq |].
    do 3 eexists. split_and!; [done | | |].
    + rewrite insert_insert_eq in Hl. done.
    + rewrite Em. cbn [with_entries entries_]. rewrite !delete_insert_eq. etransitivity; [exact Hk | apply keeps_delete].
    + rewrite Eo. cbn [with_entries lru_order_]. unfold back_index. rewrite length_app, Nat.add_sub, lookup_app_r, Nat.sub_diag by lia. done.
Qed.

(** ** Sequences of requests, expiries and reconfigurations *)

Inductive event : Type :=
| Request (ip : ip_address) (now handle : Z)
| Expire (ip : ip_address)
| Reconfigure (config : PerIpRateLimiterConfig).

Definition exec (ev : event) (s : PerIpRateLimiter * gmap ip_address (list Z)) : outcome (PerIpRateLimiter * gmap ip_address (list Z)) :=
  let '(l, hist) := s in
  match ev with
  | Request ip now handle => run (b, _, l') <- allow ip now handle l; Returns (l', history l ip now b hist)
  | Expire ip => Returns (remove_entry ip l, hist)
  | Reconfigure config => Returns ((update_config config l).2, hist)
  end.

Fixpoint exec_all (evs : list event) (s : PerIpRateLimiter * gmap ip_address (list Z)) : outcome (PerIpRateLimiter * gmap ip_address (list Z)) :=
  match evs with [] => Returns s | ev :: evs => run s <- exec ev s; exec_all evs s end.

(** The fields are 32-bit unsigned. *)
Definition config_ok (config : PerIpRateLimiterConfig) : Prop :=
  in_width 32 (total_limit config) /\ in_width 32 (num_cores config) /\ in_width 32 (max_entries config).

Fixpoint events_ok (last : Z) (evs : list event) : Prop :=
  match evs with
  | [] => True
  | Request _ now _ :: evs => last <= now /\ events_ok now evs
  | Expire _ :: evs => events_ok last evs
  | Reconfigure config :: evs => config_ok config /\ events_ok last evs
  end.

Lemma core_limit_bounds config : config_ok config -> 1 <= core_limit config < 2 ^ 32.
Proof.
  intros (Ht & Hn & _). unfold core_limit, in_width in *.
  pose proof (Z.div_le_upper_bound (total_limit config) (Z.max 1 (num_cores config)) (total_limit config) ltac:(lia) ltac:(nia)). lia.
Qed.

Lemma fresh_limiter_inv last config hist : config_ok config -> limiter_inv last (make_limiter config) hist.
Proof.
  intros H. pose proof (core_limit_bounds config H). destruct H as (_ & _ & Hm). split; cbn.
  - split; [| intros ip e; rewrite lookup_empty; done]. intros ip i. rewrite lookup_nil. split; [done |]. intros (e & He & _).
    rewrite lookup_empty in He. done.
  - done.
  - done.
  - change (0 <= Z.max 1 (max_entries config)). lia.
  - intros ip e. rewrite lookup_empty. done.
Qed.

Lemma limiter_exec_inv evs last l hist : limiter_inv last l hist -> 1 <= last -> events_ok last evs ->
  exists last' l' hist', exec_all evs (l, hist) = Returns (l', hist') /\ limiter_inv last' l' hist'.
Proof.
  revert last l hist. induction evs as [| ev evs IH]; intros last l hist Hinv H1 Hok; cbn [exec_all]; [by do 3 eexists |].
  destruct ev as [ip now handle | ip | config]; cbn [exec] in *.
  - destruct Hok as [Hlast Hok]. destruct (allow_spec last now ip handle l hist) as (b & calls & l' & -> & Hl' & _); [done | lia.. |].
    cbn [outcome_bind]. eapply IH; [done | lia | done].
  - destruct (evict_entry_spec last last ip l hist Hinv (Z.le_refl _)) as (Hl' & _). cbn [outcome_bind]. eapply IH; done.
  - destruct Hok as [Hc Hok]. cbn [outcome_bind update_config snd]. eapply IH; [| done..]. apply (fresh_limiter_inv last config hist Hc).
Qed.

(** C13: whatever the sequence of requests, TTL expiries and reconfigurations, every
    operation returns, the limiter holds at most [max_entries] addresses (one if that
    is 0), the eviction order lists each address once at the index its entry
    records, and the requests an entry has admitted number at most twice the
    per-core limit in any interval of one window. *)
Theorem per_ip_limiter_safe config evs :
  config_ok config -> events_ok 1 evs ->
  exists l hist, exec_all evs (make_limiter config, ∅) = Returns (l, hist) /\
    Z.of_nat (size (entries_ l)) <= Z.max 1 (max_entries (config_ l)) /\
    order_ok (lru_order_ l) (entries_ l) /\
    forall ip e, entries_ l !! ip = Some e ->
      forall t, admitted_in t (t + window_of l) (default [] (hist !! ip)) <= 2 * per_core_limit_ l.
Proof.
  intros Hc Hok. destruct (limiter_exec_inv evs 1 (make_limiter config) ∅ (fresh_limiter_inv 1 config ∅ Hc) (Z.le_refl _) Hok) as (last & l & hist & E & Hinv).
  exists l, hist. split; [done |]. pose proof (order_size _ _ (li_order _ _ _ Hinv)) as Hs. destruct Hinv as [Ho _ _ Hsz Hcs].
  split_and!; [unfold len in *; lia | done |]. intros ip e He. apply (Hcs ip e He).
Qed.

Lemma per_ip_limiter_safe_witness :
  exists l hist, exec_all [Request [1] 5 1; Request [2] 6 2; Request [1] 7 3; Request [3] 8 4] (make_limiter (mkConfig 4 1 2 2 2), ∅) = Returns (l, hist) /\
    Z.of_nat (size (entries_ l)) <= Z.max 1 (max_entries (config_ l)).
Proof.
  destruct (per_ip_limiter_safe (mkConfig 4 1 2 2 2) [Request [1] 5 1; Request [2] 6 2; Request [1] 7 3; Request [3] 8 4]) as (l & hist & E & H & _).
  { unfold config_ok, in_width. cbn. lia. } { cbn. lia. }
  exists l, hist. split; [exact E | exact H].
Defined.

(** The vector is documented to run from the oldest to the newest address, and
    [touch_lru] does put the touched address last; but it swaps it with the last one,
    which moves that recently used address towards the front. With room for three
    addresses, after requests from 1, 2, 3 and 1 the least recently used is 2, and
    the request of a fourth address evicts 3. *)
Theorem lru_evicts_recent :
  exists l hist, exec_all [Request [1] 1 11; Request [2] 2 12; Request [3] 3 13; Request [1] 4 0] (make_limiter (mkConfig 100 60 1 3 2), ∅) = Returns (l, hist) /\
    lru_order_ l = [[3]; [2]; [1]] /\
    exists b calls l', allow [4] 5 14 l = Returns (b, calls, l') /\ calls = [CancelTimer 13; ScheduleExpiry 120000 [4]] /\
      entries_ l' !! [3] = None /\ is_Some (entries_ l' !! [2]).
Proof.
  destruct (exec_all _ _) as [[l hist] | x] eqn:E; vm_compute in E; [| discriminate E].
  injection E as <- <-. do 2 eexists. split; [reflexivity |]. split; [reflexivity |].
  destruct (allow _ _ _ _) as [[[b calls] l'] | x] eqn:E; vm_compute in E; [| discriminate E]. injection E as <- <- <-.
  do 3 eexists. split; [reflexivity |]. split; [reflexivity |]. split; [vm_compute; reflexivity | vm_compute; by eexists].
Qed.
