(* ===== verification/RedisRateLimiter.v ===== *)
(** * The Redis rate limiter and the three-layer facade

    [apex::shared::rate_limit::RedisRateLimiter] with its embedded Lua script
    (apex_shared/lib/rate_limit/include/apex/shared/rate_limit/redis_rate_limiter.hpp,
    src/redis_rate_limiter.cpp), [EndpointRateConfig] and [RateLimitFacade].

    The Redis server is outside the repository: it is the class [RedisServer], the
    commands the script calls with their documented meaning. The numbers a script
    keeps in keys are integers below 10^14 ([counter_ok]), which Lua's [tostring]
    prints in decimal with all their digits, so a key holds a [Z]; arithmetic in a
    script is double arithmetic. *)

From S2P Require Import Prelude ErrorCode Double SlidingWindow PerIpRateLimiter.
From Stdlib Require Import QArith Qround Lqa.
From stdpp Require Import pretty.

#[local] Open Scope Z_scope.

(** ** The commands the script uses *)

Class RedisServer (S : Type) : Type := {
  redis_get : string -> S -> option Z;
  redis_set : string -> Z -> S -> S;
  redis_incr : string -> S -> Z * S;
  redis_pexpire : string -> Z -> S -> S;
  get_set_eq : forall k v s, redis_get k (redis_set k v s) = Some v;
  get_set_ne : forall k k' v s, k <> k' -> redis_get k' (redis_set k v s) = redis_get k' s;
  incr_value : forall k s, (redis_incr k s).1 = default 0 (redis_get k s) + 1;
  get_incr_eq : forall k s, redis_get k (redis_incr k s).2 = Some (default 0 (redis_get k s) + 1);
  get_incr_ne : forall k k' s, k <> k' -> redis_get k' (redis_incr k s).2 = redis_get k' s;
  get_pexpire : forall k k' ms s, 0 < ms -> redis_get k' (redis_pexpire k ms s) = redis_get k' s
}.

Module Redis.

(** ** The script *)

Section Script.
Context {S : Type} `{RedisServer S}.

(** [tonumber(redis.call('GET', key) or '0')]. *)
Definition get_number (k : string) (s : S) : Z := default 0 (redis_get k s).
Definition meta_of (cur_key : string) : string := cur_key +:+ ":meta".

(** Returns the three integers of the reply. *)
Definition lua_script (cur_key prev_key : string) (limit window_ms now_ms : Z) (s : S) : (Z * Z * Z) * S :=
  let cur_count := get_number cur_key s in
  let prev_count := get_number prev_key s in
  let meta_key := meta_of cur_key in
  let window_start := get_number meta_key s in
  let '(window_start, s) :=
    if window_start =? 0 then (now_ms, redis_pexpire meta_key (window_ms * 3) (redis_set meta_key now_ms s))
    else (window_start, s) in
  let elapsed := now_ms - window_start in
  let '(cur_count, prev_count, elapsed, s) :=
    if window_ms <=? elapsed then
      let windows_passed := Qfloor (ddiv (of_int elapsed) (of_int window_ms)) in
      let '(cur_count, prev_count, window_start, s) :=
        if windows_passed =? 1 then
          let s := redis_pexpire prev_key (window_ms * 2) (redis_set prev_key cur_count s) in
          (0, prev_count, window_start + window_ms, redis_set cur_key 0 s)
        else
          let s := redis_pexpire prev_key (window_ms * 2) (redis_set prev_key 0 s) in
          (0, 0, now_ms, redis_set cur_key 0 s) in
      let s := redis_pexpire meta_key (window_ms * 3) (redis_set meta_key window_start s) in
      (cur_count, prev_count, now_ms - window_start, s)
    else (cur_count, prev_count, elapsed, s) in
  let estimate := Window.weighted elapsed window_ms prev_count cur_count in
  if dgeb estimate (of_int limit) then
    ((0, Qfloor estimate, Z.max 0 (window_ms - elapsed)), s)
  else
    let '(_, s) := redis_incr cur_key s in
    ((1, Qfloor estimate, 0), redis_pexpire cur_key (window_ms * 2) s).

End Script.

(** ** The client *)

(** [RedisReply] by its type field; other types carry nothing the code reads. *)
Inductive RedisReply : Type :=
| ReplyInteger (integer : Z)
| ReplyString (str : string)
| ReplyArray (array : list RedisReply)
| ReplyOther.

Definition is_string (r : RedisReply) : bool := match r with ReplyString _ => true | _ => false end.
Definition is_array (r : RedisReply) : bool := match r with ReplyArray _ => true | _ => false end.
(** The fields, at their defaults where the reply has another type. *)
Definition integer_field (r : RedisReply) : Z := match r with ReplyInteger i => i | _ => 0 end.
Definition str_field (r : RedisReply) : string := match r with ReplyString s => s | _ => "" end.
Definition array_field (r : RedisReply) : list RedisReply := match r with ReplyArray l => l | _ => [] end.

(** The commands sent: the script by its text or by its hash, with its keys and
    arguments (numbers, bound as decimal strings), or its registration. *)
Inductive redis_command : Type :=
| ScriptLoad
| EvalSha (sha cur prev : string) (limit window now : Z)
| EvalText (cur prev : string) (limit window now : Z).

Record RateLimitResult : Type := mkRateLimitResult { allowed : bool; estimated_count : Z; retry_after_ms : Z }.
Record RedisRateLimiterConfig : Type := mkRedisConfig { default_limit : Z; window_seconds : Z }.
Record RedisRateLimiter : Type := mkRedisLimiter { config_ : RedisRateLimiterConfig; script_sha_ : string }.

Section Client.
(** [RedisMultiplexer::command] on the state of the connection and the server. *)
Context {C : Type} (command : redis_command -> C -> Result RedisReply * C).

Definition execute_lua (l : RedisRateLimiter) (cur_key prev_key : string) (limit now_ms : Z) (s : C) : Result RateLimitResult * C :=
  let window_ms := window_seconds (config_ l) * 1000 in
  let '(result, s) := command (if decide (script_sha_ l = "") then EvalText cur_key prev_key limit window_ms now_ms
                               else EvalSha (script_sha_ l) cur_key prev_key limit window_ms now_ms) s in
  match result with
  | Err e => (Err e, s)
  | Ok r =>
      if negb (is_array r) || (len (array_field r) <? 3) then (Err AdapterError, s)
      else
        let at_ i := integer_field (default ReplyOther (array_field r !! i)) in
        (Ok (mkRateLimitResult (negb (at_ 0%nat =? 0)) (u32 (at_ 1%nat)) (u32 (at_ 2%nat))), s)
  end.

Definition user_cur_key (user_id : Z) : string := "rl:user:" +:+ pretty user_id +:+ ":cur".
Definition user_prev_key (user_id : Z) : string := "rl:user:" +:+ pretty user_id +:+ ":prev".
Definition ep_cur_key (user_id msg_id : Z) : string := "rl:ep:" +:+ pretty user_id +:+ ":" +:+ pretty msg_id +:+ ":cur".
Definition ep_prev_key (user_id msg_id : Z) : string := "rl:ep:" +:+ pretty user_id +:+ ":" +:+ pretty msg_id +:+ ":prev".

Definition check_user (l : RedisRateLimiter) (user_id now_ms : Z) (s : C) : Result RateLimitResult * C :=
  execute_lua l (user_cur_key user_id) (user_prev_key user_id) (default_limit (config_ l)) now_ms s.

Definition check_endpoint (l : RedisRateLimiter) (user_id msg_id now_ms limit_override : Z) (s : C) : Result RateLimitResult * C :=
  let limit := if 0 <? limit_override then limit_override else default_limit (config_ l) in
  execute_lua l (ep_cur_key user_id msg_id) (ep_prev_key user_id msg_id) limit now_ms s.

Definition load_script (l : RedisRateLimiter) (s : C) : Result unit * RedisRateLimiter * C :=
  let '(result, s) := command ScriptLoad s in
  match result with
  | Err e => (Err e, l, s)
  | Ok r => if negb (is_string r) then (Err AdapterError, l, s) else (Ok tt, mkRedisLimiter (config_ l) (str_field r), s)
  end.

End Client.

Definition update_config (config : RedisRateLimiterConfig) (l : RedisRateLimiter) : RedisRateLimiter := mkRedisLimiter config (script_sha_ l).

End Redis.

(** ** The facade *)

Module Facade.
Import Redis.

Record EndpointRateConfig : Type := mkEndpointConfig { default_limit : Z; window_seconds : Z; overrides : gmap Z Z }.

Definition limit_for (msg_id : Z) (c : EndpointRateConfig) : Z :=
  match overrides c !! msg_id with Some limit => limit | None => default_limit c end.

Record RateLimitFacade : Type := mkFacade {
  ip_limiter_ : PerIp.PerIpRateLimiter;
  redis_limiter_ : RedisRateLimiter;
  endpoint_config_ : EndpointRateConfig
}.

Section Client.
Context {C : Type} (command : redis_command -> C -> Result RedisReply * C).

Definition check_ip (ip : ip_address) (now handle : Z) (f : RateLimitFacade) : outcome (bool * list PerIp.timer_call * RateLimitFacade) :=
  run (b, calls, l) <- PerIp.allow ip now handle (ip_limiter_ f);
  Returns (b, calls, mkFacade l (redis_limiter_ f) (endpoint_config_ f)).

Definition facade_check_user (f : RateLimitFacade) (user_id now_ms : Z) (s : C) : Result RateLimitResult * C :=
  Redis.check_user command (redis_limiter_ f) user_id now_ms s.

Definition facade_check_endpoint (f : RateLimitFacade) (user_id msg_id now_ms : Z) (s : C) : Result RateLimitResult * C :=
  let limit := limit_for msg_id (endpoint_config_ f) in
  Redis.check_endpoint command (redis_limiter_ f) user_id msg_id now_ms limit s.

End Client.

Definition update_endpoint_config (config : EndpointRateConfig) (f : RateLimitFacade) : RateLimitFacade :=
  mkFacade (ip_limiter_ f) (redis_limiter_ f) config.

End Facade.
Import Redis.

(** ** The double quotient of times, rounded down, is the number of windows *)

Lemma windows_passed_floor w e : 0 < w <= 2 ^ 52 -> w <= e < 2 ^ 53 ->
  (Qfloor (ddiv (of_int e) (of_int w)) =? 1) = (e <? 2 * w).
Proof.
  intros Hw He. unfold ddiv. rewrite Qred_correct.
  pose proof (round64_int e ltac:(lia)) as Ee. pose proof (round64_int w ltac:(lia)) as Ew.
  fold (of_int e) in Ee. fold (of_int w) in Ew. rewrite Ee, Ew.
  assert (Hw0 : (0 < inject_Z w)%Q) by (change 0%Q with (inject_Z 0); rewrite <- Zlt_Qlt; lia).
  assert (Hge : forall z, 0 <= z < 2 ^ 53 -> z * w <= e -> z <= Qfloor (round64 (inject_Z e / inject_Z w))).
  { intros z Hz Hle. rewrite <- (Qfloor_Z z). apply Qfloor_resp_le, round64_ge; [done |].
    apply Qle_shift_div_l; [done |]. rewrite <- inject_Z_mult, <- Zle_Qle. done. }
  destruct (Z.ltb_spec e (2 * w)) as [Hlt | Hge2].
  - apply Z.eqb_eq. apply Z.le_antisymm; [| apply Hge; lia].
    set (top := (2 - (1 # 2 ^ 52))%Q). assert (Htop : (round64 top == top)%Q) by reflexivity.
    assert (Hle : (round64 (inject_Z e / inject_Z w) <= top)%Q).
    { rewrite <- Htop. apply round64_mono. apply Qle_shift_div_r; [done |].
      assert (H1 : (inject_Z e <= inject_Z (2 * w + -1))%Q) by (rewrite <- Zle_Qle; lia). rewrite inject_Z_plus, inject_Z_mult in H1.
      assert (H2 : (inject_Z w <= inject_Z (2 ^ 52))%Q) by (rewrite <- Zle_Qle; lia).
      subst top. change (inject_Z 2) with 2%Q in H1. change (inject_Z (-1)) with (-1)%Q in H1. change (inject_Z (2 ^ 52)) with 4503599627370496%Q in H2.
      change (1 # 2 ^ 52)%Q with (1 # 4503599627370496)%Q. lra. }
    apply Qfloor_resp_le in Hle. replace (Qfloor top) with 1 in Hle by reflexivity. done.
  - apply Z.eqb_neq. specialize (Hge 2 ltac:(lia) ltac:(lia)). lia.
Qed.

(** ** The script and the in-memory counter *)

Section Script.
Context {S : Type} `{RedisServer S}.

(** The three keys of a limiter hold the fields of a counter. *)
Record keys_hold (cur prev : string) (s : S) (c : Window.SlidingWindowCounter) : Prop := {
  kh_cur : get_number cur s = Window.current_count_ c;
  kh_prev : get_number prev s = Window.previous_count_ c;
  kh_start : get_number (meta_of cur) s = Window.window_start_ c
}.

Definition keys_distinct (cur prev : string) : Prop := cur <> prev /\ prev <> meta_of cur.

Lemma meta_ne cur : cur <> meta_of cur.
Proof.
  unfold meta_of. intros E. apply (f_equal String.length) in E. revert E. induction cur as [| a cur IH]; cbn; [done |]. intros E. apply IH. by injection E.
Qed.

Lemma get_number_set k k' v s : get_number k' (redis_set k v s) = if decide (k = k') then v else get_number k' s.
Proof. unfold get_number. destruct (decide (k = k')) as [<- | ?]; [rewrite get_set_eq | rewrite get_set_ne]; done. Qed.

Lemma get_number_pexpire k k' ms s : 0 < ms -> get_number k' (redis_pexpire k ms s) = get_number k' s.
Proof. intros Hm. unfold get_number. rewrite get_pexpire; done. Qed.

Lemma get_number_incr k k' s : get_number k' (redis_incr k s).2 = if decide (k = k') then get_number k s + 1 else get_number k' s.
Proof. unfold get_number. destruct (decide (k = k')) as [<- | ?]; [rewrite get_incr_eq | rewrite get_incr_ne]; done. Qed.

(** A counter the keys can hold: its fields fit their types, [tostring] prints them
    exactly, and it is not ahead of the clock. *)
Definition counter_ok (now : Z) (c : Window.SlidingWindowCounter) : Prop :=
  0 < Window.window_size_ c < 2 ^ 50 /\ 0 <= Window.window_start_ c <= now /\ now < 10 ^ 14 /\
  0 <= Window.current_count_ c < 2 ^ 32 - 1 /\ 0 <= Window.previous_count_ c < 2 ^ 32.

(** The decision the script takes once it has settled the window. *)
Lemma lua_decision cur prev c s s0 limit window now :
  keys_distinct cur prev -> keys_hold cur prev s c -> 0 < window -> 0 <= Window.current_count_ c < 2 ^ 32 - 1 ->
  let estimate := Window.weighted (now - Window.window_start_ c) window (Window.previous_count_ c) (Window.current_count_ c) in
  let '((a, _, _), s') := (if dgeb estimate (of_int limit) then ((0, Qfloor estimate, s0), s)
     else let '(_, s1) := redis_incr cur s in ((1, Qfloor estimate, 0), redis_pexpire cur (window * 2) s1)) in
  (a =? 0) = dgeb estimate (of_int limit) /\
  keys_hold cur prev s' (if dgeb estimate (of_int limit) then c
    else Window.mkCounter (Window.limit_ c) (Window.window_size_ c) (u32 (Window.current_count_ c + 1)) (Window.previous_count_ c) (Window.window_start_ c) now).
Proof.
  intros [Hd1 Hd2] [Hc Hp Hs] Hw Hcb estimate. destruct (dgeb estimate _); [done |].
  pose proof (get_number_incr cur) as Hi. destruct (redis_incr cur s) as [v s1] eqn:E. split; [done |].
  assert (Hg : forall k, get_number k s1 = if decide (cur = k) then get_number cur s + 1 else get_number k s) by (intros k; rewrite <- (Hi k s), E; done).
  split; cbn [Window.current_count_ Window.previous_count_ Window.window_start_]; rewrite get_number_pexpire, Hg by lia.
  - rewrite decide_True by done. rewrite Hc. symmetry. apply wrap_small. unfold in_width. lia.
  - rewrite decide_False by done. done.
  - rewrite decide_False by apply meta_ne. done.
Qed.

Ltac read_keys := repeat (rewrite ?get_number_pexpire by lia; rewrite ?get_number_set).

(** Outside the window that directly follows the current one, the script decides as
    [SlidingWindowCounter::allow] does, and leaves the keys at that counter's fields. *)
Lemma lua_matches_counter cur prev now c s :
  keys_distinct cur prev -> keys_hold cur prev s c -> counter_ok now c -> 0 < now ->
  (Window.window_start_ c = 0 -> Window.current_count_ c = 0 /\ Window.previous_count_ c = 0) ->
  now - Window.window_start_ c < Window.window_size_ c \/ Window.window_start_ c = 0 \/ 2 * Window.window_size_ c <= now - Window.window_start_ c ->
  let '((a, _, _), s') := lua_script cur prev (Window.limit_ c) (Window.window_size_ c) now s in
  negb (a =? 0) = (Window.allow now c).1 /\ keys_hold cur prev s' (Window.allow now c).2.
Proof.
  intros Hd Hk (Hw & Hs & Hn & Hcc & Hpc) Hnow Hfresh Hcase. pose proof Hk as [Ec Ep Es]. unfold lua_script.
  rewrite Ec, Ep, Es. unfold Window.allow, Window.advance_window. set (W := Window.window_size_ c) in *.
  pose proof (meta_ne cur) as Hm. destruct Hd as [Hd1 Hd2]. assert (Hd : keys_distinct cur prev) by done.
  assert (Hfin : forall c' s1 r, keys_hold cur prev s1 c' -> Window.limit_ c' = Window.limit_ c -> Window.window_size_ c' = W -> 0 <= Window.current_count_ c' < 2 ^ 32 - 1 ->
    let estimate := Window.weighted (now - Window.window_start_ c') W (Window.previous_count_ c') (Window.current_count_ c') in
    let '((a, _, _), s') := (if dgeb estimate (of_int (Window.limit_ c)) then ((0, Qfloor estimate, r), s1)
       else let '(_, s2) := redis_incr cur s1 in ((1, Qfloor estimate, 0), redis_pexpire cur (W * 2) s2)) in
    let r := (if dgeb (Window.weighted (now - Window.window_start_ c') (Window.window_size_ c') (Window.previous_count_ c') (Window.current_count_ c')) (of_int (Window.limit_ c')) then (false, c')
       else (true, Window.mkCounter (Window.limit_ c') (Window.window_size_ c') (u32 (Window.current_count_ c' + 1)) (Window.previous_count_ c') (Window.window_start_ c') now)) in
    negb (a =? 0) = r.1 /\ keys_hold cur prev s' r.2).
  { clear Hfresh Hcase. intros c' s1 r Hk' El Ew Hb estimate. pose proof (lua_decision cur prev c' s1 r (Window.limit_ c) W now Hd Hk' ltac:(lia) Hb) as Hdec.
    cbn zeta in Hdec. fold estimate in Hdec. rewrite El, Ew in Hdec |- *. fold estimate. destruct (if dgeb estimate _ then _ else _) as [[[a e] ra] s'].
    destruct Hdec as [Ha Hkk]. rewrite Ha. destruct (dgeb estimate _); done. }
  destruct (Z.eqb_spec (Window.window_start_ c) 0) as [E0 | E0].
  - destruct (Hfresh E0) as [F1 F2]. replace (W <=? now - now) with false by lia.
    apply (Hfin (Window.rotate_to (Window.current_count_ c) (Window.previous_count_ c) now c)); [| done.. | cbn; lia].
    split; cbn [Window.rotate_to Window.current_count_ Window.previous_count_ Window.window_start_]; read_keys;
      repeat destruct (decide _); congruence.
  - destruct (Z.ltb_spec (now - Window.window_start_ c) W) as [Hlt | Hge].
    { replace (W <=? now - Window.window_start_ c) with false by lia. apply Hfin; done. }
    assert (H2 : 2 * W <= now - Window.window_start_ c) by lia. replace (W <=? now - Window.window_start_ c) with true by lia.
    rewrite windows_passed_floor by lia. replace (now - Window.window_start_ c <? 2 * W) with false by lia.
    replace ((now - Window.window_start_ c) ÷ W =? 1) with false.
    2:{ symmetry. apply Z.eqb_neq. rewrite Z.quot_div_nonneg by lia. pose proof (Z.div_le_lower_bound (now - Window.window_start_ c) W 2 ltac:(lia) ltac:(lia)). lia. }
    apply (Hfin (Window.rotate_to 0 0 now c)); [| done.. | cbn; lia].
    split; cbn [Window.rotate_to Window.current_count_ Window.previous_count_ Window.window_start_]; read_keys;
      repeat destruct (decide _); congruence.
Qed.

(** In the window that directly follows, the keys are rotated, but the decision uses
    the count of the window before last, which the script read before rotating. *)
Lemma lua_rotation_decision cur prev now c s :
  keys_distinct cur prev -> keys_hold cur prev s c -> counter_ok now c -> 0 < Window.window_start_ c ->
  Window.window_size_ c <= now - Window.window_start_ c < 2 * Window.window_size_ c ->
  let elapsed := now - (Window.window_start_ c + Window.window_size_ c) in
  (lua_script cur prev (Window.limit_ c) (Window.window_size_ c) now s).1.1.1 =
    (if dgeb (Window.weighted elapsed (Window.window_size_ c) (Window.previous_count_ c) 0) (of_int (Window.limit_ c)) then 0 else 1) /\
  (Window.allow now c).1 = negb (dgeb (Window.weighted elapsed (Window.window_size_ c) (Window.current_count_ c) 0) (of_int (Window.limit_ c))).
Proof.
  intros Hd [Ec Ep Es] (Hw & Hs & Hn & _) Hs0 Hcase elapsed. unfold lua_script. rewrite Ec, Ep, Es.
  replace (Window.window_start_ c =? 0) with false by lia. replace (Window.window_size_ c <=? now - Window.window_start_ c) with true by lia.
  rewrite windows_passed_floor by lia. replace (now - Window.window_start_ c <? 2 * Window.window_size_ c) with true by lia. fold elapsed.
  split; [destruct (dgeb _ _); [done |]; destruct (redis_incr _ _); done |].
  unfold Window.allow, Window.advance_window. replace (Window.window_start_ c =? 0) with false by lia.
  replace (now - Window.window_start_ c <? Window.window_size_ c) with false by lia.
  replace ((now - Window.window_start_ c) ÷ Window.window_size_ c =? 1) with true.
  2:{ symmetry. apply Z.eqb_eq. rewrite Z.quot_div_nonneg by lia. symmetry. apply (Z.div_unique_pos _ _ 1 (now - Window.window_start_ c - Window.window_size_ c)); lia. }
  cbn [Window.rotate_to Window.limit_ Window.window_size_ Window.current_count_ Window.previous_count_ Window.window_start_]. fold elapsed.
  destruct (dgeb _ _); done.
Qed.

(** The keys after that: the rotated counter, with the request counted if admitted. *)
Lemma lua_rotation_keys cur prev now c s :
  keys_distinct cur prev -> keys_hold cur prev s c -> counter_ok now c -> 0 < Window.window_start_ c ->
  Window.window_size_ c <= now - Window.window_start_ c < 2 * Window.window_size_ c ->
  let '((a, _, _), s') := lua_script cur prev (Window.limit_ c) (Window.window_size_ c) now s in
  keys_hold cur prev s' (Window.rotate_to (if a =? 0 then 0 else 1) (Window.current_count_ c) (Window.window_start_ c + Window.window_size_ c) c).
Proof.
  intros [Hd1 Hd2] [Ec Ep Es] (Hw & Hs & Hn & _) Hs0 Hcase. unfold lua_script. rewrite Ec, Ep, Es. pose proof (meta_ne cur) as Hm.
  replace (Window.window_start_ c =? 0) with false by lia. replace (Window.window_size_ c <=? now - Window.window_start_ c) with true by lia.
  rewrite windows_passed_floor by lia. replace (now - Window.window_start_ c <? 2 * Window.window_size_ c) with true by lia.
  destruct (dgeb _ _).
  - split; cbn [Z.eqb Window.rotate_to Window.current_count_ Window.previous_count_ Window.window_start_]; read_keys; repeat destruct (decide _); congruence.
  - set (s1 := redis_pexpire (meta_of cur) _ _). pose proof (get_number_incr cur) as Hi. destruct (redis_incr cur s1) as [v s2] eqn:E.
    assert (Hg : forall k, get_number k s2 = if decide (cur = k) then get_number cur s1 + 1 else get_number k s1) by (intros k; rewrite <- (Hi k s1), E; done).
    split; cbn [Z.eqb Window.rotate_to Window.current_count_ Window.previous_count_ Window.window_start_]; rewrite get_number_pexpire, Hg by lia; unfold s1; read_keys;
      repeat destruct (decide _); congruence || lia.
Qed.

End Script.

(** ** A server that keeps its keys in a map *)

#[export] Instance map_server : RedisServer (gmap string Z).
Proof.
  refine {| redis_get := λ k s, s !! k; redis_set := λ k v s, <[k := v]> s;
            redis_incr := λ k s, (default 0 (s !! k) + 1, <[k := default 0 (s !! k) + 1]> s);
            redis_pexpire := λ _ _ s, s |}; intros; cbn [fst snd]; rewrite ?lookup_insert_eq, ?lookup_insert_ne by done; done.
Defined.

(** What [EVAL] and [EVALSHA] promise: the script runs on the server's state, and
    its table of three integers comes back as an array of integers. *)
Definition runs_script {S} `{RedisServer S} (command : redis_command -> S -> Result RedisReply * S) (sha : string) : Prop :=
  forall cur prev limit window now s,
    let '((a, e, r), s') := lua_script cur prev limit window now s in
    command (if decide (sha = "") then EvalText cur prev limit window now else EvalSha sha cur prev limit window now) s =
      (Ok (ReplyArray [ReplyInteger a; ReplyInteger e; ReplyInteger r]), s').

Definition map_command (c : redis_command) (s : gmap string Z) : Result RedisReply * gmap string Z :=
  let reply '((a, e, r), s') := (Ok (ReplyArray [ReplyInteger a; ReplyInteger e; ReplyInteger r]), s') in
  match c with
  | ScriptLoad => (Ok (ReplyString "sha"), s)
  | EvalSha _ cur prev limit window now | EvalText cur prev limit window now => reply (lua_script cur prev limit window now s)
  end.

Lemma map_command_runs sha : runs_script map_command sha.
Proof. intros cur prev limit window now s. destruct (lua_script _ _ _ _ _ s) as [[[a e] r] s'] eqn:E. destruct (decide _); cbn; rewrite E; done. Qed.

Lemma append_assoc (a b c : string) : a +:+ (b +:+ c) = (a +:+ b) +:+ c.
Proof. induction a as [| x a IH]; [done |]. exact (f_equal (String x) IH). Qed.

Lemma ep_keys_distinct user_id msg_id : keys_distinct (ep_cur_key user_id msg_id) (ep_prev_key user_id msg_id).
Proof.
  unfold keys_distinct, ep_cur_key, ep_prev_key, meta_of.
  rewrite <- !append_assoc. split; intros E; repeat apply (inj (String.append _)) in E; discriminate E.
Qed.

Lemma execute_lua_reply {S} `{RedisServer S} command l cur prev limit now s :
  runs_script command (script_sha_ l) ->
  let '((a, e, r), s') := lua_script cur prev limit (window_seconds (Redis.config_ l) * 1000) now s in
  execute_lua command l cur prev limit now s = (Ok (mkRateLimitResult (negb (a =? 0)) (u32 e) (u32 r)), s').
Proof.
  intros Hr. specialize (Hr cur prev limit (window_seconds (Redis.config_ l) * 1000) now s). unfold execute_lua.
  destruct (lua_script _ _ _ _ _ s) as [[[a e] r] s']. rewrite Hr. done.
Qed.

(** The window right after the current one, in which the script goes on with the count
    that it read before it rotated its keys. *)
Definition next_window (now : Z) (c : Window.SlidingWindowCounter) : bool :=
  (0 <? Window.window_start_ c) && (Window.window_size_ c <=? now - Window.window_start_ c) && (now - Window.window_start_ c <? 2 * Window.window_size_ c).



(** ** The first request after a window ends *)

Fixpoint lua_calls (nows : list Z) (limit window : Z) (s : gmap string Z) : list bool :=
  match nows with
  | [] => []
  | now :: nows => let '((a, _, _), s) := lua_script (user_cur_key 7) (user_prev_key 7) limit window now s in negb (a =? 0) :: lua_calls nows limit window s
  end.

(** The script rotates its keys and then weighs the count it had read before
    rotating. A user who has spent a limit of 3 is admitted once more as soon as the
    window turns, where [SlidingWindowCounter] still weighs the full previous window
    and refuses. *)
Theorem lua_rotation_stale :
  lua_calls [1000; 1001; 1002; 1003; 61000; 61001] 3 60000 ∅ = [true; true; true; false; true; false] /\
  (Window.run_calls [1000; 1001; 1002; 1003; 61000; 61001] (Window.make_counter 3 60000)).1.*2 = [true; true; true; false; false; true].
Proof. split; vm_compute; reflexivity. Qed.
