(* ===== verification/CircuitBreaker.v ===== *)
(** * The circuit breaker and the cancellation token of the adapters

    [apex::shared::adapters::CircuitBreaker]
    (apex_shared/lib/adapters/common/src/circuit_breaker.cpp and the template [call]
    of circuit_breaker.hpp) and [CancellationToken].

    A breaker belongs to one core, and the coroutines of several calls interleave
    at the [co_await] in [call]: a call is its beginning ([should_allow]) and, if
    admitted, its end ([on_success], [on_failure], or neither when the awaited
    coroutine throws). The readings of [steady_clock] are arguments, in nanoseconds. *)

From S2P Require Import Prelude ErrorCode.

Module Breaker.

Record CircuitBreakerConfig : Type := mkConfig { failure_threshold : Z; open_duration : Z; half_open_max_calls : Z }.

Inductive CircuitState : Type := CLOSED | OPEN | HALF_OPEN.

Record CircuitBreaker : Type := mkBreaker {
  config_ : CircuitBreakerConfig;
  state_ : CircuitState;
  failure_count_ : Z;
  half_open_calls_ : Z;
  half_open_successes_ : Z;
  open_since_ : Z
}.

Definition make_breaker (config : CircuitBreakerConfig) : CircuitBreaker := mkBreaker config CLOSED 0 0 0 0.

Definition reset (b : CircuitBreaker) : CircuitBreaker := mkBreaker (config_ b) CLOSED 0 0 0 (open_since_ b).

(** [config_.open_duration] is in milliseconds. *)
Definition should_allow (now : Z) (b : CircuitBreaker) : bool * CircuitBreaker :=
  match state_ b with
  | CLOSED => (true, b)
  | OPEN =>
      let elapsed := now - open_since_ b in
      if open_duration (config_ b) * 10 ^ 6 <=? elapsed then
        (true, mkBreaker (config_ b) HALF_OPEN (failure_count_ b) 1 0 (open_since_ b))
      else (false, b)
  | HALF_OPEN =>
      if half_open_max_calls (config_ b) <=? half_open_calls_ b then (false, b)
      else (true, mkBreaker (config_ b) HALF_OPEN (failure_count_ b) (u32 (half_open_calls_ b + 1)) (half_open_successes_ b) (open_since_ b))
  end.

Definition on_success (b : CircuitBreaker) : CircuitBreaker :=
  match state_ b with
  | HALF_OPEN =>
      let successes := u32 (half_open_successes_ b + 1) in
      if half_open_max_calls (config_ b) <=? successes then
        mkBreaker (config_ b) CLOSED 0 (half_open_calls_ b) 0 (open_since_ b)
      else mkBreaker (config_ b) HALF_OPEN (failure_count_ b) (half_open_calls_ b) successes (open_since_ b)
  | CLOSED => mkBreaker (config_ b) CLOSED 0 (half_open_calls_ b) (half_open_successes_ b) (open_since_ b)
  | OPEN => b
  end.

Definition on_failure (now : Z) (b : CircuitBreaker) : CircuitBreaker :=
  match state_ b with
  | CLOSED =>
      let failures := u32 (failure_count_ b + 1) in
      if failure_threshold (config_ b) <=? failures then
        mkBreaker (config_ b) OPEN failures (half_open_calls_ b) (half_open_successes_ b) now
      else mkBreaker (config_ b) CLOSED failures (half_open_calls_ b) (half_open_successes_ b) (open_since_ b)
  | HALF_OPEN => mkBreaker (config_ b) OPEN (failure_count_ b) (half_open_calls_ b) (half_open_successes_ b) now
  | OPEN => b
  end.

(** The end of an admitted call, once [fn] has given its result. *)
Definition finish {A} (fn : outcome (Result A)) (now : Z) (b : CircuitBreaker) : outcome (Result A) * CircuitBreaker :=
  match fn with
  | Returns (Ok a) => (Returns (Ok a), on_success b)
  | Returns (Err e) => (Returns (Err e), on_failure now b)
  | Throws x => (Throws x, b)
  end.

(** A call that no other call interleaves with; the boolean says whether [fn] ran. *)
Definition call {A} (fn : outcome (Result A)) (start stop : Z) (b : CircuitBreaker) : outcome (Result A) * bool * CircuitBreaker :=
  let '(allowed, b) := should_allow start b in
  if allowed then let '(r, b) := finish fn stop b in (r, true, b) else (Returns (Err CircuitOpen), false, b).

End Breaker.
Import Breaker.

(** ** Interleaved calls *)

Inductive event : Type :=
| Begin (now : Z)
| End_ (fn : outcome (Result unit)) (now : Z).

(** The breaker, the calls that wait for their function, and the number of calls
    admitted since the breaker last became half open. *)
Record breaker_run : Type := mkRun { breaker : CircuitBreaker; in_flight : Z; probes : Z }.

Definition exec (ev : event) (r : breaker_run) : option breaker_run :=
  match ev with
  | Begin now =>
      let '(allowed, b) := should_allow now (breaker r) in
      let probes' := match state_ (breaker r) with HALF_OPEN => probes r + (if allowed then 1 else 0) | _ => 1 end in
      Some (mkRun b (in_flight r + if allowed : bool then 1 else 0) probes')
  | End_ fn now =>
      if 0 <? in_flight r then Some (mkRun (finish fn now (breaker r)).2 (in_flight r - 1) (probes r)) else None
  end.

Fixpoint exec_all (evs : list event) (r : breaker_run) : option breaker_run :=
  match evs with [] => Some r | ev :: evs => exec ev r ≫= exec_all evs end.

Record breaker_inv (config : CircuitBreakerConfig) (r : breaker_run) : Prop := {
  bi_config : config_ (breaker r) = config;
  bi_flight : 0 <= in_flight r;
  bi_closed : state_ (breaker r) = CLOSED -> 0 <= failure_count_ (breaker r) < Z.max 1 (failure_threshold config);
  bi_probes : state_ (breaker r) = HALF_OPEN -> half_open_calls_ (breaker r) = probes r /\ 1 <= probes r <= Z.max 1 (half_open_max_calls config);
  bi_successes : state_ (breaker r) = HALF_OPEN -> 0 <= half_open_successes_ (breaker r) < Z.max 1 (half_open_max_calls config)
}.

(** The fields of the configuration are 32-bit unsigned. *)
Definition config_ok (config : CircuitBreakerConfig) : Prop :=
  in_width 32 (failure_threshold config) /\ in_width 32 (half_open_max_calls config).

Lemma u32_succ n m : 0 <= n < Z.max 1 m -> m < 2 ^ 32 -> u32 (n + 1) = n + 1.
Proof. intros. apply wrap_small. unfold in_width. lia. Qed.

Lemma finish_inv config r (fn : outcome (Result unit)) now : config_ok config -> breaker_inv config r -> 0 < in_flight r ->
  breaker_inv config (mkRun (finish fn now (breaker r)).2 (in_flight r - 1) (probes r)).
Proof.
  intros [Hft Hmc] [Hc Hf Hcl Hp Hs] Hpos. unfold in_width in *.
  assert (Hb : breaker_inv config (mkRun (breaker r) (in_flight r - 1) (probes r))) by (split; cbn; auto; lia).
  destruct fn as [[u | e] | x]; cbn [finish snd]; [| | exact Hb].
  - unfold on_success. destruct (state_ (breaker r)) eqn:E; [| exact Hb |].
    + split; cbn; (done || lia).
    + specialize (Hs eq_refl). rewrite (u32_succ _ (half_open_max_calls config)), Hc by lia.
      destruct (Z.leb_spec (half_open_max_calls config) (half_open_successes_ (breaker r) + 1)); split; cbn; intros; try done; try lia. auto.
  - unfold on_failure. destruct (state_ (breaker r)) eqn:E; [| exact Hb |].
    + specialize (Hcl eq_refl). rewrite (u32_succ _ (failure_threshold config)), Hc by lia.
      destruct (Z.leb_spec (failure_threshold config) (failure_count_ (breaker r) + 1)); split; cbn; intros; try done; lia.
    + split; cbn; intros; try done; lia.
Qed.

Lemma begin_inv config r now r' : config_ok config -> breaker_inv config r -> exec (Begin now) r = Some r' -> breaker_inv config r'.
Proof.
  intros [Hft Hmc] [Hc Hf Hcl Hp Hs] H. unfold in_width in *. cbn [exec] in H. unfold should_allow in H. rewrite Hc in H.
  destruct (state_ (breaker r)) eqn:E.
  - injection H as <-. split; cbn; rewrite ?E; intros; try done; try lia. auto.
  - destruct (_ <=? _); injection H as <-; split; cbn; rewrite ?E; intros; try done; lia.
  - specialize (Hp eq_refl) as [Hp1 Hp2]. specialize (Hs eq_refl).
    destruct (Z.leb_spec (half_open_max_calls config) (half_open_calls_ (breaker r))) as [Hge | Hlt]; injection H as <-;
      split; cbn; rewrite ?E; intros; try done; try lia.
    rewrite (u32_succ _ (half_open_max_calls config)) by lia. lia.
Qed.

Lemma breaker_exec_inv config evs r r' : config_ok config -> breaker_inv config r -> exec_all evs r = Some r' -> breaker_inv config r'.
Proof.
  intros Hok. revert r. induction evs as [| ev evs IH]; intros r Hinv H; [by injection H as <- |].
  cbn [exec_all] in H. destruct (exec ev r) as [r1 |] eqn:E; [| done]. cbn in H. apply (IH r1); [| done].
  destruct ev as [now | fn now]; [eapply begin_inv; done |].
  cbn [exec] in E. destruct (Z.ltb_spec 0 (in_flight r)); [| done]. injection E as <-. by apply finish_inv.
Qed.

(** However the calls interleave, a closed breaker has counted fewer than
    [failure_threshold] failures since the last success, and while it is half open it
    has admitted at most [half_open_max_calls] probes (one if that is 0) and needs
    more successes to close. *)
Theorem breaker_probe_bound config evs r :
  config_ok config -> exec_all evs (mkRun (make_breaker config) 0 0) = Some r ->
  (state_ (breaker r) = CLOSED -> failure_count_ (breaker r) < Z.max 1 (failure_threshold config)) /\
  (state_ (breaker r) = HALF_OPEN -> 1 <= probes r <= Z.max 1 (half_open_max_calls config) /\
     half_open_successes_ (breaker r) < Z.max 1 (half_open_max_calls config)).
Proof.
  intros Hok H. apply (breaker_exec_inv config) in H; [| done | split; cbn; (done || lia)].
  destruct H as [_ _ Hcl Hp Hs]. split; [intros E; specialize (Hcl E); lia |].
  intros E. specialize (Hp E) as [_ Hp]. specialize (Hs E). lia.
Qed.

Lemma breaker_probe_bound_witness :
  exists r, exec_all [Begin 0; End_ (Returns (Err Timeout)) 5; Begin 10000005; Begin 10000006; Begin 10000007]
              (mkRun (make_breaker (mkConfig 1 10 2)) 0 0) = Some r /\
    state_ (breaker r) = HALF_OPEN /\ probes r <= Z.max 1 2.
Proof.
  destruct (exec_all _ _) as [r |] eqn:E; [| discriminate E].
  pose proof (breaker_probe_bound (mkConfig 1 10 2) _ r ltac:(unfold config_ok, in_width; cbn; lia) E) as [_ H].
  vm_compute in E. injection E as <-. eexists. split; [reflexivity |]. split; [reflexivity |]. apply (H eq_refl).
Defined.

(** ** Trips and recovers *)

Fixpoint calls {A} (fns : list (outcome (Result A) * Z)) (b : CircuitBreaker) : CircuitBreaker :=
  match fns with [] => b | (fn, now) :: fns => calls fns (call fn now now b).2 end.

(** Calls that fail with the given errors at the given times. *)
Definition failures {A} (errs : list ErrorCode) (times : list Z) : list (outcome (Result A) * Z) :=
  zip ((λ e, Returns (Err e)) <$> errs) times.

Lemma failing_call {A} e now b : state_ b = CLOSED -> 0 <= failure_count_ b -> failure_count_ b + 1 < 2 ^ 32 ->
  call (A := A) (Returns (Err e)) now now b =
    (Returns (Err e), true,
     mkBreaker (config_ b) (if failure_threshold (config_ b) <=? failure_count_ b + 1 then OPEN else CLOSED) (failure_count_ b + 1)
       (half_open_calls_ b) (half_open_successes_ b) (if failure_threshold (config_ b) <=? failure_count_ b + 1 then now else open_since_ b)).
Proof.
  intros E H0 H. unfold call, should_allow. rewrite E. cbn [finish]. unfold on_failure. rewrite E.
  assert (Hu : u32 (failure_count_ b + 1) = failure_count_ b + 1) by (apply wrap_small; unfold in_width; lia). rewrite Hu.
  destruct (_ <=? _); done.
Qed.

Lemma failures_below {A} (times : list Z) (errs : list ErrorCode) b :
  state_ b = CLOSED -> 0 <= failure_count_ b -> length errs = length times ->
  failure_count_ b + len times < failure_threshold (config_ b) -> failure_threshold (config_ b) < 2 ^ 32 ->
  calls (A := A) (failures errs times) b =
    mkBreaker (config_ b) CLOSED (failure_count_ b + len times) (half_open_calls_ b) (half_open_successes_ b) (open_since_ b).
Proof.
  revert errs b. induction times as [| t times IH]; intros [| e errs] b E H0 Hl Hn Ht; try done; unfold len in *; cbn [length] in *.
  - cbn [failures fmap list_fmap zip zip_with calls]. cbn. rewrite Z.add_0_r. destruct b; cbn in E; subst; done.
  - unfold failures. cbn [fmap list_fmap zip zip_with calls]. fold (failures (A := A) errs times). rewrite failing_call by (done || lia). cbn [snd].
    destruct (Z.leb_spec (failure_threshold (config_ b)) (failure_count_ b + 1)); [lia |].
    rewrite IH; cbn; try done; try lia. f_equal; lia.
Qed.

Lemma probe_successes {A} (a : A) (times : list Z) b :
  state_ b = HALF_OPEN -> half_open_calls_ b = half_open_successes_ b -> 0 <= half_open_successes_ b ->
  half_open_successes_ b + len times = half_open_max_calls (config_ b) -> half_open_max_calls (config_ b) < 2 ^ 32 -> times <> [] ->
  state_ (calls ((λ t, (Returns (Ok a), t)) <$> times) b) = CLOSED /\ failure_count_ (calls ((λ t, (Returns (Ok a), t)) <$> times) b) = 0.
Proof.
  revert b. induction times as [| t times IH]; intros b E Hc H0 Hn Hm Hne; [done |]. unfold len in *. cbn [length] in *.
  cbn [fmap list_fmap calls]. unfold call, should_allow. rewrite E.
  replace (half_open_max_calls (config_ b) <=? half_open_calls_ b) with false by lia. cbn [finish snd]. unfold on_success.
  cbn [state_ half_open_successes_ config_ failure_count_ half_open_calls_ open_since_].
  rewrite (u32_succ (half_open_successes_ b) (half_open_max_calls (config_ b))) by lia.
  rewrite (u32_succ (half_open_calls_ b) (half_open_max_calls (config_ b))) by lia.
  destruct (Z.leb_spec (half_open_max_calls (config_ b)) (half_open_successes_ b + 1)).
  - assert (times = []) as -> by (destruct times; [done | cbn [length] in *; lia]). done.
  - apply IH; cbn; try done; try lia. intros ->. cbn [length] in *. lia.
Qed.

(** A closed breaker with no failures counted admits every call until the
    [failure_threshold]-th consecutive one fails and then opens; while it is open, a
    call before [open_duration] has passed returns [CircuitOpen] and its function is
    not run; once the duration has passed, [half_open_max_calls] successful calls
    close it again with no failures counted. *)
Theorem breaker_trips_and_recovers {A} config errs times e_last t_last early (a : A) t_probe probes_ :
  config_ok config -> length errs = length times -> len times + 1 = failure_threshold config ->
  let tripped := (call (A := A) (Returns (Err e_last)) t_last t_last (calls (A := A) (failures errs times) (make_breaker config))).2 in
  state_ (calls (A := A) (failures errs times) (make_breaker config)) = CLOSED /\
  state_ tripped = OPEN /\
  (early < t_last + open_duration config * 10 ^ 6 -> forall fn : outcome (Result A), call fn early early tripped = (Returns (Err CircuitOpen), false, tripped)) /\
  (t_last + open_duration config * 10 ^ 6 <= t_probe -> len probes_ + 1 = half_open_max_calls config ->
     let recovered := calls ((λ t, (Returns (Ok a), t)) <$> (t_probe :: probes_)) tripped in
     state_ recovered = CLOSED /\ failure_count_ recovered = 0).
Proof.
  intros [Hft Hmc] Hl Hn tripped. unfold in_width in *.
  assert (Hf : calls (A := A) (failures errs times) (make_breaker config) = mkBreaker config CLOSED (0 + len times) 0 0 0)
    by (apply (failures_below times errs (make_breaker config)); cbn; done || lia).
  rewrite Hf. assert (Et : tripped = mkBreaker config OPEN (0 + len times + 1) 0 0 t_last).
  { subst tripped. rewrite Hf, failing_call by (first [done | cbn [failure_count_]; unfold len in *; lia]).
    cbn [snd config_ failure_count_ half_open_calls_ half_open_successes_ open_since_ state_].
    replace (failure_threshold config <=? 0 + len times + 1) with true by lia. done. }
  clearbody tripped. split_and!; [done | by rewrite Et | |].
  - intros He fn. unfold call, should_allow. subst tripped. cbn [state_ config_ open_since_].
    replace (open_duration config * 10 ^ 6 <=? early - t_last) with false by lia. done.
  - intros Hp Hm. cbn [fmap list_fmap calls]. unfold call, should_allow. subst tripped. cbn [state_ config_ open_since_].
    replace (open_duration config * 10 ^ 6 <=? t_probe - t_last) with true by lia. cbn [finish snd]. unfold on_success.
    cbn [state_ half_open_successes_ config_ failure_count_ half_open_calls_ open_since_]. change (u32 (0 + 1)) with 1.
    destruct (Z.leb_spec (half_open_max_calls config) 1).
    + assert (probes_ = []) as -> by (destruct probes_; [done | unfold len in *; cbn [length] in *; lia]). done.
    + apply probe_successes; cbn; try done; try lia. intros ->. change (len (@nil Z)) with 0 in Hm. lia.
Qed.

Lemma breaker_trips_and_recovers_witness :
  let tripped := (call (A := unit) (Returns (Err Timeout)) 9 9 (calls (A := unit) (failures [Timeout] [5]) (make_breaker (mkConfig 2 1 1)))).2 in
  state_ tripped = OPEN /\ state_ (calls [(Returns (Ok tt), 2000000)] tripped) = CLOSED.
Proof.
  destruct (breaker_trips_and_recovers (mkConfig 2 1 1) [Timeout] [5] Timeout 9 100 tt 2000000 []) as (_ & H1 & _ & H2).
  - unfold config_ok, in_width. cbn. lia.
  - reflexivity.
  - reflexivity.
  - split; [exact H1 |]. apply H2; cbn; [lia | reflexivity].
Defined.

(** ** A probe that throws *)

(** A probe whose function throws is counted as admitted but neither as a success
    nor as a failure. Once the probes are spent, no call in flight and too few
    successes counted, the breaker stays half open and refuses every later call,
    whatever the time; a breaker with one probe reaches this after one exception. *)
Theorem breaker_probe_exception_sticks :
  (forall b now, state_ b = HALF_OPEN -> half_open_max_calls (config_ b) <= half_open_calls_ b ->
     forall fn : outcome (Result unit), call fn now now b = (Returns (Err CircuitOpen), false, b)) /\
  let b := calls (A := unit) [(Returns (Err Timeout), 5); (Throws bad_alloc, 10000005)] (make_breaker (mkConfig 1 10 1)) in
  state_ b = HALF_OPEN /\ half_open_max_calls (config_ b) <= half_open_calls_ b.
Proof.
  split; [| vm_compute; split; [done | discriminate]].
  intros b now E H fn. unfold call, should_allow. rewrite E. replace (_ <=? _) with true by lia. done.
Qed.

(** ** Cancellation tokens *)

Module Cancellation.

(** The slots by the signals emitted to them; a signal is terminal cancellation. *)
Record CancellationToken : Type := mkToken { slots_ : list Z; outstanding_ : Z }.

Definition make_token : CancellationToken := mkToken [] 0.
Definition new_slot (t : CancellationToken) : nat * CancellationToken := (length (slots_ t), mkToken (slots_ t ++ [0]) (u32 (outstanding_ t + 1))).
Definition cancel_all (t : CancellationToken) : CancellationToken := mkToken ((λ n, n + 1) <$> slots_ t) (outstanding_ t).
Definition on_complete (t : CancellationToken) : CancellationToken := mkToken (slots_ t) (u32 (outstanding_ t - 1)).
Definition outstanding (t : CancellationToken) : Z := outstanding_ t.

End Cancellation.
