(* ===== verification/AdapterBase.v ===== *)
(** * The life cycle of an adapter

    [apex::shared::adapters::AdapterBase]
    (apex_shared/lib/adapters/common/include/apex/shared/adapters/adapter_base.hpp),
    which the Redis, PostgreSQL and Kafka adapters extend: a state, one cancellation
    token for each core, and coroutines that run on the cores until they end or are
    cancelled.

    The adapter is started and closed by the main thread while the cores run their
    queues of handlers and other threads start coroutines, so an operation is cut at
    its accesses to the state and to a queue: [spawn_adapter_coro] between its test of
    the state and its [post], [drain] and [close] after their stores. A coroutine is
    known by the slot of the token that cancels it; what it does between its start and
    its end is left open. *)

From S2P Require Import Prelude ErrorCode CircuitBreaker.
Import Cancellation.

Module Adapter.

Inductive AdapterState : Type := CLOSED | RUNNING | DRAINING.
#[global] Instance AdapterState_eq_dec : EqDecision AdapterState.
Proof. solve_decision. Defined.

(** The handlers an adapter posts to a core. *)
Inductive handler : Type := SpawnCoro | CancelAll | ClosePerCore.
#[global] Instance handler_eq_dec : EqDecision handler.
Proof. solve_decision. Defined.

(** Where the main thread is: in [init] during [do_init], in [drain] after the store,
    in [close] after the store, or in the loop of [close]. *)
Inductive main_thread : Type := Elsewhere | InInit | InDrain | InClose | Waiting.

(** A core: its queue, the coroutines of the adapter that have started and not ended,
    and how often [do_close_per_core] has run. *)
Record core : Type := mkIo { queue : list handler; live : list nat; cleaned : nat }.

Record AdapterBase : Type := mkAdapter {
  state_ : AdapterState;
  close_timeout_ : Z;
  tokens_ : list CancellationToken;
  ios : list core;
  spawning : list nat; (** threads between the test and the [post], by the core *)
  main : main_thread;
  remaining : Z;
  deadline : option Z; (** of the loop of [close], once it is entered *)
  closed : nat; (** calls of [do_close] *)
  now : Z;
}.

Definition make_adapter (core_count close_timeout : Z) : AdapterBase :=
  mkAdapter CLOSED close_timeout [] (replicate (Z.to_nat core_count) (mkIo [] [] 0)) [] Elsewhere 0 None 0 0.

Definition with_state (x : AdapterState) (a : AdapterBase) : AdapterBase :=
  mkAdapter x (close_timeout_ a) (tokens_ a) (ios a) (spawning a) (main a) (remaining a) (deadline a) (closed a) (now a).
Definition with_tokens (x : list CancellationToken) (a : AdapterBase) : AdapterBase :=
  mkAdapter (state_ a) (close_timeout_ a) x (ios a) (spawning a) (main a) (remaining a) (deadline a) (closed a) (now a).
Definition with_ios (x : list core) (a : AdapterBase) : AdapterBase :=
  mkAdapter (state_ a) (close_timeout_ a) (tokens_ a) x (spawning a) (main a) (remaining a) (deadline a) (closed a) (now a).
Definition with_spawning (x : list nat) (a : AdapterBase) : AdapterBase :=
  mkAdapter (state_ a) (close_timeout_ a) (tokens_ a) (ios a) x (main a) (remaining a) (deadline a) (closed a) (now a).
Definition with_main (x : main_thread) (a : AdapterBase) : AdapterBase :=
  mkAdapter (state_ a) (close_timeout_ a) (tokens_ a) (ios a) (spawning a) x (remaining a) (deadline a) (closed a) (now a).
Definition with_remaining (x : Z) (a : AdapterBase) : AdapterBase :=
  mkAdapter (state_ a) (close_timeout_ a) (tokens_ a) (ios a) (spawning a) (main a) x (deadline a) (closed a) (now a).

Definition push (h : handler) (c : core) : core := mkIo (queue c ++ [h]) (live c) (cleaned c).

(** [boost::asio::post] to the core [i]. *)
Definition post (i : nat) (h : handler) (a : AdapterBase) : AdapterBase := with_ios (alter (push h) i (ios a)) a.

(** [init] up to [do_init]. *)
Definition init_begin (a : AdapterBase) : AdapterBase :=
  with_main InInit (with_state RUNNING (with_tokens (tokens_ a ++ replicate (length (ios a)) make_token) a)).
(** [init] after [do_init], which returned or threw. *)
Definition init_end (returned : bool) (a : AdapterBase) : AdapterBase :=
  with_main Elsewhere (if returned then a else with_tokens [] (with_state CLOSED a)).

(** [spawn_adapter_coro]: the test, then the [post]. *)
Definition spawn_test (i : nat) (a : AdapterBase) : AdapterBase :=
  if decide (state_ a = RUNNING) then with_spawning (spawning a ++ [i]) a else a.
Definition spawn_post (k : nat) (a : AdapterBase) : option AdapterBase :=
  match spawning a !! k with
  | Some i => Some (post i SpawnCoro (with_spawning (take k (spawning a) ++ drop (S k) (spawning a)) a))
  | None => None
  end.

(** The handlers, run by the core [i]; an index beyond the tokens is undefined. *)
Definition run_handler (i : nat) (h : handler) (a : AdapterBase) : outcome AdapterBase :=
  match h, tokens_ a !! i with
  | SpawnCoro, Some t =>
      let '(slot, t) := new_slot t in
      Returns (with_tokens (<[i := t]> (tokens_ a)) (with_ios (alter (λ c, mkIo (queue c) (live c ++ [slot]) (cleaned c)) i (ios a)) a))
  | CancelAll, Some t => Returns (with_tokens (<[i := cancel_all t]> (tokens_ a)) a)
  | ClosePerCore, _ => Returns (with_remaining (u32 (remaining a - 1)) (with_ios (alter (λ c, mkIo (queue c) (live c) (S (cleaned c))) i (ios a)) a))
  | _, None => Throws undefined_behaviour
  end.

(** The end of the [k]th coroutine of the core [i]. *)
Definition finish (i k : nat) (a : AdapterBase) : option (outcome AdapterBase) :=
  match ios a !! i with
  | Some c =>
      match live c !! k, tokens_ a !! i with
      | Some _, Some t =>
          Some (Returns (with_tokens (<[i := on_complete t]> (tokens_ a))
                  (with_ios (<[i := mkIo (queue c) (take k (live c) ++ drop (S k) (live c)) (cleaned c)]> (ios a)) a)))
      | Some _, None => Some (Throws undefined_behaviour)
      | None, _ => None
      end
  | None => None
  end.

(** [drain]: the store and [do_drain], then [cancel_all_coros]. *)
Definition drain_begin (a : AdapterBase) : AdapterBase := with_main InDrain (with_state DRAINING a).
Definition cancel_all_coros (a : AdapterBase) : AdapterBase :=
  with_main Elsewhere (with_ios (imap (λ i c, if decide (i < length (tokens_ a))%nat then push CancelAll c else c) (ios a)) a).

(** [close]: the store; the posts; one turn of the loop. Without tokens, before [init],
    there are no contexts to post to. *)
Definition close_begin (a : AdapterBase) : AdapterBase := with_main InClose (with_state CLOSED a).
Definition do_close (a : AdapterBase) : AdapterBase :=
  mkAdapter (state_ a) (close_timeout_ a) (tokens_ a) (ios a) (spawning a) Elsewhere (remaining a) (deadline a) (S (closed a)) (now a).
Definition close_post (a : AdapterBase) : AdapterBase :=
  match tokens_ a with
  | [] => do_close a
  | _ :: _ =>
      mkAdapter (state_ a) (close_timeout_ a) (tokens_ a) (push ClosePerCore <$> ios a) (spawning a) Waiting (u32 (len (ios a)))
        (Some (now a + close_timeout_ a)) (closed a) (now a)
  end.
Definition close_check (a : AdapterBase) : AdapterBase :=
  if (0 <? remaining a) && (now a <=? default 0 (deadline a)) then a else do_close a.

Definition is_ready (a : AdapterBase) : bool := bool_decide (state_ a = RUNNING).
Definition outstanding_adapter_coros (a : AdapterBase) : Z := foldl (λ total t, u32 (total + outstanding t)) 0 (tokens_ a).

(** ** Schedules *)

Inductive event : Type :=
| InitBegin
| InitEnd (returned : bool)
| SpawnTest (i : nat)
| SpawnPost (k : nat)
| Run (i : nat)
| Finish (i k : nat)
| DrainBegin
| DrainCancel
| CloseBegin
| ClosePost
| CloseCheck
| Tick (d : Z).

(** [None] if the event cannot happen. The server calls [init] once, unless it fails,
    and [close] once. *)
Definition exec (e : event) (a : AdapterBase) : option (outcome AdapterBase) :=
  match e with
  | InitBegin =>
      match main a with
      | Elsewhere =>
          if decide (state_ a = RUNNING) then Some (Returns a)
          else match tokens_ a, closed a with [], O => Some (Returns (init_begin a)) | _, _ => None end
      | _ => None
      end
  | InitEnd returned => match main a with InInit => Some (Returns (init_end returned a)) | _ => None end
  | SpawnTest i => if decide (i < length (ios a))%nat then Some (Returns (spawn_test i a)) else None
  | SpawnPost k => Returns <$> spawn_post k a
  | Run i =>
      match ios a !! i with
      | Some (mkIo (h :: q) l c) => Some (run_handler i h (with_ios (<[i := mkIo q l c]> (ios a)) a))
      | _ => None
      end
  | Finish i k => finish i k a
  | DrainBegin => match main a with Elsewhere => Some (Returns (drain_begin a)) | _ => None end
  | DrainCancel => match main a with InDrain => Some (Returns (cancel_all_coros a)) | _ => None end
  | CloseBegin => match main a, closed a with Elsewhere, O => Some (Returns (close_begin a)) | _, _ => None end
  | ClosePost => match main a with InClose => Some (Returns (close_post a)) | _ => None end
  | CloseCheck => match main a with Waiting => Some (Returns (close_check a)) | _ => None end
  | Tick d => Some (Returns (mkAdapter (state_ a) (close_timeout_ a) (tokens_ a) (ios a) (spawning a) (main a) (remaining a) (deadline a) (closed a) (now a + Z.max 0 d)))
  end.

Fixpoint exec_all (es : list event) (a : AdapterBase) : option (outcome AdapterBase) :=
  match es with
  | [] => Some (Returns a)
  | e :: es =>
      match exec e a with
      | Some (Returns a) => exec_all es a
      | Some (Throws x) => Some (Throws x)
      | None => None
      end
  end.

End Adapter.
Import Adapter.

Ltac adapter_simpl := cbn [state_ close_timeout_ tokens_ ios spawning main remaining deadline closed now queue live cleaned push
  with_state with_tokens with_ios with_spawning with_main with_remaining slots_ outstanding_] in *.

(** ** The books of an adapter are right *)

Definition queued (h : handler) (c : core) : nat := length (filter (λ x, x = h) (queue c)).

Definition core_ok (t : CancellationToken) (c : core) : Prop :=
  outstanding_ t = Z.of_nat (length (live c)) /\ Forall (λ k, k < length (slots_ t))%nat (live c) /\ Forall (λ x, 0 <= x) (slots_ t).

(** Coroutines that have passed the test and not started. *)
Definition pending (a : AdapterBase) : nat := (length (spawning a) + sum_list_with (queued SpawnCoro) (ios a))%nat.
Definition running (a : AdapterBase) : nat := sum_list_with (λ c, length (live c)) (ios a).

Definition closing_ok (a : AdapterBase) : Prop :=
  match deadline a with
  | None => Forall (λ c, queued ClosePerCore c = O /\ cleaned c = O) (ios a) /\ main a <> Waiting /\ (closed a = O \/ tokens_ a = [])
  | Some d => Forall (λ c, queued ClosePerCore c + cleaned c = 1)%nat (ios a) /\ remaining a = Z.of_nat (sum_list_with (queued ClosePerCore) (ios a)) /\
      (main a = Waiting /\ closed a = O \/ (main a <> InClose /\ main a <> Waiting) /\ closed a = 1%nat /\ (sum_list_with (queued ClosePerCore) (ios a) = O \/ d < now a))
  end.

Record adapter_ok (n k : nat) (a : AdapterBase) : Prop := {
  ao_len : length (ios a) = n;
  ao_init : tokens_ a = [] /\ state_ a <> RUNNING /\ spawning a = [] /\ Forall (λ c, queue c = [] /\ live c = []) (ios a) \/ Forall2 core_ok (tokens_ a) (ios a);
  ao_spawning : Forall (λ i, i < n)%nat (spawning a);
  ao_count : (pending a + running a <= k)%nat;
  ao_closing : closing_ok a;
  ao_once : (closed a <= 1)%nat /\ (main a = InClose -> deadline a = None /\ closed a = O);
}.

Lemma sum_insert {A} (f : A -> nat) (l : list A) (i : nat) x y : l !! i = Some x -> (sum_list_with f (<[i := y]> l) + f x = sum_list_with f l + f y)%nat.
Proof.
  revert i. induction l as [| z l IH]; intros [| i]; [done | done | |]; intros E; cbn in E.
  - injection E as ->. cbn. lia.
  - change (<[S i := y]> (z :: l)) with (z :: <[i := y]> l). cbn [sum_list_with]. specialize (IH i E). lia.
Qed.

Lemma sum_elem {A} (f : A -> nat) l x : x ∈ l -> (f x <= sum_list_with f l)%nat.
Proof. induction l as [| y l IH]; [by intros ?%elem_of_nil |]. intros [-> | Hx]%elem_of_cons; cbn [sum_list_with]; [lia |]. specialize (IH Hx). lia. Qed.

Lemma alter_insert {A} (f : A -> A) (i : nat) (l : list A) x : l !! i = Some x -> alter f i l = <[i := f x]> l.
Proof. intros E. apply list_eq. intros j. destruct (decide (i = j)) as [<- | Hne]; [rewrite list_lookup_alter_eq, E, list_lookup_insert_eq; [done | by eapply lookup_lt_Some] | by rewrite list_lookup_alter_ne, list_lookup_insert_ne]. Qed.

Lemma queued_push h h' c : queued h (push h' c) = (queued h c + if decide (h' = h) then 1 else 0)%nat.
Proof. unfold queued. cbn. rewrite filter_app, length_app, filter_cons, filter_nil. by destruct (decide (h' = h)). Qed.

Lemma queued_pop h h' q l x : queued h (mkIo (h' :: q) l x) = ((if decide (h' = h) then 1 else 0) + queued h (mkIo q l x))%nat.
Proof. unfold queued. cbn [queue]. rewrite filter_cons. by destruct (decide (h' = h)). Qed.

Lemma length_remove {A} (l : list A) k x : l !! k = Some x -> S (length (take k l ++ drop (S k) l)) = length l.
Proof. intros E. pose proof (lookup_lt_Some _ _ _ E). rewrite length_app, length_take, length_drop. lia. Qed.

Lemma Forall_remove {A} (P : A -> Prop) l k : Forall P l -> Forall P (take k l ++ drop (S k) l).
Proof. intros H. apply Forall_app. split; [by apply Forall_take | by apply Forall_drop]. Qed.

(** A core with tokens. *)
Lemma core_token n k a i c : adapter_ok n k a -> ios a !! i = Some c -> (queue c <> [] \/ live c <> [] \/ i ∈ spawning a) ->
  exists t, tokens_ a !! i = Some t /\ core_ok t c /\ Forall2 core_ok (tokens_ a) (ios a).
Proof.
  intros Hok Hi Hbusy. destruct (ao_init _ _ _ Hok) as [(_ & _ & Hs & Hf) | H2].
  - exfalso. destruct (Forall_lookup_1 _ _ _ _ Hf Hi) as [Hq Hl]. rewrite Hs in Hbusy. destruct Hbusy as [? | [? | ?%elem_of_nil]]; done.
  - destruct (Forall2_lookup_r _ _ _ _ _ H2 Hi) as (t & Ht & Hc). by exists t.
Qed.

(** ** Each step keeps them *)

(** A change of one core that leaves its queued cleanup alone. *)
Lemma closing_core a a' i c c' : closing_ok a -> ios a !! i = Some c -> ios a' = <[i := c']> (ios a) -> deadline a' = deadline a -> main a' = main a ->
  closed a' = closed a -> remaining a' = remaining a -> now a' = now a -> (tokens_ a = [] -> tokens_ a' = []) ->
  queued ClosePerCore c' = queued ClosePerCore c -> cleaned c' = cleaned c -> closing_ok a'.
Proof.
  intros Hc Hi E1 E2 E3 E4 E5 E6 E7 Eq Ec. unfold closing_ok in *. rewrite E1, E2, E3, E4, E5, E6. pose proof (sum_insert (queued ClosePerCore) (ios a) i c c' Hi) as Hsum.
  replace (sum_list_with _ (<[i := c']> (ios a))) with (sum_list_with (queued ClosePerCore) (ios a)) by lia. destruct (deadline a).
  - destruct Hc as (Hf & Hrest). split; [| done]. apply Forall_insert; [done |]. rewrite Eq, Ec. by apply (Forall_lookup_1 _ _ _ _ Hf Hi).
  - destruct Hc as (Hf & Hm & Ht). split_and!; [| done | intuition]. apply Forall_insert; [done |]. rewrite Eq, Ec. by apply (Forall_lookup_1 _ _ _ _ Hf Hi).
Qed.

Lemma spawn_post_ok n k a j a' : adapter_ok n k a -> spawn_post j a = Some a' -> adapter_ok n k a'.
Proof.
  intros Hok. unfold spawn_post. destruct (spawning a !! j) as [i |] eqn:Ej; [| done]. intros [= <-].
  pose proof (Forall_lookup_1 _ _ _ _ (ao_spawning _ _ _ Hok) Ej) as Hi. cbn in Hi. rewrite <- (ao_len _ _ _ Hok) in Hi. destruct (lookup_lt_is_Some_2 _ _ Hi) as [c Hc].
  destruct (core_token n k a i c Hok Hc) as (t & Ht & Hct & H2); [right; right; by eapply list_elem_of_lookup_2 |].
  unfold post. adapter_simpl. rewrite (alter_insert _ _ _ _ Hc). split; adapter_simpl.
  - rewrite length_insert. apply Hok.
  - right. rewrite <- (list_insert_id (tokens_ a) i t) by done. by apply Forall2_insert.
  - apply Forall_remove, Hok.
  - pose proof (ao_count _ _ _ Hok) as Hk. unfold pending, running in *. adapter_simpl. pose proof (length_remove _ _ _ Ej).
    pose proof (sum_insert (queued SpawnCoro) (ios a) i c (push SpawnCoro c) Hc) as H3. rewrite queued_push, decide_True in H3 by done.
    pose proof (sum_insert (λ c, length (live c)) (ios a) i c (push SpawnCoro c) Hc) as H4. cbn [push live] in H4. lia.
  - apply (closing_core a _ i c (push SpawnCoro c)); try done; [apply Hok |]. rewrite queued_push. by rewrite decide_False by done.
  - apply Hok.
Qed.

Lemma finish_step n k a i j o : Z.of_nat k < 2 ^ 32 -> adapter_ok n k a -> finish i j a = Some o -> exists a', o = Returns a' /\ adapter_ok n k a'.
Proof.
  intros Hb Hok. unfold finish. destruct (ios a !! i) as [c |] eqn:Hc; [| done]. destruct (live c !! j) as [slot |] eqn:Hj; [| done].
  destruct (core_token n k a i c Hok Hc) as (t & Ht & Hct & H2); [right; left; by intros E; rewrite E in Hj |]. rewrite Ht. intros [= <-]. eexists. split; [done |].
  destruct Hct as (Ho & Hf & H0). pose proof (length_remove _ _ _ Hj) as Hlen. set (c' := mkIo _ _ _).
  assert (Hk : (length (live c) <= k)%nat).
  { pose proof (ao_count _ _ _ Hok). unfold running in *. pose proof (sum_elem (λ c, length (live c)) (ios a) c ltac:(by eapply list_elem_of_lookup_2)) as Hs. cbn in Hs. lia. }
  split; adapter_simpl.
  - rewrite length_insert. apply Hok.
  - right. apply Forall2_insert; [done |]. split; [| split; [by apply Forall_remove | done]]. subst c'. cbn [outstanding_ on_complete live]. rewrite Ho.
    rewrite wrap_small; [lia |]. split; [lia |]. lia.
  - apply Hok.
  - pose proof (ao_count _ _ _ Hok) as Hkk. unfold pending, running in *. adapter_simpl.
    pose proof (sum_insert (queued SpawnCoro) (ios a) i c c' Hc) as H3. pose proof (sum_insert (λ c, length (live c)) (ios a) i c c' Hc) as H4.
    subst c'. change (queued SpawnCoro (mkIo (queue c) _ _)) with (queued SpawnCoro c) in H3. cbn [live] in H4. lia.
  - apply (closing_core a _ i c c'); try done; [apply Hok | by adapter_simpl; intros ->].
  - apply Hok.
Qed.

Lemma sum_le_length {A} (f : A -> nat) l : Forall (λ x, f x <= 1)%nat l -> (sum_list_with f l <= length l)%nat.
Proof. induction 1 as [| x l Hx _ IH]; cbn [sum_list_with length]; lia. Qed.

Section RunStep.
Context (n k : nat) (a : AdapterBase) (i : nat) (q : list handler) (l : list nat) (x : nat) (Hb : Z.of_nat k < 2 ^ 32) (Hn : Z.of_nat n < 2 ^ 32) (Hok : adapter_ok n k a).

Lemma run_spawn t : ios a !! i = Some (mkIo (SpawnCoro :: q) l x) -> tokens_ a !! i = Some t -> core_ok t (mkIo (SpawnCoro :: q) l x) -> Forall2 core_ok (tokens_ a) (ios a) ->
  adapter_ok n k (with_tokens (<[i := (new_slot t).2]> (tokens_ a)) (with_ios (<[i := mkIo q (l ++ [(new_slot t).1]) x]> (ios a)) a)).
Proof.
  intros Hc Ht (Ho & Hf & H0) H2. set (c' := mkIo q (l ++ [(new_slot t).1]) x). cbn [live] in Ho, Hf.
  pose proof (ao_count _ _ _ Hok) as Hk. unfold pending, running in Hk.
  pose proof (sum_insert (queued SpawnCoro) (ios a) i _ c' Hc) as S1. pose proof (sum_insert (λ c, length (live c)) (ios a) i _ c' Hc) as S2.
  rewrite queued_pop, decide_True in S1 by done. change (queued SpawnCoro c') with (queued SpawnCoro (mkIo q l x)) in S1. cbn [live c'] in S2. rewrite length_app in S2. cbn [length] in S2.
  pose proof (sum_elem (λ c, length (live c)) (ios a) _ ltac:(by eapply list_elem_of_lookup_2)) as S3. pose proof (sum_elem (queued SpawnCoro) (ios a) _ ltac:(by eapply list_elem_of_lookup_2)) as S4.
  cbn [live] in S3. rewrite queued_pop, decide_True in S4 by done. split; adapter_simpl.
  - rewrite length_insert. apply Hok.
  - right. apply Forall2_insert; [done |]. split; [| split]; cbn [new_slot snd fst outstanding_ slots_ live c'].
    + rewrite length_app, Ho. cbn [length]. rewrite wrap_small by (split; lia). lia.
    + rewrite length_app. cbn [length]. apply Forall_app. split; [| constructor; [lia | done]]. eapply Forall_impl; [exact Hf |]. cbn. lia.
    + apply Forall_app. split; [done |]. by constructor.
  - apply Hok.
  - unfold pending, running. adapter_simpl. lia.
  - eapply (closing_core a _ i _ c'); try done; [apply Hok | by adapter_simpl; intros ->].
  - apply Hok.
Qed.

Lemma run_cancel t : ios a !! i = Some (mkIo (CancelAll :: q) l x) -> tokens_ a !! i = Some t -> core_ok t (mkIo (CancelAll :: q) l x) -> Forall2 core_ok (tokens_ a) (ios a) ->
  adapter_ok n k (with_tokens (<[i := cancel_all t]> (tokens_ a)) (with_ios (<[i := mkIo q l x]> (ios a)) a)).
Proof.
  intros Hc Ht (Ho & Hf & H0) H2. pose proof (ao_count _ _ _ Hok) as Hk. unfold pending, running in Hk.
  pose proof (sum_insert (queued SpawnCoro) (ios a) i _ (mkIo q l x) Hc) as S1. pose proof (sum_insert (λ c, length (live c)) (ios a) i _ (mkIo q l x) Hc) as S2.
  rewrite queued_pop, decide_False in S1 by done. cbn [live] in S2. split; adapter_simpl.
  - rewrite length_insert. apply Hok.
  - right. apply Forall2_insert; [done |]. split; [done |]. cbn [slots_ cancel_all]. rewrite length_fmap. split; [done |]. apply Forall_fmap. eapply Forall_impl; [exact H0 |]. cbn. lia.
  - apply Hok.
  - unfold pending, running. adapter_simpl. lia.
  - eapply (closing_core a _ i _ (mkIo q l x)); try done; [apply Hok | by adapter_simpl; intros ->].
  - apply Hok.
Qed.

Lemma run_close t : ios a !! i = Some (mkIo (ClosePerCore :: q) l x) -> tokens_ a !! i = Some t -> core_ok t (mkIo (ClosePerCore :: q) l x) -> Forall2 core_ok (tokens_ a) (ios a) ->
  adapter_ok n k (with_remaining (u32 (remaining a - 1)) (with_ios (<[i := mkIo q l (S x)]> (ios a)) a)).
Proof.
  intros Hc Ht (Ho & Hf & H0) H2. set (c' := mkIo q l (S x)). pose proof (ao_count _ _ _ Hok) as Hk. unfold pending, running in Hk.
  pose proof (sum_insert (queued SpawnCoro) (ios a) i _ c' Hc) as S1. pose proof (sum_insert (λ c, length (live c)) (ios a) i _ c' Hc) as S2.
  pose proof (sum_insert (queued ClosePerCore) (ios a) i _ c' Hc) as S3. rewrite queued_pop, decide_False in S1 by done. rewrite queued_pop, decide_True in S3 by done. cbn [live c'] in S2.
  change (queued SpawnCoro c') with (queued SpawnCoro (mkIo q l x)) in S1. change (queued ClosePerCore c') with (queued ClosePerCore (mkIo q l x)) in S3.
  split; adapter_simpl.
  - rewrite length_insert. apply Hok.
  - right. rewrite <- (list_insert_id (tokens_ a) i t) by done. by apply Forall2_insert.
  - apply Hok.
  - unfold pending, running. adapter_simpl. lia.
  - pose proof (ao_closing _ _ _ Hok) as Hcl. unfold closing_ok in *. adapter_simpl. destruct (deadline a) as [d |].
    + destruct Hcl as (Hfc & Hrem & Hrest). pose proof (Forall_lookup_1 _ _ _ _ Hfc Hc) as H1. cbn [cleaned] in H1. rewrite queued_pop, decide_True in H1 by done.
      assert (Hsum : (sum_list_with (queued ClosePerCore) (ios a) <= n)%nat) by (rewrite <- (ao_len _ _ _ Hok); apply sum_le_length; eapply Forall_impl; [exact Hfc |]; cbn; lia).
      split_and!; [apply Forall_insert; [done |]; change (queued ClosePerCore c') with (queued ClosePerCore (mkIo q l x)); cbn [c' cleaned]; lia | |].
      * rewrite Hrem. rewrite wrap_small; [lia |]. split; lia.
      * destruct Hrest as [? | ([? ?] & ? & [? | ?])]; [by left | right; split_and!; [done.. | left; lia] | right; split_and!; [done.. | by right]].
    + exfalso. destruct Hcl as (Hfc & _). destruct (Forall_lookup_1 _ _ _ _ Hfc Hc) as [H1 _]. rewrite queued_pop, decide_True in H1 by done. lia.
  - apply Hok.
Qed.

Lemma run_step h : ios a !! i = Some (mkIo (h :: q) l x) ->
  exists a', run_handler i h (with_ios (<[i := mkIo q l x]> (ios a)) a) = Returns a' /\ adapter_ok n k a'.
Proof.
  intros Hc. destruct (core_token n k a i _ Hok Hc) as (t & Ht & Hct & H2); [by left |]. pose proof (lookup_lt_Some _ _ _ Hc) as Hlt.
  assert (Hget : <[i := mkIo q l x]> (ios a) !! i = Some (mkIo q l x)) by (by apply list_lookup_insert_eq).
  unfold run_handler. adapter_simpl. rewrite Ht. destruct h; (eexists; split; [done |]).
  - rewrite (alter_insert _ _ _ _ Hget), list_insert_insert_eq. by apply (run_spawn t).
  - by apply (run_cancel t).
  - rewrite (alter_insert _ _ _ _ Hget), list_insert_insert_eq. by apply (run_close t).
Qed.

End RunStep.

Lemma sum_imap {A} (f : A -> nat) (g : nat -> A -> A) l : (forall i x, f (g i x) = f x) -> sum_list_with f (imap g l) = sum_list_with f l.
Proof. revert g. induction l as [| x l IH]; intros g Hg; [done |]. cbn [imap sum_list_with]. rewrite Hg. f_equal. apply (IH (g ∘ S)). intros i y. apply Hg. Qed.

Lemma sum_fmap {A B} (f : B -> nat) (g : A -> B) l : sum_list_with f (g <$> l) = sum_list_with (f ∘ g) l.
Proof. induction l as [| x l IH]; [done |]. cbn. by rewrite IH. Qed.

Lemma sum_S {A} (f g : A -> nat) l : (forall x, f x = S (g x)) -> sum_list_with f l = (length l + sum_list_with g l)%nat.
Proof. intros E. induction l as [| x l IH]; [done |]. cbn [sum_list_with length]. rewrite E, IH. lia. Qed.

Lemma sum_ext {A} (f g : A -> nat) l : (forall x, f x = g x) -> sum_list_with f l = sum_list_with g l.
Proof. intros E. induction l as [| x l IH]; [done |]. cbn [sum_list_with]. by rewrite E, IH. Qed.

Lemma Forall_imap_2 {A} (P Q : A -> Prop) (g : nat -> A -> A) l : (forall i x, P x -> Q (g i x)) -> Forall P l -> Forall Q (imap g l).
Proof. intros HPQ H. rewrite Forall_lookup in *. intros i y. rewrite list_lookup_imap. destruct (l !! i) as [x |] eqn:E; [| done]. intros [= <-]. eauto. Qed.

Section Steps.
Context (n k : nat) (a : AdapterBase) (Hn : Z.of_nat n < 2 ^ 32) (Hok : adapter_ok n k a).

Lemma more_ok k' : (k <= k')%nat -> adapter_ok n k' a.
Proof. intros Hk. destruct Hok. split; try done. lia. Qed.

(** Only the main thread moves, not in [close]. *)
Lemma main_ok x m : m <> Waiting -> m <> InClose -> main a <> Waiting -> (x = RUNNING -> state_ a = RUNNING) -> adapter_ok n k (with_main m (with_state x a)).
Proof.
  intros H1 H2 H3 H4. destruct Hok as [Hl Hi Hs Hc Hcl Ho]. split; adapter_simpl; try done.
  - destruct Hi as [(? & ? & ? & ?) | ?]; [left; split_and!; [done | by intros ?%H4 | done..] | by right].
  - unfold closing_ok in *. adapter_simpl. destruct (deadline a); intuition.
  - intuition.
Qed.

Lemma init_begin_ok : main a = Elsewhere -> state_ a <> RUNNING -> tokens_ a = [] -> closed a = O -> adapter_ok n k (init_begin a).
Proof.
  intros Hm Hst Ht Hc0. destruct Hok as [Hl Hi Hs Hc Hcl Ho]. unfold init_begin. rewrite Ht. split; adapter_simpl; try done.
  - right. rewrite Ht in Hi. destruct Hi as [(_ & _ & _ & Hf) | H0%Forall2_nil_inv_l]; [| by rewrite H0]. cbn [app]. clear -Hf. induction Hf as [| c l [_ Hlive] _ IH]; [done |].
    cbn. constructor; [| done]. split; [| split]; rewrite ?Hlive; by try constructor.
  - unfold closing_ok in *. adapter_simpl. destruct (deadline a) as [d |]; [| split_and!; [by apply Hcl | done | by left]].
    exfalso. destruct Hcl as (_ & _ & [[? _] | (_ & ? & _)]); congruence.
  - split; [apply Ho | done].
Qed.

Lemma spawn_test_ok i : (i < n)%nat -> adapter_ok n (S k) (spawn_test i a).
Proof.
  intros Hi. unfold spawn_test. destruct (decide _) as [Hst |]; [| apply more_ok; lia]. destruct Hok as [Hl Hin Hs Hc Hcl Ho]. split; adapter_simpl; try done.
  - right. by destruct Hin as [(_ & ? & _) |].
  - apply Forall_app. split; [done |]. by constructor.
  - unfold pending, running in *. adapter_simpl. rewrite length_app. cbn [length]. lia.
Qed.

Lemma drain_cancel_ok : main a = InDrain -> adapter_ok n k (cancel_all_coros a).
Proof.
  intros Hm. destruct Hok as [Hl Hi Hs Hc Hcl Ho]. unfold cancel_all_coros. set (g := λ i c, _).
  assert (Hg : forall h i c, h <> CancelAll -> queued h (g i c) = queued h c) by (intros h i c Hh; unfold g; destruct (decide _); [| done]; rewrite queued_push, decide_False; [lia | congruence]).
  assert (Hlive : forall i c, live (g i c) = live c /\ cleaned (g i c) = cleaned c) by (intros i c; unfold g; by destruct (decide _)).
  split; adapter_simpl; [by rewrite length_imap | | done | | | by destruct Ho].
  - destruct Hi as [(Ht & ? & ? & Hf) | H2]; [left; split_and!; [done.. |] | right].
    + eapply Forall_imap_2; [| exact Hf]. intros i c Hc'. unfold g. by rewrite Ht, decide_False by (cbn; lia).
    + apply Forall2_same_length_lookup_2; [rewrite length_imap; by eapply Forall2_length |]. intros i t c Ht. rewrite list_lookup_imap.
      destruct (ios a !! i) as [c0 |] eqn:E; [| done]. intros [= <-]. destruct (Forall2_lookup_lr _ _ _ _ _ _ H2 Ht E). unfold core_ok. destruct (Hlive i c0) as [-> _]. done.
  - unfold pending, running in *. adapter_simpl. rewrite !sum_imap; [done | intros i c; by rewrite (proj1 (Hlive i c)) | intros i c; by apply Hg].
  - unfold closing_ok in *. adapter_simpl. rewrite sum_imap by (intros i c; by apply Hg). destruct (deadline a).
    + destruct Hcl as (Hf & Hr & Hrest). split_and!; [| done |].
      * eapply Forall_imap_2; [| exact Hf]. intros i c Hc'. by rewrite Hg, (proj2 (Hlive i c)).
      * destruct Hrest as [[? _] | Hrest]; [congruence | right; by intuition].
    + destruct Hcl as (Hf & _ & Hc0). split_and!; [| done | done]. eapply Forall_imap_2; [| exact Hf]. intros i c Hc'. by rewrite Hg, (proj2 (Hlive i c)).
Qed.

Lemma close_begin_ok : main a = Elsewhere -> closed a = O -> adapter_ok n k (close_begin a).
Proof.
  intros Hm Hc0. destruct Hok as [Hl Hi Hs Hc Hcl Ho]. unfold close_begin.
  assert (Hd : deadline a = None) by (unfold closing_ok in Hcl; destruct (deadline a); [| done]; destruct Hcl as (_ & _ & [[? _] | (_ & ? & _)]); congruence).
  split; adapter_simpl; try done.
  - destruct Hi as [(? & ? & ? & ?) | ?]; [by left | by right].
  - unfold closing_ok in *. adapter_simpl. rewrite Hd in *. split_and!; [apply Hcl | done | by left].
  - by destruct Ho.
Qed.

Lemma close_post_ok : main a = InClose -> adapter_ok n k (close_post a).
Proof.
  intros Hm. destruct Hok as [Hl Hi Hs Hc Hcl Ho]. destruct (proj2 Ho Hm) as [Hd Hc0]. unfold close_post, closing_ok in *. rewrite Hd in Hcl. destruct Hcl as (Hf & _ & _).
  destruct (tokens_ a) as [| t ts] eqn:Et.
  - unfold do_close. split; adapter_simpl; try done.
    + by rewrite Et.
    + unfold closing_ok. adapter_simpl. rewrite Hd. split_and!; [done | done | by right].
    + split; [lia | done].
  - assert (Hq : forall h c, queued h (push ClosePerCore c) = (queued h c + if decide (ClosePerCore = h) then 1 else 0)%nat) by (intros; apply queued_push).
    split; adapter_simpl; [by rewrite length_fmap | right | done | | | by destruct Ho].
    + destruct Hi as [(? & _) | H2]; [done |]. rewrite <- Et in *. by apply Forall2_fmap_r.
    + unfold pending, running in *. adapter_simpl. rewrite !sum_fmap. erewrite sum_ext; [| intros c; unfold compose; rewrite Hq, decide_False by done; by rewrite Nat.add_0_r]. done.
    + unfold closing_ok. adapter_simpl. split_and!; [| | left; split; [done | lia]].
      * apply Forall_fmap. eapply Forall_impl; [exact Hf |]. intros c [H1 H2]. cbn [compose]. rewrite Hq, decide_True by done. cbn [cleaned push]. lia.
      * rewrite sum_fmap. erewrite (sum_S _ (queued ClosePerCore)); [| intros c; unfold compose; rewrite Hq, decide_True by done; lia].
        assert (H0 : sum_list_with (queued ClosePerCore) (ios a) = O) by (clear -Hf; induction Hf as [| c l [Hc _] _ IH]; [done |]; cbn [sum_list_with]; by rewrite Hc, IH).
        rewrite H0, Nat.add_0_r. unfold len. rewrite wrap_small; [done |]. rewrite Hl. split; lia.
Qed.

Lemma close_check_ok : main a = Waiting -> adapter_ok n k (close_check a).
Proof.
  intros Hm. unfold close_check. destruct ((_ <? _) && _) eqn:E; [done |]. destruct Hok as [Hl Hi Hs Hc Hcl Ho]. unfold do_close. split; adapter_simpl; try done.
  - unfold closing_ok in *. adapter_simpl. destruct (deadline a) as [d |]; [| intuition]. destruct Hcl as (Hf & Hr & Hrest). cbn in E. split_and!; [done | done | right].
    destruct Hrest as [[_ ->] | ([_ ?] & _)]; [| done]. split_and!; [done.. |].
    apply andb_false_iff in E as [E%Z.ltb_ge | E%Z.leb_gt]; [left; lia | by right].
  - split; [| done]. unfold closing_ok in Hcl. destruct (deadline a); [| intuition]. destruct Hcl as (_ & _ & [[_ ->] | ([_ ?] & _)]); [lia | done].
Qed.

End Steps.

Lemma exec_ok n k e a o : Z.of_nat n < 2 ^ 32 -> Z.of_nat k < 2 ^ 32 -> adapter_ok n k a -> e <> InitEnd false -> exec e a = Some o ->
  exists a', o = Returns a' /\ adapter_ok n (if decide (state_ a = RUNNING) then S k else k) a'.
Proof.
  intros Hn Hk Hok He Ex. assert (Hmore : forall a', adapter_ok n k a' -> adapter_ok n (if decide (state_ a = RUNNING) then S k else k) a') by (intros a' H; apply (more_ok n k a' H); destruct (decide _); lia).
  destruct e as [| r | i | j | i | i j | | | | | | d]; cbn [exec] in Ex.
  - destruct (main a) eqn:Em; try done. destruct (decide _); [injection Ex as <-; exists a; auto |]. destruct (tokens_ a) eqn:Et, (closed a) eqn:Ec; try done. injection Ex as <-.
    eexists. split; [done |]. by apply Hmore, init_begin_ok.
  - destruct (main a) eqn:Em; try done. injection Ex as <-. destruct r; [| done]. eexists. split; [done |]. apply Hmore. unfold init_end.
    replace (with_main Elsewhere a) with (with_main Elsewhere (with_state (state_ a) a)) by done. apply main_ok; try done. congruence.
  - destruct (decide _) as [Hi |]; [| done]. injection Ex as <-. eexists. split; [done |]. destruct (decide (state_ a = RUNNING)) as [Hr | Hr].
    + apply spawn_test_ok; [done |]. by rewrite <- (ao_len _ _ _ Hok).
    + unfold spawn_test. by rewrite decide_False by done.
  - destruct (spawn_post j a) as [a' |] eqn:E; [| done]. injection Ex as <-. exists a'. split; [done |]. by apply Hmore, (spawn_post_ok n k a j).
  - destruct (ios a !! i) as [[[| h q] l x] |] eqn:Ei; try done. injection Ex as <-. destruct (run_step n k a i q l x Hk Hn Hok h Ei) as (a' & -> & Ha). exists a'. auto.
  - destruct (finish_step n k a i j o Hk Hok Ex) as (a' & -> & Ha). exists a'. auto.
  - destruct (main a) eqn:Em; try done. injection Ex as <-. eexists. split; [done |]. apply Hmore, main_ok; try done. congruence.
  - destruct (main a) eqn:Em; try done. injection Ex as <-. eexists. split; [done |]. by apply Hmore, drain_cancel_ok.
  - destruct (main a) eqn:Em, (closed a) eqn:Ec; try done. injection Ex as <-. eexists. split; [done |]. by apply Hmore, close_begin_ok.
  - destruct (main a) eqn:Em; try done. injection Ex as <-. eexists. split; [done |]. by apply Hmore, close_post_ok.
  - destruct (main a) eqn:Em; try done. injection Ex as <-. eexists. split; [done |]. by apply Hmore, close_check_ok.
  - injection Ex as <-. eexists. split; [done |]. apply Hmore. destruct Hok as [Hl Hi Hs Hc Hcl Ho]. split; adapter_simpl; try done.
    unfold closing_ok in *. adapter_simpl. destruct (deadline a) as [d' |]; [| done]. destruct Hcl as (? & ? & [? | (? & ? & [? | ?])]); split_and!; try done; [by left | right | right].
    + split_and!; try apply H1; [done | by left].
    + split_and!; try apply H1; [done | right; lia].
Qed.

(** ** Draining *)

Definition signalled (t : CancellationToken) (c : core) : Prop := Forall (λ s, exists x, slots_ t !! s = Some x /\ 0 < x) (live c).

(** After the cancellation is posted to a core: it has been done, or the coroutines
    yet to start on that core will start before it. *)
Definition covered (t : CancellationToken) (c : core) : Prop :=
  (SpawnCoro ∉ queue c) /\ signalled t c \/ exists q1 q2, queue c = q1 ++ CancelAll :: q2 /\ SpawnCoro ∉ q2.

Definition drained (a : AdapterBase) : Prop :=
  state_ a <> RUNNING /\ spawning a = [] /\ tokens_ a <> [] /\
  (main a = InDrain \/ forall i c t, ios a !! i = Some c -> tokens_ a !! i = Some t -> covered t c).

Lemma covered_push t c h : h <> SpawnCoro -> covered t c -> covered t (push h c).
Proof.
  intros Hh [[Hq Hs] | (q1 & q2 & E & Hq)]; [left; split; [| done] | right; exists q1, (q2 ++ [h])]; cbn [queue push].
  - rewrite elem_of_app, list_elem_of_singleton. naive_solver.
  - rewrite E, <- app_assoc. split; [done |]. rewrite elem_of_app, list_elem_of_singleton. naive_solver.
Qed.

Lemma cancel_signals t c c' : core_ok t c -> live c' = live c -> signalled (cancel_all t) c'.
Proof.
  intros (_ & Hf & H0) El. unfold signalled. rewrite El. eapply Forall_impl; [exact Hf |]. intros s Hs. destruct (lookup_lt_is_Some_2 _ _ Hs) as [v Hv]. exists (v + 1).
  cbn [cancel_all slots_]. rewrite list_lookup_fmap, Hv. split; [done |]. pose proof (Forall_lookup_1 _ _ _ _ H0 Hv) as Hp. cbn in Hp. lia.
Qed.

Lemma covered_cancel t q l x : core_ok t (mkIo (CancelAll :: q) l x) -> covered t (mkIo (CancelAll :: q) l x) -> covered (cancel_all t) (mkIo q l x).
Proof.
  intros Hok Hc. pose proof (cancel_signals t _ (mkIo q l x) Hok eq_refl). destruct Hc as [[Hq _] | (q1 & q2 & E & Hq)]; [left; cbn in *; set_solver |].
  cbn [queue] in E. destruct q1 as [| h q1]; injection E as E; [left; by subst q2 | right; exists q1, q2; by subst q].
Qed.

Lemma covered_pop t t' h q l l' x x' : h <> CancelAll -> (h = SpawnCoro \/ t' = t /\ l' = l) -> covered t (mkIo (h :: q) l x) -> covered t' (mkIo q l' x').
Proof.
  intros Hh Hs [[Hq Hsig] | (q1 & q2 & E & Hq)]; cbn [queue] in *.
  - left. apply not_elem_of_cons in Hq as [Hne Hq]. destruct Hs as [-> | [-> ->]]; [done |]. by split.
  - right. destruct q1 as [| h' q1]; injection E as E; [congruence |]. exists q1, q2. by subst q.
Qed.

Lemma drained_core a a' i c c' t' : drained a -> ios a !! i = Some c -> ios a' = <[i := c']> (ios a) -> (forall j, j <> i -> tokens_ a' !! j = tokens_ a !! j) ->
  tokens_ a' <> [] -> state_ a' = state_ a -> spawning a' = spawning a -> main a' = main a -> tokens_ a' !! i = Some t' ->
  ((forall t, tokens_ a !! i = Some t -> covered t c) -> covered t' c') -> drained a'.
Proof.
  intros (H1 & H2 & H3 & H4) Hi E1 E2 E3 E4 E5 E6 Ht' Hcov. unfold drained. rewrite E4, E5, E6. split_and!; [done.. |]. destruct H4 as [? | H4]; [by left | right].
  intros j cj tj. rewrite E1. destruct (decide (j = i)) as [-> | Hne].
  - rewrite list_lookup_insert_eq by (by eapply lookup_lt_Some). intros [= <-]. rewrite Ht'. intros [= <-]. apply Hcov. intros t. by apply H4.
  - rewrite list_lookup_insert_ne, E2 by done. apply H4.
Qed.

Lemma drained_step n k e a a' : adapter_ok n k a -> drained a -> e <> InitEnd false -> exec e a = Some (Returns a') -> drained a'.
Proof.
  intros Hok Hd He Ex. pose proof Hd as (H1 & H2 & H3 & H4). destruct e as [| r | i | j | i | i j | | | | | | d]; cbn [exec] in Ex.
  - destruct (main a); try done. rewrite decide_False in Ex by done. destruct (tokens_ a), (closed a); done.
  - destruct (main a) eqn:Em; try done. destruct r; [| done]. injection Ex as <-. unfold drained, init_end. adapter_simpl. split_and!; [done.. |]. right. by destruct H4.
  - destruct (decide _); [| done]. injection Ex as <-. unfold spawn_test. by rewrite decide_False.
  - unfold spawn_post in Ex. by rewrite H2 in Ex.
  - destruct (ios a !! i) as [[[| h q] l x] |] eqn:Ei; try done. destruct (core_token n k a i _ Hok Ei) as (t & Ht & Hct & _); [by left |].
    pose proof (lookup_lt_Some _ _ _ Ei) as Hlt. assert (Hget : <[i := mkIo q l x]> (ios a) !! i = Some (mkIo q l x)) by (by apply list_lookup_insert_eq).
    assert (Hins : forall t', <[i := t']> (tokens_ a) <> [] /\ <[i := t']> (tokens_ a) !! i = Some t').
    { intros t'. split; [intros E%(f_equal length); rewrite length_insert in E; by destruct (tokens_ a) | apply list_lookup_insert_eq; by eapply lookup_lt_Some]. }
    unfold run_handler in Ex. adapter_simpl. rewrite Ht in Ex. destruct h; injection Ex as <-; rewrite ?(alter_insert _ _ _ _ Hget), ?list_insert_insert_eq.
    + eapply (drained_core a _ i _ _ _ Hd Ei); adapter_simpl; try done; [intros j Hj; by rewrite list_lookup_insert_ne | apply Hins.. |].
      intros Hcov. by eapply covered_pop; [| by left | by apply Hcov].
    + eapply (drained_core a _ i _ _ _ Hd Ei); adapter_simpl; try done; [intros j Hj; by rewrite list_lookup_insert_ne | apply Hins.. |].
      intros Hcov. apply covered_cancel; [done | by apply Hcov].
    + eapply (drained_core a _ i _ _ t Hd Ei); adapter_simpl; try done. intros Hcov. eapply (covered_pop t t ClosePerCore); [done | by right | by apply Hcov].
  - unfold finish in Ex. destruct (ios a !! i) as [c |] eqn:Ei; [| done]. destruct (live c !! j) as [s |] eqn:Ej; [| done]. destruct (tokens_ a !! i) as [t |] eqn:Et; [| done].
    injection Ex as <-. eapply (drained_core a _ i _ _ (on_complete t) Hd Ei); adapter_simpl; try done.
    + intros m Hm. by rewrite list_lookup_insert_ne.
    + intros E%(f_equal length). rewrite length_insert in E. by destruct (tokens_ a).
    + apply list_lookup_insert_eq. by eapply lookup_lt_Some.
    + intros Hcov. destruct (Hcov t Et) as [[Hq Hs] | Hq]; [left | by right]. split; [done |]. by apply Forall_remove.
  - destruct (main a); try done. injection Ex as <-. unfold drained. adapter_simpl. split_and!; try done. by left.
  - destruct (main a) eqn:Em; try done. injection Ex as <-. unfold drained, cancel_all_coros. adapter_simpl. split_and!; [done.. |]. right. intros i c t.
    rewrite list_lookup_imap. destruct (ios a !! i) as [c0 |]; [| done]. intros [= <-] Ht. rewrite decide_True by (by eapply lookup_lt_Some). right. exists (queue c0), []. split; [done | apply not_elem_of_nil].
  - destruct (main a) eqn:Em, (closed a); try done. injection Ex as <-. unfold drained, close_begin. adapter_simpl. split_and!; [done.. |]. right. by destruct H4.
  - destruct (main a) eqn:Em; try done. injection Ex as <-. unfold close_post. destruct (tokens_ a) as [| t0 ts] eqn:Et; [done |]. rewrite <- Et in *. unfold drained. adapter_simpl.
    split_and!; [done.. |]. right. intros i c t. rewrite list_lookup_fmap. destruct (ios a !! i) as [c0 |] eqn:Ei; [| done]. intros [= <-] Ht. apply covered_push; [done |].
    destruct H4 as [? | H4]; [congruence |]. by eapply H4.
  - destruct (main a) eqn:Em; try done. injection Ex as <-. unfold close_check. destruct (_ && _); [done |]. unfold drained, do_close. adapter_simpl. split_and!; [done.. |]. right. by destruct H4.
  - injection Ex as <-. done.
Qed.

Lemma adapter_exec_all_ok n k es a o : Z.of_nat n < 2 ^ 32 -> Z.of_nat (k + length es) < 2 ^ 32 -> adapter_ok n k a -> (InitEnd false ∉ es) -> exec_all es a = Some o ->
  exists a', o = Returns a' /\ adapter_ok n (k + length es) a'.
Proof.
  intros Hn. revert k a. induction es as [| e es IH]; intros k a Hb Hok Hes; cbn [exec_all length] in *; [intros [= <-]; exists a; by rewrite Nat.add_0_r |].
  apply not_elem_of_cons in Hes as [He Hes]. destruct (exec e a) as [o1 |] eqn:E; [| done].
  destruct (exec_ok n k e a o1) as (a1 & -> & H1); [done | lia | done | congruence | done |]. intros E1.
  destruct (IH (S k) a1) as (a' & -> & Ha'); [lia | | done | done |]; [apply (more_ok _ _ _ H1); destruct (decide _); lia |].
  exists a'. split; [done |]. by replace (k + S (length es))%nat with (S k + length es)%nat by lia.
Qed.

Lemma drained_all n k es a o : Z.of_nat n < 2 ^ 32 -> Z.of_nat k < 2 ^ 32 -> adapter_ok n k a -> drained a -> (InitEnd false ∉ es) -> exec_all es a = Some o ->
  exists a', o = Returns a' /\ adapter_ok n k a' /\ drained a'.
Proof.
  intros Hn Hk. revert a. induction es as [| e es IH]; intros a Hok Hd Hes; cbn [exec_all] in *; [intros [= <-]; by exists a |].
  apply not_elem_of_cons in Hes as [He Hes]. destruct (exec e a) as [o1 |] eqn:E; [| done].
  destruct (exec_ok n k e a o1 Hn Hk Hok ltac:(congruence) E) as (a1 & -> & H1). rewrite decide_False in H1 by apply Hd. apply IH; [done | | done]. apply (drained_step n k e a); [done | done | congruence | done].
Qed.

Lemma make_adapter_ok n timeout : adapter_ok (Z.to_nat n) 0 (make_adapter n timeout).
Proof.
  unfold make_adapter. split; adapter_simpl; [by rewrite length_replicate | | done | | | by split; [lia |]].
  - left. split_and!; try done. by apply Forall_replicate.
  - unfold pending, running. adapter_simpl. induction (Z.to_nat n); cbn in *; lia.
  - unfold closing_ok. adapter_simpl. split_and!; [by apply Forall_replicate | done | by left].
Qed.

(** The count the server polls is the number of running coroutines. *)
Lemma outstanding_running n k a : Z.of_nat k < 2 ^ 32 -> adapter_ok n k a -> outstanding_adapter_coros a = Z.of_nat (running a).
Proof.
  intros Hb [_ Hi _ Hc _ _]. unfold outstanding_adapter_coros, running in *. assert (Hk : (sum_list_with (λ c, length (live c)) (ios a) <= k)%nat) by lia. clear Hc.
  assert (Hgen : forall ts cs acc, Forall2 core_ok ts cs -> (acc + sum_list_with (λ c, length (live c)) cs <= k)%nat ->
    foldl (λ total t, u32 (total + outstanding t)) (Z.of_nat acc) ts = Z.of_nat (acc + sum_list_with (λ c, length (live c)) cs)).
  { intros ts cs acc H2. revert acc. induction H2 as [| t c ts cs (Ho & _) _ IH]; intros acc Hacc; cbn [foldl sum_list_with] in *; [by rewrite Nat.add_0_r |].
    unfold outstanding. rewrite Ho. rewrite wrap_small by (split; lia). rewrite <- Nat2Z.inj_add, IH by lia. f_equal. lia. }
  destruct Hi as [(-> & _ & _ & Hf) | H2]; [| apply (Hgen _ _ O H2); lia].
  cbn [foldl]. symmetry. clear -Hf. induction Hf as [| c l [_ Hl] _ IH]; [done |]. cbn [sum_list_with]. rewrite Hl. cbn [length]. lia.
Qed.

(** C27: draining an adapter is orderly on every schedule of the main thread, the
    threads that start coroutines and the cores, provided [do_init] returned and no
    thread is between the test and the [post] of [spawn_adapter_coro] when the drain
    begins. No token is used that is not there; the count that the server polls is the
    number of coroutines running; from the drain on no coroutine is accepted; once the
    cancellation has run on a core, none is waiting to start there and each one that
    still runs there has been signalled; and [do_close] is called once, after each core
    has cleaned up exactly once or after the timeout. *)
Theorem adapter_drains core_count timeout es1 es2 a1 o :
  0 < core_count < 2 ^ 32 -> len es1 + len es2 < 2 ^ 32 -> (InitEnd false ∉ es1 ++ es2) ->
  exec_all es1 (make_adapter core_count timeout) = Some (Returns a1) -> tokens_ a1 <> [] -> spawning a1 = [] ->
  exec_all (DrainBegin :: es2) a1 = Some o ->
  exists a2, o = Returns a2 /\ outstanding_adapter_coros a2 = Z.of_nat (running a2) /\ (pending a2 + running a2 <= pending a1 + running a1)%nat /\
    (forall i c t, main a2 <> InDrain -> ios a2 !! i = Some c -> tokens_ a2 !! i = Some t -> (CancelAll ∉ queue c) -> (SpawnCoro ∉ queue c) /\ signalled t c) /\
    (closed a2 <= 1)%nat /\ (closed a2 = 1%nat -> Forall (λ c, cleaned c = 1%nat) (ios a2) \/ exists d, deadline a2 = Some d /\ d < now a2).
Proof.
  intros Hn Hlen Hes E1 Htok Hsp E2. rewrite not_elem_of_app in Hes. destruct Hes as [Hes1 Hes2]. unfold len in Hlen.
  destruct (adapter_exec_all_ok (Z.to_nat core_count) 0 es1 _ _ ltac:(lia) ltac:(lia) (make_adapter_ok core_count timeout) Hes1 E1) as (a & [= <-] & Hok1).
  set (k := (pending a1 + running a1)%nat). assert (Hk : (k <= length es1)%nat) by apply Hok1.
  assert (Hok : adapter_ok (Z.to_nat core_count) k a1) by (destruct Hok1; by split).
  cbn [exec_all exec] in E2. destruct (main a1) eqn:Em; try done.
  destruct (drained_all (Z.to_nat core_count) k es2 (drain_begin a1) o) as (a2 & -> & Hok2 & Hd2); [lia | lia | | | done | done |].
  - apply main_ok; try done. by rewrite Em.
  - unfold drained, drain_begin. adapter_simpl. split_and!; try done. by left.
  - exists a2. split; [done |]. split; [apply (outstanding_running (Z.to_nat core_count) k); [lia | done] |]. split; [apply Hok2 |]. split; [| split; [apply Hok2 |]].
    + intros i c t Hm Hi Ht Hq. destruct Hd2 as (_ & _ & _ & [? | Hcov]); [done |]. destruct (Hcov i c t Hi Ht) as [? | (q1 & q2 & E & _)]; [done |].
      exfalso. apply Hq. rewrite E. set_solver.
    + intros Hc. pose proof (ao_closing _ _ _ Hok2) as Hcl. unfold closing_ok in Hcl. destruct (deadline a2) as [d |].
      * destruct Hcl as (Hf & _ & [[_ ?] | (_ & _ & [H0 | ?])]); [congruence | left | right; by exists d]. clear -H0 Hf. induction Hf as [| c l Hc _ IH]; [done |]. cbn [sum_list_with] in H0.
        constructor; [lia |]. apply IH. lia.
      * destruct Hcl as (_ & _ & [? | ?]); [congruence |]. by destruct Hd2 as (_ & _ & ? & _).
Qed.

(** Two cores with a coroutine each; one ends by itself, the other when cancelled. *)
Definition example_before : list event :=
  [InitBegin; SpawnTest 0; SpawnPost 0; InitEnd true; SpawnTest 1; SpawnPost 0; Run 0; Run 1; Finish 1 0].
Definition example_after : list event := [DrainCancel; Run 0; Run 1; Finish 0 0; CloseBegin; ClosePost; Run 1; CloseCheck; Run 0; CloseCheck].

Lemma adapter_drains_witness : exists a, exec_all (example_before ++ DrainBegin :: example_after) (make_adapter 2 5) = Some (Returns a) /\
  running a = O /\ closed a = 1%nat /\ Forall (λ c, cleaned c = 1%nat) (ios a).
Proof.
  destruct (exec_all example_before (make_adapter 2 5)) as [[a1 |] |] eqn:E1; [| by vm_compute in E1..].
  destruct (exec_all (DrainBegin :: example_after) a1) as [o |] eqn:E2; [| vm_compute in E1; injection E1 as <-; by vm_compute in E2].
  destruct (adapter_drains 2 5 example_before example_after a1 o) as (a2 & -> & _ & Hle & _ & _ & Hclose).
  - lia.
  - vm_compute. done.
  - unfold example_before, example_after. cbn [app]. rewrite !not_elem_of_cons. repeat split; try done. apply not_elem_of_nil.
  - exact E1.
  - vm_compute in E1. injection E1 as <-. done.
  - vm_compute in E1. injection E1 as <-. done.
  - exact E2.
  - exists a2. vm_compute in E1. injection E1 as <-. vm_compute in E2. injection E2 as <-. split; [by vm_compute |]. split_and!; [done | done |].
    destruct Hclose as [Hc | (d & Hd & Hlt)]; [done | exact Hc |]. injection Hd as <-. by vm_compute in Hlt.
Defined.

(** The server takes a count of zero as a sign that no coroutine of the adapter is
    left, and closes it. A coroutine counts only once its core has run the handler that
    starts it, so one that was accepted before the drain can start after the count was
    read, and still run when [do_close] is called. *)
Lemma zero_count_misses_accepted : exists a1 a2,
  exec_all [InitBegin; InitEnd true; SpawnTest 0; SpawnPost 0; DrainBegin; DrainCancel] (make_adapter 1 5) = Some (Returns a1) /\
  outstanding_adapter_coros a1 = 0 /\
  exec_all [CloseBegin; ClosePost; Run 0; Run 0; Run 0; CloseCheck] a1 = Some (Returns a2) /\ closed a2 = 1%nat /\ running a2 = 1%nat.
Proof. eexists _, _. split; [by vm_compute |]. by vm_compute. Qed.

(** A thread that has passed the test when the drain begins posts its coroutine behind
    the cancellation: it starts after the drain and is never signalled. *)
Lemma late_spawn_not_cancelled : exists a,
  exec_all [InitBegin; InitEnd true; SpawnTest 0; DrainBegin; DrainCancel; SpawnPost 0; Run 0; Run 0] (make_adapter 1 5) = Some (Returns a) /\
  state_ a = DRAINING /\ running a = 1%nat /\ (slots_ <$> tokens_ a) = [[0]].
Proof. eexists. by vm_compute. Qed.

(** If [do_init] throws after it has started a coroutine, the handler that was posted
    finds the tokens cleared. *)
Lemma failed_init_leaves_handler :
  exec_all [InitBegin; SpawnTest 0; SpawnPost 0; InitEnd false; Run 0] (make_adapter 1 5) = Some (Throws undefined_behaviour).
Proof. by vm_compute. Qed.
