(* ===== verification/PayloadPool.v ===== *)
(** * The payload pool of the Kafka consumers

    [apex::shared::adapters::kafka::ConsumerPayloadPool]
    (apex_shared/lib/adapters/kafka/src/consumer_payload_pool.cpp): buffers into which a
    consumer copies a payload, given back by the deleter of a shared pointer on whatever
    thread drops it last.

    Buffers are addresses in an explicit memory. Each operation takes the lock once;
    what [acquire] does outside of it touches only a buffer no one else has, so that an
    operation is one step and threads interleave between them. *)

From S2P Require Import Prelude ErrorCode.

Module PayloadPool.

Record ConsumerPayloadPool : Type := mkPool {
  free_list_ : list Z;
  buffer_size_ : Z;
  max_count_ : Z;
  total_created_ : Z;
  in_use_ : Z;
  peak_in_use_ : Z;
  acquire_count_ : Z;
  fallback_alloc_count_ : Z;
  buffers : gmap Z (list Z); (** the buffers there are, with [data] *)
  next : Z; (** an address not used yet *)
}.

Definition with_free (l : list Z) (s : ConsumerPayloadPool) : ConsumerPayloadPool :=
  mkPool l (buffer_size_ s) (max_count_ s) (total_created_ s) (in_use_ s) (peak_in_use_ s) (acquire_count_ s) (fallback_alloc_count_ s) (buffers s) (next s).
Definition with_total (n : Z) (s : ConsumerPayloadPool) : ConsumerPayloadPool :=
  mkPool (free_list_ s) (buffer_size_ s) (max_count_ s) n (in_use_ s) (peak_in_use_ s) (acquire_count_ s) (fallback_alloc_count_ s) (buffers s) (next s).
Definition with_in_use (n peak : Z) (s : ConsumerPayloadPool) : ConsumerPayloadPool :=
  mkPool (free_list_ s) (buffer_size_ s) (max_count_ s) (total_created_ s) n peak (acquire_count_ s) (fallback_alloc_count_ s) (buffers s) (next s).
Definition with_counts (acquired fallback : Z) (s : ConsumerPayloadPool) : ConsumerPayloadPool :=
  mkPool (free_list_ s) (buffer_size_ s) (max_count_ s) (total_created_ s) (in_use_ s) (peak_in_use_ s) acquired fallback (buffers s) (next s).
Definition with_buffers (m : gmap Z (list Z)) (n : Z) (s : ConsumerPayloadPool) : ConsumerPayloadPool :=
  mkPool (free_list_ s) (buffer_size_ s) (max_count_ s) (total_created_ s) (in_use_ s) (peak_in_use_ s) (acquire_count_ s) (fallback_alloc_count_ s) m n.

Definition create_buffer (s : ConsumerPayloadPool) : Z * ConsumerPayloadPool :=
  (next s, with_buffers (<[next s := []]> (buffers s)) (next s + 1) s).

(** The constructor. *)
Definition prealloc (s : ConsumerPayloadPool) : ConsumerPayloadPool := let '(buf, s) := create_buffer s in with_free (free_list_ s ++ [buf]) s.
Definition make (initial_count buffer_size max_count : Z) : ConsumerPayloadPool :=
  with_total initial_count (Nat.iter (Z.to_nat initial_count) prealloc (mkPool [] buffer_size max_count 0 0 0 0 0 ∅ 0)).

(** [back] and [pop_back] of a vector. *)
Definition pop_back {A} (l : list A) : option (A * list A) := match reverse l with x :: r => Some (x, reverse r) | [] => None end.

(** The part of [acquire] under the lock: the buffer, if there is one. *)
Definition take_buffer (s : ConsumerPayloadPool) : option Z * ConsumerPayloadPool :=
  let s := with_counts (u64 (acquire_count_ s + 1)) (fallback_alloc_count_ s) s in
  let fallback s := with_counts (acquire_count_ s) (u64 (fallback_alloc_count_ s + 1)) s in
  let '(buf, s) :=
    match pop_back (free_list_ s) with
    | Some (buf, rest) => (Some buf, with_free rest s)
    | None =>
        if (max_count_ s =? 0) || (total_created_ s <? max_count_ s) then
          let '(buf, s) := create_buffer s in (Some buf, fallback (with_total (u64 (total_created_ s + 1)) s))
        else (None, fallback s)
    end in
  let in_use := u64 (in_use_ s + 1) in
  (buf, with_in_use in_use (if peak_in_use_ s <? in_use then in_use else peak_in_use_ s) s).

Definition acquire (payload : list Z) (s : ConsumerPayloadPool) : Z * ConsumerPayloadPool :=
  let '(buf, s) := take_buffer s in
  let '(buf, s) := match buf with Some buf => (buf, s) | None => create_buffer s end in
  (buf, with_buffers (<[buf := payload]> (buffers s)) (next s) s).

(** The deleter of the shared pointer. *)
Definition release (buf : Z) (s : ConsumerPayloadPool) : outcome ConsumerPayloadPool :=
  match buffers s !! buf with
  | None => Throws undefined_behaviour
  | Some _ =>
      let s := with_buffers (<[buf := []]> (buffers s)) (next s) s in
      let s := with_in_use (u64 (in_use_ s - 1)) (peak_in_use_ s) s in
      Returns
        (if (max_count_ s =? 0) || (u64 (len (free_list_ s) + in_use_ s) <? max_count_ s) then with_free (free_list_ s ++ [buf]) s
         else with_total (if 0 <? total_created_ s then total_created_ s - 1 else total_created_ s) (with_buffers (delete buf (buffers s)) (next s) s))
  end.

(** ** Clients *)

(** A client acquires a buffer for a payload, or the last reference to one is dropped. *)
Inductive op : Type := Acquire (payload : list Z) | Drop (i : nat).

(** The buffers held, with what was copied into them. *)
Abbreviation holdings := (list (Z * list Z)).

Definition run_op (o : op) (x : ConsumerPayloadPool * holdings) : outcome (ConsumerPayloadPool * holdings) :=
  let '(s, held) := x in
  match o with
  | Acquire payload => let '(buf, s) := acquire payload s in Returns (s, held ++ [(buf, payload)])
  | Drop i => match held !! i with Some (buf, _) => run s <- release buf s; Returns (s, delete i held) | None => Returns (s, held) end
  end.
Fixpoint run_ops (os : list op) (x : ConsumerPayloadPool * holdings) : outcome (ConsumerPayloadPool * holdings) :=
  match os with [] => Returns x | o :: os => run x <- run_op o x; run_ops os x end.

End PayloadPool.
Import PayloadPool.

Lemma pop_back_Some {A} (l : list A) x r : pop_back l = Some (x, r) -> l = r ++ [x].
Proof.
  unfold pop_back. destruct (reverse l) as [| y q] eqn:E; [done |]. intros [= -> <-]. by rewrite <- (reverse_involutive l), E, reverse_cons.
Qed.
Lemma pop_back_None {A} (l : list A) : pop_back l = None -> l = [].
Proof. unfold pop_back. destruct (reverse l) as [| y q] eqn:E; [| done]. intros _. by rewrite <- (reverse_involutive l), E. Qed.

(** ** The pool is safe *)

Record pool_ok (initial n : Z) (s : ConsumerPayloadPool) (held : holdings) : Prop := mkOk {
  ok_nodup : NoDup (held.*1 ++ free_list_ s);
  ok_buffers : forall p, is_Some (buffers s !! p) <-> p ∈ held.*1 ++ free_list_ s;
  ok_data : Forall (λ h, buffers s !! h.1 = Some h.2) held;
  ok_next : forall p, is_Some (buffers s !! p) -> p < next s;
  ok_in_use : in_use_ s = len held;
  ok_peak : len held <= peak_in_use_ s <= n;
  ok_free : max_count_ s <> 0 -> len (free_list_ s) <= Z.max initial (max_count_ s);
  ok_enough : max_count_ s = 0 \/ initial <= max_count_ s -> initial <= len held + len (free_list_ s);
  ok_fallback : max_count_ s = 0 \/ initial <= max_count_ s -> peak_in_use_ s <= initial -> fallback_alloc_count_ s = 0;
  ok_acquired : acquire_count_ s = n;
  ok_total : len held + len (free_list_ s) <= initial + n;
}.

Lemma prealloc_ok k s : pool_ok (Z.of_nat k) 0 s [] -> peak_in_use_ s = 0 -> fallback_alloc_count_ s = 0 -> len (free_list_ s) = Z.of_nat k ->
  pool_ok (Z.of_nat (S k)) 0 (prealloc s) [] /\ len (free_list_ (prealloc s)) = Z.of_nat (S k).
Proof.
  intros [Hd Hb _ Hn Hi Hp Hf He Hk Ha Ht] Hpk Hfb Hl. cbn in *. assert (Hl' : len (free_list_ s ++ [next s]) = Z.of_nat (S k)) by (rewrite len_app, Hl, len_cons, len_nil; lia).
  split; [| done]. constructor; cbn; try (rewrite Hl'; lia); try done.
  - apply NoDup_app. split; [done |]. split; [| apply NoDup_singleton]. intros p Hp' ->%list_elem_of_singleton. apply Hb, Hn in Hp'. lia.
  - intros p. rewrite elem_of_app, list_elem_of_singleton, <- Hb, lookup_insert_is_Some. destruct (decide (next s = p)); naive_solver.
  - intros p [<- | [_ H]]%lookup_insert_is_Some; [lia |]. apply Hn in H. lia.
Qed.

Lemma payload_make_pool_ok initial size max : 0 <= initial -> pool_ok initial 0 (make initial size max) [] /\ max_count_ (make initial size max) = max.
Proof.
  intros H0. unfold make. set (s0 := mkPool [] size max 0 0 0 0 0 ∅ 0).
  assert (H : forall k, let s := Nat.iter k prealloc s0 in
    pool_ok (Z.of_nat k) 0 s [] /\ len (free_list_ s) = Z.of_nat k /\ peak_in_use_ s = 0 /\ fallback_alloc_count_ s = 0 /\ max_count_ s = max).
  { induction k as [| k (IH & Hl & Hp & Hf & Hm)]; cbn.
    - split; [| done]. constructor; cbn; try done; try lia; [apply NoDup_nil_2 | | by intros ? [? ?] | unfold len; cbn; lia]. intros p. rewrite lookup_empty, elem_of_nil. split; [by intros [? ?] | done].
    - destruct (prealloc_ok k _ IH Hp Hf Hl) as [? ?]. split_and!; done. }
  destruct (H (Z.to_nat initial)) as ([Hd Hb Hda Hn Hi Hp Hf He Hk Ha Ht] & Hl & _ & _ & Hm). rewrite Z2Nat.id in * by done. split; [by constructor | done].
Qed.

(** A buffer taken from the pool, made for the pool or made outside of it: the free list
    afterwards, whether memory was allocated, and the counters. *)
Lemma acquire_cases initial n s held payload : pool_ok initial n s held -> 0 <= n < 2 ^ 64 - 1 -> initial + n < 2 ^ 64 - 1 -> exists buf s',
  acquire payload s = (buf, s') /\ max_count_ s' = max_count_ s /\ in_use_ s' = in_use_ s + 1 /\ peak_in_use_ s' = Z.max (peak_in_use_ s) (in_use_ s + 1) /\
  acquire_count_ s' = n + 1 /\ buffers s' = <[buf := payload]> (buffers s) /\
  (free_list_ s = free_list_ s' ++ [buf] /\ next s' = next s /\ fallback_alloc_count_ s' = fallback_alloc_count_ s \/
   free_list_ s = [] /\ free_list_ s' = [] /\ buf = next s /\ next s' = next s + 1).
Proof.
  intros [Hd Hb Hda Hn Hi Hp Hf He Hk Ha Ht] H1 H2. pose proof (len_nonneg held). pose proof (len_nonneg (free_list_ s)).
  assert (E1 : u64 (acquire_count_ s + 1) = n + 1) by (rewrite Ha; apply wrap_small; unfold in_width; lia).
  assert (E2 : u64 (in_use_ s + 1) = in_use_ s + 1) by (rewrite Hi; apply wrap_small; unfold in_width; lia).
  assert (E3 : (if peak_in_use_ s <? in_use_ s + 1 then in_use_ s + 1 else peak_in_use_ s) = Z.max (peak_in_use_ s) (in_use_ s + 1)) by (destruct (Z.ltb_spec (peak_in_use_ s) (in_use_ s + 1)); lia).
  unfold acquire, take_buffer. cbn. destruct (pop_back (free_list_ s)) as [[buf rest] |] eqn:Ep.
  - apply pop_back_Some in Ep. cbn. rewrite E1, E2, E3. eexists buf, _. split; [done |]. cbn. auto 10.
  - apply pop_back_None in Ep. destruct (_ || _); cbn; rewrite E1, E2, E3; eexists (next s), _; (split; [done |]); cbn; rewrite insert_insert_eq; auto 10.
Qed.

Lemma payload_acquire_ok initial n s held payload : pool_ok initial n s held -> 0 <= n < 2 ^ 64 - 1 -> initial + n < 2 ^ 64 - 1 ->
  exists buf s', acquire payload s = (buf, s') /\ pool_ok initial (n + 1) s' (held ++ [(buf, payload)]) /\ max_count_ s' = max_count_ s.
Proof.
  intros Hok H1 H2. destruct (acquire_cases _ _ _ _ payload Hok H1 H2) as (buf & s' & E & Em & Ei & Ep & Ea & Eb & Hc). exists buf, s'. split; [done |]. split; [| done].
  destruct Hok as [Hd Hb Hda Hn Hi Hp Hf He Hk Ha Ht]. pose proof (len_nonneg held).
  assert (Hlen : len (held ++ [(buf, payload)]) = len held + 1) by (rewrite len_app, len_cons, len_nil; lia).
  assert (Hfst : (held ++ [(buf, payload)]).*1 = held.*1 ++ [buf]) by (by rewrite fmap_app).
  assert (Hnew : buf ∉ held.*1).
  { destruct Hc as [(Ef & _) | (_ & _ & -> & _)]; intros Hin.
    - rewrite Ef in Hd. apply NoDup_app in Hd as (_ & Hd & _). apply (Hd buf Hin). apply elem_of_app. right. by left.
    - assert (is_Some (buffers s !! next s)) as Hs%Hn by (apply Hb, elem_of_app; by left). lia. }
  assert (Hold : Forall (λ h, buffers s' !! h.1 = Some h.2) (held ++ [(buf, payload)])).
  { apply Forall_app. split; [| constructor; [cbn; rewrite Eb; apply lookup_insert_eq | constructor]]. rewrite Forall_forall in Hda |- *. intros h Hh. rewrite Eb, lookup_insert_ne; [by apply Hda |].
    intros ->. apply Hnew. by apply list_elem_of_fmap_2. }
  destruct Hc as [(Ef & En & Efb) | (Ef & Ef' & -> & En)].
  - assert (Hperm : (held ++ [(buf, payload)]).*1 ++ free_list_ s' ≡ₚ held.*1 ++ free_list_ s) by (rewrite Hfst, Ef, <- app_assoc; cbn; by rewrite <- Permutation_cons_append).
    assert (Hbuf : is_Some (buffers s !! buf)) by (apply Hb; rewrite <- Hperm, Hfst, !elem_of_app, list_elem_of_singleton; auto).
    assert (Hl : len (free_list_ s) = len (free_list_ s') + 1) by (rewrite Ef, len_app, len_cons, len_nil; lia).
    constructor; rewrite ?Em, ?Hlen, ?Ep, ?En, ?Efb; try lia; try done.
    + by rewrite Hperm.
    + intros p. rewrite Hperm, <- Hb, Eb, lookup_insert_is_Some'. naive_solver.
    + intros p. rewrite Eb, lookup_insert_is_Some'. intros [<- | ?]; by apply Hn.
  - pose proof (eq_refl : len (@nil Z) = 0). rewrite Ef in *. constructor; rewrite ?Em, ?Hlen, ?Ep, ?En, ?Ef'; try lia; try done.
    + rewrite Hfst, app_nil_r. rewrite app_nil_r in Hd. apply NoDup_app. split; [done |]. split; [| apply NoDup_singleton]. by intros p Hp' ->%list_elem_of_singleton.
    + intros p. rewrite Eb, lookup_insert_is_Some', Hb, Hfst, !app_nil_r, elem_of_app, list_elem_of_singleton. naive_solver.
    + intros p. rewrite Eb, lookup_insert_is_Some'. intros [<- | Hs%Hn]; lia.
Qed.

Lemma payload_release_ok initial n s held i buf payload : pool_ok initial n s held -> initial + n < 2 ^ 64 -> held !! i = Some (buf, payload) ->
  exists s', release buf s = Returns s' /\ pool_ok initial n s' (delete i held) /\ max_count_ s' = max_count_ s.
Proof.
  intros [Hd Hb Hda Hn Hi Hp Hf He Hk Ha Ht] H2 Hh. unfold release.
  assert (Hbuf : buffers s !! buf = Some payload) by (by apply (Forall_lookup_1 _ _ _ _ Hda Hh)). rewrite Hbuf. eexists. split; [done |].
  pose proof (delete_Permutation _ _ _ Hh) as Hdp. pose proof (fmap_Permutation fst _ _ Hdp : held.*1 ≡ₚ buf :: (delete i held).*1) as Hperm.
  assert (Hl : len held = len (delete i held) + 1) by (apply Permutation_length in Hdp; cbn in Hdp; unfold len; lia).
  assert (Hu : u64 (in_use_ s - 1) = len (delete i held)) by (rewrite Hi, Hl; pose proof (len_nonneg (delete i held)); pose proof (len_nonneg (free_list_ s)); rewrite wrap_small; unfold in_width; lia).
  assert (Hne : forall h, h ∈ delete i held -> h.1 <> buf).
  { rewrite Hperm in Hd. apply NoDup_cons in Hd as [Hd _]. intros h Hin <-. apply Hd, elem_of_app. left. by apply list_elem_of_fmap_2. }
  assert (Hda' : Forall (λ h, buffers s !! h.1 = Some h.2) (delete i held)).
  { rewrite Forall_forall in Hda |- *. intros h Hin. apply Hda. rewrite Hdp. by right. }
  pose proof (len_nonneg (delete i held)). pose proof (len_nonneg (free_list_ s)).
  assert (Hw : u64 (len (free_list_ s) + len (delete i held)) = len (free_list_ s) + len (delete i held)) by (apply wrap_small; unfold in_width; lia).
  cbn. rewrite Hu, Hw. destruct (_ || _) eqn:Eor; (split; [| done]); constructor; cbn; try done; try lia.
  - by rewrite app_assoc, <- Permutation_cons_append, app_comm_cons, <- Hperm.
  - intros p. rewrite lookup_insert_is_Some', Hb, Hperm, !elem_of_app, elem_of_cons, list_elem_of_singleton. naive_solver.
  - rewrite Forall_forall in Hda' |- *. intros h Hin. rewrite lookup_insert_ne by (symmetry; by apply Hne). by apply Hda'.
  - intros p. rewrite lookup_insert_is_Some'. intros [<- | ?]; apply Hn; [by rewrite Hbuf | done].
  - intros Hm. rewrite len_app, len_cons, len_nil. apply orb_true_iff in Eor as [? | ?]; lia.
  - intros Hm. specialize (He Hm). rewrite len_app, len_cons, len_nil. lia.
  - rewrite len_app, len_cons, len_nil. lia.
  - rewrite Hperm in Hd. by apply NoDup_cons in Hd as [_ ?].
  - intros p. rewrite lookup_delete_is_Some, lookup_insert_is_Some', Hb, Hperm. cbn. rewrite elem_of_cons. rewrite Hperm in Hd. apply NoDup_cons in Hd as [Hd _]. naive_solver.
  - rewrite Forall_forall in Hda' |- *. intros h Hin. rewrite lookup_delete_ne, lookup_insert_ne by (symmetry; by apply Hne). by apply Hda'.
  - intros p. rewrite lookup_delete_is_Some, lookup_insert_is_Some'. intros [Hp' [? | ?]]; [done | by apply Hn].
Qed.

(** ** A client's whole run *)

Fixpoint acquires (os : list op) : Z := match os with [] => 0 | Acquire _ :: os => 1 + acquires os | Drop _ :: os => acquires os end.
Lemma acquires_nonneg os : 0 <= acquires os.
Proof. induction os as [| [] os IH]; cbn; lia. Qed.

Lemma run_ops_ok initial os : forall n s held, pool_ok initial n s held -> 0 <= n -> 0 <= initial -> initial + n + acquires os < 2 ^ 64 - 1 ->
  exists s' held', run_ops os (s, held) = Returns (s', held') /\ pool_ok initial (n + acquires os) s' held' /\ max_count_ s' = max_count_ s.
Proof.
  induction os as [| o os IH]; intros n s held Hok Hn H0 Hw; cbn.
  - exists s, held. rewrite Z.add_0_r. done.
  - pose proof (acquires_nonneg os). destruct o as [payload | i]; cbn in *.
    + destruct (payload_acquire_ok initial n s held payload Hok) as (buf & s1 & -> & Hok1 & Em); [lia | lia |]. cbn.
      destruct (IH (n + 1) s1 (held ++ [(buf, payload)]) Hok1) as (s' & held' & E & Hok' & Em'); [lia | lia | lia |]. exists s', held'. rewrite E, Em', Em, Z.add_assoc. done.
    + destruct (held !! i) as [[buf payload] |] eqn:Eh; [| by apply IH].
      destruct (payload_release_ok initial n s held i buf payload Hok) as (s1 & -> & Hok1 & Em); [lia | done |]. cbn. rewrite <- Em. by apply IH.
Qed.

(** Whatever the threads that consume and the threads that drop payloads do, the pool
    never touches a buffer that is not there; each buffer handed out holds the payload
    copied into it until it is dropped, and no one else's; the buffers there are, are
    those held and those kept for later, so that none leaks; no more are kept than the
    limit, or than were there at the start; and a pool that starts within its limit
    allocates nothing as long as no more payloads than it started with are held at
    once. *)
Theorem payload_pool_safe initial size max os (Hi : 0 <= initial) (Hmax : 0 <= max) (Hw : initial + acquires os < 2 ^ 64 - 1) :
  exists s held, run_ops os (make initial size max, []) = Returns (s, held) /\
    Forall (λ h, buffers s !! h.1 = Some h.2) held /\ NoDup (held.*1 ++ free_list_ s) /\
    (forall p, is_Some (buffers s !! p) <-> p ∈ held.*1 ++ free_list_ s) /\
    in_use_ s = len held /\ acquire_count_ s = acquires os /\
    (max <> 0 -> len (free_list_ s) <= Z.max initial max) /\
    (max = 0 \/ initial <= max -> peak_in_use_ s <= initial -> fallback_alloc_count_ s = 0).
Proof.
  destruct (payload_make_pool_ok initial size max Hi) as [H0 Em]. destruct (run_ops_ok initial os 0 _ [] H0) as (s & held & E & [Hd Hb Hda Hn Hu Hp Hf He Hk Ha Ht] & Em'); [lia | lia | lia |].
  exists s, held. rewrite Em', Em in *. split_and!; try done.
Qed.

Lemma payload_pool_safe_witness : exists s held, run_ops [Acquire [1]; Acquire [2; 3]; Acquire [4]; Drop 1; Acquire [5]; Drop 0] (make 2 4096 2, []) = Returns (s, held) /\
  held = [(2, [4]); (3, [5])] /\ Forall (λ h, buffers s !! h.1 = Some h.2) held.
Proof.
  destruct (payload_pool_safe 2 4096 2 [Acquire [1]; Acquire [2; 3]; Acquire [4]; Drop 1; Acquire [5]; Drop 0]) as (s & held & E & Hd & _); [lia | lia | by vm_compute |].
  exists s, held. split; [exact E |]. split; [| exact Hd]. vm_compute in E. by injection E as _ <-.
Defined.

(** ** Defects *)

(** A buffer made outside the pool is taken off the count of the pool's when it is
    dropped, so that the pool makes a second buffer of its own although one is its
    limit. *)
Lemma total_created_drifts : exists s held, run_ops [Acquire [1]; Acquire [2]; Drop 1] (make 0 4096 1, []) = Returns (s, held) /\
  total_created_ s = 0 /\ in_use_ s = 1 /\ (acquire [3] s).2.(total_created_) = 1.
Proof. eexists _, _. split; [vm_compute; reflexivity | by vm_compute]. Qed.
