(* ===== verification/Metrics.v ===== *)
(** * Metrics and the administration of log levels

    [apex::core::MetricsRegistry] (apex_core/src/metrics_registry.cpp), which writes all
    metrics as text for a Prometheus server, and the requests that the two HTTP servers
    answer (metrics_http_server.cpp and admin_http_server.cpp). Strings are their bytes.
    The atomics that a registry refers to and the functions it calls are outside of it:
    what they give at a scrape is an argument. spdlog's table of loggers is a map, and
    its names of levels are a parameter. *)

From S2P Require Import Prelude Text ErrorCode.
#[local] Open Scope Z_scope.

Module Metrics.

Abbreviation bytes := (list Z).

(** ** The registry *)

Inductive MetricType : Type := COUNTER | GAUGE.

(** Owned counters and gauges by their position; atomics and functions by a name. *)
Inductive ValueSource : Type := OwnedCounter (i : nat) | ExternalAtomic (a : Z) | OwnedGauge (i : nat) | Function_ (f : Z).

Definition Labels : Type := list (bytes * bytes).

Record MetricEntry : Type := mkEntry { name : bytes; help : bytes; type : MetricType; labels : Labels; source : ValueSource }.

Record MetricsRegistry : Type := mkRegistry { entries_ : list MetricEntry; frozen_ : bool; owned_counters_ : list Z; owned_gauges_ : list Z }.

(** The assertions that no registration follows [freeze] are compiled out of a release
    build, and [frozen_] has no other use. *)
Definition make_registry : MetricsRegistry := mkRegistry [] false [] [].

Definition counter (n h : bytes) (l : Labels) (r : MetricsRegistry) : nat * MetricsRegistry :=
  let i := length (owned_counters_ r) in
  (i, mkRegistry (entries_ r ++ [mkEntry n h COUNTER l (OwnedCounter i)]) (frozen_ r) (owned_counters_ r ++ [0]) (owned_gauges_ r)).
Definition gauge (n h : bytes) (l : Labels) (r : MetricsRegistry) : nat * MetricsRegistry :=
  let i := length (owned_gauges_ r) in
  (i, mkRegistry (entries_ r ++ [mkEntry n h GAUGE l (OwnedGauge i)]) (frozen_ r) (owned_counters_ r) (owned_gauges_ r ++ [0])).
Definition counter_from (n h : bytes) (l : Labels) (a : Z) (r : MetricsRegistry) : MetricsRegistry :=
  mkRegistry (entries_ r ++ [mkEntry n h COUNTER l (ExternalAtomic a)]) (frozen_ r) (owned_counters_ r) (owned_gauges_ r).
Definition gauge_fn (n h : bytes) (l : Labels) (f : Z) (r : MetricsRegistry) : MetricsRegistry :=
  mkRegistry (entries_ r ++ [mkEntry n h GAUGE l (Function_ f)]) (frozen_ r) (owned_counters_ r) (owned_gauges_ r).
Definition freeze (r : MetricsRegistry) : MetricsRegistry := mkRegistry (entries_ r) true (owned_counters_ r) (owned_gauges_ r).

(** [Counter::increment] and the operations of [Gauge]; signed atomics wrap. *)
Definition s64 (n : Z) : Z := u64 (n + 2 ^ 63) - 2 ^ 63.
Definition counter_increment (i : nat) (delta : Z) (r : MetricsRegistry) : MetricsRegistry :=
  mkRegistry (entries_ r) (frozen_ r) (alter (λ v, u64 (v + delta)) i (owned_counters_ r)) (owned_gauges_ r).
Definition gauge_increment (i : nat) (delta : Z) (r : MetricsRegistry) : MetricsRegistry :=
  mkRegistry (entries_ r) (frozen_ r) (owned_counters_ r) (alter (λ v, s64 (v + delta)) i (owned_gauges_ r)).
Definition gauge_decrement (i : nat) (delta : Z) (r : MetricsRegistry) : MetricsRegistry :=
  mkRegistry (entries_ r) (frozen_ r) (owned_counters_ r) (alter (λ v, s64 (v - delta)) i (owned_gauges_ r)).
Definition gauge_set (i : nat) (v : Z) (r : MetricsRegistry) : MetricsRegistry :=
  mkRegistry (entries_ r) (frozen_ r) (owned_counters_ r) (alter (λ _, v) i (owned_gauges_ r)).

(** ** The text *)

Definition show_int (n : Z) : bytes := if n <? 0 then 45 :: to_text (- n) else to_text n.

Definition escape_char (c : Z) : bytes := if c =? 92 then [92; 92] else if c =? 34 then [92; 34] else if c =? 10 then [92; 110] else [c].
Definition escape_label_value (value : bytes) : bytes := value ≫= escape_char.

Definition format_label (l : bytes * bytes) : bytes := l.1 ++ [61; 34] ++ escape_label_value l.2 ++ [34].
Fixpoint format_pairs (l : Labels) : bytes :=
  match l with [] => [] | [x] => format_label x | x :: l => format_label x ++ [44] ++ format_pairs l end.
Definition format_labels (l : Labels) : bytes := match l with [] => [] | _ => [123] ++ format_pairs l ++ [125] end.

(** A scrape reads the atomics and calls the functions, which may throw. *)
Section Scrape.
Context (atomic_load : Z -> Z) (call : Z -> option Z).

Definition value_of (r : MetricsRegistry) (s : ValueSource) : Z :=
  match s with
  | OwnedCounter i => owned_counters_ r !!! i
  | ExternalAtomic a => atomic_load a
  | OwnedGauge i => owned_gauges_ r !!! i
  | Function_ f => default 0 (call f)
  end.

Definition type_name (t : MetricType) : bytes := match t with COUNTER => bytes_of "counter" | GAUGE => bytes_of "gauge" end.
Definition format_help (e : MetricEntry) : bytes :=
  bytes_of "# HELP " ++ name e ++ [32] ++ help e ++ [10] ++ bytes_of "# TYPE " ++ name e ++ [32] ++ type_name (type e) ++ [10].
Definition format_sample (r : MetricsRegistry) (e : MetricEntry) : bytes := name e ++ format_labels (labels e) ++ [32] ++ show_int (value_of r (source e)) ++ [10].

Fixpoint serialize_entries (r : MetricsRegistry) (es : list MetricEntry) (emitted_names : gset bytes) : bytes :=
  match es with
  | [] => []
  | e :: es =>
      (if decide (name e ∈ emitted_names) then [] else format_help e) ++ format_sample r e ++ serialize_entries r es (emitted_names ∪ {[name e]})
  end.
Definition serialize (r : MetricsRegistry) : bytes := serialize_entries r (entries_ r) ∅.

(** ** Requests *)

Inductive verb : Type := get | post | other_verb.
#[global] Instance verb_eq_dec : EqDecision verb.
Proof. solve_decision. Defined.

Record HttpResponse : Type := mkResponse { status_code : Z; content_type : bytes; body : bytes }.

(** [MetricsHttpServer::handle_request]. *)
Definition handle_metrics_request (r : MetricsRegistry) (running : bool) (method : verb) (target : bytes) : HttpResponse :=
  if decide (method = get /\ target = bytes_of "/metrics") then mkResponse 200 (bytes_of "text/plain; version=0.0.4; charset=utf-8") (serialize r)
  else if decide (method = get /\ target = bytes_of "/health") then mkResponse 200 (bytes_of "text/plain") (bytes_of "OK" ++ [10])
  else if decide (method = get /\ target = bytes_of "/ready") then
    if running then mkResponse 200 (bytes_of "text/plain") (bytes_of "READY" ++ [10]) else mkResponse 503 (bytes_of "text/plain") (bytes_of "NOT READY" ++ [10])
  else mkResponse 404 (bytes_of "text/plain") (bytes_of "Not Found" ++ [10]).

End Scrape.

(** [string_view::find] of a non-empty string: what is before it and what is after. *)
Fixpoint strip_prefix (p s : bytes) : option bytes :=
  match p, s with
  | [], s => Some s
  | c :: p, d :: s => if c =? d then strip_prefix p s else None
  | _ :: _, [] => None
  end.
Fixpoint find (p s : bytes) : option (bytes * bytes) :=
  match strip_prefix p s with
  | Some rest => Some ([], rest)
  | None => match s with [] => None | c :: s => match find p s with Some (a, b) => Some (c :: a, b) | None => None end end
  end.

(** [AdminHttpServer::parse_query_param]. *)
Definition before (sep : Z) (s : bytes) : bytes := match split_at sep s with w :: _ => w | [] => [] end.
Definition parse_query_param (query key : bytes) : bytes :=
  match find (key ++ [61]) query with
  | None => []
  | Some (pre, rest) => match last pre with Some c => if c =? 38 then before 38 rest else [] | None => before 38 rest end
  end.

Section Admin.
(** [spdlog::level::to_string_view] and [from_str], which gives [off] for what it does
    not know. *)
Context {level : Type} `{!EqDecision level} (level_name : level -> bytes) (from_str : bytes -> level) (off : level).

Definition loggers : Type := gmap bytes level.
Definition json (parts : list bytes) : bytes := concat parts.
Definition admin_json (code : Z) (parts : list bytes) : HttpResponse := mkResponse code (bytes_of "application/json") (json parts).
(** A double quote, and text between double quotes. *)
Definition quoted (s : bytes) : bytes := [34] ++ s ++ [34].
Definition error_body (msg : list bytes) : list bytes := [[123]; quoted (bytes_of "error"); [58; 34]] ++ msg ++ [[34]; [125]].

Definition log_level_get (query : bytes) (ls : loggers) : HttpResponse :=
  match parse_query_param query (bytes_of "logger") with
  | [] =>
      let one n := match ls !! bytes_of n with Some l => [quoted (bytes_of n) ++ [58] ++ quoted (level_name l)] | None => [] end in
      let items := one "apex" ++ one "app" in
      admin_json 200 [[123]; match items with [] => [] | [a] => a | a :: b => a ++ [44] ++ concat b end; [125]]
  | logger_name =>
      match ls !! logger_name with
      | None => admin_json 400 (error_body [bytes_of "unknown logger: "; logger_name])
      | Some l => admin_json 200 [[123]; quoted (bytes_of "logger"); [58]; quoted logger_name; [44]; quoted (bytes_of "level"); [58]; quoted (level_name l); [125]]
      end
  end.

Definition log_level_post (query : bytes) (ls : loggers) : HttpResponse * loggers :=
  let logger_name := parse_query_param query (bytes_of "logger") in
  let level_str := parse_query_param query (bytes_of "level") in
  match logger_name, level_str with
  | [], _ => (admin_json 400 (error_body [bytes_of "missing 'logger' parameter (apex or app)"]), ls)
  | _, [] => (admin_json 400 (error_body [bytes_of "missing 'level' parameter (trace/debug/info/warn/error/critical)"]), ls)
  | _, _ =>
      match ls !! logger_name with
      | None => (admin_json 400 (error_body [bytes_of "unknown logger: "; logger_name]), ls)
      | Some previous =>
          let new_level := from_str level_str in
          if bool_decide (new_level = off) && negb (bool_decide (level_str = bytes_of "off")) then (admin_json 400 (error_body [bytes_of "invalid level: "; level_str]), ls)
          else
            (admin_json 200 [[123]; quoted (bytes_of "logger"); [58]; quoted logger_name; [44]; quoted (bytes_of "level"); [58]; quoted level_str; [44];
               quoted (bytes_of "previous"); [58]; quoted (level_name previous); [125]], <[logger_name := new_level]> ls)
      end
  end.

(** [AdminHttpServer::handle_request]. *)
Definition handle_admin_request (method : verb) (target : bytes) (ls : loggers) : HttpResponse * loggers :=
  let '(path, query) := match find [63] target with Some (path, query) => (path, query) | None => (target, []) end in
  if decide (path = bytes_of "/admin/log-level") then
    match method with
    | get => (log_level_get query ls, ls)
    | post => log_level_post query ls
    | other_verb => (admin_json 405 (error_body [bytes_of "method not allowed, use GET or POST"]), ls)
    end
  else (admin_json 404 (error_body [bytes_of "not found"]), ls).

End Admin.
End Metrics.
Import Metrics.

(** ** A reader of the text

    A reader of the exposition format: every line is empty, a comment, the type of a
    metric, which comes once and before its samples, or a sample. The format asks besides
    that the lines of a metric are in one group, which not every reader insists on. *)

Definition is_name_char (c : Z) : bool := ((97 <=? c) && (c <=? 122)) || ((65 <=? c) && (c <=? 90)) || is_digit c || (c =? 95) || (c =? 58).
Definition valid_name (s : bytes) : Prop := s <> [] /\ Forall (λ c, is_name_char c = true) s.

Fixpoint read_name (s : bytes) : bytes * bytes :=
  match s with
  | [] => ([], [])
  | c :: s' => if is_name_char c then let '(w, rest) := read_name s' in (c :: w, rest) else ([], s)
  end.

(** A label's value up to the quote that closes it. *)
Fixpoint read_quoted (s : bytes) : option (bytes * bytes) :=
  match s with
  | [] => None
  | c :: s =>
      if c =? 34 then Some ([], s)
      else if c =? 92 then
        match s with
        | [] => None
        | d :: s => match read_quoted s with Some (w, rest) => Some ((if d =? 110 then 10 else d) :: w, rest) | None => None end
        end
      else match read_quoted s with Some (w, rest) => Some (c :: w, rest) | None => None end
  end.

Fixpoint read_pairs (fuel : nat) (s : bytes) : option (Labels * bytes) :=
  match fuel with
  | O => None
  | S fuel =>
      let '(n, s) := read_name s in
      match s with
      | 61 :: 34 :: s =>
          match read_quoted s with
          | Some (v, 44 :: s) => match read_pairs fuel s with Some (l, rest) => Some ((n, v) :: l, rest) | None => None end
          | Some (v, 125 :: s) => Some ([(n, v)], s)
          | _ => None
          end
      | _ => None
      end
  end.

Definition read_nat (s : bytes) : option Z := if forallb is_digit s && negb (bool_decide (s = [])) then Some (digits_value s) else None.
Definition read_int (s : bytes) : option Z := match s with 45 :: s => Z.opp <$> read_nat s | _ => read_nat s end.

Definition read_sample (s : bytes) : option (bytes * Labels * Z) :=
  let '(n, s) := read_name s in
  let labelled := match s with 123 :: s => read_pairs (length s) s | _ => Some ([], s) end in
  match labelled with Some (l, 32 :: s) => (λ v, (n, l, v)) <$> read_int s | _ => None end.

Definition read_type (s : bytes) : option MetricType :=
  if decide (s = bytes_of "counter") then Some COUNTER else if decide (s = bytes_of "gauge") then Some GAUGE else None.

Abbreviation types := (gmap bytes MetricType).
Definition sample : Type := bytes * MetricType * Labels * Z.

Definition read_line (ts : types) (s : bytes) : option (types * list sample) :=
  match s with
  | [] => Some (ts, [])
  | 35 :: _ =>
      match strip_prefix (bytes_of "# TYPE ") s with
      | None => Some (ts, [])
      | Some s =>
          match read_name s with
          | (n, 32 :: s) => match ts !! n, read_type s with None, Some t => Some (<[n := t]> ts, []) | _, _ => None end
          | _ => None
          end
      end
  | _ => match read_sample s with Some (n, l, v) => (λ t, (ts, [(n, t, l, v)])) <$> ts !! n | None => None end
  end.

Fixpoint read_lines (ts : types) (lines : list bytes) : option (list sample) :=
  match lines with
  | [] => Some []
  | line :: lines =>
      match read_line ts line with
      | None => None
      | Some (ts, new) => match read_lines ts lines with Some rest => Some (new ++ rest) | None => None end
      end
  end.
Definition read_metrics (s : bytes) : option (list sample) := read_lines ∅ (split_at 10 s).

(** The names of a list come in groups, each name in one. *)
Fixpoint grouped (current : option bytes) (seen : gset bytes) (names : list bytes) : bool :=
  match names with
  | [] => true
  | n :: names => if decide (current = Some n) then grouped current seen names else if decide (n ∈ seen) then false else grouped (Some n) ({[n]} ∪ seen) names
  end.
Definition one_group (names : list bytes) : bool := grouped None ∅ names.

(** The reader that insists. *)
Definition read_strictly (s : bytes) : option (list sample) :=
  match read_metrics s with
  | Some samples => if one_group ((λ x : sample, x.1.1.1) <$> samples) then Some samples else None
  | None => None
  end.

(** What the servers register: names as Prometheus has them, help on one line, one type
    for one name. *)
Definition valid_entry (e : MetricEntry) : Prop := valid_name (name e) /\ (10 ∉ help e) /\ Forall (λ l, valid_name l.1) (labels e).
Definition one_type (es : list MetricEntry) : Prop := forall e e', e ∈ es -> e' ∈ es -> name e = name e' -> type e = type e'.

Definition sample_of (atomic_load : Z -> Z) (call : Z -> option Z) (r : MetricsRegistry) (e : MetricEntry) : sample :=
  (name e, type e, labels e, value_of atomic_load call r (source e)).

(** ** Lemmas on the reader *)

Lemma read_name_app w rest : Forall (λ c, is_name_char c = true) w -> (forall c s, rest = c :: s -> is_name_char c = false) -> read_name (w ++ rest) = (w, rest).
Proof.
  intros Hw Hrest. induction Hw as [| c w Hc _ IH]; cbn; [| by rewrite Hc, IH].
  destruct rest as [| c s]; [done |]. cbn. by rewrite (Hrest c s eq_refl).
Qed.

Lemma read_quoted_escape v rest : read_quoted (escape_label_value v ++ 34 :: rest) = Some (v, rest).
Proof.
  induction v as [| c v IH]; [done |]. unfold escape_label_value in *. rewrite bind_cons, <- app_assoc. unfold escape_char at 1.
  destruct (Z.eqb_spec c 92) as [-> |]; [cbn; by rewrite IH |]. destruct (Z.eqb_spec c 34) as [-> |]; [cbn; by rewrite IH |].
  destruct (Z.eqb_spec c 10) as [-> |]; [cbn; by rewrite IH |]. cbn.
  rewrite (proj2 (Z.eqb_neq c 34)), (proj2 (Z.eqb_neq c 92)) by done. by rewrite IH.
Qed.

Lemma read_label x s : valid_name x.1 ->
  exists t, read_name (format_label x ++ s) = (x.1, 61 :: 34 :: t) /\ read_quoted t = Some (x.2, s).
Proof.
  intros [_ Hx]. exists (escape_label_value x.2 ++ 34 :: s). split; [| apply read_quoted_escape].
  unfold format_label. rewrite <- !app_assoc. cbn. apply read_name_app; [done |]. by intros ? ? [= <- _].
Qed.

Lemma read_pairs_format l fuel rest : l <> [] -> Forall (λ x, valid_name x.1) l -> (length l <= fuel)%nat ->
  read_pairs fuel (format_pairs l ++ 125 :: rest) = Some (l, rest).
Proof.
  revert fuel. induction l as [| x l IH]; intros fuel Hne Hl Hf; [done |]. apply Forall_cons in Hl as [Hx Hl].
  destruct fuel as [| fuel]; [cbn in Hf; lia |]. destruct l as [| y l].
  - destruct (read_label x (125 :: rest) Hx) as (t & E & Eq). cbn [format_pairs read_pairs]. rewrite E, Eq. by destruct x.
  - change (format_pairs (x :: y :: l)) with (format_label x ++ [44] ++ format_pairs (y :: l)). rewrite <- !app_assoc.
    destruct (read_label x ([44] ++ format_pairs (y :: l) ++ 125 :: rest) Hx) as (t & E & Eq). cbn [read_pairs]. rewrite E, Eq. cbn [app].
    rewrite IH by (done || cbn in *; lia). by destruct x.
Qed.

Lemma length_format_pairs l : (length l <= length (format_pairs l))%nat.
Proof.
  induction l as [| x [| y l] IH]; [done | cbn [format_pairs]; unfold format_label; rewrite !length_app; cbn; lia |].
  change (format_pairs (x :: y :: l)) with (format_label x ++ [44] ++ format_pairs (y :: l)). rewrite !length_app. cbn [length] in *. lia.
Qed.

Lemma read_nat_to_text n : 0 <= n -> read_nat (to_text n) = Some n.
Proof.
  intros Hn. destruct (to_text_digits n Hn) as (Hd & Hv & Hne). unfold read_nat. rewrite Hv, bool_decide_false by done.
  assert (forallb is_digit (to_text n) = true) as -> by (apply forallb_forall; intros c Hc%list_elem_of_In; rewrite Forall_forall in Hd; by apply Hd). done.
Qed.

Lemma read_int_show v : read_int (show_int v) = Some v.
Proof.
  unfold show_int. destruct (Z.ltb_spec v 0).
  - cbn. rewrite read_nat_to_text by lia. cbn. f_equal. lia.
  - pose proof (read_nat_to_text v ltac:(lia)) as E. destruct (to_text_digits v) as (Hd & _ & _); [lia |].
    destruct Hd as [| c s Hc _]; [done |]. unfold read_int. unfold is_digit in Hc. by repeat case_match; subst.
Qed.

Lemma name_avoids c s : is_name_char c = false -> Forall (λ c, is_name_char c = true) s -> (c ∉ s).
Proof. intros Hc Hs Hin. rewrite Forall_forall in Hs. specialize (Hs c Hin). cbn in Hs. congruence. Qed.

Lemma escape_one_line v : 10 ∉ escape_label_value v.
Proof.
  unfold escape_label_value. rewrite list_elem_of_bind. intros (c & Hin & _). revert Hin. unfold escape_char.
  destruct (Z.eqb_spec c 92), (Z.eqb_spec c 34), (Z.eqb_spec c 10); rewrite ?elem_of_cons; set_solver.
Qed.

Lemma pairs_one_line l : Forall (λ x, valid_name x.1) l -> 10 ∉ format_pairs l.
Proof.
  assert (forall x : bytes * bytes, valid_name x.1 -> 10 ∉ format_label x) as Hone.
  { intros x [_ Hx]. unfold format_label. rewrite !elem_of_app. pose proof (escape_one_line x.2). pose proof (name_avoids 10 _ eq_refl Hx). set_solver. }
  induction 1 as [| x [| y l] Hx _ IH]; [by intros ?%elem_of_nil | by apply Hone |].
  change (format_pairs (x :: y :: l)) with (format_label x ++ [44] ++ format_pairs (y :: l)). rewrite !elem_of_app. specialize (Hone x Hx). set_solver.
Qed.

Lemma labels_one_line l : Forall (λ x, valid_name x.1) l -> 10 ∉ format_labels l.
Proof. intros Hl%pairs_one_line. unfold format_labels. destruct l; [by intros ?%elem_of_nil |]. rewrite !elem_of_app. set_solver. Qed.

Lemma show_int_one_line v : 10 ∉ show_int v.
Proof.
  unfold show_int. destruct (Z.ltb_spec v 0).
  - apply not_elem_of_cons. split; [done |]. by apply digits_avoid, to_text_digits; [done | lia].
  - by apply digits_avoid, to_text_digits.
Qed.

Lemma read_sample_format n l v : valid_name n -> Forall (λ x, valid_name x.1) l ->
  read_sample (n ++ format_labels l ++ [32] ++ show_int v) = Some (n, l, v).
Proof.
  intros [_ Hn] Hl. unfold read_sample. rewrite (read_name_app n).
  - destruct l as [| x l]; [cbn; by rewrite read_int_show |]. cbn [format_labels]. rewrite <- !app_assoc. cbn [app].
    rewrite read_pairs_format; [by rewrite read_int_show | done | done |]. rewrite length_app. pose proof (length_format_pairs (x :: l)). lia.
  - done.
  - by destruct l; intros ? ? [= <- _].
Qed.

Lemma read_type_name t : read_type (type_name t) = Some t.
Proof. by destruct t. Qed.

Lemma strip_prefix_app p s : strip_prefix p (p ++ s) = Some s.
Proof. induction p as [| c p IH]; cbn; [done |]. by rewrite Z.eqb_refl. Qed.

(** ** The scrape *)

Section Scraped.
Context (atomic_load : Z -> Z) (call : Z -> option Z) (r : MetricsRegistry).

Lemma help_lines e s : valid_entry e ->
  split_at 10 (format_help e ++ s) = (bytes_of "# HELP " ++ name e ++ [32] ++ help e) :: (bytes_of "# TYPE " ++ name e ++ [32] ++ type_name (type e)) :: split_at 10 s.
Proof.
  intros ([_ Hn] & Hh & _). pose proof (name_avoids 10 _ eq_refl Hn) as Hn10. unfold format_help.
  transitivity (split_at 10 ((bytes_of "# HELP " ++ name e ++ [32] ++ help e) ++ 10 :: (bytes_of "# TYPE " ++ name e ++ [32] ++ type_name (type e)) ++ 10 :: s)).
  { f_equal. by rewrite <- !app_assoc. }
  rewrite split_at_app, split_at_app; [done | |]; rewrite !not_elem_of_app; split_and!; try done; try (by rewrite list_elem_of_singleton).
  - by apply text_avoids.
  - by apply text_avoids; destruct (type e).
  - by apply text_avoids.
Qed.

Lemma sample_line e s : valid_entry e ->
  split_at 10 (format_sample atomic_load call r e ++ s) =
  (name e ++ format_labels (labels e) ++ [32] ++ show_int (value_of atomic_load call r (source e))) :: split_at 10 s.
Proof.
  intros ([_ Hn] & _ & Hl). pose proof (name_avoids 10 _ eq_refl Hn) as Hn10. unfold format_sample.
  rewrite <- !app_assoc. rewrite (app_assoc [32]), (app_assoc (format_labels _)), (app_assoc (name e)). cbn [app]. rewrite split_at_app; [done |].
  rewrite !not_elem_of_app, not_elem_of_cons. split_and!; [done | by apply labels_one_line | done | apply show_int_one_line].
Qed.

Lemma read_sample_line ts e t : valid_entry e -> ts !! name e = Some t ->
  read_line ts (name e ++ format_labels (labels e) ++ [32] ++ show_int (value_of atomic_load call r (source e))) =
  Some (ts, [(name e, t, labels e, value_of atomic_load call r (source e))]).
Proof.
  intros (Hname & _ & Hl) Ht. pose proof (read_sample_format (name e) (labels e) (value_of atomic_load call r (source e)) Hname Hl) as E.
  destruct Hname as [Hne Hn]. destruct (name e) as [| c n] eqn:Ename; [done |]. apply Forall_cons in Hn as [Hc _]. cbn [app] in *. unfold read_line.
  rewrite E, Ht. cbn. destruct c as [| p | p]; [done | | done]. by repeat (destruct p as [p | p |]; try done).
Qed.

Lemma read_type_line ts e : valid_name (name e) -> ts !! name e = None ->
  read_line ts (bytes_of "# TYPE " ++ name e ++ [32] ++ type_name (type e)) = Some (<[name e := type e]> ts, []).
Proof.
  intros [_ Hn] Ht. unfold read_line. change (bytes_of "# TYPE ") with ([35] ++ bytes_of " TYPE ") at 1. cbn [app].
  change (35 :: bytes_of " TYPE " ++ name e ++ 32 :: type_name (type e)) with (bytes_of "# TYPE " ++ name e ++ 32 :: type_name (type e)). rewrite strip_prefix_app, (read_name_app (name e)); [| done | by intros ? ? [= <- _]].
  cbn [app]. by rewrite Ht, read_type_name.
Qed.

Lemma read_entries es ts emitted : Forall valid_entry es -> one_type es -> dom ts = emitted -> (forall e t, e ∈ es -> ts !! name e = Some t -> t = type e) ->
  read_lines ts (split_at 10 (serialize_entries atomic_load call r es emitted)) = Some (sample_of atomic_load call r <$> es).
Proof.
  intros Hes. revert ts emitted. induction Hes as [| e es He _ IH]; intros ts emitted Hone <- Hts; [done |]. cbn [serialize_entries].
  assert (forall e1 e2, e1 ∈ es -> e2 ∈ es -> name e1 = name e2 -> type e1 = type e2) as Hone' by (intros; apply Hone; [by apply list_elem_of_further.. | done]).
  assert (forall ts', ts' !! name e = Some (type e) -> dom ts' = dom ts ∪ {[name e]} -> (forall e' t, e' ∈ es -> ts' !! name e' = Some t -> t = type e') ->
    read_lines ts' (split_at 10 (format_sample atomic_load call r e ++ serialize_entries atomic_load call r es (dom ts ∪ {[name e]}))) =
    Some (sample_of atomic_load call r <$> e :: es)) as Hrest.
  { intros ts' Ht Hdom Hts'. rewrite sample_line by done. cbn [read_lines]. rewrite (read_sample_line ts' e (type e)) by done. by rewrite (IH ts') by done. }
  case_decide as Hin; cbn [app].
  - apply elem_of_dom in Hin as [t Ht]. assert (t = type e) as -> by (apply (Hts e); [apply list_elem_of_here | done]).
    apply Hrest; [done | | intros e' t Hin'; apply Hts; by apply list_elem_of_further]. apply elem_of_dom_2 in Ht. set_solver.
  - apply not_elem_of_dom in Hin. rewrite help_lines by done. cbn [read_lines]. change (read_line ts (bytes_of "# HELP " ++ ?x)) with (Some (ts, @nil sample)).
    cbn [app]. rewrite read_type_line by (done || apply He). cbn [app]. rewrite Hrest; [done | apply lookup_insert_eq | by rewrite dom_insert_L, union_comm_L |].
    intros e' t Hin'. destruct (decide (name e' = name e)) as [E | Hne].
    + rewrite E, lookup_insert_eq. intros [= <-]. apply Hone; [apply list_elem_of_here | by apply list_elem_of_further | done].
    + rewrite lookup_insert_ne by done. apply Hts. by apply list_elem_of_further.
Qed.
End Scraped.

(** ** The life of a registry *)

(** What its users do: registrations, and the operations of the counters and gauges that
    these return. *)
Inductive registry_op : Type :=
| RegisterCounter (n h : bytes) (l : Labels)
| RegisterGauge (n h : bytes) (l : Labels)
| RegisterAtomic (n h : bytes) (l : Labels) (a : Z)
| RegisterFunction (n h : bytes) (l : Labels) (f : Z)
| Freeze
| CounterIncrement (i : nat) (delta : Z)
| GaugeIncrement (i : nat) (delta : Z)
| GaugeDecrement (i : nat) (delta : Z)
| GaugeSet (i : nat) (v : Z).

Definition apply_op (r : MetricsRegistry) (o : registry_op) : MetricsRegistry :=
  match o with
  | RegisterCounter n h l => (counter n h l r).2
  | RegisterGauge n h l => (gauge n h l r).2
  | RegisterAtomic n h l a => counter_from n h l a r
  | RegisterFunction n h l f => gauge_fn n h l f r
  | Freeze => freeze r
  | CounterIncrement i delta => counter_increment i delta r
  | GaugeIncrement i delta => gauge_increment i delta r
  | GaugeDecrement i delta => gauge_decrement i delta r
  | GaugeSet i v => gauge_set i v r
  end.
Definition apply_ops (ops : list registry_op) : MetricsRegistry := foldl apply_op make_registry ops.

(** The reference: the metrics registered, in order, each numbered among its kind; the
    sum of what was added to a counter; and what was last set, added and taken at a
    gauge. *)
Inductive metric : Type := mkMetric (n : bytes) (t : MetricType) (l : Labels) (s : ValueSource).
Fixpoint registered (ops : list registry_op) (counters gauges : nat) : list metric :=
  match ops with
  | [] => []
  | RegisterCounter n _ l :: ops => mkMetric n COUNTER l (OwnedCounter counters) :: registered ops (S counters) gauges
  | RegisterGauge n _ l :: ops => mkMetric n GAUGE l (OwnedGauge gauges) :: registered ops counters (S gauges)
  | RegisterAtomic n _ l a :: ops => mkMetric n COUNTER l (ExternalAtomic a) :: registered ops counters gauges
  | RegisterFunction n _ l f :: ops => mkMetric n GAUGE l (Function_ f) :: registered ops counters gauges
  | _ :: ops => registered ops counters gauges
  end.
Fixpoint counted (i : nat) (ops : list registry_op) : Z :=
  match ops with
  | [] => 0
  | CounterIncrement j delta :: ops => (if decide (i = j) then delta else 0) + counted i ops
  | _ :: ops => counted i ops
  end.
Fixpoint gauged (i : nat) (v : Z) (ops : list registry_op) : Z :=
  match ops with
  | [] => v
  | GaugeIncrement j delta :: ops => gauged i (if decide (i = j) then v + delta else v) ops
  | GaugeDecrement j delta :: ops => gauged i (if decide (i = j) then v - delta else v) ops
  | GaugeSet j x :: ops => gauged i (if decide (i = j) then x else v) ops
  | _ :: ops => gauged i v ops
  end.

(** Only counters and gauges that were registered are used, with deltas of their type. *)
Fixpoint used_when_made (ops : list registry_op) (counters gauges : nat) : Prop :=
  match ops with
  | [] => True
  | RegisterCounter _ _ _ :: ops => used_when_made ops (S counters) gauges
  | RegisterGauge _ _ _ :: ops => used_when_made ops counters (S gauges)
  | CounterIncrement i _ :: ops => (i < counters)%nat /\ used_when_made ops counters gauges
  | GaugeIncrement i _ :: ops | GaugeDecrement i _ :: ops => (i < gauges)%nat /\ used_when_made ops counters gauges
  | GaugeSet i v :: ops => (i < gauges)%nat /\ - 2 ^ 63 <= v < 2 ^ 63 /\ used_when_made ops counters gauges
  | _ :: ops => used_when_made ops counters gauges
  end.

Fixpoint valid_ops (ops : list registry_op) : Prop :=
  match ops with
  | [] => True
  | RegisterCounter n h l :: ops | RegisterGauge n h l :: ops | RegisterAtomic n h l _ :: ops | RegisterFunction n h l _ :: ops =>
      valid_name n /\ (10 ∉ h) /\ Forall (λ x, valid_name x.1) l /\ valid_ops ops
  | _ :: ops => valid_ops ops
  end.

(** No metric is registered once the registry is frozen, which a debug build asserts. *)
Fixpoint registers_first (frozen : bool) (ops : list registry_op) : Prop :=
  match ops with
  | [] => True
  | Freeze :: ops => registers_first true ops
  | (RegisterCounter _ _ _ | RegisterGauge _ _ _ | RegisterAtomic _ _ _ _ | RegisterFunction _ _ _ _) :: ops => frozen = false /\ registers_first frozen ops
  | _ :: ops => registers_first frozen ops
  end.

Definition metric_name (m : metric) : bytes := let 'mkMetric n _ _ _ := m in n.

Definition metric_of (e : MetricEntry) : metric := mkMetric (name e) (type e) (labels e) (source e).

Section Life.
Context (atomic_load : Z -> Z) (call : Z -> option Z).

Definition spec_value (ops : list registry_op) (s : ValueSource) : Z :=
  match s with
  | OwnedCounter i => u64 (counted i ops)
  | ExternalAtomic a => atomic_load a
  | OwnedGauge i => s64 (gauged i 0 ops)
  | Function_ f => default 0 (call f)
  end.
Definition spec_sample (ops : list registry_op) (m : metric) : sample := let 'mkMetric n t l s := m in (n, t, l, spec_value ops s).

Lemma s64_add_l x y : s64 (s64 x + y) = s64 (x + y).
Proof. unfold s64. f_equal. replace (u64 (x + 2 ^ 63) - 2 ^ 63 + y + 2 ^ 63) with (u64 (x + 2 ^ 63) + y) by lia. rewrite wrap_add_l. f_equal. lia. Qed.
Lemma s64_sub_l x y : s64 (s64 x - y) = s64 (x - y).
Proof. rewrite <- !Z.add_opp_r. apply s64_add_l. Qed.
Lemma s64_range x : - 2 ^ 63 <= s64 x < 2 ^ 63.
Proof. unfold s64. pose proof (wrap_range 64 (x + 2 ^ 63) ltac:(lia)) as Hr. unfold in_width in Hr. lia. Qed.
Lemma s64_idem x : s64 (s64 x) = s64 x.
Proof. pose proof (s64_add_l x 0) as E. by rewrite !Z.add_0_r in E. Qed.
Lemma s64_small x : - 2 ^ 63 <= x < 2 ^ 63 -> s64 x = x.
Proof. intros Hx. unfold s64. rewrite wrap_small by (unfold in_width; lia). lia. Qed.

(** The registry after some operations, from any state. *)
Lemma entries_after ops r : metric_of <$> entries_ (foldl apply_op r ops) = (metric_of <$> entries_ r) ++ registered ops (length (owned_counters_ r)) (length (owned_gauges_ r)).
Proof.
  revert r. induction ops as [| o ops IH]; intros r; [by rewrite app_nil_r |]. cbn [foldl]. rewrite IH.
  destruct o; cbn -[fmap]; rewrite ?fmap_app, ?length_app, ?length_alter, <- ?app_assoc; cbn [fmap list_fmap app length]; rewrite ?Nat.add_1_r; done.
Qed.

Lemma counters_after ops r i : used_when_made ops (length (owned_counters_ r)) (length (owned_gauges_ r)) -> (i < length (owned_counters_ (foldl apply_op r ops)))%nat ->
  u64 (owned_counters_ (foldl apply_op r ops) !!! i) = u64 (default 0 (owned_counters_ r !! i) + counted i ops).
Proof.
  revert r. induction ops as [| o ops IH]; intros r Hu Hi.
  { cbn in *. apply lookup_lt_is_Some in Hi as [v Hv]. by rewrite (list_lookup_total_correct _ _ _ Hv), Hv, Z.add_0_r. }
  cbn [foldl] in *. rewrite IH; [| | done].
  - destruct o; cbn -[decide] in *; try done.
    + destruct (decide (i < length (owned_counters_ r))%nat); [by rewrite lookup_app_l |]. rewrite lookup_app_r, (lookup_ge_None_2 (owned_counters_ r)) by lia.
      destruct (i - length (owned_counters_ r))%nat; done.
    + case_decide as E.
      * subst i0. destruct Hu as [Hlt _]. apply lookup_lt_is_Some in Hlt as [v Hv]. rewrite list_lookup_alter_eq, Hv. cbn. rewrite wrap_add_l. f_equal. lia.
      * rewrite list_lookup_alter_ne by done. done.
  - destruct o; cbn in *; rewrite ?length_app, ?length_alter; cbn; rewrite ?Nat.add_1_r; naive_solver.
Qed.

Lemma gauged_s64 i ops v w : s64 v = s64 w -> s64 (gauged i v ops) = s64 (gauged i w ops).
Proof.
  revert v w. induction ops as [| o ops IH]; intros v w E; [done |]. destruct o; cbn -[decide]; try (by apply IH); case_decide; apply IH; try done.
  - by rewrite <- s64_add_l, E, s64_add_l.
  - by rewrite <- s64_sub_l, E, s64_sub_l.
Qed.

Lemma gauges_after ops r i : used_when_made ops (length (owned_counters_ r)) (length (owned_gauges_ r)) -> (i < length (owned_gauges_ (foldl apply_op r ops)))%nat ->
  s64 (owned_gauges_ (foldl apply_op r ops) !!! i) = s64 (gauged i (default 0 (owned_gauges_ r !! i)) ops).
Proof.
  assert (forall f (l : list Z) j, (j < length l)%nat -> default 0 (alter f j l !! i) = if decide (i = j) then f (default 0 (l !! i)) else default 0 (l !! i)) as Halter.
  { intros f l j [v Hv]%lookup_lt_is_Some. case_decide as E; [subst j; by rewrite list_lookup_alter_eq, Hv | by rewrite list_lookup_alter_ne]. }
  revert r. induction ops as [| o ops IH]; intros r Hu Hi.
  { cbn in *. apply lookup_lt_is_Some in Hi as [v Hv]. by rewrite (list_lookup_total_correct _ _ _ Hv), Hv. }
  cbn [foldl] in *. rewrite IH; [| | done].
  - destruct o; cbn -[decide] in *; try done; rewrite ?Halter by (by destruct Hu); try (apply gauged_s64; case_decide; try done; by rewrite s64_idem).
    destruct (decide (i < length (owned_gauges_ r))%nat); [by rewrite lookup_app_l |]. rewrite lookup_app_r, (lookup_ge_None_2 (owned_gauges_ r)) by lia.
    destruct (i - length (owned_gauges_ r))%nat; done.
  - destruct o; cbn in *; rewrite ?length_app, ?length_alter; cbn; rewrite ?Nat.add_1_r; naive_solver.
Qed.

Definition in_type (r : MetricsRegistry) : Prop := Forall (in_width 64) (owned_counters_ r) /\ Forall (λ v, - 2 ^ 63 <= v < 2 ^ 63) (owned_gauges_ r).

Lemma in_type_after ops r : used_when_made ops (length (owned_counters_ r)) (length (owned_gauges_ r)) -> in_type r -> in_type (foldl apply_op r ops).
Proof.
  revert r. induction ops as [| o ops IH]; intros r Hu [Hc Hg]; [done |]. cbn [foldl]. apply IH.
  - destruct o; cbn in *; rewrite ?length_app, ?length_alter; cbn; rewrite ?Nat.add_1_r; naive_solver.
  - split; destruct o; cbn in *; try done; rewrite ?Forall_app; try (split; [done | by repeat constructor]); apply Forall_alter; try done; intros x _ _;
      try (by apply wrap_range); try (by apply s64_range). lia.
Qed.

(** Owned sources are in the registry. *)
Lemma registered_sources ops r m : m ∈ registered ops (length (owned_counters_ r)) (length (owned_gauges_ r)) ->
  match m with
  | mkMetric _ _ _ (OwnedCounter i) => (i < length (owned_counters_ (foldl apply_op r ops)))%nat
  | mkMetric _ _ _ (OwnedGauge i) => (i < length (owned_gauges_ (foldl apply_op r ops)))%nat
  | _ => True
  end.
Proof.
  assert (forall ops r, (length (owned_counters_ r) <= length (owned_counters_ (foldl apply_op r ops)))%nat /\ (length (owned_gauges_ r) <= length (owned_gauges_ (foldl apply_op r ops)))%nat) as Hmono.
  { clear. induction ops as [| o ops IH]; intros r; [done |]. cbn [foldl]. destruct (IH (apply_op r o)) as [H1 H2].
    split; (etransitivity; [| done]); clear; destruct o; cbn; rewrite ?length_app, ?length_alter; lia. }
  revert r. induction ops as [| o ops IH]; intros r Hm; [by apply elem_of_nil in Hm |]. cbn [foldl].
  destruct o; cbn in Hm; try (apply elem_of_cons in Hm as [-> | Hm]); try done;
    try (apply (IH (apply_op r _)); cbn; rewrite ?length_app, ?length_alter; cbn; by rewrite ?Nat.add_1_r).
  - destruct (Hmono ops (apply_op r (RegisterCounter n h l))) as [H1 _]. cbn [apply_op counter snd owned_counters_] in *. rewrite length_app in H1. cbn in H1. lia.
  - destruct (Hmono ops (apply_op r (RegisterGauge n h l))) as [_ H1]. cbn [apply_op gauge snd owned_gauges_] in *. rewrite length_app in H1. cbn in H1. lia.
Qed.

Lemma valid_after ops r : valid_ops ops -> Forall valid_entry (entries_ r) -> Forall valid_entry (entries_ (foldl apply_op r ops)).
Proof.
  revert r. induction ops as [| o ops IH]; intros r Ho Hr; [done |]. cbn [foldl]. apply IH; [destruct o; cbn in Ho; naive_solver |].
  destruct o; cbn in *; rewrite ?Forall_app; try done; (split; [done |]); apply Forall_singleton; unfold valid_entry; cbn; naive_solver.
Qed.

Lemma value_after ops n t l s : used_when_made ops 0 0 -> mkMetric n t l s ∈ registered ops 0 0 -> value_of atomic_load call (apply_ops ops) s = spec_value ops s.
Proof.
  intros Hu Hin. assert (in_type (apply_ops ops)) as [Hc Hg] by (by apply in_type_after). pose proof (registered_sources ops make_registry _ Hin) as Hs.
  destruct s as [i | | i |]; cbn; try done.
  - pose proof (counters_after ops make_registry i Hu Hs) as E. fold (apply_ops ops) in *. apply lookup_lt_is_Some in Hs as [v Hv]. rewrite (list_lookup_total_correct _ _ _ Hv) in *.
    rewrite wrap_small in E; [exact E |]. by eapply (Forall_lookup_1 (in_width 64)).
  - pose proof (gauges_after ops make_registry i Hu Hs) as E. fold (apply_ops ops) in *. apply lookup_lt_is_Some in Hs as [v Hv]. rewrite (list_lookup_total_correct _ _ _ Hv) in *.
    rewrite s64_small in E; [exact E |]. by eapply (Forall_lookup_1 (λ v, - 2 ^ 63 <= v < 2 ^ 63)).
Qed.

Lemma metrics_after ops : metric_of <$> entries_ (apply_ops ops) = registered ops 0 0.
Proof. exact (entries_after ops make_registry). Qed.

Lemma samples_after ops : used_when_made ops 0 0 -> sample_of atomic_load call (apply_ops ops) <$> entries_ (apply_ops ops) = spec_sample ops <$> registered ops 0 0.
Proof.
  intros Hu. pose proof (metrics_after ops) as E.
  assert (Forall (λ m, m ∈ registered ops 0 0) (metric_of <$> entries_ (apply_ops ops))) as Hin by (rewrite E; by apply Forall_forall). rewrite <- E.
  clear E. induction (entries_ (apply_ops ops)) as [| e es IH]; [done |]. rewrite fmap_cons in Hin. apply Forall_cons in Hin as [He Hes]. rewrite !fmap_cons, IH by done.
  f_equal. unfold sample_of, metric_of, spec_sample. by rewrite (value_after ops _ _ _ _ Hu He).
Qed.

(** Names that are registered more than once have one type. *)
Definition one_type_each (ops : list registry_op) : Prop :=
  forall n t l s t' l' s', mkMetric n t l s ∈ registered ops 0 0 -> mkMetric n t' l' s' ∈ registered ops 0 0 -> t = t'.

(** C32: metrics are registered, before the registry is frozen, under names and with label
    names of letters, digits, underscores and colons, with help texts of one line, and one
    type for each name; counters and gauges are used once they are registered, in the
    range of their type. Then a scrape of [/metrics] is answered with a text from which a
    reader of the exposition format, one that does not ask for the samples of a metric to
    be together, has every metric in the order of registration, with its type and its
    labels as they were given, whatever characters are in their values; a counter has the
    sum of its increments modulo 2^64, a gauge what was set, added and taken as a signed
    64-bit value, an external atomic what is in it, and a function what it returns, or
    zero if it throws. A reader that does ask for it reads the same or refuses the text,
    by whether the registrations of each name follow one another. *)
Theorem scrape_reads_back ops running : registers_first false ops -> valid_ops ops -> one_type_each ops -> used_when_made ops 0 0 ->
  let samples := spec_sample ops <$> registered ops 0 0 in
  exists text, handle_metrics_request atomic_load call (apply_ops ops) running get (bytes_of "/metrics") =
      mkResponse 200 (bytes_of "text/plain; version=0.0.4; charset=utf-8") text /\
    read_metrics text = Some samples /\
    read_strictly text = if one_group (metric_name <$> registered ops 0 0) then Some samples else None.
Proof.
  intros _ Hv Hone Hu samples. exists (serialize atomic_load call (apply_ops ops)). split; [reflexivity |].
  assert (Hread : read_metrics (serialize atomic_load call (apply_ops ops)) = Some samples).
  { subst samples. rewrite <- samples_after by done. unfold serialize, read_metrics.
    apply read_entries; [by apply valid_after | | by rewrite dom_empty_L | intros ? ? ?; by rewrite lookup_empty].
    pose proof (metrics_after ops) as E.
    intros e e' He He' Hn. apply (Hone (name e) _ (labels e) (source e) _ (labels e') (source e')); rewrite <- E; [| rewrite Hn]; by apply (list_elem_of_fmap_2 metric_of). }
  split; [exact Hread |]. unfold read_strictly. rewrite Hread. subst samples.
  assert (Hn : (λ x : sample, x.1.1.1) <$> (spec_sample ops <$> registered ops 0 0) = metric_name <$> registered ops 0 0).
  { rewrite <- list_fmap_compose. apply list_fmap_ext. by intros i [] _. }
  by rewrite Hn.
Qed.
End Life.

(** ** Parameters of a request *)

(** The text of some parameters. *)
Fixpoint query_text (ps : list (bytes * bytes)) : bytes :=
  match ps with
  | [] => []
  | [(k, v)] => k ++ [61] ++ v
  | (k, v) :: ps => k ++ [61] ++ v ++ [38] ++ query_text ps
  end.
Definition plain (s : bytes) : Prop := (61 ∉ s) /\ (38 ∉ s).
Definition plain_params (ps : list (bytes * bytes)) : Prop := Forall (λ p, plain p.1 /\ plain p.2) ps.
Fixpoint first_value (key : bytes) (ps : list (bytes * bytes)) : bytes :=
  match ps with [] => [] | (k, v) :: ps => if decide (k = key) then v else first_value key ps end.
(** No parameter's name ends in the key, unless it is the key. *)
Definition no_shadow (key : bytes) (ps : list (bytes * bytes)) : Prop := forall k v a, (k, v) ∈ ps -> k = a ++ key -> a = [].

Lemma strip_key p w s : (61 ∉ p) -> (61 ∉ w) -> strip_prefix (p ++ [61]) (w ++ 61 :: s) = if decide (w = p) then Some s else None.
Proof.
  revert w. induction p as [| c p IH]; intros [| d w] Hp Hw; rewrite ?not_elem_of_cons in *; cbn [strip_prefix app].
  - done.
  - rewrite decide_False by done. destruct (Z.eqb_spec 61 d); [naive_solver | done].
  - rewrite decide_False by done. destruct (Z.eqb_spec c 61); [naive_solver | done].
  - destruct (Z.eqb_spec c d) as [-> | Hne].
    + rewrite IH by naive_solver. destruct (decide (w = p)), (decide (d :: w = d :: p)); naive_solver.
    + rewrite decide_False by naive_solver. done.
Qed.

Lemma strip_key_absent p s : (61 ∉ s) -> strip_prefix (p ++ [61]) s = None.
Proof.
  revert s. induction p as [| c p IH]; intros [| d s] Hs; cbn [strip_prefix app]; rewrite ?not_elem_of_cons in Hs; try done.
  - destruct (Z.eqb_spec 61 d); [naive_solver | done].
  - destruct (c =? d); [| done]. apply IH. naive_solver.
Qed.

(** The text up to the next equals sign: the key is found at its end, or not at all. *)
Lemma find_key_at p a s : (61 ∉ p) -> (61 ∉ a) -> find (p ++ [61]) (a ++ p ++ 61 :: s) = Some (a, s).
Proof.
  intros Hp. induction a as [| c a IH]; intros Ha.
  - cbn [app]. pose proof (strip_key p p s Hp Hp) as E. rewrite decide_True in E by done. destruct (p ++ 61 :: s) eqn:Es; cbn; by rewrite E.
  - apply not_elem_of_cons in Ha as [Hc Ha]. cbn [app find]. pose proof (strip_key p (c :: a ++ p) s Hp) as E. rewrite decide_False in E.
    + cbn [app] in E. rewrite <- app_assoc in E. rewrite E by (by rewrite not_elem_of_cons, not_elem_of_app). by rewrite IH.
    + intros Heq%(f_equal length). cbn in Heq. rewrite length_app in Heq. lia.
Qed.

Lemma find_key_skip p w s : (61 ∉ p) -> (61 ∉ w) -> (forall a, w <> a ++ p) ->
  find (p ++ [61]) (w ++ 61 :: s) = match find (p ++ [61]) s with Some (a, b) => Some (w ++ 61 :: a, b) | None => None end.
Proof.
  intros Hp. induction w as [| c w IH]; intros Hw Hne.
  - pose proof (strip_key p [] s Hp Hw) as E. rewrite decide_False in E by (intros <-; by apply (Hne [])). cbn [app] in *. cbn [find]. rewrite E. by destruct (find _ s) as [[] |].
  - pose proof (strip_key p (c :: w) s Hp Hw) as E. rewrite decide_False in E by (intros <-; by apply (Hne [])). cbn [app] in *. cbn [find]. rewrite E.
    apply not_elem_of_cons in Hw as [_ Hw]. rewrite IH; [by destruct (find _ s) as [[] |] | done |]. intros a ->. by apply (Hne (c :: a)).
Qed.

Lemma find_key_none p s : (61 ∉ s) -> find (p ++ [61]) s = None.
Proof.
  induction s as [| c s IH]; intros Hs.
  - pose proof (strip_key_absent p [] Hs) as E. cbn. by rewrite E.
  - pose proof (strip_key_absent p (c :: s) Hs) as E. cbn [find]. rewrite E. rewrite IH; [done |]. by apply not_elem_of_cons in Hs as [_ ?].
Qed.

Lemma before_app sep w s : (sep ∉ w) -> before sep (w ++ sep :: s) = w.
Proof. intros Hw. unfold before. by rewrite split_at_app. Qed.
Lemma before_all sep w : (sep ∉ w) -> before sep w = w.
Proof. intros Hw. unfold before. by rewrite split_at_all. Qed.

Lemma not_at_end w k key a : (38 ∉ key) -> w = [] \/ last w = Some 38 -> w ++ k = a ++ key -> exists b, k = b ++ key.
Proof.
  intros Hkey Hw E. apply app_eq_app in E as (l & [[-> ->] | [-> ->]]).
  - destruct l as [| c l] using rev_ind; [by exists [] |]. exfalso. apply Hkey. destruct Hw as [Hw | Hw]; [by apply app_nil in Hw as [_ [_ ?]%app_nil] |].
    rewrite app_assoc, last_snoc in Hw. injection Hw as ->. rewrite !elem_of_app. left. right. apply list_elem_of_here.
  - by exists l.
Qed.

Lemma query_text_cons k v p ps : query_text ((k, v) :: p :: ps) = k ++ 61 :: (v ++ [38]) ++ query_text (p :: ps).
Proof. cbn [query_text]. by rewrite <- app_assoc. Qed.

Lemma find_param key ps w : plain key -> plain_params ps -> no_shadow key ps -> ps <> [] -> (61 ∉ w) -> w = [] \/ last w = Some 38 ->
  match find (key ++ [61]) (w ++ query_text ps) with
  | None => first_value key ps = []
  | Some (pre, rest) => (last pre = Some 38 \/ pre = [] /\ w = []) /\ before 38 rest = first_value key ps
  end.
Proof.
  intros [Hk61 Hk38] Hps. revert w. induction Hps as [| [k v] ps [[Hk _] [Hv61 Hv38]] Hps IH]; intros w Hshadow Hne Hw Hlast; [done |]. cbn [first_value].
  assert (k <> key -> forall a, w ++ k <> a ++ key) as Hskip.
  { intros Hkk a E. destruct (not_at_end w k key a Hk38 Hlast E) as [b ->]. rewrite (Hshadow (b ++ key) v b) in Hkk by (done || apply list_elem_of_here). done. }
  cbn in Hk, Hv61, Hv38. case_decide as E.
  - subst k. destruct ps as [| p ps].
    + cbn [query_text app]. rewrite find_key_at by done. rewrite before_all by done. split; [naive_solver | done].
    + rewrite query_text_cons, find_key_at by done. rewrite <- app_assoc. cbn [app]. rewrite before_app by done. split; [naive_solver | done].
  - assert (61 ∉ w ++ k) as Hwk by (by rewrite not_elem_of_app). destruct ps as [| p ps].
    + cbn [query_text]. rewrite app_assoc. cbn [app]. rewrite find_key_skip by (done || by apply Hskip). by rewrite find_key_none.
    + rewrite query_text_cons, app_assoc, find_key_skip by (done || by apply Hskip). specialize (IH (v ++ [38])).
      assert (61 ∉ v ++ [38]) as Hv by (rewrite not_elem_of_app; split; [done | by apply text_avoids]).
      assert (no_shadow key (p :: ps)) as Hs by (intros k' v' a Hin; apply (Hshadow k' v' a); by apply list_elem_of_further).
      specialize (IH Hs ltac:(done) Hv (or_intror (last_snoc _ _))). destruct (find _ ((v ++ [38]) ++ query_text (p :: ps))) as [[pre rest] |]; [| exact IH].
      destruct IH as [[Hpre | [_ Hnil]] Hrest]; [| by apply app_nil in Hnil as [_ ?]]. split; [left | exact Hrest]. by rewrite last_app, last_cons, Hpre.
Qed.

Lemma query_param_found key ps : plain key -> plain_params ps -> no_shadow key ps -> parse_query_param (query_text ps) key = first_value key ps.
Proof.
  intros Hk Hps Hs. unfold parse_query_param. destruct ps as [| p ps]; [cbn [query_text]; by rewrite find_key_none by apply not_elem_of_nil |].
  pose proof (find_param key (p :: ps) [] Hk Hps Hs ltac:(done) (not_elem_of_nil _) (or_introl eq_refl)) as H. cbn [app] in H.
  destruct (find _ _) as [[pre rest] |]; [| done]. destruct H as [[Hl | [-> _]] <-]; [by rewrite Hl | done].
Qed.

Lemma find_char c s t : (c ∉ s) -> find [c] (s ++ c :: t) = Some (s, t).
Proof.
  induction s as [| d s IH]; intros Hs; cbn [app find strip_prefix]; [by rewrite Z.eqb_refl |]. apply not_elem_of_cons in Hs as [Hd Hs].
  rewrite (proj2 (Z.eqb_neq c d)) by done. by rewrite IH.
Qed.

Section AdminRequests.
Context {level : Type} `{!EqDecision level} (level_name : level -> bytes) (from_str : bytes -> level) (off : level).
Abbreviation ADMIN := (handle_admin_request level_name from_str off).

Lemma admin_target ps : find [63] (bytes_of "/admin/log-level?" ++ query_text ps) = Some (bytes_of "/admin/log-level", query_text ps).
Proof. apply (find_char 63 (bytes_of "/admin/log-level")). by apply text_avoids. Qed.

(** A [POST] with the parameters of a query sets the level of the logger that it names
    and of no other, if both names are known; else it is refused and changes nothing. No
    other request changes a level. *)
Theorem admin_sets_levels ps ls : plain_params ps -> no_shadow (bytes_of "logger") ps -> no_shadow (bytes_of "level") ps ->
  let logger := first_value (bytes_of "logger") ps in
  let lv := first_value (bytes_of "level") ps in
  let '(res, ls') := ADMIN post (bytes_of "/admin/log-level?" ++ query_text ps) ls in
  (status_code res = 200 /\ logger <> [] /\ lv <> [] /\ is_Some (ls !! logger) /\ (from_str lv <> off \/ lv = bytes_of "off") /\ ls' = <[logger := from_str lv]> ls \/
   status_code res = 400 /\ (logger = [] \/ lv = [] \/ ls !! logger = None \/ from_str lv = off /\ lv <> bytes_of "off") /\ ls' = ls) /\
  (forall verb target, verb <> post -> (ADMIN verb target ls).2 = ls).
Proof.
  intros Hps Hs1 Hs2 logger lv. assert (forall verb target, verb <> post -> (ADMIN verb target ls).2 = ls) as Hother.
  { intros v t Hv. unfold handle_admin_request. destruct (match find [63] t with Some _ => _ | None => _ end). case_decide; [| done]. by destruct v. }
  unfold handle_admin_request. rewrite admin_target. rewrite decide_True by done. unfold log_level_post.
  rewrite !query_param_found by first [done | split; by apply text_avoids]. fold logger lv.
  destruct logger as [| c n] eqn:El; [split; [right; naive_solver | exact Hother] |]. destruct lv as [| d m] eqn:Em; [split; [right; naive_solver | exact Hother] |].
  rewrite <- El, <- Em in *. destruct (ls !! logger) as [previous |] eqn:Eg; [| split; [right; naive_solver | exact Hother]].
  destruct (bool_decide (from_str lv = off) && negb (bool_decide (lv = bytes_of "off"))) eqn:Eb.
  - apply andb_true_iff in Eb as [E1%bool_decide_eq_true E2%negb_true_iff%bool_decide_eq_false]. split; [right | exact Hother]. split_and!; [done | | done]. by right; right; right.
  - split; [left | exact Hother]. split_and!; [done | by rewrite El | by rewrite Em | done | | done].
    apply andb_false_iff in Eb as [E1%bool_decide_eq_false | E2%negb_false_iff%bool_decide_eq_true]; [by left | by right].
Qed.
End AdminRequests.

(** ** Concrete runs *)

Definition example_ops : list registry_op :=
  [RegisterCounter (bytes_of "hits_total") (bytes_of "Hits") [(bytes_of "core", bytes_of "0")];
   CounterIncrement 0 5; RegisterAtomic (bytes_of "hits_total") (bytes_of "Hits") [(bytes_of "core", [34; 92; 10; 125])] 7;
   RegisterGauge (bytes_of "level") (bytes_of "Level") []; RegisterFunction (bytes_of "broken") (bytes_of "Throws") [] 0;
   Freeze; GaugeSet 0 (- 3); GaugeIncrement 0 1; CounterIncrement 0 (2 ^ 64 - 1)].

Lemma name_ok s : negb (bool_decide (s = [])) && forallb is_name_char s = true -> valid_name s.
Proof.
  intros [H1%negb_true_iff%bool_decide_eq_false H2]%andb_true_iff. split; [done |]. apply Forall_forall. intros c Hc%list_elem_of_In. rewrite forallb_forall in H2. by apply H2.
Qed.

Lemma example_one_type : one_type_each example_ops.
Proof.
  intros n t l s t' l' s' H1 H2. vm_compute in H1, H2. repeat (apply elem_of_cons in H1 as [E1 | H1]; [repeat (apply elem_of_cons in H2 as [E2 | H2]; [congruence |]); by apply elem_of_nil in H2 |]).
  by apply elem_of_nil in H1.
Qed.

Lemma scrape_reads_back_witness :
  read_strictly (serialize (λ _, 9) (λ _, None) (apply_ops example_ops)) =
    Some [(bytes_of "hits_total", COUNTER, [(bytes_of "core", bytes_of "0")], 4); (bytes_of "hits_total", COUNTER, [(bytes_of "core", [34; 92; 10; 125])], 9);
          (bytes_of "level", GAUGE, [], - 2); (bytes_of "broken", GAUGE, [], 0)].
Proof.
  destruct (scrape_reads_back (λ _, 9) (λ _, None) example_ops true) as (text & E & _ & Hread).
  - done.
  - cbn [valid_ops example_ops]. split_and!; try done; try (by apply name_ok); try (by apply text_avoids); repeat (apply List.Forall_cons; [by apply name_ok |]); apply List.Forall_nil.
  - exact example_one_type.
  - cbn. lia.
  - injection E as <-. rewrite Hread. vm_compute. reflexivity.
Defined.

(** The search for a key stops at its first occurrence: one at the end of another
    parameter's name hides the parameter. *)
Example longer_key_hides : parse_query_param (bytes_of "sublogger=x&logger=apex") (bytes_of "logger") = [] /\
  first_value (bytes_of "logger") [(bytes_of "sublogger", bytes_of "x"); (bytes_of "logger", bytes_of "apex")] = bytes_of "apex".
Proof. vm_compute. done. Qed.

(** The samples of one metric are not together when several cores register theirs in
    turn, as [Server::run] does: the lenient reader has them all, the strict one refuses. *)
Example samples_interleaved :
  let core n := [RegisterAtomic (bytes_of "a") (bytes_of "A") [(bytes_of "core", bytes_of n)] 0; RegisterAtomic (bytes_of "b") (bytes_of "B") [(bytes_of "core", bytes_of n)] 0] in
  let text := serialize (λ _, 1) (λ _, None) (apply_ops (core "0" ++ core "1")) in
  length <$> read_metrics text = Some 4%nat /\ read_strictly text = None.
Proof. vm_compute. done. Qed.
