(* ===== verification/Config.v ===== *)
(** * Configuration

    [apex::core::AppConfig] (apex_core/src/config.cpp), which every service loads from a
    TOML file, [apex::shared::expand_env] (apex_shared/lib/src/config_utils.cpp) and
    [SecureString] (secure_string.cpp), which passwords in it go through. toml++ is an
    interface: what it finds at a node. Strings are their bytes, durations are counts of
    their unit. *)

From S2P Require Import Prelude Text.
#[local] Open Scope Z_scope.

(** ** TOML *)

Module Toml.

(** A node of a parsed document, with what [as_table], [as_array], [as_string] and
    [value<T>] give; tables list their entries in the order of their keys. *)
Class Toml (node : Type) : Type := {
  as_table : node -> option (list (list Z * node));
  as_array : node -> option (list node);
  as_string : node -> option (list Z);
  value_int : node -> option Z;
  value_bool : node -> option bool;
  value_string : node -> option (list Z)
}.

(** [tbl[key]]. *)
Fixpoint lookup_key {node} (key : list Z) (tbl : list (list Z * node)) : option node :=
  match tbl with [] => None | (k, n) :: tbl => if decide (k = key) then Some n else lookup_key key tbl end.
Definition at_key {node} `{Toml node} (key : list Z) (n : option node) : option node := (n ≫= as_table) ≫= lookup_key key.

End Toml.
Import Toml.

Module Config.

Abbreviation text := (list Z).

Record AffinityConfig : Type := mkAffinity { affinity_enabled : bool; worker_cores : list Z; numa_aware : bool }.
Record HttpConfig : Type := mkHttp { http_enabled : bool; http_port : Z; http_bind_address : text }.

Record ServerConfig : Type := mkServer {
  bind_address : text;
  tcp_nodelay : bool;
  num_cores : Z;
  spsc_queue_capacity : Z;
  tick_interval : Z;
  heartbeat_timeout_ticks : Z;
  recv_buf_capacity : Z;
  session_max_queue_depth : Z;
  timer_wheel_slots : Z;
  max_connections : Z;
  max_connections_per_ip : Z;
  reuseport : bool;
  handle_signals : bool;
  drain_timeout : Z;
  cross_core_call_timeout : Z;
  bump_capacity_bytes : Z;
  arena_block_bytes : Z;
  arena_max_bytes : Z;
  metrics : HttpConfig;
  admin : HttpConfig;
  blocking_pool_threads : Z;
  affinity : AffinityConfig
}.

Record LogConfig : Type := mkLog {
  level : text;
  framework_level : text;
  pattern : text;
  service_name : text;
  console_enabled : bool;
  file_enabled : bool;
  file_path : text;
  file_json : bool;
  queue_size : Z
}.

Record AppConfig : Type := mkApp { server : ServerConfig; logging : LogConfig; app_metrics : HttpConfig; app_admin : HttpConfig }.

Definition default_affinity : AffinityConfig := mkAffinity true [] true.
Definition default_metrics : HttpConfig := mkHttp false 8081 (bytes_of "0.0.0.0").
Definition default_admin : HttpConfig := mkHttp false 8082 (bytes_of "0.0.0.0").
Definition default_server : ServerConfig :=
  mkServer (bytes_of "0.0.0.0") true 1 1024 100 300 8192 256 1024 10000 100 false true 25 5000 (64 * 1024) 4096 (1024 * 1024)
    default_metrics default_admin 2 default_affinity.
Definition default_log : LogConfig :=
  mkLog (bytes_of "info") (bytes_of "info") (bytes_of "%Y-%m-%d %H:%M:%S.%e [%l] [%n] %v") [] true false [] false 8192.
Definition defaults : AppConfig := mkApp default_server default_log default_metrics default_admin.

Section Parse.
Context {node : Type} `{Toml node}.
Abbreviation table := (list (text * node)).

Definition get_or {T} (value : node -> option T) (tbl : table) (key : text) (default_val : T) : outcome T :=
  match lookup_key key tbl with
  | None => Returns default_val
  | Some n => match value n with None => Throws invalid_argument | Some v => Returns v end
  end.

(** The instances of the template. *)
Inductive target : Type := uint16_t | uint32_t | size_t.
Definition checked_narrow (t : target) (value : Z) : outcome Z :=
  match t with
  | size_t => if value <? 0 then Throws invalid_argument else Returns value
  | uint32_t => if (value <? 0) || (2 ^ 32 - 1 <? value) then Throws invalid_argument else Returns value
  | uint16_t => if (value <? 0) || (2 ^ 16 - 1 <? value) then Throws invalid_argument else Returns value
  end.
Definition get_number (t : target) (tbl : table) (key : text) (default_val : Z) : outcome Z :=
  run v <- get_or value_int tbl key default_val; checked_narrow t v.

(** A duration: only negative counts are refused. *)
Definition get_duration (tbl : table) (key : text) (default_val : Z) : outcome Z :=
  run v <- get_or value_int tbl key default_val; if v <? 0 then Throws invalid_argument else Returns v.

(** One size of [server.memory], in kilobytes; a value of another type is ignored. *)
Definition get_kb (mem : option table) (key : text) (default_val : Z) : outcome Z :=
  match (mem ≫= lookup_key key) ≫= value_int with
  | None => Returns default_val
  | Some v => if v <? 0 then Throws invalid_argument else Returns (u64 (v * 1024))
  end.

Definition section (root : table) (key : text) : option table := lookup_key key root ≫= as_table.

Definition parse_server (root : table) : outcome ServerConfig :=
  let cfg := default_server in
  match section root (bytes_of "server") with
  | None => Returns cfg
  | Some tbl =>
      run num_cores <- get_number uint32_t tbl (bytes_of "num_cores") (num_cores cfg);
      run spsc_queue_capacity <- get_number size_t tbl (bytes_of "spsc_queue_capacity") 1024;
      run tick_interval <- get_duration tbl (bytes_of "tick_interval_ms") (tick_interval cfg);
      run heartbeat_timeout_ticks <- get_number uint32_t tbl (bytes_of "heartbeat_timeout_ticks") (heartbeat_timeout_ticks cfg);
      run recv_buf_capacity <- get_number size_t tbl (bytes_of "recv_buf_capacity") 8192;
      run timer_wheel_slots <- get_number size_t tbl (bytes_of "timer_wheel_slots") 1024;
      run handle_signals <- get_or value_bool tbl (bytes_of "handle_signals") (handle_signals cfg);
      run drain_timeout <- get_duration tbl (bytes_of "drain_timeout_s") (drain_timeout cfg);
      run cross_core_call_timeout <- get_duration tbl (bytes_of "cross_core_call_timeout_ms") (cross_core_call_timeout cfg);
      let mem := section tbl (bytes_of "memory") in
      run bump_capacity_bytes <- get_kb mem (bytes_of "bump_capacity_kb") (bump_capacity_bytes cfg);
      run arena_block_bytes <- get_kb mem (bytes_of "arena_block_kb") (arena_block_bytes cfg);
      run arena_max_bytes <- get_kb mem (bytes_of "arena_max_kb") (arena_max_bytes cfg);
      run max_connections <- get_number uint32_t tbl (bytes_of "max_connections") (max_connections cfg);
      run max_connections_per_ip <- get_number uint32_t tbl (bytes_of "max_connections_per_ip") (max_connections_per_ip cfg);
      run reuseport <- get_or value_bool tbl (bytes_of "reuseport") (reuseport cfg);
      run tcp_nodelay <- get_or value_bool tbl (bytes_of "tcp_nodelay") (tcp_nodelay cfg);
      Returns (mkServer (bind_address cfg) tcp_nodelay num_cores spsc_queue_capacity tick_interval heartbeat_timeout_ticks recv_buf_capacity
        (session_max_queue_depth cfg) timer_wheel_slots max_connections max_connections_per_ip reuseport handle_signals drain_timeout
        cross_core_call_timeout bump_capacity_bytes arena_block_bytes arena_max_bytes (metrics cfg) (admin cfg) (blocking_pool_threads cfg) (affinity cfg))
  end.

(** A field of a section that may be missing. *)
Definition in_section {T} (s : option table) (read : table -> outcome T) (default_val : T) : outcome T :=
  match s with None => Returns default_val | Some tbl => read tbl end.

Definition parse_logging (root : table) : outcome LogConfig :=
  let cfg := default_log in
  match section root (bytes_of "logging") with
  | None => Returns cfg
  | Some tbl =>
      run level <- get_or value_string tbl (bytes_of "level") (level cfg);
      run framework_level <- get_or value_string tbl (bytes_of "framework_level") (framework_level cfg);
      run pattern <- get_or value_string tbl (bytes_of "pattern") (pattern cfg);
      run service_name <- get_or value_string tbl (bytes_of "service_name") (service_name cfg);
      run console_enabled <- in_section (section tbl (bytes_of "console")) (λ con, get_or value_bool con (bytes_of "enabled") (console_enabled cfg)) (console_enabled cfg);
      let file := section tbl (bytes_of "file") in
      run file_enabled <- in_section file (λ file, get_or value_bool file (bytes_of "enabled") (file_enabled cfg)) (file_enabled cfg);
      run file_path <- in_section file (λ file, get_or value_string file (bytes_of "path") (file_path cfg)) (file_path cfg);
      run file_json <- in_section file (λ file, get_or value_bool file (bytes_of "json") (file_json cfg)) (file_json cfg);
      run queue_size <- in_section (section tbl (bytes_of "async")) (λ async_tbl, get_number size_t async_tbl (bytes_of "queue_size") 8192) (queue_size cfg);
      Returns (mkLog level framework_level pattern service_name console_enabled file_enabled file_path file_json queue_size)
  end.

(** [parse_metrics] and [parse_admin]. *)
Definition parse_http (root : table) (name : text) (port : Z) (cfg : HttpConfig) : outcome HttpConfig :=
  match section root name with
  | None => Returns cfg
  | Some tbl =>
      run enabled <- get_or value_bool tbl (bytes_of "enabled") (http_enabled cfg);
      run port <- get_number uint16_t tbl (bytes_of "port") port;
      run bind_address <- get_or value_string tbl (bytes_of "bind_address") (http_bind_address cfg);
      Returns (mkHttp enabled port bind_address)
  end.
Definition parse_metrics (root : table) : outcome HttpConfig := parse_http root (bytes_of "metrics") 8081 default_metrics.
Definition parse_admin (root : table) : outcome HttpConfig := parse_http root (bytes_of "admin") 8082 default_admin.

Fixpoint parse_cores (arr : list node) (seen : gset Z) : outcome (list Z) :=
  match arr with
  | [] => Returns []
  | n :: arr =>
      match value_int n with
      | None => Throws invalid_argument
      | Some v =>
          run core_id <- checked_narrow uint32_t v;
          if decide (core_id ∈ seen) then Throws invalid_argument
          else run rest <- parse_cores arr (seen ∪ {[core_id]}); Returns (core_id :: rest)
      end
  end.

Definition parse_affinity (root : table) : outcome AffinityConfig :=
  let cfg := default_affinity in
  match section root (bytes_of "affinity") with
  | None => Returns cfg
  | Some tbl =>
      run enabled <- get_or value_bool tbl (bytes_of "enabled") (affinity_enabled cfg);
      run numa_aware <- get_or value_bool tbl (bytes_of "numa_aware") (numa_aware cfg);
      run worker_cores <- match lookup_key (bytes_of "worker_cores") tbl ≫= as_array with None => Returns (worker_cores cfg) | Some arr => parse_cores arr ∅ end;
      Returns (mkAffinity enabled worker_cores numa_aware)
  end.

Definition with_sections (s : ServerConfig) (m a : HttpConfig) (aff : AffinityConfig) : ServerConfig :=
  mkServer (bind_address s) (tcp_nodelay s) (num_cores s) (spsc_queue_capacity s) (tick_interval s) (heartbeat_timeout_ticks s) (recv_buf_capacity s)
    (session_max_queue_depth s) (timer_wheel_slots s) (max_connections s) (max_connections_per_ip s) (reuseport s) (handle_signals s) (drain_timeout s)
    (cross_core_call_timeout s) (bump_capacity_bytes s) (arena_block_bytes s) (arena_max_bytes s) m a (blocking_pool_threads s) aff.

(** [parsed] is what [toml::parse_file] gives, unless it throws. *)
Definition from_file (parsed : option table) : outcome AppConfig :=
  match parsed with
  | None => Throws runtime_error
  | Some tbl =>
      run server <- parse_server tbl;
      run logging <- parse_logging tbl;
      run metrics <- parse_metrics tbl;
      run admin <- parse_admin tbl;
      run affinity <- parse_affinity tbl;
      Returns (mkApp (with_sections server metrics admin affinity) logging metrics admin)
  end.

End Parse.

(** ** Environment variables *)

Definition is_letter (c : Z) : bool := ((65 <=? c) && (c <=? 90)) || ((97 <=? c) && (c <=? 122)) || (c =? 95).
Definition is_word (c : Z) : bool := is_letter c || is_digit c.

(** The longest run of word characters. *)
Fixpoint word_prefix (s : text) : text * text :=
  match s with
  | [] => ([], [])
  | c :: s' => if is_word c then let '(w, rest) := word_prefix s' in (c :: w, rest) else ([], s)
  end.

(** [.*?] before a closing brace: up to the first one, on one line. *)
Fixpoint up_to_brace (s : text) : option (text * text) :=
  match s with
  | [] => None
  | c :: s =>
      if c =? 125 then Some ([], s)
      else if (c =? 10) || (c =? 13) then None
      else match up_to_brace s with Some (d, rest) => Some (c :: d, rest) | None => None end
  end.

(** A match of [env_re] at the start of the text: the name, the default and what follows.
    No choice of the pattern leaves another way to match. *)
Definition match_env (s : text) : option (text * option text * text) :=
  match s with
  | 36 :: 123 :: s =>
      let '(name, s) := word_prefix s in
      match name with
      | [] => None
      | c :: _ =>
          if is_letter c then
            match s with
            | 125 :: s => Some (name, None, s)
            | 58 :: 45 :: s => match up_to_brace s with Some (d, s) => Some (name, Some d, s) | None => None end
            | _ => None
            end
          else None
      end
  | _ => None
  end.

Section Expand.
Context (getenv : text -> option text).

Definition replacement (name : text) (dflt : option text) : text :=
  match getenv name, dflt with
  | Some v, _ => v
  | None, Some d => d
  | None, None => [36; 123] ++ name ++ [125]
  end.

(** Matches from left to right; every step consumes a character, so the length is fuel
    enough. *)
Fixpoint expand (fuel : nat) (s : text) : text :=
  match fuel with
  | O => s
  | S fuel =>
      match s with
      | [] => []
      | c :: s' => match match_env s with Some (name, dflt, rest) => replacement name dflt ++ expand fuel rest | None => c :: expand fuel s' end
      end
  end.
Definition expand_env (value : text) : text := if decide (36 ∈ value) then expand (length value) value else value.

End Expand.

(** ** Secrets *)

Definition constant_time_equal (data other : text) : bool :=
  if negb (len data =? len other) then false else foldl Z.lor 0 (zip_with Z.lxor data other) =? 0.
(** [operator==] of a [char*], which may be null. *)
Definition equals_c_string (data : text) (other : option text) : bool := match other with Some s => constant_time_equal data (c_str s) | None => bool_decide (data = []) end.

End Config.
Import Config.

(** ** What a file says

    The settings that a file can hold: the tables that lead to the key, the key, what is
    accepted there, the default and the place of the value. *)

Inductive setting : Type :=
| Number (path : list text) (key : text) (bound : option Z) (dflt : Z) (place : AppConfig -> Z)
| Kilobytes (path : list text) (key : text) (dflt : Z) (place : AppConfig -> Z)
| Flag (path : list text) (key : text) (dflt : bool) (place : AppConfig -> bool)
| Words (path : list text) (key : text) (dflt : text) (place : AppConfig -> text)
| Cores (path : list text) (key : text) (dflt : list Z) (place : AppConfig -> list Z).

Definition server_settings : list setting :=
  let srv := [bytes_of "server"] in
  let mem := [bytes_of "server"; bytes_of "memory"] in
  [Number srv (bytes_of "num_cores") (Some (2 ^ 32)) 1 (λ c, num_cores (server c));
   Number srv (bytes_of "spsc_queue_capacity") None 1024 (λ c, spsc_queue_capacity (server c));
   Number srv (bytes_of "tick_interval_ms") None 100 (λ c, tick_interval (server c));
   Number srv (bytes_of "heartbeat_timeout_ticks") (Some (2 ^ 32)) 300 (λ c, heartbeat_timeout_ticks (server c));
   Number srv (bytes_of "recv_buf_capacity") None 8192 (λ c, recv_buf_capacity (server c));
   Number srv (bytes_of "timer_wheel_slots") None 1024 (λ c, timer_wheel_slots (server c));
   Flag srv (bytes_of "handle_signals") true (λ c, handle_signals (server c));
   Number srv (bytes_of "drain_timeout_s") None 25 (λ c, drain_timeout (server c));
   Number srv (bytes_of "cross_core_call_timeout_ms") None 5000 (λ c, cross_core_call_timeout (server c));
   Kilobytes mem (bytes_of "bump_capacity_kb") (64 * 1024) (λ c, bump_capacity_bytes (server c));
   Kilobytes mem (bytes_of "arena_block_kb") 4096 (λ c, arena_block_bytes (server c));
   Kilobytes mem (bytes_of "arena_max_kb") (1024 * 1024) (λ c, arena_max_bytes (server c));
   Number srv (bytes_of "max_connections") (Some (2 ^ 32)) 10000 (λ c, max_connections (server c));
   Number srv (bytes_of "max_connections_per_ip") (Some (2 ^ 32)) 100 (λ c, max_connections_per_ip (server c));
   Flag srv (bytes_of "reuseport") false (λ c, reuseport (server c));
   Flag srv (bytes_of "tcp_nodelay") true (λ c, tcp_nodelay (server c))].

Definition logging_settings : list setting :=
  let log := bytes_of "logging" in
  [Words [log] (bytes_of "level") (bytes_of "info") (λ c, level (logging c));
   Words [log] (bytes_of "framework_level") (bytes_of "info") (λ c, framework_level (logging c));
   Words [log] (bytes_of "pattern") (bytes_of "%Y-%m-%d %H:%M:%S.%e [%l] [%n] %v") (λ c, pattern (logging c));
   Words [log] (bytes_of "service_name") [] (λ c, service_name (logging c));
   Flag [log; bytes_of "console"] (bytes_of "enabled") true (λ c, console_enabled (logging c));
   Flag [log; bytes_of "file"] (bytes_of "enabled") false (λ c, file_enabled (logging c));
   Words [log; bytes_of "file"] (bytes_of "path") [] (λ c, file_path (logging c));
   Flag [log; bytes_of "file"] (bytes_of "json") false (λ c, file_json (logging c));
   Number [log; bytes_of "async"] (bytes_of "queue_size") None 8192 (λ c, queue_size (logging c))].

Definition http_settings (name : text) (port : Z) (place : AppConfig -> HttpConfig) : list setting :=
  [Flag [name] (bytes_of "enabled") false (λ c, http_enabled (place c));
   Number [name] (bytes_of "port") (Some (2 ^ 16)) port (λ c, http_port (place c));
   Words [name] (bytes_of "bind_address") (bytes_of "0.0.0.0") (λ c, http_bind_address (place c))].

Definition affinity_settings : list setting :=
  [Flag [bytes_of "affinity"] (bytes_of "enabled") true (λ c, affinity_enabled (affinity (server c)));
   Flag [bytes_of "affinity"] (bytes_of "numa_aware") true (λ c, numa_aware (affinity (server c)));
   Cores [bytes_of "affinity"] (bytes_of "worker_cores") [] (λ c, worker_cores (affinity (server c)))].

Definition settings : list setting :=
  server_settings ++ logging_settings ++ http_settings (bytes_of "metrics") 8081 (λ c, metrics (server c)) ++
  http_settings (bytes_of "admin") 8082 (λ c, admin (server c)) ++ affinity_settings.

Section Settings.
Context {node : Type} `{Toml node}.
Abbreviation table := (list (text * node)).

Fixpoint table_at (tbl : table) (path : list text) : option table :=
  match path with [] => Some tbl | key :: path => match section tbl key with Some tbl => table_at tbl path | None => None end end.
Definition node_at (root : table) (path : list text) (key : text) : option node := table_at root path ≫= lookup_key key.

(** The value of a setting; nothing if the file has one that is refused. *)
Definition read_as {T} (value : node -> option T) (accept : T -> bool) (dflt : T) (n : option node) : option T :=
  match n with None => Some dflt | Some n => match value n with Some v => if accept v then Some v else None | None => None end end.
Definition read_number (bound : option Z) (dflt : Z) : option node -> option Z :=
  read_as value_int (λ v, (0 <=? v) && match bound with Some b => v <? b | None => true end) dflt.
Definition read_kilobytes (dflt : Z) (n : option node) : option Z :=
  match n ≫= value_int with None => Some dflt | Some v => if 0 <=? v then Some (u64 (v * 1024)) else None end.
Definition read_cores (dflt : list Z) (n : option node) : option (list Z) :=
  match n ≫= as_array with
  | None => Some dflt
  | Some arr => ids ← mapM value_int arr; if decide (Forall (in_width 32) ids /\ NoDup ids) then Some ids else None
  end.

Definition set_to (root : table) (cfg : AppConfig) (s : setting) : Prop :=
  match s with
  | Number path key bound dflt place => read_number bound dflt (node_at root path key) = Some (place cfg)
  | Kilobytes path key dflt place => read_kilobytes dflt (node_at root path key) = Some (place cfg)
  | Flag path key dflt place => read_as value_bool (λ _, true) dflt (node_at root path key) = Some (place cfg)
  | Words path key dflt place => read_as value_string (λ _, true) dflt (node_at root path key) = Some (place cfg)
  | Cores path key dflt place => read_cores dflt (node_at root path key) = Some (place cfg)
  end.
Definition refused (root : table) (s : setting) : Prop :=
  match s with
  | Number path key bound dflt _ => read_number bound dflt (node_at root path key) = None
  | Kilobytes path key dflt _ => read_kilobytes dflt (node_at root path key) = None
  | Flag path key dflt _ => read_as value_bool (λ _, true) dflt (node_at root path key) = None
  | Words path key dflt _ => read_as value_string (λ _, true) dflt (node_at root path key) = None
  | Cores path key dflt _ => read_cores dflt (node_at root path key) = None
  end.

(** *** Every read of the code is the read of a setting *)

Definition needed {T} (o : option T) : outcome T := match o with Some v => Returns v | None => Throws invalid_argument end.

Lemma get_or_needed {T} (value : node -> option T) tbl key dflt : get_or value tbl key dflt = needed (read_as value (λ _, true) dflt (lookup_key key tbl)).
Proof. unfold get_or, read_as. destruct (lookup_key key tbl) as [n |]; [| done]. by destruct (value n). Qed.

Definition bound_of (t : target) : option Z := match t with uint16_t => Some (2 ^ 16) | uint32_t => Some (2 ^ 32) | size_t => None end.

Lemma checked_narrow_needed t v : checked_narrow t v = needed (if (0 <=? v) && match bound_of t with Some b => v <? b | None => true end then Some v else None).
Proof.
  rewrite (Z.leb_antisym v 0). destruct t; cbn [checked_narrow bound_of]; rewrite ?andb_true_r; try (destruct (v <? 0); done);
    destruct (Z.ltb_spec v 0), (Z.ltb_spec v (2 ^ 16)), (Z.ltb_spec v (2 ^ 32)), (Z.ltb_spec (2 ^ 16 - 1) v), (Z.ltb_spec (2 ^ 32 - 1) v); cbn; try done; lia.
Qed.

(** A default that the type can hold. *)
Definition fits (bound : option Z) (v : Z) : bool := (0 <=? v) && match bound with Some b => v <? b | None => true end.

Lemma get_number_needed t tbl key dflt : fits (bound_of t) dflt = true -> get_number t tbl key dflt = needed (read_number (bound_of t) dflt (lookup_key key tbl)).
Proof.
  intros Hd. unfold get_number, get_or, read_number, read_as. destruct (lookup_key key tbl) as [n |]; cbn [outcome_bind].
  - destruct (value_int n) as [v |]; [apply checked_narrow_needed | done].
  - rewrite checked_narrow_needed. fold (fits (bound_of t) dflt). by rewrite Hd.
Qed.

Lemma get_duration_needed tbl key dflt : fits None dflt = true -> get_duration tbl key dflt = needed (read_number None dflt (lookup_key key tbl)).
Proof. exact (get_number_needed size_t tbl key dflt). Qed.

Lemma get_kb_needed mem key dflt : get_kb mem key dflt = needed (read_kilobytes dflt (mem ≫= lookup_key key)).
Proof. unfold get_kb, read_kilobytes. destruct ((mem ≫= lookup_key key) ≫= value_int) as [v |]; [| done]. rewrite (Z.leb_antisym v 0). by destruct (v <? 0). Qed.

Lemma parse_cores_needed arr seen :
  parse_cores arr seen = needed (ids ← mapM value_int arr; if decide (Forall (in_width 32) ids /\ NoDup ids /\ Forall (.∉ seen) ids) then Some ids else None).
Proof.
  revert seen. induction arr as [| n arr IH]; intros seen; cbn [parse_cores mapM mbind option_bind mret option_ret]; [by rewrite decide_True by (split_and!; constructor) |].
  destruct (value_int n) as [v |]; [| done]. cbn [mbind option_bind]. rewrite checked_narrow_needed. cbn [bound_of].
  assert ((0 <=? v) && (v <? 2 ^ 32) = bool_decide (in_width 32 v)) as ->.
  { unfold in_width. destruct (Z.leb_spec 0 v), (Z.ltb_spec v (2 ^ 32)); symmetry; cbn; [apply bool_decide_true | apply bool_decide_false..]; lia. }
  case_bool_decide as Hw; cbn [needed outcome_bind].
  2:{ destruct (mapM value_int arr) as [ids |]; [| done]. cbn. rewrite decide_False; [done |]. by rewrite Forall_cons; intros [[]]. }
  case_decide as Hin; [destruct (mapM value_int arr) as [ids |]; [cbn; rewrite decide_False; [done |]; rewrite !Forall_cons; by intros (_ & _ & ? & _) | done] |].
  rewrite IH. destruct (mapM value_int arr) as [ids |]; [| done]. cbn [mbind option_bind mret option_ret].
  assert (Forall (.∉ seen ∪ {[v]}) ids <-> Forall (.∉ seen) ids /\ v ∉ ids) as E.
  { rewrite !Forall_forall. split; [intros Hf; split; [intros x Hx; specialize (Hf x Hx); set_solver | intros Hx; specialize (Hf v Hx); set_solver] | set_solver]. }
  assert ((Forall (in_width 32) (v :: ids) /\ NoDup (v :: ids) /\ Forall (.∉ seen) (v :: ids)) <-> Forall (in_width 32) ids /\ NoDup ids /\ Forall (.∉ seen ∪ {[v]}) ids) as E'
    by (rewrite !Forall_cons, NoDup_cons, E; tauto).
  rewrite (decide_ext _ _ _ _ E'). by case_decide.
Qed.

(** What a section's parser has to do with its settings. *)
Definition reads_settings {C} (root : table) (ss : list setting) (r : outcome C) (part : C -> AppConfig -> Prop) : Prop :=
  match r with
  | Returns c => forall cfg, part c cfg -> Forall (set_to root cfg) ss
  | Throws x => x = invalid_argument /\ Exists (refused root) ss
  end.

Lemma node_at_1 root s key tbl : section root s = Some tbl -> node_at root [s] key = lookup_key key tbl.
Proof. intros E. unfold node_at. cbn. by rewrite E. Qed.
Lemma node_at_2 root s s' key tbl : section root s = Some tbl -> node_at root [s; s'] key = section tbl s' ≫= lookup_key key.
Proof. intros E. unfold node_at. cbn. rewrite E. by destruct (section tbl s'). Qed.
Lemma node_at_missing root s path key : section root s = None -> node_at root (s :: path) key = None.
Proof. intros E. unfold node_at. cbn. by rewrite E. Qed.

Lemma in_section_or {T} s key (value : node -> option T) dflt :
  in_section s (λ tbl, get_or value tbl key dflt) dflt = needed (read_as value (λ _, true) dflt (s ≫= lookup_key key)).
Proof. destruct s as [tbl |]; [apply get_or_needed | done]. Qed.
Lemma in_section_number s t key dflt : fits (bound_of t) dflt = true ->
  in_section s (λ tbl, get_number t tbl key dflt) dflt = needed (read_number (bound_of t) dflt (s ≫= lookup_key key)).
Proof. intros Hf. destruct s as [tbl |]; [by apply get_number_needed | done]. Qed.

Ltac next_read :=
  match goal with
  | |- context [outcome_bind (needed ?o) _] => let E := fresh "E" in destruct o eqn:E; cbn [needed outcome_bind]
  end.
(** Every setting of a list, each from the read that gave it; one that was refused. *)
Ltac all_settings nodes := repeat (apply List.Forall_cons; [cbn [set_to]; nodes; assumption |]); apply List.Forall_nil.
Ltac some_setting nodes := split; [reflexivity |]; repeat first [apply List.Exists_cons_hd; cbn [refused]; nodes; assumption | apply List.Exists_cons_tl].
Ltac default_settings E := intros cfg HC; repeat (apply List.Forall_cons; [cbn [set_to]; rewrite node_at_missing by exact E; cbn beta; rewrite HC; reflexivity |]); apply List.Forall_nil.

Definition server_of (s : ServerConfig) (cfg : AppConfig) : Prop := server cfg = with_sections s (metrics (server cfg)) (admin (server cfg)) (affinity (server cfg)).

Lemma server_reads root : reads_settings root server_settings (parse_server root) server_of.
Proof.
  unfold parse_server, server_settings. cbv zeta. destruct (section root (bytes_of "server")) as [tbl |] eqn:Es; [| default_settings Es].
  rewrite !get_number_needed, !get_duration_needed, !get_kb_needed, !get_or_needed by reflexivity.
  assert (forall key, node_at root [bytes_of "server"] key = lookup_key key tbl) as H1 by (intros; by apply node_at_1).
  assert (forall key, node_at root [bytes_of "server"; bytes_of "memory"] key = section tbl (bytes_of "memory") ≫= lookup_key key) as H2 by (intros; by apply node_at_2).
  repeat (next_read; [| some_setting ltac:(rewrite ?H1, ?H2)]). intros cfg HC. all_settings ltac:(rewrite ?H1, ?H2; cbn beta; rewrite HC).
Qed.

Lemma logging_reads root : reads_settings root logging_settings (parse_logging root) (λ l cfg, logging cfg = l).
Proof.
  unfold parse_logging, logging_settings. cbv zeta. destruct (section root (bytes_of "logging")) as [tbl |] eqn:Es; [| default_settings Es].
  rewrite !in_section_or, !get_or_needed. rewrite (in_section_number _ size_t (bytes_of "queue_size") 8192) by reflexivity.
  assert (forall key, node_at root [bytes_of "logging"] key = lookup_key key tbl) as H1 by (intros; by apply node_at_1).
  assert (forall s key, node_at root [bytes_of "logging"; s] key = section tbl s ≫= lookup_key key) as H2 by (intros; by apply node_at_2).
  repeat (next_read; [| some_setting ltac:(rewrite ?H1, ?H2)]). intros cfg HC. all_settings ltac:(rewrite ?H1, ?H2; cbn beta; rewrite HC).
Qed.

Lemma http_reads root name port cfg place : http_enabled cfg = false -> http_port cfg = port -> http_bind_address cfg = bytes_of "0.0.0.0" -> fits (Some (2 ^ 16)) port = true ->
  reads_settings root (http_settings name port place) (parse_http root name port cfg) (λ h c, place c = h).
Proof.
  intros He Hp Hb Hf. unfold parse_http, http_settings. destruct (section root name) as [tbl |] eqn:Es.
  - rewrite (get_number_needed uint16_t) by done. rewrite !get_or_needed, He, Hb.
    assert (forall key, node_at root [name] key = lookup_key key tbl) as H1 by (intros; by apply node_at_1).
    repeat (next_read; [| some_setting ltac:(rewrite ?H1)]). intros c HC. all_settings ltac:(rewrite ?H1; cbn beta; rewrite HC).
  - intros c HC. repeat (apply List.Forall_cons; [cbn [set_to]; rewrite node_at_missing by exact Es; cbn beta; rewrite HC, ?He, ?Hp, ?Hb; reflexivity |]). apply List.Forall_nil.
Qed.

Lemma affinity_reads root : reads_settings root affinity_settings (parse_affinity root) (λ a c, affinity (server c) = a).
Proof.
  unfold parse_affinity, affinity_settings. cbv zeta. destruct (section root (bytes_of "affinity")) as [tbl |] eqn:Es; [| default_settings Es].
  rewrite !get_or_needed. assert (forall key, node_at root [bytes_of "affinity"] key = lookup_key key tbl) as H1 by (intros; by apply node_at_1).
  assert (match lookup_key (bytes_of "worker_cores") tbl ≫= as_array with None => Returns (worker_cores default_affinity) | Some arr => parse_cores arr ∅ end =
    needed (read_cores [] (lookup_key (bytes_of "worker_cores") tbl))) as ->.
  { unfold read_cores. destruct (lookup_key _ tbl ≫= as_array) as [arr |]; [| done]. rewrite parse_cores_needed. f_equal. destruct (mapM value_int arr) as [ids |]; [| done].
    cbn [mbind option_bind]. apply decide_ext. split; [tauto |]. intros [? ?]. split_and!; [done.. |]. apply Forall_forall. set_solver. }
  repeat (next_read; [| some_setting ltac:(rewrite ?H1)]). intros cfg HC. all_settings ltac:(rewrite ?H1; cbn beta; rewrite HC).
Qed.

(** C31: [AppConfig::from_file] gives every setting the value in the file, or its default
    if it or its table is not there; it throws exactly if a setting has a value of
    another type or one that its C++ type cannot hold, or a core that is listed twice.
    Three things of another type are ignored instead, as if they were not there: a section
    that is no table, a list of cores that is no array, and a size in kilobytes that is no
    integer; and sizes in kilobytes are reduced modulo 2^64. *)
Theorem config_reads_settings (root : table) :
  match from_file (Some root) with
  | Returns cfg => Forall (set_to root cfg) settings /\ app_metrics cfg = metrics (server cfg) /\ app_admin cfg = admin (server cfg)
  | Throws x => x = invalid_argument /\ Exists (refused root) settings
  end.
Proof.
  unfold from_file, settings. pose proof (server_reads root) as H1. pose proof (logging_reads root) as H2. pose proof (affinity_reads root) as H5.
  pose proof (http_reads root (bytes_of "metrics") 8081 default_metrics (λ c, metrics (server c)) eq_refl eq_refl eq_refl eq_refl) as H3.
  pose proof (http_reads root (bytes_of "admin") 8082 default_admin (λ c, admin (server c)) eq_refl eq_refl eq_refl eq_refl) as H4.
  fold (parse_metrics root) in H3. fold (parse_admin root) in H4.
  destruct (parse_server root) as [s | x]; cbn [reads_settings outcome_bind] in *; [| rewrite !Exists_app; tauto]. destruct (parse_logging root) as [l | x]; cbn [reads_settings outcome_bind] in *; [| rewrite !Exists_app; tauto].
  destruct (parse_metrics root) as [m | x]; cbn [reads_settings outcome_bind] in *; [| rewrite !Exists_app; tauto]. destruct (parse_admin root) as [a | x]; cbn [reads_settings outcome_bind] in *; [| rewrite !Exists_app; tauto].
  destruct (parse_affinity root) as [aff | x]; cbn [reads_settings outcome_bind] in *; [| rewrite !Exists_app; tauto]. split; [| done]. rewrite !Forall_app. split_and!; [by apply H1 | by apply H2 | by apply H3 | by apply H4 | by apply H5].
Qed.
End Settings.

(** ** Templates

    A text in pieces: text without a dollar sign, and references with or without a
    default. *)

Inductive piece : Type := Literal (s : text) | Reference (name : text) (dflt : option text).

Definition render (p : piece) : text :=
  match p with
  | Literal s => s
  | Reference name None => [36; 123] ++ name ++ [125]
  | Reference name (Some d) => [36; 123] ++ name ++ [58; 45] ++ d ++ [125]
  end.
Definition well_formed (p : piece) : Prop :=
  match p with
  | Literal s => 36 ∉ s
  | Reference name dflt =>
      (exists c w, name = c :: w /\ is_letter c = true /\ Forall (λ c, is_word c = true) w) /\
      match dflt with Some d => (125 ∉ d) /\ (10 ∉ d) /\ (13 ∉ d) | None => True end
  end.
Definition meaning (getenv : text -> option text) (p : piece) : text :=
  match p with
  | Literal s => s
  | Reference name dflt => match getenv name with Some v => v | None => default (render p) dflt end
  end.

Lemma word_prefix_app w rest : Forall (λ c, is_word c = true) w -> (forall c s, rest = c :: s -> is_word c = false) -> word_prefix (w ++ rest) = (w, rest).
Proof.
  intros Hw Hrest. induction Hw as [| c w Hc _ IH]; cbn; [| by rewrite Hc, IH].
  destruct rest as [| c s]; [done |]. cbn. by rewrite (Hrest c s eq_refl).
Qed.

Lemma up_to_brace_app d rest : (125 ∉ d) -> (10 ∉ d) -> (13 ∉ d) -> up_to_brace (d ++ 125 :: rest) = Some (d, rest).
Proof.
  induction d as [| c d IH]; intros H1 H2 H3; [done |]. rewrite !not_elem_of_cons in *. cbn [app up_to_brace].
  rewrite (proj2 (Z.eqb_neq c 125)), (proj2 (Z.eqb_neq c 10)), (proj2 (Z.eqb_neq c 13)) by naive_solver. cbn [orb]. by rewrite IH by naive_solver.
Qed.

Lemma match_render name dflt rest : well_formed (Reference name dflt) -> match_env (render (Reference name dflt) ++ rest) = Some (name, dflt, rest).
Proof.
  intros ((c & w & -> & Hc & Hw) & Hd). assert (Forall (λ c, is_word c = true) (c :: w)) as Hcw by (constructor; [unfold is_word; by rewrite Hc | done]).
  destruct dflt as [d |]; unfold render; rewrite <- !app_assoc; cbn [app]; unfold match_env.
  - destruct Hd as (H1 & H2 & H3). pose proof (word_prefix_app (c :: w) (58 :: 45 :: d ++ 125 :: rest) Hcw ltac:(by intros ? ? [= <- _])) as E. cbn [app] in E. rewrite E, Hc. by rewrite up_to_brace_app.
  - pose proof (word_prefix_app (c :: w) (125 :: rest) Hcw ltac:(by intros ? ? [= <- _])) as E. cbn [app] in E. by rewrite E, Hc.
Qed.

Section Templates.
Context (getenv : text -> option text).

Lemma match_env_dollar c s : c <> 36 -> match_env (c :: s) = None.
Proof. intros Hc. unfold match_env. destruct c as [| p | p]; [done | | done]. by repeat (destruct p as [p | p |]; try done). Qed.

Lemma expand_literal s t fuel : (36 ∉ s) -> (length s <= fuel)%nat -> expand getenv fuel (s ++ t) = s ++ expand getenv (fuel - length s) t.
Proof.
  revert fuel. induction s as [| c s IH]; intros fuel Hs Hf; [by rewrite Nat.sub_0_r |]. apply not_elem_of_cons in Hs as [Hc Hs]. destruct fuel as [| fuel]; [cbn in Hf; lia |].
  cbn [app expand length Nat.sub]. rewrite match_env_dollar by done. rewrite IH by (done || cbn in Hf; lia). done.
Qed.

Lemma expand_pieces ps fuel : Forall well_formed ps -> (length (ps ≫= render) <= fuel)%nat -> expand getenv fuel (ps ≫= render) = ps ≫= meaning getenv.
Proof.
  intros Hps. revert fuel. induction Hps as [| p ps Hp _ IH]; intros fuel Hf; [by destruct fuel |]. rewrite bind_cons, length_app in Hf. rewrite !bind_cons.
  destruct p as [s | name dflt].
  - cbn [render meaning] in *. rewrite expand_literal by (done || lia). rewrite IH by lia. done.
  - assert (exists u, render (Reference name dflt) = 36 :: u) as [u Hu] by (destruct dflt; by eexists). pose proof (match_render name dflt (ps ≫= render) Hp) as E.
    rewrite Hu in *. cbn [app length] in *. destruct fuel as [| fuel]; [lia |]. cbn [expand]. rewrite E, IH by lia. f_equal. unfold replacement, meaning. by destruct (getenv name), dflt.
Qed.

(** [expand_env] of a text with references to the environment puts the value of the
    variable for each of them, its default if it is not set, and the reference itself if
    there is no default; what is not a reference is unchanged, and so are dollar signs in
    the values that are put in. *)
Theorem env_expanded ps : Forall well_formed ps -> expand_env getenv (ps ≫= render) = ps ≫= meaning getenv.
Proof.
  intros Hps. unfold expand_env. case_decide as Hin; [by apply expand_pieces |]. rewrite <- (expand_pieces ps (length (ps ≫= render))) by done.
  pose proof (expand_literal (ps ≫= render) [] (length (ps ≫= render)) Hin ltac:(done)) as E. rewrite app_nil_r, Nat.sub_diag, app_nil_r in E. done.
Qed.
End Templates.

(** Comparing secrets without a branch on their bytes decides their equality. *)
Theorem secrets_compared data other : constant_time_equal data other = bool_decide (data = other) /\
  equals_c_string data (Some other) = bool_decide (data = c_str other) /\ equals_c_string data None = bool_decide (data = []).
Proof.
  assert (forall other, constant_time_equal data other = bool_decide (data = other)) as Heq; [| by rewrite !Heq; cbn; rewrite Heq].
  intros s. unfold constant_time_equal. destruct (Z.eqb_spec (len data) (len s)) as [E | Hne]; cbn [negb].
  - pose proof (diff_zero data s ltac:(unfold len in E; lia)) as Hd. case_bool_decide; [apply Z.eqb_eq; tauto | apply Z.eqb_neq; tauto].
  - rewrite bool_decide_false; [done |]. by intros ->.
Qed.

(** ** Concrete files *)

Module ConfigExample.

Inductive doc : Type := Table (t : list (text * doc)) | Array (l : list doc) | Int (z : Z) | Bool (b : bool) | Str (s : text).
#[export] Instance doc_toml : Toml doc := {
  as_table n := match n with Table t => Some t | _ => None end;
  as_array n := match n with Array l => Some l | _ => None end;
  as_string n := match n with Str s => Some s | _ => None end;
  value_int n := match n with Int z => Some z | _ => None end;
  value_bool n := match n with Bool b => Some b | _ => None end;
  value_string n := match n with Str s => Some s | _ => None end
}.
Definition entry (k : string) (d : doc) : text * doc := (bytes_of k, d).
Definition file0 : list (text * doc) :=
  [entry "affinity" (Table [entry "worker_cores" (Array [Int 2; Int 0])]); entry "metrics" (Table [entry "enabled" (Bool true); entry "port" (Int 9100)]);
   entry "server" (Table [entry "memory" (Table [entry "arena_max_kb" (Int 512)]); entry "num_cores" (Int 2)])].

End ConfigExample.
Import ConfigExample.

Definition chosen (c : AppConfig) := (num_cores (server c), worker_cores (affinity (server c)), http_port (metrics (server c)), arena_max_bytes (server c), tick_interval (server c)).
Example file0_read : match from_file (Some file0) with Returns c => chosen c = (2, [2; 0], 9100, 524288, 100) | Throws _ => False end.
Proof. vm_compute. reflexivity. Qed.

Lemma env_expanded_witness :
  expand_env (λ name, if decide (name = bytes_of "HOST") then Some (bytes_of "db.${X}") else None) (bytes_of "host=${HOST} password=${PASS:-dev} ${NONE}") =
  bytes_of "host=db.${X} password=dev ${NONE}".
Proof.
  pose proof (env_expanded (λ name, if decide (name = bytes_of "HOST") then Some (bytes_of "db.${X}") else None)
    [Literal (bytes_of "host="); Reference (bytes_of "HOST") None; Literal (bytes_of " password="); Reference (bytes_of "PASS") (Some (bytes_of "dev")); Literal (bytes_of " ");
     Reference (bytes_of "NONE") None]) as E.
  assert (forall (n : text) c w, n = c :: w -> is_letter c = true -> forallb is_word w = true ->
    exists c w, n = c :: w /\ is_letter c = true /\ Forall (λ c, is_word c = true) w) as Hname.
  { intros n c w -> Hc Hw. exists c, w. split_and!; [done.. |]. apply Forall_forall. intros x Hx%list_elem_of_In. rewrite forallb_forall in Hw. by apply Hw. }
  exact (E ltac:(repeat apply List.Forall_cons; try apply List.Forall_nil; cbn [well_formed]; try (by apply text_avoids); (split; [by eapply Hname | try done]); split_and!; by apply text_avoids)).
Defined.

(** A brace ends a default, also that of a reference inside of it. *)
Example nested_default_cut : expand_env (λ _, None) (bytes_of "${A:-${B:-x}}") = bytes_of "${B:-x}".
Proof. vm_compute. reflexivity. Qed.

(** A size in kilobytes whose bytes do not fit wraps around to a small one, and one that
    is no integer is ignored, where every other setting of another type is refused. *)
Example kilobytes_wrap :
  (let file z := [entry "server" (Table [entry "memory" (Table [entry "bump_capacity_kb" z])])] in
   match from_file (Some (file (Int (2 ^ 54 + 1)))), from_file (Some (file (Str (bytes_of "64")))) with
   | Returns c, Returns d => bump_capacity_bytes (server c) = 1024 /\ bump_capacity_bytes (server d) = 65536
   | _, _ => False
   end) /\ from_file (Some [entry "server" (Table [entry "num_cores" (Str (bytes_of "2"))])]) = Throws invalid_argument.
Proof. vm_compute. done. Qed.
