(* ===== verification/PgPool.v ===== *)
(** * The PostgreSQL connection pool and its transactions

    [apex::shared::adapters::pg::PgPool] (apex_shared/lib/adapters/pg/src/pg_pool.cpp),
    the transaction guard [PgTransactionT] (pg_transaction.hpp) and the four query
    functions of [PgAdapter] (pg_adapter.cpp), which share one shape.

    Connections are heap objects: a [unique_ptr] is an address, [reset] frees it, and
    reading an address that is not allocated is undefined behaviour. libpq and the
    server are outside the repository: whether a connection is made, what a query
    answers and what the server keeps open afterwards are arguments. A pool belongs
    to one core; the coroutines that use it interleave where they wait. *)

From S2P Require Import Prelude ErrorCode.

Module Pg.

(** [status_ok] is [PQstatus == CONNECTION_OK]; [in_txn] is whether the server has a
    transaction open on the connection, which the client does not see. *)
Record PgConnection : Type := mkConn { connected_ : bool; status_ok : bool; poisoned_ : bool; in_txn : bool }.

Definition is_valid (c : PgConnection) : bool := connected_ c && status_ok c.

Record PoolStats : Type := mkStats {
  total_acquired : Z; total_released : Z; total_created : Z; total_destroyed : Z; total_failed : Z;
}.

Record PgPool : Type := mkPool {
  max_size : Z;
  max_idle_time : Z;
  idle_ : list (Z * Z);
  total_count_ : Z;
  active_count_ : Z;
  stats_ : PoolStats;
  heap : gmap Z PgConnection;
  next_ptr : Z;
}.

Definition make_pool (pool_size_per_core max_idle : Z) : PgPool :=
  mkPool (u64 (pool_size_per_core * 2)) max_idle [] 0 0 (mkStats 0 0 0 0 0) ∅ 1.

Definition with_idle (l : list (Z * Z)) (p : PgPool) : PgPool :=
  mkPool (max_size p) (max_idle_time p) l (total_count_ p) (active_count_ p) (stats_ p) (heap p) (next_ptr p).
Definition with_heap (h : gmap Z PgConnection) (p : PgPool) : PgPool :=
  mkPool (max_size p) (max_idle_time p) (idle_ p) (total_count_ p) (active_count_ p) (stats_ p) h (next_ptr p).
Definition with_counts (total active : Z) (s : PoolStats) (p : PgPool) : PgPool :=
  mkPool (max_size p) (max_idle_time p) (idle_ p) total active s (heap p) (next_ptr p).

Definition count_acquired (s : PoolStats) : PoolStats :=
  mkStats (u64 (total_acquired s + 1)) (total_released s) (total_created s) (total_destroyed s) (total_failed s).
Definition count_released (s : PoolStats) : PoolStats :=
  mkStats (total_acquired s) (u64 (total_released s + 1)) (total_created s) (total_destroyed s) (total_failed s).
Definition count_created (s : PoolStats) : PoolStats :=
  mkStats (total_acquired s) (total_released s) (u64 (total_created s + 1)) (total_destroyed s) (total_failed s).
Definition count_destroyed (s : PoolStats) : PoolStats :=
  mkStats (total_acquired s) (total_released s) (total_created s) (u64 (total_destroyed s + 1)) (total_failed s).
Definition count_failed (s : PoolStats) : PoolStats :=
  mkStats (total_acquired s) (total_released s) (total_created s) (total_destroyed s) (u64 (total_failed s + 1)).

Definition deref (c : Z) (p : PgPool) : outcome PgConnection :=
  match heap p !! c with Some x => Returns x | None => Throws undefined_behaviour end.

Definition do_create_connection (p : PgPool) : Z * PgPool :=
  (next_ptr p, mkPool (max_size p) (max_idle_time p) (idle_ p) (total_count_ p) (active_count_ p) (stats_ p)
                 (<[next_ptr p := mkConn false false false false]> (heap p)) (next_ptr p + 1)).

(** [close] and [reset]: the object is gone. *)
Definition do_destroy_connection (c : Z) (p : PgPool) : outcome PgPool :=
  run x <- deref c p; Returns (with_heap (delete c (heap p)) p).

Definition do_validate (c : Z) (p : PgPool) : outcome bool := run x <- deref c p; Returns (is_valid x).

(** Destroy a connection that leaves the pool: the lines three loops share. *)
Definition drop_idle (c : Z) (p : PgPool) : outcome PgPool :=
  run p <- do_destroy_connection c p;
  Returns (with_counts (u64 (total_count_ p - 1)) (active_count_ p) (count_destroyed (stats_ p)) p).

(** The loop of [acquire] over [idle_]: the connection taken, if one is valid. *)
Fixpoint acquire_idle (idle : list (Z * Z)) (p : PgPool) : outcome (option Z * PgPool) :=
  match idle with
  | [] => Returns (None, with_idle [] p)
  | (c, _) :: rest =>
      run ok <- do_validate c p;
      if ok : bool then
        Returns (Some c, with_counts (total_count_ p) (u64 (active_count_ p + 1)) (count_acquired (stats_ p)) (with_idle rest p))
      else run p <- drop_idle c p; acquire_idle rest p
  end.

Definition acquire (p : PgPool) : outcome (Result Z * PgPool) :=
  run (found, p) <- acquire_idle (idle_ p) p;
  match found with
  | Some c => Returns (Ok c, p)
  | None =>
      if total_count_ p <? max_size p then
        let '(c, p) := do_create_connection p in
        Returns (Ok c, with_counts (u64 (total_count_ p + 1)) (u64 (active_count_ p + 1)) (count_acquired (count_created (stats_ p))) p)
      else Returns (Err AdapterError, with_counts (total_count_ p) (active_count_ p) (count_failed (stats_ p)) p)
  end.

Definition discard (c : Z) (p : PgPool) : outcome PgPool :=
  run p <- do_destroy_connection c p;
  Returns (with_counts (if 0 <? total_count_ p then total_count_ p - 1 else total_count_ p)
             (if 0 <? active_count_ p then active_count_ p - 1 else active_count_ p) (count_destroyed (stats_ p)) p).

Definition release (now : Z) (c : Z) (p : PgPool) : outcome PgPool :=
  run x <- deref c p;
  if poisoned_ x then discard c p
  else Returns (with_counts (total_count_ p) (u64 (active_count_ p - 1)) (count_released (stats_ p)) (with_idle (idle_ p ++ [(c, now)]) p)).

(** The loop of [shrink_idle], from the front. *)
Fixpoint shrink_loop (now : Z) (idle : list (Z * Z)) (p : PgPool) : outcome PgPool :=
  match idle with
  | [] => Returns (with_idle [] p)
  | (c, returned_at) :: rest =>
      if now - returned_at <? max_idle_time p then Returns (with_idle idle p)
      else run p <- drop_idle c p; shrink_loop now rest p
  end.
Definition shrink_idle (now : Z) (p : PgPool) : outcome PgPool := shrink_loop now (idle_ p) p.

(** The loop of [health_check_tick] over the [count] entries it started with; those
    that are valid go to the back with a new time, read for each. *)
Fixpoint health_loop (now : Z -> Z) (todo kept : list (Z * Z)) (p : PgPool) : outcome PgPool :=
  match todo with
  | [] => Returns (with_idle kept p)
  | (c, _) :: todo =>
      run ok <- do_validate c p;
      if ok : bool then health_loop now todo (kept ++ [(c, now c)]) p
      else run p <- drop_idle c p; health_loop now todo kept p
  end.
Definition health_check_tick (now : Z -> Z) (p : PgPool) : outcome PgPool := health_loop now (idle_ p) [] p.

Fixpoint close_loop (idle : list (Z * Z)) (p : PgPool) : outcome PgPool :=
  match idle with
  | [] => Returns (with_idle [] p)
  | (c, _) :: rest => run p <- drop_idle c p; close_loop rest p
  end.
Definition close_all (p : PgPool) : outcome PgPool := close_loop (idle_ p) p.

(** [acquire_connected] once [connect_async] has completed with or without error. *)
Definition connect_done (ok : bool) (c : Z) (p : PgPool) : outcome (Result Z * PgPool) :=
  run x <- deref c p;
  if ok then Returns (Ok c, with_heap (<[c := mkConn true true (poisoned_ x) false]> (heap p)) p)
  else run p <- discard c p; Returns (Err AdapterError, p).

(** [acquire_with_retry]: the pool each attempt finds, since others use it during
    the backoff; the attempts left are the bound of the loop. *)
Fixpoint acquire_with_retry (retries : nat) (meanwhile : nat -> PgPool -> outcome PgPool) (p : PgPool) : outcome (Result Z * PgPool) :=
  run (r, p) <- acquire p;
  match r with
  | Ok c => Returns (Ok c, p)
  | Err _ =>
      match retries with
      | O => Returns (Err PoolExhausted, p)
      | S retries => run p <- meanwhile retries p; acquire_with_retry retries meanwhile p
      end
  end.

(** ** Transactions *)

Record PgTransaction : Type := mkTxn { conn_ : Z; begun_ : bool; finished_ : bool }.

Definition make_txn (c : Z) : PgTransaction := mkTxn c false false.

(** What [query_async] came back with: whether it succeeded, and the connection's
    status and the server's transaction afterwards. *)
Record reply : Type := mkReply { r_ok : bool; r_status : bool; r_txn : bool }.

Definition query_async (r : reply) (c : Z) (p : PgPool) : outcome (Result unit * PgPool) :=
  run x <- deref c p;
  Returns (if r_ok r then Ok tt else Err AdapterError,
           with_heap (<[c := mkConn (connected_ x) (r_status r) (poisoned_ x) (r_txn r)]> (heap p)) p).

Definition txn_begin (r : reply) (t : PgTransaction) (p : PgPool) : outcome (Result unit * PgTransaction * PgPool) :=
  run (res, p) <- query_async r (conn_ t) p;
  Returns (res, match res with Ok _ => mkTxn (conn_ t) true (finished_ t) | Err _ => t end, p).

Definition txn_execute (r : reply) (t : PgTransaction) (p : PgPool) : outcome (Result unit * PgPool) :=
  if negb (begun_ t) || finished_ t then Returns (Err AdapterError, p) else query_async r (conn_ t) p.

Definition txn_commit (r : reply) (t : PgTransaction) (p : PgPool) : outcome (Result unit * PgTransaction * PgPool) :=
  if negb (begun_ t) || finished_ t then Returns (Err AdapterError, t, p)
  else
    run (res, p) <- query_async r (conn_ t) p;
    Returns (res, match res with Ok _ => mkTxn (conn_ t) (begun_ t) true | Err _ => t end, p).

Definition txn_rollback (r : reply) (t : PgTransaction) (p : PgPool) : outcome (Result unit * PgTransaction * PgPool) :=
  if negb (begun_ t) || finished_ t then Returns (Err AdapterError, t, p)
  else run (res, p) <- query_async r (conn_ t) p; Returns (res, mkTxn (conn_ t) (begun_ t) true, p).

(** The destructor. *)
Definition txn_destroy (t : PgTransaction) (p : PgPool) : outcome PgPool :=
  if begun_ t && negb (finished_ t) then
    run x <- deref (conn_ t) p;
    Returns (with_heap (<[conn_ t := mkConn (connected_ x) (status_ok x) true (in_txn x)]> (heap p)) p)
  else Returns p.

(** ** The query functions of the adapter, after the connection is there *)

Definition query_done (now : Z) (r : reply) (c : Z) (p : PgPool) : outcome (Result unit * PgPool) :=
  run (res, p) <- query_async r c p;
  run p <- match res with Ok _ => release now c p | Err _ => discard c p end;
  Returns (res, p).

End Pg.
Import Pg.

(** ** The pool's invariant *)

Ltac pool_simpl := cbn [max_size max_idle_time idle_ total_count_ active_count_ stats_ heap next_ptr with_idle with_heap with_counts
  total_acquired total_released total_created total_destroyed total_failed count_acquired count_released count_created count_destroyed count_failed
  fmap list_fmap fst snd app outcome_bind] in *.

(** What depends on the server and on rollbacks arriving is under the assumption
    [R], so that memory safety and exclusivity do not rest on it. *)
Section PoolInvariant.
Context {R : Prop}.

(** Safe to hand to the next client. *)
Definition clean (x : PgConnection) : Prop := poisoned_ x = false /\ (R -> is_valid x = true -> in_txn x = false).

(** [held] are the connections clients have. *)
Record pool_ok (held : list Z) (p : PgPool) : Prop := {
  po_nodup : NoDup ((idle_ p).*1 ++ held);
  po_dom c : is_Some (heap p !! c) <-> c ∈ (idle_ p).*1 ++ held;
  po_active : active_count_ p = len held;
  po_total : total_count_ p = len (idle_ p) + len held;
  po_max : total_count_ p <= max_size p < 2 ^ 64;
  po_clean c x : c ∈ (idle_ p).*1 -> heap p !! c = Some x -> clean x;
  po_next c : is_Some (heap p !! c) -> c < next_ptr p;
  po_stats : total_created (stats_ p) = u64 (total_destroyed (stats_ p) + total_count_ p);
}.

(** An operation leaves the connections of clients alone. *)
Definition keeps (held : list Z) (p p' : PgPool) : Prop := max_size p' = max_size p /\ forall c, c ∈ held -> heap p' !! c = heap p !! c.

Lemma keeps_refl held p : keeps held p p.
Proof. done. Qed.

Lemma keeps_trans held p1 p2 p3 : keeps held p1 p2 -> keeps held p2 p3 -> keeps held p1 p3.
Proof. intros [Hm1 H1] [Hm2 H2]. split; [congruence |]. intros c Hc. rewrite H2, H1; done. Qed.

#[global] Instance pool_ok_perm : Proper ((≡ₚ) ==> eq ==> iff) pool_ok.
Proof.
  assert (forall h1 h2 p, h1 ≡ₚ h2 -> pool_ok h1 p -> pool_ok h2 p) as H.
  { intros h1 h2 p E [Hn Hd Ha Ht Hm Hc Hx Hs]. assert (len h1 = len h2) as El by (unfold len; by rewrite E).
    split; try done; try (rewrite <- El; done).
    - by rewrite <- E.
    - intros c. rewrite Hd. by rewrite E. }
  intros h1 h2 E p ? <-. split; apply H; [done | by symmetry].
Qed.

Lemma held_live held p c : pool_ok held p -> c ∈ held -> exists x, heap p !! c = Some x.
Proof. intros Hp Hc. apply (po_dom _ _ Hp). set_solver. Qed.

Lemma drop_idle_ok held c t rest p : pool_ok held (with_idle ((c, t) :: rest) p) ->
  exists p', drop_idle c p = Returns p' /\ pool_ok held (with_idle rest p') /\ keeps held p p' /\ max_idle_time p' = max_idle_time p.
Proof.
  intros [Hn Hd Ha Ht Hm Hc Hx Hs]. pool_simpl. rewrite NoDup_cons in Hn. destruct Hn as [Hnc Hn].
  assert (exists x, heap p !! c = Some x) as [x Hxc] by (apply Hd; left).
  unfold drop_idle, do_destroy_connection, deref. rewrite Hxc. pool_simpl. eexists. split; [done |].
  rewrite len_cons in *. pose proof (len_nonneg rest). pose proof (len_nonneg held).
  assert (Hu : u64 (total_count_ p - 1) = total_count_ p - 1) by (apply wrap_small; unfold in_width; lia).
  split_and!; [| split; [done |] | done].
  - split; pool_simpl; rewrite ?Hu; try done; try lia.
    + intros c'. destruct (decide (c' = c)) as [-> |]; [rewrite lookup_delete_eq; split; [by intros [? ?] | done] |].
      rewrite lookup_delete_ne, Hd by done. rewrite elem_of_cons. naive_solver.
    + intros c' x' Hin. destruct (decide (c' = c)) as [-> |]; [by rewrite lookup_delete_eq |]. rewrite lookup_delete_ne by done. apply Hc. by right.
    + intros c' [x' Hx']. apply Hx. destruct (decide (c' = c)) as [-> |]; [by rewrite lookup_delete_eq in Hx' |]. rewrite lookup_delete_ne in Hx' by done. by eexists.
    + rewrite Hs, wrap_add_l. f_equal. lia.
  - intros c' Hc'. pool_simpl. rewrite lookup_delete_ne; [done |]. intros ->. apply Hnc. rewrite elem_of_app. by right.
Qed.

Lemma shrink_loop_ok held now idle p : pool_ok held (with_idle idle p) ->
  exists p', shrink_loop now idle p = Returns p' /\ pool_ok held p' /\ keeps held p p'.
Proof.
  revert p. induction idle as [| [c t] idle IH]; intros p Hp; cbn [shrink_loop]; [by eexists |].
  destruct (now - t <? max_idle_time p); [by eexists |].
  destruct (drop_idle_ok held c t idle p Hp) as (p1 & -> & Hp1 & Hk1 & _). cbn [outcome_bind].
  destruct (IH p1 Hp1) as (p' & -> & Hp' & Hk'). exists p'. split_and!; [done.. | by eapply keeps_trans].
Qed.

Lemma close_loop_ok held idle p : pool_ok held (with_idle idle p) ->
  exists p', close_loop idle p = Returns p' /\ pool_ok held p' /\ keeps held p p' /\ idle_ p' = [].
Proof.
  revert p. induction idle as [| [c t] idle IH]; intros p Hp; cbn [close_loop]; [by eexists |].
  destruct (drop_idle_ok held c t idle p Hp) as (p1 & -> & Hp1 & Hk1 & _). cbn [outcome_bind].
  destruct (IH p1 Hp1) as (p' & -> & Hp' & Hk' & Hi'). exists p'. split_and!; [done.. | by eapply keeps_trans | done].
Qed.

Lemma with_idle_perm held l1 l2 p : l1.*1 ≡ₚ l2.*1 -> pool_ok held (with_idle l1 p) -> pool_ok held (with_idle l2 p).
Proof.
  intros E [Hn Hd Ha Ht Hm Hc Hx Hs]. pool_simpl.
  assert (len l1 = len l2) as El by (unfold len; rewrite <- (length_fmap fst l1), <- (length_fmap fst l2), E; done).
  split; pool_simpl; rewrite <- ?El; try done.
  - by rewrite <- E.
  - intros c. rewrite Hd. by rewrite E.
  - intros c x Hin. apply Hc. by rewrite E.
Qed.

Lemma health_loop_ok held now todo kept p : pool_ok held (with_idle (todo ++ kept) p) ->
  exists p', health_loop now todo kept p = Returns p' /\ pool_ok held p' /\ keeps held p p'.
Proof.
  revert kept p. induction todo as [| [c t] todo IH]; intros kept p Hp; cbn [health_loop]; [by eexists |].
  assert (exists x, heap p !! c = Some x) as [x Hx] by (apply (po_dom _ _ Hp); left).
  unfold do_validate, deref. rewrite Hx. cbn [outcome_bind]. destruct (is_valid x).
  - apply IH. eapply with_idle_perm; [| exact Hp]. cbn. rewrite !fmap_app. cbn. solve_Permutation.
  - destruct (drop_idle_ok held c t (todo ++ kept) p Hp) as (p1 & -> & Hp1 & Hk1 & _). cbn [outcome_bind].
    destruct (IH kept p1 Hp1) as (p' & -> & Hp' & Hk'). exists p'. split_and!; [done.. | by eapply keeps_trans].
Qed.

(** A connection of the idle list becomes a client's. *)
Lemma take_idle_ok held c t rest p : pool_ok held (with_idle ((c, t) :: rest) p) ->
  pool_ok (c :: held) (with_counts (total_count_ p) (u64 (active_count_ p + 1)) (count_acquired (stats_ p)) (with_idle rest p)) /\ c ∉ held.
Proof.
  intros [Hn Hd Ha Ht Hm Hc Hx Hs]. pool_simpl.
  assert (E : c :: rest.*1 ++ held ≡ₚ rest.*1 ++ c :: held) by solve_Permutation.
  pose proof (len_nonneg rest). pose proof (len_nonneg held). rewrite len_cons in Ht. split.
  - split; pool_simpl; rewrite ?len_cons; try done; try lia.
    + by rewrite <- E.
    + intros c'. by rewrite Hd, E.
    + rewrite wrap_small by (unfold in_width; lia). lia.
    + intros c' x' Hin. apply Hc. by right.
  - rewrite NoDup_cons, elem_of_app in Hn. tauto.
Qed.

Lemma acquire_idle_ok held idle p : pool_ok held (with_idle idle p) ->
  exists r p', acquire_idle idle p = Returns (r, p') /\ keeps held p p' /\
    match r with
    | Some c => pool_ok (c :: held) p' /\ (c ∉ held) /\ (exists x, heap p' !! c = Some x /\ is_valid x = true /\ clean x)
    | None => pool_ok held p' /\ idle_ p' = []
    end.
Proof.
  revert p. induction idle as [| [c t] idle IH]; intros p Hp; cbn [acquire_idle]; [by eexists _, _ |].
  assert (exists x, heap p !! c = Some x) as [x Hx] by (apply (po_dom _ _ Hp); left).
  unfold do_validate, deref. rewrite Hx. cbn [outcome_bind]. destruct (is_valid x) eqn:Ev.
  - eexists _, _. split; [done |]. split; [done |]. destruct (take_idle_ok held c t idle p Hp) as [Hp' Hc]. split_and!; [done.. |].
    exists x. split_and!; [done.. |]. apply (po_clean _ _ Hp c x); [left | done].
  - destruct (drop_idle_ok held c t idle p Hp) as (p1 & -> & Hp1 & Hk1 & _). cbn [outcome_bind].
    destruct (IH p1 Hp1) as (r & p' & -> & Hk' & H'). exists r, p'. split_and!; [done | by eapply keeps_trans | done].
Qed.

(** [acquire] succeeds with a connection no client has, valid and free of
    transactions or new; it fails only when clients hold [max_size] connections. *)
Lemma acquire_ok held p : pool_ok held p ->
  exists r p', acquire p = Returns (r, p') /\ keeps held p p' /\
    match r with
    | Ok c => pool_ok (c :: held) p' /\ (c ∉ held) /\
        exists x, heap p' !! c = Some x /\ poisoned_ x = false /\ (R -> in_txn x = false) /\ (connected_ x = true -> is_valid x = true)
    | Err e => e = AdapterError /\ pool_ok held p' /\ len held = max_size p
    end.
Proof.
  intros Hp. assert (Hp0 : pool_ok held (with_idle (idle_ p) p)) by (by destruct p). unfold acquire.
  destruct (acquire_idle_ok held (idle_ p) p Hp0) as (r & p1 & -> & Hk1 & H1). cbn [outcome_bind]. destruct r as [c |].
  { eexists _, _. split; [done |]. split; [done |]. destruct H1 as (Hp1 & Hc & x & Hx & Hv & Hcl). split_and!; [done.. |].
    exists x. split_and!; [done | apply Hcl | intros; by apply Hcl | done]. }
  destruct H1 as [Hp1 Hi1]. destruct Hp1 as [Hn Hd Ha Ht Hm Hc Hx Hs] eqn:Eok. clear Eok. rewrite Hi1 in *. pool_simpl. rewrite len_nil in Ht.
  pose proof (len_nonneg held). destruct (Z.ltb_spec (total_count_ p1) (max_size p1)).
  2:{ eexists _, _. split; [done |]. split; [done |]. split; [done |]. split; [split; pool_simpl; rewrite ?Hi1; pool_simpl; rewrite ?len_nil; try done |].
      destruct Hk1 as [<- _]. lia. }
  unfold do_create_connection. eexists _, _. split; [done |].
  assert (Hnew : heap p1 !! next_ptr p1 = None) by (destruct (heap p1 !! next_ptr p1) eqn:E; [pose proof (Hx (next_ptr p1) ltac:(by eexists)); lia | done]).
  assert (Hnh : next_ptr p1 ∉ held) by (intros Hin; apply Hd in Hin as [x Hin]; congruence).
  assert (Hu : u64 (total_count_ p1 + 1) = total_count_ p1 + 1 /\ u64 (active_count_ p1 + 1) = active_count_ p1 + 1)
    by (split; apply wrap_small; unfold in_width; lia).
  destruct Hu as [Hu1 Hu2]. split; [| split_and!; [| done |]].
  - eapply keeps_trans; [exact Hk1 |]. split; [done |]. intros c Hin. pool_simpl. rewrite lookup_insert_ne; [done | congruence].
  - split; pool_simpl; rewrite ?Hi1, ?Hu1, ?Hu2, ?len_cons; pool_simpl; rewrite ?len_nil; try done; try lia.
    + by constructor.
    + intros c. destruct (decide (c = next_ptr p1)) as [-> |]; [rewrite lookup_insert_eq; split; [left | by eexists] |].
      rewrite lookup_insert_ne, Hd, elem_of_cons by done. naive_solver.
    + intros c x Hin. by apply not_elem_of_nil in Hin.
    + intros c [x Hin]. destruct (decide (c = next_ptr p1)) as [-> |]; [lia |]. rewrite lookup_insert_ne in Hin by done.
      pose proof (Hx c ltac:(by eexists)). lia.
    + rewrite Hs, wrap_add_l. f_equal. lia.
  - exists (mkConn false false false false). pool_simpl. rewrite lookup_insert_eq. done.
Qed.

(** A client's connection goes back, or away. *)
Lemma discard_ok held c p : pool_ok (c :: held) p ->
  exists p', discard c p = Returns p' /\ pool_ok held p' /\ keeps held p p' /\ heap p' !! c = None.
Proof.
  intros Hp. destruct (held_live _ _ c Hp ltac:(left)) as [x Hx]. destruct Hp as [Hn Hd Ha Ht Hm Hc Hnx Hs].
  unfold discard, do_destroy_connection, deref. rewrite Hx. pool_simpl. eexists. split; [done |].
  assert (E : c :: (idle_ p).*1 ++ held ≡ₚ (idle_ p).*1 ++ c :: held) by solve_Permutation. rewrite <- E in Hn. apply NoDup_cons in Hn as [Hnc Hn].
  rewrite len_cons in *. pose proof (len_nonneg (idle_ p)). pose proof (len_nonneg held).
  rewrite (proj2 (Z.ltb_lt 0 (total_count_ p))), (proj2 (Z.ltb_lt 0 (active_count_ p))) by lia. split_and!; [| split; [done |] | apply lookup_delete_eq].
  - split; pool_simpl; try done; try lia.
    + intros c'. destruct (decide (c' = c)) as [-> |]; [rewrite lookup_delete_eq; split; [by intros [? ?] | done] |].
      rewrite lookup_delete_ne, Hd, <- E, elem_of_cons by done. naive_solver.
    + intros c' x' Hin. destruct (decide (c' = c)) as [-> |]; [by rewrite lookup_delete_eq |]. rewrite lookup_delete_ne by done. by apply Hc.
    + intros c' [x' Hx']. destruct (decide (c' = c)) as [-> |]; [by rewrite lookup_delete_eq in Hx' |]. rewrite lookup_delete_ne in Hx' by done. apply Hnx. by eexists.
    + rewrite Hs, wrap_add_l. f_equal. lia.
  - intros c' Hc'. pool_simpl. rewrite lookup_delete_ne; [done |]. intros ->. apply Hnc. rewrite elem_of_app. by right.
Qed.

Lemma release_ok held now c x p : pool_ok (c :: held) p -> heap p !! c = Some x -> (poisoned_ x = false -> clean x) ->
  exists p', release now c p = Returns p' /\ pool_ok held p' /\ keeps held p p'.
Proof.
  intros Hp Hx Hcl. unfold release, deref. rewrite Hx. cbn [outcome_bind]. destruct (poisoned_ x) eqn:Ep.
  { destruct (discard_ok held c p Hp) as (p' & -> & Hp' & Hk' & _). by exists p'. }
  destruct Hp as [Hn Hd Ha Ht Hm Hc Hnx Hs]. eexists. split; [done |]. split; [| done].
  assert (E : (idle_ p).*1 ++ c :: held ≡ₚ ((idle_ p).*1 ++ [c]) ++ held) by solve_Permutation.
  rewrite len_cons in *. pose proof (len_nonneg (idle_ p)). pose proof (len_nonneg held).
  split; pool_simpl; rewrite ?len_app, ?len_cons, ?len_nil; try done; try lia.
  - rewrite fmap_app. cbn. by rewrite <- E.
  - intros c'. rewrite fmap_app. cbn. by rewrite Hd, E.
  - rewrite wrap_small by (unfold in_width; lia). lia.
  - intros c' x'. rewrite fmap_app, elem_of_app. cbn. intros [Hin | ->%list_elem_of_singleton] Hx'; [by eapply Hc |].
    rewrite Hx in Hx'. injection Hx' as <-. by apply Hcl.
Qed.

(** A client uses its connection. *)
Lemma use_ok held c x p : pool_ok (c :: held) p -> pool_ok (c :: held) (with_heap (<[c := x]> (heap p)) p) /\ keeps held p (with_heap (<[c := x]> (heap p)) p).
Proof.
  intros Hp. destruct (held_live _ _ c Hp ltac:(left)) as [x0 Hx0]. destruct Hp as [Hn Hd Ha Ht Hm Hc Hnx Hs].
  assert (E : c :: (idle_ p).*1 ++ held ≡ₚ (idle_ p).*1 ++ c :: held) by solve_Permutation. pose proof Hn as Hn'. rewrite <- E in Hn'.
  apply NoDup_cons in Hn' as [Hnc _]. rewrite elem_of_app in Hnc.
  assert (Hdom : forall c', is_Some (<[c := x]> (heap p) !! c') <-> is_Some (heap p !! c')).
  { intros c'. destruct (decide (c' = c)) as [-> |]; [rewrite lookup_insert_eq, Hx0; done | by rewrite lookup_insert_ne]. }
  split; [split; pool_simpl; try done |].
  - intros c'. by rewrite Hdom.
  - intros c' x' Hin. rewrite lookup_insert_ne; [by apply Hc |]. intros ->. tauto.
  - intros c'. rewrite Hdom. apply Hnx.
  - split; [done |]. intros c' Hin. pool_simpl. rewrite lookup_insert_ne; [done |]. intros ->. tauto.
Qed.

Lemma make_pool_ok pool_size max_idle : 0 <= pool_size < 2 ^ 63 -> pool_ok [] (make_pool pool_size max_idle).
Proof.
  intros Hs. assert (Hmax : u64 (pool_size * 2) = 2 * pool_size) by (rewrite wrap_small by (unfold in_width; lia); lia).
  unfold make_pool. split; cbn [idle_ heap total_count_ active_count_ max_size next_ptr stats_ total_created total_destroyed fmap list_fmap app]; try done.
  - constructor.
  - intros c. rewrite lookup_empty. split; [by intros [? ?] | by intros ?%not_elem_of_nil].
  - rewrite Hmax. lia.
  - intros c [x Hx]. by rewrite lookup_empty in Hx.
Qed.

End PoolInvariant.
Arguments clean R x : clear implicits.
Arguments pool_ok R held p : clear implicits.

(** ** Clients *)

Module PgClients.

(** A coroutine that has a connection: whether it waits for [connect_async], and the
    transaction object in its scope. *)
Record client : Type := mkClient { cl_conn : Z; cl_connecting : bool; cl_txn : option PgTransaction }.

(** [outlived] are the transaction objects still in the scope of a coroutine that has
    given its connection back; all that is left for them is their destructor. *)
Record world : Type := mkWorld { pool : PgPool; clients : gmap nat client; outlived : gmap nat PgTransaction }.

Inductive event : Type :=
| Acquire (k : nat)
| Connected (k : nat) (ok : bool)
| Query (k : nat) (r : reply)
| Begin (k : nat) (r : reply)
| Execute (k : nat) (r : reply)
| Commit (k : nat) (r : reply)
| Rollback (k : nat) (r : reply)
| EndTxn (k : nat)
| Release (k : nat) (now : Z)
| Discard (k : nat)
| Shrink (now : Z)
| HealthCheck (now : Z -> Z)
| CloseAll
| Break (c : Z).

Definition set_client (k : nat) (cl : client) (r : outcome PgPool) (w : world) : outcome world :=
  run p <- r; Returns (mkWorld p (<[k := cl]> (clients w)) (outlived w)).
Definition drop_client (k : nat) (t : option PgTransaction) (r : outcome PgPool) (w : world) : outcome world :=
  run p <- r; Returns (mkWorld p (delete k (clients w)) (match t with Some t => <[k := t]> (outlived w) | None => outlived w end)).

(** A client with a connection and, when [f] needs one, a transaction. *)
Definition with_client (k : nat) (f : client -> option (outcome world)) (w : world) : option (outcome world) :=
  match clients w !! k with
  | Some cl => if cl_connecting cl then None else f cl
  | None => None
  end.

Definition exec (e : event) (w : world) : option (outcome world) :=
  match e with
  | Acquire k =>
      match clients w !! k, outlived w !! k with
      | None, None => Some (
          run (r, p) <- acquire (pool w);
          match r with
          | Ok c => run x <- deref c p; Returns (mkWorld p (<[k := mkClient c (negb (connected_ x)) None]> (clients w)) (outlived w))
          | Err _ => Returns (mkWorld p (clients w) (outlived w))
          end)
      | _, _ => None
      end
  | Connected k ok =>
      match clients w !! k with
      | Some (mkClient c true t) => Some (
          run (r, p) <- connect_done ok c (pool w);
          Returns (mkWorld p (match r with Ok _ => <[k := mkClient c false t]> (clients w) | Err _ => delete k (clients w) end) (outlived w)))
      | _ => None
      end
  | Query k r => with_client k (λ cl,
      match cl_txn cl with
      | None => Some (run (_, p) <- query_async r (cl_conn cl) (pool w); Returns (mkWorld p (clients w) (outlived w)))
      | Some _ => None
      end) w
  | Begin k r => with_client k (λ cl,
      match cl_txn cl with
      | None => Some (run (_, t, p) <- txn_begin r (make_txn (cl_conn cl)) (pool w); set_client k (mkClient (cl_conn cl) false (Some t)) (Returns p) w)
      | Some _ => None
      end) w
  | Execute k r => with_client k (λ cl,
      match cl_txn cl with
      | Some t => Some (run (_, p) <- txn_execute r t (pool w); Returns (mkWorld p (clients w) (outlived w)))
      | None => None
      end) w
  | Commit k r => with_client k (λ cl,
      match cl_txn cl with
      | Some t => Some (run (_, t, p) <- txn_commit r t (pool w); set_client k (mkClient (cl_conn cl) false (Some t)) (Returns p) w)
      | None => None
      end) w
  | Rollback k r => with_client k (λ cl,
      match cl_txn cl with
      | Some t => Some (run (_, t, p) <- txn_rollback r t (pool w); set_client k (mkClient (cl_conn cl) false (Some t)) (Returns p) w)
      | None => None
      end) w
  | EndTxn k =>
      match outlived w !! k with
      | Some t => Some (run p <- txn_destroy t (pool w); Returns (mkWorld p (clients w) (delete k (outlived w))))
      | None => with_client k (λ cl,
          match cl_txn cl with
          | Some t => Some (set_client k (mkClient (cl_conn cl) false None) (txn_destroy t (pool w)) w)
          | None => None
          end) w
      end
  | Release k now => with_client k (λ cl, Some (drop_client k (cl_txn cl) (release now (cl_conn cl) (pool w)) w)) w
  | Discard k => with_client k (λ cl, Some (drop_client k (cl_txn cl) (discard (cl_conn cl) (pool w)) w)) w
  | Shrink now => Some (run p <- shrink_idle now (pool w); Returns (mkWorld p (clients w) (outlived w)))
  | HealthCheck now => Some (run p <- health_check_tick now (pool w); Returns (mkWorld p (clients w) (outlived w)))
  | CloseAll => Some (run p <- close_all (pool w); Returns (mkWorld p (clients w) (outlived w)))
  | Break c =>
      match heap (pool w) !! c with
      | Some x => Some (Returns (mkWorld (with_heap (<[c := mkConn (connected_ x) false (poisoned_ x) (in_txn x)]> (heap (pool w))) (pool w)) (clients w) (outlived w)))
      | None => None
      end
  end.

Fixpoint exec_all (es : list event) (w : world) : option (outcome world) :=
  match es with
  | [] => Some (Returns w)
  | e :: es =>
      match exec e w with
      | Some (Returns w) => exec_all es w
      | Some (Throws x) => Some (Throws x)
      | None => None
      end
  end.

(** What PostgreSQL does: outside a transaction a statement leaves none open, a
    [BEGIN] that fails opens none, a [COMMIT] that succeeds closes it; unless the
    connection is lost. The condition on [ROLLBACK] is not only the server's: one
    that is reported as failed on a connection that stays up must have closed the
    transaction all the same ([failed_rollback_leaks_transaction]). *)
Definition event_ok (e : event) : Prop :=
  match e with
  | Query _ r | Rollback _ r => r_status r = true -> r_txn r = false
  | Begin _ r => r_ok r = false -> r_status r = true -> r_txn r = false
  | Commit _ r => r_ok r = true -> r_status r = true -> r_txn r = false
  | _ => True
  end.

(** A client's transaction object is destroyed before the connection it refers to is
    given back ([discard_in_transaction_use_after_free]). *)
Definition scoped (e : event) (w : world) : Prop :=
  match e with
  | Release k _ | Discard k => forall cl, clients w !! k = Some cl -> cl_txn cl = None
  | _ => True
  end.

(** [P] at each step of a run. *)
Fixpoint along (P : event -> world -> Prop) (es : list event) (w : world) : Prop :=
  match es with
  | [] => True
  | e :: es => P e w /\ match exec e w with Some (Returns w) => along P es w | _ => True end
  end.

Definition empty_world (pool_size max_idle : Z) : world := mkWorld (make_pool pool_size max_idle) ∅ ∅.

End PgClients.
Import PgClients.

Section Worlds.
Context {R : Prop}.

(** The connections the clients hold. *)
Definition holds (m : gmap nat client) : list Z := (λ kc, cl_conn kc.2) <$> map_to_list m.

(** A client's connection is free of transactions but for the one in its scope. *)
Definition client_ok (p : PgPool) (cl : client) : Prop :=
  exists x, heap p !! cl_conn cl = Some x /\
    match cl_txn cl with
    | None => R -> poisoned_ x = false -> is_valid x = true -> in_txn x = false
    | Some t => conn_ t = cl_conn cl /\ (finished_ t = true -> begun_ t = true) /\
        (begun_ t && negb (finished_ t) = false -> R -> poisoned_ x = false -> is_valid x = true -> in_txn x = false)
    end.

Record world_ok (w : world) : Prop := {
  wo_pool : pool_ok R (holds (clients w)) (pool w);
  wo_clients k cl : clients w !! k = Some cl -> client_ok (pool w) cl;
  wo_outlived : outlived w = ∅;
}.

Lemma outlived_none w k : world_ok w -> outlived w !! k = None.
Proof. intros Hw. by rewrite (wo_outlived _ Hw), lookup_empty. Qed.

Lemma holds_insert m k cl : m !! k = None -> holds (<[k := cl]> m) ≡ₚ cl_conn cl :: holds m.
Proof. intros Hk. unfold holds. by rewrite map_to_list_insert by done. Qed.

Lemma holds_delete m k cl : m !! k = Some cl -> holds m ≡ₚ cl_conn cl :: holds (delete k m).
Proof. intros Hk. unfold holds. by rewrite <- (map_to_list_delete m k cl) by done. Qed.

Lemma holds_replace m k cl cl' : m !! k = Some cl -> cl_conn cl' = cl_conn cl -> holds (<[k := cl']> m) ≡ₚ holds m.
Proof. intros Hk E. rewrite (holds_delete m k cl Hk), <- E, <- insert_delete_eq. apply holds_insert, lookup_delete_eq. Qed.

Lemma holds_elem m k cl : m !! k = Some cl -> cl_conn cl ∈ holds m.
Proof. intros Hk. rewrite (holds_delete m k cl Hk). left. Qed.

Lemma client_ok_keep p p' cl : heap p' !! cl_conn cl = heap p !! cl_conn cl -> client_ok p cl -> client_ok p' cl.
Proof. intros E (x & Hx & H). exists x. by rewrite E. Qed.

(** The other clients are unaffected by what keeps their connections. *)
Lemma others_ok w k p' : world_ok w -> keeps (holds (delete k (clients w))) (pool w) p' ->
  forall k' cl, delete k (clients w) !! k' = Some cl -> client_ok p' cl.
Proof.
  intros Hw [_ Hk] k' cl Hcl. eapply client_ok_keep; [apply Hk; by eapply holds_elem |].
  apply (wo_clients _ Hw k'). by apply lookup_delete_Some in Hcl as [_ ?].
Qed.

Lemma use_conn_ok w k cl cl' x : world_ok w -> clients w !! k = Some cl -> cl_conn cl' = cl_conn cl ->
  let p' := with_heap (<[cl_conn cl := x]> (heap (pool w))) (pool w) in
  client_ok p' cl' -> world_ok (mkWorld p' (<[k := cl']> (clients w)) (outlived w)).
Proof.
  intros Hw Hk E p' Hcl'. pose proof (wo_pool _ Hw) as Hp. rewrite (holds_delete _ _ _ Hk) in Hp.
  destruct (use_ok _ _ x _ Hp) as [Hp' Hkeep]. split; cbn [pool clients outlived]; [| | apply Hw].
  - rewrite (holds_replace _ _ _ _ Hk E), (holds_delete _ _ _ Hk). done.
  - intros k' cl0. destruct (decide (k' = k)) as [-> |]; [rewrite lookup_insert_eq; by intros [= <-] |]. rewrite lookup_insert_ne by done.
    intros H0. eapply (others_ok w k); [done | exact Hkeep | by rewrite lookup_delete_ne].
Qed.

(** An operation that gives a client's connection back or destroys it. *)
Lemma give_back_ok w k cl p' : world_ok w -> clients w !! k = Some cl ->
  pool_ok R (holds (delete k (clients w))) p' -> keeps (holds (delete k (clients w))) (pool w) p' -> world_ok (mkWorld p' (delete k (clients w)) (outlived w)).
Proof. intros Hw Hk Hp' Hkeep. split; [done | | apply Hw]. by eapply others_ok. Qed.

Lemma maintain_ok w p' : world_ok w -> pool_ok R (holds (clients w)) p' -> keeps (holds (clients w)) (pool w) p' -> world_ok (mkWorld p' (clients w) (outlived w)).
Proof.
  intros Hw Hp' [_ Hkeep]. split; [done | | apply Hw]. cbn. intros k cl Hcl. eapply client_ok_keep; [apply Hkeep; by eapply holds_elem | by apply (wo_clients _ Hw k)].
Qed.

Lemma break_ok w c x : world_ok w -> heap (pool w) !! c = Some x ->
  world_ok (mkWorld (with_heap (<[c := mkConn (connected_ x) false (poisoned_ x) (in_txn x)]> (heap (pool w))) (pool w)) (clients w) (outlived w)).
Proof.
  intros [[Hn Hd Ha Ht Hm Hc Hx Hs] Hcl Hout] Ec.
  assert (Hdom : forall c' y, is_Some (<[c := y]> (heap (pool w)) !! c') <-> is_Some (heap (pool w) !! c')).
  { intros c' y. destruct (decide (c' = c)) as [-> |]; [rewrite lookup_insert_eq, Ec; done | by rewrite lookup_insert_ne]. }
  assert (Hbroken : forall b, is_valid (mkConn b false (poisoned_ x) (in_txn x)) = true -> False) by (intros b; unfold is_valid; cbn; by rewrite andb_false_r).
  split; cbn [pool clients outlived]; [split; pool_simpl; try done | | done].
  - intros c'. by rewrite Hdom.
  - intros c' x' Hin. destruct (decide (c' = c)) as [-> |]; [| rewrite lookup_insert_ne by done; by apply Hc].
    rewrite lookup_insert_eq. intros [= <-]. destruct (Hc c x Hin Ec) as [Hpo _]. split; [exact Hpo |]. intros _ E. by apply Hbroken in E.
  - intros c'. rewrite Hdom. apply Hx.
  - intros k cl Hk. destruct (Hcl k cl Hk) as (x0 & Hx0 & H0). destruct (decide (cl_conn cl = c)) as [Ecl |].
    + rewrite Ecl in Hx0. rewrite Ec in Hx0. injection Hx0 as <-. eexists. pool_simpl. rewrite Ecl, lookup_insert_eq. split; [done |].
      destruct (cl_txn cl) as [t |]; [| intros _ _ E; by apply Hbroken in E]. destruct H0 as (H1 & H2 & _). rewrite <- Ecl. split_and!; [done.. |].
      intros _ _ _ E. by apply Hbroken in E.
    + exists x0. pool_simpl. by rewrite lookup_insert_ne.
Qed.

Lemma acquire_step w k o : world_ok w -> exec (Acquire k) w = Some o -> exists w', o = Returns w' /\ world_ok w' /\ max_size (pool w') = max_size (pool w).
Proof.
  intros Hw E. cbn [exec] in E. rewrite (outlived_none w k Hw) in E. destruct (clients w !! k) eqn:Ek; [done |]. injection E as <-.
  destruct (acquire_ok _ _ (wo_pool _ Hw)) as (r & p' & -> & Hk & H). cbn [outcome_bind]. destruct r as [c | e].
  - destruct H as (Hp' & Hc & x & Hx & Hpo & Ht & Hv). unfold deref. rewrite Hx. cbn [outcome_bind]. eexists. split; [done |]. split; [| apply Hk].
    split; cbn [pool clients outlived]; [by rewrite holds_insert | | by apply wo_outlived]. intros k' cl. destruct (decide (k' = k)) as [-> |].
    + rewrite lookup_insert_eq. intros [= <-]. exists x. split; [done |]. cbn. intros HR _ _. by apply Ht.
    + rewrite lookup_insert_ne by done. intros Hcl. eapply client_ok_keep; [apply Hk; by eapply holds_elem | by apply (wo_clients _ Hw k')].
  - destruct H as (_ & Hp' & _). eexists. split; [done |]. split; [by apply maintain_ok | apply Hk].
Qed.

Lemma connected_step w k ok o : world_ok w -> exec (Connected k ok) w = Some o -> exists w', o = Returns w' /\ world_ok w' /\ max_size (pool w') = max_size (pool w).
Proof.
  intros Hw E. cbn [exec] in E. destruct (clients w !! k) as [[c [] t] |] eqn:Ek; try done. injection E as <-.
  destruct (wo_clients _ Hw k _ Ek) as (x & Hx & H). cbn [cl_conn cl_txn] in *. unfold connect_done, deref. rewrite Hx. cbn [outcome_bind]. destruct ok.
  - cbn [outcome_bind]. eexists. split; [done |]. split; [| done]. eapply (use_conn_ok w k (mkClient c true t)); [done.. |].
    eexists. pool_simpl. rewrite lookup_insert_eq. split; [done |]. destruct t as [t |]; [| done]. destruct H as (? & ? & _). done.
  - pose proof (wo_pool _ Hw) as Hp. rewrite (holds_delete _ _ _ Ek) in Hp. cbn [cl_conn] in Hp. destruct (discard_ok _ _ _ Hp) as (p' & -> & Hp' & Hk & _).
    cbn [outcome_bind]. eexists. split; [done |]. split; [by eapply give_back_ok | apply Hk].
Qed.

(** A query on the connection of client [k], after which [cl'] describes it. *)
Lemma query_step w k cl cl' r : world_ok w -> clients w !! k = Some cl -> cl_conn cl' = cl_conn cl ->
  (forall x, heap (pool w) !! cl_conn cl = Some x ->
     match cl_txn cl' with
     | None => R -> r_status r = true -> r_txn r = false
     | Some t => conn_ t = cl_conn cl /\ (finished_ t = true -> begun_ t = true) /\ (begun_ t && negb (finished_ t) = false -> R -> r_status r = true -> r_txn r = false)
     end) ->
  exists p', query_async r (cl_conn cl) (pool w) = Returns (if r_ok r then Ok tt else Err AdapterError, p') /\
    world_ok (mkWorld p' (<[k := cl']> (clients w)) (outlived w)) /\ max_size p' = max_size (pool w).
Proof.
  intros Hw Hk E H. destruct (wo_clients _ Hw k _ Hk) as (x & Hx & _). specialize (H x Hx). unfold query_async, deref. rewrite Hx. cbn [outcome_bind].
  eexists. split; [done |]. split; [| done]. apply (use_conn_ok w k cl cl'); [done.. |]. eexists. rewrite E. pool_simpl. rewrite lookup_insert_eq.
  split; [done |]. assert (Hv : forall b, is_valid (mkConn (connected_ x) (r_status r) b (r_txn r)) = true -> r_status r = true) by (intros b; unfold is_valid; cbn; intros Hv; apply andb_true_iff in Hv; tauto).
  destruct (cl_txn cl') as [t |]; [| intros HR _ Ev; apply Hv in Ev; auto]. destruct H as (H1 & H2 & H3). split_and!; [done.. |]. intros Hf HR _ Ev. apply Hv in Ev. auto.
Qed.

Lemma begin_step w k r o : world_ok w -> (R -> event_ok (Begin k r)) -> exec (Begin k r) w = Some o -> exists w', o = Returns w' /\ world_ok w' /\ max_size (pool w') = max_size (pool w).
Proof.
  intros Hw Hok E. cbn [exec] in E. unfold with_client in E. destruct (clients w !! k) as [cl |] eqn:Ek; [| done]. destruct (cl_connecting cl); [done |].
  destruct (cl_txn cl) eqn:Et; [done |]. injection E as <-. unfold txn_begin. cbn [make_txn conn_ begun_ finished_].
  destruct (query_step w k cl (mkClient (cl_conn cl) false (Some (mkTxn (cl_conn cl) (r_ok r) false))) r Hw Ek eq_refl) as (p' & -> & Hw' & Hm).
  { intros x Hx. cbn. split_and!; [done.. |]. rewrite andb_true_r. intros Hr HR. by apply (Hok HR). }
  cbn [outcome_bind set_client]. eexists. split; [done |]. split; [| done]. by destruct (r_ok r).
Qed.

Lemma txn_step w k r o e : world_ok w -> (R -> event_ok e) -> e = Execute k r \/ e = Commit k r \/ e = Rollback k r -> exec e w = Some o ->
  exists w', o = Returns w' /\ world_ok w' /\ max_size (pool w') = max_size (pool w).
Proof.
  intros Hw Hok He E. assert (exists cl t, clients w !! k = Some cl /\ cl_txn cl = Some t /\ cl_connecting cl = false) as (cl & t & Ek & Et & Ec).
  { destruct He as [-> | [-> | ->]]; cbn [exec] in E; unfold with_client in E; destruct (clients w !! k) as [cl |]; try done;
      destruct (cl_connecting cl) eqn:Ec; try done; destruct (cl_txn cl) as [t |] eqn:Et; try done; by exists cl, t. }
  destruct (wo_clients _ Hw k _ Ek) as (x & Hx & Hcl). rewrite Et in Hcl. destruct Hcl as (Hconn & Hfb & Hcl).
  assert (Hsame : <[k := mkClient (cl_conn cl) false (Some t)]> (clients w) = clients w).
  { apply insert_id. rewrite Ek. f_equal. destruct cl; cbn in *. by subst. }
  destruct He as [-> | [-> | ->]]; cbn [exec] in E; unfold with_client in E; rewrite Ek, Ec, Et in E; injection E as <-;
    unfold txn_execute, txn_commit, txn_rollback; rewrite Hconn.
  all: destruct (negb (begun_ t) || finished_ t) eqn:Eb; [cbn [outcome_bind set_client]; eexists; rewrite ?Hsame; split; [done |]; split; [by destruct w | done] |].
  all: apply orb_false_iff in Eb as [Hb Hf]; rewrite negb_false_iff in Hb.
  - destruct (query_step w k cl (mkClient (cl_conn cl) false (Some t)) r Hw Ek eq_refl) as (p' & -> & Hw' & Hm).
    { intros y Hy. cbn. rewrite Hb, Hf. done. }
    rewrite Hsame in Hw'. cbn [outcome_bind]. by eexists.
  - destruct (query_step w k cl (mkClient (cl_conn cl) false (Some (mkTxn (cl_conn cl) (begun_ t) (r_ok r)))) r Hw Ek eq_refl) as (p' & -> & Hw' & Hm).
    { intros y Hy. cbn. rewrite Hb. cbn. split_and!; [done.. |]. intros Hr HR. apply negb_false_iff in Hr. by apply (Hok HR). }
    cbn [outcome_bind set_client]. eexists. split; [done |]. split; [| done]. destruct (r_ok r); [by rewrite Hb in *|].
    rewrite <- Hconn, Hb in Hw'. rewrite <- Hf, <- Hb in Hw'. destruct t; cbn in *; by subst.
  - destruct (query_step w k cl (mkClient (cl_conn cl) false (Some (mkTxn (cl_conn cl) (begun_ t) true))) r Hw Ek eq_refl) as (p' & -> & Hw' & Hm).
    { intros y Hy. cbn. rewrite Hb. cbn. split_and!; [done.. |]. intros _ HR. by apply (Hok HR). }
    cbn [outcome_bind set_client]. eexists. by split.
Qed.

Lemma scope_step w k e o now : world_ok w -> scoped e w -> e = EndTxn k \/ e = Release k now \/ e = Discard k -> exec e w = Some o ->
  exists w', o = Returns w' /\ world_ok w' /\ max_size (pool w') = max_size (pool w).
Proof.
  intros Hw Hsc He E.
  destruct (clients w !! k) as [cl |] eqn:Ek;
    [| destruct He as [-> | [-> | ->]]; cbn [exec] in E; unfold with_client in E; by rewrite ?(outlived_none w k Hw), Ek in E].
  destruct (wo_clients _ Hw k _ Ek) as (x & Hx & Hcl). pose proof (wo_pool _ Hw) as Hp. rewrite (holds_delete _ _ _ Ek) in Hp.
  destruct He as [-> | [-> | ->]]; cbn [exec] in E; unfold with_client in E; rewrite ?(outlived_none w k Hw), Ek in E; (destruct (cl_connecting cl); [done |]).
  - destruct (cl_txn cl) as [t |] eqn:Et; [| done]. injection E as <-. destruct Hcl as (Hconn & _ & Hcl). unfold txn_destroy, deref. rewrite Hconn, Hx. destruct (begun_ t && negb (finished_ t)) eqn:Eb.
    + cbn [outcome_bind set_client]. eexists. split; [done |]. split; [| done]. apply (use_conn_ok w k cl); [done.. |].
      eexists. cbn [cl_conn cl_txn]. pool_simpl. rewrite lookup_insert_eq. split; [done |]. cbn. by intros _ [=].
    + cbn [outcome_bind set_client]. eexists. split; [done |]. split; [| done].
      replace (pool w) with (with_heap (<[cl_conn cl := x]> (heap (pool w))) (pool w)) by (rewrite insert_id by done; by destruct (pool w)).
      apply (use_conn_ok w k cl); [done.. |]. eexists. cbn [cl_conn cl_txn]. pool_simpl. rewrite lookup_insert_eq. split; [done |]. by apply Hcl.
  - cbn [scoped] in Hsc. rewrite (Hsc cl Ek) in *. injection E as <-. destruct (release_ok _ now _ _ _ Hp Hx) as (p' & -> & Hp' & Hk'); [intros Hpo; split; auto |]. cbn [outcome_bind drop_client]. eexists. split; [done |].
    split; [by eapply give_back_ok | apply Hk'].
  - cbn [scoped] in Hsc. rewrite (Hsc cl Ek) in *. injection E as <-. destruct (discard_ok _ _ _ Hp) as (p' & -> & Hp' & Hk' & _). cbn [outcome_bind drop_client]. eexists. split; [done |].
    split; [by eapply give_back_ok | apply Hk'].
Qed.

Lemma pg_exec_ok w e o : world_ok w -> (R -> event_ok e) -> scoped e w -> exec e w = Some o -> exists w', o = Returns w' /\ world_ok w' /\ max_size (pool w') = max_size (pool w).
Proof.
  intros Hw Hok Hsc E. assert (Hp : pool_ok R (holds (clients w)) (with_idle (idle_ (pool w)) (pool w))) by (pose proof (wo_pool _ Hw); by destruct (pool w)).
  destruct e.
  - by eapply acquire_step.
  - by eapply connected_step.
  - cbn [exec] in E. unfold with_client in E. destruct (clients w !! k) as [cl |] eqn:Ek; [| done]. destruct (cl_connecting cl); [done |].
    destruct (cl_txn cl) eqn:Et; [done |]. injection E as <-. destruct (query_step w k cl cl r Hw Ek eq_refl) as (p' & -> & Hw' & Hm).
    { intros x Hx. rewrite Et. exact Hok. }
    rewrite insert_id in Hw' by done. cbn [outcome_bind]. by eexists.
  - by eapply begin_step.
  - eapply txn_step; eauto.
  - eapply txn_step; eauto.
  - eapply txn_step; eauto.
  - apply (scope_step w k (EndTxn k) o 0); auto.
  - apply (scope_step w k (Release k now) o now); auto.
  - apply (scope_step w k (Discard k) o 0); auto.
  - injection E as <-. destruct (shrink_loop_ok _ now _ _ Hp) as (p' & Ep & Hp' & Hk). unfold shrink_idle. rewrite Ep. cbn [outcome_bind].
    eexists. split; [done |]. split; [by apply maintain_ok | apply Hk].
  - injection E as <-. destruct (health_loop_ok (R := R) (holds (clients w)) now (idle_ (pool w)) [] (pool w)) as (p' & Ep & Hp' & Hk); [by rewrite app_nil_r |].
    unfold health_check_tick. rewrite Ep. cbn [outcome_bind]. eexists. split; [done |]. split; [by apply maintain_ok | apply Hk].
  - injection E as <-. destruct (close_loop_ok _ _ _ Hp) as (p' & Ep & Hp' & Hk & _). unfold close_all. rewrite Ep. cbn [outcome_bind].
    eexists. split; [done |]. split; [by apply maintain_ok | apply Hk].
  - cbn [exec] in E. destruct (heap (pool w) !! c) as [x |] eqn:Ec; [| done]. injection E as <-. eexists. split; [done |]. split; [by apply break_ok | done].
Qed.

Lemma pg_exec_all_ok es w o : world_ok w -> (R -> Forall event_ok es) -> along scoped es w -> exec_all es w = Some o ->
  exists w', o = Returns w' /\ world_ok w' /\ max_size (pool w') = max_size (pool w).
Proof.
  revert w. induction es as [| e es IH]; intros w Hw Hes; cbn [exec_all along]; [intros _ [= <-]; by exists w |].
  intros [Hsc Hal]. destruct (exec e w) as [o1 |] eqn:E; [| done].
  destruct (pg_exec_ok w e o1 Hw (λ HR, Forall_inv (Hes HR)) Hsc E) as (w1 & -> & Hw1 & Hm). intros E1.
  destruct (IH w1 Hw1 (λ HR, Forall_inv_tail (Hes HR)) Hal E1) as (w' & -> & Hw' & Hm'). exists w'. split_and!; [done.. | congruence].
Qed.

Lemma empty_world_ok pool_size max_idle : 0 <= pool_size < 2 ^ 63 -> world_ok (empty_world pool_size max_idle).
Proof.
  intros Hs. split; [| intros k cl Hcl; cbn [empty_world clients] in Hcl; by rewrite lookup_empty in Hcl | done].
  unfold holds. cbn [empty_world pool clients]. rewrite map_to_list_empty. by apply make_pool_ok.
Qed.

End Worlds.



(** ** A rollback that fails *)

(** When [ROLLBACK] is reported as failed while the connection stays up (the wait on
    its socket is interrupted, say), the transaction object still counts as finished:
    the connection is not poisoned, and the next client gets it inside the
    transaction of the first. *)
Theorem failed_rollback_leaks_transaction :
  exists w x, exec_all [Acquire 0; Connected 0 true; Begin 0 (mkReply true true true); Rollback 0 (mkReply false true true); EndTxn 0; Release 0 5; Acquire 1]
      (empty_world 1 60) = Some (Returns w) /\
    clients w !! 1%nat = Some (mkClient 1 false None) /\ heap (pool w) !! 1 = Some x /\ in_txn x = true /\ poisoned_ x = false /\ is_valid x = true.
Proof. eexists _, _. split_and!; vm_compute; reflexivity. Qed.

(** ** A transaction object that outlives its connection *)

(** When a connection is discarded because [COMMIT] failed, the transaction object of
    the same scope is destroyed later, still unfinished, and poisons the connection
    that is gone. *)
Theorem discard_in_transaction_use_after_free :
  exec_all [Acquire 0; Connected 0 true; Begin 0 (mkReply true true true); Commit 0 (mkReply false true true); Discard 0; EndTxn 0] (empty_world 1 60) =
    Some (Throws undefined_behaviour).
Proof. vm_compute. reflexivity. Qed.
