(* ===== verification/PgConnection.v ===== *)
(** * A connection to PostgreSQL

    [apex::shared::adapters::pg::PgConnection] and [PgResult]
    (apex_shared/lib/adapters/pg/src/pg_connection.cpp): connecting, sending a command and
    collecting its results without blocking the core.

    libpq is known by what it documents: a command cannot be sent while another is in
    progress; the results of a command come one after the other and then a null; a
    call that finds no complete result is busy. What a wait of the socket brings is an
    argument, so that a coroutine is a function of the list of its wake-ups and is still
    waiting when they run out. *)

From S2P Require Import Prelude Text ErrorCode Arena.
#[local] Open Scope Z_scope.

Module PgConn.

Abbreviation bytes := (list Z).

(** ** Results *)

Inductive ExecStatus : Type := COMMAND_OK | TUPLES_OK | OtherStatus.

(** A [PGresult]: its rows and what [PQcmdTuples] tells. *)
Record PGresult : Type := mkResult { res_status : ExecStatus; columns : list bytes; rows : list (list (option bytes)); cmd_tuples : bytes }.

(** A [PgResult], whose pointer may be null. *)
Definition PgResult : Type := option PGresult.

Definition ok (r : PgResult) : bool := match r with Some r => match res_status r with COMMAND_OK | TUPLES_OK => true | OtherStatus => false end | None => false end.
Definition row_count (r : PgResult) : Z := match r with Some r => len (rows r) | None => 0 end.
Definition column_count (r : PgResult) : Z := match r with Some r => len (columns r) | None => 0 end.
(** [PQgetisnull] is true of a cell that is not there. *)
Definition cell (row col : Z) (r : PGresult) : option bytes := cells ← rows r !! Z.to_nat row; x ← cells !! Z.to_nat col; x.
Definition value (row col : Z) (r : PgResult) : bytes := match r with Some r => default [] (cell row col r) | None => [] end.
Definition is_null (row col : Z) (r : PgResult) : bool := match r with Some r => match cell row col r with Some _ => false | None => true end | None => true end.

(** [std::strtol] in base 10: the value, or nothing when no digit was read. *)
Definition strtol (s : bytes) : option Z :=
  let s := skip_spaces s in
  let '(sign, s) := match s with c :: s' => if c =? 45 then (-1, s') else if c =? 43 then (1, s') else (1, s) | [] => (1, s) end in
  match digits_prefix s with [] => None | ds => Some (Z.max (- 2 ^ 63) (Z.min (2 ^ 63 - 1) (sign * digits_value ds))) end.

Definition affected_rows (r : PgResult) : Z :=
  match r with
  | None => 0
  | Some r =>
      match cmd_tuples r with
      | [] => 0
      | val => match strtol val with Some n => if (n <? - 2 ^ 31) || (2 ^ 31 - 1 <? n) then 0 else n | None => 0 end
      end
  end.

(** ** The connection *)

Inductive command : Type := Query (sql : bytes) | QueryParams (sql : bytes) (params : list bytes) | Prepare (name sql : bytes) | QueryPrepared (name : bytes) (params : list bytes).

(** What the server sends for a command: results, then the end. *)
Inductive item : Type := Result_ (r : PGresult) | Complete.

(** A [PGconn]. *)
Record PGconn : Type := mkPGconn {
  status_ok : bool;
  in_progress : bool; (** until [PQgetResult] has given the null *)
  input : list item; (** read from the socket *)
  sent : list command;
}.

Record PgConnection : Type := mkConnection {
  request_alloc_ : option BumpAllocator;
  conn_ : option PGconn;
  socket_ : bool;
  connected_ : bool;
  poisoned_ : bool;
}.

Definition with_conn (p : option PGconn) (c : PgConnection) : PgConnection := mkConnection (request_alloc_ c) p (socket_ c) (connected_ c) (poisoned_ c).
Definition with_connected (b : bool) (c : PgConnection) : PgConnection := mkConnection (request_alloc_ c) (conn_ c) (socket_ c) b (poisoned_ c).
Definition with_alloc (a : option BumpAllocator) (c : PgConnection) : PgConnection := mkConnection a (conn_ c) (socket_ c) (connected_ c) (poisoned_ c).

Definition make (alloc : option BumpAllocator) : PgConnection := mkConnection alloc None false false false.
Definition close (c : PgConnection) : PgConnection := mkConnection (request_alloc_ c) None false false (poisoned_ c).
Definition is_valid (c : PgConnection) : bool := connected_ c && match conn_ c with Some p => status_ok p | None => false end.

(** [PQconnectStart] and what follows up to the loop: a null, a bad status or the first
    call that fails. *)
Inductive connect_start : Type := NoConn | BadStatus | NonblockingFails | BadSocket | AssignFails | Started.

(** [PQconnectPoll], with the error of the wait. *)
Inductive poll : Type := POLLING_READING (ec : bool) | POLLING_WRITING (ec : bool) | POLLING_OK | POLLING_FAILED.

Fixpoint poll_connect (polls : list poll) (c : PgConnection) : option (Result unit * PgConnection) :=
  match polls with
  | [] => None
  | (POLLING_READING ec | POLLING_WRITING ec) :: polls => if ec then Some (Err AdapterError, c) else poll_connect polls c
  | POLLING_OK :: _ => Some (Ok tt, with_connected true c)
  | POLLING_FAILED :: _ => Some (Err AdapterError, c)
  end.

Definition connect_async (start : connect_start) (polls : list poll) (c : PgConnection) : option (Result unit * PgConnection) :=
  let c := match conn_ c with Some _ => close c | None => c end in
  match start with
  | NoConn | BadStatus | NonblockingFails | BadSocket | AssignFails => Some (Err AdapterError, mkConnection (request_alloc_ c) None false (connected_ c) (poisoned_ c))
  | Started => poll_connect polls (mkConnection (request_alloc_ c) (Some (mkPGconn true false [] [])) true (connected_ c) (poisoned_ c))
  end.

(** What a wait of [collect_result] and the [PQconsumeInput] after it bring. *)
Inductive wake : Type := WaitError | ConsumeError | Input (items : list item).

(** The null ends the command. *)
Definition finish (rest : list item) (p : PGconn) : PGconn := mkPGconn (status_ok p) false rest (sent p).
Definition buffer (items : list item) (p : PGconn) : PGconn := mkPGconn (status_ok p) (in_progress p) items (sent p).

(** The loop that clears the results after one that is not ok; [PQgetResult] waits for
    the server here. *)
Fixpoint drain_items (items : list item) : option (list item) :=
  match items with [] => None | Complete :: items => Some items | Result_ _ :: items => drain_items items end.
Fixpoint drain_results (items : list item) (wakes : list wake) (p : PGconn) : option PGconn :=
  match drain_items items with
  | Some rest => Some (finish rest p)
  | None =>
      match wakes with
      | [] => None
      | Input items :: wakes => drain_results items wakes p
      | (WaitError | ConsumeError) :: _ => Some (finish [] (mkPGconn false (in_progress p) [] (sent p)))
      end
  end.

(** The loop over the results that are there: the coroutine's result, or the last one so
    far when libpq is busy. *)
Inductive progress : Type := Busy (last : PgResult) | Finished (r : PgResult) (rest : list item) | Failed (rest : list item).
Fixpoint process_items (items : list item) (last_result : PgResult) : progress :=
  match items with
  | [] => Busy last_result
  | Complete :: rest => Finished last_result rest
  | Result_ r :: rest => if ok (Some r) then process_items rest (Some r) else Failed rest
  end.

Fixpoint collect_result (wakes : list wake) (last_result : PgResult) (p : PGconn) : option (Result PGresult * PGconn) :=
  match wakes with
  | [] => None
  | (WaitError | ConsumeError) :: _ => Some (Err AdapterError, p)
  | Input items :: wakes =>
      match process_items (input p ++ items) last_result with
      | Busy last_result => collect_result wakes last_result (buffer [] p)
      | Finished None rest => Some (Err AdapterError, finish rest p)
      | Finished (Some r) rest => Some (Ok r, finish rest p)
      | Failed rest => match drain_results rest wakes p with Some p => Some (Err AdapterError, p) | None => None end
      end
  end.

(** [PQsendQuery] and its like: refused while a command is in progress, or for a reason
    of its own. *)
Definition send (accepted : bool) (cmd : command) (p : PGconn) : option PGconn :=
  if in_progress p || negb accepted then None else Some (mkPGconn (status_ok p) true (input p) (sent p ++ [cmd])).

Definition run_command (accepted : bool) (cmd : command) (wakes : list wake) (c : PgConnection) : option (Result PGresult * PgConnection) :=
  match connected_ c, conn_ c with
  | true, Some p =>
      match send accepted cmd p with
      | None => Some (Err AdapterError, c)
      | Some p => '(r, p) ← collect_result wakes None p; Some (r, with_conn (Some p) c)
      end
  | _, _ => Some (Err AdapterError, c)
  end.

Definition query_async (accepted : bool) (sql : bytes) (wakes : list wake) (c : PgConnection) : option (Result PGresult * PgConnection) :=
  run_command accepted (Query (c_str sql)) wakes c.

(** The parameters are put together in the request's allocator or on the heap. *)
Definition query_params_async (accepted : bool) (sql : bytes) (params : list bytes) (wakes : list wake) (c : PgConnection) : option (Result PGresult * PgConnection) :=
  let cmd := QueryParams (c_str sql) (c_str <$> params) in
  match connected_ c, conn_ c, request_alloc_ c with
  | true, Some _, Some a =>
      let '(sql_buf, a) := bump_allocate (u64 (len sql + 1)) 1 a in
      if sql_buf =? 0 then Some (Err AdapterError, with_alloc (Some a) c)
      else
        let '(param_buf, a) := bump_allocate (u64 (len params * 8)) 8 a in
        let c := with_alloc (Some a) c in
        if (param_buf =? 0) && negb (bool_decide (params = [])) then Some (Err AdapterError, c) else run_command accepted cmd wakes c
  | _, _, _ => run_command accepted cmd wakes c
  end.

Definition prepare_async (accepted : bool) (name sql : bytes) (wakes : list wake) (c : PgConnection) : option (Result unit * PgConnection) :=
  '(r, c) ← run_command accepted (Prepare (c_str name) (c_str sql)) wakes c;
  Some (match r with Ok _ => Ok tt | Err e => Err e end, c).
Definition query_prepared_async (accepted : bool) (name : bytes) (params : list bytes) (wakes : list wake) (c : PgConnection) : option (Result PGresult * PgConnection) :=
  run_command accepted (QueryPrepared (c_str name) (c_str <$> params)) wakes c.

Definition execute_async (accepted : bool) (sql : bytes) (wakes : list wake) (c : PgConnection) : option (Result Z * PgConnection) :=
  '(r, c) ← query_async accepted sql wakes c;
  Some (match r with Ok r => Ok (affected_rows (Some r)) | Err e => Err e end, c).
Definition execute_params_async (accepted : bool) (sql : bytes) (params : list bytes) (wakes : list wake) (c : PgConnection) : option (Result Z * PgConnection) :=
  '(r, c) ← query_params_async accepted sql params wakes c;
  Some (match r with Ok r => Ok (affected_rows (Some r)) | Err e => Err e end, c).

End PgConn.
Import PgConn.

(** ** The results of a command *)

(** What a command returns when the server answers it with these results. *)
Definition latest (last_result : PgResult) (rs : list PGresult) : PgResult := match last rs with Some r => Some r | None => last_result end.
Definition all_ok (rs : list PGresult) : bool := forallb (λ r, ok (Some r)) rs.
Definition answer (last_result : PgResult) (rs : list PGresult) : Result PGresult :=
  if all_ok rs then match latest last_result rs with Some r => Ok r | None => Err AdapterError end else Err AdapterError.

Abbreviation stream rs := ((Result_ <$> rs) ++ [Complete]).

Lemma latest_app last_result rs rs' : latest (latest last_result rs) rs' = latest last_result (rs ++ rs').
Proof. unfold latest. rewrite last_app. by destruct (last rs'). Qed.

(** A chunk of the stream ends before the null, or is all of it. *)
Lemma split_chunk items tl rs : items ++ tl = stream rs ->
  (exists rs1 rs2, rs = rs1 ++ rs2 /\ items = Result_ <$> rs1 /\ tl = stream rs2) \/ items = stream rs /\ tl = [].
Proof.
  revert items. induction rs as [| r rs IH]; intros items E; cbn in E.
  - destruct items as [| i items]; cbn in E; [left; by exists [], [] |]. injection E as -> E. apply app_eq_nil in E as [-> ->]. by right.
  - destruct items as [| i items]; cbn in E; [left; exists [], (r :: rs); by split_and! |]. injection E as -> E. destruct (IH items E) as [(rs1 & rs2 & -> & -> & ->) | [-> ->]].
    + left. by exists (r :: rs1), rs2.
    + by right.
Qed.

Lemma process_results rs tl last_result :
  if all_ok rs then process_items ((Result_ <$> rs) ++ tl) last_result = process_items tl (latest last_result rs)
  else exists bad, process_items ((Result_ <$> rs) ++ tl) last_result = Failed ((Result_ <$> bad) ++ tl).
Proof.
  revert last_result. induction rs as [| r rs IH]; intros last_result; [done |]. cbn [all_ok forallb fmap list_fmap app process_items]. destruct (ok (Some r)); cbn [andb]; [| by exists rs].
  specialize (IH (Some r)). fold (all_ok rs). destruct (all_ok rs); [| done]. rewrite IH. change (Some r) with (latest last_result [r]). by rewrite latest_app.
Qed.

Lemma drain_chunks chunks : forall bad p rs, bad ++ concat chunks = stream rs -> drain_results bad (Input <$> chunks) p = Some (finish [] p).
Proof.
  assert (Hd : forall rs, drain_items (Result_ <$> rs) = None) by (induction rs; done).
  assert (Hc : forall rs, drain_items (stream rs) = Some []) by (induction rs; done).
  induction chunks as [| chunk chunks IH]; intros bad p rs E.
  - rewrite app_nil_r in E. cbn. by rewrite E, Hc.
  - destruct (split_chunk bad (concat (chunk :: chunks)) _ E) as [(rs1 & rs2 & -> & -> & E') | [-> _]]; cbn; [rewrite Hd | by rewrite Hc]. by eapply IH.
Qed.

Lemma collect_chunks chunks : forall rs last_result p, concat chunks = stream rs -> input p = [] -> collect_result (Input <$> chunks) last_result p = Some (answer last_result rs, finish [] p).
Proof.
  induction chunks as [| chunk chunks IH]; intros rs last_result p E Hi; [by destruct rs |]. change (chunk ++ concat chunks = stream rs) in E. cbn. rewrite Hi. cbn [app].
  destruct (split_chunk chunk (concat chunks) _ E) as [(rs1 & rs2 & -> & -> & E') | [-> Hn]].
  - pose proof (process_results rs1 [] last_result) as Hp. rewrite app_nil_r in Hp. unfold answer, all_ok in *. rewrite forallb_app. destruct (forallb _ rs1); cbn [andb].
    + rewrite Hp. cbn. rewrite (IH rs2) by done. unfold answer, all_ok. rewrite latest_app. by destruct p.
    + destruct Hp as [bad ->]. rewrite app_nil_r. erewrite drain_chunks; [done | rewrite E'; by rewrite app_assoc, <- fmap_app].
  - pose proof (process_results rs [Complete] last_result) as Hp. unfold answer. destruct (all_ok rs).
    + rewrite Hp. cbn. by destruct (latest last_result rs).
    + destruct Hp as [bad ->]. erewrite drain_chunks; [done | by rewrite Hn, app_nil_r].
Qed.

(** What the wake-ups bring, whichever fail. *)
Definition arrivals (wakes : list wake) : list item := wakes ≫= λ w, match w with Input items => items | WaitError | ConsumeError => [] end.

Lemma drain_sent items wakes p p' : drain_results items wakes p = Some p' -> sent p' = sent p.
Proof.
  revert items. induction wakes as [| w wakes IH]; intros items; cbn; (destruct (drain_items items); [by intros [= <-] |]); [done |].
  destruct w; [by intros [= <-].. |]. apply IH.
Qed.

Lemma collect_sound wakes : forall rs last_result p r p', arrivals wakes `prefix_of` stream rs -> input p = [] -> collect_result wakes last_result p = Some (r, p') ->
  sent p' = sent p /\ match r with Ok x => answer last_result rs = Ok x /\ in_progress p' = false /\ input p' = [] | Err e => e = AdapterError end.
Proof.
  induction wakes as [| w wakes IH]; intros rs last_result p r p' Ha Hi; cbn [collect_result]; [done |]. destruct w as [| | items]; [by intros [= <- <-].. |].
  destruct Ha as [tl E]. change (arrivals (Input items :: wakes)) with (items ++ arrivals wakes) in E. rewrite <- app_assoc in E. symmetry in E. rewrite Hi. cbn [app].
  destruct (split_chunk _ _ _ E) as [(rs1 & rs2 & -> & -> & E') | [-> Hn]].
  - pose proof (process_results rs1 [] last_result) as Hp. rewrite app_nil_r in Hp. unfold answer, all_ok in *. rewrite forallb_app. destruct (forallb _ rs1); cbn [andb].
    + rewrite Hp. cbn. intros Ec. destruct (IH rs2 (latest last_result rs1) (buffer [] p) r p') as [Hs Hr]; [by exists tl | done | done |]. split; [done |].
      destruct r; [| done]. unfold answer, all_ok in Hr. by rewrite latest_app in Hr.
    + destruct Hp as [bad ->]. destruct (drain_results _ _ _) as [p1 |] eqn:Ed; [| done]. intros [= <- <-]. split; [by eapply drain_sent | done].
  - pose proof (process_results rs [Complete] last_result) as Hp. unfold answer. destruct (all_ok rs).
    + rewrite Hp. cbn. by destruct (latest last_result rs); intros [= <- <-].
    + destruct Hp as [bad ->]. destruct (drain_results _ _ _) as [p1 |] eqn:Ed; [| done]. intros [= <- <-]. split; [by eapply drain_sent | done].
Qed.

(** C35: however the socket cuts the server's answer to a command, the command returns the
    last of its results if all of them succeeded and an error otherwise, and the
    connection is in step for the next command. Whatever goes wrong on the way, a
    result that is returned is the command's own and leaves the connection in step; and
    on a connection left in the middle of a command every further one fails and changes
    nothing. *)
Theorem results_collected c p cmd rs (Hconn : conn_ c = Some p) (Hup : connected_ c = true) :
  (in_progress p = false -> input p = [] ->
     (forall chunks, concat chunks = stream rs -> exists p', run_command true cmd (Input <$> chunks) c = Some (answer None rs, with_conn (Some p') c) /\
        in_progress p' = false /\ input p' = [] /\ sent p' = sent p ++ [cmd]) /\
     (forall accepted wakes r c', arrivals wakes `prefix_of` stream rs -> run_command accepted cmd wakes c = Some (Ok r, c') ->
        answer None rs = Ok r /\ exists p', conn_ c' = Some p' /\ in_progress p' = false /\ input p' = [] /\ sent p' = sent p ++ [cmd])) /\
  (in_progress p = true -> forall accepted wakes, run_command accepted cmd wakes c = Some (Err AdapterError, c)).
Proof.
  unfold run_command. rewrite Hup, Hconn. split; [| by intros Hb accepted wakes; unfold send; rewrite Hb]. intros Hb Hi. split.
  - intros chunks E. unfold send. rewrite Hb. cbn [orb negb]. rewrite (collect_chunks chunks rs) by done. cbn. by eexists.
  - intros accepted wakes r c' Ha. unfold send. rewrite Hb. cbn [orb]. destruct accepted; cbn [negb]; [| done].
    set (p1 := mkPGconn _ _ _ _). destruct (collect_result wakes None p1) as [[r' p'] |] eqn:Ec; [cbn | done]. intros [= -> <-].
    destruct (collect_sound wakes rs None p1 (Ok r) p') as [Hs (Han & Hp & Hin)]; [done | done | done |]. split; [done |]. exists p'. split_and!; done.
Qed.

Definition example_result : PGresult := mkResult TUPLES_OK [[110]] [[Some [55]]] [49].
Definition example_conn : PgConnection := mkConnection None (Some (mkPGconn true false [] [])) true true false.

Lemma results_collected_witness : exists p', run_command true (Query [65]) [Input []; Input [Result_ example_result]; Input [Complete]] example_conn = Some (Ok example_result, with_conn (Some p') example_conn) /\
  in_progress p' = false.
Proof.
  destruct (results_collected example_conn (mkPGconn true false [] []) (Query [65]) [example_result] eq_refl eq_refl) as [H _].
  destruct (H eq_refl eq_refl) as [H1 _]. destruct (H1 [[]; [Result_ example_result]; [Complete]] eq_refl) as (p' & E & Hp & _). by exists p'.
Defined.

(** The request's allocator is only where the parameters are: as long as it has room, the
    command is the same. *)
Lemma params_same_command accepted sql params wakes c a : request_alloc_ c = Some a ->
  (let '(sql_buf, a1) := bump_allocate (u64 (len sql + 1)) 1 a in sql_buf <> 0 /\ (params = [] \/ (bump_allocate (u64 (len params * 8)) 8 a1).1 <> 0)) ->
  exists a', query_params_async accepted sql params wakes c =
    ('(r, c') ← query_params_async accepted sql params wakes (with_alloc None c); Some (r, with_alloc (if connected_ c && bool_decide (is_Some (conn_ c)) then Some a' else Some a) c')).
Proof.
  intros Ea Hroom. unfold query_params_async. rewrite Ea. cbn [request_alloc_ with_alloc connected_ conn_].
  destruct (connected_ c) eqn:Ec; [| exists a; unfold run_command; cbn; rewrite Ec; destruct c; cbn in *; by rewrite Ea].
  destruct (conn_ c) as [p |] eqn:Ep; [| exists a; unfold run_command; cbn; rewrite Ec, Ep; destruct c; cbn in *; by rewrite Ea].
  destruct (bump_allocate _ 1 a) as [b1 a1]. destruct Hroom as [H1 H2]. destruct (bump_allocate _ 8 a1) as [b2 a2] eqn:E2. cbn in H2. exists a2.
  destruct (Z.eqb_spec b1 0); [done |]. assert (Hb : (b2 =? 0) && negb (bool_decide (params = [])) = false).
  { destruct (Z.eqb_spec b2 0) as [E0 |]; [| done]. cbn [andb]. destruct H2 as [-> | ?]; [done | done]. }
  rewrite Hb. cbn. unfold run_command. cbn. rewrite Ec, Ep. destruct (send _ _ p) as [p1 |]; [| by cbn].
  destruct (collect_result wakes None p1) as [[r p'] |]; [| by cbn]. by cbn.
Qed.
