(* ===== verification/RedisMultiplexer.v ===== *)
(** * The Redis multiplexer

    [apex::shared::adapters::redis::RedisMultiplexer]
    (apex_shared/lib/adapters/redis/src/redis_multiplexer.cpp): commands of many
    coroutines on one connection, their replies matched in order.

    A [PendingCommand] is a slot of the slab, named by its address, which is used
    again once the slot is destroyed; reading a slot that is not constructed is
    undefined behaviour. Each has two Asio timers. Cancelling [resolver] completes the
    wait of the coroutine, which then runs when its turn comes; [timeout] completes
    the wait of a handler that holds the raw address, and once such a handler is in
    the queue of the event loop, [cancel] no longer stops it. Each turn of the event
    loop is an [event]. hiredis and the server are outside the repository: replies
    come in the order of the commands, and a connection that is freed calls back for
    each command in flight, with a null reply. *)

From S2P Require Import Prelude ErrorCode.

Module Mux.

Record PendingCommand : Type := mkCommand {
  result : Result Z;
  sequence : Z;
  timed_out : bool;
  cancelled : bool;
  armed : bool; (** whether [timeout] is still waiting to expire *)
  owner : nat; (** the coroutine that waits on [resolver] *)
}.

(** A call of [command]: suspended on the resolver, about to go on, or over; with the
    sequence number of its command, if it was sent. *)
Inductive coroutine : Type :=
| Suspended (cmd : Z)
| Woken (cmd : Z)
| Returned (seq : option Z) (r : Result Z).

Record RedisMultiplexer : Type := mkMux {
  pending_ : list Z;
  slab_ : gmap Z PendingCommand;
  connected : bool;
  next_sequence_ : Z;
  coroutines : gmap nat coroutine;
  queued : list Z; (** timeout handlers in the event loop, by the address they hold *)
  in_flight : list Z; (** the commands the server will reply to *)
  freed : bool; (** hiredis has freed the context that [conn_] still refers to *)
}.

Definition make_mux : RedisMultiplexer := mkMux [] ∅ true 0 ∅ [] [] false.

Definition with_pending (l : list Z) (m : RedisMultiplexer) : RedisMultiplexer :=
  mkMux l (slab_ m) (connected m) (next_sequence_ m) (coroutines m) (queued m) (in_flight m) (freed m).
Definition with_slab (s : gmap Z PendingCommand) (m : RedisMultiplexer) : RedisMultiplexer :=
  mkMux (pending_ m) s (connected m) (next_sequence_ m) (coroutines m) (queued m) (in_flight m) (freed m).
Definition with_coroutines (c : gmap nat coroutine) (m : RedisMultiplexer) : RedisMultiplexer :=
  mkMux (pending_ m) (slab_ m) (connected m) (next_sequence_ m) c (queued m) (in_flight m) (freed m).
Definition with_queued (q : list Z) (m : RedisMultiplexer) : RedisMultiplexer :=
  mkMux (pending_ m) (slab_ m) (connected m) (next_sequence_ m) (coroutines m) q (in_flight m) (freed m).
Definition with_server (c : bool) (l : list Z) (m : RedisMultiplexer) : RedisMultiplexer :=
  mkMux (pending_ m) (slab_ m) c (next_sequence_ m) (coroutines m) (queued m) l (freed m).
Definition with_freed (b : bool) (m : RedisMultiplexer) : RedisMultiplexer :=
  mkMux (pending_ m) (slab_ m) (connected m) (next_sequence_ m) (coroutines m) (queued m) (in_flight m) b.

Definition deref (p : Z) (m : RedisMultiplexer) : outcome PendingCommand :=
  match slab_ m !! p with Some c => Returns c | None => Throws undefined_behaviour end.

(** The destructors of the timers abandon their waits; a queued handler stays. *)
Definition destroy (p : Z) (m : RedisMultiplexer) : outcome RedisMultiplexer :=
  run c <- deref p m; Returns (with_slab (delete p (slab_ m)) m).

Definition set_result (r : Result Z) (c : PendingCommand) : PendingCommand := mkCommand r (sequence c) (timed_out c) (cancelled c) (armed c) (owner c).
Definition set_cancelled (c : PendingCommand) : PendingCommand := mkCommand (result c) (sequence c) (timed_out c) true (armed c) (owner c).
Definition set_timed_out (c : PendingCommand) : PendingCommand := mkCommand (Err Timeout) (sequence c) true (cancelled c) (armed c) (owner c).
Definition disarm (c : PendingCommand) : PendingCommand := mkCommand (result c) (sequence c) (timed_out c) (cancelled c) false (owner c).

(** [resolver.cancel()]: the coroutine is woken if it is suspended there. *)
Definition resolve (p : Z) (c : PendingCommand) (m : RedisMultiplexer) : RedisMultiplexer :=
  match coroutines m !! owner c with
  | Some (Suspended q) => if q =? p then with_coroutines (<[owner c := Woken p]> (coroutines m)) m else m
  | _ => m
  end.

(** [submit_formatted_command] up to the wait, by coroutine [k]; [slot] is what the
    slab gives, [sent] whether hiredis takes the command. *)
Definition submit (k : nat) (slot : option Z) (sent : bool) (m : RedisMultiplexer) : outcome RedisMultiplexer :=
  let fail m := Returns (with_coroutines (<[k := Returned None (Err AdapterError)]> (coroutines m)) m) in
  if negb (connected m) then fail m
  else
    let seq := next_sequence_ m in
    let m := mkMux (pending_ m) (slab_ m) (connected m) (u64 (seq + 1)) (coroutines m) (queued m) (in_flight m) (freed m) in
    match slot with
    | None => fail m
    | Some p =>
        if freed m then Throws undefined_behaviour
        else if negb sent then fail m
        else
          Returns (mkMux (pending_ m ++ [p]) (<[p := mkCommand (Err Timeout) seq false false true k]> (slab_ m)) (connected m) (next_sequence_ m)
            (<[k := Suspended p]> (coroutines m)) (queued m) (in_flight m ++ [seq]) (freed m))
    end.

Definition static_on_reply (reply : option Z) (m : RedisMultiplexer) : outcome RedisMultiplexer :=
  match pending_ m with
  | [] => Returns m
  | front :: rest =>
      let m := with_pending rest m in
      run c <- deref front m;
      if cancelled c then Returns m
      else if timed_out c then destroy front m
      else
        let c := set_result (match reply with Some v => Ok v | None => Err AdapterError end) c in
        Returns (resolve front c (with_slab (<[front := c]> (slab_ m)) m))
  end.

(** The handler of [timeout], run by the event loop. *)
Definition on_timeout (p : Z) (m : RedisMultiplexer) : outcome RedisMultiplexer :=
  run c <- deref p m;
  let c := set_timed_out c in
  Returns (resolve p c (with_slab (<[p := c]> (slab_ m)) m)).

Definition release_pending (p : Z) (m : RedisMultiplexer) : outcome RedisMultiplexer :=
  run c <- deref p m; if timed_out c then Returns m else destroy p m.

(** The coroutine after the wait. *)
Definition resume (k : nat) (p : Z) (m : RedisMultiplexer) : outcome RedisMultiplexer :=
  run c <- deref p m;
  let m := with_slab (<[p := disarm c]> (slab_ m)) m in
  run m <- release_pending p m;
  Returns (with_coroutines (<[k := Returned (Some (sequence c)) (result c)]> (coroutines m)) m).

(** The loop of [cancel_all_pending] over the moved list. *)
Fixpoint cancel_loop (e : ErrorCode) (local : list Z) (m : RedisMultiplexer) : outcome RedisMultiplexer :=
  match local with
  | [] => Returns m
  | p :: local =>
      run c <- deref p m;
      let c := set_cancelled (set_result (Err e) c) in
      let m := with_slab (<[p := c]> (slab_ m)) m in
      run m <- (if timed_out c then destroy p m else Returns (resolve p c m));
      cancel_loop e local m
  end.
Definition cancel_all_pending (e : ErrorCode) (m : RedisMultiplexer) : outcome RedisMultiplexer := cancel_loop e (pending_ m) (with_pending [] m).

(** [redisAsyncFree]: the callback of each command in flight, with a null reply. *)
Fixpoint free_context (n : nat) (m : RedisMultiplexer) : outcome RedisMultiplexer :=
  match n with O => Returns m | S n => run m <- static_on_reply None m; free_context n m end.

(** Freeing a context twice is undefined behaviour. *)
Definition disconnect (m : RedisMultiplexer) : outcome RedisMultiplexer :=
  if freed m then Throws undefined_behaviour
  else run m <- free_context (length (in_flight m)) m; Returns (with_server false [] m).

Definition close (m : RedisMultiplexer) : outcome RedisMultiplexer :=
  run m <- cancel_all_pending AdapterError m; if connected m then disconnect m else Returns m.

(** [conn_.reset()] and [on_disconnect], when the first [AUTH] fails. *)
Definition drop_connection (m : RedisMultiplexer) : outcome RedisMultiplexer :=
  run m <- (if connected m then disconnect m else Returns m); cancel_all_pending AdapterError m.

(** The server closes the connection: hiredis calls back for each command in flight
    and frees its context. No disconnect callback is installed, so [conn_] and
    [connected_] stay as they are. *)
Definition lose_connection (m : RedisMultiplexer) : outcome RedisMultiplexer :=
  run m <- free_context (length (in_flight m)) m; Returns (with_freed true (with_server (connected m) [] m)).

(** ** The event loop *)

Inductive event : Type :=
| Submit (k : nat) (slot : option Z) (sent : bool)
| Reply
| Expire (p : Z)
| TimeoutHandler
| Resume (k : nat)
| Close
| Drop
| Lost
| Reconnect.

Section Exec.
(** What the server replies to each command; an error reply is [None]. *)
Context (answer : Z -> option Z).

Definition exec (e : event) (m : RedisMultiplexer) : option (outcome RedisMultiplexer) :=
  match e with
  | Submit k slot sent =>
      match coroutines m !! k, slot with
      | None, Some p => if bool_decide (slab_ m !! p = None) then Some (submit k slot sent m) else None
      | None, None => Some (submit k slot sent m)
      | Some _, _ => None
      end
  | Reply => match in_flight m with seq :: rest => Some (static_on_reply (answer seq) (with_server (connected m) rest m)) | [] => None end
  | Expire p =>
      match slab_ m !! p with
      | Some c => if armed c then Some (Returns (with_queued (queued m ++ [p]) (with_slab (<[p := disarm c]> (slab_ m)) m))) else None
      | None => None
      end
  | TimeoutHandler => match queued m with p :: rest => Some (on_timeout p (with_queued rest m)) | [] => None end
  | Resume k => match coroutines m !! k with Some (Woken p) => Some (resume k p m) | _ => None end
  | Close => Some (close m)
  | Drop => Some (drop_connection m)
  | Lost => if connected m && negb (freed m) then Some (lose_connection m) else None
  | Reconnect => if connected m then None else Some (Returns (with_freed false (with_server true [] m)))
  end.

Fixpoint exec_all (es : list event) (m : RedisMultiplexer) : option (outcome RedisMultiplexer) :=
  match es with
  | [] => Some (Returns m)
  | e :: es =>
      match exec e m with
      | Some (Returns m) => exec_all es m
      | Some (Throws x) => Some (Throws x)
      | None => None
      end
  end.

End Exec.
End Mux.
Import Mux.

(** ** Replies reach their commands *)

Ltac mux_simpl := cbn [pending_ slab_ connected next_sequence_ coroutines queued in_flight freed with_pending with_slab with_coroutines with_queued with_server with_freed
  result sequence timed_out cancelled armed owner set_result set_cancelled set_timed_out disarm outcome_bind] in *.

Section Matching.
Context (answer : Z -> option Z).

(** The results that tell the caller nothing wrong. *)
Definition good (seq : Z) (r : Result Z) : Prop := match r with Ok v => answer seq = Some v | Err e => e = AdapterError end.

(** Where the slot [p] is in its life, when [pend] are the commands not replied to. *)
Definition slot_ok (pend : list Z) (m : RedisMultiplexer) (p : Z) (c : PendingCommand) : Prop :=
  match coroutines m !! owner c with
  | Some (Suspended q) => q = p /\ timed_out c = false /\ cancelled c = false /\ p ∈ pend
  | Some (Woken q) => q = p /\ if timed_out c then p ∈ pend /\ cancelled c = false /\ result c = Err Timeout else (p ∉ pend) /\ good (sequence c) (result c)
  | Some (Returned _ _) => timed_out c = true /\ cancelled c = false /\ p ∈ pend
  | None => False
  end.

Definition coroutine_ok (m : RedisMultiplexer) (k : nat) (co : coroutine) : Prop :=
  match co with
  | Suspended p | Woken p => exists c, slab_ m !! p = Some c /\ owner c = k
  | Returned (Some seq) r => good seq r \/ r = Err Timeout
  | Returned None r => r = Err AdapterError
  end.

Record slots_ok (pend : list Z) (m : RedisMultiplexer) : Prop := {
  so_nodup : NoDup pend;
  so_live p : p ∈ pend -> is_Some (slab_ m !! p);
  so_slot p c : slab_ m !! p = Some c -> slot_ok pend m p c;
  so_coroutine k co : coroutines m !! k = Some co -> coroutine_ok m k co;
  so_queued : NoDup (queued m);
  so_handler p : p ∈ queued m -> exists c, slab_ m !! p = Some c /\ armed c = false /\ coroutines m !! owner c = Some (Suspended p);
}.

(** No timeout is half done. *)
Definition settled (m : RedisMultiplexer) : Prop :=
  queued m = [] /\ forall k p c, coroutines m !! k = Some (Woken p) -> slab_ m !! p = Some c -> timed_out c = false.

Record mux_ok (m : RedisMultiplexer) : Prop := {
  mo_slots : slots_ok (pending_ m) m;
  mo_match : (λ p, sequence <$> slab_ m !! p) <$> pending_ m = Some <$> in_flight m;
}.

(** A command at the head is finished with: [f] gives it its result. *)
Definition finish (f : PendingCommand -> PendingCommand) (p : Z) (c : PendingCommand) (m : RedisMultiplexer) : outcome RedisMultiplexer :=
  if timed_out c then destroy p (with_slab (<[p := f c]> (slab_ m)) m) else Returns (resolve p (f c) (with_slab (<[p := f c]> (slab_ m)) m)).

Lemma finish_timed_out f p rest c m : slots_ok (p :: rest) m -> settled m -> slab_ m !! p = Some c -> timed_out c = true ->
  slots_ok rest (with_slab (delete p (slab_ m)) m) /\ settled (with_slab (delete p (slab_ m)) m) /\ finish f p c m = Returns (with_slab (delete p (slab_ m)) m).
Proof.
  intros [Hn Hl Hs Hc Hq Hh] [Hset Hw] Hp Ht. pose proof (Hs p c Hp) as Hslot. unfold slot_ok in Hslot. rewrite Ht in Hslot.
  assert (Hret : exists s r, coroutines m !! owner c = Some (Returned s r)).
  { destruct (coroutines m !! owner c) as [[q | q | s r] |] eqn:E; [naive_solver | | by eexists _, _ | done].
    destruct Hslot as [-> _]. specialize (Hw _ _ _ E Hp). congruence. }
  destruct Hret as (s & r & Hret). apply NoDup_cons in Hn as [Hnp Hn].
  split_and!; [split; mux_simpl; try done | split; mux_simpl; [done |] | unfold finish; rewrite Ht; unfold destroy, deref; mux_simpl; by rewrite lookup_insert_eq, delete_insert_eq].
  - intros q Hq'. rewrite lookup_delete_ne by (intros ->; done). apply Hl. by right.
  - intros q c' Hc'. apply lookup_delete_Some in Hc' as [Hne Hc']. specialize (Hs q c' Hc'). unfold slot_ok in *. mux_simpl.
    destruct (coroutines m !! owner c') as [[q' | q' | s' r'] |]; [set_solver | | set_solver | done]. destruct (timed_out c'); set_solver.
  - intros k co Hco. specialize (Hc k co Hco). destruct co as [q | q | s' r']; cbn in *; [| | done]; destruct Hc as (c' & Hc' & Ho).
    all: exists c'; split; [| done]; rewrite lookup_delete_ne; [done |]; intros ->; rewrite Hp in Hc'; injection Hc' as <-; rewrite Ho in Hret; congruence.
  - intros q Hq'. rewrite Hset in Hq'. by apply not_elem_of_nil in Hq'.
  - intros k q c' Hk Hc'. apply lookup_delete_Some in Hc' as [Hne Hc']. by eapply Hw.
Qed.

Lemma finish_waiting f p rest c m : slots_ok (p :: rest) m -> settled m -> slab_ m !! p = Some c -> timed_out c = false ->
  owner (f c) = owner c -> sequence (f c) = sequence c -> timed_out (f c) = false -> good (sequence c) (result (f c)) ->
  let m' := with_coroutines (<[owner c := Woken p]> (coroutines m)) (with_slab (<[p := f c]> (slab_ m)) m) in
  slots_ok rest m' /\ settled m' /\ finish f p c m = Returns m'.
Proof.
  intros [Hn Hl Hs Hc Hq Hh] [Hset Hw] Hp Ht Ho Hseq Htf Hg m'. pose proof (Hs p c Hp) as Hslot. unfold slot_ok in Hslot. rewrite Ht in Hslot.
  apply NoDup_cons in Hn as [Hnp Hn].
  assert (Hsus : coroutines m !! owner c = Some (Suspended p)) by (destruct (coroutines m !! owner c) as [[q | q | s r] |]; set_solver).
  assert (Hother : forall q c', q <> p -> slab_ m !! q = Some c' -> owner c' <> owner c).
  { intros q c' Hne Hc' E. specialize (Hs q c' Hc'). unfold slot_ok in Hs. rewrite E, Hsus in Hs. naive_solver. }
  subst m'. split_and!; [split; mux_simpl; try done | split; mux_simpl; [done |] |].
  - intros q Hq'. destruct (decide (q = p)) as [-> |]; [by rewrite lookup_insert_eq | rewrite lookup_insert_ne by done]. apply Hl. by right.
  - intros q c' Hc'. unfold slot_ok. mux_simpl. destruct (decide (q = p)) as [-> | Hne].
    + rewrite lookup_insert_eq in Hc'. injection Hc' as <-. rewrite Ho, lookup_insert_eq, Htf, Hseq. done.
    + rewrite lookup_insert_ne in Hc' by done. rewrite lookup_insert_ne by (intros E; by apply (Hother q c' Hne Hc')). specialize (Hs q c' Hc'). unfold slot_ok in Hs.
      destruct (coroutines m !! owner c') as [[q' | q' | s' r'] |]; [set_solver | | set_solver | done]. destruct (timed_out c'); set_solver.
  - intros k co Hco. destruct (decide (k = owner c)) as [-> | Hne].
    + rewrite lookup_insert_eq in Hco. injection Hco as <-. exists (f c). mux_simpl. by rewrite lookup_insert_eq.
    + rewrite lookup_insert_ne in Hco by done. specialize (Hc k co Hco). destruct co as [q | q | s' r']; cbn in *; [| | done]; destruct Hc as (c' & Hc' & Ho').
      all: exists c'; split; [| done]; rewrite lookup_insert_ne; [done |]; intros ->; congruence.
  - intros q Hq'. rewrite Hset in Hq'. by apply not_elem_of_nil in Hq'.
  - intros k q c' Hk Hc'. destruct (decide (q = p)) as [-> | Hqp]; [rewrite lookup_insert_eq in Hc'; congruence |]. rewrite lookup_insert_ne in Hc' by done.
    destruct (decide (k = owner c)) as [-> | Hne]; [rewrite lookup_insert_eq in Hk; congruence |]. rewrite lookup_insert_ne in Hk by done. by eapply Hw.
  - unfold finish. rewrite Ht. unfold resolve. rewrite Ho. mux_simpl. rewrite Hsus, Z.eqb_refl. done.
Qed.

(** The head leaves the list of pending commands, safely. *)
Lemma finish_ok f p rest m : slots_ok (p :: rest) m -> settled m ->
  (forall c, owner (f c) = owner c /\ sequence (f c) = sequence c /\ timed_out (f c) = timed_out c /\ good (sequence c) (result (f c))) ->
  exists c m', slab_ m !! p = Some c /\ cancelled c = false /\ finish f p c m = Returns m' /\ slots_ok rest m' /\ settled m' /\
    pending_ m' = pending_ m /\ connected m' = connected m /\ in_flight m' = in_flight m /\ (forall q, q <> p -> slab_ m' !! q = slab_ m !! q) /\ freed m' = freed m.
Proof.
  intros Hok Hset Hf. destruct (so_live _ _ Hok p) as [c Hp]; [left |]. exists c. pose proof (so_slot _ _ Hok p c Hp) as Hslot.
  assert (Hcan : cancelled c = false).
  { unfold slot_ok in Hslot. destruct (coroutines m !! owner c) as [[q | q | s r] |]; [naive_solver | | naive_solver | done]. destruct (timed_out c); set_solver. }
  destruct (Hf c) as (H1 & H2 & H3 & H4). destruct (timed_out c) eqn:Et.
  - destruct (finish_timed_out f p rest c m Hok Hset Hp Et) as (Ha & Hb & E). eexists. split_and!; [done.. | | done]. intros q Hne. mux_simpl. by rewrite lookup_delete_ne.
  - destruct (finish_waiting f p rest c m Hok Hset Hp Et H1 H2 ltac:(congruence) H4) as (Ha & Hb & E). eexists. split_and!; [done.. | | done].
    intros q Hne. mux_simpl. by rewrite lookup_insert_ne.
Qed.

Lemma slots_ok_same pend m m' : slab_ m' = slab_ m -> coroutines m' = coroutines m -> queued m' = queued m -> slots_ok pend m -> slots_ok pend m'.
Proof.
  intros E1 E2 E3 [Hn Hl Hs Hc Hq Hh]. split; rewrite ?E1, ?E2, ?E3; try done.
  - intros p c Hp. unfold slot_ok. rewrite E2. by apply Hs.
  - intros k co Hco. specialize (Hc k co Hco). unfold coroutine_ok in *. by rewrite E1.
Qed.

Lemma settled_same m m' : slab_ m' = slab_ m -> coroutines m' = coroutines m -> queued m' = queued m -> settled m -> settled m'.
Proof. unfold settled. by intros -> -> ->. Qed.

Definition give (reply : option Z) : PendingCommand -> PendingCommand := set_result (match reply with Some v => Ok v | None => Err AdapterError end).

Lemma static_on_reply_finish reply p rest c m : pending_ m = p :: rest -> slab_ m !! p = Some c -> cancelled c = false ->
  static_on_reply reply m = finish (give reply) p c (with_pending rest m).
Proof.
  intros Hpend Hp Hcan. unfold static_on_reply, finish, deref. rewrite Hpend. mux_simpl. rewrite Hp. mux_simpl. rewrite Hcan.
  destruct (timed_out c); [| done]. unfold destroy, deref. mux_simpl. by rewrite Hp, lookup_insert_eq, delete_insert_eq.
Qed.

(** A reply, or the null reply of a freed connection, for the oldest command. *)
Lemma reply_step reply p rest m : pending_ m = p :: rest -> slots_ok (p :: rest) m -> settled m ->
  (forall c v, slab_ m !! p = Some c -> reply = Some v -> answer (sequence c) = Some v) ->
  exists m', static_on_reply reply m = Returns m' /\ slots_ok rest m' /\ settled m' /\ pending_ m' = rest /\ connected m' = connected m /\
    in_flight m' = in_flight m /\ (forall q, q <> p -> slab_ m' !! q = slab_ m !! q) /\ freed m' = freed m.
Proof.
  intros Hpend Hok Hset Hrep. destruct (so_live _ _ Hok p) as [c Hc]; [left |].
  set (f := λ c', if decide (sequence c' = sequence c) then give reply c' else give None c').
  destruct (finish_ok f p rest (with_pending rest m)) as (c' & m' & Hc' & Hcan & E & H1 & H2 & H3 & H4 & H5 & H6); [by apply (slots_ok_same _ m) | by apply (settled_same m) | |].
  - intros c'. subst f. cbn beta. destruct (decide (sequence c' = sequence c)) as [Eq |]; [| done]. split_and!; [done.. |].
    unfold give. destruct reply as [v |]; [| done]. cbn. rewrite Eq. by eapply Hrep.
  - mux_simpl. rewrite Hc in Hc'. injection Hc' as <-. exists m'. split; [| done]. rewrite (static_on_reply_finish reply p rest c) by done.
    rewrite <- E. unfold finish, f. rewrite decide_True by done. done.
Qed.

Lemma cancel_loop_ok local m : slots_ok local m -> settled m ->
  exists m', cancel_loop AdapterError local m = Returns m' /\ slots_ok [] m' /\ settled m' /\ pending_ m' = pending_ m /\ connected m' = connected m /\ in_flight m' = in_flight m /\ freed m' = freed m.
Proof.
  revert m. induction local as [| p local IH]; intros m Hok Hset; cbn [cancel_loop]; [by exists m |].
  destruct (finish_ok (λ c, set_cancelled (set_result (Err AdapterError) c)) p local m Hok Hset) as (c & m1 & Hc & Hcan & E & H1 & H2 & H3 & H4 & H5 & _ & H6); [done |].
  unfold deref. rewrite Hc. cbn [outcome_bind]. unfold finish in E. cbn [timed_out set_cancelled set_result] in *. rewrite E. cbn [outcome_bind].
  destruct (IH m1 H1 H2) as (m' & -> & G1 & G2 & G3 & G4 & G5 & G6). exists m'. split_and!; congruence.
Qed.

Lemma cancel_all_ok m : mux_ok m -> settled m ->
  exists m', cancel_all_pending AdapterError m = Returns m' /\ slots_ok [] m' /\ settled m' /\ pending_ m' = [] /\ connected m' = connected m /\ in_flight m' = in_flight m /\ freed m' = freed m.
Proof.
  intros [Hok _] Hset. unfold cancel_all_pending.
  destruct (cancel_loop_ok (pending_ m) (with_pending [] m)) as (m' & -> & G1 & G2 & G3 & G4 & G5 & G6); [by apply (slots_ok_same _ m) | by apply (settled_same m) |]. by exists m'.
Qed.

(** Callbacks for commands already given up find nothing pending. *)
Lemma free_context_empty n m : pending_ m = [] -> free_context n m = Returns m.
Proof. intros E. induction n as [| n IH]; [done |]. cbn [free_context]. unfold static_on_reply. rewrite E. done. Qed.

Lemma free_context_ok n m : slots_ok (pending_ m) m -> settled m -> n = length (pending_ m) ->
  exists m', free_context n m = Returns m' /\ slots_ok [] m' /\ settled m' /\ pending_ m' = [] /\ connected m' = connected m.
Proof.
  revert m. induction n as [| n IH]; intros m Hok Hset Hn; cbn [free_context].
  { assert (pending_ m = []) as E by (by apply nil_length_inv). exists m. rewrite E in Hok. done. }
  destruct (pending_ m) as [| p rest] eqn:Ep; [done |]. destruct (reply_step None p rest m Ep Hok Hset) as (m1 & -> & H1 & H2 & H3 & H4 & _); [done |].
  cbn [outcome_bind]. destruct (IH m1) as (m' & -> & G1 & G2 & G3 & G4); [by rewrite H3 | done | rewrite H3; by injection Hn |]. exists m'. split_and!; congruence.
Qed.

Lemma mux_idle m b : slots_ok [] m -> pending_ m = [] -> mux_ok (with_server b [] m).
Proof. intros Hok Hp. split; mux_simpl; rewrite Hp; [by apply (slots_ok_same _ m) | done]. Qed.

Lemma match_length m : mux_ok m -> length (in_flight m) = length (pending_ m).
Proof. intros [_ E]. apply (f_equal length) in E. rewrite !length_fmap in E. done. Qed.

Lemma close_step m : mux_ok m -> settled m -> freed m = false -> (connected m = false -> in_flight m = []) ->
  exists m', close m = Returns m' /\ mux_ok m' /\ settled m' /\ connected m' = false /\ in_flight m' = [].
Proof.
  intros Hok Hset Hfr Hdis. unfold close. destruct (cancel_all_ok m Hok Hset) as (m1 & -> & H1 & H2 & H3 & H4 & H5 & H6). cbn [outcome_bind]. rewrite H4.
  destruct (connected m) eqn:Ec.
  - unfold disconnect. rewrite H6, Hfr, free_context_empty by done. cbn [outcome_bind]. eexists. split; [done |]. split_and!; [by apply mux_idle | by apply (settled_same m1) | done | done].
  - exists m1. split_and!; [done | | done | done | rewrite H5; auto]. split; rewrite H3; [done |]. rewrite H5, Hdis by done. done.
Qed.

Lemma drop_step m : mux_ok m -> settled m -> freed m = false -> (connected m = false -> in_flight m = []) ->
  exists m', drop_connection m = Returns m' /\ mux_ok m' /\ settled m' /\ connected m' = false /\ in_flight m' = [].
Proof.
  intros Hok Hset Hfr Hdis. unfold drop_connection. destruct (connected m) eqn:Ec.
  - unfold disconnect. rewrite Hfr. destruct (free_context_ok (length (in_flight m)) m) as (m1 & -> & H1 & H2 & H3 & H4); [apply Hok | done | by apply match_length |].
    cbn [outcome_bind]. unfold cancel_all_pending. mux_simpl. rewrite H3. cbn [cancel_loop]. eexists. split; [done |].
    assert (E : with_pending [] (with_server false [] m1) = with_server false [] m1) by (unfold with_pending; mux_simpl; by rewrite <- H3).
    rewrite E. split_and!; [by apply mux_idle | by apply (settled_same m1) | done | done].
  - cbn [outcome_bind]. destruct (cancel_all_ok m Hok Hset) as (m1 & -> & H1 & H2 & H3 & H4 & H5 & _). exists m1. specialize (Hdis eq_refl).
    split_and!; [done | | done | congruence | congruence]. split; rewrite H3; [done |]. by rewrite H5, Hdis.
Qed.

(** Every command in flight ends with an adapter error. *)
Lemma lost_step m : mux_ok m -> settled m ->
  exists m', lose_connection m = Returns m' /\ mux_ok m' /\ in_flight m' = [].
Proof.
  intros Hok Hset. unfold lose_connection.
  destruct (free_context_ok (length (in_flight m)) m) as (m1 & -> & H1 & H2 & H3 & H4); [apply Hok | done | by apply match_length |].
  cbn [outcome_bind]. eexists. split; [done |]. split; [| done]. destruct (mux_idle m1 (connected m1) H1 H3) as [Ha Hb]. split; [by apply (slots_ok_same _ (with_server (connected m1) [] m1)) | done].
Qed.

(** Only the slot [p] and the coroutine [k] change, and no other slot is of [k]. *)
Lemma slots_update pend pend' m m' p k : slots_ok pend m ->
  (forall q, q <> p -> slab_ m' !! q = slab_ m !! q) -> (forall j, j <> k -> coroutines m' !! j = coroutines m !! j) ->
  (forall q c, q <> p -> slab_ m !! q = Some c -> owner c <> k) ->
  (forall c, slab_ m !! p = Some c -> owner c = k) ->
  NoDup pend' -> (forall q, q <> p -> q ∈ pend' <-> q ∈ pend) -> (p ∈ pend' -> is_Some (slab_ m' !! p)) ->
  (forall c, slab_ m' !! p = Some c -> slot_ok pend' m' p c) -> (forall co, coroutines m' !! k = Some co -> coroutine_ok m' k co) ->
  NoDup (queued m') -> (forall q, q ∈ queued m' -> q <> p -> q ∈ queued m) ->
  (p ∈ queued m' -> exists c, slab_ m' !! p = Some c /\ armed c = false /\ coroutines m' !! owner c = Some (Suspended p)) ->
  slots_ok pend' m'.
Proof.
  intros [Hn Hl Hs Hc Hq Hh] Hslab Hcor Hown Hown' Hn' Hpend Hlive Hslot Hco Hnq Hqs Hqp. split; [done | | | | done |].
  - intros q Hin. destruct (decide (q = p)) as [-> | Hne]; [auto |]. rewrite Hslab by done. apply Hl. by apply Hpend.
  - intros q c Hc'. destruct (decide (q = p)) as [-> | Hne]; [auto |]. rewrite Hslab in Hc' by done. specialize (Hs q c Hc'). unfold slot_ok in *.
    rewrite Hcor by (by eapply Hown). pose proof (Hpend q Hne) as Hiff.
    destruct (coroutines m !! owner c) as [[q' | q' | s' r'] |]; [naive_solver | destruct (timed_out c); naive_solver | naive_solver | done].
  - intros j co Hj. destruct (decide (j = k)) as [-> | Hne]; [auto |]. rewrite Hcor in Hj by done. specialize (Hc j co Hj).
    destruct co as [q | q | s' r']; [| | done]; cbn in *; destruct Hc as (c & Hc & Ho);
      (destruct (decide (q = p)) as [-> | Hqp']; [specialize (Hown' c Hc); congruence | exists c; by rewrite Hslab]).
  - intros q Hin. destruct (decide (q = p)) as [-> | Hne]; [auto |]. destruct (Hh q (Hqs q Hin Hne)) as (c & Hc' & Ha & Hsus). exists c.
    rewrite Hslab by done. split_and!; [done.. |]. rewrite Hcor; [done |]. by eapply Hown.
Qed.

Lemma match_update (pend : list Z) (t t' : gmap Z PendingCommand) p : (p ∉ pend) -> (forall q, q <> p -> t' !! q = t !! q) ->
  (λ q, sequence <$> t' !! q) <$> pend = (λ q, sequence <$> t !! q) <$> pend.
Proof. intros Hp Hs. apply list_fmap_ext. intros i q Hq. cbn. rewrite Hs; [done |]. intros ->. apply Hp. by eapply list_elem_of_lookup_2. Qed.

(** A slot is of one coroutine, which waits on that slot alone. *)
Lemma slot_owner pend m p q c c' : slots_ok pend m -> slab_ m !! p = Some c -> slab_ m !! q = Some c' -> owner c = owner c' ->
  (exists x, coroutines m !! owner c = Some (Suspended x) \/ coroutines m !! owner c = Some (Woken x)) -> p = q.
Proof.
  intros Hok Hp Hq Ho (x & Hx). pose proof (so_slot _ _ Hok p c Hp) as H1. pose proof (so_slot _ _ Hok q c' Hq) as H2. unfold slot_ok in *. rewrite <- Ho in H2.
  destruct Hx as [Hx | Hx]; rewrite Hx in H1, H2; destruct H1 as [-> _], H2 as [-> _]; done.
Qed.

Lemma submit_step k slot sent m : mux_ok m -> freed m = false -> (connected m = false -> in_flight m = []) -> coroutines m !! k = None ->
  (forall p, slot = Some p -> slab_ m !! p = None) ->
  exists m', submit k slot sent m = Returns m' /\ mux_ok m' /\ (connected m' = false -> in_flight m' = []).
Proof.
  intros [Hok Hm] Hfr Hoff Hk Hp.
  assert (Hown : forall q c, slab_ m !! q = Some c -> owner c <> k).
  { intros q c Hc E. pose proof (so_slot _ _ Hok q c Hc) as Hs. unfold slot_ok in Hs. by rewrite E, Hk in Hs. }
  assert (Hfail : forall m', slab_ m' = slab_ m -> coroutines m' = <[k := Returned None (Err AdapterError)]> (coroutines m) -> queued m' = queued m ->
    pending_ m' = pending_ m -> in_flight m' = in_flight m -> connected m' = connected m -> mux_ok m' /\ (connected m' = false -> in_flight m' = [])).
  { intros m' E1 E2 E3 E4 E5 E6. split; [| rewrite E5, E6; done]. split; [| by rewrite E1, E4, E5]. rewrite E4. destruct Hok as [Hn Hl Hs Hc Hq Hh].
    split; rewrite ?E1, ?E2, ?E3; try done.
    - intros q c Hc'. specialize (Hs q c Hc'). unfold slot_ok in *. rewrite E2, lookup_insert_ne by (symmetry; by eapply Hown). done.
    - intros j co Hj. destruct (decide (j = k)) as [-> | Hne]; [rewrite lookup_insert_eq in Hj; by injection Hj as <- |]. rewrite lookup_insert_ne in Hj by done.
      specialize (Hc j co Hj). unfold coroutine_ok in *. by rewrite E1.
    - intros q Hin. destruct (Hh q Hin) as (c & Hc' & Ha & Hsus). exists c. split_and!; [done.. |]. rewrite lookup_insert_ne by (symmetry; by eapply Hown). done. }
  unfold submit. destruct (connected m) eqn:Econ; cbn [negb]; [| eexists; split; [done |]; by apply Hfail]. destruct slot as [p |]; [| eexists; split; [done |]; by apply Hfail].
  mux_simpl. rewrite Hfr. destruct sent; cbn [negb]; [| eexists; split; [done |]; by apply Hfail].
  specialize (Hp p eq_refl). mux_simpl. assert (Hpp : p ∉ pending_ m) by (intros Hin; destruct (so_live _ _ Hok p Hin) as [c Hc]; congruence).
  eexists. split; [done |]. split; [split; mux_simpl | done].
  - apply (slots_update (pending_ m) _ m _ p k Hok); mux_simpl.
    + intros q Hne. by rewrite lookup_insert_ne.
    + intros j Hne. by rewrite lookup_insert_ne.
    + intros q c _. apply Hown.
    + intros c Hc. congruence.
    + apply NoDup_app. split_and!; [apply Hok | set_solver | apply NoDup_singleton].
    + set_solver.
    + intros _. by rewrite lookup_insert_eq.
    + intros c. rewrite lookup_insert_eq. intros [= <-]. unfold slot_ok. mux_simpl. rewrite lookup_insert_eq. set_solver.
    + intros co. rewrite lookup_insert_eq. intros [= <-]. cbn. rewrite lookup_insert_eq. by eexists.
    + apply Hok.
    + done.
    + intros Hin. destruct (so_handler _ _ Hok p Hin) as (c & Hc & _). congruence.
  - rewrite !fmap_app. f_equal; [rewrite <- Hm; apply (match_update _ (slab_ m) _ p Hpp); intros q Hne; by rewrite lookup_insert_ne |].
    cbn. by rewrite lookup_insert_eq.
Qed.

Lemma expire_step p c m : mux_ok m -> slab_ m !! p = Some c -> armed c = true -> coroutines m !! owner c = Some (Suspended p) ->
  mux_ok (with_queued (queued m ++ [p]) (with_slab (<[p := disarm c]> (slab_ m)) m)).
Proof.
  intros [Hok Hm] Hp Ha Hsus. pose proof (so_slot _ _ Hok p c Hp) as Hslot. unfold slot_ok in Hslot. rewrite Hsus in Hslot. split; mux_simpl.
  - assert (Hnq : p ∉ queued m) by (intros Hin; destruct (so_handler _ _ Hok p Hin) as (c' & Hc' & Ha' & _); congruence).
    apply (slots_update (pending_ m) _ m _ p (owner c) Hok); mux_simpl; try done.
    + intros q Hne. by rewrite lookup_insert_ne.
    + intros q c' Hne Hc' E. apply Hne. symmetry. eapply (slot_owner _ m p q c c' Hok); eauto.
    + congruence.
    + apply Hok.
    + intros _. by rewrite lookup_insert_eq.
    + intros c'. rewrite lookup_insert_eq. intros [= <-]. unfold slot_ok. mux_simpl. by rewrite Hsus.
    + rewrite Hsus. intros co [= <-]. cbn. rewrite lookup_insert_eq. by eexists.
    + apply NoDup_app. split_and!; [apply Hok | set_solver | apply NoDup_singleton].
    + set_solver.
    + intros _. exists (disarm c). rewrite lookup_insert_eq. mux_simpl. done.
  - rewrite <- Hm. apply list_fmap_ext. intros i q _. cbn. destruct (decide (q = p)) as [-> |]; [by rewrite lookup_insert_eq, Hp | by rewrite lookup_insert_ne].
Qed.

Lemma timeout_step p rest m : mux_ok m -> queued m = p :: rest -> exists m', on_timeout p (with_queued rest m) = Returns m' /\ mux_ok m' /\
  connected m' = connected m /\ in_flight m' = in_flight m.
Proof.
  intros [Hok Hm] Hq. destruct (so_handler _ _ Hok p) as (c & Hp & Ha & Hsus); [rewrite Hq; left |]. pose proof (so_slot _ _ Hok p c Hp) as Hslot. unfold slot_ok in Hslot. rewrite Hsus in Hslot.
  pose proof (so_queued _ _ Hok) as Hnq. rewrite Hq, NoDup_cons in Hnq. destruct Hnq as [Hnp Hnq].
  unfold on_timeout, deref. mux_simpl. rewrite Hp. mux_simpl. unfold resolve. mux_simpl. rewrite Hsus, Z.eqb_refl. eexists. split; [done |]. split; [split; mux_simpl | done].
  - apply (slots_update (pending_ m) _ m _ p (owner c) Hok); mux_simpl; try done.
    + intros q Hne. by rewrite lookup_insert_ne.
    + intros j Hne. by rewrite lookup_insert_ne.
    + intros q c' Hne Hc' E. apply Hne. symmetry. eapply (slot_owner _ m p q c c' Hok); eauto.
    + congruence.
    + apply Hok.
    + intros _. by rewrite lookup_insert_eq.
    + intros c'. rewrite lookup_insert_eq. intros [= <-]. unfold slot_ok. mux_simpl. rewrite lookup_insert_eq. naive_solver.
    + intros co. rewrite lookup_insert_eq. intros [= <-]. cbn. rewrite lookup_insert_eq. by eexists.
    + intros q Hin Hne. rewrite Hq. by right.
  - rewrite <- Hm. apply list_fmap_ext. intros i q _. cbn. destruct (decide (q = p)) as [-> |]; [by rewrite lookup_insert_eq, Hp | by rewrite lookup_insert_ne].
Qed.

Lemma resume_step k p m : mux_ok m -> coroutines m !! k = Some (Woken p) -> exists m', resume k p m = Returns m' /\ mux_ok m' /\
  connected m' = connected m /\ in_flight m' = in_flight m.
Proof.
  intros [Hok Hm] Hk. destruct (so_coroutine _ _ Hok k _ Hk) as (c & Hp & Ho). pose proof (so_slot _ _ Hok p c Hp) as Hslot. unfold slot_ok in Hslot. rewrite Ho, Hk in Hslot.
  assert (Hnq : p ∉ queued m) by (intros Hin; destruct (so_handler _ _ Hok p Hin) as (c' & Hc' & _ & Hs'); congruence).
  assert (Hown : forall q c', q <> p -> slab_ m !! q = Some c' -> owner c' <> k).
  { intros q c' Hne Hc' E. apply Hne. symmetry. apply (slot_owner _ m p q c c' Hok); [done | done | congruence |]. exists p. right. congruence. }
  unfold resume, deref. rewrite Hp. mux_simpl. unfold release_pending, destroy, deref. mux_simpl. rewrite lookup_insert_eq. mux_simpl.
  destruct Hslot as [_ Hslot]. destruct (timed_out c) eqn:Et; mux_simpl; (eexists; split; [done |]; split; [| done]; split; mux_simpl).
  - destruct Hslot as (Hin & Hcan & Hres). apply (slots_update (pending_ m) _ m _ p k Hok); mux_simpl; try done.
    + intros q Hne. by rewrite lookup_insert_ne.
    + intros j Hne. by rewrite lookup_insert_ne.
    + congruence.
    + apply Hok.
    + intros _. by rewrite lookup_insert_eq.
    + intros c'. rewrite lookup_insert_eq. intros [= <-]. unfold slot_ok. mux_simpl. by rewrite Ho, lookup_insert_eq.
    + intros co. rewrite lookup_insert_eq. intros [= <-]. cbn. rewrite Hres. by right.
    + apply Hok.
  - rewrite <- Hm. apply list_fmap_ext. intros i q _. cbn. destruct (decide (q = p)) as [-> |]; [by rewrite lookup_insert_eq, Hp | by rewrite lookup_insert_ne].
  - destruct Hslot as [Hnin Hg]. apply (slots_update (pending_ m) _ m _ p k Hok); mux_simpl; rewrite ?lookup_insert_eq; mux_simpl; rewrite ?delete_insert_eq; try done.
    + intros q Hne. by rewrite lookup_delete_ne.
    + intros j Hne. by rewrite lookup_insert_ne.
    + congruence.
    + apply Hok.
    + intros c'. by rewrite lookup_delete_eq.
    + intros co [= <-]. by left.
    + apply Hok.
  - destruct Hslot as [Hnin _]. rewrite ?lookup_insert_eq. mux_simpl. rewrite <- Hm. apply (match_update _ (slab_ m) _ p Hnin). intros q Hne. by rewrite delete_insert_eq, lookup_delete_ne.
Qed.

Lemma reply_event m seq rest : mux_ok m -> settled m -> in_flight m = seq :: rest ->
  exists m', static_on_reply (answer seq) (with_server (connected m) rest m) = Returns m' /\ mux_ok m' /\ connected m' = connected m /\ in_flight m' = rest.
Proof.
  intros [Hok Hm] Hset Hin. rewrite Hin in Hm. destruct (pending_ m) as [| p pend] eqn:Ep; [done |]. cbn in Hm. injection Hm as Hp Hm.
  destruct (slab_ m !! p) as [c |] eqn:Ec; [| done]. cbn in Hp. injection Hp as Hseq.
  destruct (reply_step (answer seq) p pend (with_server (connected m) rest m)) as (m' & E & H1 & H2 & H3 & H4 & H5 & H6 & _);
    [done | by apply (slots_ok_same _ m) | by apply (settled_same m) | |].
  - intros c' v Hc' Hv. mux_simpl. rewrite Ec in Hc'. injection Hc' as <-. by rewrite Hseq.
  - exists m'. split_and!; [done | | done | done]. split; rewrite H3; [done |]. rewrite H5. mux_simpl. rewrite <- Hm.
    pose proof (so_nodup _ _ Hok) as Hn. apply NoDup_cons in Hn as [Hnp _]. by apply (match_update _ (slab_ m) _ p).
Qed.

(** The schedules in which the timer of a command expires only while its coroutine
    is suspended (not between the reply and the resumption, whose [cancel] then comes
    too late), in which an expired timer is served and its coroutine resumed before
    the next reply, close or loss of the connection, and in which nothing uses a
    connection after the server has closed it. *)
Definition prompt (e : event) (m : RedisMultiplexer) : Prop :=
  match e with
  | Submit _ _ _ => freed m = false
  | Expire p => exists c, slab_ m !! p = Some c /\ coroutines m !! owner c = Some (Suspended p)
  | Reply | Lost => settled m
  | Close | Drop => settled m /\ freed m = false
  | _ => True
  end.
Fixpoint prompts (es : list event) (m : RedisMultiplexer) : Prop :=
  match es with
  | [] => True
  | e :: es => prompt e m /\ match exec answer e m with Some (Returns m') => prompts es m' | _ => True end
  end.

Lemma exec_step e m o : mux_ok m -> (connected m = false -> in_flight m = []) -> prompt e m -> exec answer e m = Some o ->
  exists m', o = Returns m' /\ mux_ok m' /\ (connected m' = false -> in_flight m' = []).
Proof.
  intros Hok Hoff Hpr He. destruct e as [k slot sent | | p | | k | | | |]; cbn [exec prompt] in *.
  - assert (coroutines m !! k = None /\ (forall p, slot = Some p -> slab_ m !! p = None) /\ o = submit k slot sent m) as (H1 & H2 & ->).
    { destruct (coroutines m !! k); [done |]. destruct slot as [p |]; [case_bool_decide; [| done] |]; simplify_eq; naive_solver. }
    by apply submit_step.
  - destruct (in_flight m) as [| seq rest] eqn:Ein; [done |]. injection He as <-.
    destruct (reply_event m seq rest Hok Hpr Ein) as (m' & -> & H1 & H2 & H3). exists m'. split_and!; [done.. |]. rewrite H2. intros E. by specialize (Hoff E).
  - destruct Hpr as (c & Hc & Hsus). rewrite Hc in He. destruct (armed c) eqn:Ea; [| done]. injection He as <-. eexists. split; [done |]. split; [by apply expire_step | done].
  - destruct (queued m) as [| p rest] eqn:Eq; [done |]. injection He as <-. destruct (timeout_step p rest m Hok Eq) as (m' & -> & H1 & H2 & H3). exists m'. by rewrite H2, H3.
  - destruct (coroutines m !! k) as [[q | q | s r] |] eqn:Ek; [done | | done | done]. injection He as <-.
    destruct (resume_step k q m Hok Ek) as (m' & -> & H1 & H2 & H3). exists m'. by rewrite H2, H3.
  - injection He as <-. destruct Hpr as [Hset Hfr]. destruct (close_step m Hok Hset Hfr Hoff) as (m' & -> & H1 & _ & _ & H2). by exists m'.
  - injection He as <-. destruct Hpr as [Hset Hfr]. destruct (drop_step m Hok Hset Hfr Hoff) as (m' & -> & H1 & _ & _ & H2). by exists m'.
  - destruct (connected m && negb (freed m)); [| done]. injection He as <-. destruct (lost_step m Hok Hpr) as (m' & -> & H1 & H2). by exists m'.
  - destruct (connected m) eqn:Ec; [done |]. injection He as <-. eexists. split; [done |]. split; [| done]. specialize (Hoff eq_refl).
    assert (Hp : pending_ m = []) by (apply nil_length_inv; rewrite <- match_length by done; by rewrite Hoff).
    destruct Hok as [Hs _]. rewrite Hp in Hs. destruct (mux_idle m true Hs Hp) as [Ha Hb]. split; [by apply (slots_ok_same _ (with_server true [] m)) | done].
Qed.

Lemma exec_all_ok es m o : mux_ok m -> (connected m = false -> in_flight m = []) -> prompts es m -> exec_all answer es m = Some o ->
  exists m', o = Returns m' /\ mux_ok m'.
Proof.
  revert m. induction es as [| e es IH]; intros m Hok Hoff Hpr; cbn [exec_all prompts] in *; [intros [= <-]; by exists m |]. destruct Hpr as [He Hes].
  destruct (exec answer e m) as [o' |] eqn:E; [| done]. destruct (exec_step e m o' Hok Hoff He E) as (m' & -> & Hok' & Hoff'). by apply IH.
Qed.

Lemma make_mux_ok : mux_ok make_mux.
Proof. split; [| done]. split; cbn; try (by intros ? ?%not_elem_of_nil); try apply NoDup_nil_2; by intros ? ?; rewrite lookup_empty. Qed.

(** The same, to be evaluated. *)
Definition settledb (m : RedisMultiplexer) : bool :=
  bool_decide (queued m = []) &&
  forallb (λ kc, match kc.2 with Woken p => match slab_ m !! p with Some c => negb (timed_out c) | None => true end | _ => true end) (map_to_list (coroutines m)).
Definition promptb (e : event) (m : RedisMultiplexer) : bool :=
  match e with
  | Expire p => match slab_ m !! p with Some c => match coroutines m !! owner c with Some (Suspended q) => q =? p | _ => false end | None => false end
  | Submit _ _ _ => negb (freed m)
  | Reply | Lost => settledb m
  | Close | Drop => settledb m && negb (freed m)
  | _ => true
  end.
Fixpoint promptsb (es : list event) (m : RedisMultiplexer) : bool :=
  match es with
  | [] => true
  | e :: es => promptb e m && match exec answer e m with Some (Returns m') => promptsb es m' | _ => true end
  end.

Lemma settledb_sound m : settledb m = true -> settled m.
Proof.
  unfold settledb. intros [Hq%bool_decide_eq_true Hf]%andb_prop. split; [done |]. intros k p c Hk Hp. rewrite forallb_forall in Hf.
  specialize (Hf (k, Woken p)). cbn in Hf. rewrite Hp in Hf. apply negb_true_iff, Hf, list_elem_of_In, elem_of_map_to_list, Hk.
Qed.

Lemma promptsb_sound es m : promptsb es m = true -> prompts es m.
Proof.
  revert m. induction es as [| e es IH]; intros m; cbn [promptsb prompts]; [done |]. intros [He Hes]%andb_prop. split.
  - destruct e as [k slot sent | | p | | k | | | |]; cbn [promptb prompt] in *; try done; try by apply settledb_sound.
    all: try (by apply negb_true_iff); try (apply andb_prop in He as [He Hf]; split; [by apply settledb_sound | by apply negb_true_iff]).
    destruct (slab_ m !! p) as [c |]; [| done]. exists c. split; [done |]. destruct (coroutines m !! owner c) as [[q | q | s r] |]; [| done..]. by apply Z.eqb_eq in He as ->.
  - destruct (exec answer e m) as [[m' | x] |]; auto.
Qed.

(** C24: On every schedule of submissions, replies, timeouts, resumptions, closes,
    lost connections and reconnections that is [prompt] throughout, the multiplexer
    touches no released command and: every command that was sent ends with the reply
    the server gave to that very command, with an adapter error, or with a timeout;
    the commands waiting stand in the order in which their replies arrive; and a slot
    of the slab is in use only while a reply for it is due or its coroutine is about
    to resume. [prompt] asks that a timer expires only while its coroutine is still
    suspended, that an expired timer is served and its coroutine resumed before the
    next reply, close or loss of the connection, and that after the server has closed
    the connection no command is submitted and the connection is not closed; the
    examples below show what happens otherwise. *)
Theorem redis_replies_match es o : prompts es make_mux -> exec_all answer es make_mux = Some o ->
  exists m, o = Returns m /\
    (forall k seq r, coroutines m !! k = Some (Returned (Some seq) r) -> r = Err Timeout \/ r = Err AdapterError \/ exists v, r = Ok v /\ answer seq = Some v) /\
    (λ p, sequence <$> slab_ m !! p) <$> pending_ m = Some <$> in_flight m /\
    (forall p c, slab_ m !! p = Some c -> p ∈ pending_ m \/ coroutines m !! owner c = Some (Woken p)).
Proof.
  intros Hpr He. destruct (exec_all_ok es _ o make_mux_ok ltac:(done) Hpr He) as (m & -> & Hok & Hm). exists m. split_and!; [done | | done |].
  - intros k seq r Hk. destruct (so_coroutine _ _ Hok k _ Hk) as [Hg | ->]; [right | by left]. destruct r as [v | e]; cbn in Hg; [right; by exists v | left; by rewrite Hg].
  - intros p c Hp. pose proof (so_slot _ _ Hok p c Hp) as Hs. unfold slot_ok in Hs. destruct (coroutines m !! owner c) as [[q | q | s r] |]; [naive_solver | | naive_solver | done].
    destruct Hs as [-> _]. by right.
Qed.

End Matching.

(** Three commands: the second times out before its reply, which is skipped. *)
Definition example_answer (seq : Z) : option Z := Some (10 * seq).
Definition example_run : list event :=
  [Submit 0 (Some 0) true; Submit 1 (Some 1) true; Submit 2 (Some 2) true; Expire 1; TimeoutHandler; Resume 1; Reply; Reply; Reply; Resume 0; Resume 2].

Lemma redis_replies_match_witness : exists m, exec_all example_answer example_run make_mux = Some (Returns m) /\
  pending_ m = [] /\ slab_ m = ∅ /\ coroutines m !! 1%nat = Some (Returned (Some 1) (Err Timeout)) /\ coroutines m !! 2%nat = Some (Returned (Some 2) (Ok 20)).
Proof.
  destruct (exec_all example_answer example_run make_mux) as [o |] eqn:E; [| by vm_compute in E].
  destruct (redis_replies_match example_answer example_run o) as (m & -> & _); [| exact E |].
  - apply promptsb_sound. by vm_compute.
  - exists m. vm_compute in E. injection E as <-. by vm_compute.
Defined.

(** Without that proviso the raw address that the timeout handler holds outlives the
    slot. The timer of a command expires, its handler is queued; the reply arrives and
    the coroutine resumes, cancelling a timer that has already expired and destroying
    the slot; then the handler runs. *)
Lemma timeout_after_reply_use_after_free :
  exec_all example_answer [Submit 0 (Some 0) true; Expire 0; Reply; Resume 0; TimeoutHandler] make_mux = Some (Throws undefined_behaviour).
Proof. by vm_compute. Qed.

(** The same handler, when the slot has been given to the next command meanwhile: the
    new command is reported as timed out at once. *)
Lemma stale_timeout_hits_next_command : exists m,
  exec_all example_answer [Submit 0 (Some 0) true; Expire 0; Reply; Resume 0; Submit 1 (Some 0) true; TimeoutHandler; Resume 1] make_mux = Some (Returns m) /\
  coroutines m !! 1%nat = Some (Returned (Some 1) (Err Timeout)).
Proof. eexists. by vm_compute. Qed.

(** The handler runs after the reply is stored and before the coroutine resumes: the
    caller is told of a timeout, and the slot is left in the slab, in no list, for good. *)
Lemma late_timeout_leaks_slot : exists m,
  exec_all example_answer [Submit 0 (Some 0) true; Expire 0; Reply; TimeoutHandler; Resume 0] make_mux = Some (Returns m) /\
  pending_ m = [] /\ in_flight m = [] /\ is_Some (slab_ m !! 0) /\ coroutines m !! 0%nat = Some (Returned (Some 0) (Err Timeout)).
Proof. eexists. vm_compute. eauto 10. Qed.

(** The reply of a timed out command destroys the slot before its coroutine resumes. *)
Lemma late_reply_use_after_free :
  exec_all example_answer [Submit 0 (Some 0) true; Expire 0; TimeoutHandler; Reply; Resume 0] make_mux = Some (Throws undefined_behaviour).
Proof. by vm_compute. Qed.

(** The timer expires after the reply, before the coroutine resumes. *)
Lemma expiry_after_reply_use_after_free :
  exec_all example_answer [Submit 0 (Some 0) true; Reply; Expire 0; Resume 0; TimeoutHandler] make_mux = Some (Throws undefined_behaviour).
Proof. by vm_compute. Qed.

(** The server closes the connection: the command in flight ends with an adapter
    error, the multiplexer still counts as connected, and the next command, or the
    shutdown, uses the context that hiredis has freed. *)
Lemma lost_connection_use_after_free : exists m,
  exec_all example_answer [Submit 0 (Some 0) true; Lost; Resume 0] make_mux = Some (Returns m) /\
  coroutines m !! 0%nat = Some (Returned (Some 0) (Err AdapterError)) /\ connected m = true /\
  exec example_answer (Submit 1 (Some 0) true) m = Some (Throws undefined_behaviour) /\ exec example_answer Close m = Some (Throws undefined_behaviour).
Proof. eexists. split; [vm_compute; reflexivity |]. split_and!; vm_compute; reflexivity. Qed.
