(* ===== verification/RedisAdapter.v ===== *)
(** * Redis connections

    How a [RedisMultiplexer] gets and loses its connection (redis_multiplexer.cpp:
    [connect], [initial_auth], [authenticate], [reconnect_loop], [on_disconnect] and
    [close]), [RedisConnection] (redis_connection.cpp), the [HiredisAsioAdapter]
    (hiredis_asio_adapter.cpp) that lets hiredis wait on an Asio socket, and
    [RedisAdapter] (redis_adapter.cpp). The commands on a connection are the subject of
    [RedisMultiplexer.v]. hiredis is outside of the repository: what it returns and when
    it calls back are arguments of the events. *)

From S2P Require Import Prelude ErrorCode.
#[local] Open Scope Z_scope.

(** ** Reconnecting *)

Module Link.

(** The coroutines of a multiplexer, each at the point where it waits to run: at its
    start, in [authenticate] for the connection object it has a reference to, at the top
    of the loop, or in the wait between two attempts. *)
Inductive coroutine : Type :=
| InitialStart
| InitialAuth (conn : nat) (cancelled : bool)
| LoopTop (backoff : Z)
| LoopAuth (conn : nat) (backoff : Z) (cancelled : bool)
| LoopWait (backoff : Z) (aborted : bool)
| Finished.

(** A [RedisConnection]: [connected_] with its hiredis context, [connected_] though
    hiredis has freed the context, or disconnected. *)
Inductive object : Type := Up | Freed | Off.

(** [objects]: the [RedisConnection] objects that exist. *)
Record Link : Type := mkLink {
  conn_ : option nat;
  objects : gmap nat object;
  next_object : nat;
  reconnect_active_ : bool;
  reconnect_attempts_ : Z;
  coroutines : list coroutine;
  accepting : bool (** whether [spawn_callback_] takes coroutines *)
}.

Section Link.
(** Whether a password is configured, and [reconnect_max_backoff]. *)
Context (password : bool) (max_backoff : Z).

Definition make_link : Link := mkLink None ∅ 0 false 0 [] true.

Definition with_coroutine (i : nat) (c : coroutine) (m : Link) : Link :=
  mkLink (conn_ m) (objects m) (next_object m) (reconnect_active_ m) (reconnect_attempts_ m) (<[i := c]> (coroutines m)) (accepting m).
Definition with_active (b : bool) (m : Link) : Link := mkLink (conn_ m) (objects m) (next_object m) b (reconnect_attempts_ m) (coroutines m) (accepting m).
Definition with_attempts (n : Z) (m : Link) : Link := mkLink (conn_ m) (objects m) (next_object m) (reconnect_active_ m) n (coroutines m) (accepting m).

(** [spawn_callback_]: a coroutine that is refused never runs. *)
Definition spawn (c : coroutine) (m : Link) : Link :=
  if accepting m then mkLink (conn_ m) (objects m) (next_object m) (reconnect_active_ m) (reconnect_attempts_ m) (coroutines m ++ [c]) (accepting m) else m.

(** [conn_.reset()]: the destructor frees the context of an object that is connected,
    a second time if hiredis has. *)
Definition reset_conn (m : Link) : outcome Link :=
  let gone o := Returns (mkLink None o (next_object m) (reconnect_active_ m) (reconnect_attempts_ m) (coroutines m) (accepting m)) in
  match conn_ m with
  | None => gone (objects m)
  | Some c => match objects m !! c with Some Freed => Throws undefined_behaviour | _ => gone (delete c (objects m)) end
  end.

(** [RedisConnection::create], put where there is no connection; and
    [conn_ = RedisConnection::create(...)], which ends the object before. *)
Definition put_conn (created : bool) (m : Link) : Link :=
  if created then mkLink (Some (next_object m)) (<[next_object m := Up]> (objects m)) (S (next_object m)) (reconnect_active_ m) (reconnect_attempts_ m) (coroutines m) (accepting m)
  else m.
Definition create_conn (created : bool) (m : Link) : outcome Link := run m <- reset_conn m; Returns (put_conn created m).

(** [conn.disconnect()] through a reference. *)
Definition disconnect (c : nat) (m : Link) : outcome Link :=
  match objects m !! c with
  | Some Up => Returns (mkLink (conn_ m) (<[c := Off]> (objects m)) (next_object m) (reconnect_active_ m) (reconnect_attempts_ m) (coroutines m) (accepting m))
  | Some Off => Returns m
  | Some Freed | None => Throws undefined_behaviour
  end.

Definition is_connected (m : Link) : bool :=
  match conn_ m with Some c => match objects m !! c with Some (Up | Freed) => true | _ => false end | None => false end.

Definition first_backoff : Z := 100.

(** [connect], called on a multiplexer that has no connection. *)
Definition connect (created : bool) (m : Link) : Link :=
  let m := put_conn created m in
  if is_connected m then if password then spawn InitialStart m else m
  else spawn (LoopTop first_backoff) (with_active true m).

Definition on_disconnect (m : Link) : Link := if reconnect_active_ m then m else spawn (LoopTop first_backoff) (with_active true m).

(** The end of [initial_auth]; [disconnected]: whether [authenticate] got as far as the
    call of [disconnect]. *)
Definition initial_failed (i : nat) (m : Link) : outcome Link := run m <- reset_conn (with_coroutine i Finished m); Returns (on_disconnect m).

(** [initial_auth] up to its wait; [sent]: whether the slab and hiredis took the
    command. *)
Definition run_initial (i : nat) (sent : bool) (m : Link) : outcome Link :=
  match conn_ m with
  | None => Throws undefined_behaviour
  | Some c =>
      match objects m !! c with
      | Some Up => if sent then Returns (with_coroutine i (InitialAuth c false) m) else initial_failed i m
      | _ => Throws undefined_behaviour
      end
  end.

(** One attempt of [reconnect_loop]. *)
Definition run_attempt (i : nat) (backoff : Z) (created sent : bool) (m : Link) : outcome Link :=
  let m := with_attempts (u32 (reconnect_attempts_ m + 1)) m in
  run m <- create_conn created m;
  match conn_ m with
  | Some c =>
      if password then
        if sent then Returns (with_coroutine i (LoopAuth c backoff false) m) else run m <- reset_conn m; Returns (with_coroutine i (LoopWait backoff false) m)
      else Returns (with_active false (with_coroutine i Finished (with_attempts 0 m)))
  | None => Returns (with_coroutine i (LoopWait backoff false) m)
  end.

(** [authenticate] after its wait, and what its caller does next. *)
Definition run_auth (i : nat) (c : nat) (backoff : option Z) (ok : bool) (m : Link) : outcome Link :=
  if ok then Returns (match backoff with None => with_coroutine i Finished m | Some _ => with_active false (with_coroutine i Finished (with_attempts 0 m)) end)
  else
    run m <- disconnect c m;
    match backoff with None => initial_failed i m | Some b => run m <- reset_conn m; Returns (with_coroutine i (LoopWait b false) m) end.

(** The loop after its wait. *)
Definition run_timer (i : nat) (backoff : Z) (aborted : bool) (m : Link) : Link :=
  if aborted then with_active false (with_coroutine i Finished m) else with_coroutine i (LoopTop (Z.min (backoff * 2) max_backoff)) m.

(** [backoff_timer_.cancel()] and [cancel_all_pending]. *)
Definition cancel (c : coroutine) : coroutine :=
  match c with InitialAuth o _ => InitialAuth o true | LoopAuth o b _ => LoopAuth o b true | LoopWait b _ => LoopWait b true | c => c end.
Definition close (m : Link) : outcome Link :=
  let m := mkLink (conn_ m) (objects m) (next_object m) (reconnect_active_ m) (reconnect_attempts_ m) (cancel <$> coroutines m) (accepting m) in
  match conn_ m with Some c => run m <- disconnect c m; reset_conn m | None => Returns m end.

(** The server closes the connection: hiredis fails the commands in flight and frees its
    context; nobody has asked it to tell of that. *)
Definition fail_auth (c : coroutine) : coroutine := match c with InitialAuth o _ => InitialAuth o true | LoopAuth o b _ => LoopAuth o b true | c => c end.
Definition lose (m : Link) : option Link :=
  match conn_ m with
  | Some c =>
      match objects m !! c with
      | Some Up => Some (mkLink (conn_ m) (<[c := Freed]> (objects m)) (next_object m) (reconnect_active_ m) (reconnect_attempts_ m) (fail_auth <$> coroutines m) (accepting m))
      | _ => None
      end
  | None => None
  end.

(** ** The event loop *)

Inductive event : Type :=
| RunInitial (i : nat) (sent : bool)
| RunAttempt (i : nat) (created sent : bool)
| RunAuth (i : nat) (ok : bool)
| RunTimer (i : nat)
| Close
| Drain
| Lost.

Definition exec (e : event) (m : Link) : option (outcome Link) :=
  match e with
  | RunInitial i sent => match coroutines m !! i with Some InitialStart => Some (run_initial i sent m) | _ => None end
  | RunAttempt i created sent => match coroutines m !! i with Some (LoopTop b) => Some (run_attempt i b created sent m) | _ => None end
  | RunAuth i ok =>
      match coroutines m !! i with
      | Some (InitialAuth c cancelled) => if cancelled && ok then None else Some (run_auth i c None ok m)
      | Some (LoopAuth c b cancelled) => if cancelled && ok then None else Some (run_auth i c (Some b) ok m)
      | _ => None
      end
  | RunTimer i => match coroutines m !! i with Some (LoopWait b aborted) => Some (Returns (run_timer i b aborted m)) | _ => None end
  | Close => Some (close m)
  | Lost => Returns <$> lose m
  | Drain => Some (Returns (mkLink (conn_ m) (objects m) (next_object m) (reconnect_active_ m) (reconnect_attempts_ m) (coroutines m) false))
  end.
Fixpoint exec_all (es : list event) (m : Link) : option (outcome Link) :=
  match es with
  | [] => Some (Returns m)
  | e :: es => match exec e m with Some (Returns m) => exec_all es m | Some (Throws x) => Some (Throws x) | None => None end
  end.

End Link.
Arguments reset_conn : simpl never.

(** ** The adapter *)

(** [RedisAdapter::do_init] of [num_cores] cores: what [RedisConnection::create] gives to
    each. *)
Definition do_init (host : list Z) (port : Z) (password : bool) (created : list bool) : outcome (list Link) :=
  match host with
  | [] => Throws runtime_error
  | _ => if port =? 0 then Throws runtime_error else Returns ((λ ok, connect password ok make_link) <$> created)
  end.
Definition active_connections (per_core : list Link) : Z := len (filter (λ m, is_connected m = true) per_core).

(** Replies. *)
Inductive redisReply : Type := ReplyString (s : list Z) | ReplyStatus (s : list Z) | ReplyInteger (n : Z) | ReplyNil | ReplyError (s : list Z) | ReplyArray (l : list redisReply).
Definition parse_string_reply (reply : option redisReply) : option (list Z) :=
  match reply with Some (ReplyString s) | Some (ReplyStatus s) => Some s | _ => None end.
Definition parse_integer_reply (reply : option redisReply) : Result Z := match reply with Some (ReplyInteger n) => Ok n | _ => Err AdapterError end.
Definition is_error_reply (reply : option redisReply) : bool := match reply with Some (ReplyError _) => true | _ => false end.
Definition get_error_message (reply : option redisReply) : list Z := match reply with Some (ReplyError s) => s | _ => [] end.

End Link.

(** ** Waiting for hiredis *)

Module HiredisAsio.

Inductive direction : Type := ReadDir | WriteDir.

(** [ac_freed]: hiredis has freed its context; [waits]: the waits on the socket;
    [queued]: handlers of waits that are over, with whether they were cancelled; [calls]:
    the calls of [redisAsyncHandleRead] and [redisAsyncHandleWrite]. *)
Record Adapter : Type := mkAdapter {
  read_requested_ : bool;
  write_requested_ : bool;
  cleaned_up_ : bool;
  ac_freed : bool;
  destroyed : bool;
  connected_ : bool;
  waits : list direction;
  queued : list (direction * bool);
  calls : list direction
}.

(** [RedisConnection::create], once [redisAsyncConnect] has succeeded. *)
Definition make_adapter : Adapter := mkAdapter false false false false false true [] [] [].

Definition with_requests (r w : bool) (a : Adapter) : Adapter :=
  mkAdapter r w (cleaned_up_ a) (ac_freed a) (destroyed a) (connected_ a) (waits a) (queued a) (calls a).
Definition with_waits (ws : list direction) (q : list (direction * bool)) (a : Adapter) : Adapter :=
  mkAdapter (read_requested_ a) (write_requested_ a) (cleaned_up_ a) (ac_freed a) (destroyed a) (connected_ a) ws q (calls a).
Definition with_call (d : direction) (a : Adapter) : Adapter :=
  mkAdapter (read_requested_ a) (write_requested_ a) (cleaned_up_ a) (ac_freed a) (destroyed a) (connected_ a) (waits a) (queued a) (calls a ++ [d]).

Definition requested (d : direction) (a : Adapter) : bool := match d with ReadDir => read_requested_ a | WriteDir => write_requested_ a end.

(** [handle_read] and [handle_write]. *)
Definition handle (d : direction) (a : Adapter) : Adapter :=
  if negb (requested d a) || cleaned_up_ a then a else with_waits (waits a ++ [d]) (queued a) a.

Definition on_add_read (a : Adapter) : Adapter :=
  if cleaned_up_ a then a else if read_requested_ a then a else handle ReadDir (with_requests true (write_requested_ a) a).
Definition on_add_write (a : Adapter) : Adapter :=
  if cleaned_up_ a then a else if write_requested_ a then a else handle WriteDir (with_requests (read_requested_ a) true a).
Definition on_del_read (a : Adapter) : Adapter := with_requests false (write_requested_ a) a.
Definition on_del_write (a : Adapter) : Adapter := with_requests (read_requested_ a) false a.

(** [on_cleanup]: hiredis calls it when it frees the context; the waits are cancelled. *)
Definition on_cleanup (a : Adapter) : Adapter :=
  mkAdapter (read_requested_ a) (write_requested_ a) true true (destroyed a) (connected_ a) [] (queued a ++ ((λ d, (d, true)) <$> waits a)) (calls a).

(** [RedisConnection::disconnect]: freeing a context twice is undefined behaviour. *)
Definition connection_disconnect (a : Adapter) : outcome Adapter :=
  if connected_ a then
    if ac_freed a then Throws undefined_behaviour
    else
      let a := on_cleanup a in
      Returns (mkAdapter (read_requested_ a) (write_requested_ a) (cleaned_up_ a) (ac_freed a) true false (waits a) (queued a) (calls a))
  else Returns a.

(** The calls that hiredis makes on the adapter are arguments: of a command given to the
    context, and of [redisAsyncHandleRead] and [redisAsyncHandleWrite]. *)
Inductive ev_call : Type := AddRead | DelRead | AddWrite | DelWrite | Cleanup.
Definition ev (c : ev_call) (a : Adapter) : Adapter :=
  match c with AddRead => on_add_read a | DelRead => on_del_read a | AddWrite => on_add_write a | DelWrite => on_del_write a | Cleanup => on_cleanup a end.
Definition evs (cs : list ev_call) (a : Adapter) : Adapter := fold_left (λ a c, ev c a) cs a.

Definition async_command (cs : list ev_call) (a : Adapter) : outcome Adapter :=
  if negb (connected_ a) then Returns a else if ac_freed a then Throws undefined_behaviour else Returns (evs cs a).

(** The handler of a wait. *)
Definition run_handler (d : direction) (aborted : bool) (cs : list ev_call) (a : Adapter) : outcome Adapter :=
  if aborted then Returns a
  else if destroyed a then Throws undefined_behaviour
  else if requested d a && negb (cleaned_up_ a) then
    let a := evs cs (with_call d a) in
    Returns (match d with ReadDir => handle ReadDir a | WriteDir => a end)
  else Returns a.

Inductive event : Type :=
| Command (cs : list ev_call)
| Ready (i : nat)
| Handler (cs : list ev_call)
| Disconnect.

Definition exec (e : event) (a : Adapter) : option (outcome Adapter) :=
  match e with
  | Command cs => Some (async_command cs a)
  | Ready i => match waits a !! i with Some d => Some (Returns (with_waits (take i (waits a) ++ drop (S i) (waits a)) (queued a ++ [(d, false)]) a)) | None => None end
  | Handler cs => match queued a with (d, aborted) :: rest => Some (run_handler d aborted cs (with_waits (waits a) rest a)) | [] => None end
  | Disconnect => Some (connection_disconnect a)
  end.
Fixpoint exec_all (es : list event) (a : Adapter) : option (outcome Adapter) :=
  match es with
  | [] => Some (Returns a)
  | e :: es => match exec e a with Some (Returns a) => exec_all es a | Some (Throws x) => Some (Throws x) | None => None end
  end.

End HiredisAsio.

(** ** The life of a connection *)

Section LinkLife.
Import Link.
Context (password : bool) (max_backoff : Z).
Abbreviation EXEC := (exec password max_backoff).
Abbreviation EXEC_ALL := (exec_all password max_backoff).

(** The wait after [k] attempts in a row have failed. *)
Definition backoff_after (k : nat) : Z := match k with O => 100 | S _ => Z.min (100 * 2 ^ Z.of_nat k) max_backoff end.

Lemma backoff_after_step k : 0 <= max_backoff -> Z.min (backoff_after k * 2) max_backoff = backoff_after (S k).
Proof.
  intros Hm. unfold backoff_after. destruct k as [| k]; [done |]. rewrite !Nat2Z.inj_succ, !Z.pow_succ_r by lia.
  assert (0 < 2 ^ Z.of_nat k) by (apply Z.pow_pos_nonneg; lia). lia.
Qed.

(** What goes with the place where the one coroutine is that is not over. *)
Definition place_ok (m : Link) (c : coroutine) : Prop :=
  match c with
  | InitialStart => password = true /\ reconnect_active_ m = false /\ is_connected m = true
  | InitialAuth o cancelled => conn_ m = Some o /\ cancelled = false /\ password = true /\ reconnect_active_ m = false /\ is_connected m = true
  | LoopTop b => conn_ m = None /\ reconnect_active_ m = true /\ exists k, reconnect_attempts_ m = u32 (Z.of_nat k) /\ b = backoff_after k
  | LoopAuth o b cancelled => conn_ m = Some o /\ cancelled = false /\ reconnect_active_ m = true /\ is_connected m = true /\ exists k, reconnect_attempts_ m = u32 (Z.of_nat (S k)) /\ b = backoff_after k
  | LoopWait b aborted => conn_ m = None /\ aborted = false /\ reconnect_active_ m = true /\ exists k, reconnect_attempts_ m = u32 (Z.of_nat (S k)) /\ b = backoff_after k
  | Finished => False
  end.
Definition only (i : nat) (l : list coroutine) : Prop := forall j c, l !! j = Some c -> j <> i -> c = Finished.

Definition objects_ok (m : Link) : Prop := objects m = match conn_ m with Some c => {[c := Up]} | None => ∅ end.
Definition resting (m : Link) : Prop := Forall (eq Finished) (coroutines m) /\ reconnect_active_ m = false /\ reconnect_attempts_ m = 0 /\ is_connected m = true.
Definition link_inv (m : Link) : Prop :=
  accepting m = true /\ objects_ok m /\ (resting m \/ exists i c, coroutines m !! i = Some c /\ only i (coroutines m) /\ place_ok m c /\ (reconnect_active_ m = false -> reconnect_attempts_ m = 0)).

Lemma only_insert i c l : only i l -> only i (<[i := c]> l).
Proof. intros H j d Hj Hne. rewrite list_lookup_insert_ne in Hj by done. by apply (H j). Qed.

Lemma only_finished i l : (i < length l)%nat -> only i l -> Forall (eq Finished) (<[i := Finished]> l).
Proof.
  intros Hi H. apply Forall_lookup_2. intros j c Hj. destruct (decide (j = i)) as [-> | Hne]; [by rewrite list_lookup_insert_eq in Hj; [injection Hj |] |].
  rewrite list_lookup_insert_ne in Hj by done. symmetry. by apply (H j).
Qed.

Lemma only_snoc i l : (i < length l)%nat -> only i l -> only (length l) (<[i := Finished]> l ++ [LoopTop first_backoff]).
Proof.
  intros Hi H j c Hj Hne. apply lookup_app_Some in Hj as [Hj | [Hge Hj]].
  - pose proof (only_finished i l Hi H) as Hf. symmetry. by eapply (Forall_lookup_1 (eq Finished)).
  - rewrite length_insert in *. destruct (j - length l)%nat eqn:E; [lia |]. by rewrite lookup_cons in Hj.
Qed.

Lemma connect_inv created : link_inv (connect password created make_link).
Proof.
  unfold connect, put_conn, is_connected. destruct created; cbn.
  - destruct password eqn:Ep; (split_and!; [done | done |]).
    + right. exists 0%nat, InitialStart. split_and!; [done | intros [| j] c Hj Hne; [done | by destruct j] | by split_and! | done].
    + left. split_and!; [constructor | done | done | done].
  - split_and!; [done | done |]. right. exists 0%nat, (LoopTop first_backoff). split_and!; [done | intros [| j] c Hj Hne; [done | by destruct j] | | done].
    cbn. split_and!; [done | done |]. by exists 0%nat.
Qed.

(** The moves of the loop. *)
Lemma loop_moves i c m conn o n a : (i < length (coroutines m))%nat -> only i (coroutines m) -> accepting m = true ->
  objects_ok (mkLink conn o n true a (<[i := c]> (coroutines m)) (accepting m)) -> place_ok (mkLink conn o n true a (<[i := c]> (coroutines m)) (accepting m)) c ->
  link_inv (mkLink conn o n true a (<[i := c]> (coroutines m)) (accepting m)).
Proof.
  intros Hi Ho Ha Hobj Hp. split_and!; [done | done |]. right. exists i, c. split_and!; [by apply list_lookup_insert_eq | by apply only_insert | done | done].
Qed.
Lemma loop_done i m n k : (i < length (coroutines m))%nat -> only i (coroutines m) -> accepting m = true ->
  link_inv (mkLink (Some k) {[k := Up]} n false 0 (<[i := Finished]> (coroutines m)) (accepting m)).
Proof.
  intros Hi Ho Ha. split_and!; [done | done |]. left. split_and!; [by apply only_finished | done | done |]. unfold is_connected. cbn. by rewrite lookup_singleton_eq.
Qed.

Lemma busy_one m i c : link_inv m -> coroutines m !! i = Some c -> c <> Finished ->
  (i < length (coroutines m))%nat /\ only i (coroutines m) /\ place_ok m c /\ (reconnect_active_ m = false -> reconnect_attempts_ m = 0).
Proof.
  intros (_ & _ & [(Hf & _) | (i' & c' & Hi' & Ho & Hp & H0)]) Hi Hc.
  - exfalso. apply Hc. symmetry. by eapply (Forall_lookup_1 (eq Finished)).
  - destruct (decide (i = i')) as [-> | Hne]; [| exfalso; apply Hc; by apply (Ho i)]. rewrite Hi in Hi'. injection Hi' as <-. split_and!; try done. by eapply lookup_lt_Some.
Qed.

(** The one connection ends. *)
Lemma reset_one m c b : conn_ m = Some c -> objects m = {[c := b]} -> b <> Freed ->
  reset_conn m = Returns (mkLink None ∅ (next_object m) (reconnect_active_ m) (reconnect_attempts_ m) (coroutines m) (accepting m)).
Proof. intros Hc Ho Hb. unfold reset_conn. rewrite Hc, Ho, lookup_singleton_eq, delete_singleton_eq. by destruct b. Qed.
Lemma reset_none m : conn_ m = None -> reset_conn m = Returns m.
Proof. intros Hc. unfold reset_conn. rewrite Hc. destruct m. cbn in *. by subst. Qed.

Lemma initial_failed_inv i m c b : accepting m = true -> (i < length (coroutines m))%nat -> only i (coroutines m) -> reconnect_active_ m = false -> reconnect_attempts_ m = 0 ->
  conn_ m = Some c -> objects m = {[c := b]} -> b <> Freed -> exists m', initial_failed i m = Returns m' /\ link_inv m'.
Proof.
  intros Ha Hi Ho Hact Hatt Hc Hb Hnf. unfold initial_failed. rewrite (reset_one _ c b) by done. cbn [outcome_bind]. eexists. split; [reflexivity |].
  unfold on_disconnect, spawn, with_active. cbn. rewrite Hact, Ha. cbn. split_and!; [done | done |].
  right. exists (length (coroutines m)), (LoopTop first_backoff). split_and!; [| by apply only_snoc | | done].
  - cbn. rewrite lookup_app_r by (by rewrite length_insert). by rewrite length_insert, Nat.sub_diag.
  - cbn. split_and!; [done | done |]. by exists 0%nat.
Qed.

Lemma attempt_inv i b created sent m : link_inv m -> coroutines m !! i = Some (LoopTop b) -> exists m', run_attempt password i b created sent m = Returns m' /\ link_inv m'.
Proof.
  intros Hinv Ei. destruct (busy_one m i _ Hinv Ei) as (Hi & Ho & (Hcn & Hact & k & Hk & ->) & H0); [done |]. destruct Hinv as (Ha & Hobj & _). unfold objects_ok in Hobj. rewrite Hcn in Hobj.
  unfold run_attempt, create_conn. rewrite reset_none by done. cbn [outcome_bind].
  assert (u32 (reconnect_attempts_ m + 1) = u32 (Z.of_nat (S k))) as -> by (rewrite Hk, wrap_add_l; f_equal; lia).
  unfold put_conn, with_attempts. cbn. rewrite Hcn, Hobj, insert_empty. destruct created; cbn.
  - destruct password eqn:Epw; [destruct sent |].
    + eexists. split; [done |]. unfold with_coroutine. cbn. rewrite Hact. apply loop_moves; try done. cbn. unfold is_connected. cbn. rewrite lookup_singleton_eq. split_and!; try done. by exists k.
    + rewrite (reset_one _ (next_object m) Up) by done. cbn [outcome_bind]. eexists. split; [done |]. unfold with_coroutine. cbn. rewrite Hact. apply loop_moves; try done. cbn. split_and!; try done. by exists k.
    + eexists. split; [done |]. unfold with_active, with_coroutine. cbn. by apply loop_done.
  - eexists. split; [done |]. unfold with_coroutine. cbn. rewrite Hact. apply loop_moves; try done. cbn. split_and!; try done. by exists k.
Qed.

Lemma link_step e m o : 0 <= max_backoff -> link_inv m -> e <> Close -> e <> Drain -> e <> Lost -> EXEC e m = Some o -> exists m', o = Returns m' /\ link_inv m'.
Proof.
  intros Hm Hinv Hnc Hnd Hnl E. assert (accepting m = true /\ objects_ok m) as [Ha Hobj] by (by destruct Hinv as (? & ? & _)). unfold objects_ok in Hobj.
  destruct e as [i sent | i created sent | i ok | i | | |]; [..| done | done | done]; cbn in E; destruct (coroutines m !! i) as [c |] eqn:Ei; try done; destruct c as [| o' f | b | o' b f | b f |]; try done;
    destruct (busy_one m i _ Hinv Ei) as (Hi & Ho & Hp & H0); try done; cbn in Hp.
  - (* initial_auth starts *) destruct Hp as (Hpw & Hact & Hcon). unfold run_initial in E. unfold is_connected in Hcon. destruct (conn_ m) as [c |] eqn:Ec; [| done].
    rewrite Hobj, lookup_singleton_eq in E. destruct sent; injection E as <-; [eexists; split; [done |] | by eapply (initial_failed_inv i m c Up); auto].
    split_and!; [done | by unfold objects_ok; cbn; rewrite Ec |]. right. exists i, (InitialAuth c false). split_and!; [by apply list_lookup_insert_eq | by apply only_insert | | done].
    cbn. split_and!; try done. unfold is_connected. cbn. by rewrite Ec, Hobj, lookup_singleton_eq.
  - (* an attempt *) injection E as <-. by apply attempt_inv.
  - (* the first AUTH ends *) destruct Hp as (Hcn & -> & Hpw & Hact & Hcon). cbn in E. rewrite Hcn in Hobj. unfold run_auth in E. destruct ok; injection E as <-.
    + eexists. split; [done |]. split_and!; [done | by unfold objects_ok; cbn; rewrite Hcn |]. left. split_and!; cbn; [by apply only_finished | done | by apply H0 |]. by unfold is_connected in *.
    + unfold disconnect. rewrite Hobj, lookup_singleton_eq. cbn [outcome_bind]. apply (initial_failed_inv i _ o' Off); cbn; auto. by rewrite insert_singleton_eq.
  - (* an AUTH of the loop ends *) destruct Hp as (Hcn & -> & Hact & Hcon & k & Hk & ->). cbn in E. rewrite Hcn in Hobj. unfold run_auth in E. destruct ok; injection E as <-.
    + eexists. split; [done |]. unfold with_active, with_coroutine, with_attempts. cbn. rewrite Hcn, Hobj. by apply loop_done.
    + unfold disconnect. rewrite Hobj, lookup_singleton_eq. cbn [outcome_bind]. rewrite (reset_one _ o' Off) by (try done; cbn; by rewrite insert_singleton_eq). cbn [outcome_bind].
      eexists. split; [done |]. unfold with_coroutine. cbn. rewrite Hact. apply loop_moves; try done. cbn. split_and!; try done. by exists k.
  - (* the wait ends *) destruct Hp as (Hcn & -> & Hact & k & Hk & ->). injection E as <-. eexists. split; [done |]. unfold run_timer, with_coroutine. rewrite Hact, Hcn, Hobj, Hcn.
    apply loop_moves; try done. cbn. split_and!; try done. exists (S k). split; [done |]. by apply backoff_after_step.
Qed.

(** Events that keep the link, and the way to a connection. *)
Definition keeps (e : event) : bool := match e with Close | Drain | Lost => false | _ => true end.

Lemma link_steps es m o : 0 <= max_backoff -> link_inv m -> forallb keeps es = true -> EXEC_ALL es m = Some o -> exists m', o = Returns m' /\ link_inv m'.
Proof.
  intros Hm. revert m. induction es as [| e es IH]; intros m Hinv Hk E; [injection E as <-; by exists m |]. apply andb_true_iff in Hk as [He Hes]. cbn [exec_all] in E.
  destruct (EXEC e m) as [o1 |] eqn:E1; [| done]. destruct (link_step e m o1 Hm Hinv) as (m1 & -> & H1); [by intros -> | by intros -> | by intros -> | done |]. by apply (IH m1).
Qed.

Lemma rest_of m i : link_inv m -> coroutines m !! i = Some Finished -> only i (coroutines m) -> resting m.
Proof.
  intros (_ & _ & [Hr | (j & c & Hj & _ & Hp & _)]) Hi Ho; [done |]. exfalso. destruct (decide (j = i)) as [-> | Hne]; [rewrite Hi in Hj; by injection Hj as <- |].
  by rewrite (Ho j c Hj Hne) in Hp.
Qed.

(** One event that ends the coroutine [i]. *)
Lemma ends_resting e m i m' : 0 <= max_backoff -> link_inv m -> keeps e = true -> EXEC e m = Some (Returns m') -> (i < length (coroutines m))%nat -> only i (coroutines m) ->
  coroutines m' = <[i := Finished]> (coroutines m) -> resting m'.
Proof.
  intros Hm Hinv Hk E Hi Ho Hc. destruct (link_step e m (Returns m') Hm Hinv ltac:(by intros ->) ltac:(by intros ->) ltac:(by intros ->) E) as (m1 & [= <-] & H1).
  apply (rest_of m' i); [done | rewrite Hc; by apply list_lookup_insert_eq | rewrite Hc; by apply only_insert].
Qed.

(** The ways to a connection from each place. *)
Lemma auth_recovers m i : 0 <= max_backoff -> link_inv m -> (exists o f, coroutines m !! i = Some (InitialAuth o f)) \/ (exists o b f, coroutines m !! i = Some (LoopAuth o b f)) ->
  exists m', EXEC_ALL [RunAuth i true] m = Some (Returns m') /\ resting m'.
Proof.
  intros Hm Hinv Hc. assert (exists m', EXEC (RunAuth i true) m = Some (Returns m') /\ coroutines m' = <[i := Finished]> (coroutines m) /\ (i < length (coroutines m))%nat /\ only i (coroutines m))
    as (m' & E & Hc' & Hi & Ho).
  { destruct Hc as [(o & f & Hc) | (o & b & f & Hc)]; destruct (busy_one m i _ Hinv Hc) as (Hi & Ho & Hp & _); try done; cbn in Hp; cbn; rewrite Hc;
      assert (f = false) as -> by tauto; cbn; (eexists; split_and!; [done | done | done | done]). }
  exists m'. split; [cbn [exec_all]; by rewrite E |]. by apply (ends_resting (RunAuth i true) m i m').
Qed.

Lemma attempt_recovers m i b : 0 <= max_backoff -> link_inv m -> coroutines m !! i = Some (LoopTop b) ->
  exists es m', (length es <= 2)%nat /\ forallb keeps es = true /\ EXEC_ALL es m = Some (Returns m') /\ resting m'.
Proof.
  intros Hm Hinv Hc. destruct (busy_one m i _ Hinv Hc) as (Hi & Ho & (Hcn & _) & _); [done |].
  destruct (attempt_inv i b true true m Hinv Hc) as (m1 & E1 & H1). assert (EXEC (RunAttempt i true true) m = Some (Returns m1)) as E by (cbn; by rewrite Hc, E1).
  unfold run_attempt, create_conn in E1. rewrite reset_none in E1 by done. cbn in E1. assert (password = true \/ password = false) as [Epw | Epw] by (destruct password; auto); rewrite Epw in E1; injection E1 as E1.
  - destruct (auth_recovers m1 i Hm H1) as (m' & E' & Hr).
    { right. exists (next_object m), b, false. rewrite <- E1. by apply list_lookup_insert_eq. }
    exists [RunAttempt i true true; RunAuth i true], m'. split_and!; [done | done | | done]. cbn [exec_all] in *. rewrite E. exact E'.
  - exists [RunAttempt i true true], m1. split_and!; [cbn; lia | done | cbn [exec_all]; by rewrite E |]. apply (ends_resting (RunAttempt i true true) m i m1 Hm Hinv eq_refl E Hi Ho). by rewrite <- E1.
Qed.

Lemma link_recovers m : 0 <= max_backoff -> link_inv m -> exists es m', (length es <= 3)%nat /\ forallb keeps es = true /\ EXEC_ALL es m = Some (Returns m') /\ resting m'.
Proof.
  intros Hm Hinv. pose proof Hinv as (Ha & Hobj & [Hr | (i & c & Hi & Ho & Hp & H0)]); [exists [], m; cbn; split_and!; try done; lia |]. pose proof (lookup_lt_Some _ _ _ Hi) as Hlt.
  assert (forall e m1 es m', keeps e = true -> EXEC e m = Some (Returns m1) -> (length es <= 2)%nat -> forallb keeps es = true -> EXEC_ALL es m1 = Some (Returns m') -> resting m' ->
    exists es m', (length es <= 3)%nat /\ forallb keeps es = true /\ EXEC_ALL es m = Some (Returns m') /\ resting m') as Hcons.
  { intros e m1 es m' Hk E Hl Hes E' Hr. exists (e :: es), m'. cbn [length forallb exec_all]. rewrite Hk, Hes, E. split_and!; [lia | done | done | done]. }
  destruct c as [| o f | b | o b f | b f |]; cbn in Hp.
  - destruct Hp as (Hpw & _ & Hcon). unfold is_connected in Hcon. destruct (conn_ m) as [o |] eqn:Ec; [| done].
    assert (EXEC (RunInitial i true) m = Some (Returns (with_coroutine i (InitialAuth o false) m))) as E.
    { cbn. rewrite Hi. unfold run_initial. unfold objects_ok in Hobj. by rewrite Ec, Hobj, Ec, lookup_singleton_eq. }
    destruct (link_step (RunInitial i true) m _ Hm Hinv ltac:(done) ltac:(done) ltac:(done) E) as (? & [= <-] & H1).
    destruct (auth_recovers _ i Hm H1) as (m' & E' & Hr); [left; exists o, false; by apply list_lookup_insert_eq |]. apply (Hcons (RunInitial i true) _ [RunAuth i true] m' eq_refl E); [cbn; lia | done | exact E' | done].
  - destruct (auth_recovers m i Hm Hinv) as (m' & E' & Hr); [left; by exists o, f |]. exists [RunAuth i true], m'. split_and!; [cbn; lia | done | done | done].
  - destruct (attempt_recovers m i b Hm Hinv Hi) as (es & m' & Hl & Hk & E & Hr). exists es, m'. split_and!; [lia | done | done | done].
  - destruct (auth_recovers m i Hm Hinv) as (m' & E' & Hr); [right; by exists o, b, f |]. exists [RunAuth i true], m'. split_and!; [cbn; lia | done | done | done].
  - destruct Hp as (_ & -> & _). assert (EXEC (RunTimer i) m = Some (Returns (run_timer max_backoff i b false m))) as E by (cbn; by rewrite Hi).
    destruct (link_step (RunTimer i) m _ Hm Hinv ltac:(done) ltac:(done) ltac:(done) E) as (? & [= <-] & H1).
    destruct (attempt_recovers _ i (Z.min (b * 2) max_backoff) Hm H1) as (es & m' & Hl & Hk & E' & Hr); [by apply list_lookup_insert_eq |]. by eapply (Hcons (RunTimer i) _ es).
  - done.
Qed.

(** When the server closes the connection of a multiplexer that rests, nothing reconnects
    it: it counts as connected, none of its coroutines runs, and closing it frees the
    context a second time. *)
Lemma lost_for_good m : objects_ok m -> resting m ->
  exists m', EXEC Lost m = Some (Returns m') /\ is_connected m' = true /\ EXEC Close m' = Some (Throws undefined_behaviour) /\
    forall e, e <> Close -> e <> Drain -> EXEC e m' = None.
Proof.
  intros Hobj (Hf & _ & _ & Hcon). unfold is_connected in Hcon. unfold objects_ok in Hobj. destruct (conn_ m) as [c |] eqn:Ec; [| done].
  cbn. unfold lose. rewrite Ec, Hobj, lookup_singleton_eq. cbn. eexists. split; [done |]. unfold is_connected, close, disconnect, lose. cbn. rewrite insert_singleton_eq, !lookup_singleton_eq.
  split_and!; [done | done |].
  assert (forall i c', (fail_auth <$> coroutines m) !! i = Some c' -> c' = Finished) as Hall.
  { intros i c'. rewrite list_lookup_fmap. destruct (coroutines m !! i) as [d |] eqn:Ei; [| done]. rewrite <- (Forall_lookup_1 (eq Finished) _ _ _ Hf Ei). by intros [= <-]. }
  intros [i sent | i created sent | i ok | i | | |] Hc Hd; try done; cbn; try (rewrite insert_singleton_eq, lookup_singleton_eq; done).
  all: destruct ((fail_auth <$> coroutines m) !! i) as [d |] eqn:Ei; [| done]; by rewrite (Hall i d Ei).
Qed.

End LinkLife.

(** After [do_init] the connections that hiredis made are there, and the others are being
    tried again. *)
Lemma do_init_connects host port password created : host <> [] -> port <> 0 ->
  exists links, Link.do_init host port password created = Returns links /\ Link.active_connections links = len (filter (λ ok, ok = true) created) /\
    Forall2 (λ ok m, ok = false -> Link.reconnect_active_ m = true) created links.
Proof.
  intros Hh Hp. exists ((λ ok, Link.connect password ok Link.make_link) <$> created). split_and!.
  - unfold Link.do_init. destruct host; [done |]. by destruct (Z.eqb_spec port 0).
  - unfold Link.active_connections. induction created as [| ok l IH]; [done |]. rewrite fmap_cons.
    assert (Link.is_connected (Link.connect password ok Link.make_link) = ok) as H by (by destruct ok, password).
    destruct ok; [rewrite !filter_cons_True by done | rewrite !filter_cons_False by (by rewrite ?H)]; [| done]. unfold len in *. cbn [length]. lia.
  - apply Forall2_fmap_r, Forall_Forall2_diag, Forall_true. by intros [].
Qed.

(** ** The socket is watched *)

Section SocketWatched.
Import HiredisAsio.

#[local] Instance ev_call_eq_dec : EqDecision ev_call.
Proof. solve_decision. Defined.

Definition b2n (b : bool) : nat := if b then 1%nat else 0%nat.
Definition same (d d' : direction) : bool := match d, d' with ReadDir, ReadDir | WriteDir, WriteDir => true | _, _ => false end.
Fixpoint count (d : direction) (l : list direction) : nat := match l with [] => 0%nat | x :: l => (b2n (same d x) + count d l)%nat end.
Lemma count_app d l k : count d (l ++ k) = (count d l + count d k)%nat.
Proof. induction l as [| x l IH]; cbn; lia. Qed.

(** The waits of a direction, and those that are over and whose handler is still to run. *)
Definition fresh (q : list (direction * bool)) : list direction := omap (λ x : direction * bool, if x.2 then None else Some x.1) q.
Definition watchers (d : direction) (a : Adapter) : nat := (count d (waits a) + count d (fresh (queued a)))%nat.

Lemma fresh_app q r : fresh (q ++ r) = fresh q ++ fresh r.
Proof. apply omap_app. Qed.
Lemma fresh_aborted (l : list direction) : fresh ((λ d, (d, true)) <$> l) = [].
Proof. by induction l. Qed.

#[local] Arguments fresh : simpl never.

(** What hiredis documents of its calls: a command asks for a write; reading asks for
    more; after a write, it asks for a read, and for a write if output remains. *)
Definition documented (a : Adapter) (e : event) : bool :=
  match e with
  | Command cs => bool_decide (cs = [AddWrite])
  | Handler cs =>
      match queued a with
      | (ReadDir, false) :: _ => forallb (λ c, bool_decide (c = AddRead \/ c = AddWrite)) cs
      | (WriteDir, false) :: _ => bool_decide (cs = [DelWrite; AddRead] \/ cs = [AddWrite; AddRead])
      | _ => true
      end
  | _ => true
  end.

(** As documented, each write takes all output, and no handler is due when the
    connection is closed. *)
Definition whole (a : Adapter) (e : event) : bool :=
  documented a e &&
  match e with
  | Handler cs => match queued a with (WriteDir, false) :: _ => bool_decide (cs = [DelWrite; AddRead]) | _ => true end
  | Disconnect => match fresh (queued a) with [] => true | _ => false end
  | _ => true
  end.

Inductive reach : Adapter -> Prop :=
| reach_start : reach make_adapter
| reach_step a e a' : reach a -> whole a e = true -> exec e a = Some (Returns a') -> reach a'.

(** While the connection is there, one watcher for each direction that is asked for;
    [due]: the direction whose handler is running. *)
Definition live (due : option direction) (a : Adapter) : Prop :=
  destroyed a = false /\ cleaned_up_ a = false /\ ac_freed a = false /\
  forall d, (watchers d a + (match due with Some d' => b2n (same d' d) | None => 0 end))%nat = b2n (requested d a).
Definition dead (a : Adapter) : Prop := destroyed a = true /\ fresh (queued a) = [] /\ waits a = [].
Definition adapter_inv (a : Adapter) : Prop := if connected_ a then live None a else dead a.

Lemma watchers_wait d d' a : watchers d' (with_waits (waits a ++ [d]) (queued a) a) = (watchers d' a + b2n (same d' d))%nat.
Proof. unfold watchers. cbn [waits queued with_waits]. rewrite count_app. destruct d, d'; cbn; lia. Qed.

(** Asking twice is asking once. *)
Lemma on_add_live due a d : live due a -> live due (match d with ReadDir => on_add_read a | WriteDir => on_add_write a end).
Proof.
  intros (Hd & Hc & Hf & Hw). destruct d; unfold on_add_read, on_add_write; rewrite Hc.
  - destruct (read_requested_ a) eqn:Er; [done |]. unfold handle. cbn [requested read_requested_ cleaned_up_ with_requests]. rewrite Hc. cbn [negb orb]. split_and!; [done | done | done |]. intros d.
    specialize (Hw d). rewrite (watchers_wait ReadDir d (with_requests true (write_requested_ a) a)). destruct d; cbn in *; rewrite ?Er in Hw; cbn in *; unfold watchers in *; cbn in *; lia.
  - destruct (write_requested_ a) eqn:Er; [done |]. unfold handle. cbn [requested write_requested_ cleaned_up_ with_requests]. rewrite Hc. cbn [negb orb]. split_and!; [done | done | done |]. intros d.
    specialize (Hw d). rewrite (watchers_wait WriteDir d (with_requests (read_requested_ a) true a)). destruct d; cbn in *; rewrite ?Er in Hw; cbn in *; unfold watchers in *; cbn in *; lia.
Qed.
Lemma evs_adds_live due cs a : forallb (λ c, bool_decide (c = AddRead \/ c = AddWrite)) cs = true -> live due a -> live due (evs cs a).
Proof.
  revert a. induction cs as [| c cs IH]; intros a Hcs Ha; [done |]. apply andb_true_iff in Hcs as [Hc Hcs]. apply bool_decide_eq_true in Hc. apply IH; [done |].
  destruct Hc as [-> | ->]; [apply (on_add_live due a ReadDir Ha) | apply (on_add_live due a WriteDir Ha)].
Qed.
Lemma connected_handle d a : connected_ (handle d a) = connected_ a.
Proof. unfold handle. by case_match. Qed.
Lemma connected_evs cs a : connected_ (evs cs a) = connected_ a.
Proof.
  revert a. induction cs as [| c cs IH]; intros a; [done |]. unfold evs in *. cbn [fold_left]. rewrite IH.
  destruct c; cbn; unfold on_add_read, on_add_write; repeat case_match; by rewrite ?connected_handle.
Qed.
Lemma requested_due d a : live (Some d) a -> requested d a = true /\ watchers d a = 0%nat.
Proof. intros (_ & _ & _ & Hw). specialize (Hw d). assert (same d d = true) as Hs by (by destruct d). rewrite Hs in Hw. destruct (requested d a); cbn in Hw; [split; [done | lia] | lia]. Qed.
Lemma handle_live d a : live (Some d) a -> live None (handle d a).
Proof.
  intros H. destruct (requested_due d a H) as [Hr H0]. destruct H as (Hd & Hc & Hf & Hw). unfold handle. rewrite Hr, Hc. cbn [negb orb]. split_and!; [done | done | done |]. intros d'. specialize (Hw d').
  rewrite watchers_wait. destruct d, d'; cbn in *; lia.
Qed.
Lemma pop_live d rest a : live None a -> queued a = (d, false) :: rest -> live (Some d) (with_call d (with_waits (waits a) rest a)).
Proof.
  intros (Hd & Hc & Hf & Hw) Hq. split_and!; [done | done | done |]. intros d'. specialize (Hw d'). unfold watchers in *. rewrite Hq in Hw. change (fresh ((d, false) :: rest)) with (d :: fresh rest) in Hw. destruct d, d'; cbn in *; lia.
Qed.
Lemma del_write_live a : live (Some WriteDir) a -> live None (on_del_write a).
Proof.
  intros H. destruct (requested_due _ a H) as [Hr H0]. destruct H as (Hd & Hc & Hf & Hw). split_and!; [done | done | done |]. intros d. specialize (Hw d). destruct d; [exact Hw |].
  unfold watchers in *. cbn in *. lia.
Qed.

Lemma ready_watchers a i d : waits a !! i = Some d -> forall d', watchers d' (with_waits (take i (waits a) ++ drop (S i) (waits a)) (queued a ++ [(d, false)]) a) = watchers d' a.
Proof.
  intros Hi d'. unfold watchers. cbn. rewrite <- (take_drop_middle _ _ _ Hi) at 3. rewrite fresh_app, !count_app. change (d :: drop (S i) (waits a)) with ([d] ++ drop (S i) (waits a)).
  change (fresh [(d, false)]) with [d]. rewrite count_app. lia.
Qed.

(** A handler that is due, of a connection that is there. *)
Lemma handler_inv a d rest cs : live None a -> queued a = (d, false) :: rest -> whole a (Handler cs) = true ->
  exists a', run_handler d false cs (with_waits (waits a) rest a) = Returns a' /\ live None a' /\ connected_ a' = connected_ a.
Proof.
  intros Ha Hq Hw. pose proof (pop_live d rest a Ha Hq) as Hp. destruct (requested_due _ _ Hp) as [Hr _]. pose proof Ha as (Hd & Hc & _).
  unfold run_handler. cbn [destroyed with_waits cleaned_up_]. rewrite Hd, Hc. change (requested d (with_waits (waits a) rest a)) with (requested d (with_call d (with_waits (waits a) rest a))). rewrite Hr. cbn [andb negb].
  eexists. split; [done |]. unfold whole, documented in Hw. rewrite Hq in Hw. destruct d.
  - rewrite andb_true_r in Hw. rewrite connected_handle, connected_evs. split; [| done]. apply handle_live. by apply evs_adds_live.
  - apply andb_true_iff in Hw as [_ ->%bool_decide_eq_true]. rewrite connected_evs. split; [| done]. unfold evs. cbn [fold_left ev]. apply (on_add_live None _ ReadDir). by apply del_write_live.
Qed.

Lemma adapter_step a e o : adapter_inv a -> whole a e = true -> exec e a = Some o -> exists a', o = Returns a' /\ adapter_inv a'.
Proof.
  unfold adapter_inv. intros Ha Hw E. destruct (connected_ a) eqn:Hcon.
  - pose proof Ha as (Hd & Hc & Hf & Hwt). destruct e as [cs | i | cs |]; cbn [exec] in E.
    + unfold async_command in E. rewrite Hcon, Hf in E. injection E as <-. eexists. split; [done |]. rewrite connected_evs, Hcon. apply evs_adds_live; [| done].
      unfold whole, documented in Hw. rewrite andb_true_r in Hw. by apply bool_decide_eq_true in Hw as ->.
    + destruct (waits a !! i) as [d |] eqn:Ei; [| done]. injection E as <-. eexists. split; [done |]. cbn [connected_ with_waits]. rewrite Hcon. split_and!; [done | done | done |].
      intros d'. rewrite (ready_watchers a i d Ei d'). apply Hwt.
    + destruct (queued a) as [| [d [|]] rest] eqn:Hq; [done | |].
      * injection E as <-. eexists. split; [done |]. cbn [connected_ with_waits]. rewrite Hcon. split_and!; [done | done | done |]. intros d'. specialize (Hwt d'). unfold watchers in *. rewrite Hq in Hwt. exact Hwt.
      * destruct (handler_inv a d rest cs Ha Hq Hw) as (a' & Er & H1 & H2). rewrite Er in E. injection E as <-. exists a'. by rewrite H2, Hcon.
    + unfold connection_disconnect in E. rewrite Hcon, Hf in E. injection E as <-. eexists. split; [done |]. unfold dead. cbn. rewrite fresh_app, fresh_aborted.
      unfold whole in Hw. cbn in Hw. split_and!; [done | by destruct (fresh (queued a)) | done].
  - destruct Ha as (Hd & Hq & Hws). destruct e as [cs | i | cs |]; cbn [exec] in E.
    + unfold async_command in E. rewrite Hcon in E. injection E as <-. exists a. by rewrite Hcon.
    + by rewrite Hws in E.
    + destruct (queued a) as [| [d [|]] rest] eqn:Eq; [done | | done]. injection E as <-. eexists. split; [done |]. cbn. by rewrite Hcon.
    + unfold connection_disconnect in E. rewrite Hcon in E. injection E as <-. exists a. by rewrite Hcon.
Qed.
Lemma reach_inv a : reach a -> adapter_inv a.
Proof.
  induction 1 as [| a e a' _ IH Hw E]; [split_and!; try done; by intros [] |]. by destruct (adapter_step a e _ IH Hw E) as (a1 & [= <-] & H1).
Qed.

(** As long as each write takes all output and no handler is due when the connection
    is closed, the adapter waits for exactly what hiredis asks for: one wait, or one
    handler still to run, for each direction that is asked for. Nothing reaches a context
    or an adapter that is freed, and after the connection is closed hiredis is not called
    again. *)
Theorem socket_watched a e o : reach a -> whole a e = true -> exec e a = Some o ->
  exists a', o = Returns a' /\
    (connected_ a' = true -> forall d, watchers d a' = b2n (requested d a')) /\
    (connected_ a = false -> calls a' = calls a /\ connected_ a' = false).
Proof.
  intros Hr Hw E. pose proof (reach_inv a Hr) as Ha. destruct (adapter_step a e o Ha Hw E) as (a' & -> & Ha'). exists a'. split_and!; [done | |].
  - intros Hc d. unfold adapter_inv in Ha'. rewrite Hc in Ha'. destruct Ha' as (_ & _ & _ & H). specialize (H d). lia.
  - intros Hc. unfold adapter_inv in Ha. rewrite Hc in Ha. destruct Ha as (_ & Hq & Hws). destruct e as [cs | i | cs |]; cbn [exec] in E.
    + unfold async_command in E. rewrite Hc in E. by injection E as <-.
    + by rewrite Hws in E.
    + destruct (queued a) as [| [d [|]] rest]; [done | by injection E as <- | done].
    + unfold connection_disconnect in E. rewrite Hc in E. by injection E as <-.
Qed.

(** *** A write that leaves output *)

Definition stalled (a : Adapter) : Prop := write_requested_ a = true /\ watchers WriteDir a = 0%nat.
Definition same_writes (a a' : Adapter) : Prop := count WriteDir (calls a') = count WriteDir (calls a).

(** While a write is asked for, asking again does nothing. *)
Lemma add_stalled c a : c = AddRead \/ c = AddWrite -> stalled a -> stalled (ev c a) /\ calls (ev c a) = calls a.
Proof.
  intros Hc [Hw H0]. destruct Hc as [-> | ->]; cbn [ev]; unfold on_add_read, on_add_write.
  - destruct (cleaned_up_ a) eqn:Ec; [done |]. destruct (read_requested_ a); [done |]. unfold handle. cbn [requested read_requested_ cleaned_up_ with_requests]. rewrite Ec. cbn [negb orb].
    split; [| done]. split; [done |]. rewrite (watchers_wait ReadDir WriteDir (with_requests true (write_requested_ a) a)). cbn [same b2n]. rewrite Nat.add_0_r. exact H0.
  - destruct (cleaned_up_ a); [done |]. by rewrite Hw.
Qed.
Lemma adds_stalled cs a : forallb (λ c, bool_decide (c = AddRead \/ c = AddWrite)) cs = true -> stalled a -> stalled (evs cs a) /\ calls (evs cs a) = calls a.
Proof.
  revert a. induction cs as [| c cs IH]; intros a Hcs Ha; [done |]. apply andb_true_iff in Hcs as [Hc Hcs]. apply bool_decide_eq_true in Hc. destruct (add_stalled c a Hc Ha) as [H1 <-].
  by apply (IH (ev c a)).
Qed.
Lemma handle_read_stalled a : stalled a -> stalled (handle ReadDir a) /\ calls (handle ReadDir a) = calls a.
Proof.
  intros [Hw H0]. unfold handle. destruct (_ || _); [done |]. split; [| done]. split; [done |]. rewrite watchers_wait. cbn [same b2n]. by rewrite Nat.add_0_r.
Qed.

Lemma stalled_step a e a' : stalled a -> documented a e = true -> exec e a = Some (Returns a') -> stalled a' /\ same_writes a a'.
Proof.
  intros Ha Hd E. unfold same_writes. destruct e as [cs | i | cs |]; cbn [exec] in E.
  - apply bool_decide_eq_true in Hd as ->. unfold async_command in E. destruct (negb (connected_ a)), (ac_freed a); try discriminate E; injection E as <-; try done.
    destruct (adds_stalled [AddWrite] a eq_refl Ha) as [H1 H2]. split; [exact H1 |]. exact (f_equal (count WriteDir) H2).
  - destruct (waits a !! i) as [d |] eqn:Ei; [| done]. injection E as <-. destruct Ha as [Hw H0]. split; [| done]. split; [done |]. by rewrite (ready_watchers a i d Ei).
  - destruct Ha as [Hw H0]. destruct (queued a) as [| [d f] rest] eqn:Eq; [done |]. set (b := with_waits (waits a) rest a) in E.
    assert (stalled b) as Hb. { split; [done |]. unfold watchers in *. rewrite Eq in H0. cbn [b waits queued with_waits]. destruct f; [exact H0 |]. change (fresh ((d, false) :: rest)) with (d :: fresh rest) in H0. cbn [count] in H0. lia. }
    destruct f; [by injection E as <- |]. unfold documented in Hd. rewrite Eq in Hd. destruct d; [| unfold watchers in H0; rewrite Eq in H0; change (fresh ((WriteDir, false) :: rest)) with (WriteDir :: fresh rest) in H0; cbn in H0; lia].
    unfold run_handler in E. destruct (destroyed b); [done |]. destruct (_ && _); [| by injection E as <-]. injection E as <-.
    assert (stalled (with_call ReadDir b)) as Hc by exact Hb. destruct (adds_stalled cs _ Hd Hc) as [H1 H2]. destruct (handle_read_stalled _ H1) as [H3 H4]. split; [done |].
    rewrite H4, H2. cbn. rewrite count_app. cbn. lia.
  - destruct Ha as [Hw H0]. unfold connection_disconnect in E. destruct (connected_ a); [| by injection E as <-]. destruct (ac_freed a); [done |]. injection E as <-. split; [| done]. split; [done |].
    unfold watchers in *. cbn [waits queued on_cleanup]. rewrite fresh_app, fresh_aborted, app_nil_r. cbn [count]. lia.
Qed.

Fixpoint all_documented (es : list event) (a : Adapter) : bool :=
  match es with
  | [] => true
  | e :: es => documented a e && match exec e a with Some (Returns a) => all_documented es a | _ => true end
  end.
Lemma stalled_steps es a a' : stalled a -> all_documented es a = true -> exec_all es a = Some (Returns a') -> same_writes a a'.
Proof.
  revert a. induction es as [| e es IH]; intros a Ha Hd E; [by injection E as <- |]. cbn in Hd, E. apply andb_true_iff in Hd as [He Hd].
  destruct (exec e a) as [[a1 |] |] eqn:E1; [| done | done]. destruct (stalled_step a e a1 Ha He E1) as [H1 H2]. unfold same_writes in *. rewrite <- H2. by apply (IH a1).
Qed.

(** Once a write leaves output, nothing is written to the connection again: hiredis
    asks for another write, which is dropped because one is still marked as asked for,
    and no later command or reply changes this. *)
Theorem partial_write_stalls a rest a' es a'' : reach a -> connected_ a = true -> queued a = (WriteDir, false) :: rest ->
  exec (Handler [AddWrite; AddRead]) a = Some (Returns a') -> all_documented es a' = true -> exec_all es a' = Some (Returns a'') ->
  count WriteDir (calls a'') = count WriteDir (calls a').
Proof.
  intros Hr Hcon Hq E Hd E'. apply (stalled_steps es a' a''); [| done | done]. pose proof (reach_inv a Hr) as Ha. unfold adapter_inv in Ha. rewrite Hcon in Ha.
  pose proof (pop_live WriteDir rest a Ha Hq) as Hp. destruct (requested_due _ _ Hp) as [Hw H0]. destruct Ha as (Hds & Hcl & _). cbn [exec] in E. rewrite Hq in E. unfold run_handler in E.
  cbn [destroyed with_waits cleaned_up_] in E. rewrite Hds, Hcl in E. change (requested WriteDir (with_waits (waits a) rest a)) with (requested WriteDir (with_call WriteDir (with_waits (waits a) rest a))) in E.
  rewrite Hw in E. cbn [andb negb] in E. injection E as <-.
  apply (adds_stalled [AddWrite; AddRead] (with_call WriteDir (with_waits (waits a) rest a)) eq_refl). by split.
Qed.
End SocketWatched.

(** ** Examples *)

Module RedisExample.


(** A connection closed while it authenticates: the coroutine then uses the object that
    is gone. *)
Example close_during_auth : Link.exec_all true 30000 [Link.RunInitial 0 true; Link.Close; Link.RunAuth 0 false] (Link.connect true true Link.make_link) = Some (Throws undefined_behaviour).
Proof. reflexivity. Qed.

(** Closed before its loop runs, a multiplexer connects again. *)
Example close_before_loop : exists m, Link.exec_all false 30000 [Link.Close; Link.RunAttempt 0 true true] (Link.connect false false Link.make_link) = Some (Returns m) /\ Link.is_connected m = true.
Proof. by eexists. Qed.

Import HiredisAsio.

Definition written : Adapter := mkAdapter false true false false false true [] [(WriteDir, false)] [].
Lemma written_reached : reach written.
Proof.
  apply (reach_step (mkAdapter false true false false false true [WriteDir] [] []) (Ready 0)); [| reflexivity | reflexivity].
  apply (reach_step make_adapter (Command [AddWrite])); [constructor | reflexivity | reflexivity].
Qed.

Lemma socket_watched_witness : exists a, exec (Handler [DelWrite; AddRead]) written = Some (Returns a) /\ watchers ReadDir a = 1%nat /\ watchers WriteDir a = 0%nat.
Proof.
  destruct (socket_watched written (Handler [DelWrite; AddRead]) _ written_reached eq_refl eq_refl) as (a & Ea & Hw & _). exists a.
  assert (connected_ a = true) as Hc by (by injection Ea as <-). split_and!; [exact (f_equal Some Ea) | rewrite (Hw Hc); by injection Ea as <- | rewrite (Hw Hc); by injection Ea as <-].
Defined.

(** Two later commands are never written. *)
Definition later : list event := [Command [AddWrite]; Ready 0; Handler [AddRead]; Command [AddWrite]].
Lemma partial_write_stalls_witness : exists a, exec_all (Handler [AddWrite; AddRead] :: later) written = Some (Returns a) /\ count WriteDir (calls a) = 1%nat.
Proof.
  eexists. split; [reflexivity |]. exact (partial_write_stalls written [] _ later _ written_reached eq_refl eq_refl eq_refl eq_refl eq_refl).
Defined.

(** A handler that is due when the connection is closed runs in an adapter that is
    gone. *)
Example due_handler_dangles : exec_all [Command [AddWrite]; Ready 0; Disconnect; Handler []] make_adapter = Some (Throws undefined_behaviour).
Proof. reflexivity. Qed.

(** When hiredis frees the context of a connection that is lost, nothing tells the
    [RedisConnection]: the next command, and the destructor, use it again. *)
Example lost_context_used : exec_all [Command [AddWrite]; Ready 0; Handler [Cleanup]; Command [AddWrite]] make_adapter = Some (Throws undefined_behaviour).
Proof. reflexivity. Qed.
Example lost_context_freed_twice : exec_all [Command [AddWrite]; Ready 0; Handler [Cleanup]; Disconnect] make_adapter = Some (Throws undefined_behaviour).
Proof. reflexivity. Qed.

End RedisExample.
