(* ===== verification/KafkaEnvelope.v ===== *)
(** * Kafka envelopes

    [RoutingHeader], [MetadataPrefix], [ReplyTopicHeader] and the envelope helpers
    (apex_shared/lib/protocols/kafka/src/kafka_envelope.cpp), the in-place
    [EnvelopeBuilder] (envelope_builder.cpp) and [KafkaDispatchBridge]
    (kafka_dispatch_bridge.cpp). Strings and payloads are their bytes. *)

From S2P Require Import Prelude ErrorCode WireHeader Arena.

Module Kafka.

Inductive EnvelopeError : Type := EnvInsufficientData | EnvUnsupportedVersion | EnvTopicTooLong.

(** ** Routing header *)

Definition ROUTING_SIZE : Z := 8.
Definition ROUTING_VERSION : Z := 1.

Record RoutingHeader : Type := mkRouting { header_version : Z; flags : Z; msg_id : Z }.

(** The flags used in [routing_flags]. *)
Definition DIRECTION_RESPONSE : Z := 1.
Definition ERROR_BIT : Z := 2.
Definition DELIVERY_MASK : Z := 12.
Definition DELIVERY_UNICAST : Z := 0.
Definition DELIVERY_CHANNEL : Z := 4.
Definition DELIVERY_BROADCAST : Z := 8.
Definition HAS_REPLY_TOPIC : Z := 2048.

Definition hton64 (v : Z) : Z := bswap 8 v.
Definition ntoh64 (v : Z) : Z := hton64 v.
Definition load64 (data : list Z) (off : Z) : Z := le_load (slice off 8 data).

Definition routing_parse (data : list Z) : expected RoutingHeader EnvelopeError :=
  if len data <? ROUTING_SIZE then Err EnvInsufficientData
  else
    let header_version := ntoh16 (load16 data 0) in
    if negb (header_version =? ROUTING_VERSION) then Err EnvUnsupportedVersion
    else Ok (mkRouting header_version (ntoh16 (load16 data 2)) (ntoh32 (load32 data 4))).

Definition routing_serialize_into (h : RoutingHeader) (out : list Z) : list Z :=
  let out := patch 0 (le_store 2 (hton16 (header_version h))) out in
  let out := patch 2 (le_store 2 (hton16 (flags h))) out in
  patch 4 (le_store 4 (hton32 (msg_id h))) out.

Definition routing_serialize (h : RoutingHeader) : list Z := routing_serialize_into h (replicate 8 0).

(** ** Metadata prefix *)

Definition METADATA_SIZE : Z := 40.
Definition METADATA_VERSION : Z := 2.

Record MetadataPrefix : Type := mkMetadata {
  meta_version : Z; core_id : Z; corr_id : Z; source_id : Z; session_id : Z; user_id : Z; timestamp : Z
}.

Definition metadata_parse (data : list Z) : expected MetadataPrefix EnvelopeError :=
  if len data <? METADATA_SIZE then Err EnvInsufficientData
  else
    let meta_version := ntoh32 (load32 data 0) in
    if negb (meta_version =? METADATA_VERSION) then Err EnvUnsupportedVersion
    else Ok (mkMetadata meta_version (ntoh16 (load16 data 4)) (ntoh64 (load64 data 6)) (ntoh16 (load16 data 14))
               (ntoh64 (load64 data 16)) (ntoh64 (load64 data 24)) (ntoh64 (load64 data 32))).

Definition metadata_serialize_into (m : MetadataPrefix) (out : list Z) : list Z :=
  let out := patch 0 (le_store 4 (hton32 (meta_version m))) out in
  let out := patch 4 (le_store 2 (hton16 (core_id m))) out in
  let out := patch 6 (le_store 8 (hton64 (corr_id m))) out in
  let out := patch 14 (le_store 2 (hton16 (source_id m))) out in
  let out := patch 16 (le_store 8 (hton64 (session_id m))) out in
  let out := patch 24 (le_store 8 (hton64 (user_id m))) out in
  patch 32 (le_store 8 (hton64 (timestamp m))) out.

Definition metadata_serialize (m : MetadataPrefix) : list Z := metadata_serialize_into m (replicate 40 0).

Definition ENVELOPE_HEADER_SIZE : Z := ROUTING_SIZE + METADATA_SIZE.
Definition UINT16_MAX : Z := 65535.

(** ** Reply topic *)

Definition topic_serialize (reply_topic : list Z) : expected (list Z) EnvelopeError :=
  match reply_topic with
  | [] => Ok []
  | _ :: _ =>
      if UINT16_MAX <? len reply_topic then Err EnvTopicTooLong
      else
        let n := u16 (len reply_topic) in
        let buf := replicate (Z.to_nat (2 + n)) 0 in
        let buf := patch 0 (le_store 2 (hton16 n)) buf in
        Ok (patch 2 (takeZ n reply_topic) buf)
  end.

Definition topic_parse (data : list Z) : expected (list Z * Z) EnvelopeError :=
  if len data <? 2 then Err EnvInsufficientData
  else
    let n := ntoh16 (load16 data 0) in
    let total := 2 + n in
    if len data <? total then Err EnvInsufficientData else Ok (slice 2 n data, total).

(** ** Whole envelopes *)

Definition with_flags (f : Z) (h : RoutingHeader) : RoutingHeader := mkRouting (header_version h) f (msg_id h).
Definition set_reply_flag (f : Z) : Z := u16 (Z.lor f HAS_REPLY_TOPIC).
Definition clear_reply_flag (f : Z) : Z := u16 (Z.land f (Z.lnot HAS_REPLY_TOPIC)).

Definition build_full_envelope (routing : RoutingHeader) (metadata : MetadataPrefix) (reply_topic payload : list Z) : list Z :=
  let rh := with_flags (match reply_topic with _ :: _ => set_reply_flag (flags routing) | [] => clear_reply_flag (flags routing) end) routing in
  let '(reply_bytes, rh) := match topic_serialize reply_topic with
                            | Ok bytes => (bytes, rh)
                            | Err _ => ([], with_flags (clear_reply_flag (flags rh)) rh)
                            end in
  let buf := routing_serialize rh ++ metadata_serialize metadata in
  let buf := match reply_bytes with [] => buf | _ :: _ => buf ++ reply_bytes end in
  buf ++ payload.

Definition has_reply_topic (f : Z) : bool := negb (Z.land f HAS_REPLY_TOPIC =? 0).

Definition envelope_payload_offset (f : Z) (data : list Z) : Z :=
  let offset := ENVELOPE_HEADER_SIZE in
  if has_reply_topic f then
    if offset + 2 <=? len data then
      match topic_parse (dropZ offset data) with Ok (_, n) => offset + n | Err _ => offset end
    else offset
  else offset.

Definition extract_reply_topic (f : Z) (data : list Z) : list Z :=
  if negb (has_reply_topic f) then []
  else if len data <? ENVELOPE_HEADER_SIZE + 2 then []
  else match topic_parse (dropZ ENVELOPE_HEADER_SIZE data) with Ok (topic, _) => topic | Err _ => [] end.

(** ** The builder *)

Record EnvelopeBuilder : Type := mkBuilder {
  msg_id_ : Z; flags_ : Z; core_id_ : Z; corr_id_ : Z; source_id_ : Z; session_id_ : Z; user_id_ : Z;
  reply_topic_ : list Z; payload_ : list Z
}.

Definition make_builder : EnvelopeBuilder := mkBuilder 0 0 0 0 0 0 0 [] [].
Definition routing (msg_id flags : Z) (b : EnvelopeBuilder) : EnvelopeBuilder :=
  mkBuilder msg_id flags (core_id_ b) (corr_id_ b) (source_id_ b) (session_id_ b) (user_id_ b) (reply_topic_ b) (payload_ b).
Definition metadata (core_id corr_id source_id session_id user_id : Z) (b : EnvelopeBuilder) : EnvelopeBuilder :=
  mkBuilder (msg_id_ b) (flags_ b) core_id corr_id source_id session_id user_id (reply_topic_ b) (payload_ b).
Definition reply_topic (topic : list Z) (b : EnvelopeBuilder) : EnvelopeBuilder :=
  mkBuilder (msg_id_ b) (flags_ b) (core_id_ b) (corr_id_ b) (source_id_ b) (session_id_ b) (user_id_ b) topic (payload_ b).
Definition payload (data : list Z) (b : EnvelopeBuilder) : EnvelopeBuilder :=
  mkBuilder (msg_id_ b) (flags_ b) (core_id_ b) (corr_id_ b) (source_id_ b) (session_id_ b) (user_id_ b) (reply_topic_ b) data.

Definition carries_topic (b : EnvelopeBuilder) : bool :=
  match reply_topic_ b with [] => false | _ :: _ => len (reply_topic_ b) <=? UINT16_MAX end.

Definition total_size (b : EnvelopeBuilder) : Z :=
  let size := ENVELOPE_HEADER_SIZE in
  let size := if carries_topic b then size + 2 + len (reply_topic_ b) else size in
  size + len (payload_ b).

(** The writes into [buf], with the clock reading [now_ms]. *)
Definition serialize_into (now_ms : Z) (b : EnvelopeBuilder) (buf : list Z) : list Z :=
  let rh := mkRouting ROUTING_VERSION (if carries_topic b then set_reply_flag (flags_ b) else clear_reply_flag (flags_ b)) (msg_id_ b) in
  let mp := mkMetadata METADATA_VERSION (core_id_ b) (corr_id_ b) (source_id_ b) (session_id_ b) (user_id_ b) (u64 now_ms) in
  let offset := 0 in
  let buf := patch offset (routing_serialize_into rh (slice offset ROUTING_SIZE buf)) buf in
  let offset := offset + ROUTING_SIZE in
  let buf := patch offset (metadata_serialize_into mp (slice offset METADATA_SIZE buf)) buf in
  let offset := offset + METADATA_SIZE in
  let '(offset, buf) :=
    if carries_topic b then
      let n := u16 (len (reply_topic_ b)) in
      let buf := patch offset (le_store 2 (bswap 2 n)) buf in
      let offset := offset + 2 in
      (offset + n, patch offset (takeZ n (reply_topic_ b)) buf)
    else (offset, buf) in
  match payload_ b with [] => buf | _ :: _ => patch offset (payload_ b) buf end.

Definition build (now_ms : Z) (b : EnvelopeBuilder) : list Z :=
  serialize_into now_ms b (replicate (Z.to_nat (total_size b)) 0).

(** [memory] reads the bytes that lie in allocated memory before the call; the
    result is the span's address and its bytes. *)
Definition build_into (memory : Z -> Z -> list Z) (now_ms : Z) (b : EnvelopeBuilder) (alloc : Arena.BumpAllocator) :
    option (Z * list Z) * Arena.BumpAllocator :=
  let size := total_size b in
  let '(mem, alloc) := Arena.bump_allocate size 1 alloc in
  if mem =? 0 then (None, alloc) else (Some (mem, serialize_into now_ms b (memory mem size)), alloc).

(** ** Dispatch *)

Record KafkaMessageMeta : Type := mkMeta {
  mm_meta_version : Z; mm_core_id : Z; mm_corr_id : Z; mm_source_id : Z; mm_session_id : Z; mm_user_id : Z; mm_timestamp : Z
}.

Definition Handler : Type := KafkaMessageMeta -> Z -> list Z -> Result unit.

Definition to_meta (m : MetadataPrefix) : KafkaMessageMeta :=
  mkMeta (meta_version m) (core_id m) (corr_id m) (source_id m) (session_id m) (user_id m) (timestamp m).

(** [handlers] is [None] for a default-constructed bridge. *)
Definition dispatch (handlers : option (gmap Z Handler)) (raw_message : list Z) : Result unit :=
  if len raw_message <? ENVELOPE_HEADER_SIZE then Err ParseFailed
  else match handlers with
  | None => Err HandlerNotFound
  | Some handlers =>
      match routing_parse raw_message with
      | Err _ => Err ParseFailed
      | Ok routing =>
          match metadata_parse (dropZ ROUTING_SIZE raw_message) with
          | Err _ => Err ParseFailed
          | Ok metadata =>
              let payload_offset := envelope_payload_offset (flags routing) raw_message in
              let payload := if payload_offset <? len raw_message then dropZ payload_offset raw_message else [] in
              match handlers !! msg_id routing with
              | None => Err HandlerNotFound
              | Some handler => handler (to_meta metadata) (msg_id routing) payload
              end
          end
      end
  end.

Definition has_handler (handlers : option (gmap Z Handler)) (msg_id : Z) : bool :=
  match handlers with None => false | Some m => bool_decide (is_Some (m !! msg_id)) end.

End Kafka.
Import Kafka.

(** ** The bytes written *)

Definition routing_bytes (h : RoutingHeader) : list Z :=
  be_bytes 2 (header_version h) ++ be_bytes 2 (flags h) ++ be_bytes 4 (msg_id h).
Definition metadata_bytes (m : MetadataPrefix) : list Z :=
  be_bytes 4 (meta_version m) ++ be_bytes 2 (core_id m) ++ be_bytes 8 (corr_id m) ++ be_bytes 2 (source_id m) ++
  be_bytes 8 (session_id m) ++ be_bytes 8 (user_id m) ++ be_bytes 8 (timestamp m).
Definition topic_bytes (topic : list Z) : list Z :=
  match topic with [] => [] | _ :: _ => be_bytes 2 (len topic) ++ topic end.

Lemma len_be_bytes n v : len (be_bytes n v) = Z.of_nat n.
Proof. unfold be_bytes. rewrite len_rev, len_le_store. done. Qed.

Lemma len_routing_bytes h : len (routing_bytes h) = 8.
Proof. unfold routing_bytes. rewrite !len_app, !len_be_bytes. done. Qed.

Lemma len_metadata_bytes m : len (metadata_bytes m) = 40.
Proof. unfold metadata_bytes. rewrite !len_app, !len_be_bytes. done. Qed.

(** One write of the sequence that fills a buffer from its start. *)
Ltac fill_step := rewrite patch_app by (rewrite ?len_app, ?len_be_bytes; done); rewrite app_assoc, ?len_be_bytes.

Lemma routing_into_layout h out : len out = 8 -> routing_serialize_into h out = routing_bytes h.
Proof.
  intros H. unfold routing_serialize_into, hton16, hton32. rewrite !le_store_bswap. fold (be_bytes 2 (header_version h)) (be_bytes 2 (flags h)) (be_bytes 4 (msg_id h)).
  change out with ([] ++ out). do 3 fill_step. rewrite !dropZ_dropZ, dropZ_all, app_nil_r, <- !app_assoc by lia. done.
Qed.

Lemma metadata_into_layout m out : len out = 40 -> metadata_serialize_into m out = metadata_bytes m.
Proof.
  intros H. unfold metadata_serialize_into, hton16, hton32, hton64. rewrite !le_store_bswap.
  fold (be_bytes 4 (meta_version m)) (be_bytes 2 (core_id m)) (be_bytes 8 (corr_id m)) (be_bytes 2 (source_id m))
    (be_bytes 8 (session_id m)) (be_bytes 8 (user_id m)) (be_bytes 8 (timestamp m)).
  change out with ([] ++ out). do 7 fill_step. rewrite !dropZ_dropZ, dropZ_all, app_nil_r, <- !app_assoc by lia. done.
Qed.

Lemma topic_serialize_layout topic :
  topic_serialize topic = if UINT16_MAX <? len topic then Err EnvTopicTooLong else Ok (topic_bytes topic).
Proof.
  destruct topic as [| x topic]; [done |]. unfold topic_serialize. set (t := x :: topic). destruct (Z.ltb_spec UINT16_MAX (len t)) as [| H]; [done |].
  unfold UINT16_MAX in H. assert (Hu : u16 (len t) = len t) by (apply wrap_small; unfold in_width; pose proof (len_nonneg t); lia). rewrite Hu.
  unfold hton16. rewrite le_store_bswap. fold (be_bytes 2 (len t)). rewrite takeZ_all by lia. f_equal.
  set (buf := replicate _ 0). assert (Hb : len buf = 2 + len t) by (subst buf; rewrite len_replicate; pose proof (len_nonneg t); lia).
  change buf with ([] ++ buf). fill_step. pose proof (len_nonneg t).
  rewrite patch_fill by (rewrite ?len_app, ?len_nil, ?len_dropZ, ?len_be_bytes; lia). done.
Qed.

(** ** Flags *)

Lemma lor_width w a b : 0 <= w -> in_width w a -> in_width w b -> in_width w (Z.lor a b).
Proof.
  intros Hw Ha Hb. assert (E : Z.lor a b = wrap w (Z.lor a b)); [| rewrite E; by apply wrap_range].
  apply Z.bits_inj'. intros n Hn. unfold wrap.
  destruct (Z.lt_ge_cases n w); [rewrite Z.mod_pow2_bits_low; done |]. rewrite (Z.mod_pow2_bits_high (Z.lor a b)), Z.lor_spec by lia.
  unfold in_width in *. rewrite <- (Z.mod_small a (2 ^ w)), <- (Z.mod_small b (2 ^ w)), !Z.mod_pow2_bits_high by lia. done.
Qed.

Lemma land_width w a b : 0 <= w -> in_width w a -> in_width w (Z.land a b).
Proof.
  intros Hw Ha. assert (E : Z.land a b = wrap w (Z.land a b)); [| rewrite E; by apply wrap_range].
  apply Z.bits_inj'. intros n Hn. unfold wrap.
  destruct (Z.lt_ge_cases n w); [rewrite Z.mod_pow2_bits_low; done |]. rewrite (Z.mod_pow2_bits_high (Z.land a b)), Z.land_spec by lia.
  unfold in_width in *. rewrite <- (Z.mod_small a (2 ^ w)), Z.mod_pow2_bits_high by lia. done.
Qed.

Lemma set_reply_flag_spec f : in_width 16 f -> set_reply_flag f = Z.lor f HAS_REPLY_TOPIC /\ in_width 16 (set_reply_flag f) /\ has_reply_topic (set_reply_flag f) = true.
Proof.
  intros H. assert (Hl : in_width 16 (Z.lor f HAS_REPLY_TOPIC)) by (apply lor_width; done || (unfold in_width, HAS_REPLY_TOPIC; lia)).
  unfold set_reply_flag. rewrite wrap_small by done. split_and!; [done | done |]. unfold has_reply_topic.
  replace (Z.land (Z.lor f HAS_REPLY_TOPIC) HAS_REPLY_TOPIC) with HAS_REPLY_TOPIC; [done |]. 
  apply Z.bits_inj'. intros n Hn. rewrite Z.land_spec, Z.lor_spec. destruct (Z.testbit HAS_REPLY_TOPIC n), (Z.testbit f n); done.
Qed.

Lemma clear_reply_flag_spec f : in_width 16 f -> in_width 16 (clear_reply_flag f) /\ has_reply_topic (clear_reply_flag f) = false.
Proof.
  intros H. assert (Hl : in_width 16 (Z.land f (Z.lnot HAS_REPLY_TOPIC))) by (apply land_width; done).
  unfold clear_reply_flag. rewrite wrap_small by done. split; [done |]. unfold has_reply_topic.
  replace (Z.land (Z.land f (Z.lnot HAS_REPLY_TOPIC)) HAS_REPLY_TOPIC) with 0; [done |].
  apply Z.bits_inj'. intros n Hn. rewrite !Z.land_spec, Z.lnot_spec, Z.bits_0 by done. destruct (Z.testbit HAS_REPLY_TOPIC n), (Z.testbit f n); done.
Qed.

Lemma clear_set_reply_flag f : in_width 16 f -> clear_reply_flag (set_reply_flag f) = clear_reply_flag f.
Proof.
  intros H. destruct (set_reply_flag_spec f H) as (E & _ & _). unfold clear_reply_flag. f_equal. rewrite E.
  apply Z.bits_inj'. intros n Hn. rewrite !Z.land_spec, Z.lor_spec, Z.lnot_spec by done. destruct (Z.testbit HAS_REPLY_TOPIC n), (Z.testbit f n); done.
Qed.

(** ** The layout both builders write *)

(** A topic longer than its length field is left out. *)
Definition sent_topic (topic : list Z) : list Z := if UINT16_MAX <? len topic then [] else topic.
Definition sent_flags (f : Z) (topic : list Z) : Z :=
  match sent_topic topic with [] => clear_reply_flag f | _ :: _ => set_reply_flag f end.
Definition envelope_bytes (h : RoutingHeader) (m : MetadataPrefix) (topic payload : list Z) : list Z :=
  routing_bytes (with_flags (sent_flags (flags h) topic) h) ++ metadata_bytes m ++ topic_bytes (sent_topic topic) ++ payload.

Lemma build_full_envelope_layout h m topic payload : in_width 16 (flags h) -> build_full_envelope h m topic payload = envelope_bytes h m topic payload.
Proof.
  intros Hf. unfold build_full_envelope, envelope_bytes, sent_flags, sent_topic. rewrite topic_serialize_layout.
  unfold routing_serialize, metadata_serialize.
  destruct topic as [| x topic].
  { change (UINT16_MAX <? len (@nil Z)) with false. cbv beta iota. rewrite routing_into_layout, metadata_into_layout, <- !app_assoc by done. done. }
  set (t := x :: topic). destruct (UINT16_MAX <? len t); cbv beta iota; rewrite routing_into_layout, metadata_into_layout by done.
  - cbn [with_flags flags header_version msg_id]. rewrite clear_set_reply_flag, <- !app_assoc by done. done.
  - unfold topic_bytes. subst t. cbn [app]. destruct (be_bytes 2 (len (x :: topic)) ++ x :: topic) as [| y l] eqn:E; [| rewrite <- !app_assoc; done].
    apply (f_equal len) in E. rewrite len_app, len_be_bytes in E. pose proof (len_nonneg (x :: topic)). change (len (@nil Z)) with 0 in E. lia.
Qed.

Definition builder_routing (b : EnvelopeBuilder) : RoutingHeader := mkRouting ROUTING_VERSION (flags_ b) (msg_id_ b).
Definition builder_metadata (now_ms : Z) (b : EnvelopeBuilder) : MetadataPrefix :=
  mkMetadata METADATA_VERSION (core_id_ b) (corr_id_ b) (source_id_ b) (session_id_ b) (user_id_ b) (u64 now_ms).

Lemma carries_topic_sent b : carries_topic b = match sent_topic (reply_topic_ b) with [] => false | _ :: _ => true end.
Proof.
  unfold carries_topic, sent_topic. destruct (reply_topic_ b) as [| x t]; [done |].
  destruct (Z.leb_spec (len (x :: t)) UINT16_MAX); [rewrite (proj2 (Z.ltb_ge _ _)) by done | rewrite (proj2 (Z.ltb_lt _ _)) by done]; done.
Qed.

Lemma total_size_layout now_ms b : total_size b = len (envelope_bytes (builder_routing b) (builder_metadata now_ms b) (reply_topic_ b) (payload_ b)).
Proof.
  unfold envelope_bytes, total_size. rewrite !len_app, len_routing_bytes, len_metadata_bytes, carries_topic_sent. unfold sent_topic.
  destruct (UINT16_MAX <? _); [change (len (topic_bytes [])) with 0; unfold ENVELOPE_HEADER_SIZE, ROUTING_SIZE, METADATA_SIZE; lia |].
  destruct (reply_topic_ b) as [| x t]; unfold topic_bytes; [change (len (@nil Z)) with 0 | rewrite len_app, len_be_bytes];
    unfold ENVELOPE_HEADER_SIZE, ROUTING_SIZE, METADATA_SIZE; lia.
Qed.

(** The in-place writes give the same bytes whatever the memory held before. *)
Lemma serialize_into_layout now_ms b buf : len buf = total_size b ->
  serialize_into now_ms b buf = envelope_bytes (builder_routing b) (builder_metadata now_ms b) (reply_topic_ b) (payload_ b).
Proof.
  intros Hb. pose proof (total_size_layout now_ms b) as Ht. unfold envelope_bytes in *. rewrite !len_app, len_routing_bytes, len_metadata_bytes in Ht.
  set (R := routing_bytes _) in *. set (M := metadata_bytes _) in *. pose proof (len_nonneg (payload_ b)). pose proof (len_nonneg (topic_bytes (sent_topic (reply_topic_ b)))).
  assert (HR : forall out, len out = 8 -> routing_serialize_into (mkRouting ROUTING_VERSION (if carries_topic b then set_reply_flag (flags_ b) else clear_reply_flag (flags_ b)) (msg_id_ b)) out = R).
  { intros out Ho. rewrite routing_into_layout by done. subst R. rewrite carries_topic_sent. unfold builder_routing, with_flags, sent_flags. cbn. destruct (sent_topic _); done. }
  assert (HM : forall out, len out = 40 -> metadata_serialize_into (builder_metadata now_ms b) out = M) by (intros; by apply metadata_into_layout).
  assert (LR : len R = 8) by apply len_routing_bytes. assert (LM : len M = 40) by apply len_metadata_bytes. clearbody R M.
  unfold serialize_into. fold (builder_metadata now_ms b). rewrite HR by (rewrite len_slice; unfold ROUTING_SIZE; lia).
  assert (E0 : patch 0 R buf = R ++ dropZ 8 buf) by (rewrite <- LR; apply (patch_app 0 [] R buf); done). rewrite E0.
  rewrite HM by (rewrite len_slice, ?len_app, ?len_dropZ; unfold ROUTING_SIZE, METADATA_SIZE; lia).
  rewrite (patch_app _ R M) by (rewrite LR; done). rewrite LM, dropZ_dropZ, app_assoc by lia. set (rest := dropZ (8 + 40) buf).
  assert (Hr : len rest = len (topic_bytes (sent_topic (reply_topic_ b))) + len (payload_ b)) by (subst rest; rewrite len_dropZ; lia).
  clearbody rest. clear HR HM. rewrite carries_topic_sent. unfold sent_topic in *.
  assert (Hfin : forall off p l, off = len p -> len l = len (payload_ b) -> match payload_ b with [] => p ++ l | _ :: _ => patch off (payload_ b) (p ++ l) end = p ++ payload_ b).
  { intros off p l Ho Hl. destruct (payload_ b) as [| y ys]; [| by apply patch_fill]. f_equal. by apply len_0_nil. }
  destruct (Z.ltb_spec UINT16_MAX (len (reply_topic_ b))) as [Hlong | Hshort].
  { cbv beta iota. rewrite Hfin; [rewrite <- !app_assoc; done | rewrite len_app, LR, LM; done | exact Hr]. }
  destruct (reply_topic_ b) as [| x t].
  { cbv beta iota. rewrite Hfin; [rewrite <- !app_assoc; done | rewrite len_app, LR, LM; done | exact Hr]. }
  set (T := x :: t) in *. pose proof (len_nonneg T). unfold UINT16_MAX in Hshort.
  assert (Hu : u16 (len T) = len T) by (apply wrap_small; unfold in_width; lia). rewrite Hu, takeZ_all by lia.
  change (topic_bytes T) with (be_bytes 2 (len T) ++ T) in *. rewrite len_app, len_be_bytes in Hr.
  rewrite le_store_bswap. fold (be_bytes 2 (len T)). rewrite patch_app by (rewrite len_app, LR, LM; done). rewrite len_be_bytes, app_assoc.
  rewrite patch_app by (rewrite !len_app, LR, LM, len_be_bytes; done). rewrite app_assoc, dropZ_dropZ by lia.
  cbv beta iota. rewrite Hfin; [rewrite <- !app_assoc; done | rewrite !len_app, LR, LM, len_be_bytes; done | rewrite len_dropZ; lia].
Qed.

(** ** Reading an envelope back *)

Definition wf_routing (h : RoutingHeader) : Prop := in_width 16 (header_version h) /\ in_width 16 (flags h) /\ in_width 32 (msg_id h).
Definition wf_metadata (m : MetadataPrefix) : Prop :=
  in_width 32 (meta_version m) /\ in_width 16 (core_id m) /\ in_width 64 (corr_id m) /\ in_width 16 (source_id m) /\
  in_width 64 (session_id m) /\ in_width 64 (user_id m) /\ in_width 64 (timestamp m).

Lemma routing_parse_bytes h rest : wf_routing h ->
  routing_parse (routing_bytes h ++ rest) = if header_version h =? ROUTING_VERSION then Ok h else Err EnvUnsupportedVersion.
Proof.
  intros (Hv & Hf & Hm). unfold routing_parse. pose proof (len_nonneg rest). rewrite len_app, len_routing_bytes.
  destruct (8 + len rest <? ROUTING_SIZE) eqn:E; [unfold ROUTING_SIZE in E; lia |].
  change (load16 _ 0) with (le_load (be_bytes 2 (header_version h))). change (load16 _ 2) with (le_load (be_bytes 2 (flags h))).
  change (load32 _ 4) with (le_load (be_bytes 4 (msg_id h))). unfold ntoh32, ntoh16, hton32, hton16. rewrite !load_be by done.
  destruct h, (_ =? ROUTING_VERSION); done.
Qed.

Lemma metadata_parse_bytes m rest : wf_metadata m ->
  metadata_parse (metadata_bytes m ++ rest) = if meta_version m =? METADATA_VERSION then Ok m else Err EnvUnsupportedVersion.
Proof.
  intros (Hv & Hc & Hr & Hs & Hi & Hu & Ht). unfold metadata_parse. pose proof (len_nonneg rest). rewrite len_app, len_metadata_bytes.
  destruct (40 + len rest <? METADATA_SIZE) eqn:E; [unfold METADATA_SIZE in E; lia |].
  change (load32 _ 0) with (le_load (be_bytes 4 (meta_version m))). change (load16 _ 4) with (le_load (be_bytes 2 (core_id m))).
  change (load64 _ 6) with (le_load (be_bytes 8 (corr_id m))). change (load16 _ 14) with (le_load (be_bytes 2 (source_id m))).
  change (load64 _ 16) with (le_load (be_bytes 8 (session_id m))). change (load64 _ 24) with (le_load (be_bytes 8 (user_id m))).
  change (load64 _ 32) with (le_load (be_bytes 8 (timestamp m))).
  unfold ntoh32, ntoh16, ntoh64, hton32, hton16, hton64. rewrite !load_be by done. destruct m, (_ =? METADATA_VERSION); done.
Qed.

Lemma topic_parse_bytes t rest : len t <= UINT16_MAX ->
  topic_parse (be_bytes 2 (len t) ++ t ++ rest) = Ok (t, 2 + len t).
Proof.
  intros H. pose proof (len_nonneg t). pose proof (len_nonneg rest). unfold topic_parse. rewrite !len_app, len_be_bytes.
  destruct (Z.of_nat 2 + (len t + len rest) <? 2) eqn:E; [rewrite Z.ltb_lt in E; lia |]. change (load16 _ 0) with (le_load (be_bytes 2 (len t))).
  unfold ntoh16, hton16. rewrite load_be by (unfold UINT16_MAX in H; lia).
  destruct (Z.of_nat 2 + (len t + len rest) <? 2 + len t) eqn:E2; [rewrite Z.ltb_lt in E2; lia |]. do 2 f_equal.
  unfold slice. rewrite dropZ_app_ge by (rewrite len_be_bytes; lia). rewrite len_be_bytes, dropZ_0, takeZ_app_len. done.
Qed.

Lemma sent_flags_topic f topic : in_width 16 f ->
  in_width 16 (sent_flags f topic) /\ has_reply_topic (sent_flags f topic) = match sent_topic topic with [] => false | _ :: _ => true end.
Proof.
  intros H. unfold sent_flags. destruct (sent_topic topic); [by apply clear_reply_flag_spec |].
  destruct (set_reply_flag_spec f H) as (_ & ? & ?). done.
Qed.

Lemma sent_topic_len topic : len (sent_topic topic) <= UINT16_MAX.
Proof. unfold sent_topic. destruct (Z.ltb_spec UINT16_MAX (len topic)); [done | done]. Qed.

(** What the readers find in the common layout. *)
Lemma envelope_bytes_read h m topic payload : wf_routing h -> wf_metadata m ->
  let e := envelope_bytes h m topic payload in
  routing_parse e = (if header_version h =? ROUTING_VERSION then Ok (with_flags (sent_flags (flags h) topic) h) else Err EnvUnsupportedVersion) /\
  metadata_parse (dropZ ROUTING_SIZE e) = (if meta_version m =? METADATA_VERSION then Ok m else Err EnvUnsupportedVersion) /\
  extract_reply_topic (sent_flags (flags h) topic) e = sent_topic topic /\
  dropZ (envelope_payload_offset (sent_flags (flags h) topic) e) e = payload.
Proof.
  intros Hh Hm e. destruct (sent_flags_topic (flags h) topic) as [Hw Hr]; [apply Hh |].
  assert (Hd : dropZ ENVELOPE_HEADER_SIZE e = topic_bytes (sent_topic topic) ++ payload).
  { subst e. unfold envelope_bytes. change ENVELOPE_HEADER_SIZE with (8 + 40).
    rewrite <- dropZ_dropZ, <- (len_routing_bytes (with_flags (sent_flags (flags h) topic) h)), dropZ_app_len by lia.
    rewrite <- (len_metadata_bytes m), dropZ_app_len. done. }
  assert (Hle : len e = 48 + len (topic_bytes (sent_topic topic)) + len payload).
  { subst e. unfold envelope_bytes. rewrite !len_app, len_routing_bytes, len_metadata_bytes. lia. }
  split_and!.
  - subst e. unfold envelope_bytes. rewrite routing_parse_bytes; [done |]. destruct Hh as (? & _ & ?). done.
  - subst e. unfold envelope_bytes. change ROUTING_SIZE with 8.
    rewrite <- (len_routing_bytes (with_flags (sent_flags (flags h) topic) h)), dropZ_app_len. by apply metadata_parse_bytes.
  - unfold extract_reply_topic. rewrite Hr, Hd, Hle. pose proof (sent_topic_len topic) as Hs. destruct (sent_topic topic) as [| x t]; [done |]. set (T := x :: t) in *.
    cbn [negb]. change (topic_bytes T) with (be_bytes 2 (len T) ++ T) in *. rewrite len_app, len_be_bytes.
    destruct (_ <? ENVELOPE_HEADER_SIZE + 2) eqn:E.
    { rewrite Z.ltb_lt in E. unfold ENVELOPE_HEADER_SIZE, ROUTING_SIZE, METADATA_SIZE in E. pose proof (len_nonneg T). pose proof (len_nonneg payload). lia. }
    rewrite <- app_assoc, topic_parse_bytes by done. done.
  - unfold envelope_payload_offset. rewrite Hr, Hd, Hle. pose proof (sent_topic_len topic) as Hs. destruct (sent_topic topic) as [| x t]; [by rewrite Hd |]. set (T := x :: t) in *.
    change (topic_bytes T) with (be_bytes 2 (len T) ++ T) in *. rewrite len_app, len_be_bytes. pose proof (len_nonneg T). pose proof (len_nonneg payload).
    destruct (ENVELOPE_HEADER_SIZE + 2 <=? _) eqn:E; [| rewrite Z.leb_gt in E; unfold ENVELOPE_HEADER_SIZE, ROUTING_SIZE, METADATA_SIZE in E; lia].
    rewrite <- app_assoc, topic_parse_bytes by done.
    rewrite <- dropZ_dropZ, Hd by (unfold ENVELOPE_HEADER_SIZE, ROUTING_SIZE, METADATA_SIZE; lia).
    replace (2 + len T) with (len (be_bytes 2 (len T) ++ T)) by (rewrite len_app, len_be_bytes; lia). apply dropZ_app_len.
Qed.

(** An envelope built from a routing header, metadata, a reply topic and a
    payload gives them back: the headers parse to the same fields with the
    reply-topic flag matching the topic, the topic is extracted, and the payload
    starts at the computed offset. A topic too long for its length field is left out
    and its flag cleared. *)
Theorem envelope_roundtrip h m topic payload :
  wf_routing h -> wf_metadata m -> header_version h = ROUTING_VERSION -> meta_version m = METADATA_VERSION ->
  let e := build_full_envelope h m topic payload in
  let f := sent_flags (flags h) topic in
  routing_parse e = Ok (with_flags f h) /\ metadata_parse (dropZ ROUTING_SIZE e) = Ok m /\
  extract_reply_topic f e = sent_topic topic /\ dropZ (envelope_payload_offset f e) e = payload /\
  has_reply_topic f = negb (bool_decide (sent_topic topic = [])).
Proof.
  intros Hh Hm Ev Em e f. subst e. rewrite build_full_envelope_layout by apply Hh.
  destruct (envelope_bytes_read h m topic payload Hh Hm) as (H1 & H2 & H3 & H4). rewrite Ev in H1. rewrite Em in H2.
  split_and!; [done.. |]. destruct (sent_flags_topic (flags h) topic) as [_ Hr]; [apply Hh |]. fold f in Hr. rewrite Hr. by destruct (sent_topic topic).
Qed.

Lemma envelope_roundtrip_witness :
  let h := mkRouting 1 1 2001 in
  let m := mkMetadata 2 3 77 2 900 42 1700000000000 in
  let e := build_full_envelope h m [99; 104; 97; 116] [1; 2; 3] in
  routing_parse e = Ok (mkRouting 1 2049 2001) /\ dropZ (envelope_payload_offset 2049 e) e = [1; 2; 3].
Proof.
  intros h m e. destruct (envelope_roundtrip h m [99; 104; 97; 116] [1; 2; 3]) as (H1 & _ & _ & H4 & _).
  - unfold wf_routing, in_width. cbn. lia.
  - unfold wf_metadata, in_width. cbn. lia.
  - reflexivity.
  - reflexivity.
  - split; [exact H1 | exact H4].
Defined.

(** C15: the builder that writes in place gives the bytes of [build_full_envelope]
    with the same fields, on the heap or in memory of the bump allocator whatever
    that memory held before; [build_into] fails exactly when the allocator does. *)
Theorem builder_matches_reference memory now_ms b alloc :
  in_width 16 (flags_ b) -> (forall p n, 0 <= n -> len (memory p n) = n) ->
  let reference := build_full_envelope (builder_routing b) (builder_metadata now_ms b) (reply_topic_ b) (payload_ b) in
  build now_ms b = reference /\
  let '(mem, alloc') := Arena.bump_allocate (total_size b) 1 alloc in
  build_into memory now_ms b alloc = (if mem =? 0 then None else Some (mem, reference), alloc').
Proof.
  intros Hf Hm reference. pose proof (total_size_layout now_ms b) as Ht. subst reference. rewrite build_full_envelope_layout by done.
  assert (0 <= total_size b) by (rewrite Ht; apply len_nonneg). split.
  - unfold build. apply serialize_into_layout. rewrite len_replicate. lia.
  - unfold build_into. destruct (Arena.bump_allocate (total_size b) 1 alloc) as [mem alloc']. destruct (mem =? 0); [done |].
    rewrite serialize_into_layout by (apply Hm; done). done.
Qed.

Lemma builder_matches_reference_witness :
  let b := payload [7; 8] (reply_topic [97] (metadata 1 2 3 4 5 (routing 1000 0 make_builder))) in
  build 17 b = build_full_envelope (mkRouting 1 0 1000) (mkMetadata 2 1 2 3 4 5 17) [97] [7; 8].
Proof.
  intros b. destruct (builder_matches_reference (λ _ n, replicate (Z.to_nat n) 255) 17 b (Arena.mkBump 0 0 0)) as [H _].
  - unfold in_width. cbn. lia.
  - intros p n Hn. rewrite len_replicate. lia.
  - exact H.
Defined.

Lemma build_layout now_ms b : build now_ms b = envelope_bytes (builder_routing b) (builder_metadata now_ms b) (reply_topic_ b) (payload_ b).
Proof.
  apply serialize_into_layout. rewrite len_replicate, (total_size_layout now_ms b). pose proof (len_nonneg (envelope_bytes (builder_routing b) (builder_metadata now_ms b) (reply_topic_ b) (payload_ b))). lia.
Qed.

Lemma envelope_bytes_len h m topic payload : (len (envelope_bytes h m topic payload) <? ENVELOPE_HEADER_SIZE) = false.
Proof.
  unfold envelope_bytes. rewrite !len_app, len_routing_bytes, len_metadata_bytes. pose proof (len_nonneg (topic_bytes (sent_topic topic))).
  pose proof (len_nonneg payload). apply Z.ltb_ge. unfold ENVELOPE_HEADER_SIZE, ROUTING_SIZE, METADATA_SIZE. lia.
Qed.

(** The payload offset never lies beyond a message that holds both headers. *)
Lemma payload_offset_le f data : ENVELOPE_HEADER_SIZE <= len data -> (len data <? envelope_payload_offset f data) = false.
Proof.
  intros H. apply Z.ltb_ge. unfold envelope_payload_offset. destruct (has_reply_topic f); [| done]. destruct (_ <=? len data); [| done].
  unfold topic_parse. destruct (_ <? 2); [done |]. destruct (Z.ltb_spec (len (dropZ ENVELOPE_HEADER_SIZE data)) (2 + ntoh16 (load16 (dropZ ENVELOPE_HEADER_SIZE data) 0))) as [| Hge]; [done |].
  rewrite len_dropZ in Hge. unfold ENVELOPE_HEADER_SIZE, ROUTING_SIZE, METADATA_SIZE in *. lia.
Qed.

Lemma dispatch_unfold handlers raw :
  dispatch (Some handlers) raw =
    if len raw <? ENVELOPE_HEADER_SIZE then Err ParseFailed
    else match routing_parse raw, metadata_parse (dropZ ROUTING_SIZE raw) with
         | Ok h, Ok m => match handlers !! msg_id h with
                         | Some handler => handler (to_meta m) (msg_id h) (dropZ (envelope_payload_offset (flags h) raw) raw)
                         | None => Err HandlerNotFound
                         end
         | _, _ => Err ParseFailed
         end.
Proof.
  unfold dispatch. destruct (_ <? _); [done |]. destruct (routing_parse raw) as [h | e]; [| done]. destruct (metadata_parse _) as [m | e]; [| done].
  destruct (handlers !! msg_id h); [| done].
  destruct (Z.ltb_spec (envelope_payload_offset (flags h) raw) (len raw)); [done |]. rewrite dropZ_all by done. done.
Qed.

(** A message built by the builder reaches the handler registered for its message
    id, with the metadata, id and payload it was built from; without a handler the
    dispatch reports [HandlerNotFound]. A message shorter than the two headers or of
    another header version is [ParseFailed] and reaches no handler. *)
Theorem kafka_dispatch_delivers handlers now_ms b :
  in_width 16 (flags_ b) -> in_width 32 (msg_id_ b) -> wf_metadata (builder_metadata now_ms b) ->
  dispatch (Some handlers) (build now_ms b) =
    match handlers !! msg_id_ b with
    | Some handler => handler (to_meta (builder_metadata now_ms b)) (msg_id_ b) (payload_ b)
    | None => Err HandlerNotFound
    end /\
  forall raw, dispatch (Some handlers) raw = Err ParseFailed \/
    (ENVELOPE_HEADER_SIZE <= len raw /\ exists h m, routing_parse raw = Ok h /\ metadata_parse (dropZ ROUTING_SIZE raw) = Ok m /\
       dispatch (Some handlers) raw = match handlers !! msg_id h with
         | Some handler => handler (to_meta m) (msg_id h) (dropZ (envelope_payload_offset (flags h) raw) raw)
         | None => Err HandlerNotFound
         end).
Proof.
  intros Hf Hi Hm. split.
  - assert (Hw : wf_routing (builder_routing b)) by (split_and!; done || (unfold in_width; cbn; lia)).
    rewrite dispatch_unfold, build_layout. set (e := envelope_bytes _ _ _ _).
    destruct (envelope_bytes_read _ _ (reply_topic_ b) (payload_ b) Hw Hm) as (H1 & H2 & _ & H4). fold e in H1, H2, H4.
    cbn [header_version builder_routing meta_version builder_metadata] in H1, H2. rewrite Z.eqb_refl in H1, H2. rewrite H1, H2. subst e. rewrite envelope_bytes_len. set (e := envelope_bytes _ _ _ _) in *.
    cbn [with_flags flags msg_id builder_routing] in *. rewrite H4. done.
  - intros raw. rewrite dispatch_unfold. destruct (Z.ltb_spec (len raw) ENVELOPE_HEADER_SIZE); [by left |].
    destruct (routing_parse raw) as [h | e]; [| by left]. destruct (metadata_parse _) as [m | e]; [| by left]. right. split; [done |].
    by exists h, m.
Qed.

Lemma kafka_dispatch_delivers_witness :
  let b := payload [7; 8] (reply_topic [97] (metadata 1 2 3 4 5 (routing 1000 0 make_builder))) in
  dispatch (Some {[ 1000 := λ m id p, if decide (p = [7; 8] /\ mm_user_id m = 5 /\ id = 1000) then Ok tt else Err AppError ]}) (build 17 b) = Ok tt.
Proof.
  intros b. destruct (kafka_dispatch_delivers {[ 1000 := λ m id p, if decide (p = [7; 8] /\ mm_user_id m = 5 /\ id = 1000) then Ok tt else Err AppError ]} 17 b) as [H _].
  - unfold in_width. cbn. lia.
  - unfold in_width. cbn. lia.
  - unfold wf_metadata, in_width. vm_compute. repeat split; first [reflexivity | discriminate].
  - rewrite H. reflexivity.
Defined.
