(* ===== verification/KafkaAdapter.v ===== *)
(** * The Kafka adapter

    [KafkaProducer], [KafkaConsumer] and [KafkaAdapter]
    (apex_shared/lib/adapters/kafka/src/kafka_producer.cpp, kafka_consumer.cpp and
    kafka_adapter.cpp): the settings given to librdkafka, the producer, the consumer's
    poll of messages with commit and dead-letter queue, the wake-up of a consumer
    through a pipe, and the callback that hands messages to a service.

    librdkafka is known by what it does at a call: whether it accepts a setting or a
    message is a parameter, and the queue of a consumer is part of the state. As
    documented for [rd_kafka_queue_io_event_enable], a byte is written to the pipe when
    a message is put into a queue that was empty. *)

From S2P Require Import Prelude Text ErrorCode KafkaEnvelope AdapterBase PayloadPool.
Import PayloadPool.
#[local] Open Scope Z_scope.

Module KafkaClient.

Abbreviation bytes := (list Z).

(** ** Settings *)

Record KafkaSecurityConfig : Type := mkSecurity {
  protocol : bytes;
  ssl_ca_location : bytes;
  ssl_cert_location : bytes;
  ssl_key_location : bytes;
  sasl_mechanism : bytes;
  sasl_username : bytes;
  sasl_password : bytes;
}.

Record KafkaConfig : Type := mkKafkaConfig {
  brokers : bytes;
  producer_batch_ms : Z;
  producer_batch_size : Z;
  compression_type : bytes;
  queue_buffering_max_messages : Z;
  consumer_group : bytes;
  consume_topics : list bytes;
  consumer_max_batch : Z;
  dlq_max_retries : Z;
  client_id : bytes;
  security : KafkaSecurityConfig;
  extra_properties : list (bytes * bytes);
}.

Definition conf : Type := gmap bytes bytes.

Section Librdkafka.
(** [rd_kafka_conf_set], [rd_kafka_new], [rd_kafka_subscribe] and [pipe]. *)
Context (accepts : bytes -> bytes -> bool) (creates : conf -> bool) (subscribes : list bytes -> bool) (pipe_ok : bool).

Definition conf_set (key : string) (val : bytes) (c : conf) : bool * conf :=
  if accepts (bytes_of key) (c_str val) then (true, <[bytes_of key := c_str val]> c) else (false, c).
(** A refusal is only logged. *)
Definition soft_set (key : string) (val : bytes) (c : conf) : conf := (conf_set key val c).2.
Definition sec_set (key : string) (val : bytes) (c : conf) : Result conf :=
  let '(done, c) := conf_set key val c in if done then Ok c else Err AdapterError.
Definition unless_empty (key : string) (val : bytes) (c : conf) : Result conf := match val with [] => Ok c | _ :: _ => sec_set key val c end.

Definition apply_security (sec : KafkaSecurityConfig) (c : conf) : Result conf :=
  try c <- if decide (protocol sec = bytes_of "PLAINTEXT") then Ok c else sec_set "security.protocol" (protocol sec) c;
  try c <- unless_empty "ssl.ca.location" (ssl_ca_location sec) c;
  try c <- unless_empty "ssl.certificate.location" (ssl_cert_location sec) c;
  try c <- unless_empty "ssl.key.location" (ssl_key_location sec) c;
  try c <- unless_empty "sasl.mechanism" (sasl_mechanism sec) c;
  try c <- unless_empty "sasl.username" (sasl_username sec) c;
  unless_empty "sasl.password" (sasl_password sec) c.

Definition apply_extra (extra : list (bytes * bytes)) (c : conf) : conf :=
  foldl (λ c kv, if accepts (c_str kv.1) (c_str kv.2) then <[c_str kv.1 := c_str kv.2]> c else c) c extra.

(** [KafkaProducer::init]: what librdkafka is given. *)
Definition producer_init (config : KafkaConfig) : Result conf :=
  let c := soft_set "bootstrap.servers" (brokers config) ∅ in
  let c := soft_set "client.id" (client_id config) c in
  let c := soft_set "linger.ms" (to_text (producer_batch_ms config)) c in
  let c := soft_set "batch.size" (to_text (producer_batch_size config)) c in
  let c := soft_set "compression.type" (compression_type config) c in
  let c := soft_set "queue.buffering.max.messages" (to_text (queue_buffering_max_messages config)) c in
  try c <- apply_security (security config) c;
  let c := apply_extra (extra_properties config) c in
  if creates c then Ok c else Err AdapterError.

(** [KafkaConsumer::init]. *)
Definition consumer_init (config : KafkaConfig) (core_id : Z) : Result conf :=
  let c := soft_set "bootstrap.servers" (brokers config) ∅ in
  let c := soft_set "group.id" (consumer_group config) c in
  let c := soft_set "client.id" (client_id config ++ bytes_of "-consumer-" ++ to_text core_id) c in
  let c := soft_set "auto.offset.reset" (bytes_of "earliest") c in
  let c := soft_set "enable.auto.commit" (bytes_of "false") c in
  try c <- apply_security (security config) c;
  let c := apply_extra (extra_properties config) c in
  if negb (creates c) then Err AdapterError
  else if match consume_topics config with [] => false | _ :: _ => negb (subscribes (consume_topics config)) end then Err AdapterError
  else if negb pipe_ok then Err AdapterError
  else Ok c.

(** [KafkaAdapter::do_init]; it throws when a client cannot be made. *)
Definition do_init (config : KafkaConfig) (num_cores : Z) : option (conf * list conf) :=
  match producer_init config with
  | Err _ => None
  | Ok p =>
      cs ← mapM (λ i, match consumer_init config (Z.of_nat i) with Ok c => Some c | Err _ => None end) (seq 0 (Z.to_nat num_cores));
      Some (p, cs)
  end.

End Librdkafka.

(** ** The producer *)

Record dead_letter : Type := mkRecord { r_topic : bytes; r_key : option bytes; r_payload : bytes }.

Record KafkaProducer : Type := mkProducer {
  initialized : bool;
  topic_cache_ : list (bytes * bytes); (** the name and the topic of the handle *)
  metric_produce_total_ : Z;
  metric_produce_errors_ : Z;
  outq : list dead_letter; (** what librdkafka has taken *)
  attempts : nat; (** calls of librdkafka so far *)
}.

(** Whether librdkafka gives a topic handle and takes a message, at each call. *)
Section Producing.
Context (topic_ok enqueue_ok : nat -> bool).

Definition get_or_create_topic (topic : bytes) (p : KafkaProducer) : option bytes * KafkaProducer :=
  match filter (λ e, e.1 = topic) (topic_cache_ p) with
  | e :: _ => (Some e.2, p)
  | [] =>
      if topic_ok (attempts p) then
        (Some (c_str topic), mkProducer (initialized p) (topic_cache_ p ++ [(topic, c_str topic)]) (metric_produce_total_ p) (metric_produce_errors_ p) (outq p) (attempts p))
      else (None, p)
  end.

Definition produce (topic key payload : bytes) (p : KafkaProducer) : Result unit * KafkaProducer :=
  if negb (initialized p) then (Err AdapterError, p)
  else
    let '(rkt, p) := get_or_create_topic topic p in
    let p' n q := mkProducer (initialized p) (topic_cache_ p) (metric_produce_total_ p) n q (S (attempts p)) in
    match rkt with
    | None => (Err AdapterError, p' (metric_produce_errors_ p) (outq p))
    | Some rkt =>
        if enqueue_ok (attempts p) then
          (Ok tt, p' (metric_produce_errors_ p) (outq p ++ [mkRecord rkt (match key with [] => None | _ :: _ => Some key end) payload]))
        else (Err AdapterError, p' (u64 (metric_produce_errors_ p + 1)) (outq p))
    end.

(** [KafkaAdapter::produce]. *)
Definition adapter_produce (state : Adapter.AdapterState) (topic key payload : bytes) (p : KafkaProducer) : Result unit * KafkaProducer :=
  if decide (state = Adapter.RUNNING) then produce topic key payload p else (Err AdapterError, p).

Definition delivery_report_cb (failed : bool) (p : KafkaProducer) : KafkaProducer :=
  mkProducer (initialized p) (topic_cache_ p) (if failed then metric_produce_total_ p else u64 (metric_produce_total_ p + 1))
    (if failed then u64 (metric_produce_errors_ p + 1) else metric_produce_errors_ p) (outq p) (attempts p).

(** ** The consumer *)

Inductive message_err : Type := NoError | PartitionEof | OtherError.
#[global] Instance message_err_eq_dec : EqDecision message_err.
Proof. solve_decision. Defined.

Record message : Type := mkMessage { m_err : message_err; m_topic : bytes; m_partition : Z; m_key : bytes; m_payload : bytes; m_offset : Z }.

(** What became of a message: the callback took it, the dead-letter queue took it,
    neither did, or there is no callback. *)
Inductive fate : Type := Accepted | DeadLettered | Stuck | Unwatched.
#[global] Instance fate_eq_dec : EqDecision fate.
Proof. solve_decision. Defined.

(** The state of the callback. *)
Context {C : Type}.
Definition MessageCallback : Type := message -> C -> Result unit * C.

Record KafkaConsumer : Type := mkConsumer {
  consuming_ : bool;
  message_cb_ : option MessageCallback;
  cb_state : C;
  producer_ : option KafkaProducer;
  metric_consume_total_ : Z;
  metric_dlq_total_ : Z;
  queue : list message; (** of librdkafka *)
  pipe_bytes : nat;
  waits : nat; (** [async_wait]s pending on the pipe *)
  commits : list message; (** [rd_kafka_commit_message] *)
  polled : list message; (** messages without error, as polled *)
  fates : list fate;
}.

Context (config : KafkaConfig).

Definition with_queue (q : list message) (c : KafkaConsumer) : KafkaConsumer :=
  mkConsumer (consuming_ c) (message_cb_ c) (cb_state c) (producer_ c) (metric_consume_total_ c) (metric_dlq_total_ c) q (pipe_bytes c) (waits c) (commits c) (polled c) (fates c).
Definition with_producer (p : option KafkaProducer) (c : KafkaConsumer) : KafkaConsumer :=
  mkConsumer (consuming_ c) (message_cb_ c) (cb_state c) p (metric_consume_total_ c) (metric_dlq_total_ c) (queue c) (pipe_bytes c) (waits c) (commits c) (polled c) (fates c).
Definition with_cb_state (x : C) (c : KafkaConsumer) : KafkaConsumer :=
  mkConsumer (consuming_ c) (message_cb_ c) x (producer_ c) (metric_consume_total_ c) (metric_dlq_total_ c) (queue c) (pipe_bytes c) (waits c) (commits c) (polled c) (fates c).
Definition with_io (running : bool) (b w : nat) (c : KafkaConsumer) : KafkaConsumer :=
  mkConsumer running (message_cb_ c) (cb_state c) (producer_ c) (metric_consume_total_ c) (metric_dlq_total_ c) (queue c) b w (commits c) (polled c) (fates c).
Definition with_metrics (consumed dlq : Z) (c : KafkaConsumer) : KafkaConsumer :=
  mkConsumer (consuming_ c) (message_cb_ c) (cb_state c) (producer_ c) consumed dlq (queue c) (pipe_bytes c) (waits c) (commits c) (polled c) (fates c).
Definition commit_offset (m : message) (c : KafkaConsumer) : KafkaConsumer :=
  mkConsumer (consuming_ c) (message_cb_ c) (cb_state c) (producer_ c) (metric_consume_total_ c) (metric_dlq_total_ c) (queue c) (pipe_bytes c) (waits c) (commits c ++ [m]) (polled c) (fates c).
Definition record_fate (m : message) (f : fate) (c : KafkaConsumer) : KafkaConsumer :=
  mkConsumer (consuming_ c) (message_cb_ c) (cb_state c) (producer_ c) (metric_consume_total_ c) (metric_dlq_total_ c) (queue c) (pipe_bytes c) (waits c) (commits c) (polled c ++ [m]) (fates c ++ [f]).

Definition dlq_topic (m : message) : bytes := m_topic m ++ bytes_of "-dlq".

Fixpoint dlq_attempts (n : nat) (m : message) (p : KafkaProducer) : bool * KafkaProducer :=
  match n with
  | O => (false, p)
  | S n => match produce (dlq_topic m) (m_key m) (m_payload m) p with (Ok _, p) => (true, p) | (Err _, p) => dlq_attempts n m p end
  end.
Definition produce_to_dlq (m : message) (p : KafkaProducer) : bool * KafkaProducer := dlq_attempts (Z.to_nat (dlq_max_retries config)) m p.

(** A turn of the loop of [poll_messages], on a message without error. *)
Definition process_message (m : message) (c : KafkaConsumer) : KafkaConsumer :=
  let c :=
    match message_cb_ c with
    | None => record_fate m Unwatched (commit_offset m c)
    | Some cb =>
        let '(result, x) := cb m (cb_state c) in
        let c := with_cb_state x c in
        match result, producer_ c with
        | Ok _, _ => record_fate m Accepted (commit_offset m c)
        | Err _, None => record_fate m Stuck c
        | Err _, Some p =>
            let '(sent, p) := produce_to_dlq m p in
            let c := with_metrics (metric_consume_total_ c) (u64 (metric_dlq_total_ c + 1)) (with_producer (Some p) c) in
            if sent then record_fate m DeadLettered (commit_offset m c) else record_fate m Stuck c
        end
    end in
  with_metrics (u64 (metric_consume_total_ c + 1)) (metric_dlq_total_ c) c.

Fixpoint poll_batch (n : nat) (c : KafkaConsumer) : KafkaConsumer :=
  match n, queue c with
  | S n, m :: q =>
      let c := with_queue q c in
      poll_batch n (match m_err m with NoError => process_message m c | PartitionEof | OtherError => c end)
  | _, _ => c
  end.

Definition poll_messages (c : KafkaConsumer) : KafkaConsumer := if consuming_ c then poll_batch (Z.to_nat (consumer_max_batch config)) c else c.

Definition schedule_async_wait (c : KafkaConsumer) : KafkaConsumer := if consuming_ c then with_io (consuming_ c) (pipe_bytes c) (S (waits c)) c else c.
Definition start_consuming (c : KafkaConsumer) : KafkaConsumer := schedule_async_wait (with_io true (pipe_bytes c) (waits c) c).
Definition stop_consuming (c : KafkaConsumer) : KafkaConsumer := with_io false (pipe_bytes c) 0 c.
Definition set_message_callback (cb : MessageCallback) (c : KafkaConsumer) : KafkaConsumer :=
  mkConsumer (consuming_ c) (Some cb) (cb_state c) (producer_ c) (metric_consume_total_ c) (metric_dlq_total_ c) (queue c) (pipe_bytes c) (waits c) (commits c) (polled c) (fates c).

(** [KafkaAdapter::do_drain] and [KafkaAdapter::set_message_callback]. *)
Definition do_drain (consumers : list KafkaConsumer) : list KafkaConsumer := stop_consuming <$> consumers.
Definition set_callbacks (cb : MessageCallback) (consumers : list KafkaConsumer) : list KafkaConsumer := set_message_callback cb <$> consumers.

(** The handler of the wait. *)
Definition on_readable (c : KafkaConsumer) : KafkaConsumer :=
  if consuming_ c then schedule_async_wait (poll_messages (with_io (consuming_ c) (pipe_bytes c - 64) (waits c) c)) else c.

(** ** Schedules *)

(** The producer is shared: other threads produce in between. *)
Inductive event : Type := Deliver (m : message) | Readable | Start | Stop | Produce (topic key payload : bytes).

Definition exec (e : event) (c : KafkaConsumer) : option KafkaConsumer :=
  match e with
  | Deliver m => Some (with_queue (queue c ++ [m]) (with_io (consuming_ c) (match queue c with [] => S (pipe_bytes c) | _ :: _ => pipe_bytes c end) (waits c) c))
  | Readable =>
      match waits c, pipe_bytes c with
      | S w, S _ => Some (on_readable (with_io (consuming_ c) (pipe_bytes c) w c))
      | _, _ => None
      end
  | Start => Some (start_consuming c)
  | Stop => Some (stop_consuming c)
  | Produce topic key payload => Some (with_producer (match producer_ c with Some p => Some (produce topic key payload p).2 | None => None end) c)
  end.
Fixpoint exec_all (es : list event) (c : KafkaConsumer) : option KafkaConsumer :=
  match es with [] => Some c | e :: es => c ← exec e c; exec_all es c end.

End Producing.
Arguments KafkaConsumer : clear implicits.

(** ** The callback of a service *)

(** The pool, and the coroutines spawned on core 0 that have not ended: each holds the
    buffer with the payload. *)
Definition wiring : Type := ConsumerPayloadPool * holdings.

(** [KafkaAdapter::do_wire_services] gives this callback to every consumer. *)
Definition request_topic (config : KafkaConfig) : bytes := match consume_topics config with t :: _ => t | [] => [] end.
Definition is_request (config : KafkaConfig) (m : message) : bool := match request_topic config with [] => true | t => bool_decide (m_topic m = t) end.
Definition wired_callback (config : KafkaConfig) : @MessageCallback wiring :=
  λ m '(pool, spawned),
    if negb (is_request config m) then (Ok tt, (pool, spawned))
    else let '(buf, pool) := acquire (m_payload m) pool in (Ok tt, (pool, spawned ++ [(buf, m_payload m)])).
Definition do_wire_services {C} (cb : @MessageCallback C) (services : list (gmap Z Kafka.Handler)) (consumers : list (KafkaConsumer C)) : list (KafkaConsumer C) :=
  match filter (λ handlers, handlers <> ∅) services with
  | _ :: _ => set_callbacks cb consumers
  | [] => consumers
  end.

(** A spawned coroutine runs to its end: the bridge reads the buffer, and the last
    reference to it is dropped. *)
Definition run_spawned (handlers : gmap Z Kafka.Handler) (i : nat) (w : wiring) : outcome (option (Result unit) * wiring) :=
  let '(pool, spawned) := w in
  match spawned !! i with
  | None => Returns (None, w)
  | Some (buf, _) =>
      match buffers pool !! buf with
      | None => Throws undefined_behaviour
      | Some data => run pool <- release buf pool; Returns (Some (Kafka.dispatch (Some handlers) data), (pool, delete i spawned))
      end
  end.

(** Messages come and coroutines end in any order; the results are kept. *)
Inductive wired_event : Type := Message (m : message) | Finish (i : nat).
Definition wired_step (config : KafkaConfig) (handlers : gmap Z Kafka.Handler) (e : wired_event) (x : wiring * list (Result unit)) : outcome (wiring * list (Result unit)) :=
  let '(w, results) := x in
  match e with
  | Message m => Returns ((wired_callback config m w).2, results)
  | Finish i => run r <- run_spawned handlers i w; Returns (r.2, results ++ option_list r.1)
  end.
Fixpoint wired_run (config : KafkaConfig) (handlers : gmap Z Kafka.Handler) (es : list wired_event) (x : wiring * list (Result unit)) : outcome (wiring * list (Result unit)) :=
  match es with [] => Returns x | e :: es => run x <- wired_step config handlers e x; wired_run config handlers es x end.

End KafkaClient.
Import KafkaClient.

(** ** Security settings are in force or nothing runs *)

(** The settings a configuration asks for. *)
Definition asked (key : string) (val : bytes) : list (bytes * bytes) := match val with [] => [] | _ :: _ => [(bytes_of key, val)] end.
Definition security_settings (sec : KafkaSecurityConfig) : list (bytes * bytes) :=
  (if decide (protocol sec = bytes_of "PLAINTEXT") then [] else [(bytes_of "security.protocol", protocol sec)]) ++
  asked "ssl.ca.location" (ssl_ca_location sec) ++ asked "ssl.certificate.location" (ssl_cert_location sec) ++ asked "ssl.key.location" (ssl_key_location sec) ++
  asked "sasl.mechanism" (sasl_mechanism sec) ++ asked "sasl.username" (sasl_username sec) ++ asked "sasl.password" (sasl_password sec).

Section Settings.
Context (accepts : bytes -> bytes -> bool) (creates : conf -> bool) (subscribes : list bytes -> bool) (pipe_ok : bool).

Fixpoint apply_all (kvs : list (bytes * bytes)) (c : conf) : Result conf :=
  match kvs with [] => Ok c | (k, v) :: kvs => if accepts k (c_str v) then apply_all kvs (<[k := c_str v]> c) else Err AdapterError end.

Lemma apply_all_app l l' c : apply_all (l ++ l') c = expected_bind (apply_all l c) (apply_all l').
Proof. revert c. induction l as [| [k v] l IH]; intros c; [done |]. cbn. by destruct (accepts k (c_str v)). Qed.

Lemma unless_empty_all key val c : unless_empty accepts key val c = apply_all (asked key val) c.
Proof. destruct val; [done |]. unfold unless_empty, sec_set, conf_set, asked. cbn [apply_all]. by destruct (accepts _ _). Qed.

Lemma bind_cong (r r' : Result conf) (k k' : conf -> Result conf) : r = r' -> (forall c, k c = k' c) -> expected_bind r k = expected_bind r' k'.
Proof. intros -> Hk. destruct r'; [apply Hk | done]. Qed.

Lemma apply_security_all sec c : apply_security accepts sec c = apply_all (security_settings sec) c.
Proof.
  unfold apply_security, security_settings. rewrite apply_all_app. apply bind_cong.
  { destruct (decide _) as [_ | _]; [done |]. unfold sec_set, conf_set. cbn [apply_all]. by destruct (accepts _ _). }
  intros c1. do 5 (rewrite apply_all_app; apply bind_cong; [apply unless_empty_all | clear; intros c1]). apply unless_empty_all.
Qed.

Lemma apply_all_other kvs c c' k : apply_all kvs c = Ok c' -> k ∉ kvs.*1 -> c' !! k = c !! k.
Proof.
  revert c. induction kvs as [| [k' v'] kvs IH]; intros c; cbn; [by intros [= ->] |]. destruct (accepts k' _); [| done]. intros E [Hk Hn]%not_elem_of_cons.
  rewrite (IH _ E Hn). by apply lookup_insert_ne.
Qed.

Lemma apply_all_set kvs c c' k v : apply_all kvs c = Ok c' -> NoDup kvs.*1 -> (k, v) ∈ kvs -> c' !! k = Some (c_str v).
Proof.
  revert c. induction kvs as [| [k' v'] kvs IH]; intros c; cbn; [by intros _ _ ?%elem_of_nil |]. destruct (accepts k' _); [| done]. intros E [Hn Hd]%NoDup_cons [[= -> ->] | Hin]%elem_of_cons.
  - rewrite (apply_all_other _ _ _ _ E Hn). apply lookup_insert_eq.
  - by eapply IH.
Qed.

Lemma apply_all_refused kvs c k v : (k, v) ∈ kvs -> accepts k (c_str v) = false -> apply_all kvs c = Err AdapterError.
Proof.
  intros Hin Hr. revert c. induction kvs as [| [k' v'] kvs IH]; intros c; [by apply elem_of_nil in Hin |]. cbn. apply elem_of_cons in Hin as [[= -> ->] | Hin]; [by rewrite Hr |].
  destruct (accepts k' _); [by apply IH | done].
Qed.

Lemma asked_keys key val : (asked key val).*1 `sublist_of` [bytes_of key].
Proof. destruct val; [apply sublist_nil_l | done]. Qed.

Lemma security_keys sec : NoDup (security_settings sec).*1 /\ bytes_of "enable.auto.commit" ∉ (security_settings sec).*1.
Proof.
  assert (Hsub : (security_settings sec).*1 `sublist_of`
    (bytes_of <$> ["security.protocol"; "ssl.ca.location"; "ssl.certificate.location"; "ssl.key.location"; "sasl.mechanism"; "sasl.username"; "sasl.password"]%string)).
  { unfold security_settings. rewrite !fmap_app. apply (sublist_app _ [_]); [destruct (decide _); [apply sublist_nil_l | done] |].
    do 5 (apply (sublist_app _ [_]); [apply asked_keys |]). apply asked_keys. }
  split.
  - eapply sublist_NoDup; [| exact Hsub]. by apply (bool_decide_unpack _).
  - intros Hin. eapply (elem_of_sublist) in Hin; [| exact Hsub]. revert Hin. by apply (bool_decide_unpack _).
Qed.

Lemma apply_extra_other extra c k : k ∉ (λ kv : bytes * bytes, c_str kv.1) <$> extra -> apply_extra accepts extra c !! k = c !! k.
Proof.
  unfold apply_extra. revert c. induction extra as [| [k' v'] extra IH]; intros c; [done |]. cbn. intros [Hk Hn]%not_elem_of_cons. rewrite IH by done.
  destruct (accepts _ _); [by apply lookup_insert_ne | done].
Qed.

Abbreviation producer_init := (producer_init accepts creates).
Abbreviation consumer_init := (consumer_init accepts creates subscribes pipe_ok).
Abbreviation do_init := (do_init accepts creates subscribes pipe_ok).

(** Both clients end with the security settings and then the extra ones. *)
Lemma producer_init_settings config c : producer_init config = Ok c ->
  exists c0 c1, apply_all (security_settings (security config)) c0 = Ok c1 /\ c = apply_extra accepts (extra_properties config) c1.
Proof.
  unfold KafkaClient.producer_init. rewrite apply_security_all. destruct (apply_all _ _) as [c1 |] eqn:E; [cbn [expected_bind] | done]. destruct (creates _); [| done]. intros [= <-]. by eexists _, c1.
Qed.

Lemma consumer_init_settings config i c : consumer_init config i = Ok c ->
  exists c0 c1, apply_all (security_settings (security config)) c0 = Ok c1 /\ c = apply_extra accepts (extra_properties config) c1 /\
    (accepts (bytes_of "enable.auto.commit") (bytes_of "false") = true -> c0 !! bytes_of "enable.auto.commit" = Some (bytes_of "false")).
Proof.
  unfold KafkaClient.consumer_init. rewrite apply_security_all. destruct (apply_all _ _) as [c1 |] eqn:E; [cbn [expected_bind] | done].
  destruct (creates _), (match consume_topics config with [] => false | _ :: _ => _ end), pipe_ok; try done. cbn [negb]. intros [= <-]. eexists _, c1. split_and!; [exact E | done |].
  intros Ha. unfold soft_set at 1, conf_set. change (c_str (bytes_of "false")) with (bytes_of "false"). rewrite Ha. apply lookup_insert_eq.
Qed.

Lemma do_init_clients config n p cs : do_init config n = Some (p, cs) -> producer_init config = Ok p /\ forall c, c ∈ cs -> exists i, consumer_init config i = Ok c.
Proof.
  unfold KafkaClient.do_init. destruct (producer_init config) as [p' |]; [| done]. destruct (mapM _ _) as [cs' |] eqn:E; [cbn | done]. intros [= -> ->]. split; [done |].
  apply mapM_Some in E. intros c Hc. apply list_elem_of_lookup in Hc as [i Hi]. destruct (Forall2_lookup_r _ _ _ _ _ E Hi) as (j & _ & Hj).
  exists (Z.of_nat j). destruct (consumer_init config (Z.of_nat j)); congruence.
Qed.

(** C29: when the adapter starts, every security setting that the configuration asks for
    is in force in the producer and in the consumer of each core, short of one that an
    extra property sets anew, and the consumers commit by hand; when librdkafka
    refuses a security setting, no client is made at all and the adapter does not
    start. *)
Theorem security_in_force config n :
  (forall p cs k v, do_init config n = Some (p, cs) -> (k, v) ∈ security_settings (security config) -> k ∉ (λ kv : bytes * bytes, c_str kv.1) <$> extra_properties config ->
     Forall (λ c : conf, c !! k = Some (c_str v)) (p :: cs)) /\
  (forall p cs, do_init config n = Some (p, cs) -> bytes_of "enable.auto.commit" ∉ (λ kv : bytes * bytes, c_str kv.1) <$> extra_properties config ->
     accepts (bytes_of "enable.auto.commit") (bytes_of "false") = true -> Forall (λ c : conf, c !! bytes_of "enable.auto.commit" = Some (bytes_of "false")) cs) /\
  (forall k v, (k, v) ∈ security_settings (security config) -> accepts k (c_str v) = false ->
     producer_init config = Err AdapterError /\ (forall i, consumer_init config i = Err AdapterError) /\ do_init config n = None).
Proof.
  destruct (security_keys (security config)) as [Hd Ha]. split_and!.
  - intros p cs k v E Hin Hx. destruct (do_init_clients _ _ _ _ E) as [Hp Hc]. constructor.
    + destruct (producer_init_settings _ _ Hp) as (c0 & c1 & E1 & ->). rewrite apply_extra_other by done. by eapply apply_all_set.
    + apply Forall_forall. intros c [i Hi]%Hc. destruct (consumer_init_settings _ _ _ Hi) as (c0 & c1 & E1 & -> & _). rewrite apply_extra_other by done. by eapply apply_all_set.
  - intros p cs E Hx Hok. destruct (do_init_clients _ _ _ _ E) as [_ Hc]. apply Forall_forall. intros c [i Hi]%Hc.
    destruct (consumer_init_settings _ _ _ Hi) as (c0 & c1 & E1 & -> & H0). rewrite apply_extra_other by done. rewrite (apply_all_other _ _ _ _ E1 Ha). by apply H0.
  - intros k v Hin Hr. assert (Hp : producer_init config = Err AdapterError) by (unfold KafkaClient.producer_init; by rewrite apply_security_all, (apply_all_refused _ _ k v)).
    split_and!; [done | | unfold KafkaClient.do_init; by rewrite Hp]. intros i. unfold KafkaClient.consumer_init. by rewrite apply_security_all, (apply_all_refused _ _ k v).
Qed.

End Settings.

(** ** Every message is settled or delivered again *)

Lemma last_filter_spec {A} (P : A -> Prop) `{!forall x, Decision (P x)} (l : list A) :
  match last (filter P l) with
  | Some x => exists j, l !! j = Some x /\ P x /\ forall k y, (j < k)%nat -> l !! k = Some y -> ~ P y
  | None => forall k y, l !! k = Some y -> ~ P y
  end.
Proof.
  induction l as [| x l IH] using rev_ind; [done |]. rewrite filter_app, filter_cons, filter_nil. destruct (decide (P x)) as [HP | HP].
  - rewrite last_snoc. exists (length l). split; [by rewrite list_lookup_middle |]. split; [done |]. intros k y Hk Hy. apply lookup_lt_Some in Hy. rewrite length_app in Hy. cbn in Hy. lia.
  - rewrite app_nil_r. destruct (last (filter P l)) as [z |].
    + destruct IH as (j & Hj & Hz & Hn). exists j. split; [by apply lookup_app_l_Some |]. split; [done |].
      intros k y Hk [Hy | [Hlen Hy]]%lookup_app_Some; [by eapply Hn |]. apply list_lookup_singleton_Some in Hy as [_ <-]. done.
    + intros k y [Hy | [Hlen Hy]]%lookup_app_Some; [by eapply IH |]. apply list_lookup_singleton_Some in Hy as [_ <-]. done.
Qed.

Lemma filter_fmap {A B} (f : A -> B) (P : B -> Prop) `{!forall x, Decision (P x)} (l : list A) : filter P (f <$> l) = f <$> filter (λ x, P (f x)) l.
Proof. induction l as [| x l IH]; [done |]. rewrite fmap_cons, !filter_cons. destruct (decide (P (f x))); cbn; by rewrite IH. Qed.

Section Consumer.
Context (topic_ok enqueue_ok : nat -> bool) {C : Type} (config : KafkaConfig) (cb : @MessageCallback C) (x0 : C).

Abbreviation exec := (exec topic_ok enqueue_ok config).
Abbreviation exec_all := (exec_all topic_ok enqueue_ok config).
Abbreviation process_message := (process_message topic_ok enqueue_ok config).

(** What the callback answers to the messages, one after the other. *)
Fixpoint answers (x : C) (ms : list message) : list (Result unit) * C :=
  match ms with [] => ([], x) | m :: ms => let '(r, x) := cb m x in let '(rs, x) := answers x ms in (r :: rs, x) end.

Lemma answers_snoc x ms m : answers x (ms ++ [m]) = let '(rs, y) := answers x ms in let '(r, z) := cb m y in (rs ++ [r], z).
Proof.
  revert x. induction ms as [| n ms IH]; intros x; cbn; [by destruct (cb m x) |]. destruct (cb n x) as [r y]. rewrite IH. destruct (answers y ms) as [rs z]. by destruct (cb m z).
Qed.

Definition answered (f : fate) (r : Result unit) : Prop :=
  match f, r with Accepted, Ok _ | DeadLettered, Err _ | Stuck, Err _ => True | _, _ => False end.

(** The message as the dead-letter queue gets it. *)
Definition dlq_record (m : message) : dead_letter := mkRecord (c_str (dlq_topic m)) (match m_key m with [] => None | _ :: _ => Some (m_key m) end) (m_payload m).

Definition cache_ok (p : KafkaProducer) : Prop := Forall (λ e, e.2 = c_str e.1) (topic_cache_ p).

Record consumed (c : KafkaConsumer C) : Prop := mkConsumed {
  in_cb : message_cb_ c = Some cb;
  in_len : length (fates c) = length (polled c);
  in_state : cb_state c = (answers x0 (polled c)).2;
  in_fates : Forall2 answered (fates c) (answers x0 (polled c)).1;
  in_commits : commits c = (filter (λ x, x.2 <> Stuck) (zip (polled c) (fates c))).*1;
  in_dlq : forall i m, fates c !! i = Some DeadLettered -> polled c !! i = Some m -> exists p, producer_ c = Some p /\ dlq_record m ∈ outq p;
  in_cache : match producer_ c with Some p => cache_ok p | None => True end;
}.

Lemma produce_spec topic key payload p r p' : produce topic_ok enqueue_ok topic key payload p = (r, p') -> cache_ok p ->
  cache_ok p' /\ outq p ⊆ outq p' /\ (r = Ok tt -> mkRecord (c_str topic) (match key with [] => None | _ :: _ => Some key end) payload ∈ outq p').
Proof.
  unfold produce. intros E Hc. destruct (initialized p); [cbn in E | by injection E as <- <-].
  assert (Ht : let '(rkt, p1) := get_or_create_topic topic_ok topic p in cache_ok p1 /\ outq p1 = outq p /\ match rkt with Some t => t = c_str topic | None => True end).
  { unfold get_or_create_topic. destruct (filter _ _) as [| e es] eqn:Ef.
    - destruct (topic_ok _); [| done]. cbn. split; [| done]. apply Forall_app. split; [done |]. by constructor.
    - split; [done |]. split; [done |]. assert (He : e ∈ filter (λ e, e.1 = topic) (topic_cache_ p)) by (rewrite Ef; left). apply list_elem_of_filter in He as [<- He].
      unfold cache_ok in Hc. rewrite Forall_forall in Hc. by apply Hc. }
  destruct (get_or_create_topic topic_ok topic p) as [rkt p1]. destruct Ht as (Hc1 & Hq & Ht). destruct rkt as [t |]; [subst t | injection E as <- <-; cbn; rewrite Hq; done].
  destruct (enqueue_ok _); injection E as <- <-; cbn; rewrite Hq; (split_and!; [done | set_solver |]); [| done]. intros _. apply elem_of_app. right. by left.
Qed.

Lemma dlq_attempts_spec n m p b p' : dlq_attempts topic_ok enqueue_ok n m p = (b, p') -> cache_ok p -> cache_ok p' /\ outq p ⊆ outq p' /\ (b = true -> dlq_record m ∈ outq p').
Proof.
  revert p. induction n as [| n IH]; intros p; cbn; [by intros [= <- <-] |]. destruct (produce _ _ _ _ _ p) as [r p1] eqn:E. intros E' Hc.
  destruct (produce_spec _ _ _ _ _ _ E Hc) as (Hc1 & Hs1 & Hr). destruct r as [[] |].
  - injection E' as <- <-. split_and!; [done | done |]. intros _. by apply Hr.
  - destruct (IH _ E' Hc1) as (Hc2 & Hs2 & Hr2). split_and!; [done | by etrans | done].
Qed.

Definition sent (c : KafkaConsumer C) (m : message) : Prop := exists p, producer_ c = Some p /\ dlq_record m ∈ outq p.

Lemma consumed_snoc c c' m f r x : consumed c -> cb m (cb_state c) = (r, x) -> answered f r ->
  message_cb_ c' = message_cb_ c -> polled c' = polled c ++ [m] -> fates c' = fates c ++ [f] -> cb_state c' = x -> commits c' = commits c ++ (if decide (f = Stuck) then [] else [m]) ->
  (forall m', sent c m' -> sent c' m') -> (f = DeadLettered -> sent c' m) -> match producer_ c' with Some p => cache_ok p | None => True end ->
  consumed c'.
Proof.
  intros [Hcb Hl Hs Hf Hc Hd _] Ecb Ha E1 E2 E3 E4 E5 Hsent Hnew Hcache. rewrite Hs in Ecb.
  assert (Han : answers x0 (polled c ++ [m]) = ((answers x0 (polled c)).1 ++ [r], x)) by (rewrite answers_snoc; destruct (answers x0 (polled c)) as [rs y]; cbn in *; by rewrite Ecb).
  constructor; rewrite ?E2, ?E3, ?Han; [by rewrite E1 | rewrite !length_app; cbn; lia | done | apply Forall2_app; [done | by constructor] | | | done].
  - rewrite E5, zip_with_app, filter_app, fmap_app, <- Hc by done. change (zip_with pair [m] [f]) with [(m, f)]. rewrite filter_cons, filter_nil. cbn [snd]. destruct (decide (f = Stuck)), (decide (f <> Stuck)); done.
  - intros i m' Hi Hm. apply lookup_app_Some in Hi as [Hi | [Hi Hi']].
    + rewrite lookup_app_l in Hm by (apply lookup_lt_Some in Hi; lia). apply Hsent. by eapply Hd.
    + apply list_lookup_singleton_Some in Hi' as [Hi' ->]. rewrite lookup_app_r in Hm by lia. apply list_lookup_singleton_Some in Hm as [_ <-]. by apply Hnew.
Qed.

Lemma process_consumed m c : consumed c -> consumed (process_message m c).
Proof.
  intros Hc. pose proof (in_cb _ Hc) as Hcb. pose proof (in_cache _ Hc) as Hca. unfold KafkaClient.process_message. rewrite Hcb. destruct (cb m (cb_state c)) as [r x] eqn:E.
  destruct r as [[] | e]; [by apply (consumed_snoc c _ m Accepted (Ok tt) x); cbn |].
  cbn [producer_ with_cb_state]. destruct (producer_ c) as [p |] eqn:Ep; [| apply (consumed_snoc c _ m Stuck (Err e) x); cbn; rewrite ?app_nil_r, ?Ep; try done; intros m' (p & ? & _); congruence].
  unfold produce_to_dlq. destruct (dlq_attempts _ _ _ m p) as [b p'] eqn:Ed. destruct (dlq_attempts_spec _ _ _ _ _ Ed Hca) as (Hca' & Hs & Hb).
  assert (Hsent : forall c', producer_ c' = Some p' -> forall m', sent c m' -> sent c' m').
  { intros c' E' m' (q & Eq & Hq). exists p'. split; [done |]. apply Hs. congruence. }
  destruct b.
  - apply (consumed_snoc c _ m DeadLettered (Err e) x); cbn; try done; [by apply Hsent |]. intros _. exists p'. split; [done | by apply Hb].
  - apply (consumed_snoc c _ m Stuck (Err e) x); cbn; rewrite ?app_nil_r; try done. by apply Hsent.
Qed.

(** Nothing else touches what has been consumed. *)
Definition same_record (c c' : KafkaConsumer C) : Prop :=
  message_cb_ c' = message_cb_ c /\ cb_state c' = cb_state c /\ producer_ c' = producer_ c /\ commits c' = commits c /\ polled c' = polled c /\ fates c' = fates c.
Lemma consumed_same c c' : same_record c c' -> consumed c -> consumed c'.
Proof. intros (E1 & E2 & E3 & E4 & E5 & E6) [? ? ? ? ? ? ?]. constructor; rewrite ?E1, ?E2, ?E3, ?E4, ?E5, ?E6; done. Qed.

Lemma poll_consumed n c : consumed c -> consumed (poll_batch topic_ok enqueue_ok config n c).
Proof.
  revert c. induction n as [| n IH]; intros c Hc; [done |]. cbn. destruct (queue c) as [| m q]; [done |]. apply IH.
  assert (consumed (with_queue q c)) by (by apply (consumed_same c)). destruct (m_err m); [by apply process_consumed | done | done].
Qed.

Lemma exec_consumed e c c' : exec e c = Some c' -> consumed c -> consumed c'.
Proof.
  destruct e; cbn; intros E Hc.
  - injection E as <-. by apply (consumed_same c).
  - destruct (waits c) as [| w]; [done |]. destruct (pipe_bytes c) as [| b] eqn:Eb; [done |]. injection E as <-. unfold on_readable. cbn.
    destruct (consuming_ c) eqn:Er; [| by apply (consumed_same c)].
    set (c1 := with_io _ _ _ _). assert (consumed c1) as H1 by (by apply (consumed_same c)). unfold schedule_async_wait, poll_messages. cbn.
    assert (Hp : consumed (poll_batch topic_ok enqueue_ok config (Z.to_nat (consumer_max_batch config)) c1)) by (by apply poll_consumed).
    destruct (consuming_ (poll_batch _ _ _ _ _)); [| done]. by eapply consumed_same; [| exact Hp].
  - injection E as <-. by apply (consumed_same c).
  - injection E as <-. by apply (consumed_same c).
  - injection E as <-. destruct Hc as [? ? ? ? ? Hd Hca]. destruct (producer_ c) as [p |] eqn:Ep; [| by constructor].
    destruct (produce topic_ok enqueue_ok topic key payload p) as [r p'] eqn:Epr. destruct (produce_spec _ _ _ _ _ _ Epr Hca) as (Hca' & Hs & _).
    constructor; try done. intros i m Hi Hm. destruct (Hd i m Hi Hm) as (q & [= <-] & Hq). exists p'. split; [done | by apply Hs].
Qed.

Lemma exec_all_consumed es c c' : exec_all es c = Some c' -> consumed c -> consumed c'.
Proof.
  revert c. induction es as [| e es IH]; intros c; cbn; [by intros [= ->] |]. destruct (exec e c) as [c1 |] eqn:E; [cbn | done]. intros E' Hc. eapply IH; [done |]. by eapply exec_consumed.
Qed.

(** What the broker does after a crash: it delivers a partition again from the offset
    after the last one committed. *)
Definition partition_of (m : message) : bytes * Z := (m_topic m, m_partition m).
Definition resume (tp : bytes * Z) (cs : list message) : option Z := (λ m, m_offset m + 1) <$> last (filter (λ m, partition_of m = tp) cs).
Definition redelivered (c : KafkaConsumer C) (m : message) : Prop := match resume (partition_of m) (commits c) with Some o => o <= m_offset m | None => True end.

(** The messages that librdkafka has received so far. *)
Definition delivered (c : KafkaConsumer C) : list message := polled c ++ filter (λ m, m_err m = NoError) (queue c).

Definition in_order (ms : list message) : Prop :=
  forall i j m m', (i < j)%nat -> ms !! i = Some m -> ms !! j = Some m' -> partition_of m = partition_of m' -> m_offset m < m_offset m'.

(** The committed messages of a partition are where they were polled. *)
Lemma redelivered_iff c i m : consumed c -> in_order (delivered c) -> delivered c !! i = Some m ->
  (forall f, fates c !! i = Some f -> f = Stuck) ->
  redelivered c m <-> forall j m' f, (i < j)%nat -> polled c !! j = Some m' -> fates c !! j = Some f -> partition_of m' = partition_of m -> f = Stuck.
Proof.
  intros Hc Ho Hm Hst. unfold redelivered, resume. rewrite (in_commits _ Hc), filter_fmap, list_filter_filter, fmap_last.
  assert (Hz : forall j x, zip (polled c) (fates c) !! j = Some x <-> polled c !! j = Some x.1 /\ fates c !! j = Some x.2).
  { intros j [y f]. rewrite lookup_zip_with_Some. cbn. naive_solver. }
  pose proof (last_filter_spec (λ x, partition_of x.1 = partition_of m /\ x.2 <> Stuck) (zip (polled c) (fates c))) as Hl.
  destruct (last _) as [[m' f] |]; cbn.
  - destruct Hl as (j & [Hj Hf]%Hz & [Hp Hns] & Hlast). cbn in *. assert (Hj' : delivered c !! j = Some m') by (by apply lookup_app_l_Some). split.
    + intros Hle k m'' f' Hk Hmk Hfk Hpk. destruct (decide (f' = Stuck)) as [| Hn]; [done |]. exfalso.
      assert (j < i)%nat. { destruct (Nat.lt_trichotomy j i) as [? | [-> | Hij]]; [done | |]; [by apply Hst in Hf |]. specialize (Ho i j m m' Hij Hm Hj' (eq_sym Hp)). lia. }
      apply (Hlast k (m'', f')); [lia | by apply Hz | done].
    + intros Hall. assert (Hij : (j < i)%nat). { destruct (Nat.lt_trichotomy j i) as [? | [-> | Hij]]; [done | |]; [by apply Hst in Hf |]. by apply (Hall j m' f) in Hij. }
      specialize (Ho j i m' m Hij Hj' Hm Hp). lia.
  - split; [| done]. intros _ j m' f _ Hmj Hfj Hpj. destruct (decide (f = Stuck)); [done |]. exfalso. apply (Hl j (m', f)); [by apply Hz | done].
Qed.

Definition make_consumer (has_producer : bool) : KafkaConsumer C :=
  mkConsumer false (Some cb) x0 (if has_producer then Some (mkProducer true [] 0 0 [] 0) else None) 0 0 [] 0 0 [] [] [].

(** C28: every message that librdkafka has received in order is accounted for, at any
    time: the callback took it, or refused it and the dead-letter queue took it whole,
    or it was refused by both, or it has not been polled yet. One not yet polled is
    delivered again after a crash. So is one refused by both, but only as long as no
    later message of its partition is committed: the commit of a later offset covers
    it. *)
Theorem messages_settled has_producer es c
    (Hrun : exec_all es (make_consumer has_producer) = Some c) (Horder : in_order (delivered c)) :
  forall i m, delivered c !! i = Some m ->
  match fates c !! i with
  | Some Accepted => (answers x0 (polled c)).1 !! i = Some (Ok tt)
  | Some DeadLettered => (exists e, (answers x0 (polled c)).1 !! i = Some (Err e)) /\ sent c m
  | Some Stuck => (exists e, (answers x0 (polled c)).1 !! i = Some (Err e)) /\
      (redelivered c m <-> forall j m' f, (i < j)%nat -> polled c !! j = Some m' -> fates c !! j = Some f -> partition_of m' = partition_of m -> f = Stuck)
  | Some Unwatched => False
  | None => redelivered c m
  end.
Proof.
  intros i m Hm. assert (Hc : consumed c).
  { eapply exec_all_consumed; [exact Hrun |]. constructor; cbn; try done. destruct has_producer; [by constructor | done]. }
  pose proof Hc as [_ Hl _ Hf _ Hd _]. destruct (fates c !! i) as [f |] eqn:Ef.
  - assert (Hp : polled c !! i = Some m). { unfold delivered in Hm. rewrite lookup_app_l in Hm; [done |]. apply lookup_lt_Some in Ef. lia. }
    destruct (Forall2_lookup_l _ _ _ _ _ Hf Ef) as (r & Hr & Ha). destruct f, r as [[] | e]; try done.
    + split; [by exists e |]. by eapply Hd.
    + split; [by exists e |]. apply redelivered_iff; [done | done | done |]. congruence.
  - apply (redelivered_iff c i m); [done | done | done | congruence |]. intros j m' f Hij Hj _ _. apply lookup_ge_None in Ef. apply lookup_lt_Some in Hj. lia.
Qed.

(** ** A consumer wakes up *)

Lemma process_frame m (c : KafkaConsumer C) : queue (process_message m c) = queue c /\ consuming_ (process_message m c) = consuming_ c /\ waits (process_message m c) = waits c /\
  pipe_bytes (process_message m c) = pipe_bytes c /\ polled (process_message m c) = polled c ++ [m].
Proof.
  unfold KafkaClient.process_message. destruct (message_cb_ c) as [f |]; [| done]. destruct (f m (cb_state c)) as [[[] | e] x]; [done |]. cbn.
  destruct (producer_ c) as [p |]; [| done]. destruct (produce_to_dlq _ _ _ _ _) as [[] p']; done.
Qed.

Lemma poll_frame n (c : KafkaConsumer C) : let c' := poll_batch topic_ok enqueue_ok config n c in
  queue c' = drop n (queue c) /\ consuming_ c' = consuming_ c /\ waits c' = waits c /\ pipe_bytes c' = pipe_bytes c /\
  polled c' = polled c ++ filter (λ m, m_err m = NoError) (take n (queue c)).
Proof.
  revert c. induction n as [| n IH]; intros c; cbn; [by rewrite app_nil_r |]. destruct (queue c) as [| m q] eqn:Eq; [cbn; by rewrite app_nil_r |].
  set (c1 := match m_err m with NoError => _ | _ => _ end). specialize (IH c1). cbn in IH. destruct IH as (-> & -> & -> & -> & ->).
  assert (Hc1 : queue c1 = q /\ consuming_ c1 = consuming_ c /\ waits c1 = waits c /\ pipe_bytes c1 = pipe_bytes c /\ polled c1 = polled c ++ filter (λ m, m_err m = NoError) [m]).
  { subst c1. rewrite filter_cons, filter_nil. destruct (m_err m); [| by rewrite app_nil_r..]. by destruct (process_frame m (with_queue q c)) as (-> & -> & -> & -> & ->). }
  destruct Hc1 as (-> & -> & -> & -> & ->). split_and!; try done. change (take (S n) (m :: q)) with ([m] ++ take n q). by rewrite filter_app, app_assoc.
Qed.

Abbreviation max_batch := (Z.to_nat (consumer_max_batch config)).

Lemma readable_frame (c : KafkaConsumer C) : consuming_ c = true -> waits c = 1%nat -> (0 < pipe_bytes c)%nat -> exists c', exec Readable c = Some c' /\
  queue c' = drop max_batch (queue c) /\ consuming_ c' = true /\ waits c' = 1%nat /\ pipe_bytes c' = (pipe_bytes c - 64)%nat /\
  polled c' = polled c ++ filter (λ m, m_err m = NoError) (take max_batch (queue c)).
Proof.
  intros Hr Hw Hb. cbn. rewrite Hw. destruct (pipe_bytes c) as [| b] eqn:Eb; [lia |]. eexists. split; [done |]. unfold on_readable. cbn. rewrite Hr.
  unfold schedule_async_wait, poll_messages. cbn. set (c1 := with_io _ _ _ _). pose proof (poll_frame max_batch c1) as Hp. cbn in Hp. destruct Hp as (Hq & Hr' & Hw' & Hb' & Hpo).
  rewrite Hr'. cbn. by rewrite Hq, Hw', Hb', Hpo.
Qed.

(** A schedule, from a state, of deliveries, of threads that produce and of wake-ups
    that find no more messages than a batch. *)
Fixpoint calm (es : list event) (c : KafkaConsumer C) : Prop :=
  match es with
  | [] => True
  | e :: es =>
      match e with Readable => (length (queue c) <= max_batch)%nat | Deliver _ | Produce _ _ _ => True | Start | Stop => False end /\
      match exec e c with Some c => calm es c | None => True end
  end.

Definition awake (c : KafkaConsumer C) : Prop := consuming_ c = true /\ waits c = 1%nat /\ (queue c <> [] -> (0 < pipe_bytes c)%nat).

Lemma exec_all_awake es c c' : calm es c -> awake c -> exec_all es c = Some c' -> awake c'.
Proof.
  revert c. induction es as [| e es IH]; intros c; cbn [calm KafkaClient.exec_all]; [by intros _ ? [= <-] |]. intros [He Hes] (Hr & Hw & Hq). destruct (exec e c) as [c1 |] eqn:E; [cbn | done]. apply IH; [done |].
  destruct e; [| | done.. |].
  - injection E as <-. unfold awake. cbn. split_and!; [done | done |]. intros _. destruct (queue c) as [| m' q]; [lia |]. by apply Hq.
  - assert (Hb : (0 < pipe_bytes c)%nat) by (cbn in E; destruct (waits c), (pipe_bytes c); [done.. | lia]).
    destruct (readable_frame c Hr Hw Hb) as (c2 & E2 & Hq2 & Hr2 & Hw2 & _). rewrite E2 in E. injection E as <-. split_and!; [done | done |]. rewrite Hq2. by rewrite drop_ge by done.
  - injection E as <-. done.
Qed.

(** While no more messages than one batch are ever waiting when a consumer wakes up,
    it never sleeps on a message: whenever messages are waiting, the pipe is readable,
    and the handler polls them all. *)
Theorem consumer_keeps_up has_producer es c
    (Hcalm : calm es (start_consuming (make_consumer has_producer))) (Hrun : exec_all (Start :: es) (make_consumer has_producer) = Some c)
    (Hqueue : queue c <> []) (Hfits : (length (queue c) <= max_batch)%nat) :
  exists c', exec Readable c = Some c' /\ queue c' = [] /\ polled c' = delivered c.
Proof.
  cbn [KafkaClient.exec_all KafkaClient.exec mbind option_bind] in Hrun. destruct (exec_all_awake es _ c Hcalm) as (Hr & Hw & Hb); [by split_and! | exact Hrun |].
  destruct (readable_frame c Hr Hw (Hb Hqueue)) as (c' & E & Hq & _ & _ & _ & Hp). exists c'. split; [done |]. rewrite Hq, Hp, drop_ge, take_ge by done. done.
Qed.

(** One more than a batch, and the consumer is not woken up again: the queue does not
    become empty, so that nothing is written to the pipe any more. *)
Definition arrival (e : event) : Prop := match e with Deliver _ | Produce _ _ _ => True | _ => False end.

Lemma asleep_stays es (c : KafkaConsumer C) : Forall arrival es -> queue c <> [] -> pipe_bytes c = 0%nat -> exists c', exec_all es c = Some c' /\ exec Readable c' = None.
Proof.
  revert c. induction es as [| e es IH]; intros c Hes Hq Hb; [exists c; split; [done |]; cbn; rewrite Hb; by destruct (waits c) |].
  inv Hes. destruct e; try done; cbn; apply IH; cbn; try done.
  - by destruct (queue c).
  - by destruct (queue c).
Qed.

Theorem full_batch_stalls (c : KafkaConsumer C) es : consuming_ c = true -> waits c = 1%nat -> (0 < pipe_bytes c <= 64)%nat -> (max_batch < length (queue c))%nat -> Forall arrival es ->
  exists c' c'', exec Readable c = Some c' /\ queue c' <> [] /\ exec_all es c' = Some c'' /\ exec Readable c'' = None.
Proof.
  intros Hr Hw Hb Hl Hes. destruct (readable_frame c Hr Hw) as (c' & E & Hq & _ & _ & Hp & _); [lia |].
  assert (Hne : queue c' <> []) by (rewrite Hq; intros Hd%(f_equal length); rewrite length_drop in Hd; cbn in Hd; lia).
  destruct (asleep_stays es c' Hes Hne) as (c'' & E' & Es); [lia |]. exists c', c''. done.
Qed.

End Consumer.

(** ** Requests reach the service *)

Section Wired.
Context (config : KafkaConfig) (handlers : gmap Z Kafka.Handler).

Fixpoint requests (es : list wired_event) : list bytes :=
  match es with
  | [] => []
  | Message m :: es => if is_request config m then m_payload m :: requests es else requests es
  | Finish _ :: es => requests es
  end.

Lemma wired_run_spec initial es : forall n pool spawned results, pool_ok initial n pool spawned -> 0 <= n -> 0 <= initial -> initial + n + len (requests es) < 2 ^ 64 - 1 ->
  exists pool' spawned' done results', wired_run config handlers es ((pool, spawned), results) = Returns ((pool', spawned'), results ++ results') /\
    results' = (λ payload, Kafka.dispatch (Some handlers) payload) <$> done /\ spawned.*2 ++ requests es ≡ₚ done ++ spawned'.*2.
Proof.
  induction es as [| e es IH]; intros n pool spawned results Hok Hn H0 Hw; cbn [wired_run requests].
  - exists pool, spawned, [], []. rewrite !app_nil_r. done.
  - destruct e as [m | i]; cbn [wired_step].
    + unfold wired_callback. cbn [requests] in Hw. destruct (is_request config m) eqn:Er; cbn [negb outcome_bind snd]; [| by apply (IH n)]. rewrite len_cons in Hw. pose proof (len_nonneg (requests es)).
      destruct (payload_acquire_ok initial n pool spawned (m_payload m) Hok) as (buf & pool1 & -> & Hok1 & _); [lia | lia |]. cbn [outcome_bind snd].
      destruct (IH (n + 1) pool1 (spawned ++ [(buf, m_payload m)]) results Hok1) as (pool' & spawned' & done & results' & E & Er' & Hp); [lia | lia | lia |].
      exists pool', spawned', done, results'. split; [done |]. split; [done |]. rewrite <- Hp, fmap_app, <- app_assoc. done.
    + unfold run_spawned. destruct (spawned !! i) as [[buf payload] |] eqn:Es; [| cbn [outcome_bind fst snd option_list]; rewrite app_nil_r; by apply (IH n)].
      assert (Hd : buffers pool !! buf = Some payload) by (by apply (Forall_lookup_1 _ _ _ _ (ok_data _ _ _ _ Hok) Es)). rewrite Hd. pose proof (len_nonneg (requests es)). cbn [requests] in Hw.
      destruct (payload_release_ok initial n pool spawned i buf payload Hok) as (pool1 & -> & Hok1 & _); [lia | done |]. cbn [outcome_bind fst snd option_list].
      destruct (IH n pool1 (delete i spawned) (results ++ [Kafka.dispatch (Some handlers) payload]) Hok1) as (pool' & spawned' & done & results' & E & Er' & Hp); [lia | lia | lia |].
      exists pool', spawned', (payload :: done), (Kafka.dispatch (Some handlers) payload :: results'). split; [etrans; [exact E |]; by rewrite <- app_assoc |]. split; [by rewrite Er' |].
      rewrite (fmap_Permutation snd _ _ (delete_Permutation _ _ _ Es)). cbn. by rewrite Hp.
Qed.

(** With a service wired to the consumers, messages of the request topic and ends of
    the coroutines spawned for them in any order never touch a buffer that is not
    there; and the bridge is given the payload of each request, unchanged and once:
    the payloads it has read and those still held are those of the requests. *)
Theorem requests_dispatched initial size max es (Hi : 0 <= initial) (Hw : initial + len (requests es) < 2 ^ 64 - 1) :
  exists pool spawned done, wired_run config handlers es ((make initial size max, []), []) = Returns ((pool, spawned), (λ payload, Kafka.dispatch (Some handlers) payload) <$> done) /\
    requests es ≡ₚ done ++ spawned.*2.
Proof.
  destruct (payload_make_pool_ok initial size max Hi) as [H0 _]. destruct (wired_run_spec initial es 0 _ [] [] H0) as (pool & spawned & done & results & E & -> & Hp); [lia | lia | lia |].
  by exists pool, spawned, done.
Qed.

End Wired.

(** ** Witnesses *)

Definition example_security : KafkaSecurityConfig := mkSecurity (bytes_of "SASL_SSL") (bytes_of "/ca.pem") [] [] (bytes_of "PLAIN") (bytes_of "apex") (bytes_of "secret").
Definition example_config : KafkaConfig :=
  mkKafkaConfig (bytes_of "localhost:9092") 5 16384 (bytes_of "lz4") 100000 (bytes_of "apex-group") [bytes_of "auth.requests"] 2 3 (bytes_of "apex") example_security [].

Lemma security_in_force_witness : exists p cs, do_init (λ _ _, true) (λ _, true) (λ _, true) true example_config 2 = Some (p, cs) /\ length cs = 2%nat /\
  Forall (λ c : conf, c !! bytes_of "sasl.password" = Some (bytes_of "secret")) (p :: cs).
Proof.
  assert (Hl : (λ x, length x.2) <$> do_init (λ _ _, true) (λ _, true) (λ _, true) true example_config 2 = Some 2%nat) by (vm_compute; reflexivity).
  destruct (do_init (λ _ _, true) (λ _, true) (λ _, true) true example_config 2) as [[p cs] |] eqn:E; [| done]. exists p, cs. split; [done |]. split; [by injection Hl |].
  destruct (security_in_force (λ _ _, true) (λ _, true) (λ _, true) true example_config 2) as [H _]. apply (H p cs _ (bytes_of "secret") E); [| by apply not_elem_of_nil].
  cbn [security example_config]. unfold security_settings. rewrite !elem_of_app. do 6 right. by left.
Defined.

(** A callback that refuses an empty payload and counts the others. *)
Definition example_cb : @MessageCallback Z := λ m n, match m_payload m with [] => (Err ParseFailed, n) | _ :: _ => (Ok tt, n + 1) end.
Definition example_message (offset : Z) (payload : bytes) : message := mkMessage NoError (bytes_of "auth.requests") 0 [1] payload offset.
(** The dead-letter queue takes a message at the second attempt. *)
Definition second_attempt (n : nat) : bool := Nat.eqb n 1.
Definition example_run : list event :=
  [Start; Deliver (example_message 5 [1]); Deliver (example_message 6 []); Readable; Deliver (example_message 7 [2])].

Lemma in_order_decide ms : (forall i j, (i < length ms)%nat -> (j < length ms)%nat -> (i < j)%nat ->
  match ms !! i, ms !! j with Some m, Some m' => m_offset m <? m_offset m' | _, _ => true end = true) -> in_order ms.
Proof. intros H i j m m' Hij Hi Hj _. specialize (H i j (lookup_lt_Some _ _ _ Hi) (lookup_lt_Some _ _ _ Hj) Hij). rewrite Hi, Hj in H. lia. Qed.

Lemma messages_settled_witness : exists c, exec_all (λ _, true) second_attempt example_config example_run (make_consumer example_cb 0 true) = Some c /\
  fates c = [Accepted; DeadLettered] /\ sent c (example_message 6 []) /\ redelivered c (example_message 7 [2]).
Proof.
  destruct (exec_all (λ _, true) second_attempt example_config example_run (make_consumer example_cb 0 true)) as [c |] eqn:E; [| by vm_compute in E].
  assert (Hf : fates c = [Accepted; DeadLettered]) by (vm_compute in E; by injection E as <-).
  assert (Hd : delivered c = [example_message 5 [1]; example_message 6 []; example_message 7 [2]]) by (vm_compute in E; by injection E as <-).
  assert (Ho : in_order (delivered c)) by (rewrite Hd; clear; apply in_order_decide; intros i j Hi Hj Hij; destruct i as [| [| [| i]]], j as [| [| [| j]]]; cbn in *; (done || lia)).
  pose proof (messages_settled (λ _, true) second_attempt example_config example_cb 0 true example_run c E Ho) as H.
  exists c. split; [done |]. split; [done |]. pose proof (H 1%nat (example_message 6 [])) as H1. pose proof (H 2%nat (example_message 7 [2])) as H2. rewrite Hd, Hf in H1, H2.
  destruct (H1 eq_refl) as [_ Hs]. split; [exact Hs | exact (H2 eq_refl)].
Defined.

Lemma consumer_keeps_up_witness : exists c c', exec_all (λ _, true) second_attempt example_config example_run (make_consumer example_cb 0 true) = Some c /\
  exec (λ _, true) second_attempt example_config Readable c = Some c' /\ queue c' = [] /\ polled c' = delivered c.
Proof.
  destruct (exec_all (λ _, true) second_attempt example_config example_run (make_consumer example_cb 0 true)) as [c |] eqn:E; [| by vm_compute in E].
  destruct (consumer_keeps_up (λ _, true) second_attempt example_config example_cb 0 true (tail example_run) c) as (c' & H).
  - vm_compute. auto 10.
  - exact E.
  - vm_compute in E. by injection E as <-.
  - vm_compute in E. injection E as <-. vm_compute. lia.
  - by exists c, c'.
Defined.

Lemma requests_dispatched_witness : exists pool spawned done,
  wired_run example_config ∅ [Message (example_message 1 [7]); Message (example_message 2 [8; 9]); Finish 0] ((make 2 4096 8, []), []) =
    Returns ((pool, spawned), (λ payload, Kafka.dispatch (Some ∅) payload) <$> done) /\ done ++ spawned.*2 ≡ₚ [[7]; [8; 9]].
Proof.
  destruct (requests_dispatched example_config ∅ 2 4096 8 [Message (example_message 1 [7]); Message (example_message 2 [8; 9]); Finish 0]) as (pool & spawned & done & E & Hp); [lia | by vm_compute |].
  exists pool, spawned, done. split; [exact E |]. symmetry. exact Hp.
Defined.

(** ** Defects *)

(** With no dead-letter queue to take it, a refused message is covered by the commit of
    the next one: it is not delivered again. *)
Lemma refused_message_lost : exists c,
  exec_all (λ _, true) (λ _, false) example_config [Start; Deliver (example_message 5 []); Deliver (example_message 6 [1]); Readable] (make_consumer example_cb 0 true) = Some c /\
  fates c = [Stuck; Accepted] /\ ~ redelivered c (example_message 5 []).
Proof. eexists. split; [vm_compute; reflexivity |]. split; [done |]. vm_compute. auto. Qed.

(** The callback of a wired service accepts a message before it is dispatched: one that
    the bridge cannot parse is committed and not put into the dead-letter queue. *)
Lemma failed_dispatch_committed :
  (λ c, (fates c, commits c, outq <$> producer_ c, (cb_state c).2)) <$>
    exec_all (λ _, true) (λ _, true) example_config [Start; Deliver (example_message 5 [1]); Readable] (make_consumer (wired_callback example_config) (make 2 4096 8, []) true) =
    Some ([Accepted], [example_message 5 [1]], Some [], [(1, [1])]) /\
  Kafka.dispatch (Some ∅) [1] = Err ParseFailed.
Proof. split; vm_compute; reflexivity. Qed.
