(* ===== verification/RouteTable.v ===== *)
(** * The gateway's route table

    [apex::gateway::RouteTable] (apex_services/gateway/src/route_table.cpp): message
    id ranges mapped to Kafka topics, sorted by the end of the range, checked for
    overlaps and searched by [lower_bound]. *)

From S2P Require Import Prelude ErrorCode.
From stdpp Require Import sorting.

#[local] Open Scope Z_scope.

Module Routes.

Record RouteEntry : Type := mkRoute { range_begin : Z; range_end : Z; kafka_topic : list Z }.

Definition ends_before (a b : RouteEntry) : Prop := range_end a <= range_end b.

#[export] Instance ends_before_dec a b : Decision (ends_before a b) := decide_rel Z.le (range_end a) (range_end b).

(** The entries, sorted by [range_end]. *)
Definition RouteTable : Type := list RouteEntry.

Fixpoint validate (entries : list RouteEntry) : Result unit :=
  match entries with
  | a :: (b :: _) as rest => if range_begin b <=? range_end a then Err ServiceError else validate rest
  | _ => Ok tt
  end.

Definition build (routes : list RouteEntry) : Result RouteTable :=
  if existsb (λ r, range_end r <? range_begin r) routes then Err ServiceError
  else
    let entries := merge_sort ends_before routes in
    match validate entries with Err e => Err e | Ok _ => Ok entries end.

(** [lower_bound]: the first entry whose [range_end] is not less than [msg_id]. *)
Definition lower_bound (msg_id : Z) (entries : RouteTable) : option RouteEntry :=
  List.find (λ r, msg_id <=? range_end r) entries.

Definition resolve (msg_id : Z) (entries : RouteTable) : option (list Z) :=
  match lower_bound msg_id entries with
  | Some r => if (range_begin r <=? msg_id) && (msg_id <=? range_end r) then Some (kafka_topic r) else None
  | None => None
  end.

End Routes.
Import Routes.

(** ** Disjoint routes *)

Definition valid_route (r : RouteEntry) : Prop := range_begin r <= range_end r.
Definition apart_routes (r s : RouteEntry) : Prop := range_end r < range_begin s \/ range_end s < range_begin r.

Lemma ForallOrdPairs_perm {A} (R : A -> A -> Prop) (l k : list A) :
  (forall x y, R x y -> R y x) -> Permutation l k -> ForallOrdPairs R l -> ForallOrdPairs R k.
Proof.
  intros Hsym Hp. induction Hp as [| x l k Hp IH | x y l | l k m _ IH1 _ IH2]; intros H; [done | | | auto].
  - inversion H; subst. constructor; [| auto]. rewrite <- Hp. done.
  - inversion H as [| ? ? Hy H2]; subst. inversion H2 as [| ? ? Hx H3]; subst. inversion Hy; subst.
    constructor; [constructor; auto | constructor; done].
Qed.

Lemma apart_routes_sym r s : apart_routes r s -> apart_routes s r.
Proof. unfold apart_routes. lia. Qed.

(** Validation of a sorted table accepts exactly the disjoint ones. *)
Lemma validate_ok entries : Sorted ends_before entries -> Forall valid_route entries ->
  (validate entries = Ok tt <-> ForallOrdPairs apart_routes entries) /\ (validate entries = Ok tt \/ validate entries = Err ServiceError) /\
  (validate entries = Ok tt -> forall a rest, entries = a :: rest -> Forall (λ b, range_end a < range_begin b) rest).
Proof.
  induction entries as [| a [| b rest] IH]; intros Hs Hv.
  - split_and!; [split; [constructor | done] | by left | done].
  - split_and!; [split; [repeat constructor | done] | by left |]. intros _ ? ? [= <- <-]. constructor.
  - inversion Hs as [| ? ? Hs' Hab]; subst. inversion Hv as [| ? ? Ha Hv']; subst. inversion Hab; subst.
    destruct (IH Hs' Hv') as (IH1 & IH2 & IH3). cbn [validate]. inversion Hv' as [| ? ? Hb _]; subst. unfold valid_route, ends_before in *.
    destruct (Z.leb_spec (range_begin b) (range_end a)) as [Hle | Hlt].
    + split_and!; [| by right | done]. split; [done |]. intros H. inversion H as [| ? ? Hf _]; subst. inversion Hf as [| ? ? Hap _]; subst.
      unfold apart_routes in Hap. lia.
    + assert (Hall : validate (b :: rest) = Ok tt -> Forall (λ r, range_end a < range_begin r) (b :: rest)).
      { intros E. constructor; [done |]. eapply Forall_impl; [exact (IH3 E b rest eq_refl) |]. cbn. lia. }
      split_and!; [| done |].
      * split; intros H; [constructor; [| by apply IH1] |].
        -- eapply Forall_impl; [exact (Hall H) |]. cbn. unfold apart_routes. lia.
        -- apply IH1. by inversion H.
      * intros E ? ? [= <- <-]. auto.
Qed.

Lemma existsb_invalid routes : existsb (λ r, range_end r <? range_begin r) routes = false <-> Forall valid_route routes.
Proof.
  induction routes as [| r routes IH]; cbn; [by split |]. rewrite orb_false_iff, IH, Forall_cons. rewrite Z.ltb_ge. done.
Qed.

(** In a disjoint table sorted by end, the first entry that ends at or after the id
    is the only one that can hold it. *)
Lemma resolve_sorted entries msg_id topic : Sorted ends_before entries -> ForallOrdPairs apart_routes entries -> Forall valid_route entries ->
  resolve msg_id entries = Some topic <-> exists r, r ∈ entries /\ range_begin r <= msg_id <= range_end r /\ kafka_topic r = topic.
Proof.
  unfold resolve, lower_bound. induction entries as [| a rest IH]; intros Hs Ha Hv; cbn [find].
  - split; [done |]. intros (r & Hr & _). by apply elem_of_nil in Hr.
  - pose proof Hs as Hs'. apply Sorted_StronglySorted in Hs' as Hss; [| intros x y z; unfold ends_before; lia].
    inversion Hss as [| ? ? _ Hle]; subst. inversion Hs; subst. inversion Ha as [| ? ? Haa Ha']; subst. inversion Hv as [| ? ? Hva Hv']; subst.
    destruct (Z.leb_spec msg_id (range_end a)) as [Hm | Hm].
    + rewrite (proj2 (Z.leb_le msg_id (range_end a))), andb_true_r by done. split.
      * destruct (Z.leb_spec (range_begin a) msg_id); [| done]. intros [= <-]. exists a. split; [left | done].
      * intros (r & Hr & Hin & <-). apply elem_of_cons in Hr as [-> | Hr].
        -- replace (range_begin a <=? msg_id) with true by lia. done.
        -- exfalso. rewrite Forall_forall in Hle, Haa, Hv'. specialize (Hle r Hr). specialize (Haa r Hr). specialize (Hv' r Hr).
           unfold ends_before, apart_routes, valid_route in *. lia.
    + rewrite IH by done. split; intros (r & Hr & Hin & Ht); exists r; (split; [| done]).
      * by right.
      * apply elem_of_cons in Hr as [-> | Hr]; [lia | done].
Qed.

#[local] Instance ends_before_total : Total ends_before.
Proof. intros a b. unfold ends_before. lia. Qed.

(** A route table is built exactly when every range is ordered and no two ranges
    share a message id, whatever the order of the routes; it then resolves an id to
    the topic of the route whose range holds it, and to nothing when there is none. *)
Theorem route_table_correct routes :
  match build routes with
  | Ok table => Forall valid_route routes /\ ForallOrdPairs apart_routes routes /\
      forall msg_id topic, resolve msg_id table = Some topic <->
        exists r, r ∈ routes /\ range_begin r <= msg_id <= range_end r /\ kafka_topic r = topic
  | Err e => e = ServiceError /\ ~ (Forall valid_route routes /\ ForallOrdPairs apart_routes routes)
  end.
Proof.
  unfold build. destruct (existsb _ routes) eqn:Ex.
  { split; [done |]. intros [Hv _]. apply existsb_invalid in Hv. congruence. }
  apply existsb_invalid in Ex as Hv. assert (Hp := merge_sort_Permutation ends_before routes).
  assert (Hs : Sorted ends_before (merge_sort ends_before routes)) by (apply (Sorted_merge_sort ends_before); apply _).
  set (entries := merge_sort ends_before routes) in *. assert (Hv' : Forall valid_route entries) by (rewrite Hp; done).
  destruct (validate_ok entries Hs Hv') as (Hok & Hor & _). destruct Hor as [E | E]; rewrite E.
  - assert (Hap : ForallOrdPairs apart_routes entries) by (by apply Hok). split_and!; [done | |].
    + eapply ForallOrdPairs_perm; [apply apart_routes_sym | exact Hp | done].
    + intros msg_id topic. rewrite resolve_sorted by done. split; intros (r & Hr & H); exists r; (split; [| done]); [rewrite <- Hp | rewrite Hp]; done.
  - split; [done |]. intros [_ Hap]. rewrite (proj2 Hok) in E; [done |].
    eapply ForallOrdPairs_perm; [apply apart_routes_sym | symmetry; exact Hp | done].
Qed.
