(* ===== verification/PubSub.v ===== *)
(** * The gateway's subscriptions to Redis

    [apex::gateway::PubSubListener] (apex_services/gateway/src/pubsub_listener.cpp): a
    thread that keeps a connection to Redis, subscribes it to the channels other threads
    ask for, and passes on what is published there.

    The channels asked for are changed under a mutex, so that [subscribe],
    [unsubscribe], the first subscription of a connection and
    [apply_pending_subscriptions] are one step each; the thread is cut where it looks at
    the flags and at the socket. What hiredis reports and the replies that arrive
    meanwhile are arguments of a step; a reply is what the thread can tell of it.
    Redis is taken to have, for a connection, the channels of the commands it was sent,
    as documented for SUBSCRIBE and UNSUBSCRIBE, except those it refuses (the channels
    its access control list does not grant), which it answers with an error. *)

From S2P Require Import Prelude ErrorCode.

Module PubSub.

Abbreviation bytes := (list Z).

Inductive command : Type := SUBSCRIBE (ch : bytes) | UNSUBSCRIBE (ch : bytes).

(** A reply: an array of three that starts with "message", or anything else. *)
Inductive reply : Type := MessageReply (channel data : option bytes) | OtherReply.

(** Where the thread is. *)
Inductive thread_state : Type := NoThread | Connecting | Receiving | Ended.

Record PubSubListener : Type := mkListener {
  initial_channels : list bytes;
  running_ : bool;
  subscribed_channels_ : gset bytes;
  has_pending_subs_ : bool;
  thread_ : thread_state;
  active_subs : gset bytes;
  commands : list command; (** sent on the connection *)
  reader : list reply; (** received on the connection and not yet parsed *)
  err : bool; (** of the connection *)
  calls : list (bytes * bytes); (** of the callback *)
  arrived : list reply; (** all replies there have been *)
  dropped : list reply; (** replies read as answers to commands *)
}.

Definition make (initial : list bytes) : PubSubListener := mkListener initial false ∅ false NoThread ∅ [] [] false [] [] [].

Definition with_running (b : bool) (t : thread_state) (s : PubSubListener) : PubSubListener :=
  mkListener (initial_channels s) b (subscribed_channels_ s) (has_pending_subs_ s) t (active_subs s) (commands s) (reader s) (err s) (calls s) (arrived s) (dropped s).
Definition with_channels (chs : gset bytes) (pending : bool) (s : PubSubListener) : PubSubListener :=
  mkListener (initial_channels s) (running_ s) chs pending (thread_ s) (active_subs s) (commands s) (reader s) (err s) (calls s) (arrived s) (dropped s).
Definition with_connection (active : gset bytes) (cmds : list command) (failed : bool) (s : PubSubListener) : PubSubListener :=
  mkListener (initial_channels s) (running_ s) (subscribed_channels_ s) (has_pending_subs_ s) (thread_ s) active cmds (reader s) failed (calls s) (arrived s) (dropped s).
Definition with_reader (rs : list reply) (cs : list (bytes * bytes)) (s : PubSubListener) : PubSubListener :=
  mkListener (initial_channels s) (running_ s) (subscribed_channels_ s) (has_pending_subs_ s) (thread_ s) (active_subs s) (commands s) rs (err s) cs (arrived s) (dropped s).

(** Replies arrive; the first [n] are read as answers. *)
Definition arrive (rs : list reply) (s : PubSubListener) : PubSubListener :=
  mkListener (initial_channels s) (running_ s) (subscribed_channels_ s) (has_pending_subs_ s) (thread_ s) (active_subs s) (commands s) (reader s ++ rs) (err s) (calls s) (arrived s ++ rs) (dropped s).
Definition read_answers (n : nat) (s : PubSubListener) : PubSubListener :=
  mkListener (initial_channels s) (running_ s) (subscribed_channels_ s) (has_pending_subs_ s) (thread_ s) (active_subs s) (commands s) (drop n (reader s)) (err s) (calls s) (arrived s)
    (dropped s ++ take n (reader s)).

(** ** Operations *)

Definition start (s : PubSubListener) : PubSubListener := if running_ s then s else with_running true Connecting s.

(** [stop] up to the join, which waits for the thread to end. *)
Definition stop (s : PubSubListener) : PubSubListener := with_running false (thread_ s) s.

Definition subscribe (ch : bytes) (s : PubSubListener) : PubSubListener := with_channels (subscribed_channels_ s ∪ {[ch]}) true s.
Definition unsubscribe (ch : bytes) (s : PubSubListener) : PubSubListener := with_channels (subscribed_channels_ s ∖ {[ch]}) true s.

(** [redisFree]: what was received and not parsed is gone. *)
Definition disconnect (s : PubSubListener) : PubSubListener :=
  let s := read_answers (length (reader s)) s in
  with_running (running_ s) (if running_ s then Connecting else Ended) (with_connection ∅ [] false s).

(** [redisConnect], AUTH and the first subscriptions of a turn of the outer loop; each
    SUBSCRIBE waits for one reply. *)
Definition connect (connected authenticated : bool) (rs : list reply) (s : PubSubListener) : PubSubListener :=
  if negb (running_ s) then with_running false Ended s
  else if negb connected || negb authenticated then s
  else
    let chs := subscribed_channels_ s ∪ list_to_set (initial_channels s) in
    let n := size chs in
    let s := read_answers n (arrive rs (with_connection chs (SUBSCRIBE <$> elements chs) (bool_decide (length rs < n)%nat) (with_channels chs false s))) in
    with_running (running_ s) Receiving s.

Definition apply_pending_subscriptions (write_ok : bool) (rs : list reply) (s : PubSubListener) : PubSubListener :=
  let newly_subscribed := subscribed_channels_ s ∖ active_subs s in
  let to_remove := active_subs s ∖ subscribed_channels_ s in
  let num_commands := (size newly_subscribed + size to_remove)%nat in
  let active := (active_subs s ∪ newly_subscribed) ∖ to_remove in
  let cmds := commands s ++ (SUBSCRIBE <$> elements newly_subscribed) ++ (UNSUBSCRIBE <$> elements to_remove) in
  let s := with_channels (subscribed_channels_ s) false s in
  let rollback := (active ∖ newly_subscribed) ∪ to_remove in
  if (num_commands =? 0)%nat then with_connection active (commands s) (err s) s
  else if negb write_ok || err s then with_connection rollback (commands s) true s
  else
    let s := arrive rs s in
    let short := bool_decide (length (reader s) < num_commands)%nat in
    let s := read_answers num_commands s in
    with_connection (if short then rollback else active) cmds short s.

(** A turn of the receive loop, in its two halves: the flag, and the socket. *)
Definition check_pending (write_ok : bool) (rs : list reply) (s : PubSubListener) : PubSubListener :=
  if negb (running_ s) then disconnect s
  else if has_pending_subs_ s then
    let s := apply_pending_subscriptions write_ok rs s in
    if err s then disconnect s else s
  else s.

Definition message_of (r : reply) : option (bytes * bytes) := match r with MessageReply (Some ch) (Some data) => Some (ch, data) | _ => None end.

(** What [select] and [redisBufferRead] tell; when data could be read, all complete
    replies are parsed. *)
Inductive socket : Type := SelectError | SelectTimeout | Data (read_ok : bool) (rs : list reply).
Definition receive (x : socket) (s : PubSubListener) : PubSubListener :=
  match x with
  | SelectError => disconnect s
  | SelectTimeout => s
  | Data read_ok rs =>
      if negb read_ok || err s then disconnect s
      else
        let s := arrive rs s in
        with_reader [] (calls s ++ omap message_of (reader s)) s
  end.

(** ** Schedules *)

Inductive event : Type :=
| Start | Stop | Subscribe (ch : bytes) | Unsubscribe (ch : bytes)
| Connect (connected authenticated : bool) (rs : list reply)
| Check (write_ok : bool) (rs : list reply)
| Receive (x : socket).

Definition exec (e : event) (s : PubSubListener) : option PubSubListener :=
  match e, thread_ s with
  | Start, NoThread => Some (start s)
  | Stop, _ => Some (stop s)
  | Subscribe ch, _ => Some (subscribe ch s)
  | Unsubscribe ch, _ => Some (unsubscribe ch s)
  | Connect connected authenticated rs, Connecting => Some (connect connected authenticated rs s)
  | Check write_ok rs, Receiving => Some (check_pending write_ok rs s)
  | Receive x, Receiving => Some (receive x s)
  | _, _ => None
  end.
Fixpoint exec_all (es : list event) (s : PubSubListener) : option PubSubListener :=
  match es with [] => Some s | e :: es => s ← exec e s; exec_all es s end.

End PubSub.
Import PubSub.

(** ** Subscriptions follow *)

Section Redis.
(** The channels that Redis refuses. *)
Context (refused : bytes -> bool).

(** The channels Redis has for the connection. *)
Definition redis_step (chs : gset bytes) (c : command) : gset bytes :=
  match c with SUBSCRIBE ch => if refused ch then chs else chs ∪ {[ch]} | UNSUBSCRIBE ch => chs ∖ {[ch]} end.
Definition redis_channels (cmds : list command) : gset bytes := foldl redis_step ∅ cmds.

Definition granted (chs : gset bytes) : gset bytes := filter (λ ch, refused ch = false) chs.

Lemma redis_channels_app cmds cmds' : redis_channels (cmds ++ cmds') = foldl redis_step (redis_channels cmds) cmds'.
Proof. unfold redis_channels. by rewrite foldl_app. Qed.

Lemma subscribe_all (chs : gset bytes) l : foldl redis_step chs (SUBSCRIBE <$> l) = chs ∪ granted (list_to_set l).
Proof.
  unfold granted. revert chs. induction l as [| ch l IH]; intros chs; cbn [fmap list_fmap foldl redis_step list_to_set]; [set_solver |].
  rewrite IH. apply set_eq. intros x. destruct (refused ch) eqn:E; rewrite ?elem_of_union, !elem_of_filter, ?elem_of_union, !elem_of_singleton; naive_solver congruence.
Qed.
Lemma unsubscribe_all (chs : gset bytes) l : foldl redis_step chs (UNSUBSCRIBE <$> l) = chs ∖ list_to_set l.
Proof. revert chs. induction l as [| ch l IH]; intros chs; cbn; [set_solver |]. rewrite IH. set_solver. Qed.

Definition synced (s : PubSubListener) : Prop := thread_ s = Receiving ->
  (err s = false -> redis_channels (commands s) = granted (active_subs s)) /\ (has_pending_subs_ s = false -> active_subs s = subscribed_channels_ s).

Lemma connect_synced connected authenticated rs s : synced s -> thread_ s = Connecting -> synced (connect connected authenticated rs s).
Proof.
  intros Hs Ht. unfold connect. destruct (running_ s); [| done]. destruct (negb connected || negb authenticated); [done |]. intros _. cbn. split; [| done].
  intros _. unfold redis_channels. rewrite subscribe_all, list_to_set_elements_L. set_solver.
Qed.

Lemma apply_synced write_ok rs s : synced s -> thread_ s = Receiving -> let s' := apply_pending_subscriptions write_ok rs s in
  thread_ s' = Receiving /\ (err s' = false -> redis_channels (commands s') = granted (active_subs s') /\ active_subs s' = subscribed_channels_ s').
Proof.
  intros Hs Ht. destruct (Hs Ht) as [Hr _]. unfold apply_pending_subscriptions.
  assert (Hch : (active_subs s ∪ subscribed_channels_ s ∖ active_subs s) ∖ (active_subs s ∖ subscribed_channels_ s) = subscribed_channels_ s).
  { apply set_eq. intros ch. destruct (decide (ch ∈ active_subs s)), (decide (ch ∈ subscribed_channels_ s)); set_solver. }
  destruct (Nat.eqb_spec (size (subscribed_channels_ s ∖ active_subs s) + size (active_subs s ∖ subscribed_channels_ s)) 0) as [H0 | H0].
  - cbn -[redis_channels]. split; [done |]. intros He. split; [| exact Hch]. apply Nat.eq_add_0 in H0 as [H1%size_empty_inv H2%size_empty_inv]. rewrite (Hr He). set_solver.
  - destruct write_ok; cbn -[redis_channels]; [| done]. destruct (err s) eqn:He; cbn -[redis_channels]; (split; [done |]); [done |]. case_bool_decide; [done |]. intros _. split; [| exact Hch].
    rewrite redis_channels_app, foldl_app, subscribe_all, unsubscribe_all, !list_to_set_elements_L, (Hr eq_refl). unfold granted. set_solver.
Qed.

Lemma not_receiving s : thread_ s <> Receiving -> synced s.
Proof. done. Qed.
Lemma disconnect_synced s : synced (disconnect s).
Proof. apply not_receiving. cbn. by destruct (running_ s). Qed.

Lemma exec_synced e s s' : exec e s = Some s' -> synced s -> synced s'.
Proof.
  intros E Hs. destruct e as [| | ch | ch | connected authenticated rs | write_ok rs | x]; cbn in E.
  - destruct (thread_ s) eqn:Ht; try done. injection E as <-. unfold start. by destruct (running_ s).
  - injection E as <-. done.
  - injection E as <-. intros Ht. destruct (Hs Ht) as [Hr _]. done.
  - injection E as <-. intros Ht. destruct (Hs Ht) as [Hr _]. done.
  - destruct (thread_ s) eqn:Ht; try done. injection E as <-. by apply connect_synced.
  - destruct (thread_ s) eqn:Ht; try done. injection E as <-. unfold check_pending. destruct (running_ s); [cbn [negb] | apply disconnect_synced].
    destruct (has_pending_subs_ s); [| done]. destruct (apply_synced write_ok rs s Hs Ht) as [_ Ha].
    destruct (err (apply_pending_subscriptions write_ok rs s)) eqn:He; [apply disconnect_synced |]. intros _. rewrite He. destruct (Ha eq_refl) as [? ?]. done.
  - destruct (thread_ s) eqn:Ht; try done. injection E as <-. destruct x as [| | read_ok rs]; cbn [receive]; [apply disconnect_synced | done |].
    destruct (negb read_ok || err s); [apply disconnect_synced | done].
Qed.

(** ** Messages are passed on *)

Definition replies_ok (s : PubSubListener) : Prop :=
  calls s ++ omap message_of (reader s) ++ omap message_of (dropped s) ≡ₚ omap message_of (arrived s) /\
  calls s ++ omap message_of (reader s) `sublist_of` omap message_of (arrived s).

Lemma arrive_replies rs s : replies_ok s -> replies_ok (arrive rs s).
Proof.
  intros [Hp Hs]. unfold replies_ok. cbn. rewrite !omap_app. split.
  - rewrite <- Hp. rewrite <- !app_assoc. do 2 f_equiv. apply Permutation_app_comm.
  - rewrite app_assoc. by apply sublist_app.
Qed.

Lemma read_answers_replies n s : replies_ok s -> replies_ok (read_answers n s).
Proof.
  intros [Hp Hs]. unfold replies_ok. cbn. rewrite omap_app. split.
  - rewrite <- Hp. f_equiv. rewrite <- (take_drop n (reader s)) at 3. rewrite omap_app, (Permutation_app_comm (omap message_of (take n (reader s)))), <- app_assoc. f_equiv. apply Permutation_app_comm.
  - etrans; [| exact Hs]. apply sublist_app; [done |]. rewrite <- (take_drop n (reader s)) at 2. rewrite omap_app. by apply sublist_inserts_l.
Qed.

Lemma replies_same s s' : calls s' = calls s -> reader s' = reader s -> dropped s' = dropped s -> arrived s' = arrived s -> replies_ok s -> replies_ok s'.
Proof. unfold replies_ok. by intros -> -> -> ->. Qed.

Lemma parse_replies s : replies_ok s -> replies_ok (with_reader [] (calls s ++ omap message_of (reader s)) s).
Proof. intros [Hp Hs]. unfold replies_ok. cbn. by rewrite app_nil_r, <- app_assoc. Qed.

Lemma disconnect_replies s : replies_ok s -> replies_ok (disconnect s).
Proof. intros H. eapply replies_same; [| | | | exact (read_answers_replies (length (reader s)) s H)]; done. Qed.

Lemma apply_replies write_ok rs s : replies_ok s -> replies_ok (apply_pending_subscriptions write_ok rs s).
Proof.
  intros H. unfold apply_pending_subscriptions. destruct (_ =? 0)%nat; [by eapply replies_same |]. destruct (_ || _); [by eapply replies_same |].
  set (n := (_ + _)%nat). eapply replies_same; [| | | | apply (read_answers_replies n), (arrive_replies rs), H]; done.
Qed.

Lemma exec_replies e s s' : exec e s = Some s' -> replies_ok s -> replies_ok s'.
Proof.
  intros E Hr. destruct e as [| | ch | ch | connected authenticated rs | write_ok rs | x]; cbn in E.
  - destruct (thread_ s); try done. injection E as <-. unfold start. destruct (running_ s); [done |]. by eapply replies_same.
  - injection E as <-. by eapply replies_same.
  - injection E as <-. by eapply replies_same.
  - injection E as <-. by eapply replies_same.
  - destruct (thread_ s); try done. injection E as <-. unfold connect. destruct (running_ s); [cbn [negb] | by eapply replies_same]. destruct (_ || _); [done |].
    set (n := size _). eapply replies_same; [| | | | apply (read_answers_replies n), (arrive_replies rs), Hr]; done.
  - destruct (thread_ s); try done. injection E as <-. unfold check_pending. destruct (running_ s); [cbn [negb] | by apply disconnect_replies].
    destruct (has_pending_subs_ s); [| done]. destruct (err _); [by apply disconnect_replies, apply_replies | by apply apply_replies].
  - destruct (thread_ s); try done. injection E as <-. destruct x as [| | read_ok rs]; cbn [receive]; [by apply disconnect_replies | done |].
    destruct (_ || _); [by apply disconnect_replies |]. by apply parse_replies, arrive_replies.
Qed.

Lemma pubsub_exec_all_ok es s s' : exec_all es s = Some s' -> synced s -> replies_ok s -> synced s' /\ replies_ok s'.
Proof.
  revert s. induction es as [| e es IH]; intros s; cbn; [by intros [= ->] |]. destruct (exec e s) as [s1 |] eqn:E; [cbn | done]. intros E' Hs Hr. eapply IH; [done | by eapply exec_synced | by eapply exec_replies].
Qed.


End Redis.

Definition example_message : reply := MessageReply (Some [1]) (Some [42]).
(** Redis refuses the channel 3. *)
Definition example_refused (ch : bytes) : bool := bool_decide (ch = [3]).
Definition example_es : list event :=
  [Start; Connect true true [OtherReply]; Subscribe [2]; Check true [OtherReply]; Receive (Data true [example_message]); Subscribe [3]].


(** ** Defects *)

(** An error in answer to a SUBSCRIBE is logged and the channel counted as subscribed. *)
Lemma refusal_ignored : (λ s, (err s, has_pending_subs_ s, bool_decide ([3] ∈ active_subs s), bool_decide ([3] ∈ redis_channels example_refused (commands s)))) <$>
  exec_all [Start; Connect true true [OtherReply]; Subscribe [3]; Check true [OtherReply]] (make [[1]]) = Some (false, false, true, false).
Proof. vm_compute. reflexivity. Qed.

(** A message that comes in before the answer to a SUBSCRIBE is taken for the answer. *)
Lemma answer_swallows_message : (λ s, (calls s, dropped s, reader s)) <$>
  exec_all [Start; Connect true true [OtherReply]; Subscribe [2]; Check true [example_message; OtherReply]; Receive (Data true [])] (make [[1]]) =
  Some ([], [OtherReply; example_message], []).
Proof. vm_compute. reflexivity. Qed.

(** A message that hiredis has read along with an answer is not parsed while nothing more
    comes in on the connection. *)
Lemma message_waits_for_traffic n : (λ s, (calls s, reader s)) <$>
  exec_all ([Start; Connect true true [OtherReply]; Subscribe [2]; Check true [OtherReply; example_message]] ++ replicate n (Receive SelectTimeout)) (make [[1]]) =
  Some ([], [example_message]).
Proof.
  assert (H : forall s, thread_ s = Receiving -> exec_all (replicate n (Receive SelectTimeout)) s = Some s).
  { intros s Hs. induction n as [| k IH]; [done |]. cbn. rewrite Hs. exact IH. }
  cbn [app exec_all]. destruct (exec Start (make [[1]])) as [s1 |] eqn:E1; [| done]. cbn [mbind option_bind].
  vm_compute in E1. injection E1 as <-. cbn -[make]. rewrite H by (vm_compute; reflexivity). vm_compute. reflexivity.
Qed.
