(* ===== verification/GatewayState.v ===== *)
(** * The gateway's per-core tables

    [PendingRequestsMap] (apex_services/gateway/src/pending_requests.cpp), which
    matches responses to the sessions that asked, and [ChannelSessionMap]
    (channel_session_map.cpp), the channel subscriptions of a core kept in both
    directions. Each belongs to one core and is used by its thread only. *)

From S2P Require Import Prelude ErrorCode.

Abbreviation channel_name := (list Z).

(** ** Pending requests *)

Module Pending.

Record PendingEntry : Type := mkPending { session_id : Z; original_msg_id : Z; deadline : Z }.

(** Time points in nanoseconds, the timeout in milliseconds. *)
Record PendingRequestsMap : Type := mkPendingMap { map_ : gmap Z PendingEntry; max_entries_ : Z; timeout_ : Z }.

Definition make_pending (max_entries timeout : Z) : PendingRequestsMap := mkPendingMap ∅ max_entries timeout.
Definition with_map (m : gmap Z PendingEntry) (p : PendingRequestsMap) : PendingRequestsMap := mkPendingMap m (max_entries_ p) (timeout_ p).

(** [emplace] leaves an entry that is already there. *)
Definition insert (corr_id session_id original_msg_id now : Z) (p : PendingRequestsMap) : Result unit * PendingRequestsMap :=
  if max_entries_ p <=? Z.of_nat (size (map_ p)) then (Err ServiceError, p)
  else
    let e := mkPending session_id original_msg_id (now + timeout_ p * 10 ^ 6) in
    (Ok tt, with_map (match map_ p !! corr_id with Some _ => map_ p | None => <[corr_id := e]> (map_ p) end) p).

Definition extract (corr_id : Z) (p : PendingRequestsMap) : option PendingEntry * PendingRequestsMap :=
  match map_ p !! corr_id with
  | None => (None, p)
  | Some e => (Some e, with_map (delete corr_id (map_ p)) p)
  end.

(** The callbacks made, in the order of the iteration, and the map left. *)
Definition sweep_expired (now : Z) (p : PendingRequestsMap) : list (Z * PendingEntry) * PendingRequestsMap :=
  (map_to_list (filter (λ ke, deadline ke.2 <= now) (map_ p)), with_map (filter (λ ke, ~ deadline ke.2 <= now) (map_ p)) p).

End Pending.

(** ** Channel subscriptions *)

Module Channels.

Record ChannelSessionMap : Type := mkChannels {
  max_subscriptions_per_session_ : Z;
  channel_to_sessions_ : gmap channel_name (list Z);
  session_to_channels_ : gmap Z (gset channel_name)
}.

Definition make_channels (max_subscriptions_per_session : Z) : ChannelSessionMap := mkChannels max_subscriptions_per_session ∅ ∅.

Definition subscribe (channel : channel_name) (session_id : Z) (m : ChannelSessionMap) : Result unit * ChannelSessionMap :=
  let channels := default ∅ (session_to_channels_ m !! session_id) in
  let s2c := <[session_id := channels]> (session_to_channels_ m) in
  if (0 <? max_subscriptions_per_session_ m) && (max_subscriptions_per_session_ m <=? Z.of_nat (size channels)) && bool_decide (channel ∉ channels) then
    (Err ServiceError, mkChannels (max_subscriptions_per_session_ m) (channel_to_sessions_ m) s2c)
  else
    let sessions := default [] (channel_to_sessions_ m !! channel) in
    let sessions := if bool_decide (session_id ∈ sessions) then sessions else sessions ++ [session_id] in
    (Ok tt, mkChannels (max_subscriptions_per_session_ m) (<[channel := sessions]> (channel_to_sessions_ m)) (<[session_id := {[channel]} ∪ channels]> s2c)).

(** Removing a session from a channel's subscribers, and the channel with its last one. *)
Definition drop_subscriber (session_id : Z) (channel : channel_name) (c2s : gmap channel_name (list Z)) : gmap channel_name (list Z) :=
  match c2s !! channel with
  | None => c2s
  | Some sessions =>
      match filter (λ s, s ≠ session_id) sessions with [] => delete channel c2s | rest => <[channel := rest]> c2s end
  end.

Definition unsubscribe (channel : channel_name) (session_id : Z) (m : ChannelSessionMap) : ChannelSessionMap :=
  let c2s := drop_subscriber session_id channel (channel_to_sessions_ m) in
  let s2c := match session_to_channels_ m !! session_id with
             | None => session_to_channels_ m
             | Some channels =>
                 let channels := channels ∖ {[channel]} in
                 if bool_decide (channels = ∅) then delete session_id (session_to_channels_ m) else <[session_id := channels]> (session_to_channels_ m)
             end in
  mkChannels (max_subscriptions_per_session_ m) c2s s2c.

Definition unsubscribe_all (session_id : Z) (m : ChannelSessionMap) : ChannelSessionMap :=
  match session_to_channels_ m !! session_id with
  | None => m
  | Some channels =>
      mkChannels (max_subscriptions_per_session_ m)
        (foldr (drop_subscriber session_id) (channel_to_sessions_ m) (elements channels))
        (delete session_id (session_to_channels_ m))
  end.

Definition get_subscribers (channel : channel_name) (m : ChannelSessionMap) : option (list Z) := channel_to_sessions_ m !! channel.
Definition subscribed_channels (m : ChannelSessionMap) : list channel_name := (map_to_list (channel_to_sessions_ m)).*1.
Definition total_subscriptions (m : ChannelSessionMap) : Z :=
  foldr (λ cs n, u64 (len cs.2 + n)) 0 (map_to_list (channel_to_sessions_ m)).

End Channels.

(** ** Pending requests: the map stays bounded, and each entry leaves it once *)

Section PendingLemmas.
Import Pending.

Inductive pending_op : Type :=
| PInsert (corr_id session_id original_msg_id now : Z)
| PExtract (corr_id : Z)
| PSweep (now : Z).

(** A run with the ids accepted by [insert] and the entries handed out, by
    [extract] or to the sweep callback. *)
Record pending_run : Type := mkPendingRun { pr_map : PendingRequestsMap; pr_accepted : list Z; pr_out : list (Z * PendingEntry) }.

Definition pending_exec (op : pending_op) (s : pending_run) : pending_run :=
  match op with
  | PInsert c sid mid now =>
      let '(r, p) := insert c sid mid now (pr_map s) in mkPendingRun p (if is_ok r then pr_accepted s ++ [c] else pr_accepted s) (pr_out s)
  | PExtract c =>
      let '(r, p) := extract c (pr_map s) in mkPendingRun p (pr_accepted s) (pr_out s ++ match r with Some e => [(c, e)] | None => [] end)
  | PSweep now => let '(es, p) := sweep_expired now (pr_map s) in mkPendingRun p (pr_accepted s) (pr_out s ++ es)
  end.

Definition pending_exec_all (ops : list pending_op) (s : pending_run) : pending_run := foldl (λ s op, pending_exec op s) s ops.

(** The correlation ids given to [insert]. *)
Definition inserted_ids (ops : list pending_op) : list Z := omap (λ op, match op with PInsert c _ _ _ => Some c | _ => None end) ops.

Lemma map_to_list_split (m : gmap Z PendingEntry) now :
  map_to_list (filter (λ ke, deadline ke.2 <= now) m) ++ map_to_list (filter (λ ke, ~ deadline ke.2 <= now) m) ≡ₚ map_to_list m.
Proof.
  apply NoDup_Permutation; [| apply NoDup_map_to_list |].
  - apply NoDup_app. split_and!; [apply NoDup_map_to_list | | apply NoDup_map_to_list].
    intros [k e] H1%elem_of_map_to_list H2%elem_of_map_to_list. apply map_lookup_filter_Some in H1 as [_ H1]. apply map_lookup_filter_Some in H2 as [_ H2]. done.
  - intros [k e]. rewrite elem_of_app, !elem_of_map_to_list, !map_lookup_filter_Some. destruct (decide (deadline e <= now)); cbn; tauto.
Qed.

(** Every accepted id is pending or has been handed out. *)
Definition pending_inv (s : pending_run) : Prop :=
  pr_accepted s ≡ₚ (pr_out s).*1 ++ (map_to_list (map_ (pr_map s))).*1 /\
  Z.of_nat (size (map_ (pr_map s))) <= Z.max 0 (max_entries_ (pr_map s)).

Lemma pending_exec_inv op s : pending_inv s -> (forall c, c ∈ inserted_ids [op] -> c ∉ pr_accepted s) ->
  pending_inv (pending_exec op s) /\ pr_accepted (pending_exec op s) ⊆ pr_accepted s ++ inserted_ids [op] /\ max_entries_ (pr_map (pending_exec op s)) = max_entries_ (pr_map s).
Proof.
  intros [Ha Hs] Hfresh. destruct op as [c sid mid now | c | now]; cbn [pending_exec].
  - unfold insert. destruct (Z.leb_spec (max_entries_ (pr_map s)) (Z.of_nat (size (map_ (pr_map s))))) as [Hfull | Hroom]; cbn [is_ok].
    { split_and!; [done | | done]. cbn [pr_accepted]. set_solver. }
    assert (Hn : map_ (pr_map s) !! c = None).
    { apply eq_None_not_Some. intros [e He]. apply (Hfresh c); [cbn; left |]. rewrite Ha. apply elem_of_app. right.
      apply list_elem_of_fmap. exists (c, e). split; [done | by apply elem_of_map_to_list]. }
    rewrite Hn. cbn [pr_accepted pr_map with_map max_entries_]. split_and!; [| cbn; done | done]. split; cbn [pr_accepted pr_out pr_map with_map map_ max_entries_].
    + rewrite (map_to_list_insert (map_ (pr_map s)) c _ Hn), Ha. cbn [fmap list_fmap fst]. rewrite <- app_assoc. f_equiv. apply Permutation_app_comm.
    + rewrite map_size_insert_None by done. lia.
  - unfold extract. destruct (map_ (pr_map s) !! c) as [e |] eqn:E; cbn [pr_accepted pr_map with_map max_entries_]; (split_and!; [| set_solver | done]).
    + split; cbn [pr_accepted pr_out pr_map with_map map_ max_entries_].
      * rewrite Ha, fmap_app, <- app_assoc. f_equiv. rewrite <- (map_to_list_delete _ _ _ E). done.
      * pose proof (map_size_delete_Some _ _ (mk_is_Some _ _ E)). lia.
    + split; cbn [pr_accepted pr_out pr_map]; [| done]. rewrite app_nil_r. done.
  - unfold sweep_expired. cbn [pr_accepted pr_map with_map max_entries_]. split_and!; [| set_solver | done].
    split; cbn [pr_accepted pr_out pr_map with_map map_ max_entries_].
    + rewrite Ha, fmap_app, <- app_assoc. f_equiv. rewrite <- fmap_app, map_to_list_split. done.
    + pose proof (map_size_filter (λ ke : Z * PendingEntry, ~ deadline ke.2 <= now) (map_ (pr_map s))). lia.
Qed.

Lemma pending_exec_all_inv ops s : pending_inv s -> NoDup (inserted_ids ops) -> (forall c, c ∈ inserted_ids ops -> c ∉ pr_accepted s) ->
  pending_inv (pending_exec_all ops s) /\ max_entries_ (pr_map (pending_exec_all ops s)) = max_entries_ (pr_map s).
Proof.
  revert s. induction ops as [| op ops IH]; intros s Hinv Hnd Hfresh; [done |].
  assert (E : inserted_ids (op :: ops) = inserted_ids [op] ++ inserted_ids ops) by (destruct op; done). rewrite E in *. apply NoDup_app in Hnd as (Hn1 & Hdis & Hn2).
  destruct (pending_exec_inv op s Hinv) as (Hi & Hsub & Hm); [intros c Hc; apply Hfresh, elem_of_app; by left |].
  destruct (IH (pending_exec op s) Hi Hn2) as [H1 H2].
  { intros c Hc Hacc. apply Hsub, elem_of_app in Hacc as [Hacc | Hacc]; [| exact (Hdis c Hacc Hc)].
    revert Hacc. apply Hfresh, elem_of_app. by right. }
  split; [exact H1 |]. etransitivity; [exact H2 | exact Hm].
Qed.

(** With correlation ids that are not reused, the pending map never grows beyond
    its maximum, and every request accepted is at any time either pending or was
    handed out once, to the response that extracted it or to the sweep; none is lost
    and none is handed out twice. *)
Theorem pending_requests_conserved max_entries timeout ops :
  NoDup (inserted_ids ops) ->
  let s := pending_exec_all ops (mkPendingRun (make_pending max_entries timeout) [] []) in
  Z.of_nat (size (map_ (pr_map s))) <= Z.max 0 max_entries /\
  pr_accepted s ≡ₚ (pr_out s).*1 ++ (map_to_list (map_ (pr_map s))).*1.
Proof.
  intros Hnd s. destruct (pending_exec_all_inv ops (mkPendingRun (make_pending max_entries timeout) [] [])) as [[Ha Hs] Hm]; [| done | |].
  - split; cbn; [rewrite map_to_list_empty; done | rewrite map_size_empty; lia].
  - intros c _ Hc. by apply elem_of_nil in Hc.
  - fold s in Ha, Hs, Hm. rewrite Hm in Hs. done.
Qed.

Lemma pending_requests_conserved_witness :
  let s := pending_exec_all [PInsert 1 10 7 0; PInsert 2 11 8 0; PExtract 1; PSweep 99000000; PInsert 3 10 7 100000000; PExtract 1]
             (mkPendingRun (make_pending 2 50) [] []) in
  (pr_out s).*1 = [1; 2] /\ pr_accepted s ≡ₚ (pr_out s).*1 ++ (map_to_list (map_ (pr_map s))).*1.
Proof.
  intros s. split; [vm_compute; reflexivity |].
  apply (pending_requests_conserved 2 50 [PInsert 1 10 7 0; PInsert 2 11 8 0; PExtract 1; PSweep 99000000; PInsert 3 10 7 100000000; PExtract 1]).
  apply (bool_decide_unpack _). vm_compute. exact I.
Defined.

End PendingLemmas.

(** ** Channels: the two maps are the two sides of one relation *)

Section ChannelLemmas.
Import Channels.

(** [session_id] is listed under [channel]. *)
Definition listed (channel : channel_name) (session_id : Z) (m : ChannelSessionMap) : Prop :=
  session_id ∈ default [] (channel_to_sessions_ m !! channel).
Definition indexed (channel : channel_name) (session_id : Z) (m : ChannelSessionMap) : Prop :=
  channel ∈ default ∅ (session_to_channels_ m !! session_id).

Record channels_inv (m : ChannelSessionMap) : Prop := {
  ch_agree : forall c s, listed c s m <-> indexed c s m;
  ch_nodup : forall c l, channel_to_sessions_ m !! c = Some l -> NoDup l /\ l <> [];
  ch_limit : forall s cs, session_to_channels_ m !! s = Some cs -> cs <> ∅ /\
    (0 < max_subscriptions_per_session_ m -> Z.of_nat (size cs) <= max_subscriptions_per_session_ m)
}.

Lemma make_channels_inv n : channels_inv (make_channels n).
Proof.
  split; cbn; [| intros c l; rewrite lookup_empty; done..]. intros c s. unfold listed, indexed. cbn. rewrite !lookup_empty. set_solver.
Qed.

Lemma listed_drop session_id channel c2s c s :
  (forall l, c2s !! channel = Some l -> l <> []) ->
  s ∈ default [] (drop_subscriber session_id channel c2s !! c) <-> s ∈ default [] (c2s !! c) /\ ~ (c = channel /\ s = session_id).
Proof.
  intros Hne. unfold drop_subscriber. destruct (c2s !! channel) as [l |] eqn:E.
  - destruct (decide (c = channel)) as [-> | Hc].
    + assert (Hf : forall x, x ∈ filter (λ s, s ≠ session_id) l <-> x ≠ session_id /\ x ∈ l) by (intros x; rewrite list_elem_of_filter; done).
      rewrite E. destruct (filter (λ s, s ≠ session_id) l) as [| y ys]; [rewrite lookup_delete_eq | rewrite lookup_insert_eq]; cbn [default];
        specialize (Hf s); rewrite ?Hf; [| tauto]. rewrite elem_of_nil in *. tauto.
    + destruct (filter _ l); [rewrite lookup_delete_ne by done | rewrite lookup_insert_ne by done]; tauto.
  - split; [intros H; split; [done |] | tauto]. intros [-> ->]. rewrite E in H. by apply elem_of_nil in H.
Qed.

Lemma drop_nodup session_id channel c2s c l :
  (forall c l, c2s !! c = Some l -> NoDup l /\ l <> []) -> drop_subscriber session_id channel c2s !! c = Some l -> NoDup l /\ l <> [].
Proof.
  intros H. unfold drop_subscriber. destruct (c2s !! channel) as [l0 |] eqn:E; [| apply H].
  destruct (H _ _ E) as [Hnd _]. pose proof (NoDup_filter (λ s, s ≠ session_id) l0 Hnd) as Hf.
  destruct (filter _ l0) as [| y ys]; intros Hl.
  - apply lookup_delete_Some in Hl as [_ Hl]. eapply H, Hl.
  - apply lookup_insert_Some in Hl as [[_ <-] | [_ Hl]]; [done | eapply H, Hl].
Qed.

Lemma subscribe_spec channel session_id m : channels_inv m ->
  let '(r, m') := subscribe channel session_id m in
  channels_inv m' /\ max_subscriptions_per_session_ m' = max_subscriptions_per_session_ m /\
  match r with
  | Ok _ => forall c s, listed c s m' <-> listed c s m \/ (c = channel /\ s = session_id)
  | Err e => e = ServiceError /\ (forall c s, listed c s m' <-> listed c s m) /\ ~ listed channel session_id m /\
      0 < max_subscriptions_per_session_ m <= Z.of_nat (size (default ∅ (session_to_channels_ m !! session_id)))
  end.
Proof.
  intros [Ha Hn Hl]. unfold subscribe. set (chs := default ∅ (session_to_channels_ m !! session_id)).
  destruct ((0 <? _) && _ && _) eqn:E.
  - rewrite !andb_true_iff, Z.ltb_lt, Z.leb_le, bool_decide_eq_true in E. destruct E as [[E1 E2] E3].
    assert (Hs : exists cs, session_to_channels_ m !! session_id = Some cs).
    { subst chs. destruct (session_to_channels_ m !! session_id) as [cs |]; [by eexists |]. cbn in E2. rewrite size_empty in E2. lia. }
    destruct Hs as [cs Hcs]. subst chs. rewrite Hcs in *. cbn [default] in *. rewrite (insert_id _ _ _ Hcs).
    assert (Em : mkChannels (max_subscriptions_per_session_ m) (channel_to_sessions_ m) (session_to_channels_ m) = m) by (by destruct m). rewrite Em.
    split; [by split |]. split_and!; [done | done | done | | lia | lia]. rewrite Ha. unfold indexed. rewrite Hcs. done.
  - rewrite !andb_false_iff, Z.ltb_ge, Z.leb_gt, bool_decide_eq_false in E.
    set (ss := default [] (channel_to_sessions_ m !! channel)).
    set (ss' := if bool_decide (session_id ∈ ss) then ss else ss ++ [session_id]).
    assert (Hss : forall s, s ∈ ss' <-> s ∈ ss \/ s = session_id).
    { intros s. subst ss'. case_bool_decide; [split; [by left | by intros [? | ->]] |]. rewrite elem_of_app, list_elem_of_singleton. tauto. }
    assert (Hlisted : forall c s, s ∈ default [] (<[channel := ss']> (channel_to_sessions_ m) !! c) <-> listed c s m \/ (c = channel /\ s = session_id)).
    { intros c s. unfold listed. destruct (decide (c = channel)) as [-> | Hc]; [rewrite lookup_insert_eq; cbn [default]; rewrite Hss; subst ss; tauto |].
      rewrite lookup_insert_ne by done. tauto. }
    rewrite insert_insert_eq. split_and!; [| done | exact Hlisted]. split; cbn [channel_to_sessions_ session_to_channels_ max_subscriptions_per_session_].
    + intros c s. unfold listed at 1. cbn [channel_to_sessions_]. rewrite Hlisted, Ha. unfold indexed. cbn [session_to_channels_].
      destruct (decide (s = session_id)) as [-> | Hs]; [rewrite lookup_insert_eq; cbn [default]; fold chs; set_solver |].
      rewrite lookup_insert_ne by done. tauto.
    + intros c l H. apply lookup_insert_Some in H as [[<- <-] | [_ H]]; [| eapply Hn, H].
      assert (Hnd : NoDup ss) by (subst ss; destruct (channel_to_sessions_ m !! channel) eqn:Ec; [eapply Hn, Ec | constructor]).
      subst ss'. case_bool_decide as Hin; split; try done; [intros Hx; rewrite Hx in Hin; by apply elem_of_nil in Hin | | by destruct ss].
      apply NoDup_app. split_and!; [done | | apply NoDup_singleton]. intros x Hx ->%list_elem_of_singleton. done.
    + intros s cs H. apply lookup_insert_Some in H as [[<- <-] | [_ H]]; [| eapply Hl, H]. split; [set_solver |]. intros Hpos.
      destruct (decide (channel ∈ chs)) as [Hin | Hout].
      * rewrite subseteq_union_1_L by set_solver. subst chs. destruct (session_to_channels_ m !! session_id) as [cs |] eqn:Ec; [apply (Hl _ _ Ec), Hpos | set_solver].
      * rewrite size_union, size_singleton by set_solver. destruct E as [[E | E] | E]; [lia | lia | done].
Qed.

Lemma unsubscribe_spec channel session_id m : channels_inv m ->
  let m' := unsubscribe channel session_id m in
  channels_inv m' /\ max_subscriptions_per_session_ m' = max_subscriptions_per_session_ m /\
  forall c s, listed c s m' <-> listed c s m /\ ~ (c = channel /\ s = session_id).
Proof.
  intros [Ha Hn Hl] m'.
  assert (Hlisted : forall c s, listed c s m' <-> listed c s m /\ ~ (c = channel /\ s = session_id)).
  { intros c s. apply listed_drop. intros l Hx. by apply Hn in Hx as [_ ?]. }
  split_and!; [| done | exact Hlisted]. split.
  - intros c s. rewrite Hlisted, Ha. unfold indexed, m', unsubscribe. cbn [session_to_channels_].
    destruct (session_to_channels_ m !! session_id) as [cs |] eqn:E.
    + destruct (decide (s = session_id)) as [-> | Hs].
      * rewrite E. case_bool_decide as Hemp; [rewrite lookup_delete_eq | rewrite lookup_insert_eq]; cbn [default]; set_solver.
      * case_bool_decide; [rewrite lookup_delete_ne by done | rewrite lookup_insert_ne by done]; tauto.
    + split; [tauto |]. intros H. split; [done |]. intros [-> ->]. rewrite E in H. set_solver.
  - intros c l. apply drop_nodup, Hn.
  - intros s cs. unfold m', unsubscribe. cbn [session_to_channels_ max_subscriptions_per_session_].
    destruct (session_to_channels_ m !! session_id) as [cs0 |] eqn:E; [| apply Hl].
    case_bool_decide as Hemp; intros H.
    + apply lookup_delete_Some in H as [_ H]. apply (Hl _ _ H).
    + apply lookup_insert_Some in H as [[<- <-] | [_ H]]; [| apply (Hl _ _ H)]. split; [done |]. intros Hpos.
      destruct (Hl _ _ E) as [_ Hb]. specialize (Hb Hpos). pose proof (subseteq_size (cs0 ∖ {[channel]}) cs0 ltac:(set_solver)). lia.
Qed.

Lemma drop_all session_id chs c2s :
  (forall c l, c2s !! c = Some l -> NoDup l /\ l <> []) ->
  (forall c l, foldr (drop_subscriber session_id) c2s chs !! c = Some l -> NoDup l /\ l <> []) /\
  forall c s, s ∈ default [] (foldr (drop_subscriber session_id) c2s chs !! c) <-> s ∈ default [] (c2s !! c) /\ ~ (c ∈ chs /\ s = session_id).
Proof.
  intros H. induction chs as [| ch chs [IH1 IH2]]; cbn [foldr].
  - split; [done |]. intros c s. rewrite elem_of_nil. tauto.
  - split; [intros c l; apply drop_nodup, IH1 |]. intros c s. rewrite listed_drop by (intros l Hx; by apply IH1 in Hx as [_ ?]).
    rewrite IH2, elem_of_cons. tauto.
Qed.

Lemma unsubscribe_all_spec session_id m : channels_inv m ->
  let m' := unsubscribe_all session_id m in
  channels_inv m' /\ max_subscriptions_per_session_ m' = max_subscriptions_per_session_ m /\
  forall c s, listed c s m' <-> listed c s m /\ s <> session_id.
Proof.
  intros [Ha Hn Hl] m'. unfold m', unsubscribe_all. destruct (session_to_channels_ m !! session_id) as [chs |] eqn:E.
  - destruct (drop_all session_id (elements chs) (channel_to_sessions_ m) Hn) as [Hn' Hd].
    assert (Hlisted : forall c s, s ∈ default [] (foldr (drop_subscriber session_id) (channel_to_sessions_ m) (elements chs) !! c) <-> listed c s m /\ s <> session_id).
    { intros c s. rewrite Hd, elem_of_elements. fold (listed c s m). split; [| tauto]. intros [H1 H2]. split; [done |]. intros ->. apply H2. split; [| done].
      apply Ha in H1. unfold indexed in H1. rewrite E in H1. done. }
    split_and!; [| done | exact Hlisted]. split; [| exact Hn' |].
    + intros c s. unfold listed at 1. cbn [channel_to_sessions_]. rewrite Hlisted, Ha. unfold indexed. cbn [session_to_channels_].
      destruct (decide (s = session_id)) as [-> | Hs]; [rewrite lookup_delete_eq; set_solver | rewrite lookup_delete_ne by done; tauto].
    + intros s cs. cbn [session_to_channels_ max_subscriptions_per_session_]. intros H. apply lookup_delete_Some in H as [_ H]. apply (Hl _ _ H).
  - split_and!; [by split | done |]. intros c s. split; [| tauto]. intros H. split; [done |]. intros ->. apply Ha in H. unfold indexed in H. rewrite E in H. set_solver.
Qed.

(** *** The subscription relation *)

Inductive channel_op : Type :=
| Subscribe (channel : channel_name) (session_id : Z)
| Unsubscribe (channel : channel_name) (session_id : Z)
| UnsubscribeAll (session_id : Z).

Definition channel_exec (op : channel_op) (m : ChannelSessionMap) : Result unit * ChannelSessionMap :=
  match op with
  | Subscribe c s => subscribe c s m
  | Unsubscribe c s => (Ok tt, unsubscribe c s m)
  | UnsubscribeAll s => (Ok tt, unsubscribe_all s m)
  end.

(** The specification: a set of pairs of a channel and a session. *)
Definition channels_of (s : Z) (R : gset (channel_name * Z)) : gset channel_name := set_map fst (filter (λ p, p.2 = s) R).

Definition channel_spec (limit : Z) (op : channel_op) (R : gset (channel_name * Z)) : Result unit * gset (channel_name * Z) :=
  match op with
  | Subscribe c s =>
      if decide ((0 < limit <= Z.of_nat (size (channels_of s R))) /\ (c, s) ∉ R) then (Err ServiceError, R) else (Ok tt, {[(c, s)]} ∪ R)
  | Unsubscribe c s => (Ok tt, R ∖ {[(c, s)]})
  | UnsubscribeAll s => (Ok tt, filter (λ p, p.2 <> s) R)
  end.

Fixpoint channel_run (ops : list channel_op) (m : ChannelSessionMap) : list (Result unit) * ChannelSessionMap :=
  match ops with [] => ([], m) | op :: ops => let '(r, m) := channel_exec op m in let '(rs, m) := channel_run ops m in (r :: rs, m) end.

Fixpoint channel_spec_run (limit : Z) (ops : list channel_op) (R : gset (channel_name * Z)) : list (Result unit) * gset (channel_name * Z) :=
  match ops with [] => ([], R) | op :: ops => let '(r, R) := channel_spec limit op R in let '(rs, R) := channel_spec_run limit ops R in (r :: rs, R) end.

Definition channels_rel (m : ChannelSessionMap) (R : gset (channel_name * Z)) : Prop := forall c s, listed c s m <-> (c, s) ∈ R.

Lemma elem_of_channels_of c s R : c ∈ channels_of s R <-> (c, s) ∈ R.
Proof.
  unfold channels_of. rewrite elem_of_map. split.
  - intros ([c' s'] & -> & H). apply elem_of_filter in H as [Hs H]. cbn in *. by subst.
  - intros H. exists (c, s). split; [done |]. apply elem_of_filter. done.
Qed.

Lemma channels_rel_size m R s : channels_inv m -> channels_rel m R -> default ∅ (session_to_channels_ m !! s) = channels_of s R.
Proof. intros Hi Hr. apply set_eq. intros c. rewrite elem_of_channels_of, <- (Hr c s), (ch_agree m Hi c s). done. Qed.

Lemma channel_exec_refines op m R : channels_inv m -> channels_rel m R ->
  let '(r, m') := channel_exec op m in
  let '(r', R') := channel_spec (max_subscriptions_per_session_ m) op R in
  r = r' /\ channels_inv m' /\ channels_rel m' R' /\ max_subscriptions_per_session_ m' = max_subscriptions_per_session_ m.
Proof.
  intros Hi Hr. destruct op as [c s | c s | s]; cbn [channel_exec channel_spec].
  - pose proof (subscribe_spec c s m Hi) as H. pose proof (channels_rel_size m R s Hi Hr) as Hsz.
    destruct (subscribe c s m) as [r m'] eqn:E. destruct H as (Hi' & Hm & Hres). destruct r as [[] | e].
    + destruct (decide _) as [[Hfull Hnot] | _].
      * exfalso. unfold subscribe in E. rewrite Hsz in E. rewrite (bool_decide_eq_true_2 (c ∉ channels_of s R)) in E by (by rewrite elem_of_channels_of).
        rewrite (proj2 (Z.ltb_lt _ _)), (proj2 (Z.leb_le _ _)) in E by lia. cbn [andb] in E. discriminate E.
      * split_and!; [done | done | | done]. intros c' s'. rewrite Hres, elem_of_union, elem_of_singleton, (Hr c' s'). split; [intros [? | [-> ->]]; auto | intros [[= -> ->] | ?]; auto].
    + destruct Hres as (-> & Hres & Hnot & Hfull). rewrite Hsz in Hfull. rewrite decide_True by (split; [lia | by rewrite <- (Hr c s)]).
      split_and!; [done | done | | done]. intros c' s'. rewrite Hres. apply Hr.
  - destruct (unsubscribe_spec c s m Hi) as (Hi' & Hm & Hres). split_and!; [done | done | | done].
    intros c' s'. rewrite Hres, elem_of_difference, elem_of_singleton, (Hr c' s'). split; intros [H1 H2]; (split; [done |]); intros Hx; apply H2; [by injection Hx | destruct Hx; congruence].
  - destruct (unsubscribe_all_spec s m Hi) as (Hi' & Hm & Hres). split_and!; [done | done | | done].
    intros c' s'. rewrite Hres, elem_of_filter, (Hr c' s'). cbn. tauto.
Qed.

Lemma channel_run_refines ops m R : channels_inv m -> channels_rel m R ->
  let '(rs, m') := channel_run ops m in
  let '(rs', R') := channel_spec_run (max_subscriptions_per_session_ m) ops R in
  rs = rs' /\ channels_inv m' /\ channels_rel m' R' /\ max_subscriptions_per_session_ m' = max_subscriptions_per_session_ m.
Proof.
  revert m R. induction ops as [| op ops IH]; intros m R Hi Hr; [done |]. cbn [channel_run channel_spec_run].
  pose proof (channel_exec_refines op m R Hi Hr) as H. destruct (channel_exec op m) as [r m1], (channel_spec _ op R) as [r1 R1].
  destruct H as (-> & Hi1 & Hr1 & Hm1). specialize (IH m1 R1 Hi1 Hr1). rewrite Hm1 in IH.
  destruct (channel_run ops m1) as [rs m2], (channel_spec_run _ ops R1) as [rs2 R2]. destruct IH as (-> & ? & ? & ?). done.
Qed.

(** Under any sequence of subscribes, unsubscribes and session closings the two
    maps are one relation between channels and sessions: each operation answers and
    changes it as the specification says, the subscribers of a channel are exactly
    the sessions related to it, each once, a channel without subscribers is absent,
    and no session exceeds a positive subscription limit. *)
Theorem channel_map_refines limit ops :
  let '(rs, m) := channel_run ops (make_channels limit) in
  let '(rs', R) := channel_spec_run limit ops ∅ in
  rs = rs' /\
  (forall c, match get_subscribers c m with
             | Some l => NoDup l /\ l <> [] /\ forall s, s ∈ l <-> (c, s) ∈ R
             | None => forall s, (c, s) ∉ R
             end) /\
  (0 < limit -> forall s, Z.of_nat (size (channels_of s R)) <= limit).
Proof.
  pose proof (channel_run_refines ops (make_channels limit) ∅ (make_channels_inv limit)) as H. cbn [make_channels max_subscriptions_per_session_] in H.
  destruct (channel_run ops (make_channels limit)) as [rs m], (channel_spec_run limit ops ∅) as [rs' R].
  destruct H as (-> & Hi & Hr & Hm). { intros c s. unfold listed. cbn. rewrite lookup_empty. set_solver. }
  split_and!; [done | |].
  - intros c. unfold get_subscribers. specialize (Hr c). unfold listed in Hr. destruct (channel_to_sessions_ m !! c) as [l |] eqn:E; cbn [default] in Hr.
    + destruct (ch_nodup m Hi _ _ E). done.
    + intros s Hs. apply Hr in Hs. by apply elem_of_nil in Hs.
  - intros Hpos s. rewrite <- (channels_rel_size m R s Hi Hr). destruct (session_to_channels_ m !! s) as [cs |] eqn:E; cbn [default].
    + destruct (ch_limit m Hi _ _ E) as [_ Hb]. rewrite Hm in Hb. auto.
    + rewrite size_empty. lia.
Qed.

End ChannelLemmas.
