(* ===== verification/GatewayPipeline.v ===== *)
(** * The gateway's admission pipeline

    [JwtVerifier] and [JwtBlacklist] (apex_services/gateway/src/jwt_verifier.cpp,
    jwt_blacklist.cpp) and the template [GatewayPipelineBase<VerifierT, BlacklistT,
    LimiterT>] (include/apex/gateway/gateway_pipeline.hpp).

    The template's policies are arguments over the state [W] they act on (limiter,
    Redis connection); a limiter is an instance of the class [Limiter]. jwt-cpp is outside the repository: what it returns
    for a token is the argument [jwt_decode]. The clock readings are arguments. *)

From S2P Require Import Prelude ErrorCode Text WireHeader RingBuffer ConnectionHandler PerIpRateLimiter RedisRateLimiter.

(** ** JWT verification *)

Module Jwt.

Record JwtClaims : Type := mkClaims { user_id : Z; email : list Z; jti : list Z; expires_at : Z }.

(** A decoded and verified token: the claims it carries. A failed verification or
    any other exception of the library is [None]. *)
Record decoded_jwt : Type := mkDecoded { d_uid : option (list Z); d_subject : option (list Z); d_jti : option (list Z); d_expires : option Z }.

Definition verify (jwt_decode : list Z -> option decoded_jwt) (token : list Z) : Result JwtClaims :=
  match jwt_decode token with
  | None => Err ServiceError
  | Some decoded =>
      match d_uid decoded with
      | None => Err ServiceError
      | Some uid_str =>
          match from_chars uid_str with
          | None => Err ServiceError
          | Some uid =>
              match d_subject decoded with
              | None => Err ServiceError
              | Some email =>
                  match d_expires decoded with
                  | None => Err ServiceError
                  | Some exp => Ok (mkClaims uid email (default [] (d_jti decoded)) exp)
                  end
              end
          end
      end
  end.

Definition is_sensitive (sensitive_msg_ids : list Z) (msg_id : Z) : bool := bool_decide (msg_id ∈ sensitive_msg_ids).

(** ** The blacklist *)

Definition jti_char (c : Z) : bool :=
  ((48 <=? c) && (c <=? 57)) || ((97 <=? c) && (c <=? 102)) || ((65 <=? c) && (c <=? 70)) || (c =? 45).

Definition is_valid_jti (jti : list Z) : bool :=
  match jti with [] => false | _ :: _ => if 128 <? len jti then false else forallb jti_char jti end.

(** [exists_] is the Redis [EXISTS] of the key with the given suffix. *)
Definition is_blacklisted {W} (exists_ : list Z -> W -> Result Z * W) (jti : list Z) (w : W) : Result bool * W :=
  if negb (is_valid_jti jti) then (Ok true, w)
  else match exists_ jti w with
  | (Err _, w) => (Err AdapterError, w)
  | (Ok n, w) => (Ok (0 <? n), w)
  end.

End Jwt.

(** ** Errors of the gateway *)

Module Gateway.

Inductive GatewayError : Type :=
| ConfigParseFailed | JwtVerifyFailed | JwtExpired | JwtBlacklisted | RouteNotFound | ServiceTimeout | PendingMapFull
| RateLimitedIp | RateLimitedUser | RateLimitedEndpoint | SubscriptionLimitExceeded | BlacklistCheckFailed.

Definition gateway_error_value (e : GatewayError) : Z :=
  match e with
  | ConfigParseFailed => 1 | JwtVerifyFailed => 2 | JwtExpired => 3 | JwtBlacklisted => 4 | RouteNotFound => 5
  | ServiceTimeout => 6 | PendingMapFull => 7 | RateLimitedIp => 8 | RateLimitedUser => 9 | RateLimitedEndpoint => 10
  | SubscriptionLimitExceeded => 11 | BlacklistCheckFailed => 12
  end.

Definition GatewayResult : Type := expected unit GatewayError.

Record AuthState : Type := mkAuth { authenticated : bool; user_id : Z; jti : list Z; token : list Z }.
Definition default_auth : AuthState := mkAuth false 0 [] [].

(** [AuthConfig]. *)
Record AuthConfig : Type := mkAuthConfig { auth_exempt_msg_ids : gset Z; blacklist_fail_open : bool }.

(** ** The policies of the pipeline *)

Class Limiter (W : Type) : Type := {
  limiter_check_ip : ip_address -> Z -> W -> bool * W;
  limiter_check_user : Z -> Z -> W -> Result Redis.RateLimitResult * W;
  limiter_check_endpoint : Z -> Z -> Z -> W -> Result Redis.RateLimitResult * W
}.

Section Pipeline.
Context {W : Type}.
(** The verifier, and the pointers to the blacklist and the limiter. *)
Context (verify : list Z -> Result Jwt.JwtClaims) (is_sensitive : Z -> bool).
Context (blacklist_ : option (list Z -> W -> Result bool * W)) (rate_limiter_ : option (Limiter W)).
Context (config_ : AuthConfig).

Definition check_ip_rate_limit (remote_ip : ip_address) (now : Z) (w : W) : GatewayResult * W :=
  match rate_limiter_ with
  | None => (Ok tt, w)
  | Some l => let '(ok, w) := limiter_check_ip (Limiter := l) remote_ip now w in ((if ok : bool then Ok tt else Err RateLimitedIp), w)
  end.

Definition check_user_rate_limit (user_id now_ms : Z) (w : W) : GatewayResult * W :=
  match rate_limiter_ with
  | None => (Ok tt, w)
  | Some l =>
      match limiter_check_user (Limiter := l) user_id now_ms w with
      | (Err _, w) => (Ok tt, w)
      | (Ok r, w) => ((if Redis.allowed r then Ok tt else Err RateLimitedUser), w)
      end
  end.

Definition check_endpoint_rate_limit (user_id msg_id now_ms : Z) (w : W) : GatewayResult * W :=
  match rate_limiter_ with
  | None => (Ok tt, w)
  | Some l =>
      match limiter_check_endpoint (Limiter := l) user_id msg_id now_ms w with
      | (Err _, w) => (Ok tt, w)
      | (Ok r, w) => ((if Redis.allowed r then Ok tt else Err RateLimitedEndpoint), w)
      end
  end.

Definition authenticate (msg_id : Z) (state : AuthState) (w : W) : GatewayResult * AuthState * W :=
  if bool_decide (msg_id ∈ auth_exempt_msg_ids config_) then (Ok tt, state, w)
  else match token state with
  | [] => (Err JwtVerifyFailed, state, w)
  | _ :: _ =>
      match verify (token state) with
      | Err _ => (Err JwtVerifyFailed, state, w)
      | Ok claims =>
          let '(refused, w) :=
            match blacklist_ with
            | Some is_blacklisted =>
                if is_sensitive msg_id then
                  match is_blacklisted (Jwt.jti claims) w with
                  | (Ok true, w) => (Some JwtBlacklisted, w)
                  | (Ok false, w) => (None, w)
                  | (Err _, w) => ((if blacklist_fail_open config_ then None else Some BlacklistCheckFailed), w)
                  end
                else (None, w)
            | None => (None, w)
            end in
          match refused with
          | Some e => (Err e, state, w)
          | None => (Ok tt, mkAuth true (Jwt.user_id claims) (Jwt.jti claims) (token state), w)
          end
      end
  end.

Fixpoint fnv1a_hash (h : Z) (s : list Z) : Z :=
  match s with [] => h | c :: s => fnv1a_hash (u64 (Z.lxor h (u8 c) * 1099511628211)) s end.

Definition ip_key (remote_ip : ip_address) : Z := fnv1a_hash 14695981039346656037 remote_ip.

(** The result, the error code of the frame sent to the session if one is, the
    session's new state and the world. [now] is the steady clock, [ms i] the system
    clock at the [i]-th Redis check. *)
Definition process (msg_id : Z) (state : AuthState) (remote_ip : ip_address) (now : Z) (ms : nat -> Z) (w : W) :
    Result unit * option GatewayError * AuthState * W :=
  let deny e state w := (Err ServiceError, Some e, state, w) in
  match check_ip_rate_limit remote_ip now w with
  | (Err e, w) => deny e state w
  | (Ok _, w) =>
      match authenticate msg_id state w with
      | (Err e, state, w) => deny e state w
      | (Ok _, state, w) =>
          if authenticated state then
            match check_user_rate_limit (user_id state) (ms 0%nat) w with
            | (Err e, w) => deny e state w
            | (Ok _, w) =>
                match check_endpoint_rate_limit (user_id state) msg_id (ms 1%nat) w with
                | (Err e, w) => deny e state w
                | (Ok _, w) => (Ok tt, None, state, w)
                end
            end
          else if bool_decide (msg_id ∈ auth_exempt_msg_ids config_) then
            match check_endpoint_rate_limit (ip_key remote_ip) msg_id (ms 0%nat) w with
            | (Err e, w) => deny e state w
            | (Ok _, w) => (Ok tt, None, state, w)
            end
          else (Ok tt, None, state, w)
      end
  end.

End Pipeline.

End Gateway.
Import Gateway.

(** ** The production limiter *)

(** [RateLimitFacade] as the pipeline's limiter, on the facade and the Redis state.
    The gateway passes timer callbacks that do nothing and return 0. *)
Section Production.
Context {C : Type} (command : Redis.redis_command -> C -> Result Redis.RedisReply * C).

#[local] Instance facade_limiter : Limiter (outcome Facade.RateLimitFacade * C) := {
  limiter_check_ip ip now w :=
    match (run f <- w.1; Facade.check_ip ip now 0 f) with
    | Returns (b, _, f) => (b, (Returns f, w.2))
    | Throws x => (false, (Throws x, w.2))
    end;
  limiter_check_user uid ms w :=
    match w.1 with
    | Returns f => let '(r, c) := Facade.facade_check_user command f uid ms w.2 in (r, (Returns f, c))
    | Throws x => (Err ServiceError, w)
    end;
  limiter_check_endpoint uid mid ms w :=
    match w.1 with
    | Returns f => let '(r, c) := Facade.facade_check_endpoint command f uid mid ms w.2 in (r, (Returns f, c))
    | Throws x => (Err ServiceError, w)
    end
}.

End Production.

(** ** What the pipeline lets through *)

Section Admission.
Context {W : Type} (verify : list Z -> Result Jwt.JwtClaims) (is_sensitive : Z -> bool).
Context (blacklist : option (list Z -> W -> Result bool * W)) (limiter : option (Limiter W)) (config : AuthConfig).

Abbreviation exempt msg_id := (msg_id ∈ auth_exempt_msg_ids config).

(** There is no blacklist, it clears the token for the message, or it cannot be asked and the
    configuration lets such messages through. *)
Definition blacklist_clears (msg_id : Z) (claims : Jwt.JwtClaims) (w : W) : Prop :=
  match blacklist with
  | Some bl => is_sensitive msg_id = true ->
      match (bl (Jwt.jti claims) w).1 with Ok b => b = false | Err _ => blacklist_fail_open config = true end
  | None => True
  end.

Lemma authenticate_spec msg_id state w :
  let '(r, state', w') := authenticate verify is_sensitive blacklist config msg_id state w in
  match r with
  | Ok _ => (exempt msg_id /\ state' = state /\ w' = w) \/
      (~ exempt msg_id /\ exists claims, token state <> [] /\ verify (token state) = Ok claims /\ blacklist_clears msg_id claims w /\
         state' = mkAuth true (Jwt.user_id claims) (Jwt.jti claims) (token state))
  | Err e => ~ exempt msg_id /\ state' = state /\
      ((e = JwtVerifyFailed /\ forall claims, token state = [] \/ verify (token state) <> Ok claims) \/
       (exists claims, verify (token state) = Ok claims /\ is_sensitive msg_id = true /\
          exists bl, blacklist = Some bl /\
          match (bl (Jwt.jti claims) w).1 with
          | Ok b => b = true /\ e = JwtBlacklisted
          | Err _ => blacklist_fail_open config = false /\ e = BlacklistCheckFailed
          end))
  end.
Proof.
  unfold authenticate. case_bool_decide as Hex; [by left |]. destruct (token state) as [| t ts] eqn:Et.
  { split_and!; [done.. |]. left. split; [done |]. intros claims. by left. }
  rewrite <- Et in *. destruct (verify (token state)) as [claims | e] eqn:Ev.
  2:{ split_and!; [done.. |]. left. split; [done |]. intros claims. by right. }
  unfold blacklist_clears. destruct blacklist as [bl |] eqn:Ebl.
  2:{ right. split; [done |]. exists claims. split_and!; [congruence | done..]. }
  destruct (is_sensitive msg_id).
  2:{ right. split; [done |]. exists claims. split_and!; [congruence | done..]. }
  destruct (bl (Jwt.jti claims) w) as [[[] | eb] w'] eqn:Eb.
  - split_and!; [done.. |]. right. exists claims. split_and!; [done.. |]. exists bl. rewrite Eb. done.
  - right. split; [done |]. exists claims. rewrite Eb. split_and!; [congruence | done..].
  - destruct (blacklist_fail_open config) eqn:Ef.
    + right. split; [done |]. exists claims. rewrite Eb. split_and!; [congruence | done..].
    + split_and!; [done.. |]. right. exists claims. split_and!; [done.. |]. exists bl. rewrite Eb. done.
Qed.

(** C37: a message passes the pipeline with no frame sent, or is refused with exactly
    one error frame. A message that is not exempt passes only with a token that
    verifies now; when a blacklist is installed and the message is sensitive, only if
    the token is not on it or it cannot be asked while the configuration lets such
    messages through (the gateway itself installs none, so that there a revoked token
    passes until it expires); the session is then the token's user, whoever it was
    before. A message refused by the IP layer reaches no other layer, and a refusal
    before the rate limits leaves the session's state as it was. *)
Theorem pipeline_admission msg_id state ip now ms w :
  let '(r, frame, state', w') := process verify is_sensitive blacklist limiter config msg_id state ip now ms w in
  let '(ip_ok, w1) := check_ip_rate_limit limiter ip now w in
  match r with
  | Ok _ => frame = None /\ ip_ok = Ok tt /\ token state' = token state /\
      (exempt msg_id /\ state' = state \/
       exists claims, verify (token state) = Ok claims /\ token state <> [] /\ blacklist_clears msg_id claims w1 /\
         authenticated state' = true /\ user_id state' = Jwt.user_id claims)
  | Err e => e = ServiceError /\ exists g, frame = Some g /\
      ((ip_ok = Err g /\ state' = state /\ w' = w1) \/
       (ip_ok = Ok tt /\ g ∈ [JwtVerifyFailed; JwtBlacklisted; BlacklistCheckFailed] /\ ~ exempt msg_id /\ state' = state) \/
       (ip_ok = Ok tt /\ g ∈ [RateLimitedUser; RateLimitedEndpoint]))
  end.
Proof.
  unfold process. destruct (check_ip_rate_limit limiter ip now w) as [[[] | e] w1] eqn:Eip.
  2:{ split; [done |]. exists e. split; [done |]. by left. }
  pose proof (authenticate_spec msg_id state w1) as Ha. destruct (authenticate _ _ _ _ msg_id state w1) as [[[[] | e] st] w2].
  2:{ destruct Ha as (Hex & -> & Hr). split; [done |]. exists e. split; [done |]. right. left. split_and!; [done | | done | done].
      destruct Hr as [[-> _] | (claims & _ & _ & bl & _ & Hr)]; [set_solver |]. destruct ((bl _ w1).1); destruct Hr as [_ ->]; set_solver. }
  assert (Htok : token st = token state) by (destruct Ha as [(_ & -> & _) | (_ & claims & _ & _ & _ & ->)]; done).
  assert (Hpass : token st = token state /\ (exempt msg_id /\ st = state \/ exists claims, verify (token state) = Ok claims /\ token state <> [] /\
    blacklist_clears msg_id claims w1 /\ authenticated st = true /\ user_id st = Jwt.user_id claims)).
  { split; [done |]. destruct Ha as [(Hex & -> & _) | (_ & claims & Hne & Hv & Hb & ->)]; [by left |]. right. by exists claims. }
  assert (Hep : forall uid t w3, (check_endpoint_rate_limit limiter uid msg_id t w3).1 = Ok tt \/ (check_endpoint_rate_limit limiter uid msg_id t w3).1 = Err RateLimitedEndpoint).
  { intros uid t w3. unfold check_endpoint_rate_limit. destruct limiter eqn:El; [| by left]. destruct (limiter_check_endpoint _ _ _ _) as [[r |] ?]; [| by left]. destruct (Redis.allowed r); [by left | by right]. }
  assert (Hus : forall uid t w3, (check_user_rate_limit limiter uid t w3).1 = Ok tt \/ (check_user_rate_limit limiter uid t w3).1 = Err RateLimitedUser).
  { intros uid t w3. unfold check_user_rate_limit. destruct limiter eqn:El; [| by left]. destruct (limiter_check_user _ _ _) as [[r |] ?]; [| by left]. destruct (Redis.allowed r); [by left | by right]. }
  case (authenticated st).
  - specialize (Hus (user_id st) (ms 0%nat) w2). destruct (check_user_rate_limit limiter (user_id st) (ms 0%nat) w2) as [ru w3]. cbn [fst] in Hus.
    destruct Hus as [-> | ->]; [| split; [done |]; exists RateLimitedUser; split; [done | right; right; set_solver]].
    specialize (Hep (user_id st) (ms 1%nat) w3). destruct (check_endpoint_rate_limit limiter (user_id st) msg_id (ms 1%nat) w3) as [re w4]. cbn [fst] in Hep.
    destruct Hep as [-> | ->]; [split; [done |]; split; [done |]; exact Hpass |]. split; [done |]. exists RateLimitedEndpoint. split; [done |]. right; right. set_solver.
  - case_bool_decide; [| split; [done |]; split; [done |]; exact Hpass]. specialize (Hep (ip_key ip) (ms 0%nat) w2). destruct (check_endpoint_rate_limit limiter (ip_key ip) msg_id (ms 0%nat) w2) as [re w4]. cbn [fst] in Hep.
    destruct Hep as [-> | ->]; [split; [done |]; split; [done |]; exact Hpass |]. split; [done |]. exists RateLimitedEndpoint. split; [done |]. right; right. set_solver.
Qed.

(** Whatever the outcome, the session's state is unchanged or the verified token's. *)
Lemma process_auth_state msg_id state ip now ms w :
  let state' := (process verify is_sensitive blacklist limiter config msg_id state ip now ms w).1.2 in
  state' = state \/ exists claims, verify (token state) = Ok claims /\ state' = mkAuth true (Jwt.user_id claims) (Jwt.jti claims) (token state).
Proof.
  unfold process. destruct (check_ip_rate_limit limiter ip now w) as [[[] | e] w1]; [| by left].
  pose proof (authenticate_spec msg_id state w1) as Ha. destruct (authenticate _ _ _ _ msg_id state w1) as [[[[] | e] st] w2]; [| left; apply Ha].
  assert (Hst : st = state \/ exists claims, verify (token state) = Ok claims /\ st = mkAuth true (Jwt.user_id claims) (Jwt.jti claims) (token state)).
  { destruct Ha as [(_ & -> & _) | (_ & claims & _ & Hv & _ & ->)]; [by left | right; by exists claims]. }
  case (authenticated st).
  - destruct (check_user_rate_limit _ _ _ _) as [[] w3]; [| exact Hst]. destruct (check_endpoint_rate_limit _ _ _ _ _) as [[] w4]; exact Hst.
  - case_bool_decide; [| exact Hst]. destruct (check_endpoint_rate_limit _ _ _ _ _) as [[] w4]; exact Hst.
Qed.

End Admission.

(** [std::from_chars] stops at the first character that is not a digit, and the
    position it stopped at is not looked at: a [uid] claim with trailing characters
    is accepted. *)
Lemma uid_trailing_characters : from_chars [49; 50; 97; 98] = Some 12.
Proof. vm_compute. reflexivity. Qed.
