(* ===== verification/GatewayConfig.v ===== *)
(** * The gateway's configuration and its reload

    [apex::gateway::parse_gateway_config] (gateway/src/gateway_config_parser.cpp), what
    [main] makes of it (main.cpp), [FileWatcher] (file_watcher.cpp) and [ConfigReloader]
    (config_reloader.cpp), which give a new route table and new limits to every core when
    the file changes. A parsed file is a table of the TOML interface; the file system's
    answers are arguments of the events. *)

From S2P Require Import Prelude ErrorCode Text Config RouteTable PerIpRateLimiter RedisRateLimiter GatewayPipeline.
#[local] Open Scope Z_scope.

Import Toml Config.

Module GatewayCfg.

Abbreviation text := (list Z).

Record TlsConfig : Type := mkTls { cert_file : text; key_file : text; ca_file : text; require_client_cert : bool }.
Record JwtConfig : Type := mkJwt { public_key_file : text; algorithm : text; issuer : text; clock_skew : Z; sensitive_msg_ids : list Z }.
Record RateLimitIpConfig : Type := mkIp { total_limit : Z; ip_window_size_seconds : Z; max_entries : Z; ttl_multiplier : Z }.
Record RateLimitUserConfig : Type := mkUserRate { user_default_limit : Z; user_window_size_seconds : Z }.
Record RateLimitEndpointConfig : Type := mkEndpointRate { endpoint_default_limit : Z; endpoint_window_size_seconds : Z; endpoint_overrides : list (Z * Z) }.
Record RateLimitConfig : Type := mkRates { ip : RateLimitIpConfig; user : RateLimitUserConfig; endpoint : RateLimitEndpointConfig }.
(** One of the three Redis servers. *)
Record RedisAddress : Type := mkRedis { redis_host : text; redis_port : Z; redis_password : text }.

Record GatewayConfig : Type := mkGateway {
  ws_port : Z;
  tcp_port : Z;
  gw_num_cores : Z;
  tls : TlsConfig;
  jwt : JwtConfig;
  auth : Gateway.AuthConfig;
  routes : list Routes.RouteEntry;
  system_range_end : Z;
  kafka_brokers : text;
  kafka_consumer_group : text;
  kafka_response_topic : text;
  redis_pubsub : RedisAddress;
  global_channels : list text;
  redis_auth : RedisAddress;
  redis_ratelimit : RedisAddress;
  request_timeout : Z;
  max_pending_per_core : Z;
  gw_heartbeat_timeout_ticks : Z;
  sweep_interval_ms : Z;
  max_subscriptions_per_session : Z;
  rate_limit : RateLimitConfig
}.

Definition default_tls : TlsConfig := mkTls [] [] [] false.
Definition default_jwt : JwtConfig := mkJwt [] (bytes_of "RS256") (bytes_of "apex-auth") 30 [].
Definition default_redis : RedisAddress := mkRedis (bytes_of "localhost") 6379 [].
Definition default_ip : RateLimitIpConfig := mkIp 1000 60 65536 2.
Definition default_user : RateLimitUserConfig := mkUserRate 100 60.
Definition default_endpoint : RateLimitEndpointConfig := mkEndpointRate 60 60 [].

Section Parse.
Context {node : Type} `{Toml node} (getenv : text -> option text).
Abbreviation table := (list (text * node)).

(** [view[key].value_or(...)]. *)
Definition int_or (n : option node) (key : string) (dflt : Z) : Z := default dflt (at_key (bytes_of key) n ≫= value_int).
Definition text_or (n : option node) (key : string) (dflt : text) : text := default dflt (at_key (bytes_of key) n ≫= value_string).

(** A section whose fields are read if its key is there, whatever is at it. *)
Definition when {T} (n : option node) (read : option node -> T) (dflt : T) : T := match n with Some _ => read n | None => dflt end.

Definition parse_tls (n : option node) : TlsConfig :=
  when n (λ n, mkTls (text_or n "cert_file" []) (text_or n "key_file" []) (text_or n "ca_file" []) false) default_tls.

Definition parse_jwt (n : option node) : JwtConfig :=
  when n (λ n, mkJwt (text_or n "public_key_file" []) (text_or n "algorithm" (bytes_of "RS256")) (text_or n "issuer" (bytes_of "apex-auth"))
    (int_or n "clock_skew_seconds" 30)
    (match at_key (bytes_of "sensitive_msg_ids") n ≫= as_array with Some arr => (λ e, u32 (default 0 (value_int e))) <$> arr | None => [] end)) default_jwt.

Definition parse_route (t : table) : Routes.RouteEntry :=
  let at_ key := lookup_key (bytes_of key) t in
  Routes.mkRoute (u32 (default 0 (at_ "range_begin" ≫= value_int))) (u32 (default 0 (at_ "range_end" ≫= value_int))) (default [] (at_ "kafka_topic" ≫= value_string)).
Definition parse_routes (n : option node) : list Routes.RouteEntry :=
  match n ≫= as_array with Some arr => arr ≫= λ e, match as_table e with Some t => [parse_route t] | None => [] end | None => [] end.

Definition parse_redis (n : option node) : RedisAddress :=
  when n (λ n, mkRedis (text_or n "host" (bytes_of "localhost")) (u16 (int_or n "port" 6379)) (expand_env getenv (text_or n "password" []))) default_redis.

Definition parse_channels (n : option node) : list text :=
  match at_key (bytes_of "global_channels") n ≫= as_array with Some arr => omap as_string arr | None => [] end.

Definition parse_auth (n : option node) : Gateway.AuthConfig :=
  Gateway.mkAuthConfig
    (match at_key (bytes_of "exempt") n ≫= as_table with Some t => list_to_set ((λ e, u32 (default 0 (value_int e.2))) <$> t) | None => ∅ end)
    (default false (at_key (bytes_of "blacklist_fail_open") n ≫= value_bool)).

Definition parse_override (e : text * node) : option (Z * Z) :=
  match stoul e.1 with Some id => Some (u32 id, u32 (default 0 (value_int e.2))) | None => None end.
Definition parse_rates (n : option node) : RateLimitConfig :=
  mkRates
    (when (at_key (bytes_of "ip") n) (λ n, mkIp (u32 (int_or n "total_limit" 1000)) (u32 (int_or n "window_size_seconds" 60))
      (u32 (int_or n "max_entries" 65536)) (u32 (int_or n "ttl_multiplier" 2))) default_ip)
    (when (at_key (bytes_of "user") n) (λ n, mkUserRate (u32 (int_or n "default_limit" 100)) (u32 (int_or n "window_size_seconds" 60))) default_user)
    (when (at_key (bytes_of "endpoint") n) (λ n, mkEndpointRate (u32 (int_or n "default_limit" 60)) (u32 (int_or n "window_size_seconds" 60))
      (match at_key (bytes_of "overrides") n ≫= as_table with Some t => omap parse_override t | None => [] end)) default_endpoint).

(** [parsed] is what [toml::parse_file] gives, unless it throws. *)
Definition parse_gateway_config (parsed : option table) : Result GatewayConfig :=
  match parsed with
  | None => Err ServiceError
  | Some tbl =>
      let at_ key := lookup_key (bytes_of key) tbl in
      let srv := at_ "server" in
      let kafka := at_ "kafka" in
      let redis key := at_key (bytes_of key) (at_ "redis") in
      let pubsub := at_ "pubsub" in
      let timeouts := at_ "timeouts" in
      Ok (mkGateway
        (when srv (λ n, u16 (int_or n "ws_port" 8443)) 8443)
        (when srv (λ n, u16 (int_or n "tcp_port" 0)) 0)
        (when srv (λ n, u32 (int_or n "num_cores" 1)) 1)
        (parse_tls (at_ "tls"))
        (parse_jwt (at_ "jwt"))
        (parse_auth (at_ "auth"))
        (parse_routes (at_ "routes"))
        999
        (when kafka (λ n, text_or n "brokers" (bytes_of "localhost:9092")) (bytes_of "localhost:9092"))
        (when kafka (λ n, text_or n "consumer_group" (bytes_of "gateway")) (bytes_of "gateway"))
        (when kafka (λ n, text_or n "response_topic" (bytes_of "gateway.responses")) (bytes_of "gateway.responses"))
        (parse_redis (redis "pubsub"))
        (when pubsub parse_channels [])
        (parse_redis (redis "auth"))
        (parse_redis (redis "ratelimit"))
        (when timeouts (λ n, int_or n "request_timeout_ms" 5000) 5000)
        (when timeouts (λ n, u64 (int_or n "max_pending_per_core" 65536)) 65536)
        (when timeouts (λ n, u32 (int_or n "heartbeat_timeout_ticks" 300)) 300)
        (when timeouts (λ n, u32 (int_or n "sweep_interval_ms" 1000)) 1000)
        (when pubsub (λ n, u32 (int_or n "max_subscriptions_per_session" 50)) 50)
        (parse_rates (at_ "rate_limit")))
  end.

(** ** The start of [main] *)

(** What [main] hands to [Server]: the rest has its default. *)
Definition server_config (app : Config.AppConfig) (gw : GatewayConfig) : Config.ServerConfig :=
  let d := Config.default_server in
  Config.mkServer (Config.bind_address d) (Config.tcp_nodelay d) (gw_num_cores gw) (Config.spsc_queue_capacity d) (Config.tick_interval d)
    (gw_heartbeat_timeout_ticks gw) (Config.recv_buf_capacity d) (Config.session_max_queue_depth d) (Config.timer_wheel_slots d) (Config.max_connections d)
    (Config.max_connections_per_ip d) (Config.reuseport d) (Config.handle_signals d) (Config.drain_timeout d) (Config.cross_core_call_timeout d)
    (Config.bump_capacity_bytes d) (Config.arena_block_bytes d) (Config.arena_max_bytes d) (Config.app_metrics app) (Config.app_admin app)
    (Config.blocking_pool_threads d) (Config.affinity (Config.server app)).

(** What the server is made of; nothing if [main] returns a failure before it. *)
Definition main_start (parsed : option table) : outcome (option (Config.ServerConfig * GatewayConfig * Routes.RouteTable)) :=
  run app <- Config.from_file parsed;
  match parse_gateway_config parsed with
  | Err _ => Returns None
  | Ok gw => match Routes.build (routes gw) with Err _ => Returns None | Ok table => Returns (Some (server_config app gw, gw, table)) end
  end.

End Parse.

(** ** The reloader *)

(** [to_endpoint_rate_config]: [emplace] keeps the first of two limits of a message. *)
Definition to_endpoint_rate_config (src : RateLimitEndpointConfig) : Facade.EndpointRateConfig :=
  Facade.mkEndpointConfig (endpoint_default_limit src) (endpoint_window_size_seconds src)
    (foldl (λ m e, match m !! e.1 with Some _ => m | None => <[e.1 := e.2]> m end) ∅ (endpoint_overrides src)).

Inductive update : Type := RouteUpdate (t : Routes.RouteTable) | RateUpdate (r : RateLimitConfig).

(** What a core's callbacks have set, and the calls that are posted to it. *)
Record core : Type := mkCore { core_routes : Routes.RouteTable; core_rates : RateLimitConfig; posted : list update }.

Definition apply_update (v : Routes.RouteTable * RateLimitConfig) (u : update) : Routes.RouteTable * RateLimitConfig :=
  match u with RouteUpdate t => (t, v.2) | RateUpdate r => (v.1, r) end.

(** [armed]: the timer's wait is pending. [local] is set by the callbacks when there are
    no cores to post to. *)
Record reloader : Type := mkReloader { last_write_time_ : Z; running_ : bool; armed : bool; core_io_contexts_ : list core; local : core }.

Section Reload.
Context {node : Type} `{Toml node} (getenv : text -> option text).
Abbreviation table := (list (text * node)).
(** Which callbacks were given. *)
Context (on_route_update_ on_rate_limit_update_ : bool).

Definition updates (t : Routes.RouteTable) (r : RateLimitConfig) : list update :=
  (if on_route_update_ then [RouteUpdate t] else []) ++ (if on_rate_limit_update_ then [RateUpdate r] else []).
Definition call_now (us : list update) (c : core) : core :=
  let '(t, r) := foldl apply_update (core_routes c, core_rates c) us in mkCore t r (posted c).
Definition post (us : list update) (c : core) : core := mkCore (core_routes c) (core_rates c) (posted c ++ us).

Definition on_file_changed (parsed : option table) (w : reloader) : reloader :=
  match parse_gateway_config getenv parsed with
  | Err _ => w
  | Ok config =>
      match Routes.build (routes config) with
      | Err _ => w
      | Ok t =>
          let us := updates t (rate_limit config) in
          match core_io_contexts_ w with
          | [] => mkReloader (last_write_time_ w) (running_ w) (armed w) [] (call_now us (local w))
          | cores => mkReloader (last_write_time_ w) (running_ w) (armed w) (post us <$> cores) (local w)
          end
      end
  end.

(** [stat] is the file's time, unless it cannot be read. *)
Definition check_file (stat : option Z) (parsed : option table) (w : reloader) : reloader :=
  match stat with
  | None => w
  | Some current =>
      if current =? last_write_time_ w then w
      else on_file_changed parsed (mkReloader current (running_ w) (armed w) (core_io_contexts_ w) (local w))
  end.

Definition set_timer (running arm : bool) (w : reloader) : reloader := mkReloader (last_write_time_ w) running arm (core_io_contexts_ w) (local w).

(** [file_time_type::min()], what a failed [last_write_time] returns. *)
Context (time_min : Z).
Definition make_reloader (stat : option Z) (cores : list core) (c : core) : reloader := mkReloader (default time_min stat) false false cores c.

Inductive event : Type :=
| Start
| Stop
| PollNow (stat : option Z) (parsed : option table)
| TimerFires (stat : option Z) (parsed : option table)
| CoreRuns (i : nat).

Definition exec (e : event) (w : reloader) : option reloader :=
  match e with
  | Start => Some (set_timer true true w)
  | Stop => Some (set_timer false false w)
  | PollNow stat parsed => Some (check_file stat parsed w)
  | TimerFires stat parsed =>
      if armed w then
        if running_ w then let w := check_file stat parsed w in Some (set_timer (running_ w) true w) else Some (set_timer (running_ w) false w)
      else None
  | CoreRuns i =>
      match core_io_contexts_ w !! i with
      | Some (mkCore t r (u :: us)) =>
          let '(t, r) := apply_update (t, r) u in
          Some (mkReloader (last_write_time_ w) (running_ w) (armed w) (<[i := mkCore t r us]> (core_io_contexts_ w)) (local w))
      | _ => None
      end
  end.
Fixpoint exec_all (es : list event) (w : reloader) : option reloader :=
  match es with [] => Some w | e :: es => match exec e w with Some w => exec_all es w | None => None end end.

End Reload.
End GatewayCfg.
Import GatewayCfg.

(** ** Every core gets the last good file *)

Section Reloaded.
Context {node : Type} `{Toml node} (getenv : text -> option text) (on_route on_rate : bool) (time_min : Z).
Abbreviation table := (list (text * node)).
Abbreviation EXEC := (exec getenv on_route on_rate).
Abbreviation EXEC_ALL := (exec_all getenv on_route on_rate).
Abbreviation settings := (Routes.RouteTable * RateLimitConfig)%type.

(** A file that parses and whose routes do not overlap. *)
Definition good_file (parsed : option table) : option settings :=
  match parse_gateway_config getenv parsed with
  | Ok config => match Routes.build (routes config) with Ok t => Some (t, rate_limit config) | Err _ => None end
  | Err _ => None
  end.
Definition take_up (v : settings) (new : settings) : settings := (if on_route then new.1 else v.1, if on_rate then new.2 else v.2).

(** The reference: the file's time and the last good file that a check has found
    changed. *)
Definition look (stat : option Z) (parsed : option table) (s : Z * settings) : Z * settings :=
  match stat with
  | Some m => if m =? s.1 then s else (m, match good_file parsed with Some new => take_up s.2 new | None => s.2 end)
  | None => s
  end.
Fixpoint latest (es : list (event (node := node))) (s : Z * settings) : Z * settings :=
  match es with
  | [] => s
  | (PollNow stat parsed | TimerFires stat parsed) :: es => latest es (look stat parsed s)
  | _ :: es => latest es s
  end.

(** What a core has once it has run what is posted to it. *)
Definition settled (c : core) : settings := foldl apply_update (core_routes c, core_rates c) (posted c).

(** Tables that [RouteTable::build] made. *)
Definition built (t : Routes.RouteTable) : Prop := exists rs, Routes.build rs = Ok t.
Definition all_built (t0 : Routes.RouteTable) (c : core) : Prop :=
  (core_routes c = t0 \/ built (core_routes c)) /\ Forall (λ u, match u with RouteUpdate t => built t | RateUpdate _ => True end) (posted c).

Definition reload_inv (n : nat) (t0 : Routes.RouteTable) (s : Z * settings) (w : reloader) : Prop :=
  last_write_time_ w = s.1 /\ (armed w = true -> running_ w = true) /\ length (core_io_contexts_ w) = n /\
  Forall (λ c, settled c = s.2 /\ all_built t0 c) (core_io_contexts_ w) /\ posted (local w) = [] /\
  (n = 0%nat -> settled (local w) = s.2 /\ all_built t0 (local w)).

Lemma settled_updates v t r : foldl apply_update v (updates on_route on_rate t r) = take_up v (t, r).
Proof. unfold updates, take_up. destruct v, on_route, on_rate; done. Qed.

Lemma post_settled t0 t r c v : settled c = v /\ all_built t0 c -> built t ->
  settled (post (updates on_route on_rate t r) c) = take_up v (t, r) /\ all_built t0 (post (updates on_route on_rate t r) c).
Proof.
  intros [<- [Hc Hp]] Ht. split.
  - unfold settled, post. cbn. by rewrite foldl_app, settled_updates.
  - split; [done |]. cbn. apply Forall_app. split; [done |]. unfold updates. destruct on_route, on_rate; repeat constructor; done.
Qed.

Lemma call_now_settled t0 t r c v : posted c = [] -> settled c = v /\ all_built t0 c -> built t ->
  settled (call_now (updates on_route on_rate t r) c) = take_up v (t, r) /\ all_built t0 (call_now (updates on_route on_rate t r) c) /\ posted (call_now (updates on_route on_rate t r) c) = [].
Proof.
  intros Hp [<- [Hc _]] Ht. unfold settled, call_now. rewrite Hp, settled_updates. unfold take_up. cbn. split_and!; [done | | done].
  split; [| constructor]. cbn. destruct on_route; [by right | done].
Qed.

Lemma check_file_inv n t0 stat parsed s w : reload_inv n t0 s w -> reload_inv n t0 (look stat parsed s) (check_file getenv on_route on_rate stat parsed w) /\
  running_ (check_file getenv on_route on_rate stat parsed w) = running_ w /\ armed (check_file getenv on_route on_rate stat parsed w) = armed w.
Proof.
  intros (Hm & Ha & Hn & Hc & Hl & H0). unfold check_file, look. destruct stat as [m |]; [| done]. rewrite Hm. destruct (m =? s.1); [done |].
  unfold on_file_changed, good_file. destruct (parse_gateway_config getenv parsed) as [config | e]; [| done]. destruct (Routes.build (routes config)) as [t | e] eqn:Et; [| done].
  assert (built t) as Ht by (by exists (routes config)). cbn [core_io_contexts_]. destruct (core_io_contexts_ w) as [| c cs] eqn:Ecs.
  - destruct (call_now_settled t0 t (rate_limit config) (local w) s.2 Hl (H0 (eq_sym Hn)) Ht) as (E1 & E2 & E3). split; [| done]. split_and!; done.
  - split; [| done]. split_and!; cbn; try done; [by rewrite <- Hn; cbn; rewrite length_fmap | | intros ->; by cbn in Hn].
    apply (proj2 (Forall_fmap (post (updates on_route on_rate t (rate_limit config))) _ (c :: cs))). eapply Forall_impl; [exact Hc |].
    intros x Hx. by apply post_settled.
Qed.

Lemma core_runs_inv n t0 i s w w' : reload_inv n t0 s w -> EXEC (CoreRuns i) w = Some w' -> reload_inv n t0 s w'.
Proof.
  intros (Hm & Ha & Hn & Hc & Hl & H0) E. cbn in E. destruct (core_io_contexts_ w !! i) as [[t r [| u us]] |] eqn:Ei; [done | | done].
  destruct (apply_update (t, r) u) as [t' r'] eqn:Eu. injection E as <-. split_and!; cbn; try done; [by rewrite length_insert |].
  apply Forall_insert; [done |]. destruct (Forall_lookup_1 _ _ _ _ Hc Ei) as [<- [Hr Hp]]. cbn in Hp, Hr. apply Forall_cons in Hp as [Hu Hp]. split; [| split; [| done]].
  - unfold settled. cbn. by rewrite Eu.
  - cbn. destruct u; cbn in Eu; injection Eu as <- <-; [by right | done].
Qed.

Lemma exec_inv n t0 e s w w' : reload_inv n t0 s w -> EXEC e w = Some w' -> reload_inv n t0 (latest [e] s) w'.
Proof.
  intros Hinv E. destruct e as [| | stat parsed | stat parsed | i]; cbn [latest].
  - injection E as <-. destruct Hinv as (? & ? & ? & ? & ? & ?). by split_and!.
  - injection E as <-. destruct Hinv as (? & ? & ? & ? & ? & ?). by split_and!.
  - injection E as <-. by apply check_file_inv.
  - cbn in E. destruct (armed w) eqn:Ea; [| done]. assert (running_ w = true) as Hr by (by apply Hinv). rewrite Hr in E. injection E as <-.
    destruct (check_file_inv n t0 stat parsed s w Hinv) as ((H1 & H2 & H3 & H4 & H5 & H6) & Hr' & _). split_and!; try done. cbn. by rewrite Hr', Hr.
  - by eapply core_runs_inv.
Qed.

Lemma exec_all_reload_inv n t0 es s w w' : reload_inv n t0 s w -> EXEC_ALL es w = Some w' -> reload_inv n t0 (latest es s) w'.
Proof.
  revert s w. induction es as [| e es IH]; intros s w Hinv E; [by injection E as <-|]. cbn [exec_all] in E. destruct (EXEC e w) as [w1 |] eqn:E1; [| done].
  pose proof (exec_inv n t0 e s w w1 Hinv E1) as H1. assert (latest (e :: es) s = latest es (latest [e] s)) as -> by (by destruct e). by eapply IH.
Qed.

(** Posted calls run: the cores can always catch up. *)
Definition is_run (e : event (node := node)) : bool := match e with CoreRuns _ => true | _ => false end.
Definition waiting (w : reloader) : nat := sum_list_with (λ c, length (posted c)) (core_io_contexts_ w).

Lemma sum_list_with_insert_eq (cs : list core) i c c' : cs !! i = Some c ->
  (sum_list_with (λ c, length (posted c)) (<[i := c']> cs) + length (posted c) = sum_list_with (λ c, length (posted c)) cs + length (posted c'))%nat.
Proof.
  revert i. induction cs as [| x cs IH]; intros [| i] Hi; [done | done | |].
  - injection Hi as ->. change (<[0%nat := c']> (c :: cs)) with (c' :: cs). cbn [sum_list_with]. lia.
  - specialize (IH i Hi). change (<[S i := c']> (x :: cs)) with (x :: <[i := c']> cs). cbn [sum_list_with]. lia.
Qed.

Lemma cores_catch_up n t0 s w : reload_inv n t0 s w ->
  exists es w', forallb is_run es = true /\ EXEC_ALL es w = Some w' /\ reload_inv n t0 s w' /\ Forall (λ c, posted c = []) (core_io_contexts_ w').
Proof.
  remember (waiting w) as k eqn:Ek. revert w Ek. induction k as [k IH] using lt_wf_ind. intros w -> Hinv.
  destruct (decide (Forall (λ c, posted c = []) (core_io_contexts_ w))) as [Hall | Hne]; [by exists [], w |].
  apply not_Forall_Exists, Exists_exists in Hne as (c & Hc & Hne); [| apply _]. apply list_elem_of_lookup in Hc as [i Hi]. destruct c as [t r [| u us]]; [by exfalso; apply Hne |].
  destruct (EXEC (CoreRuns i) w) as [w1 |] eqn:E1; [| exfalso; cbn in E1; rewrite Hi in E1; by destruct (apply_update (t, r) u)].
  pose proof (core_runs_inv n t0 i s w w1 Hinv E1) as H1. assert (waiting w1 < waiting w)%nat as Hlt.
  { cbn in E1. rewrite Hi in E1. destruct (apply_update (t, r) u) as [t' r']. injection E1 as <-. unfold waiting. cbn.
    pose proof (sum_list_with_insert_eq (core_io_contexts_ w) i (mkCore t r (u :: us)) (mkCore t' r' us) Hi). cbn in *. lia. }
  destruct (IH _ Hlt w1 eq_refl H1) as (es & w' & Hr & E & Hinv' & Hdone). exists (CoreRuns i :: es), w'. split_and!; [done | | done | done]. cbn [exec_all]. by rewrite E1.
Qed.

(** Whatever the file system answers to the watcher's checks and in whatever order the
    cores run, every core that has run what was posted to it has the routes and the limits
    of the last file that a check found changed, that parsed and whose routes do not
    overlap: a file that does not leaves the settings as they were. Tables only come from
    [RouteTable::build], and the cores can always catch up. *)
Theorem reload_reaches_cores es stat n t0 r0 w' :
  let start := make_reloader time_min stat (replicate n (mkCore t0 r0 [])) (mkCore t0 r0 []) in
  let now := (latest es (default time_min stat, (t0, r0))).2 in
  EXEC_ALL es start = Some w' ->
  length (core_io_contexts_ w') = n /\
  (forall c, c ∈ core_io_contexts_ w' -> (posted c = [] -> (core_routes c, core_rates c) = now) /\ (core_routes c = t0 \/ built (core_routes c))) /\
  (n = 0%nat -> (core_routes (local w'), core_rates (local w')) = now) /\
  exists runs w'', forallb is_run runs = true /\ EXEC_ALL runs w' = Some w'' /\
    forall c, c ∈ core_io_contexts_ w'' -> (core_routes c, core_rates c) = now.
Proof.
  intros start now E. assert (reload_inv n t0 (default time_min stat, (t0, r0)) start) as H0.
  { split_and!; try done; [apply length_replicate | apply Forall_replicate; split; [done |] |]; repeat (split || constructor); done. }
  pose proof (exec_all_reload_inv n t0 es _ _ _ H0 E) as (Hm & Ha & Hn & Hc & Hl & Hloc). rewrite Forall_forall in Hc. split_and!; [done | | |].
  - intros c Hin. destruct (Hc c Hin) as [Hs [Hb _]]. split; [| done]. intros Hp. unfold settled in Hs. by rewrite Hp in Hs.
  - intros Hz. destruct (Hloc Hz) as [Hs _]. unfold settled in Hs. by rewrite Hl in Hs.
  - destruct (cores_catch_up n t0 (latest es (default time_min stat, (t0, r0))) w') as (runs & w'' & Hr & E' & (_ & _ & _ & Hc' & _) & Hdone).
    { rewrite <- Forall_forall in Hc. by split_and!. }
    exists runs, w''. split_and!; [done.. |]. intros c Hin. rewrite Forall_forall in Hc', Hdone. destruct (Hc' c Hin) as [Hs _]. unfold settled in Hs. by rewrite (Hdone c Hin) in Hs.
Qed.

(** The limits of messages that the endpoint layer gets: the first of several. *)
Lemma endpoint_overrides_first src id limit pre post_ : endpoint_overrides src = pre ++ (id, limit) :: post_ -> Forall (λ e, e.1 <> id) pre ->
  Facade.limit_for id (to_endpoint_rate_config src) = limit.
Proof.
  intros E Hpre. unfold Facade.limit_for, to_endpoint_rate_config. cbn. rewrite E, foldl_app. cbn [foldl fst snd].
  set (f := λ (m : gmap Z Z) (e : Z * Z), match m !! e.1 with Some _ => m | None => <[e.1:=e.2]> m end).
  assert (forall l (m : gmap Z Z) x, m !! id = Some x -> foldl f m l !! id = Some x) as Hkeep.
  { induction l as [| [i x] l IH]; intros m y Hy; [done |]. cbn [foldl]. apply IH. unfold f. cbn. destruct (m !! i) eqn:Ei; [done |]. rewrite lookup_insert_ne; [done |]. congruence. }
  assert (forall l (m : gmap Z Z), Forall (λ e, e.1 <> id) l -> m !! id = None -> foldl f m l !! id = None) as Hnone.
  { induction l as [| [i x] l IH]; intros m Hl Hy; [done |]. apply Forall_cons in Hl as [Hi Hl]. cbn [foldl]. apply IH; [done |]. unfold f. cbn. destruct (m !! i); [done |]. by rewrite lookup_insert_ne. }
  assert (foldl f ∅ pre !! id = None) as Hn by (apply Hnone; [done | apply lookup_empty]). rewrite (Hkeep post_ _ limit); [done |]. fold f. rewrite Hn. apply lookup_insert_eq.
Qed.
End Reloaded.

(** The two readers of the file agree on the number of cores: [from_file] refuses what
    [parse_gateway_config] would cut to 32 bits. *)
Theorem cores_agree {node} `{Toml node} getenv (root : list (text * node)) srv gw t :
  main_start getenv (Some root) = Returns (Some (srv, gw, t)) ->
  Config.num_cores srv = gw_num_cores gw /\ built t /\
  exists app, Config.from_file (Some root) = Returns app /\ gw_num_cores gw = Config.num_cores (Config.server app).
Proof.
  unfold main_start. destruct (from_file (Some root)) as [app | x] eqn:Ea; [| done]. cbn [outcome_bind]. destruct (parse_gateway_config getenv (Some root)) as [g | e] eqn:Eg; [| done].
  destruct (Routes.build (routes g)) as [t' | e] eqn:Et; [| done]. intros [= <- <- <-]. split_and!; [done | by exists (routes g) |]. exists app. split; [done |].
  unfold from_file in Ea. pose proof (server_reads root) as Hs. destruct (parse_server root) as [s | x]; [| done]. cbn [outcome_bind reads_settings] in *.
  destruct (parse_logging root) as [l | x]; [| done]. cbn [outcome_bind] in Ea. destruct (parse_metrics root) as [m | x]; [| done]. cbn [outcome_bind] in Ea.
  destruct (parse_admin root) as [a | x]; [| done]. cbn [outcome_bind] in Ea. destruct (parse_affinity root) as [aff | x]; [| done]. cbn [outcome_bind] in Ea. injection Ea as <-.
  specialize (Hs (mkApp (with_sections s m a aff) l m a) eq_refl). apply Forall_cons in Hs as [Hn _]. cbn [set_to server with_sections Config.num_cores] in Hn. injection Eg as <-. cbn [gw_num_cores server with_sections Config.num_cores].
  revert Hn. unfold node_at, table_at, section, when, int_or, at_key, read_number, read_as. destruct (lookup_key (bytes_of "server") root) as [n |]; [| cbn; congruence]. cbn [mbind option_bind].
  destruct (as_table n) as [tbl |]; [| cbn; intros [= <-]; done]. cbn [mbind option_bind]. destruct (lookup_key (bytes_of "num_cores") tbl) as [v |]; [| cbn; intros [= <-]; done]. cbn [mbind option_bind].
  destruct (value_int v) as [z |]; [| done]. cbn [default from_option]. destruct ((0 <=? z) && (z <? 2 ^ 32)) eqn:Ez; [| done]. intros [= <-]. apply wrap_small. unfold in_width. lia.
Qed.

(** ** Concrete files *)

Import ConfigExample.

Definition no_env (name : text) : option text := None.
Definition route (first last : Z) (topic : string) : doc := Table [entry "kafka_topic" (Str (bytes_of topic)); entry "range_begin" (Int first); entry "range_end" (Int last)].
Definition routes_file (rs : list doc) : list (text * doc) := [entry "routes" (Array rs)].
Definition default_rates : RateLimitConfig := mkRates default_ip default_user default_endpoint.

Lemma reload_reaches_cores_witness :
  let es := [Start; TimerFires (Some 5) (Some (routes_file [route 0 9 "a"])); TimerFires (Some 6) (Some (routes_file [route 0 9 "a"; route 5 7 "b"])); CoreRuns 1; TimerFires (Some 7) None; CoreRuns 1] in
  exists w c, exec_all no_env true true es (make_reloader 0 (Some 1) (replicate 2 (mkCore [] default_rates [])) (mkCore [] default_rates [])) = Some w /\
    core_io_contexts_ w !! 1%nat = Some c /\ core_routes c = [Routes.mkRoute 0 9 (bytes_of "a")].
Proof.
  set (es := [Start; TimerFires (Some 5) (Some (routes_file [route 0 9 "a"])); TimerFires (Some 6) (Some (routes_file [route 0 9 "a"; route 5 7 "b"])); CoreRuns 1; TimerFires (Some 7) None; CoreRuns 1]).
  destruct (exec_all no_env true true es (make_reloader 0 (Some 1) (replicate 2 (mkCore [] default_rates [])) (mkCore [] default_rates []))) as [w |] eqn:E; [| by vm_compute in E].
  destruct (reload_reaches_cores no_env true true 0 es (Some 1) 2 [] default_rates w E) as (_ & Hc & _).
  assert ((λ w, posted <$> core_io_contexts_ w !! 1%nat) <$> Some w = Some (Some [])) as Hp by (rewrite <- E; vm_compute; reflexivity).
  destruct (core_io_contexts_ w !! 1%nat) as [c |] eqn:Ec; cbn in Hp; [| by rewrite Ec in Hp]. rewrite Ec in Hp. injection Hp as Hp.
  exists w, c. split_and!; [done | by rewrite Ec |]. destruct (Hc c) as [Hnow _]; [by eapply list_elem_of_lookup_2 |]. specialize (Hnow Hp). apply (f_equal fst) in Hnow. cbn in Hnow. rewrite Hnow. vm_compute. reflexivity.
Defined.

(** Numbers are cut to their type, and an exempt message that is no number is message 0. *)
Example wrong_numbers_accepted :
  match parse_gateway_config no_env (Some [entry "auth" (Table [entry "exempt" (Table [entry "LoginRequest" (Str (bytes_of "1000"))])]); entry "server" (Table [entry "ws_port" (Int 65537)])]) with
  | Ok gw => ws_port gw = 1 /\ bool_decide (0 ∈ Gateway.auth_exempt_msg_ids (auth gw)) = true
  | Err _ => False
  end.
Proof. vm_compute. done. Qed.

(** The limits of [server] that [from_file] reads do not reach the server. *)
Example main_drops_limits :
  match main_start no_env (Some [entry "server" (Table [entry "max_connections" (Int 7)])]), Config.from_file (Some [entry "server" (Table [entry "max_connections" (Int 7)])]) with
  | Returns (Some (srv, _, _)), Returns app => Config.max_connections srv = 10000 /\ Config.max_connections (Config.server app) = 7
  | _, _ => False
  end.
Proof. vm_compute. done. Qed.

(** A check that finds a file half written does not look at it again until its time
    changes. *)
Example half_written_missed :
  (λ w, (core_routes (local w), last_write_time_ w)) <$>
    exec_all no_env true true [PollNow (Some 5) None; PollNow (Some 5) (Some (routes_file [route 0 9 "a"]))] (make_reloader 0 (Some 1) [] (mkCore [] default_rates [])) = Some ([], 5).
Proof. vm_compute. reflexivity. Qed.
