(* ===== verification/GatewayService.v ===== *)
(** * The gateway service

    [MessageRouter], [GatewayService], [ResponseDispatcher] and [BroadcastFanout]
    (apex_services/gateway/src/message_router.cpp, gateway_service.cpp,
    response_dispatcher.cpp, broadcast_fanout.cpp): client messages go through the
    pipeline to Kafka, responses and broadcasts come back to the sessions.

    The service of one core is the record [GatewayService]; what it does to the
    outside is a list of effects. Tasks posted to a core are values that
    [run_task] executes on that core's state, so that other events can come in
    between. Kafka's [produce] and the pipeline's policies act on a world [W]; the
    FlatBuffers reading of a system message's string is the argument
    [primary_string]. The handlers run to their end where nothing is said of waiting;
    the events of a core let a request wait for Redis while others run. *)

From S2P Require Import Prelude ErrorCode WireHeader RingBuffer FrameCodec ConnectionHandler PerIpRateLimiter RedisRateLimiter Arena KafkaEnvelope RouteTable GatewayState GatewayPipeline.
Import Kafka Routes Pending Channels Gateway.

Module Service.

Definition AUTHENTICATE_SESSION : Z := 3.
Definition SUBSCRIBE_CHANNEL : Z := 4.
Definition UNSUBSCRIBE_CHANNEL : Z := 5.
Definition source_GATEWAY : Z := 0.

(** ** Effects *)

Inductive effect : Type :=
| WriteFrame (session_id : Z) (frame : list Z)
| PubSubSubscribe (channel : channel_name).

(** ** The router *)

Record MessageRouter : Type := mkRouter { route_table_ : RouteTable; core_id_ : Z; corr_counter_ : Z; response_topic_ : list Z }.

Definition update_table (t : RouteTable) (r : MessageRouter) : MessageRouter := mkRouter t (core_id_ r) (corr_counter_ r) (response_topic_ r).

Definition kCounterMask : Z := 2 ^ 48 - 1.
Definition generate_corr_id (r : MessageRouter) : Z * MessageRouter :=
  let c := u64 (corr_counter_ r + 1) in
  (Z.lor (u64 (Z.shiftl (core_id_ r) 48)) (Z.land c kCounterMask), mkRouter (route_table_ r) (core_id_ r) c (response_topic_ r)).

Definition build_envelope (msg_id : Z) (payload : list Z) (session_id user_id corr_id core_id now_ms : Z) (r : MessageRouter) : list Z :=
  let rh := mkRouting ROUTING_VERSION 0 msg_id in
  let meta := mkMetadata METADATA_VERSION core_id corr_id source_GATEWAY session_id user_id (u64 now_ms) in
  build_full_envelope rh meta (response_topic_ r) payload.

(** The clock readings of one handler. *)
Record clocks : Type := mkClocks { c_steady : Z; c_ms : nat -> Z; c_pending : Z; c_stamp : Z }.

(** A session as the handlers see it. *)
Record session_ref : Type := mkSession { s_id : Z; s_ip : ip_address }.

(** What a FlatBuffers payload holds in its first field. *)
Inductive fb_view : Type := FbInvalid | FbNoString | FbString (s : list Z).

Record GatewayService : Type := mkService {
  router_ : MessageRouter;
  pending_requests_ : PendingRequestsMap;
  auth_states_ : gmap Z AuthState;
  channels_ : option ChannelSessionMap
}.

Section Handlers.
Context {W : Type}.
Context (verify : list Z -> Result Jwt.JwtClaims) (is_sensitive : Z -> bool).
Context (blacklist : option (list Z -> W -> Result bool * W)) (limiter : option (Limiter W)) (config : AuthConfig).
Context (error_response : Z -> list Z -> Z -> list Z).
Context (produce : list Z -> Z -> list Z -> W -> Result unit * W).
Context (primary_string : list Z -> fb_view).

Definition error_frame (msg_id : Z) (code : ErrorCode) (service_error_code : Z) : list Z :=
  build_error_frame error_response msg_id code [] service_error_code.
Definition gateway_error_frame (msg_id : Z) (e : GatewayError) : list Z := error_frame msg_id ServiceError (gateway_error_value e).

(** The session id, in decimal, is the partition key. *)
Definition route (session_id msg_id : Z) (payload : list Z) (user_id corr_id now_ms : Z) (r : MessageRouter) (w : W) : Result unit * W :=
  match resolve msg_id (route_table_ r) with
  | None => (Err ServiceError, w)
  | Some topic => produce topic session_id (build_envelope msg_id payload session_id user_id corr_id (core_id_ r) now_ms r) w
  end.

Definition handle_request (s : session_ref) (msg_id : Z) (payload : list Z) (c : clocks) (g : GatewayService) (w : W) :
    Result unit * list effect * GatewayService * W :=
  let state := default default_auth (auth_states_ g !! s_id s) in
  let '(result, denied, state, w) := process verify is_sensitive blacklist limiter config msg_id state (s_ip s) (c_steady c) (c_ms c) w in
  let auth := <[s_id s := state]> (auth_states_ g) in
  let sent := match denied with Some e => [WriteFrame (s_id s) (gateway_error_frame msg_id e)] | None => [] end in
  match result with
  | Err _ => (Ok tt, sent, mkService (router_ g) (pending_requests_ g) auth (channels_ g), w)
  | Ok _ =>
      let '(corr_id, router) := generate_corr_id (router_ g) in
      match insert corr_id (s_id s) msg_id (c_pending c) (pending_requests_ g) with
      | (Err _, pending) =>
          (Ok tt, sent ++ [WriteFrame (s_id s) (gateway_error_frame msg_id PendingMapFull)], mkService router pending auth (channels_ g), w)
      | (Ok _, pending) =>
          match route (s_id s) msg_id payload (user_id state) corr_id (c_stamp c) router w with
          | (Err _, w) =>
              let pending := (extract corr_id pending).2 in
              (Ok tt, sent ++ [WriteFrame (s_id s) (gateway_error_frame msg_id RouteNotFound)], mkService router pending auth (channels_ g), w)
          | (Ok _, w) => (Ok tt, sent, mkService router pending auth (channels_ g), w)
          end
      end
  end.

(** The string of a system message, or the frame that refuses it. *)
Definition system_string (msg_id : Z) (payload : list Z) (empty : list Z) : expected (list Z) (list Z) :=
  if len payload <? 4 then Err (error_frame msg_id InvalidMessage 0)
  else match primary_string payload with
  | FbInvalid => Err (error_frame msg_id FlatBuffersVerifyFailed 0)
  | FbNoString | FbString [] => Err empty
  | FbString s => Ok s
  end.

Definition handle_authenticate_session (s : session_ref) (payload : list Z) (g : GatewayService) : Result unit * list effect * GatewayService :=
  match system_string AUTHENTICATE_SESSION payload (gateway_error_frame AUTHENTICATE_SESSION JwtVerifyFailed) with
  | Err frame => (Ok tt, [WriteFrame (s_id s) frame], g)
  | Ok token =>
      let state := default default_auth (auth_states_ g !! s_id s) in
      let state := mkAuth (authenticated state) (user_id state) (jti state) token in
      let state := match verify token with Ok claims => mkAuth true (Jwt.user_id claims) (Jwt.jti claims) token | Err _ => state end in
      (Ok tt, [], mkService (router_ g) (pending_requests_ g) (<[s_id s := state]> (auth_states_ g)) (channels_ g))
  end.

Definition handle_subscribe_channel (s : session_ref) (payload : list Z) (g : GatewayService) : Result unit * list effect * GatewayService :=
  match channels_ g with
  | None => (Ok tt, [], g)
  | Some chans =>
      match system_string SUBSCRIBE_CHANNEL payload (error_frame SUBSCRIBE_CHANNEL InvalidMessage 0) with
      | Err frame => (Ok tt, [WriteFrame (s_id s) frame], g)
      | Ok ch =>
          let '(result, chans) := subscribe ch (s_id s) chans in
          let g := mkService (router_ g) (pending_requests_ g) (auth_states_ g) (Some chans) in
          match result with
          | Err _ => (Ok tt, [WriteFrame (s_id s) (gateway_error_frame SUBSCRIBE_CHANNEL SubscriptionLimitExceeded)], g)
          | Ok _ => (Ok tt, [PubSubSubscribe ch], g)
          end
      end
  end.

Definition handle_unsubscribe_channel (s : session_ref) (payload : list Z) (g : GatewayService) : Result unit * list effect * GatewayService :=
  match channels_ g with
  | None => (Ok tt, [], g)
  | Some chans =>
      match system_string UNSUBSCRIBE_CHANNEL payload (error_frame UNSUBSCRIBE_CHANNEL InvalidMessage 0) with
      | Err frame => (Ok tt, [WriteFrame (s_id s) frame], g)
      | Ok ch => (Ok tt, [], mkService (router_ g) (pending_requests_ g) (auth_states_ g) (Some (unsubscribe ch (s_id s) chans)))
      end
  end.

Definition on_default_message (s : session_ref) (msg_id : Z) (payload : list Z) (c : clocks) (g : GatewayService) (w : W) :
    Result unit * list effect * GatewayService * W :=
  if msg_id =? AUTHENTICATE_SESSION then let '(r, es, g) := handle_authenticate_session s payload g in (r, es, g, w)
  else if (msg_id =? SUBSCRIBE_CHANNEL) || (msg_id =? UNSUBSCRIBE_CHANNEL) then
    if negb (authenticated (default default_auth (auth_states_ g !! s_id s))) then
      (Ok tt, [WriteFrame (s_id s) (gateway_error_frame msg_id JwtVerifyFailed)], g, w)
    else
      match check_ip_rate_limit limiter (s_ip s) (c_steady c) w with
      | (Err _, w) => (Ok tt, [WriteFrame (s_id s) (gateway_error_frame msg_id RateLimitedIp)], g, w)
      | (Ok _, w) =>
          let '(r, es, g) := if msg_id =? SUBSCRIBE_CHANNEL then handle_subscribe_channel s payload g else handle_unsubscribe_channel s payload g in
          (r, es, g, w)
      end
  else handle_request s msg_id payload c g w.

Definition on_session_closed (session_id : Z) (g : GatewayService) : GatewayService :=
  mkService (router_ g) (pending_requests_ g) (delete session_id (auth_states_ g)) (unsubscribe_all session_id <$> channels_ g).

(** One run of the sweep task; [live] says which sessions are found open. *)
Definition sweep (live : Z -> bool) (now : Z) (g : GatewayService) : list effect * GatewayService :=
  let '(expired, pending) := sweep_expired now (pending_requests_ g) in
  (mjoin ((λ ke, if live (session_id ke.2) then [WriteFrame (session_id ke.2) (gateway_error_frame (original_msg_id ke.2) ServiceTimeout)] else []) <$> expired),
   mkService (router_ g) pending (auth_states_ g) (channels_ g)).

End Handlers.

(** ** Responses *)

Inductive task : Type :=
| DeliverPush (routing : RoutingHeader) (target_session_id : Z) (payload : list Z)
| DeliverResponse (corr_id : Z) (routing : RoutingHeader) (payload : list Z)
| FanoutAll (frame : list Z)
| FanoutRoom (channel : channel_name) (frame : list Z).

(** The result and the tasks posted, each to a core. *)
Definition on_response (num_cores : Z) (payload : list Z) : Result unit * list (Z * task) :=
  if len payload <? ENVELOPE_HEADER_SIZE then (Err ParseFailed, [])
  else match routing_parse (slice 0 ROUTING_SIZE payload) with
  | Err _ => (Err ParseFailed, [])
  | Ok routing =>
      match metadata_parse (slice ROUTING_SIZE METADATA_SIZE payload) with
      | Err _ => (Err ParseFailed, [])
      | Ok meta =>
          let target_core := core_id meta in
          if corr_id meta =? 0 then
            let deliver core := (core, DeliverPush routing (Kafka.session_id meta) payload) in
            if target_core <? num_cores then (Ok tt, [deliver target_core])
            else (Ok tt, deliver <$> (Z.of_nat <$> seq 0 (Z.to_nat num_cores)))
          else if num_cores <=? target_core then (Err ParseFailed, [])
          else (Ok tt, [(target_core, DeliverResponse (corr_id meta) routing payload)])
      end
  end.

Definition wire_frame (f msg_id : Z) (payload : list Z) : list Z :=
  let wh := mkWireHeader CURRENT_VERSION f msg_id (u32 (len payload)) 0 in
  let buf := replicate (Z.to_nat (SIZE + len payload)) 0 in
  let buf := patch 0 (WireHeader.serialize wh) buf in
  match payload with [] => buf | _ :: _ => patch SIZE payload buf end.

Definition build_wire_response (routing : RoutingHeader) (fbs_payload : list Z) (original_msg_id : Z) : list Z :=
  wire_frame (if negb (Z.land (flags routing) ERROR_BIT =? 0) then Z.lor 0 flag_ERROR_RESPONSE else 0) original_msg_id fbs_payload.

(** ** Broadcasts *)

Definition GLOBAL_PREFIX : list Z := [112; 117; 98; 58; 103; 108; 111; 98; 97; 108; 58].

Definition build_wire_frame (message : list Z) : list Z :=
  match message with
  | [] => wire_frame 0 0 []
  | b0 :: b1 :: b2 :: b3 :: payload =>
      let msg_id := Z.lor (Z.lor (Z.lor (u32 (Z.shiftl b0 24)) (u32 (Z.shiftl b1 16))) (u32 (Z.shiftl b2 8))) b3 in
      wire_frame 0 msg_id payload
  | _ => []
  end.

(** [num_sessions_mgrs] is [session_mgrs_.size()]. *)
Definition fanout (num_cores num_session_mgrs : Z) (channel : channel_name) (message : list Z) : list (Z * task) :=
  match build_wire_frame message with
  | [] => []
  | frame =>
      if decide (takeZ (len GLOBAL_PREFIX) channel = GLOBAL_PREFIX) then (λ i, (Z.of_nat i, FanoutAll frame)) <$> seq 0 (Z.to_nat num_session_mgrs)
      else omap (λ i, if num_session_mgrs <=? Z.of_nat i then None else Some (Z.of_nat i, FanoutRoom channel frame)) (seq 0 (Z.to_nat num_cores))
  end.

(** ** Running a posted task on its core *)

(** [live] says which sessions are found open and [sessions] lists those of the core. *)
Definition run_task (live : Z -> bool) (sessions : list Z) (t : task) (g : GatewayService) : list effect * GatewayService :=
  match t with
  | DeliverPush routing target payload =>
      if negb (live target) then ([], g)
      else
        let off := envelope_payload_offset (flags routing) payload in
        if len payload <? off then ([], g)
        else ([WriteFrame target (build_wire_response routing (dropZ off payload) (msg_id routing))], g)
  | DeliverResponse corr routing payload =>
      match extract corr (pending_requests_ g) with
      | (None, _) => ([], g)
      | (Some pending, p) =>
          let g := mkService (router_ g) p (auth_states_ g) (channels_ g) in
          let off := envelope_payload_offset (flags routing) payload in
          if len payload <? off then ([], g)
          else if negb (live (session_id pending)) then ([], g)
          else ([WriteFrame (session_id pending) (build_wire_response routing (dropZ off payload) (msg_id routing))], g)
      end
  | FanoutAll frame => ((λ s, WriteFrame s frame) <$> filter (λ s, live s = true) sessions, g)
  | FanoutRoom channel frame =>
      match channels_ g with
      | None => ([], g)
      | Some chans =>
          match get_subscribers channel chans with
          | None => ([], g)
          | Some subs => ((λ s, WriteFrame s frame) <$> filter (λ s, live s = true) subs, g)
          end
      end
  end.

End Service.
Import Service.

(** ** Correlation ids *)

(** The id made from the [k]-th value of a core's counter. *)
Definition corr_of (core k : Z) : Z := core * 2 ^ 48 + k mod 2 ^ 48.

Lemma generate_corr_id_spec r : in_width 16 (core_id_ r) -> 0 <= corr_counter_ r < 2 ^ 48 - 1 ->
  generate_corr_id r = (corr_of (core_id_ r) (corr_counter_ r + 1), mkRouter (route_table_ r) (core_id_ r) (corr_counter_ r + 1) (response_topic_ r)).
Proof.
  intros Hc Hk. unfold in_width in Hc. unfold generate_corr_id, corr_of, kCounterMask.
  assert (Hu : u64 (corr_counter_ r + 1) = corr_counter_ r + 1) by (apply wrap_small; unfold in_width; lia). rewrite Hu.
  rewrite Z.shiftl_mul_pow2, wrap_small, land_mask by (unfold in_width; lia). f_equal.
  apply lor_low; [lia | apply Z.mod_pos_bound; lia].
Qed.

Lemma corr_of_inj core k j : 0 <= k < 2 ^ 48 -> 0 <= j < 2 ^ 48 -> corr_of core k = corr_of core j -> k = j.
Proof. intros Hk Hj. unfold corr_of. rewrite !Z.mod_small by done. lia. Qed.

Lemma corr_of_nonzero core k : 0 <= core -> 0 < k < 2 ^ 48 -> corr_of core k <> 0.
Proof. intros Hc Hk. unfold corr_of. rewrite Z.mod_small by lia. lia. Qed.

(** The pending ids come from the counter's past values. *)
Record gateway_inv (g : GatewayService) : Prop := {
  gi_core : in_width 16 (core_id_ (router_ g));
  gi_counter : 0 <= corr_counter_ (router_ g);
  gi_pending : forall c e, map_ (pending_requests_ g) !! c = Some e -> exists k, 0 < k <= corr_counter_ (router_ g) /\ c = corr_of (core_id_ (router_ g)) k
}.

Lemma gateway_next_fresh g : gateway_inv g -> corr_counter_ (router_ g) < 2 ^ 48 - 1 ->
  map_ (pending_requests_ g) !! corr_of (core_id_ (router_ g)) (corr_counter_ (router_ g) + 1) = None.
Proof.
  intros [Hc Hk Hp] Hlt. apply eq_None_not_Some. intros [e He]. destruct (Hp _ _ He) as (k & Hk' & E).
  apply corr_of_inj in E; lia.
Qed.

(** ** Frames sent to clients *)

Lemma wire_frame_bytes f msg_id payload : len payload < 2 ^ 32 ->
  wire_frame f msg_id payload = frame_bytes (mkWireHeader CURRENT_VERSION f msg_id (len payload) 0) payload.
Proof.
  intros H. unfold wire_frame, frame_bytes. pose proof (len_nonneg payload).
  rewrite (wrap_small 32 (len payload)) by (unfold in_width; lia). set (h := mkWireHeader _ _ _ _ _). set (buf := replicate _ 0).
  assert (Hb : len buf = SIZE + len payload) by (subst buf; rewrite len_replicate; unfold SIZE; lia). clearbody buf.
  pose proof (len_serialize h) as Hs. change buf with ([] ++ buf) at 1 2. rewrite !patch_app by done. cbn [app]. rewrite Hs.
  assert (Hd : len (dropZ SIZE buf) = len payload) by (rewrite len_dropZ; unfold SIZE in *; lia).
  destruct payload as [| x p]; [f_equal; apply len_0_nil; done |]. apply patch_fill; done.
Qed.

Section Requests.
Context {W : Type} (verify : list Z -> Result Jwt.JwtClaims) (is_sensitive : Z -> bool).
Context (blacklist : option (list Z -> W -> Result bool * W)) (limiter : option (Limiter W)) (config : AuthConfig).
Context (error_response : Z -> list Z -> Z -> list Z) (produce : list Z -> Z -> list Z -> W -> Result unit * W).
Context (primary_string : list Z -> fb_view).

Abbreviation process_msg := (process verify is_sensitive blacklist limiter config).
Abbreviation handle := (handle_request verify is_sensitive blacklist limiter config error_response produce).

(** What a request that is forwarded leaves behind. *)
Definition forwarded (s : session_ref) (msg_id : Z) (payload : list Z) (c : clocks) (g g' : GatewayService) (w w' : W) : Prop :=
  let corr := corr_of (core_id_ (router_ g)) (corr_counter_ (router_ g) + 1) in
  map_ (pending_requests_ g') = <[corr := mkPending (s_id s) msg_id (c_pending c + timeout_ (pending_requests_ g) * 10 ^ 6)]> (map_ (pending_requests_ g)) /\
  exists topic st w1,
    process_msg msg_id (default default_auth (auth_states_ g !! s_id s)) (s_ip s) (c_steady c) (c_ms c) w = (Ok tt, None, st, w1) /\
    auth_states_ g' !! s_id s = Some st /\ resolve msg_id (route_table_ (router_ g)) = Some topic /\
    produce topic (s_id s) (build_envelope msg_id payload (s_id s) (user_id st) corr (core_id_ (router_ g)) (c_stamp c) (router_ g)) w1 = (Ok tt, w').

Lemma handle_request_spec s msg_id payload c g w : gateway_inv g -> corr_counter_ (router_ g) < 2 ^ 48 - 1 ->
  let '(r, es, g', w') := handle s msg_id payload c g w in
  r = Ok tt /\ gateway_inv g' /\ channels_ g' = channels_ g /\ corr_counter_ (router_ g) <= corr_counter_ (router_ g') <= corr_counter_ (router_ g) + 1 /\
  (exists st, auth_states_ g' = <[s_id s := st]> (auth_states_ g) /\
     exists r' fr w1, process_msg msg_id (default default_auth (auth_states_ g !! s_id s)) (s_ip s) (c_steady c) (c_ms c) w = (r', fr, st, w1)) /\
  ((exists e, es = [WriteFrame (s_id s) (gateway_error_frame error_response msg_id e)] /\ map_ (pending_requests_ g') = map_ (pending_requests_ g)) \/
   (es = [] /\ forwarded s msg_id payload c g g' w w')).
Proof.
  intros Hinv Hlt. pose proof (gateway_next_fresh g Hinv Hlt) as Hfresh. unfold handle_request, forwarded.
  pose proof (pipeline_admission verify is_sensitive blacklist limiter config msg_id (default default_auth (auth_states_ g !! s_id s)) (s_ip s) (c_steady c) (c_ms c) w) as Hp.
  destruct (process _ _ _ _ _ _ _ _ _ _ w) as [[[result denied] st] w1] eqn:Ep. destruct (check_ip_rate_limit _ _ _ _) as [ipr wip].
  assert (Hst : exists r' fr w2, (result, denied, st, w1) = (r', fr, st, w2)) by (by do 3 eexists).
  destruct result as [[] | e].
  2:{ destruct Hp as (-> & gerr & -> & _). destruct Hinv. split_and!; [done | by split | done | cbn; lia | cbn; lia | by exists st |].
      left. by exists gerr. }
  destruct Hp as (-> & _). rewrite generate_corr_id_spec by (apply Hinv || (pose proof (gi_counter g Hinv); lia)).
  set (corr := corr_of _ _) in *. set (router := mkRouter _ _ _ _).
  assert (Hg : forall m auth, (forall c e, m !! c = Some e -> c = corr \/ is_Some (map_ (pending_requests_ g) !! c)) ->
    gateway_inv (mkService router (with_map m (pending_requests_ g)) auth (channels_ g))).
  { intros m auth Hm. destruct Hinv as [Hc Hk Hpd]. split; cbn; [done | lia |]. intros c' e' He'. destruct (Hm _ _ He') as [-> | [e0 He0]].
    - exists (corr_counter_ (router_ g) + 1). split; [lia | done].
    - destruct (Hpd _ _ He0) as (k & Hk' & ->). exists k. split; [lia | done]. }
  assert (Hpend : with_map (map_ (pending_requests_ g)) (pending_requests_ g) = pending_requests_ g) by (by destruct (pending_requests_ g)).
  unfold insert. destruct (_ <=? _).
  { split_and!; [done | | done | cbn; lia | cbn; lia | by exists st | left; by exists PendingMapFull].
    rewrite <- Hpend. apply Hg. intros c' e' He'. right. by exists e'. }
  rewrite Hfresh. set (entry := mkPending _ _ _). unfold route. cbn [route_table_ router core_id_].
  assert (Hin : forall c e, <[corr := entry]> (map_ (pending_requests_ g)) !! c = Some e -> c = corr \/ is_Some (map_ (pending_requests_ g) !! c)).
  { intros c' e' He'. apply lookup_insert_Some in He' as [[-> _] | [_ He']]; [by left | right; by exists e']. }
  assert (Hex : extract corr (with_map (<[corr := entry]> (map_ (pending_requests_ g))) (pending_requests_ g)) = (Some entry, pending_requests_ g)).
  { unfold extract. cbn [with_map map_]. rewrite lookup_insert_eq, delete_insert_id by done. cbn [with_map max_entries_ timeout_]. f_equal. exact Hpend. }
  assert (Hsame : gateway_inv (mkService router (pending_requests_ g) (<[s_id s := st]> (auth_states_ g)) (channels_ g))).
  { rewrite <- Hpend. apply Hg. intros c' e' He'. right. by exists e'. }
  destruct (resolve msg_id (route_table_ (router_ g))) as [topic |] eqn:Er.
  2:{ rewrite Hex. cbn [snd]. split_and!; [done | done | done | cbn; lia | cbn; lia | by exists st | left; by exists RouteNotFound]. }
  destruct (produce topic _ _ w1) as [[[] | e] w2] eqn:Epr.
  - split_and!; [done | by apply Hg | done | cbn; lia | cbn; lia | by exists st |]. right. split; [done |]. split; [done |].
    exists topic, st, w1. split_and!; [done | cbn; apply lookup_insert_eq | done | exact Epr].
  - rewrite Hex. cbn [snd]. split_and!; [done | done | done | cbn; lia | cbn; lia | by exists st | left; by exists RouteNotFound].
Qed.

(** C36: a client message handled by the gateway gets exactly one of two outcomes: one
    error frame to its session, with the pending requests as before; or no frame,
    the message produced once to the topic of its route in an envelope that carries
    the session, the authenticated user, this core and a correlation id unused among
    the pending requests, and the request pending under that id. *)
Theorem gateway_request_outcome s msg_id payload c g w :
  gateway_inv g -> corr_counter_ (router_ g) < 2 ^ 48 - 1 ->
  let '(r, es, g', w') := handle s msg_id payload c g w in
  r = Ok tt /\
  ((exists e, es = [WriteFrame (s_id s) (gateway_error_frame error_response msg_id e)] /\ map_ (pending_requests_ g') = map_ (pending_requests_ g)) \/
   (es = [] /\ forwarded s msg_id payload c g g' w w' /\
    map_ (pending_requests_ g) !! corr_of (core_id_ (router_ g)) (corr_counter_ (router_ g) + 1) = None)).
Proof.
  intros Hinv Hlt. pose proof (handle_request_spec s msg_id payload c g w Hinv Hlt) as H. destruct (handle s msg_id payload c g w) as [[[r es] g'] w'].
  destruct H as (-> & _ & _ & _ & _ & H). split; [done |]. destruct H as [H | [-> H]]; [by left | right]. split_and!; [done.. |]. by apply gateway_next_fresh.
Qed.

End Requests.

(** ** Responses find their way back *)

Lemma slice_app_mid {A} (a b c : list A) : slice (len a) (len b) (a ++ b ++ c) = b.
Proof. unfold slice. rewrite dropZ_app_len, takeZ_app_len. done. Qed.

Lemma on_response_envelope n h m topic payload : wf_routing h -> wf_metadata m -> header_version h = ROUTING_VERSION -> meta_version m = METADATA_VERSION ->
  let e := envelope_bytes h m topic payload in
  let h' := with_flags (sent_flags (flags h) topic) h in
  on_response n e =
    if corr_id m =? 0 then
      (Ok tt, if core_id m <? n then [(core_id m, DeliverPush h' (Kafka.session_id m) e)]
              else (λ core, (core, DeliverPush h' (Kafka.session_id m) e)) <$> (Z.of_nat <$> seq 0 (Z.to_nat n)))
    else if n <=? core_id m then (Err ParseFailed, [])
    else (Ok tt, [(core_id m, DeliverResponse (corr_id m) h' e)]).
Proof.
  intros Hh Hm Ev Em e h'. unfold on_response. subst e. rewrite envelope_bytes_len. set (e := envelope_bytes h m topic payload).
  assert (Hs1 : slice 0 ROUTING_SIZE e = routing_bytes h').
  { subst e. unfold envelope_bytes, slice. rewrite dropZ_0. change ROUTING_SIZE with 8. rewrite <- (len_routing_bytes h'). apply takeZ_app_len. }
  assert (Hs2 : slice ROUTING_SIZE METADATA_SIZE e = metadata_bytes m).
  { subst e. unfold envelope_bytes. change ROUTING_SIZE with 8. change METADATA_SIZE with 40. rewrite <- (len_metadata_bytes m), <- (len_routing_bytes h'). apply slice_app_mid. }
  assert (Hw : wf_routing h').
  { destruct Hh as (? & Hf & ?). split_and!; [done | | done]. by apply sent_flags_topic. }
  pose proof (routing_parse_bytes h' [] Hw) as P1. pose proof (metadata_parse_bytes m [] Hm) as P2. rewrite app_nil_r in P1, P2.
  rewrite Hs1, Hs2, P1, P2. cbn [h' with_flags header_version]. rewrite Ev, Em, !Z.eqb_refl. destruct (corr_id m =? 0); [destruct (_ <? _); done |]. done.
Qed.

(** The frame a client receives for a response with the given routing and payload. *)
Definition response_header (f msg_id : Z) (payload : list Z) : WireHeader :=
  mkWireHeader CURRENT_VERSION (if negb (Z.land f ERROR_BIT =? 0) then flag_ERROR_RESPONSE else 0) msg_id (len payload) 0.

Lemma response_header_wf f msg_id payload : in_width 32 msg_id -> len payload <= MAX_BODY_SIZE -> wf_frame (response_header f msg_id payload) payload.
Proof.
  intros Hi Hl. unfold wf_frame. split_and!; [| done..]. unfold wf_header, response_header, in_width, MAX_BODY_SIZE in *.
  cbn [version WireHeader.flags WireHeader.msg_id body_size reserved]. pose proof (len_nonneg payload).
  split_and!; try lia; try (unfold CURRENT_VERSION; lia); destruct (negb _); unfold flag_ERROR_RESPONSE; lia.
Qed.

Lemma build_wire_response_bytes h payload mid : len payload < 2 ^ 32 ->
  build_wire_response h payload mid = frame_bytes (response_header (flags h) mid payload) payload.
Proof. intros H. unfold build_wire_response, response_header. rewrite wire_frame_bytes by done. destruct (negb _); done. Qed.

Lemma error_bit_sent f topic : in_width 16 f -> Z.land (sent_flags f topic) ERROR_BIT = Z.land f ERROR_BIT.
Proof.
  intros H. unfold sent_flags. assert (Hb : forall x, Z.testbit HAS_REPLY_TOPIC x && Z.testbit ERROR_BIT x = false).
  { intros x. rewrite <- Z.land_spec. change (Z.land HAS_REPLY_TOPIC ERROR_BIT) with 0. apply Z.bits_0. }
  destruct (sent_topic topic).
  - unfold clear_reply_flag. rewrite wrap_small by (apply land_width; done). apply Z.bits_inj'. intros n Hn. specialize (Hb n).
    rewrite !Z.land_spec, Z.lnot_spec by done. destruct (Z.testbit HAS_REPLY_TOPIC n), (Z.testbit ERROR_BIT n), (Z.testbit f n); done.
  - destruct (set_reply_flag_spec f H) as (-> & _). apply Z.bits_inj'. intros n Hn. specialize (Hb n).
    rewrite !Z.land_spec, Z.lor_spec. destruct (Z.testbit HAS_REPLY_TOPIC n), (Z.testbit ERROR_BIT n), (Z.testbit f n); done.
Qed.

Section RoundTrip.
Context {W : Type} (verify : list Z -> Result Jwt.JwtClaims) (is_sensitive : Z -> bool).
Context (blacklist : option (list Z -> W -> Result bool * W)) (limiter : option (Limiter W)) (config : AuthConfig).
Context (error_response : Z -> list Z -> Z -> list Z) (produce : list Z -> Z -> list Z -> W -> Result unit * W).

Abbreviation handle := (handle_request verify is_sensitive blacklist limiter config error_response produce).

(** A reply a service builds to the request with the given core and correlation id. *)
Definition reply_ok (core corr now : Z) (b : EnvelopeBuilder) : Prop :=
  in_width 16 (flags_ b) /\ in_width 32 (msg_id_ b) /\ wf_metadata (builder_metadata now b) /\ Kafka.core_id_ b = core /\ corr_id_ b = corr /\
  Forall is_byte (payload_ b) /\ len (payload_ b) <= MAX_BODY_SIZE.

Lemma response_delivered n now b g live sessions e : reply_ok (Kafka.core_id_ b) (corr_id_ b) now b -> Kafka.core_id_ b < n -> corr_id_ b <> 0 ->
  map_ (pending_requests_ g) !! corr_id_ b = Some e ->
  exists t, on_response n (Kafka.build now b) = (Ok tt, [(Kafka.core_id_ b, t)]) /\
  let '(es, g') := run_task live sessions t g in
  es = (if live (session_id e) then [WriteFrame (session_id e) (frame_bytes (response_header (flags_ b) (msg_id_ b) (payload_ b)) (payload_ b))] else []) /\
  map_ (pending_requests_ g') = delete (corr_id_ b) (map_ (pending_requests_ g)) /\ (run_task live sessions t g').1 = [].
Proof.
  intros (Hf & Hi & Hm & _ & _ & _ & Hl) Hn Hc He. unfold MAX_BODY_SIZE in Hl.
  assert (Hw : wf_routing (builder_routing b)) by (split_and!; done || (unfold in_width; cbn; lia)).
  rewrite build_layout, on_response_envelope by done. cbn [corr_id core_id builder_metadata].
  rewrite (proj2 (Z.eqb_neq _ _)), (proj2 (Z.leb_gt _ _)) by done. eexists. split; [done |].
  set (env := envelope_bytes _ _ _ _).
  destruct (envelope_bytes_read _ _ (reply_topic_ b) (payload_ b) Hw Hm) as (_ & _ & _ & Hpay). fold env in Hpay. cbn [flags builder_routing] in Hpay.
  cbn [run_task]. unfold extract. rewrite He. cbn [with_flags flags builder_routing msg_id].
  assert (Hoff : (len env <? envelope_payload_offset (sent_flags (flags_ b) (reply_topic_ b)) env) = false).
  { apply payload_offset_le. apply Z.ltb_ge, envelope_bytes_len. }
  rewrite Hoff, Hpay. assert (Hresp : build_wire_response (with_flags (sent_flags (flags_ b) (reply_topic_ b)) (builder_routing b)) (payload_ b) (msg_id_ b) =
    frame_bytes (response_header (flags_ b) (msg_id_ b) (payload_ b)) (payload_ b)).
  { rewrite build_wire_response_bytes by lia. f_equal. unfold response_header. cbn [with_flags flags]. rewrite error_bit_sent by done. done. }
  rewrite Hresp. destruct (live (session_id e)); cbn [negb]; split_and!; try done; cbn [run_task pending_requests_ with_map]; unfold extract; cbn [with_map map_]; rewrite lookup_delete_eq; done.
Qed.

(** C16: the response to a forwarded request comes back to the session that asked. If
    a service answers with the request's core and correlation id, the dispatcher
    posts one task to that core; there, the session, if still open, is sent one frame
    that a client decodes to the service's message id, error flag and payload, the
    request is no longer pending, and a second copy of the response is dropped. *)
Theorem gateway_round_trip s msg_id payload c g w g' w' now b n live sessions :
  gateway_inv g -> corr_counter_ (router_ g) < 2 ^ 48 - 1 ->
  handle s msg_id payload c g w = (Ok tt, [], g', w') ->
  reply_ok (core_id_ (router_ g)) (corr_of (core_id_ (router_ g)) (corr_counter_ (router_ g) + 1)) now b -> core_id_ (router_ g) < n -> live (s_id s) = true ->
  exists t frame, on_response n (Kafka.build now b) = (Ok tt, [(core_id_ (router_ g), t)]) /\
    (run_task live sessions t g').1 = [WriteFrame (s_id s) frame] /\
    decode_bytes frame = Ok (response_header (flags_ b) (msg_id_ b) (payload_ b), payload_ b) /\
    map_ (pending_requests_ (run_task live sessions t g').2) = map_ (pending_requests_ g) /\
    (run_task live sessions t (run_task live sessions t g').2).1 = [].
Proof.
  intros Hinv Hlt Hh Hb Hn Hlive. pose proof (handle_request_spec verify is_sensitive blacklist limiter config error_response produce s msg_id payload c g w Hinv Hlt) as H.
  rewrite Hh in H. destruct H as (_ & _ & _ & _ & _ & [(e & [=] & _) | [_ Hfw]]). destruct Hfw as [Hmap _].
  pose proof (gateway_next_fresh g Hinv Hlt) as Hfresh. pose proof (gi_core g Hinv) as Hcore. unfold in_width in Hcore. pose proof (gi_counter g Hinv).
  destruct Hb as (Hf & Hi & Hm & Ecore & Ecorr & Hby & Hl).
  destruct (response_delivered n now b g' live sessions (mkPending (s_id s) msg_id (c_pending c + timeout_ (pending_requests_ g) * 10 ^ 6))) as (t & Ht & Hrun).
  - by rewrite Ecore, Ecorr.
  - lia.
  - rewrite Ecorr. apply corr_of_nonzero; lia.
  - rewrite Hmap, Ecorr. apply lookup_insert_eq.
  - exists t, (frame_bytes (response_header (flags_ b) (msg_id_ b) (payload_ b)) (payload_ b)). rewrite Ht, Ecore. split; [done |].
    destruct (run_task live sessions t g') as [es g2]. cbn [fst snd session_id] in *. destruct Hrun as (-> & Hp & Hagain). rewrite Hlive.
    split_and!; [done | | rewrite Hp, Hmap, Ecorr; by apply delete_insert_id | done].
    rewrite <- (app_nil_r (frame_bytes _ _)). apply decode_frame. by apply response_header_wf.
Qed.

End RoundTrip.

(** ** Broadcasts reach the subscribers *)

Lemma be_bytes_msg_id id : in_width 32 id ->
  exists b0 b1 b2 b3, be_bytes 4 id = [b0; b1; b2; b3] /\
    Z.lor (Z.lor (Z.lor (u32 (Z.shiftl b0 24)) (u32 (Z.shiftl b1 16))) (u32 (Z.shiftl b2 8))) b3 = id.
Proof.
  intros H. unfold in_width in H. pose proof (be_bytes_range 4 id) as Hr. pose proof (load_be 4 id ltac:(lia)) as Hl.
  destruct (be_bytes 4 id) as [| b0 [| b1 [| b2 [| b3 [| x l]]]]] eqn:E; try (apply (f_equal len) in E; rewrite len_be_bytes in E; unfold len in E; cbn [length] in E; lia).
  exists b0, b1, b2, b3. split; [done |]. rewrite !Forall_cons in Hr. destruct Hr as (H0 & H1 & H2 & H3 & _). unfold in_width in *.
  assert (Hid : id = b0 * 2 ^ 24 + b1 * 2 ^ 16 + b2 * 2 ^ 8 + b3).
  { rewrite <- Hl. unfold bswap. change 4%nat with (length [b0; b1; b2; b3]). rewrite le_store_load by (repeat constructor; unfold in_width; lia). cbn [rev app le_load]. lia. }
  rewrite !Z.shiftl_mul_pow2, !wrap_small by (unfold in_width; lia).
  rewrite (lor_low b0 (b1 * 2 ^ 16) 24) by lia. replace (b0 * 2 ^ 24 + b1 * 2 ^ 16) with ((b0 * 2 ^ 8 + b1) * 2 ^ 16) by lia.
  rewrite (lor_low _ (b2 * 2 ^ 8) 16) by lia. replace ((b0 * 2 ^ 8 + b1) * 2 ^ 16 + b2 * 2 ^ 8) with ((b0 * 2 ^ 16 + b1 * 2 ^ 8 + b2) * 2 ^ 8) by lia.
  rewrite lor_low by lia. lia.
Qed.

Lemma build_wire_frame_bytes id payload : in_width 32 id -> len payload < 2 ^ 32 ->
  build_wire_frame (be_bytes 4 id ++ payload) = frame_bytes (mkWireHeader CURRENT_VERSION 0 id (len payload) 0) payload.
Proof.
  intros Hi Hl. destruct (be_bytes_msg_id id Hi) as (b0 & b1 & b2 & b3 & -> & E). cbn [app build_wire_frame]. rewrite E. by apply wire_frame_bytes.
Qed.

Lemma publish_frame id payload : in_width 32 id -> len payload <= MAX_BODY_SIZE ->
  decode_bytes (frame_bytes (mkWireHeader CURRENT_VERSION 0 id (len payload) 0) payload) = Ok (mkWireHeader CURRENT_VERSION 0 id (len payload) 0, payload).
Proof.
  intros Hi Hl. rewrite <- (app_nil_r (frame_bytes _ _)). apply decode_frame. pose proof (len_nonneg payload). unfold MAX_BODY_SIZE, CURRENT_VERSION in *.
  unfold wf_frame, wf_header, in_width in *. cbn [version WireHeader.flags WireHeader.msg_id body_size reserved]. unfold CURRENT_VERSION, MAX_BODY_SIZE. lia.
Qed.

(** Outside the global prefix every core gets the task. *)
Lemma fanout_room num_cores channel id payload : in_width 32 id -> len payload <= MAX_BODY_SIZE -> takeZ (len GLOBAL_PREFIX) channel <> GLOBAL_PREFIX ->
  fanout num_cores num_cores channel (be_bytes 4 id ++ payload) =
    (λ i, (Z.of_nat i, FanoutRoom channel (frame_bytes (mkWireHeader CURRENT_VERSION 0 id (len payload) 0) payload))) <$> seq 0 (Z.to_nat num_cores).
Proof.
  intros Hi Hl Hg. assert (Hl' : len payload < 2 ^ 32) by (unfold MAX_BODY_SIZE in Hl; lia). unfold fanout. rewrite build_wire_frame_bytes by done.
  set (frame := frame_bytes _ _). assert (Hne : frame <> []).
  { intros E. apply (f_equal len) in E. subst frame. rewrite len_frame_bytes in E. change (len (@nil Z)) with 0 in E. pose proof (len_nonneg payload). unfold SIZE in E. lia. }
  destruct frame as [| x fr]; [done |]. rewrite decide_False by done.
  generalize (Z.le_refl (Z.of_nat 0 + Z.of_nat (Z.to_nat num_cores))). generalize 0%nat at 1 3 4 as start. generalize (Z.to_nat num_cores) at 1 3 4 as k.
  intros k. induction k as [| k IH]; intros start Hk; [done |]. cbn [seq omap list_omap fmap list_fmap].
  rewrite (proj2 (Z.leb_gt num_cores (Z.of_nat start))) by lia. f_equal. apply IH. lia.
Qed.

(** C39: a message published on a channel as 4 bytes of message id and a payload
    becomes one frame that a client decodes to that id and payload. For a channel
    outside the global prefix, every core gets one task; it sends the frame exactly
    once to each of the core's open sessions subscribed to the channel, and to no
    other. *)
Theorem broadcast_reaches_subscribers num_cores channel id payload :
  in_width 32 id -> len payload <= MAX_BODY_SIZE -> takeZ (len GLOBAL_PREFIX) channel <> GLOBAL_PREFIX ->
  exists frame, decode_bytes frame = Ok (mkWireHeader CURRENT_VERSION 0 id (len payload) 0, payload) /\
    fanout num_cores num_cores channel (be_bytes 4 id ++ payload) = (λ i, (Z.of_nat i, FanoutRoom channel frame)) <$> seq 0 (Z.to_nat num_cores) /\
    forall g chans live sessions, channels_ g = Some chans -> channels_inv chans ->
      let '(es, g') := run_task live sessions (FanoutRoom channel frame) g in
      g' = g /\ NoDup es /\ forall s f, WriteFrame s f ∈ es <-> f = frame /\ live s = true /\ listed channel s chans.
Proof.
  intros Hi Hl Hg. set (frame := frame_bytes (mkWireHeader CURRENT_VERSION 0 id (len payload) 0) payload). exists frame. split; [by apply publish_frame |].
  split; [by apply fanout_room |].
  intros g chans live sessions Ec Hci. cbn [run_task]. rewrite Ec. unfold get_subscribers, listed.
  destruct (channel_to_sessions_ chans !! channel) as [subs |] eqn:E; cbn [default].
  - destruct (ch_nodup chans Hci _ _ E) as [Hnd _]. split_and!; [done | apply NoDup_fmap_2; [by intros ? ? [= ->] | by apply NoDup_filter] |].
    intros s f. rewrite list_elem_of_fmap. split.
    + intros (s' & [= -> ->] & Hs). apply list_elem_of_filter in Hs. tauto.
    + intros (-> & Hlv & Hs). exists s. split; [done |]. apply list_elem_of_filter. done.
  - split_and!; [done | constructor |]. intros s f. rewrite !elem_of_nil. tauto.
Qed.

Lemma broadcast_reaches_subscribers_witness :
  exists frame, decode_bytes frame = Ok (mkWireHeader 2 0 77 2 0, [5; 6]) /\
    fanout 2 2 [99] (be_bytes 4 77 ++ [5; 6]) = [(0, FanoutRoom [99] frame); (1, FanoutRoom [99] frame)].
Proof.
  destruct (broadcast_reaches_subscribers 2 [99] 77 [5; 6]) as (frame & H1 & H2 & _).
  - unfold in_width. lia.
  - vm_compute. discriminate.
  - vm_compute. discriminate.
  - exists frame. split; [exact H1 | exact H2].
Defined.

(** ** A concrete gateway *)

Definition demo_verify (tok : list Z) : Result Jwt.JwtClaims :=
  if decide (tok = [1]) then Ok (Jwt.mkClaims 42 [] [97] 0) else Err ServiceError.
Definition demo_service : GatewayService :=
  mkService (mkRouter [mkRoute 2000 2999 [99]] 1 5 [103]) (make_pending 10 5000) {[ 7 := mkAuth false 0 [] [1] ]} (Some (make_channels 0)).
Definition demo_clocks : clocks := mkClocks 100 (λ _, 200) 300 400.
Definition demo_handle : session_ref -> Z -> list Z -> clocks -> GatewayService -> unit -> Result unit * list effect * GatewayService * unit :=
  handle_request demo_verify (λ _, false) None None (mkAuthConfig ∅ false) (λ _ _ _, []) (λ _ _ _ w, (Ok tt, w)).

Lemma demo_inv : gateway_inv demo_service.
Proof. split; cbn; [unfold in_width; lia | lia |]. intros c e. rewrite lookup_empty. done. Qed.

Lemma gateway_request_outcome_witness :
  let '(r, es, g', w') := demo_handle (mkSession 7 [49]) 2001 [5] demo_clocks demo_service tt in
  r = Ok tt /\ es = [] /\ map_ (pending_requests_ g') !! corr_of 1 6 = Some (mkPending 7 2001 5000000300).
Proof.
  pose proof (gateway_request_outcome demo_verify (λ _, false) None None (mkAuthConfig ∅ false) (λ _ _ _, []) (λ _ _ _ w, (Ok tt, w))
    (mkSession 7 [49]) 2001 [5] demo_clocks demo_service tt demo_inv ltac:(cbn; lia)) as H.
  unfold demo_handle. destruct (handle_request _ _ _ _ _ _ _ _ _ _ _ _ _) as [[[r es] g'] w'] eqn:E. destruct H as [-> H].
  split; [reflexivity |]. destruct H as [(e & He & _) | (He & (Hm & _) & _)].
  - exfalso. rewrite He in E. vm_compute in E. discriminate E.
  - split; [exact He |]. rewrite Hm. apply lookup_insert_eq.
Defined.

Lemma gateway_round_trip_witness :
  let b := Kafka.payload [9] (Kafka.metadata 1 (corr_of 1 6) 2 7 42 (Kafka.routing 2002 0 make_builder)) in
  let '(_, _, g', _) := demo_handle (mkSession 7 [49]) 2001 [5] demo_clocks demo_service tt in
  exists t frame, on_response 2 (Kafka.build 17 b) = (Ok tt, [(1, t)]) /\
    (run_task (λ _, true) [7] t g').1 = [WriteFrame 7 frame] /\ decode_bytes frame = Ok (mkWireHeader 2 0 2002 1 0, [9]).
Proof.
  intros b. destruct (demo_handle _ _ _ _ _ _) as [[[r es] g'] w'] eqn:E.
  destruct (gateway_round_trip demo_verify (λ _, false) None None (mkAuthConfig ∅ false) (λ _ _ _, []) (λ _ _ _ w, (Ok tt, w))
    (mkSession 7 [49]) 2001 [5] demo_clocks demo_service tt g' tt 17 b 2 (λ _, true) [7] demo_inv) as (t & frame & H1 & H2 & H3 & _).
  - cbn. lia.
  - unfold demo_handle in E. rewrite E. destruct w'. vm_compute in E. injection E as <- <- _. reflexivity.
  - unfold reply_ok, wf_metadata, in_width. vm_compute. repeat split; first [reflexivity | discriminate | repeat constructor; discriminate].
  - reflexivity.
  - reflexivity.
  - exists t, frame. split; [exact H1 |]. split; [exact H2 | exact H3].
Defined.

(** ** A core's events, and who may subscribe *)

Section Run.
Context {W : Type} (verify : list Z -> Result Jwt.JwtClaims) (is_sensitive : Z -> bool).
Context (blacklist : option (list Z -> W -> Result bool * W)) (limiter : option (Limiter W)) (config : AuthConfig).
Context (error_response : Z -> list Z -> Z -> list Z) (produce : list Z -> Z -> list Z -> W -> Result unit * W).
Context (primary_string : list Z -> fb_view).

(** [handle_request] keeps a reference into the flat map [auth_states_] while the
    pipeline waits for Redis: a handler that is suspended there, and whether its
    reference is still valid. The frames of one session are handled one after the other,
    so that nothing else changes the state it refers to; the waits of the pipeline are
    taken together, before its first answer. *)
Record suspended : Type := mkSuspended { su_session : session_ref; su_msg : Z; su_payload : list Z; su_valid : bool }.
Record core : Type := mkCore { service : GatewayService; handlers : gmap nat suspended; outside : W }.

Definition invalidate (h : suspended) : suspended := mkSuspended (su_session h) (su_msg h) (su_payload h) false.
Definition is_system (msg_id : Z) : bool := (msg_id =? AUTHENTICATE_SESSION) || (msg_id =? SUBSCRIBE_CHANNEL) || (msg_id =? UNSUBSCRIBE_CHANNEL).
Definition busy (sid : Z) (hs : gmap nat suspended) : bool := existsb (λ kh, s_id (su_session kh.2) =? sid) (map_to_list hs).

(** An insertion for [sid] may make the table grow, which moves all its elements. *)
Definition after_insertion (grows : bool) (sid : Z) (before after : GatewayService) (hs : gmap nat suspended) : gmap nat suspended :=
  if grows && bool_decide (auth_states_ before !! sid = None) && negb (bool_decide (auth_states_ after !! sid = None)) then invalidate <$> hs else hs.

Inductive event : Type :=
| Message (s : session_ref) (msg_id : Z) (payload : list Z) (c : clocks) (grows : bool) (** of the system *)
| BeginRequest (k : nat) (s : session_ref) (msg_id : Z) (payload : list Z) (grows : bool)
| FinishRequest (k : nat) (c : clocks)
| RunTask (live : Z -> bool) (sessions : list Z) (t : task)
| Sweep (live : Z -> bool) (now : Z)
| SessionClosed (session_id : Z)
| Elsewhere (w : W). (** others use Redis and Kafka *)

Definition exec (ev : event) (st : core) : option (outcome (list effect * core)) :=
  let 'mkCore g hs w := st in
  match ev with
  | Message s mid payload c grows =>
      if busy (s_id s) hs || negb (is_system mid) then None
      else
        let '(_, es, g', w) := on_default_message verify is_sensitive blacklist limiter config error_response produce primary_string s mid payload c g w in
        Some (Returns (es, mkCore g' (after_insertion grows (s_id s) g g' hs) w))
  | BeginRequest k s mid payload grows =>
      match hs !! k with
      | Some _ => None
      | None =>
          if busy (s_id s) hs || is_system mid then None
          else
            let g' := mkService (router_ g) (pending_requests_ g) (<[s_id s := default default_auth (auth_states_ g !! s_id s)]> (auth_states_ g)) (channels_ g) in
            Some (Returns ([], mkCore g' (<[k := mkSuspended s mid payload true]> (after_insertion grows (s_id s) g g' hs)) w))
      end
  | FinishRequest k c =>
      match hs !! k with
      | Some h =>
          if su_valid h then
            let '(_, es, g, w) := handle_request verify is_sensitive blacklist limiter config error_response produce (su_session h) (su_msg h) (su_payload h) c g w in
            Some (Returns (es, mkCore g (delete k hs) w))
          else Some (Throws undefined_behaviour)
      | None => None
      end
  | RunTask live sessions t => let '(es, g) := run_task live sessions t g in Some (Returns (es, mkCore g hs w))
  | Sweep live now => let '(es, g) := sweep error_response live now g in Some (Returns (es, mkCore g hs w))
  | SessionClosed sid => Some (Returns ([], mkCore (on_session_closed sid g) ((λ h, if s_id (su_session h) =? sid then invalidate h else h) <$> hs) w))
  | Elsewhere w => Some (Returns ([], mkCore g hs w))
  end.

Fixpoint exec_all (evs : list event) (st : core) : option (outcome (list effect * core)) :=
  match evs with
  | [] => Some (Returns ([], st))
  | ev :: evs =>
      match exec ev st with
      | Some (Returns (es, st)) =>
          match exec_all evs st with
          | Some (Returns (es', st)) => Some (Returns (es ++ es', st))
          | o => o
          end
      | o => o
      end
  end.

(** While a handler is suspended the table does not grow, and its session is not closed. *)
Definition undisturbed (ev : event) (st : core) : Prop :=
  match ev with
  | Message _ _ _ _ grows | BeginRequest _ _ _ _ grows => grows = true -> handlers st = ∅
  | SessionClosed sid => busy sid (handlers st) = false
  | _ => True
  end.
Fixpoint along (P : event -> core -> Prop) (evs : list event) (st : core) : Prop :=
  match evs with
  | [] => True
  | ev :: evs => P ev st /\ match exec ev st with Some (Returns (_, st)) => along P evs st | _ => True end
  end.

Definition identity_verified (st : AuthState) : Prop :=
  exists tok claims, verify tok = Ok claims /\ user_id st = Jwt.user_id claims /\ jti st = Jwt.jti claims.

Record auth_inv (g : GatewayService) : Prop := {
  ai_verified : forall sid st, auth_states_ g !! sid = Some st -> authenticated st = true -> identity_verified st;
  ai_channels : forall chans, channels_ g = Some chans -> channels_inv chans;
  ai_subscribed : forall chans ch sid, channels_ g = Some chans -> listed ch sid chans -> exists st, auth_states_ g !! sid = Some st /\ authenticated st = true
}.

(** Replacing a session's state by one that is as authenticated keeps the invariant. *)
Lemma auth_inv_update g g' sid st' :
  auth_inv g -> auth_states_ g' = <[sid := st']> (auth_states_ g) -> channels_ g' = channels_ g ->
  (authenticated st' = true -> identity_verified st') ->
  (forall st, auth_states_ g !! sid = Some st -> authenticated st = true -> authenticated st' = true) -> auth_inv g'.
Proof.
  intros [Hv Hc Hs] Ea Ec Hst Hmono. split; rewrite ?Ea, ?Ec.
  - intros sid0 st0 H. apply lookup_insert_Some in H as [[<- <-] | [_ H]]; [done | eapply Hv, H].
  - exact Hc.
  - intros chans ch sid0 Hch Hl. destruct (Hs chans ch sid0 Hch Hl) as (st & Hst0 & Hau). destruct (decide (sid0 = sid)) as [-> | Hne].
    + exists st'. rewrite lookup_insert_eq. split; [done |]. by eapply Hmono.
    + exists st. rewrite lookup_insert_ne by done. done.
Qed.

(** Changing the subscriptions of authenticated sessions only keeps it. *)
Lemma auth_inv_channels g chans' :
  auth_inv g -> channels_inv chans' ->
  (forall ch sid, listed ch sid chans' -> exists st, auth_states_ g !! sid = Some st /\ authenticated st = true) ->
  auth_inv (mkService (router_ g) (pending_requests_ g) (auth_states_ g) (Some chans')).
Proof. intros [Hv _ _] Hc Hs. split; cbn; [done | by intros ? [= <-] |]. intros chans ch sid [= <-]. apply Hs. Qed.

Lemma authenticate_session_inv s payload g : auth_inv g -> auth_inv (handle_authenticate_session verify error_response primary_string s payload g).2.
Proof.
  intros Hinv. unfold handle_authenticate_session. destruct (system_string _ _ _ _ _) as [tok | frame]; [| exact Hinv]. cbn [snd].
  eapply (auth_inv_update g _ (s_id s)); [done | reflexivity | reflexivity | |].
  - destruct (verify tok) as [claims | e] eqn:Ev; [intros _; by exists tok, claims |]. cbn. intros Hau.
    destruct (auth_states_ g !! s_id s) as [st |] eqn:E; [| done]. exact (ai_verified g Hinv _ _ E Hau).
  - intros st E Hau. rewrite E. cbn. destruct (verify tok); done.
Qed.

Lemma subscribe_inv s payload g st : auth_inv g -> auth_states_ g !! s_id s = Some st -> authenticated st = true ->
  auth_inv (handle_subscribe_channel error_response primary_string s payload g).2 /\ auth_inv (handle_unsubscribe_channel error_response primary_string s payload g).2.
Proof.
  intros Hinv Est Hau. unfold handle_subscribe_channel, handle_unsubscribe_channel. destruct (channels_ g) as [chans |] eqn:Ec; [| done].
  pose proof (ai_channels g Hinv chans Ec) as Hci. split.
  - destruct (system_string _ _ _ _ _) as [ch | frame]; [| exact Hinv]. pose proof (subscribe_spec ch (s_id s) chans Hci) as Hsub.
    destruct (subscribe ch (s_id s) chans) as [r chans']. destruct Hsub as (Hi' & _ & Hr).
    assert (Ha : auth_inv (mkService (router_ g) (pending_requests_ g) (auth_states_ g) (Some chans'))).
    { apply auth_inv_channels; [done.. |]. intros c sid Hl. destruct r as [[] | e].
      - apply Hr in Hl as [Hl | [-> ->]]; [exact (ai_subscribed g Hinv chans c sid Ec Hl) | by exists st].
      - destruct Hr as (_ & Hr & _). apply Hr in Hl. exact (ai_subscribed g Hinv chans c sid Ec Hl). }
    destruct r; exact Ha.
  - destruct (system_string _ _ _ _ _) as [ch | frame]; [| exact Hinv]. cbn [snd].
    destruct (unsubscribe_spec ch (s_id s) chans Hci) as (Hi' & _ & Hr). apply auth_inv_channels; [done.. |].
    intros c sid Hl. apply Hr in Hl as [Hl _]. exact (ai_subscribed g Hinv chans c sid Ec Hl).
Qed.

Lemma request_auth s msg_id payload c g w : auth_inv g ->
  auth_inv (handle_request verify is_sensitive blacklist limiter config error_response produce s msg_id payload c g w).1.2.
Proof.
  intros Hinv. unfold handle_request. set (state := default default_auth (auth_states_ g !! s_id s)).
  pose proof (process_auth_state verify is_sensitive blacklist limiter config msg_id state (s_ip s) (c_steady c) (c_ms c) w) as Hp.
  destruct (process _ _ _ _ _ _ _ _ _ _ w) as [[[result denied] st'] w1]. cbn [fst snd] in Hp.
  assert (Hu : forall r p, auth_inv (mkService r p (<[s_id s := st']> (auth_states_ g)) (channels_ g))).
  { intros r p. eapply (auth_inv_update g _ (s_id s)); [done | reflexivity | reflexivity | |].
    - destruct Hp as [-> | (claims & Hv & ->)]; [| intros _; by exists (token state), claims]. subst state. intros Hau.
      destruct (auth_states_ g !! s_id s) as [st |] eqn:E; [| done]. exact (ai_verified g Hinv _ _ E Hau).
    - intros st E Hau. destruct Hp as [-> | (claims & Hv & ->)]; [| done]. subst state. rewrite E. done. }
  destruct result; [| apply Hu]. destruct (generate_corr_id (router_ g)) as [corr router]. destruct (insert _ _ _ _ _) as [[] pending]; [| apply Hu].
  destruct (route _ _ _ _ _ _ _ _ _) as [[] w2]; apply Hu.
Qed.

Lemma system_auth s mid payload c g w : auth_inv g -> is_system mid = true ->
  auth_inv (on_default_message verify is_sensitive blacklist limiter config error_response produce primary_string s mid payload c g w).1.2.
Proof.
  intros Hinv Hsys. unfold on_default_message, is_system in *. destruct (mid =? AUTHENTICATE_SESSION).
  { pose proof (authenticate_session_inv s payload g Hinv) as H. destruct (handle_authenticate_session _ _ _ s payload g) as [[r es] g']. exact H. }
  cbn [orb] in Hsys. rewrite Hsys.
  destruct (auth_states_ g !! s_id s) as [st |] eqn:Est; cbn [default negb]; [| exact Hinv]. change (id st) with st. destruct (authenticated st) eqn:Eau; cbn [negb]; [| exact Hinv].
  destruct (check_ip_rate_limit _ _ _ _) as [[] w1]; [| exact Hinv]. destruct (subscribe_inv s payload g st Hinv Est Eau) as [H1 H2].
  destruct (mid =? SUBSCRIBE_CHANNEL).
  - destruct (handle_subscribe_channel _ _ s payload g) as [[r es] g']. exact H1.
  - destruct (handle_unsubscribe_channel _ _ s payload g) as [[r es] g']. exact H2.
Qed.

Lemma begin_auth sid g : auth_inv g ->
  auth_inv (mkService (router_ g) (pending_requests_ g) (<[sid := default default_auth (auth_states_ g !! sid)]> (auth_states_ g)) (channels_ g)).
Proof.
  intros Hinv. eapply (auth_inv_update g _ sid); [done | reflexivity | reflexivity | |].
  - destruct (auth_states_ g !! sid) as [st |] eqn:E; [| done]. exact (ai_verified g Hinv _ _ E).
  - intros st E Hau. by rewrite E.
Qed.

Lemma task_auth live sessions t g : auth_inv g -> auth_inv (run_task live sessions t g).2.
Proof.
  intros Hinv. destruct t; cbn [run_task]; [destruct (negb _); [done |]; destruct (_ <? _); done | | done |].
  - destruct (extract _ _) as [[e |] p]; [| done]. destruct Hinv. destruct (_ <? _); [by split |]. destruct (negb _); by split.
  - destruct (channels_ g); [| done]. destruct (get_subscribers _ _); done.
Qed.

Lemma closed_auth sid g : auth_inv g -> auth_inv (on_session_closed sid g).
Proof.
  intros [Hv Hc Hs]. unfold on_session_closed. split; cbn.
  - intros sid0 st0 H. apply lookup_delete_Some in H as [_ H]. eapply Hv, H.
  - intros chans' H. destruct (channels_ g) as [chans |]; [| done]. injection H as <-. by destruct (unsubscribe_all_spec sid chans (Hc _ eq_refl)).
  - intros chans' ch sid0 H Hl. destruct (channels_ g) as [chans |] eqn:Ec; [| done]. injection H as <-.
    destruct (unsubscribe_all_spec sid chans (Hc _ eq_refl)) as (_ & _ & Hr). apply Hr in Hl as [Hl Hne].
    destruct (Hs _ _ _ eq_refl Hl) as (st & Hst & Hau). exists st. rewrite lookup_delete_ne by done. done.
Qed.

Lemma exec_auth ev st es st' : auth_inv (service st) -> exec ev st = Some (Returns (es, st')) -> auth_inv (service st').
Proof.
  destruct st as [g hs w]. cbn [service]. intros Hinv. destruct ev as [s mid payload c grows | k s mid payload grows | k c | live sessions t | live now | sid | w1]; cbn [exec].
  - destruct (busy _ _); [done |]. destruct (is_system mid) eqn:Es; [| done]. pose proof (system_auth s mid payload c g w Hinv Es) as H. cbn [orb negb].
    destruct (on_default_message _ _ _ _ _ _ _ _ s mid payload c g w) as [[[r e] g'] w']. by intros [= <- <-].
  - destruct (hs !! k); [done |]. destruct (_ || _); [done |]. intros [= <- <-]. by apply begin_auth.
  - destruct (hs !! k) as [h |]; [| done]. destruct (su_valid h); [| done]. pose proof (request_auth (su_session h) (su_msg h) (su_payload h) c g w Hinv) as H.
    destruct (handle_request _ _ _ _ _ _ _ _ _ _ c g w) as [[[r e] g'] w']. by intros [= <- <-].
  - pose proof (task_auth live sessions t g Hinv) as H. destruct (run_task live sessions t g). by intros [= <- <-].
  - unfold sweep. destruct (sweep_expired _ _) as [ex p]. intros [= <- <-]. cbn. destruct Hinv. by split.
  - intros [= <- <-]. by apply closed_auth.
  - by intros [= <- <-].
Qed.

Lemma exec_all_auth evs st es st' : auth_inv (service st) -> exec_all evs st = Some (Returns (es, st')) -> auth_inv (service st').
Proof.
  revert st es st'. induction evs as [| ev evs IH]; intros st es st' H; cbn [exec_all]; [by intros [= <- <-] |].
  destruct (exec ev st) as [[[es1 st1] |] |] eqn:E; [| done..]. apply (exec_auth ev st es1 st1 H) in E. specialize (IH st1).
  destruct (exec_all evs st1) as [[[es2 st2] |] |]; [| done..]. intros [= <- <-]. by eapply IH.
Qed.

(** References stay valid. *)
Definition all_valid (hs : gmap nat suspended) : Prop := forall k h, hs !! k = Some h -> su_valid h = true.

Lemma after_insertion_valid grows sid g g' hs : all_valid hs -> (grows = true -> hs = ∅) -> all_valid (after_insertion grows sid g g' hs).
Proof.
  intros Hv Hg. unfold after_insertion. destruct grows; [| done]. rewrite (Hg eq_refl). destruct (_ && _); [| by intros k h; rewrite lookup_empty].
  intros k h. by rewrite fmap_empty, lookup_empty.
Qed.

Lemma exec_valid ev st o : all_valid (handlers st) -> undisturbed ev st -> exec ev st = Some o -> exists es st', o = Returns (es, st') /\ all_valid (handlers st').
Proof.
  destruct st as [g hs w]. cbn [handlers]. intros Hv Hu. destruct ev as [s mid payload c grows | k s mid payload grows | k c | live sessions t | live now | sid | w1]; cbn [exec undisturbed handlers] in *.
  - destruct (_ || _); [done |]. destruct (on_default_message _ _ _ _ _ _ _ _ s mid payload c g w) as [[[r e] g'] w']. intros [= <-]. eexists _, _. split; [done |]. by apply after_insertion_valid.
  - destruct (hs !! k); [done |]. destruct (_ || _); [done |]. intros [= <-]. eexists _, _. split; [done |]. intros k' h. cbn [handlers].
    rewrite lookup_insert_Some. intros [[_ <-] | [_ Hh]]; [done |]. eapply after_insertion_valid; [exact Hv | exact Hu | exact Hh].
  - destruct (hs !! k) as [h |] eqn:Eh; [| done]. rewrite (Hv k h Eh). destruct (handle_request _ _ _ _ _ _ _ _ _ _ c g w) as [[[r e] g'] w']. intros [= <-].
    eexists _, _. split; [done |]. cbn [handlers]. intros k' h' [_ H]%lookup_delete_Some. by eapply Hv.
  - destruct (run_task live sessions t g). intros [= <-]. by eexists _, _.
  - unfold sweep. destruct (sweep_expired _ _) as [ex p]. intros [= <-]. by eexists _, _.
  - intros [= <-]. eexists _, _. split; [done |]. intros k h. cbn [handlers]. rewrite lookup_fmap. destruct (hs !! k) as [h0 |] eqn:Eh; [| done]. cbn. intros [= <-].
    destruct (s_id (su_session h0) =? sid) eqn:Es; [| by eapply Hv]. exfalso. unfold busy in Hu. apply not_true_iff_false in Hu. apply Hu, existsb_exists.
    exists (k, h0). split; [by apply list_elem_of_In, elem_of_map_to_list | exact Es].
  - intros [= <-]. by eexists _, _.
Qed.

Lemma exec_all_valid evs st o : all_valid (handlers st) -> along undisturbed evs st -> exec_all evs st = Some o -> exists r, o = Returns r.
Proof.
  revert st o. induction evs as [| ev evs IH]; intros st o Hv; cbn [along exec_all]; [intros _ [= <-]; by eexists |]. intros [Hu Hal].
  destruct (exec ev st) as [o1 |] eqn:E; [| done]. destruct (exec_valid ev st o1 Hv Hu E) as (es & st1 & -> & Hv1).
  specialize (IH st1). destruct (exec_all evs st1) as [[[es2 st2] | x] |]; [| | done].
  - intros [= <-]. by eexists.
  - by destruct (IH _ Hv1 Hal eq_refl).
Qed.

(** C38: whatever messages, responses, broadcasts, sweeps and session closings a core
    sees, and however requests that wait for Redis interleave with them, a session
    listens to a channel only while it is authenticated, and a session is authenticated
    only as the user of a token that verified; closing a session removes both. Nothing is
    undefined as long as, while a request waits, the table of sessions does not grow and
    the session of the request is not closed. *)
Theorem subscribers_authenticated router limit max_pending timeout w evs o :
  let start := mkCore (mkService router (make_pending max_pending timeout) ∅ (Some (make_channels limit))) ∅ w in
  exec_all evs start = Some o ->
  (along undisturbed evs start -> exists r, o = Returns r) /\
  forall es st, o = Returns (es, st) ->
    let g := service st in
    (forall chans ch sid, channels_ g = Some chans -> sid ∈ default [] (get_subscribers ch chans) ->
       exists st, auth_states_ g !! sid = Some st /\ authenticated st = true) /\
    (forall sid st, auth_states_ g !! sid = Some st -> authenticated st = true -> identity_verified st) /\
    (forall sid chans, channels_ (on_session_closed sid g) = Some chans ->
       auth_states_ (on_session_closed sid g) !! sid = None /\ forall ch, sid ∉ default [] (get_subscribers ch chans)).
Proof.
  intros start E. split; [intros Hal; apply (exec_all_valid evs start o); [intros k h; cbn; by rewrite lookup_empty | exact Hal | exact E] |].
  intros es st -> g. assert (Hinv : auth_inv g).
  { eapply (exec_all_auth evs start); [| exact E]. split; cbn; [intros sid st0; rewrite lookup_empty; done | intros ? [= <-]; apply make_channels_inv |].
    intros chans ch sid [= <-] Hl. unfold listed in Hl. cbn in Hl. rewrite lookup_empty in Hl. by apply elem_of_nil in Hl. }
  clearbody g. split_and!; [apply (ai_subscribed g Hinv) | apply (ai_verified g Hinv) |].
  intros sid chans H. split; [apply lookup_delete_eq |]. intros ch Hl. unfold on_session_closed in H. cbn in H.
  destruct (channels_ g) as [chans0 |] eqn:Ec; [| done]. injection H as <-.
  destruct (unsubscribe_all_spec sid chans0 (ai_channels g Hinv _ Ec)) as (_ & _ & Hr). apply Hr in Hl as [_ Hne]. done.
Qed.

End Run.

(** ** A failed re-authentication *)

(** The system messages used below carry the string after a 4-byte prefix. *)
Definition demo_string (p : list Z) : fb_view := FbString (dropZ 4 p).

Abbreviation demo_exec := (exec_all demo_verify (λ _, false) None None (mkAuthConfig ∅ false) (λ _ _ _, []) (λ _ _ _ w, (Ok tt, w)) demo_string).
Definition demo_core : core (W := unit) := mkCore (mkService (mkRouter [] 0 0 []) (make_pending 1 1) ∅ (Some (make_channels 0))) ∅ tt.
Definition demo_session : session_ref := mkSession 7 [49].

(** A request of another session waits while one authenticates and subscribes. *)
Definition demo_events : list (event (W := unit)) :=
  [Message demo_session AUTHENTICATE_SESSION [0; 0; 0; 0; 1] demo_clocks true; BeginRequest 0 (mkSession 8 [50]) 1000 [] false;
   Message demo_session SUBSCRIBE_CHANNEL [0; 0; 0; 0; 99] demo_clocks false; FinishRequest 0 demo_clocks].

Lemma subscribers_authenticated_witness : exists es st, demo_exec demo_events demo_core = Some (Returns (es, st)) /\
  PubSubSubscribe [99] ∈ es /\ exists a, auth_states_ (service st) !! 7 = Some a /\ authenticated a = true.
Proof.
  destruct (demo_exec demo_events demo_core) as [o |] eqn:E; [| by vm_compute in E].
  destruct (subscribers_authenticated demo_verify (λ _, false) None None (mkAuthConfig ∅ false) (λ _ _ _, []) (λ _ _ _ w, (Ok tt, w)) demo_string
    (mkRouter [] 0 0 []) 0 1 1 tt demo_events o E) as [Hret Hinv].
  destruct Hret as [[es st] ->]; [vm_compute; split_and!; intros; first [done | reflexivity | discriminate] |]. exists es, st. split; [done |]. destruct (Hinv es st eq_refl) as (Hsub & _).
  vm_compute in E. injection E as <- <-. split; [by left |]. eapply (Hsub _ [99] 7); [reflexivity |]. vm_compute. by left.
Defined.

(** A session that sends an invalid token after a valid one keeps being
    authenticated as the earlier user, and a subscription under that identity is
    still accepted, although the token bound to the session does not verify. *)
Theorem stale_reauthentication :
  exists st a chans, demo_exec
      [Message demo_session AUTHENTICATE_SESSION [0; 0; 0; 0; 1] demo_clocks true; Message demo_session AUTHENTICATE_SESSION [0; 0; 0; 0; 2] demo_clocks false;
       Message demo_session SUBSCRIBE_CHANNEL [0; 0; 0; 0; 99] demo_clocks false] demo_core = Some (Returns ([PubSubSubscribe [99]], st)) /\
    auth_states_ (service st) !! 7 = Some a /\ channels_ (service st) = Some chans /\ get_subscribers [99] chans = Some [7] /\
    authenticated a = true /\ user_id a = 42 /\ demo_verify (token a) = Err ServiceError.
Proof. do 3 eexists. split; [vm_compute; reflexivity |]. split_and!; vm_compute; reflexivity. Qed.

(** ** A reference into a table that grows *)

(** While a request waits for Redis, the first message of another session makes the
    table grow; the request goes on with a reference to where its state was. *)
Theorem growth_leaves_dangling_reference :
  demo_exec [BeginRequest 0 demo_session 1000 [] true; BeginRequest 1 (mkSession 8 [50]) 1000 [] true; FinishRequest 0 demo_clocks] demo_core = Some (Throws undefined_behaviour).
Proof. vm_compute. reflexivity. Qed.
