(* ===== verification/ServiceBase.v ===== *)
(** * What the backend services are built on

    The handlers of the auth and chat services are coroutines that talk to
    PostgreSQL, Redis and Kafka. A handler is a program of the type [prog]: it makes
    a call, is suspended, and goes on with the answer. [run_prog] runs one handler
    alone; [interleave] runs several, one call of one of them at a time, on a shared
    world. Statements about [on_paths] hold whatever the calls answer.

    Also here: [ServiceBase::kafka_route] (apex_core/include/apex/core/service_base.hpp),
    the response both services send (auth_service.cpp and chat_service.cpp), and the
    Redis commands they use as the class [RedisStore]. *)

From S2P Require Import Prelude ErrorCode Text KafkaEnvelope.
Import Kafka.
#[local] Open Scope Z_scope.

(** ** Coroutines *)

Section Prog.
Context {C : Type -> Type}.

Inductive prog (A : Type) : Type :=
| Ret (a : A)
| Call (T : Type) (c : C T) (k : T -> prog A).
Arguments Ret {A} a.
Arguments Call {A} T c k.

Context {A W : Type} (handle : forall T, C T -> W -> outcome (T * W)).

Fixpoint run_prog (p : prog A) (w : W) : outcome (A * W) :=
  match p with
  | Ret a => Returns (a, w)
  | Call T c k => match handle T c w with Returns (t, w) => run_prog (k t) w | Throws x => Throws x end
  end.

(** One call of the [i]-th coroutine. *)
Definition step_prog (i : nat) (ps : list (prog A)) (w : W) : outcome (list (prog A) * W) :=
  match ps !! i with
  | Some (Call T c k) => match handle T c w with Returns (t, w) => Returns (<[i := k t]> ps, w) | Throws x => Throws x end
  | _ => Returns (ps, w)
  end.

Fixpoint interleave (schedule : list nat) (ps : list (prog A)) (w : W) : outcome (list (prog A) * W) :=
  match schedule with
  | [] => Returns (ps, w)
  | i :: schedule => run (ps, w) <- step_prog i ps w; interleave schedule ps w
  end.

(** What holds at the end of every path, of what [view] shows of its calls. *)
Context {M : Type} (view : forall T, C T -> option M).

Fixpoint on_paths (P : list M -> A -> Prop) (seen : list M) (p : prog A) : Prop :=
  match p with
  | Ret a => P seen a
  | Call T c k => forall t, on_paths P (match view T c with Some m => seen ++ [m] | None => seen end) (k t)
  end.

End Prog.
Arguments prog : clear implicits.
Arguments Ret {C A} a.
Arguments Call {C A} T c k.

Lemma on_paths_mono {C A M} (view : forall T, C T -> option M) (P Q : list M -> A -> Prop) seen (p : prog C A) :
  (forall l a, P l a -> Q l a) -> on_paths view P seen p -> on_paths view Q seen p.
Proof. intros HPQ. revert seen. induction p as [a | T c k IH]; intros seen; cbn; [apply HPQ |]. intros Hp t. by apply IH. Qed.

Notation "'await' x <- c ; k" := (Call _ c (λ x, k)) (at level 10, x pattern, c at level 100, k at level 200).

(** ** Redis *)

(** The commands the services use, with their documented meaning. A key set with
    [SETEX] is there until its time to live, in seconds, has passed; times are in
    nanoseconds. *)
Class RedisStore (S : Type) : Type := {
  rs_get : list Z -> Z -> S -> option (list Z);
  rs_setex : list Z -> Z -> list Z -> Z -> S -> S;
  rs_del : list Z -> S -> S;
  rs_members : list Z -> S -> gset (list Z);
  rs_sadd : list Z -> list Z -> S -> S;
  rs_srem : list Z -> list Z -> S -> S;
  rs_get_setex : forall k ttl v now t s, 0 < ttl -> now <= t < now + ttl * 10 ^ 9 -> rs_get k t (rs_setex k ttl v now s) = Some v;
  rs_get_setex_ne : forall k k' ttl v now t s, k <> k' -> rs_get k' t (rs_setex k ttl v now s) = rs_get k' t s;
  rs_get_del : forall k t s, rs_get k t (rs_del k s) = None;
  rs_get_del_ne : forall k k' t s, k <> k' -> rs_get k' t (rs_del k s) = rs_get k' t s;
  rs_members_sadd : forall k m s, rs_members k (rs_sadd k m s) = {[m]} ∪ rs_members k s;
  rs_members_sadd_ne : forall k k' m s, k <> k' -> rs_members k' (rs_sadd k m s) = rs_members k' s;
  rs_members_srem : forall k m s, rs_members k (rs_srem k m s) = rs_members k s ∖ {[m]};
  rs_members_srem_ne : forall k k' m s, k <> k' -> rs_members k' (rs_srem k m s) = rs_members k' s
}.

(** Strings with their expiry, and sets. *)
Record key_store : Type := mkStore { ks_strings : gmap (list Z) (list Z * Z); ks_sets : gmap (list Z) (gset (list Z)) }.

Definition ks_get (k : list Z) (t : Z) (s : key_store) : option (list Z) :=
  match ks_strings s !! k with Some (v, e) => if t <? e then Some v else None | None => None end.
Definition ks_setex (k : list Z) (ttl : Z) (v : list Z) (now : Z) (s : key_store) : key_store :=
  mkStore (<[k := (v, now + ttl * 10 ^ 9)]> (ks_strings s)) (ks_sets s).
Definition ks_del (k : list Z) (s : key_store) : key_store := mkStore (delete k (ks_strings s)) (ks_sets s).
Definition ks_members (k : list Z) (s : key_store) : gset (list Z) := default ∅ (ks_sets s !! k).
Definition ks_sadd (k m : list Z) (s : key_store) : key_store := mkStore (ks_strings s) (<[k := {[m]} ∪ ks_members k s]> (ks_sets s)).
Definition ks_srem (k m : list Z) (s : key_store) : key_store := mkStore (ks_strings s) (<[k := ks_members k s ∖ {[m]}]> (ks_sets s)).

#[global] Instance store_redis : RedisStore key_store.
Proof.
  refine {| rs_get := ks_get; rs_setex := ks_setex; rs_del := ks_del; rs_members := ks_members; rs_sadd := ks_sadd; rs_srem := ks_srem |};
    intros; unfold ks_get, ks_setex, ks_del, ks_members, ks_sadd, ks_srem; cbn [ks_strings ks_sets];
    rewrite ?lookup_insert_eq, ?lookup_delete_eq, ?lookup_insert_ne, ?lookup_delete_ne by done; try done.
  destruct (Z.ltb_spec t (now + ttl * 10 ^ 9)); [done | lia].
Defined.

(** ** Requests and responses *)

Module Base.

(** [kafka_route]: verify the buffer, read the request, call the method. *)
Definition kafka_route {C R} (get_root : list Z -> option R) (method : KafkaMessageMeta -> R -> prog C (Result unit))
    (meta : KafkaMessageMeta) (payload : list Z) : prog C (Result unit) :=
  match get_root payload with
  | None => Ret (Err FlatBuffersVerifyFailed)
  | Some msg => method meta msg
  end.

(** A message given to [KafkaAdapter::produce]; the key is the session's id in
    decimal. *)
Record message : Type := mkMessage { m_topic : list Z; m_key : Z; m_bytes : list Z }.

(** The envelope and the topic of [send_response_with_flags]. *)
Definition response (source_id : Z) (response_topic : list Z) (msg_id flags corr_id core_id session_id : Z)
    (fbs_payload reply_topic : list Z) (now_ms : Z) : message :=
  let envelope := Kafka.build now_ms (Kafka.payload fbs_payload (Kafka.metadata core_id corr_id source_id session_id 0 (Kafka.routing msg_id flags make_builder))) in
  mkMessage (match reply_topic with [] => response_topic | _ :: _ => reply_topic end) session_id envelope.

End Base.
Import Base.
