(* ===== verification/AuthService.v ===== *)
(** * The auth service

    [SessionStore], [JwtManager] and the three handlers of [AuthService]
    (apex_services/auth-svc/src/session_store.cpp, jwt_manager.cpp, auth_service.cpp),
    with the token helpers of crypto_util.hpp.

    A handler is a [prog] over [call]: a statement sent to PostgreSQL, a Redis command,
    a step on a connection taken from the pool, a clock reading. The database is the
    class [AuthDb], one operation per SQL statement of the source; a transaction's
    writes take effect at its [COMMIT]. jwt-cpp, SHA-256, the random generator and the
    FlatBuffers builders are arguments; so is the password check, which the theorem on
    logins takes from [Bcrypt]. *)

From S2P Require Import Prelude ErrorCode Text Bcrypt KafkaEnvelope GatewayPipeline PgPool ServiceBase.
Import Kafka Pg Base.

Module Auth.

(** ** Requests, rows and errors *)

Record LoginRequest : Type := mkLogin { lr_email : option (list Z); lr_password : option (list Z) }.

(** The columns of the two lookups, as text; [None] is NULL. *)
Record user_row : Type := mkUser { ur_id : list Z; ur_password_hash : list Z; ur_locked : option (list Z) }.
Record token_row : Type := mkToken { tr_user : list Z; tr_revoked : bool; tr_expires : Z; tr_family : list Z }.

Inductive LoginError : Type := LOGIN_NONE | BAD_CREDENTIALS | ACCOUNT_LOCKED | LOGIN_INTERNAL_ERROR.
Inductive LogoutError : Type := LOGOUT_NONE | INVALID_TOKEN.
Inductive RefreshTokenError : Type := REFRESH_NONE | TOKEN_INVALID | TOKEN_EXPIRED | TOKEN_REVOKED | REFRESH_INTERNAL_ERROR.

Definition LOGIN_RESPONSE : Z := 1001.
Definition LOGOUT_RESPONSE : Z := 1003.
Definition REFRESH_TOKEN_RESPONSE : Z := 1005.
Definition source_AUTH : Z := 1.

(** ** Calls *)

Inductive call : Type -> Type :=
| FindUser (email : list Z) : call (Result (option user_row))
| InsertToken (hash user_id : list Z) (ttl : Z) : call (Result unit)
| FindToken (hash : list Z) : call (Result (option token_row))
| RevokeFamily (family : list Z) : call (Result unit)
| CountExpired (hash : list Z) : call (Result Z)
| FindEmail (user_id : list Z) : call (Result (option (list Z)))
| AcquireConnected : call (Result Z)
| TxnBegin (t : PgTransaction) : call (Result unit * PgTransaction)
| TxnRevoke (t : PgTransaction) (hash : list Z) : call (Result unit)
| TxnInsert (t : PgTransaction) (hash user_id : list Z) (ttl : Z) (family : list Z) : call (Result unit)
| TxnCommit (t : PgTransaction) : call (Result unit * PgTransaction)
| TxnRollback (t : PgTransaction) : call (Result unit * PgTransaction)
| TxnDestroy (t : PgTransaction) : call unit
| DiscardConn (c : Z) : call unit
| ReleaseConn (c : Z) : call unit
| RandBytes (n : Z) : call (option (list Z))
| SystemClock : call Z
| RedisSetex (key : list Z) (ttl : Z) (value : list Z) : call (Result unit)
| RedisDel (key : list Z) : call (Result unit)
| RedisExists (key : list Z) : call (Result Z)
| RedisGet (key : list Z) : call (Result (option (list Z)))
| Produce (m : message) : call (Result unit).

Abbreviation auth_prog := (prog call (Result unit)).

(** ** Helpers *)

Definition generate_secure_token {A} (n : Z) (k : option (list Z) -> prog call A) : prog call A :=
  await r <- RandBytes n; k (match r with Some bs => Some (to_hex bs) | None => None end).

(** *** SessionStore *)

Definition token_hash_char (c : Z) : bool :=
  ((48 <=? c) && (c <=? 57)) || ((97 <=? c) && (c <=? 102)) || ((65 <=? c) && (c <=? 70)).

Definition is_valid_token_hash (hash : list Z) : bool :=
  match hash with [] => false | _ :: _ => if 128 <? len hash then false else forallb token_hash_char hash end.

Record SessionStore : Type := mkSessionStore { prefix_ : list Z; blacklist_prefix_ : list Z; ttl_ : Z }.

Definition session_key (s : SessionStore) (user_id : Z) : list Z := prefix_ s ++ to_text user_id.
Definition blacklist_key (s : SessionStore) (token_hash : list Z) : list Z := blacklist_prefix_ s ++ token_hash.
Definition user_session_key (user_id : Z) : list Z := bytes_of "session:user:" ++ to_text user_id.

Definition store_set (s : SessionStore) (user_id : Z) (data : list Z) : call (Result unit) := RedisSetex (session_key s user_id) (to_int (ttl_ s)) (c_str data).
Definition store_get {A} (s : SessionStore) (user_id : Z) (k : Result (list Z) -> prog call A) : prog call A :=
  await r <- RedisGet (session_key s user_id);
  k (match r with Err e => Err e | Ok None => Err AdapterError | Ok (Some str) => Ok str end).
Definition store_remove (s : SessionStore) (user_id : Z) : call (Result unit) := RedisDel (session_key s user_id).
Definition set_user_session_id (s : SessionStore) (user_id session_id core_id : Z) : call (Result unit) :=
  RedisSetex (user_session_key user_id) (to_int (ttl_ s)) (to_text session_id ++ [58] ++ to_text core_id).
Definition remove_user_session_id (user_id : Z) : call (Result unit) := RedisDel (user_session_key user_id).

Definition blacklist_token {A} (s : SessionStore) (token_hash : list Z) (ttl : Z) (k : Result unit -> prog call A) : prog call A :=
  if negb (is_valid_token_hash token_hash) then k (Err InvalidMessage)
  else await r <- RedisSetex (blacklist_key s token_hash) (to_int ttl) [49]; k r.

Definition is_blacklisted {A} (s : SessionStore) (token_hash : list Z) (k : bool -> prog call A) : prog call A :=
  if negb (is_valid_token_hash token_hash) then k true
  else await r <- RedisExists (blacklist_key s token_hash); k (match r with Err _ => true | Ok n => 0 <? n end).

(** *** JwtManager *)

Record Claims : Type := mkClaims { user_id : Z; email : list Z; jti : list Z; issued_at : Z; expires_at : Z }.

(** What [verifier.verify] and the accessors of jwt-cpp come to. *)
Inductive jwt_outcome : Type :=
| Verified (d : Jwt.decoded_jwt) (issued : option Z)
| VerificationFailed
| OtherException.

Section Service.
Context (private_key_loaded public_key_loaded : bool).
Context (jwt_verify : list Z -> Z -> jwt_outcome) (jwt_expiry : list Z -> option Z).
Context (jwt_sign : Z -> list Z -> list Z -> Z -> Z -> option (list Z)).
Context (sha256_hex : list Z -> list Z) (bcrypt_check : list Z -> list Z -> bool).
Context (login_response : LoginError -> option (list Z * list Z * Z * Z) -> list Z).
Context (logout_response : LogoutError -> list Z).
Context (refresh_response : RefreshTokenError -> option (list Z * Z * list Z) -> list Z).
Context (session_store_ : SessionStore) (access_token_ttl refresh_token_ttl : Z) (response_topic : list Z).

(** The empty string when there is no token. *)
Definition create_access_token {A} (user_id : Z) (email : list Z) (k : list Z -> prog call A) : prog call A :=
  if negb private_key_loaded then k []
  else
    await now <- SystemClock;
    generate_secure_token 16 (λ jti,
      match default [] jti with
      | [] => k []
      | _ :: _ => k (default [] (jwt_sign user_id email (default [] jti) now (now + access_token_ttl * 10 ^ 9)))
      end).

Definition verify_access_token (token : list Z) (now : Z) : Result Claims :=
  if negb public_key_loaded then Err AdapterError
  else match jwt_verify token now with
  | VerificationFailed => Err ServiceError
  | OtherException => Err AdapterError
  | Verified d issued =>
      match Jwt.d_uid d with
      | None => Err AdapterError
      | Some uid_str =>
          match from_chars uid_str with
          | None => Err ServiceError
          | Some uid =>
              match Jwt.d_subject d, issued, Jwt.d_expires d with
              | Some email, Some iat, Some exp => Ok (mkClaims uid email (default [] (Jwt.d_jti d)) iat exp)
              | _, _, _ => Err AdapterError
              end
          end
      end
  end.

(** In seconds, rounded down. *)
Definition remaining_ttl (token : list Z) (now : Z) : Z :=
  match jwt_expiry token with
  | None => 0
  | Some exp => if exp <=? now then 0 else (exp - now) ÷ 10 ^ 9
  end.

(** ** Responses *)

Definition send_response (msg_id : Z) (meta : KafkaMessageMeta) (fbs_payload : list Z) (k : auth_prog) : auth_prog :=
  await now <- SystemClock;
  await _ <- Produce (response source_AUTH response_topic msg_id DIRECTION_RESPONSE (mm_corr_id meta) (mm_core_id meta) (mm_session_id meta) fbs_payload [] (now ÷ 10 ^ 6));
  k.

Definition send_login_error (meta : KafkaMessageMeta) (e : LoginError) : auth_prog :=
  send_response LOGIN_RESPONSE meta (login_response e None) (Ret (Ok tt)).
Definition send_logout_error (meta : KafkaMessageMeta) (e : LogoutError) : auth_prog :=
  send_response LOGOUT_RESPONSE meta (logout_response e) (Ret (Ok tt)).
Definition send_refresh_token_error (meta : KafkaMessageMeta) (e : RefreshTokenError) : auth_prog :=
  send_response REFRESH_TOKEN_RESPONSE meta (refresh_response e None) (Ret (Ok tt)).

(** [std::format("uid:{}|email:{}|created:{}", ...)]. *)
Definition session_data (user_id : Z) (email : list Z) (now : Z) : list Z :=
  bytes_of "uid:" ++ to_text user_id ++ bytes_of "|email:" ++ email ++ bytes_of "|created:" ++ to_text (now ÷ 10 ^ 9).

(** [session_store_->set] and [set_user_session_id], whose failures are logged. *)
Definition store_sessions {A} (meta : KafkaMessageMeta) (user_id : Z) (email : list Z) (k : prog call A) : prog call A :=
  await now <- SystemClock;
  await _ <- store_set session_store_ user_id (session_data user_id email now);
  await _ <- set_user_session_id session_store_ user_id (mm_session_id meta) (mm_core_id meta);
  k.

(** ** Login *)

(** From the verified password on. *)
Definition issue_tokens (meta : KafkaMessageMeta) (email : list Z) (user_id : Z) : auth_prog :=
  create_access_token user_id email (λ access_token,
    match access_token with
    | [] => send_login_error meta LOGIN_INTERNAL_ERROR
    | _ :: _ =>
        generate_secure_token 32 (λ refresh_token,
          match refresh_token with
          | None => send_login_error meta LOGIN_INTERNAL_ERROR
          | Some refresh_token =>
              await _ <- InsertToken (sha256_hex refresh_token) (to_text user_id) refresh_token_ttl;
              store_sessions meta user_id email (
              send_response LOGIN_RESPONSE meta
                (login_response LOGIN_NONE (Some (access_token, refresh_token, user_id, u32 access_token_ttl))) (Ret (Ok tt)))
          end)
    end).

Definition on_login (meta : KafkaMessageMeta) (req : LoginRequest) : auth_prog :=
  match lr_email req, lr_password req with
  | Some email, Some password =>
      await user_result <- FindUser (c_str email);
      match user_result with
      | Err _ => send_login_error meta LOGIN_INTERNAL_ERROR
      | Ok None => send_login_error meta BAD_CREDENTIALS
      | Ok (Some row) =>
          match from_chars (ur_id row) with
          | None => send_login_error meta LOGIN_INTERNAL_ERROR
          | Some user_id =>
              if bool_decide (ur_locked row = Some [116]) then send_login_error meta ACCOUNT_LOCKED
              else if negb (bcrypt_check (c_str password) (ur_password_hash row)) then send_login_error meta BAD_CREDENTIALS
              else issue_tokens meta email user_id
          end
      end
  | _, _ => send_login_error meta BAD_CREDENTIALS
  end.

(** ** Logout *)

(** Step 2, whose failure is logged. *)
Definition blacklist_step {A} (claims : Claims) (remaining : Z) (k : prog call A) : prog call A :=
  if (0 <? remaining) && bool_decide (jti claims <> []) then blacklist_token session_store_ (jti claims) remaining (λ _, k) else k.

Definition on_logout (meta : KafkaMessageMeta) (access_token : option (list Z)) : auth_prog :=
  match access_token with
  | None => send_logout_error meta INVALID_TOKEN
  | Some access_token =>
      await now <- SystemClock;
      match verify_access_token access_token now with
      | Err _ => send_logout_error meta INVALID_TOKEN
      | Ok claims =>
          await now <- SystemClock;
          blacklist_step claims (remaining_ttl access_token now) (
          await _ <- store_remove session_store_ (user_id claims);
          await _ <- remove_user_session_id (user_id claims);
          send_response LOGOUT_RESPONSE meta (logout_response LOGOUT_NONE) (Ret (Ok tt)))
      end
  end.

(** ** Refresh *)

(** An error response sent while the transaction object is in scope: its destructor
    runs when the coroutine returns. *)
Definition fail_in_txn (meta : KafkaMessageMeta) (txn : PgTransaction) : auth_prog :=
  send_response REFRESH_TOKEN_RESPONSE meta (refresh_response REFRESH_INTERNAL_ERROR None) (await _ <- TxnDestroy txn; Ret (Ok tt)).

(** Step 5: revoke the old token and insert the new one, in one transaction. *)
Definition rotate (meta : KafkaMessageMeta) (token_hash new_refresh_hash user_id_s token_family : list Z) (k : auth_prog) : auth_prog :=
  await conn_result <- AcquireConnected;
  match conn_result with
  | Err _ => send_refresh_token_error meta REFRESH_INTERNAL_ERROR
  | Ok conn =>
      await (begin_result, txn) <- TxnBegin (make_txn conn);
      match begin_result with
      | Err _ => await _ <- DiscardConn conn; fail_in_txn meta txn
      | Ok _ =>
          await revoke_result <- TxnRevoke txn token_hash;
          match revoke_result with
          | Err _ => await (_, txn) <- TxnRollback txn; await _ <- DiscardConn conn; fail_in_txn meta txn
          | Ok _ =>
              await insert_result <- TxnInsert txn new_refresh_hash user_id_s refresh_token_ttl token_family;
              match insert_result with
              | Err _ => await (_, txn) <- TxnRollback txn; await _ <- DiscardConn conn; fail_in_txn meta txn
              | Ok _ =>
                  await (commit_result, txn) <- TxnCommit txn;
                  match commit_result with
                  | Err _ => await _ <- DiscardConn conn; fail_in_txn meta txn
                  | Ok _ => await _ <- ReleaseConn conn; await _ <- TxnDestroy txn; k
                  end
              end
          end
      end
  end.

(** Steps 6 and 7. *)
Definition finish_refresh (meta : KafkaMessageMeta) (user_id : Z) (new_refresh_token : list Z) : auth_prog :=
  await email_result <- FindEmail (to_text user_id);
  match email_result with
  | Ok (Some (c :: rest)) =>
      create_access_token user_id (c :: rest) (λ new_access_token,
        match new_access_token with
        | [] => send_refresh_token_error meta REFRESH_INTERNAL_ERROR
        | _ :: _ =>
            store_sessions meta user_id (c :: rest) (
            send_response REFRESH_TOKEN_RESPONSE meta
              (refresh_response REFRESH_NONE (Some (new_access_token, u32 access_token_ttl, new_refresh_token))) (Ret (Ok tt)))
        end)
  | _ => send_refresh_token_error meta REFRESH_INTERNAL_ERROR
  end.

(** Step 3: a revoked token was presented. *)
Definition reuse_detected (meta : KafkaMessageMeta) (user_id : Z) (token_family : list Z) : auth_prog :=
  await _ <- RevokeFamily token_family;
  await _ <- store_remove session_store_ user_id;
  await _ <- remove_user_session_id user_id;
  send_refresh_token_error meta TOKEN_REVOKED.

Definition on_refresh_token (meta : KafkaMessageMeta) (refresh_token : option (list Z)) : auth_prog :=
  match refresh_token with
  | None => send_refresh_token_error meta TOKEN_INVALID
  | Some refresh_token_str =>
      let token_hash := sha256_hex refresh_token_str in
      await lookup_result <- FindToken token_hash;
      match lookup_result with
      | Err _ => send_refresh_token_error meta REFRESH_INTERNAL_ERROR
      | Ok None => send_refresh_token_error meta TOKEN_INVALID
      | Ok (Some row) =>
          match from_chars (tr_user row) with
          | None => send_refresh_token_error meta REFRESH_INTERNAL_ERROR
          | Some user_id =>
              if tr_revoked row then reuse_detected meta user_id (tr_family row)
              else
                await expiry_result <- CountExpired token_hash;
                match expiry_result with
                | Err _ => send_refresh_token_error meta REFRESH_INTERNAL_ERROR
                | Ok n =>
                    if 0 <? n then send_refresh_token_error meta TOKEN_EXPIRED
                    else
                      generate_secure_token 32 (λ new_rt,
                        match new_rt with
                        | None => send_refresh_token_error meta REFRESH_INTERNAL_ERROR
                        | Some new_refresh_token =>
                            rotate meta token_hash (sha256_hex new_refresh_token) (to_text user_id) (tr_family row)
                              (finish_refresh meta user_id new_refresh_token)
                        end)
                end
          end
      end
  end.

End Service.
End Auth.
Import Auth.

(** ** The database *)

Definition revoked (r : token_row) : token_row := mkToken (tr_user r) true (tr_expires r) (tr_family r).

(** The statements of the service on the tables [users] and [refresh_tokens], with
    what SQL says of them: [token_hash] is unique, an [UPDATE] changes the rows its
    condition selects, and a row inserted without a family gets one of its own. *)
Class AuthDb (D : Type) : Type := {
  db_user : list Z -> Z -> D -> option user_row;
  db_email : list Z -> D -> option (list Z);
  db_token : list Z -> D -> option token_row;
  db_insert : list Z -> list Z -> Z -> option (list Z) -> D -> option D;
  db_revoke : list Z -> D -> D;
  db_revoke_family : list Z -> D -> D;
  db_insert_duplicate : forall h u e f d, db_insert h u e f d = None <-> db_token h d <> None;
  db_insert_same : forall h u e f d d', db_insert h u e f d = Some d' ->
    exists fam, db_token h d' = Some (mkToken u false e fam) /\ (forall f', f = Some f' -> fam = f');
  db_insert_other : forall h u e f d d' h', db_insert h u e f d = Some d' -> h' <> h -> db_token h' d' = db_token h' d;
  db_revoke_same : forall h d, db_token h (db_revoke h d) = revoked <$> db_token h d;
  db_revoke_other : forall h h' d, h' <> h -> db_token h' (db_revoke h d) = db_token h' d;
  db_revoke_family_token : forall f h d,
    db_token h (db_revoke_family f d) = (λ r, if bool_decide (tr_family r = f) then revoked r else r) <$> db_token h d
}.

(** Tables as maps; the family of a first token is its own hash. *)
Record tables : Type := mkTables { tb_users : gmap (list Z) (list Z * list Z * option Z); tb_tokens : gmap (list Z) token_row }.

Definition tb_user (email : list Z) (now : Z) (d : tables) : option user_row :=
  match tb_users d !! email with
  | Some (uid, hash, locked_until) => Some (mkUser uid hash ((λ t, if now <? t then [116] else [102]) <$> locked_until))
  | None => None
  end.
Definition tb_email (uid : list Z) (d : tables) : option (list Z) :=
  list_find (λ '(_, (u, _, _)), u = uid) (map_to_list (tb_users d)) ≫= λ '(_, (e, _)), Some e.
Definition tb_insert (h u : list Z) (e : Z) (f : option (list Z)) (d : tables) : option tables :=
  match tb_tokens d !! h with
  | Some _ => None
  | None => Some (mkTables (tb_users d) (<[h := mkToken u false e (default h f)]> (tb_tokens d)))
  end.
Definition tb_revoke (h : list Z) (d : tables) : tables := mkTables (tb_users d) (alter revoked h (tb_tokens d)).
Definition tb_revoke_family (f : list Z) (d : tables) : tables :=
  mkTables (tb_users d) ((λ r, if bool_decide (tr_family r = f) then revoked r else r) <$> tb_tokens d).

#[global] Instance tables_db : AuthDb tables.
Proof.
  refine {| db_user := tb_user; db_email := tb_email; db_token := λ h d, tb_tokens d !! h; db_insert := tb_insert;
            db_revoke := tb_revoke; db_revoke_family := tb_revoke_family |}; unfold tb_insert, tb_revoke, tb_revoke_family; cbn [tb_tokens tb_users].
  - intros h u e f d. by destruct (tb_tokens d !! h).
  - intros h u e f d d'. destruct (tb_tokens d !! h); [done |]. intros [= <-]. cbn. rewrite lookup_insert_eq. eexists. split; [done |]. by intros f' ->.
  - intros h u e f d d' h'. destruct (tb_tokens d !! h); [done |]. intros [= <-] Hne. cbn. by rewrite lookup_insert_ne.
  - intros h d. apply lookup_alter_eq.
  - intros h h' d Hne. by apply lookup_alter_ne.
  - intros f h d. apply lookup_fmap.
Defined.

(** ** The world the handlers run in *)

(** What comes back from a server: whether a connection is made if one is needed,
    the reply, whether the server did its work although the reply was lost, and the
    time it took. *)
Record answer : Type := mkAnswer { a_connect : bool; a_reply : reply; a_applied : bool; a_delay : Z }.

Inductive write : Type :=
| WRevoke (hash : list Z)
| WInsert (hash user_id : list Z) (expires : Z) (family : list Z).

Module AuthWorld.

(** [txns] has, for each connection with a transaction, its start and its writes;
    [produced] are the messages given to [KafkaAdapter::produce]. *)
Record world (D R : Type) : Type := mkWorld {
  db : D; redis : R; pool : PgPool; txns : gmap Z (Z * list write); clock : Z; ticks : nat; produced : list message;
}.
Arguments mkWorld {D R}.
Arguments db {D R}. Arguments redis {D R}. Arguments pool {D R}. Arguments txns {D R}.
Arguments clock {D R}. Arguments ticks {D R}. Arguments produced {D R}.

Definition acquire_connected (connect_ok : bool) (p : PgPool) : outcome (Result Z * PgPool) :=
  run (r, p) <- acquire p;
  match r with
  | Err e => Returns (Err e, p)
  | Ok c => run x <- deref c p; if connected_ x then Returns (Ok c, p) else connect_done connect_ok c p
  end.

Section Handle.
Context {D R : Type} `{AuthDb D} `{RedisStore R}.
Context (answer_of : forall T, call T -> nat -> answer) (rand : nat -> Z -> option (list Z)).

Abbreviation W := (world D R).

Definition with_db (d : D) (w : W) : W := mkWorld d (redis w) (pool w) (txns w) (clock w) (ticks w) (produced w).
Definition with_redis (r : R) (w : W) : W := mkWorld (db w) r (pool w) (txns w) (clock w) (ticks w) (produced w).
Definition with_pool (p : PgPool) (w : W) : W := mkWorld (db w) (redis w) p (txns w) (clock w) (ticks w) (produced w).
Definition with_txns (t : gmap Z (Z * list write)) (w : W) : W := mkWorld (db w) (redis w) (pool w) t (clock w) (ticks w) (produced w).
Definition with_produced (m : list message) (w : W) : W := mkWorld (db w) (redis w) (pool w) (txns w) (clock w) (ticks w) m.
Definition elapse (a : answer) (w : W) : W := mkWorld (db w) (redis w) (pool w) (txns w) (clock w + Z.max 0 (a_delay a)) (ticks w) (produced w).
Definition next (w : W) : W := mkWorld (db w) (redis w) (pool w) (txns w) (clock w) (S (ticks w)) (produced w).

Definition with_ok (b : bool) (r : reply) : reply := mkReply (r_ok r && b) (r_status r) (r_txn r).

(** [PgAdapter::query] and [execute] of the statement [sql], given the time. *)
Definition pg_statement {T} (a : answer) (sql : Z -> D -> option (T * D)) (w : W) : outcome (Result T * W) :=
  run (r, p) <- acquire_connected (a_connect a) (pool w);
  match r with
  | Err e => Returns (Err e, with_pool p w)
  | Ok c =>
      match sql (clock w) (db w) with
      | None =>
          run (_, p) <- query_done (clock w) (with_ok false (a_reply a)) c p;
          Returns (Err AdapterError, elapse a (with_pool p w))
      | Some (t, d) =>
          run (q, p) <- query_done (clock w) (a_reply a) c p;
          Returns (match q with Ok _ => Ok t | Err e => Err e end,
                   elapse a (with_pool p (if r_ok (a_reply a) || a_applied a then with_db d w else w)))
      end
  end.

Definition redis_command {T} (a : answer) (f : R -> T * R) (w : W) : outcome (Result T * W) :=
  let '(t, r) := f (redis w) in
  let w := if r_ok (a_reply a) || a_applied a then with_redis r w else w in
  Returns (if r_ok (a_reply a) then Ok t else Err AdapterError, elapse a w).

Definition apply_write (x : write) (d : D) : option D :=
  match x with
  | WRevoke h => Some (db_revoke h d)
  | WInsert h u e f => db_insert h u e (Some f) d
  end.
Fixpoint apply_writes (xs : list write) (d : D) : option D :=
  match xs with [] => Some d | x :: xs => match apply_write x d with Some d => apply_writes xs d | None => None end end.

(** A statement in a transaction: the server answers with an error when it breaks a
    constraint, and otherwise keeps the write for the [COMMIT]. *)
Definition txn_statement (a : answer) (t : PgTransaction) (x : Z -> write) (w : W) : outcome (Result unit * W) :=
  let '(start, xs) := default (clock w, []) (txns w !! conn_ t) in
  let good := match apply_writes (xs ++ [x start]) (db w) with Some _ => true | None => false end in
  run (res, p) <- txn_execute (with_ok good (a_reply a)) t (pool w);
  Returns (res, elapse a (with_pool p (match res with Ok _ => with_txns (<[conn_ t := (start, xs ++ [x start])]> (txns w)) w | Err _ => w end))).

Definition commit_writes (t : PgTransaction) (w : W) : W :=
  let '(_, xs) := default (clock w, []) (txns w !! conn_ t) in
  with_txns (delete (conn_ t) (txns w)) (match apply_writes xs (db w) with Some d => with_db d w | None => w end).

Definition handle_at (T : Type) (c : call T) (a : answer) (w : W) : outcome (T * W) :=
  match c in call T return outcome (T * W) with
  | FindUser email => pg_statement a (λ now d, Some (db_user email now d, d)) w
  | InsertToken h u ttl => pg_statement a (λ now d, match db_insert h u (now + ttl * 10 ^ 9) None d with Some d => Some (tt, d) | None => None end) w
  | FindToken h => pg_statement a (λ _ d, Some (db_token h d, d)) w
  | RevokeFamily f => pg_statement a (λ _ d, Some (tt, db_revoke_family f d)) w
  | CountExpired h => pg_statement a (λ now d,
      Some (match db_token h d with Some r => if tr_expires r <? now then 1 else 0 | None => 0 end, d)) w
  | FindEmail u => pg_statement a (λ _ d, Some (db_email u d, d)) w
  | AcquireConnected => run (r, p) <- acquire_connected (a_connect a) (pool w); Returns (r, elapse a (with_pool p w))
  | TxnBegin t =>
      run (res, t', p) <- txn_begin (a_reply a) t (pool w);
      Returns (res, t', elapse a (with_pool p (with_txns (<[conn_ t := (clock w, [])]> (txns w)) w)))
  | TxnRevoke t h => txn_statement a t (λ _, WRevoke h) w
  | TxnInsert t h u ttl f => txn_statement a t (λ start, WInsert h u (start + ttl * 10 ^ 9) f) w
  | TxnCommit t =>
      run (res, t', p) <- txn_commit (a_reply a) t (pool w);
      Returns (res, t', elapse a (with_pool p (if r_ok (a_reply a) || a_applied a then commit_writes t w else w)))
  | TxnRollback t =>
      run (res, t', p) <- txn_rollback (a_reply a) t (pool w);
      Returns (res, t', elapse a (with_pool p (with_txns (delete (conn_ t) (txns w)) w)))
  | TxnDestroy t => run p <- txn_destroy t (pool w); Returns (tt, with_pool p w)
  | DiscardConn c => run p <- discard c (pool w); Returns (tt, with_pool p (with_txns (delete c (txns w)) w))
  | ReleaseConn c => run p <- release (clock w) c (pool w); Returns (tt, with_pool p w)
  | RandBytes n => Returns (rand (ticks w) n, w)
  | SystemClock => Returns (clock w, w)
  | RedisSetex k ttl v => redis_command a (λ r, (tt, rs_setex k ttl v (clock w) r)) w
  | RedisDel k => redis_command a (λ r, (tt, rs_del k r)) w
  | RedisExists k => redis_command a (λ r, (match rs_get k (clock w) r with Some _ => 1 | None => 0 end, r)) w
  | RedisGet k => redis_command a (λ r, (rs_get k (clock w) r, r)) w
  | Produce m => Returns ((if r_ok (a_reply a) then Ok tt else Err AdapterError), with_produced (produced w ++ [m]) w)
  end.

Definition handle (T : Type) (c : call T) (w : W) : outcome (T * W) := handle_at T c (answer_of T c (ticks w)) (next w).

End Handle.
End AuthWorld.
Import AuthWorld.

(** ** Responses on every path *)

Definition sent (T : Type) (c : call T) : option message := match c with Produce m => Some m | _ => None end.

Section OneResponse.
Context (private_key_loaded public_key_loaded : bool).
Context (jwt_verify : list Z -> Z -> jwt_outcome) (jwt_expiry : list Z -> option Z).
Context (jwt_sign : Z -> list Z -> list Z -> Z -> Z -> option (list Z)).
Context (sha256_hex : list Z -> list Z) (bcrypt_check : list Z -> list Z -> bool).
Context (login_response : LoginError -> option (list Z * list Z * Z * Z) -> list Z).
Context (logout_response : LogoutError -> list Z).
Context (refresh_response : RefreshTokenError -> option (list Z * Z * list Z) -> list Z).
Context (session_store_ : SessionStore) (access_token_ttl refresh_token_ttl : Z) (response_topic : list Z).
Context (meta : KafkaMessageMeta).

(** One message, the response [msg_id] to the request. *)
Definition answered (msg_id : Z) (ms : list message) (r : Result unit) : Prop :=
  r = Ok tt /\ exists payload now, ms = [response source_AUTH response_topic msg_id DIRECTION_RESPONSE
    (mm_corr_id meta) (mm_core_id meta) (mm_session_id meta) payload [] (now ÷ 10 ^ 6)].

Abbreviation answers msg_id := (on_paths sent (answered msg_id) []).

Lemma send_response_answers msg_id payload k :
  (forall ms, on_paths sent (λ ms' r, ms' = ms /\ r = Ok tt) ms k) -> answers msg_id (send_response response_topic msg_id meta payload k).
Proof. intros Hk now r. eapply on_paths_mono; [| apply Hk]. intros ms a [-> ->]. split; [done |]. by exists payload, now. Qed.

Lemma send_ok msg_id payload : answers msg_id (send_response response_topic msg_id meta payload (Ret (Ok tt))).
Proof. by apply send_response_answers. Qed.

Lemma create_access_token_paths uid email msg_id (k : list Z -> auth_prog) :
  (forall token, answers msg_id (k token)) -> answers msg_id (create_access_token private_key_loaded jwt_sign access_token_ttl uid email k).
Proof.
  intros Hk. unfold create_access_token. destruct private_key_loaded; cbn [negb]; [| apply Hk]. intros now. cbn. intros [bs |]; [| apply Hk].
  cbn. destruct (to_hex bs); apply Hk.
Qed.

Lemma login_answers req : answers LOGIN_RESPONSE
  (on_login private_key_loaded jwt_sign sha256_hex bcrypt_check login_response session_store_ access_token_ttl refresh_token_ttl response_topic meta req).
Proof.
  unfold on_login. destruct (lr_email req) as [email |]; [| apply send_ok]. destruct (lr_password req) as [password |]; [| apply send_ok].
  intros [[row |] | e]; try apply send_ok. cbn [sent]. destruct (from_chars (ur_id row)) as [uid |]; [| apply send_ok].
  destruct (bool_decide _); [apply send_ok |]. destruct (bcrypt_check _ _); cbn [negb]; [| apply send_ok].
  apply create_access_token_paths. intros [| c token]; [apply send_ok |]. intros [bs |]; [| apply send_ok]. intros ? ? ? ?. apply send_ok.
Qed.

Lemma logout_answers token : answers LOGOUT_RESPONSE
  (on_logout public_key_loaded jwt_verify jwt_expiry logout_response session_store_ response_topic meta token).
Proof.
  unfold on_logout. destruct token as [token |]; [| apply send_ok]. intros now. destruct (verify_access_token _ _ _ _); [| apply send_ok].
  intros now'. unfold blacklist_step. destruct (_ && _); [| intros ? ?; apply send_ok].
  unfold blacklist_token. destruct (is_valid_token_hash _); cbn [negb]; [intros ? |]; intros ? ?; apply send_ok.
Qed.

Lemma fail_in_txn_answers txn : answers REFRESH_TOKEN_RESPONSE (fail_in_txn refresh_response response_topic meta txn).
Proof. apply send_response_answers. by intros ms ?. Qed.

Lemma rotate_answers h h' u f k : answers REFRESH_TOKEN_RESPONSE k ->
  answers REFRESH_TOKEN_RESPONSE (rotate refresh_response refresh_token_ttl response_topic meta h h' u f k).
Proof.
  intros Hk [c | e]; [| apply send_ok]. intros [[[] | e] txn]; [| intros ?; apply fail_in_txn_answers].
  intros [[] | e]; [| intros [? ?] ?; apply fail_in_txn_answers]. intros [[] | e]; [| intros [? ?] ?; apply fail_in_txn_answers].
  intros [[[] | e] txn']; [| intros ?; apply fail_in_txn_answers]. intros ? ?. apply Hk.
Qed.

Lemma refresh_answers token : answers REFRESH_TOKEN_RESPONSE
  (on_refresh_token private_key_loaded jwt_sign sha256_hex refresh_response session_store_ access_token_ttl refresh_token_ttl response_topic meta token).
Proof.
  unfold on_refresh_token. destruct token as [token |]; [| apply send_ok]. intros [[row |] | e]; try apply send_ok. cbn [sent].
  destruct (from_chars (tr_user row)) as [uid |]; [| apply send_ok]. destruct (tr_revoked row); [intros ? ? ?; apply send_ok |].
  intros [n | e]; [| apply send_ok]. cbn [sent]. destruct (0 <? n); [apply send_ok |]. intros [bs |]; [| apply send_ok]. apply rotate_answers.
  intros [[[| c email] |] | e]; try apply send_ok. apply create_access_token_paths. intros [| c' token']; [apply send_ok |]. intros ? ? ?. apply send_ok.
Qed.

(** Whatever PostgreSQL, Redis, Kafka, the random generator and the clock answer,
    a login, logout or refresh request gets exactly one response, of its own message
    id and with the correlation id, core and session of the request, and the handler
    returns success. *)
Theorem auth_answers_once req token :
  answers LOGIN_RESPONSE
    (on_login private_key_loaded jwt_sign sha256_hex bcrypt_check login_response session_store_ access_token_ttl refresh_token_ttl response_topic meta req) /\
  answers LOGOUT_RESPONSE
    (on_logout public_key_loaded jwt_verify jwt_expiry logout_response session_store_ response_topic meta token) /\
  answers REFRESH_TOKEN_RESPONSE
    (on_refresh_token private_key_loaded jwt_sign sha256_hex refresh_response session_store_ access_token_ttl refresh_token_ttl response_topic meta token).
Proof. split_and!; [apply login_answers | apply logout_answers | apply refresh_answers]. Qed.

End OneResponse.

(** ** Running the handlers *)

Abbreviation pool_ok := (PgPool.pool_ok True).

Lemma acquire_connected_ok held b p : pool_ok held p ->
  exists r p', acquire_connected b p = Returns (r, p') /\ max_size p' = max_size p /\
    match r with
    | Ok c => pool_ok (c :: held) p' /\ exists x, heap p' !! c = Some x /\ poisoned_ x = false /\ in_txn x = false
    | Err _ => pool_ok held p' /\ (b = true -> len held = max_size p)
    end.
Proof.
  intros Hp. unfold acquire_connected. destruct (acquire_ok held p Hp) as ([c | e] & p1 & -> & [Hm _] & H1); cbn [outcome_bind].
  - destruct H1 as (Hp1 & _ & x & Hx & Hpo & Ht & _). specialize (Ht I). unfold deref. rewrite Hx. cbn [outcome_bind]. destruct (connected_ x).
    { eexists _, _. split; [done |]. split; [done |]. split; [done |]. by exists x. }
    unfold connect_done, deref. rewrite Hx. cbn [outcome_bind]. destruct b.
    + eexists _, _. split; [done |]. split; [done |]. split; [by apply use_ok |]. eexists. pool_simpl. by rewrite lookup_insert_eq.
    + destruct (discard_ok held c p1 Hp1) as (p2 & -> & Hp2 & [Hm2 _] & _). cbn [outcome_bind]. eexists _, _. split; [done |]. split; [congruence |]. done.
  - destruct H1 as (_ & Hp1 & Hl). eexists _, _. split; [done |]. done.
Qed.

Lemma query_done_ok held now r c x p : pool_ok (c :: held) p -> heap p !! c = Some x -> poisoned_ x = false ->
  (r_ok r = true -> r_status r = true -> r_txn r = false) ->
  exists p', query_done now r c p = Returns (if r_ok r then Ok tt else Err AdapterError, p') /\ max_size p' = max_size p /\ pool_ok held p'.
Proof.
  intros Hp Hx Hpo Hr. unfold query_done, query_async, deref. rewrite Hx. cbn [outcome_bind].
  set (y := mkConn _ _ _ _). destruct (use_ok held c y p Hp) as [Hp1 _]. destruct (r_ok r) eqn:Er.
  - destruct (release_ok held now c y _ Hp1) as (p2 & -> & Hp2 & [Hm _]); [apply lookup_insert_eq | |].
    + intros _. split; [done |]. unfold is_valid. cbn. intros _ Hv. apply andb_true_iff in Hv as [_ Hv]. by apply Hr.
    + cbn [outcome_bind]. eexists. split; [done |]. done.
  - destruct (discard_ok held c _ Hp1) as (p2 & -> & Hp2 & [Hm _] & _). cbn [outcome_bind]. eexists. split; [done |]. done.
Qed.

Section Runs.
Context {D R : Type} `{AuthDb D} `{RedisStore R}.
Context (answer_of : forall T, call T -> nat -> answer) (rand : nat -> Z -> option (list Z)).

Abbreviation W := (world D R).
Abbreviation handler := (handle (D := D) (R := R) answer_of rand).

(** A statement that succeeds leaves no transaction open on its connection, unless
    it is part of one. *)
Definition in_transaction (T : Type) (c : call T) : bool :=
  match c with TxnBegin _ | TxnRevoke _ _ | TxnInsert _ _ _ _ _ => true | _ => false end.
Definition sane : Prop :=
  forall T c n, in_transaction T c = false -> let r := a_reply (answer_of T c n) in r_ok r = true -> r_status r = true -> r_txn r = false.

(** What a call leaves alone. *)
Record quiet (w w' : W) : Prop := {
  q_produced : produced w' = produced w;
  q_clock : clock w <= clock w';
  q_max : max_size (pool w') = max_size (pool w);
}.

Lemma quiet_refl w : quiet w w.
Proof. by split. Qed.
Lemma quiet_trans w1 w2 w3 : quiet w1 w2 -> quiet w2 w3 -> quiet w1 w3.
Proof. intros [] []. split; congruence || lia. Qed.

(** The run of [p] from [w] returns, with [Q]. *)
Definition runs {A} (p : prog call A) (w : W) (Q : A -> W -> Prop) : Prop := exists a w', run_prog handler p w = Returns (a, w') /\ Q a w'.

Lemma runs_ret {A} (a : A) w (Q : A -> W -> Prop) : Q a w -> runs (Ret a) w Q.
Proof. intros HQ. by exists a, w. Qed.
Lemma runs_call {A} T (c : call T) (k : T -> prog call A) w (Q : A -> W -> Prop) t w1 :
  handler T c w = Returns (t, w1) -> runs (k t) w1 Q -> runs (Call T c k) w Q.
Proof. intros E (a & w' & E' & HQ). exists a, w'. cbn. by rewrite E. Qed.
Lemma runs_mono {A} (p : prog call A) w (Q Q' : A -> W -> Prop) : runs p w Q -> (forall a w', Q a w' -> Q' a w') -> runs p w Q'.
Proof. intros (a & w' & E & HQ) HQ'. exists a, w'. auto. Qed.

(** A statement of [PgAdapter]: it is carried out, or fails. *)
Lemma pg_statement_ok {T} held a (sql : Z -> D -> option (T * D)) w : pool_ok held (pool w) ->
  (let r := a_reply a in r_ok r = true -> r_status r = true -> r_txn r = false) ->
  exists r w1, pg_statement a sql w = Returns (r, w1) /\ pool_ok held (pool w1) /\ quiet w w1 /\ redis w1 = redis w /\ ticks w1 = ticks w /\
    match r with
    | Ok t => exists d, sql (clock w) (db w) = Some (t, d) /\ db w1 = d
    | Err _ => (db w1 = db w \/ exists t d, sql (clock w) (db w) = Some (t, d) /\ db w1 = d) /\
        (a_connect a = true -> r_ok (a_reply a) = true -> len held < max_size (pool w) -> sql (clock w) (db w) = None)
    end.
Proof.
  intros Hp Hs. unfold pg_statement. destruct (acquire_connected_ok held (a_connect a) _ Hp) as ([c | e] & p1 & -> & Hm & H1); cbn [outcome_bind].
  2:{ eexists _, _. split; [done |]. destruct H1 as [Hp1 Hl]. split_and!; [done | by split | done | done | by left |]. intros Hc _ Hlt. specialize (Hl Hc). lia. }
  destruct H1 as (Hp1 & x & Hx & Hpo & _). destruct (sql (clock w) (db w)) as [[t d] |] eqn:Esql.
  - destruct (query_done_ok held (clock w) (a_reply a) c x p1 Hp1 Hx Hpo Hs) as (p2 & -> & Hm2 & Hp2). cbn [outcome_bind].
    eexists _, _. split; [done |]. split; [done |]. destruct (r_ok (a_reply a)) eqn:Er; cbn [orb].
    + split_and!; [split; cbn; congruence || lia | done | done |]. by exists d.
    + destruct (a_applied a); (split_and!; [split; cbn; congruence || lia | done | done | | done]); [right; by exists t, d | by left].
  - destruct (query_done_ok held (clock w) (with_ok false (a_reply a)) c x p1 Hp1 Hx Hpo) as (p2 & -> & Hm2 & Hp2); [cbn; by rewrite andb_false_r |].
    cbn [outcome_bind]. eexists _, _. split; [done |]. split_and!; [done | split; cbn; congruence || lia | done | done | by left | done].
Qed.

Lemma redis_command_ok {T} a (f : R -> T * R) (w : W) : exists r w1, redis_command a f w = Returns (r, w1) /\ quiet w w1 /\ pool w1 = pool w /\ db w1 = db w /\ ticks w1 = ticks w /\
  match r with Ok t => f (redis w) = (t, redis w1) | Err _ => r_ok (a_reply a) = false /\ (redis w1 = redis w \/ redis w1 = (f (redis w)).2) end.
Proof.
  unfold redis_command. destruct (f (redis w)) as [t r]. eexists _, _. split; [done |].
  destruct (r_ok (a_reply a)); cbn [orb]; [| destruct (a_applied a)]; (split_and!; [split; cbn; congruence || lia | done.. |]);
    [done | by right | by left].
Qed.

(** Only the count of calls differs. *)
Record same (w w' : W) : Prop := {
  sm_db : db w' = db w; sm_redis : redis w' = redis w; sm_pool : pool w' = pool w; sm_txns : txns w' = txns w;
  sm_produced : produced w' = produced w; sm_clock : clock w' = clock w;
}.

Lemma same_quiet w w' : same w w' -> quiet w w'.
Proof. intros []. split; congruence || lia. Qed.

Lemma runs_clock {A} (k : Z -> prog call A) w (Q : A -> W -> Prop) : (forall w1, same w w1 -> runs (k (clock w)) w1 Q) -> runs (Call _ SystemClock k) w Q.
Proof. intros Hk. eapply runs_call; [done |]. apply Hk. by destruct w. Qed.

Lemma runs_rand {A} n (k : option (list Z) -> prog call A) w (Q : A -> W -> Prop) :
  (forall i w1, same w w1 -> runs (k (to_hex <$> rand i n)) w1 Q) -> runs (generate_secure_token n k) w Q.
Proof. intros Hk. unfold generate_secure_token. eapply runs_call; [done |]. apply (Hk (S (ticks w))). by destruct w. Qed.

Lemma runs_pg {A T} held (c : call (Result T)) (sql : Z -> D -> option (T * D)) (k : Result T -> prog call A) w (Q : A -> W -> Prop) :
  (forall a w, handle_at rand _ c a w = pg_statement a sql w) -> in_transaction _ c = false -> sane -> pool_ok held (pool w) ->
  (forall r w1, pool_ok held (pool w1) -> quiet w w1 -> redis w1 = redis w ->
     match r with
     | Ok t => exists d, sql (clock w) (db w) = Some (t, d) /\ db w1 = d
     | Err _ => (db w1 = db w \/ exists t d, sql (clock w) (db w) = Some (t, d) /\ db w1 = d) /\
         ((forall n, a_connect (answer_of _ c n) = true /\ r_ok (a_reply (answer_of _ c n)) = true) -> len held < max_size (pool w) -> sql (clock w) (db w) = None)
     end -> runs (k r) w1 Q) ->
  runs (Call _ c k) w Q.
Proof.
  intros Hc Ht Hs Hp Hk. destruct (pg_statement_ok held (answer_of _ c (ticks w)) sql (next w) Hp (Hs _ c _ Ht)) as (r & w1 & E & Hp1 & Hq & Hr & _ & H1).
  eapply runs_call; [unfold handle; rewrite Hc; exact E |]. apply Hk; [done | by destruct Hq | done |]. destruct r; [done |].
  destruct H1 as [H1 H2]. split; [done |]. intros Ha Hl. by apply H2; [apply Ha.. |].
Qed.

(** A statement that only reads. *)
Lemma runs_read {A T} held (c : call (Result T)) (q : Z -> D -> T) (k : Result T -> prog call A) w (Q : A -> W -> Prop) :
  (forall a w, handle_at rand _ c a w = pg_statement a (λ now d, Some (q now d, d)) w) -> in_transaction _ c = false -> sane -> pool_ok held (pool w) ->
  (forall r w1, pool_ok held (pool w1) -> quiet w w1 -> redis w1 = redis w -> db w1 = db w ->
     match r with
     | Ok t => t = q (clock w) (db w)
     | Err _ => ~ ((forall n, a_connect (answer_of _ c n) = true /\ r_ok (a_reply (answer_of _ c n)) = true) /\ len held < max_size (pool w))
     end -> runs (k r) w1 Q) ->
  runs (Call _ c k) w Q.
Proof.
  intros Hc Ht Hs Hp Hk. eapply (runs_pg held _ (λ now d, Some (q now d, d))); [done.. |]. intros [t | e] w1 Hp1 Hq1 Hr1 H1; apply Hk; try done.
  - by destruct H1 as (d & [= _ <-] & ->).
  - by destruct H1 as (d & [= <-] & _).
  - by destruct H1 as [[-> | (? & ? & [= _ <-] & ->)] _].
  - destruct H1 as [_ H1]. intros [Ha Hl]. by specialize (H1 Ha Hl).
Qed.

Lemma runs_redis {A T} (c : call (Result T)) (f : Z -> R -> T * R) (k : Result T -> prog call A) w (Q : A -> W -> Prop) :
  (forall a w, handle_at rand _ c a w = redis_command a (f (clock w)) w) ->
  (forall r w1, quiet w w1 -> pool w1 = pool w -> db w1 = db w ->
     match r with
     | Ok t => f (clock w) (redis w) = (t, redis w1)
     | Err _ => ~ (forall n, r_ok (a_reply (answer_of _ c n)) = true) /\ (redis w1 = redis w \/ redis w1 = (f (clock w) (redis w)).2)
     end -> runs (k r) w1 Q) ->
  runs (Call _ c k) w Q.
Proof.
  intros Hc Hk. destruct (redis_command_ok (answer_of _ c (ticks w)) (f (clock w)) (next w)) as (r & w1 & E & Hq & Hp & Hd & _ & H1).
  eapply runs_call; [unfold handle; rewrite Hc; exact E |]. apply Hk; [by destruct Hq | done | done |]. destruct r; [done |].
  destruct H1 as [H1 H2]. split; [| done]. intros Ha. rewrite Ha in H1. done.
Qed.

Lemma runs_send topic msg_id meta payload k w (Q : Result unit -> W -> Prop) :
  (forall w1, quiet (with_produced (produced w ++ [response source_AUTH topic msg_id DIRECTION_RESPONSE (mm_corr_id meta) (mm_core_id meta) (mm_session_id meta) payload [] (clock w ÷ 10 ^ 6)]) w) w1 ->
     db w1 = db w -> redis w1 = redis w -> pool w1 = pool w -> clock w1 = clock w -> runs k w1 Q) ->
  runs (send_response topic msg_id meta payload k) w Q.
Proof. intros Hk. apply runs_clock. intros w1 []. eapply runs_call; [done |]. apply Hk; cbn; [split; cbn; congruence || lia | congruence..]. Qed.

(** From [w] to [w'] one response with [payload] was sent, and no connection is out. *)
Record responded (topic : list Z) (meta : KafkaMessageMeta) (msg_id : Z) (payload : list Z) (w w' : W) : Prop := {
  rp_pool : pool_ok [] (pool w');
  rp_clock : clock w <= clock w';
  rp_sent : exists now, clock w <= now <= clock w' /\ produced w' = produced w ++
    [response source_AUTH topic msg_id DIRECTION_RESPONSE (mm_corr_id meta) (mm_core_id meta) (mm_session_id meta) payload [] (now ÷ 10 ^ 6)];
}.

Lemma responded_later topic meta msg_id payload w w1 w' : quiet w w1 -> responded topic meta msg_id payload w1 w' -> responded topic meta msg_id payload w w'.
Proof.
  intros [Hpr Hcl _] [Hp Hc (now & Hn & Hs)]. split; [done | lia |]. exists now. rewrite <- Hpr. split; [lia | done].
Qed.

(** The response that ends a handler. *)
Lemma runs_respond topic meta msg_id payload w (Q : Result unit -> W -> Prop) : pool_ok [] (pool w) ->
  (forall w', responded topic meta msg_id payload w w' -> db w' = db w -> redis w' = redis w -> clock w' = clock w -> Q (Ok tt) w') ->
  runs (send_response topic msg_id meta payload (Ret (Ok tt))) w Q.
Proof.
  intros Hp HQ. apply runs_send. intros w1 [Hpr Hcl _] Hd Hr Hpo Hc. apply runs_ret. apply HQ; [| done..].
  split; [by rewrite Hpo | lia |]. exists (clock w). split; [lia | done].
Qed.

(** Nothing fails. *)
Definition all_answer : Prop := forall T c n, a_connect (answer_of T c n) = true /\ r_ok (a_reply (answer_of T c n)) = true.

Section Token.
Context (private_key_loaded : bool) (jwt_sign : Z -> list Z -> list Z -> Z -> Z -> option (list Z)) (access_token_ttl : Z).

(** The keys are there and neither OpenSSL nor jwt-cpp fails. *)
Definition signs : Prop :=
  private_key_loaded = true /\ (forall i n, 0 < n -> exists bs, rand i n = Some bs /\ len bs = n) /\
  forall u e j t t', exists token, jwt_sign u e j t t' = Some token /\ token <> [].

Lemma runs_create_access_token {A} uid email (k : list Z -> prog call A) w (Q : A -> W -> Prop) :
  (forall token w1, same w w1 ->
     (token <> [] -> exists i bs, rand i 16 = Some bs /\ jwt_sign uid email (to_hex bs) (clock w) (clock w + access_token_ttl * 10 ^ 9) = Some token) ->
     (signs -> token <> []) -> runs (k token) w1 Q) ->
  runs (create_access_token private_key_loaded jwt_sign access_token_ttl uid email k) w Q.
Proof.
  intros Hk. unfold create_access_token. destruct private_key_loaded eqn:Ek; cbn [negb]; [| apply Hk; [done | done | intros [Hs _]; congruence]].
  apply runs_clock. intros w1 H1. apply runs_rand. intros i w2 H2. assert (H12 : same w w2) by (destruct H1, H2; split; congruence).
  destruct (rand i 16) as [bs |] eqn:Er; cbn [fmap option_fmap option_map default].
  - destruct (to_hex bs) as [| c hs] eqn:Eh.
    + apply Hk; [done | done |]. intros (_ & Hr & _). destruct (Hr i 16) as (bs' & E' & Hl); [lia |]. rewrite Er in E'. injection E' as <-.
      destruct bs as [| b bs]; [done |]. done.
    + apply Hk; [done | |].
      * intros Hne. exists i, bs. split; [done |]. rewrite Eh. destruct (jwt_sign _ _ _ _ _); done.
      * intros (_ & _ & Hj). destruct (Hj uid email (c :: hs) (clock w) (clock w + access_token_ttl * 10 ^ 9)) as (token & Et & Hne).
        unfold id. by rewrite Et.
  - apply Hk; [done | done |]. intros (_ & Hr & _). destruct (Hr i 16) as (bs' & E' & _); [lia |]. congruence.
Qed.

End Token.

End Runs.

(** ** Refresh *)

Lemma query_held c p r x : pool_ok [c] p -> heap p !! c = Some x ->
  exists p', query_async r c p = Returns (if r_ok r then Ok tt else Err AdapterError, p') /\ pool_ok [c] p' /\ max_size p' = max_size p /\
    heap p' !! c = Some (mkConn (connected_ x) (r_status r) (poisoned_ x) (r_txn r)).
Proof.
  intros Hp Hx. unfold query_async, deref. rewrite Hx. cbn [outcome_bind]. eexists. split; [done |].
  split; [by apply use_ok |]. split; [done |]. pool_simpl. apply lookup_insert_eq.
Qed.

Section Refresh.
Context {D R : Type} `{AuthDb D} `{RedisStore R}.
Context (answer_of : forall T, call T -> nat -> answer) (rand : nat -> Z -> option (list Z)).
Context (private_key_loaded : bool) (jwt_sign : Z -> list Z -> list Z -> Z -> Z -> option (list Z)) (sha256_hex : list Z -> list Z).
Context (refresh_response : RefreshTokenError -> option (list Z * Z * list Z) -> list Z).
Context (session_store_ : SessionStore) (access_token_ttl refresh_token_ttl : Z) (response_topic : list Z) (meta : KafkaMessageMeta).

Abbreviation W := (world D R).
Abbreviation RUNS := (runs (D := D) (R := R) answer_of rand).

(** No [COMMIT] fails. *)
Definition commits_succeed : Prop := forall t n, r_ok (a_reply (answer_of _ (TxnCommit t) n)) = true.

Abbreviation responded := (responded response_topic meta REFRESH_TOKEN_RESPONSE).

Lemma runs_refresh_error e w (Q : Result unit -> W -> Prop) : pool_ok [] (pool w) ->
  (forall w', responded (refresh_response e None) w w' -> db w' = db w -> redis w' = redis w -> Q (Ok tt) w') ->
  RUNS (send_refresh_token_error refresh_response response_topic meta e) w Q.
Proof.
  intros Hp HQ. apply runs_respond; [done |]. auto.
Qed.

(** A transaction that is over or never began leaves the freed connection alone. *)
Lemma runs_fail_in_txn c txn w (Q : Result unit -> W -> Prop) : pool_ok [c] (pool w) -> begun_ txn && negb (finished_ txn) = false ->
  (forall w', responded (refresh_response REFRESH_INTERNAL_ERROR None) w w' -> db w' = db w -> redis w' = redis w -> Q (Ok tt) w') ->
  RUNS (await _ <- DiscardConn c; fail_in_txn refresh_response response_topic meta txn) w Q.
Proof.
  intros Hp Ht HQ. destruct (discard_ok [] c (pool w) Hp) as (p1 & Ep & Hp1 & _).
  eapply runs_call; [unfold handle; cbn [handle_at pool next]; rewrite Ep; done |]. apply runs_send. intros w1 [Hpr Hcl _] Hd Hr Hpo Hc.
  eapply runs_call; [unfold handle; cbn [handle_at pool next]; unfold txn_destroy; rewrite Ht; done |].
  apply runs_ret. cbn in *. apply HQ; [| done | done]. split; cbn; [by rewrite Hpo | lia |]. exists (clock w). split; [lia | done].
Qed.

(** A statement of an open transaction. *)
Lemma txn_statement_ok a c x f (w : W) : pool_ok [c] (pool w) -> heap (pool w) !! c = Some x ->
  let '(start, xs) := default (clock w, []) (txns w !! c) in
  exists r w1, txn_statement a (mkTxn c true false) f w = Returns (r, w1) /\ pool_ok [c] (pool w1) /\ quiet w w1 /\ db w1 = db w /\ redis w1 = redis w /\
    (exists y, heap (pool w1) !! c = Some y /\ poisoned_ y = poisoned_ x) /\
    match r with
    | Ok _ => txns w1 !! c = Some (start, xs ++ [f start]) /\ is_Some (apply_writes (xs ++ [f start]) (db w))
    | Err _ => True
    end.
Proof.
  intros Hp Hx. unfold txn_statement. cbn [conn_]. destruct (default (clock w, []) (txns w !! c)) as [start xs].
  set (good := match _ with Some _ => true | None => false end). unfold txn_execute. cbn [begun_ finished_ negb orb conn_].
  destruct (query_held c (pool w) (with_ok good (a_reply a)) x Hp Hx) as (p1 & -> & Hp1 & Hm & Hx1). cbn [outcome_bind].
  eexists _, _. split; [done |]. destruct (r_ok (with_ok good (a_reply a))) eqn:Er; cbn [pool elapse with_pool];
    (split; [done |]); (split; [split; cbn; congruence || lia |]); (split; [done |]); (split; [done |]); (split; [by eexists |]); [| done].
  split; [apply lookup_insert_eq |]. cbn in Er. apply andb_true_iff in Er as [_ Er]. unfold good in Er.
  destruct (apply_writes (xs ++ [f start]) (db w)); done.
Qed.

(** The state of the rotation between the statements of its transaction. *)
Record in_txn_state (c : Z) (start : Z) (xs : list write) (w0 w : W) : Prop := {
  it_pool : pool_ok [c] (pool w);
  it_conn : exists x, heap (pool w) !! c = Some x /\ poisoned_ x = false;
  it_txns : txns w !! c = Some (start, xs);
  it_start : clock w0 <= start <= clock w;
  it_db : db w = db w0; it_redis : redis w = redis w0; it_quiet : quiet w0 w;
}.

Lemma runs_txn_statement c start xs w0 w (call : call (Result unit)) f (k : Result unit -> auth_prog) (Q : Result unit -> W -> Prop) :
  in_txn_state c start xs w0 w -> (forall a w, handle_at rand _ call a w = txn_statement a (mkTxn c true false) f w) ->
  (forall w1, in_txn_state c start (xs ++ [f start]) w0 w1 -> is_Some (apply_writes (xs ++ [f start]) (db w0)) -> RUNS (k (Ok tt)) w1 Q) ->
  (forall e w1, pool_ok [c] (pool w1) -> (exists x, heap (pool w1) !! c = Some x) -> db w1 = db w0 -> redis w1 = redis w0 -> quiet w0 w1 -> RUNS (k (Err e)) w1 Q) ->
  RUNS (Call _ call k) w Q.
Proof.
  intros [Hp (x & Hx & Hpo) Ht Hs Hd Hr Hq] Hc Hok Herr.
  pose proof (txn_statement_ok (answer_of _ call (ticks w)) c x f (next w) Hp Hx) as Hst. cbn [txns next clock] in Hst. rewrite Ht in Hst. cbn [default] in Hst.
  destruct Hst as (r & w1 & E & Hp1 & Hq1 & Hd1 & Hr1 & (y & Hy & Hpy) & H1).
  assert (Hq' : quiet w0 w1) by (eapply quiet_trans; [exact Hq | by destruct Hq1]).
  eapply runs_call; [unfold handle; rewrite Hc; exact E |]. cbn in Hd1, Hr1. destruct r as [[] | e].
  - destruct H1 as [Ht1 Hw1]. apply Hok; [split | by rewrite <- Hd]; try done; try congruence.
    + exists y. split; [done | congruence].
    + destruct Hq1 as [_ Hc1 _]. cbn in Hc1. lia.
  - apply Herr; try done; try congruence. by exists y.
Qed.

Lemma runs_rollback c w (Q : Result unit -> W -> Prop) : pool_ok [c] (pool w) -> (exists x, heap (pool w) !! c = Some x) ->
  (forall w', responded (refresh_response REFRESH_INTERNAL_ERROR None) w w' -> db w' = db w -> redis w' = redis w -> Q (Ok tt) w') ->
  RUNS (await (_, txn) <- TxnRollback (mkTxn c true false); await _ <- DiscardConn c; fail_in_txn refresh_response response_topic meta txn) w Q.
Proof.
  intros Hp (x & Hx) HQ. set (a := answer_of _ (TxnRollback (mkTxn c true false)) (ticks w)).
  destruct (query_held c (pool w) (a_reply a) x Hp Hx) as (p1 & Ep & Hp1 & Hm & Hx1).
  eapply runs_call; [unfold handle; fold a; cbn [handle_at pool next]; unfold txn_rollback; cbn [begun_ finished_ negb orb conn_]; rewrite Ep; done |].
  cbv beta iota. apply (runs_fail_in_txn c); [done | done |]. intros w' Hw' Hd Hr. apply HQ; [| done | done].
  eapply responded_later; [| exact Hw']. split; cbn; congruence || lia.
Qed.

Lemma runs_commit c start xs w0 w fail k (Q : Result unit -> W -> Prop) : sane answer_of -> commits_succeed ->
  in_txn_state c start xs w0 w -> is_Some (apply_writes xs (db w0)) ->
  (forall w1 d, pool_ok [] (pool w1) -> quiet w0 w1 -> redis w1 = redis w0 -> apply_writes xs (db w0) = Some d -> db w1 = d -> clock w <= clock w1 -> RUNS k w1 Q) ->
  RUNS (await (commit_result, txn) <- TxnCommit (mkTxn c true false);
        match commit_result with Err _ => fail txn | Ok _ => await _ <- ReleaseConn c; await _ <- TxnDestroy txn; k end) w Q.
Proof.
  intros Hsane Hcommit [Hp (x & Hx & Hpo) Ht Hs Hd Hr Hq] [d Hw] Hk. set (a := answer_of _ (TxnCommit (mkTxn c true false)) (ticks w)).
  assert (Ea : r_ok (a_reply a) = true) by apply Hcommit. destruct (query_held c (pool w) (a_reply a) x Hp Hx) as (p1 & Ep & Hp1 & Hm & Hx1). rewrite Ea in Ep.
  eapply runs_call.
  { unfold handle. change (answer_of _ (TxnCommit (mkTxn c true false)) (ticks w)) with a. cbn [handle_at pool next]. unfold txn_commit.
    cbn [begun_ finished_ negb orb conn_]. rewrite Ep. cbn [outcome_bind]. rewrite Ea. cbn [orb].
    unfold commit_writes. cbn [conn_ txns next]. rewrite Ht. cbn [default]. unfold id. cbn [db next]. rewrite Hd, Hw. done. }
  cbv beta iota. destruct (release_ok [] (clock w + Z.max 0 (a_delay a)) c _ p1 Hp1 Hx1) as (p2 & Er & Hp2 & [Hm2 _]).
  { intros _. split; [done |]. unfold is_valid. cbn. intros _ Hv. apply andb_true_iff in Hv as [_ Hv]. by apply (Hsane _ (TxnCommit (mkTxn c true false)) (ticks w)). }
  eapply runs_call; [unfold handle; cbn [handle_at pool next elapse with_pool with_txns with_db clock]; rewrite Er; done |].
  eapply runs_call; [done |]. apply (Hk _ d); try done; cbn; [| lia].
  eapply quiet_trans; [exact Hq |]. split; cbn; congruence || lia.
Qed.

Lemma runs_rotate h h' u f k w (Q : Result unit -> W -> Prop) : sane answer_of -> commits_succeed -> pool_ok [] (pool w) ->
  (forall w', responded (refresh_response REFRESH_INTERNAL_ERROR None) w w' -> db w' = db w -> redis w' = redis w -> Q (Ok tt) w') ->
  (forall w1 start, pool_ok [] (pool w1) -> quiet w w1 -> redis w1 = redis w -> clock w <= start <= clock w1 ->
     db_insert h' u (start + refresh_token_ttl * 10 ^ 9) (Some f) (db_revoke h (db w)) = Some (db w1) -> RUNS k w1 Q) ->
  RUNS (rotate refresh_response refresh_token_ttl response_topic meta h h' u f k) w Q.
Proof.
  intros Hsane Hcommit Hp Herr Hok. unfold rotate. set (a := answer_of _ AcquireConnected (ticks w)).
  destruct (acquire_connected_ok [] (a_connect a) (pool w) Hp) as (r & p1 & Ep & Hm & H1).
  eapply runs_call; [unfold handle; change (answer_of _ AcquireConnected (ticks w)) with a; cbn [handle_at pool next]; rewrite Ep; done |].
  assert (Hq1 : quiet w (elapse a (with_pool p1 (next w)))) by (split; cbn; congruence || lia). destruct r as [c | e].
  2:{ destruct H1 as [Hp1 _]. apply runs_refresh_error; [done |]. intros w' Hw' Hd Hr. apply Herr; [| done | done]. by eapply responded_later. }
  destruct H1 as (Hp1 & x & Hx & Hpo & _). set (w1 := elapse a (with_pool p1 (next w))) in *. cbv beta iota.
  set (b := answer_of _ (TxnBegin (make_txn c)) (ticks w1)). destruct (query_held c p1 (a_reply b) x Hp1 Hx) as (p2 & Ep2 & Hp2 & Hm2 & Hx2).
  eapply runs_call; [unfold handle; change (answer_of _ (TxnBegin (make_txn c)) (ticks w1)) with b; cbn [handle_at pool next]; unfold txn_begin;
    cbn [conn_ make_txn pool w1 elapse with_pool]; rewrite Ep2; done |].
  cbn [begun_ finished_ make_txn conn_]. set (w2 := elapse b _).
  assert (Hq2 : quiet w w2) by (eapply quiet_trans; [exact Hq1 |]; split; cbn; congruence || lia).
  destruct (r_ok (a_reply b)); cbv beta iota.
  2:{ apply (runs_fail_in_txn c); [done | done |]. intros w' Hw' Hd Hr. apply Herr; [| done | done]. by eapply responded_later. }
  assert (Hst : in_txn_state c (clock w1) [] w w2).
  { split; try done; [| apply lookup_insert_eq | cbn; lia]. by eexists. }
  eapply (runs_txn_statement c (clock w1) []); [exact Hst | done | |]; clear Hst.
  2:{ intros e w3 Hp3 Hx3 Hd3 Hr3 Hq3. apply runs_rollback; [done.. |]. intros w' Hw' Hd Hr. apply Herr; [by eapply responded_later | congruence..]. }
  intros w3 Hst _. eapply (runs_txn_statement c (clock w1) _ w); [exact Hst | done | |]; clear Hst.
  2:{ intros e w4 Hp4 Hx4 Hd4 Hr4 Hq4. apply runs_rollback; [done.. |]. intros w' Hw' Hd Hr. apply Herr; [by eapply responded_later | congruence..]. }
  intros w4 Hst Hsome. cbn [app apply_writes apply_write] in Hsome, Hst. destruct Hst as [Hp4 (y & Hy & Hpy) Ht4 Hc4 Hd4 Hr4 Hq4].
  eapply runs_commit; [done | done | by split; [| exists y |..] | done |].
  intros w5 d Hp5 Hq5 Hr5 Hd5 He5 Hc5. cbn [apply_writes apply_write] in Hd5. apply (Hok w5 (clock w1)); [done.. | |].
  - cbn in Hc4 |- *. lia.
  - rewrite He5. by destruct (db_insert _ _ _ _ _).
Qed.

(** What a refresh request with a token of hash [h] does to the database, for each
    answer it gives. *)
Inductive refresh_result (h : list Z) (w w' : W) : RefreshTokenError -> option (list Z * Z * list Z) -> Prop :=
| refreshed row uid email jti access new checked start now :
    db_token h (db w) = Some row -> tr_revoked row = false -> from_chars (tr_user row) = Some uid ->
    clock w <= checked -> checked <= tr_expires row -> checked <= start <= now -> now <= clock w' ->
    db_token h (db w') = Some (revoked row) ->
    db_token (sha256_hex new) (db w') = Some (mkToken (to_text uid) false (start + refresh_token_ttl * 10 ^ 9) (tr_family row)) ->
    db_email (to_text uid) (db w') = Some email -> jwt_sign uid email jti now (now + access_token_ttl * 10 ^ 9) = Some access ->
    refresh_result h w w' REFRESH_NONE (Some (access, u32 access_token_ttl, new))
| refresh_unknown : db_token h (db w) = None -> db w' = db w -> refresh_result h w w' TOKEN_INVALID None
| refresh_reused row : db_token h (db w) = Some row -> tr_revoked row = true ->
    db w' = db w \/ db w' = db_revoke_family (tr_family row) (db w) -> refresh_result h w w' TOKEN_REVOKED None
| refresh_expired row checked : db_token h (db w) = Some row -> tr_revoked row = false ->
    clock w <= checked <= clock w' -> tr_expires row < checked -> db w' = db w -> refresh_result h w w' TOKEN_EXPIRED None
| refresh_failed : db w' = db w -> refresh_result h w w' REFRESH_INTERNAL_ERROR None
| refresh_failed_late row : db_token h (db w) = Some row -> db_token h (db w') = Some (revoked row) -> refresh_result h w w' REFRESH_INTERNAL_ERROR None.

Lemma rotation h h' u e f d d' row : db_token h d = Some row -> db_insert h' u e (Some f) (db_revoke h d) = Some d' ->
  db_token h d' = Some (revoked row) /\ db_token h' d' = Some (mkToken u false e f).
Proof.
  intros Hrow Hi. assert (Hh : db_token h (db_revoke h d) = Some (revoked row)) by (by rewrite db_revoke_same, Hrow).
  assert (Hne : h <> h').
  { intros ->. assert (db_insert h' u e (Some f) (db_revoke h' d) = None); [| congruence]. apply db_insert_duplicate. congruence. }
  split; [by rewrite (db_insert_other _ _ _ _ _ _ _ Hi Hne) |]. destruct (db_insert_same _ _ _ _ _ _ Hi) as (fam & -> & Hf). by rewrite (Hf f).
Qed.

Definition refresh_post (h : list Z) (w : W) (r : Result unit) (w' : W) : Prop :=
  r = Ok tt /\ exists e tokens, responded (refresh_response e tokens) w w' /\ refresh_result h w w' e tokens.

Lemma runs_store_sessions uid email k w (Q : Result unit -> W -> Prop) : pool_ok [] (pool w) ->
  (forall w1, pool_ok [] (pool w1) -> quiet w w1 -> db w1 = db w -> RUNS k w1 Q) -> RUNS (store_sessions session_store_ meta uid email k) w Q.
Proof.
  intros Hp Hk. unfold store_sessions. apply runs_clock. intros w1 H1.
  eapply (runs_redis _ _ _ (λ now r, (tt, rs_setex _ _ _ now r))); [done |]. intros r2 w2 Hq2 Hp2 Hd2 _.
  eapply (runs_redis _ _ _ (λ now r, (tt, rs_setex _ _ _ now r))); [done |]. intros r3 w3 Hq3 Hp3 Hd3 _.
  apply Hk; [rewrite Hp3, Hp2; by rewrite (sm_pool _ _ H1) | | rewrite Hd3, Hd2; apply (sm_db _ _ H1)].
  eapply quiet_trans; [by apply same_quiet | by eapply quiet_trans].
Qed.

Lemma runs_finish h row uid new checked start w w1 : sane answer_of -> pool_ok [] (pool w1) -> quiet w w1 ->
  db_token h (db w) = Some row -> tr_revoked row = false -> from_chars (tr_user row) = Some uid ->
  clock w <= checked <= tr_expires row -> checked <= start <= clock w1 -> db_token h (db w1) = Some (revoked row) ->
  db_token (sha256_hex new) (db w1) = Some (mkToken (to_text uid) false (start + refresh_token_ttl * 10 ^ 9) (tr_family row)) ->
  RUNS (finish_refresh private_key_loaded jwt_sign refresh_response session_store_ access_token_ttl response_topic meta uid new) w1 (refresh_post h w).
Proof.
  intros Hsane Hp Hq Hrow Hrev Huid Hc1 Hc2 Hold Hnew. unfold finish_refresh.
  assert (Hfail : forall w2, pool_ok [] (pool w2) -> quiet w w2 -> db w2 = db w1 ->
    RUNS (send_refresh_token_error refresh_response response_topic meta REFRESH_INTERNAL_ERROR) w2 (refresh_post h w)).
  { intros w2 Hp2 Hq2 Hd2. apply runs_refresh_error; [done |]. intros w' Hw' Hd _. split; [done |]. eexists _, _. split; [by eapply responded_later |].
    apply (refresh_failed_late _ _ _ row); [done |]. by rewrite Hd, Hd2. }
  eapply (runs_read _ _ [] _ (λ _ d, db_email _ d)); [done.. |]. intros r w2 Hp2 Hq2 Hr2 Hd2 Hemail.
  assert (Hq12 : quiet w w2) by (by eapply quiet_trans). destruct r as [[[| c rest] |] | e]; [by apply Hfail | | by apply Hfail..].
  apply runs_create_access_token. intros token w3 H3 Htok _.
  assert (Hp3 : pool_ok [] (pool w3)) by (by rewrite (sm_pool _ _ H3)). assert (Hq23 : quiet w w3) by (eapply quiet_trans; [exact Hq12 | by apply same_quiet]).
  assert (Hd3 : db w3 = db w1) by (by rewrite (sm_db _ _ H3)). destruct token as [| b token]; [by apply Hfail |].
  apply runs_store_sessions; [done |]. intros w4 Hp4 Hq4 Hd4. apply runs_send. intros w5 [Hpr Hcl _] Hd5 Hr5 Hp5 Hc5. apply runs_ret. split; [done |].
  destruct Htok as (i & bs & _ & Hsign); [done |]. eexists _, _. split.
  - eapply (responded_later _ _ _ _ w w4); [by eapply quiet_trans |]. split; [by rewrite Hp5 | lia |]. exists (clock w4). cbn in Hpr. split; [lia | done].
  - assert (db w5 = db w1) as Hd by congruence. destruct Hq2 as [_ Hcq2 _], Hq4 as [_ Hcq4 _]. pose proof (sm_clock _ _ H3).
    apply (refreshed h w w5 row uid (c :: rest) (to_hex bs) (b :: token) new checked start (clock w2)); try done; try lia; by rewrite Hd.
Qed.

Abbreviation REFRESH := (on_refresh_token private_key_loaded jwt_sign sha256_hex refresh_response session_store_ access_token_ttl refresh_token_ttl response_topic meta).

Lemma runs_fail_unchanged h e w w1 : pool_ok [] (pool w1) -> quiet w w1 -> db w1 = db w ->
  (forall w', clock w1 <= clock w' -> db w' = db w -> refresh_result h w w' e None) ->
  RUNS (send_refresh_token_error refresh_response response_topic meta e) w1 (refresh_post h w).
Proof.
  intros Hp Hq Hd Hres. apply runs_refresh_error; [done |]. intros w' Hw' Hd' _. split; [done |]. eexists _, _. split; [by eapply responded_later |].
  apply Hres; [apply Hw' | congruence].
Qed.

Lemma runs_reuse h row uid w w1 : sane answer_of -> pool_ok [] (pool w1) -> quiet w w1 -> db w1 = db w ->
  db_token h (db w) = Some row -> tr_revoked row = true ->
  RUNS (reuse_detected refresh_response session_store_ response_topic meta uid (tr_family row)) w1 (refresh_post h w).
Proof.
  intros Hsane Hp Hq Hd Hrow Hrev. unfold reuse_detected. eapply (runs_pg _ _ [] _ (λ _ d, Some (tt, db_revoke_family _ d))); [done.. |].
  intros r w2 Hp2 Hq2 _ H2. assert (Hd2 : db w2 = db w \/ db w2 = db_revoke_family (tr_family row) (db w)).
  { rewrite <- Hd. destruct r as [t | e]; [destruct H2 as (d & [= <-] & ->); by right |].
    destruct H2 as [[-> | (t & d & [= <- <-] & ->)] _]; [by left | by right]. }
  eapply (runs_redis _ _ _ (λ _ r, (tt, rs_del _ r))); [done |]. intros r3 w3 Hq3 Hp3 Hd3 _.
  eapply (runs_redis _ _ _ (λ _ r, (tt, rs_del _ r))); [done |]. intros r4 w4 Hq4 Hp4 Hd4 _.
  apply runs_refresh_error; [by rewrite Hp4, Hp3 |]. intros w' Hw' Hd' _. split; [done |]. eexists _, _. split.
  - eapply responded_later; [| exact Hw']. by repeat (eapply quiet_trans; [eassumption |]).
  - apply (refresh_reused h w w' row); [done | done |]. by rewrite Hd', Hd4, Hd3.
Qed.

(** C17: whatever PostgreSQL, Redis and the network do, short of a failed [COMMIT], a
    refresh request that runs on its own, with no other request to the service between
    its calls, is answered once and the pool is as it was. The answer is success
    only for a token that is in the table, not revoked and not expired; then the
    token is revoked and the new one, of the same family and for the same user, is
    in the table and not revoked. Each error answer is right about the token, and
    none but an internal error hides a rotation that took place. *)
Theorem refresh_token_rotates token w : sane answer_of -> commits_succeed -> pool_ok [] (pool w) ->
  exists w' e tokens, run_prog (handle answer_of rand) (REFRESH (Some token)) w = Returns (Ok tt, w') /\
    responded (refresh_response e tokens) w w' /\ refresh_result (sha256_hex token) w w' e tokens.
Proof.
  intros Hsane Hcommit Hp. cut (RUNS (REFRESH (Some token)) w (refresh_post (sha256_hex token) w)).
  { intros (r & w' & E & -> & e & tokens & H1 & H2). by exists w', e, tokens. }
  unfold on_refresh_token. cbv zeta. set (h := sha256_hex token). eapply (runs_read _ _ [] _ (λ _ d, db_token _ d)); [done.. |].
  intros r w1 Hp1 Hq1 Hr1 Hd1 Hrow. destruct r as [[row |] | e]; [symmetry in Hrow | apply runs_fail_unchanged; [done.. |] |].
  2:{ intros w' _ Hd. by apply refresh_unknown. }
  2:{ apply runs_fail_unchanged; [done.. |]. intros. by apply refresh_failed. }
  destruct (from_chars (tr_user row)) as [uid |] eqn:Euid; [| apply runs_fail_unchanged; [done.. |]; intros; by apply refresh_failed].
  destruct (tr_revoked row) eqn:Erev; [by apply runs_reuse |].
  eapply (runs_read _ _ [] _ (λ now d, match db_token h d with Some r => if tr_expires r <? now then 1 else 0 | None => 0 end)); [done.. |].
  intros r w2 Hp2 Hq2 Hr2 Hd2 Hn. rewrite Hd1 in Hd2.
  assert (Hq : quiet w w2) by (by eapply quiet_trans). destruct r as [n | e]; [| apply runs_fail_unchanged; [done.. |]; intros; by apply refresh_failed].
  rewrite Hd1, Hrow in Hn. destruct Hq1 as [_ Hc1 _], Hq2 as [_ Hc2 _].
  destruct (Z.ltb_spec (tr_expires row) (clock w1)); subst n; cbn [Z.ltb Z.compare].
  { apply runs_fail_unchanged; [done.. |]. intros w' Hc Hd. apply (refresh_expired h w w' row (clock w1)); [done | done | lia | done | done]. }
  apply runs_rand. intros i w3 H3. assert (Hp3 : pool_ok [] (pool w3)) by (by rewrite (sm_pool _ _ H3)).
  assert (Hq3 : quiet w w3) by (eapply quiet_trans; [exact Hq | by apply same_quiet]). assert (Hd3 : db w3 = db w) by (by rewrite (sm_db _ _ H3)).
  destruct (rand i 32) as [bs |]; cbn [fmap option_fmap option_map]; [| apply runs_fail_unchanged; [done.. |]; intros; by apply refresh_failed].
  apply runs_rotate; [done.. | |].
  - intros w' Hw' Hd _. split; [done |]. eexists _, _. split; [by eapply responded_later |]. apply refresh_failed. congruence.
  - intros w4 start Hp4 Hq4 _ Hs Hi. rewrite Hd3 in Hi. destruct (rotation _ _ _ _ _ _ _ row Hrow Hi) as [Hold Hnew]. pose proof (sm_clock _ _ H3).
    apply (runs_finish h row uid _ (clock w1) start); try done; [by eapply quiet_trans | lia..].
Qed.

(** The servers answer a call whenever it is made. *)
Definition answered_always {T} (c : call T) : Prop := forall n, a_connect (answer_of _ c n) = true /\ r_ok (a_reply (answer_of _ c n)) = true.

(** C18: a revoked refresh token that is presented again, the sign of a stolen one. Run
    on its own, the request is answered once: with [TOKEN_REVOKED] if PostgreSQL answers
    the lookup, else with an internal error and nothing done. The handler goes on when one
    of the next three calls fails; each that is answered has its effect: after the
    [UPDATE] every token of the family in the table is revoked, after the two [DEL]s the
    user's two session entries are gone from Redis. *)
Theorem reuse_revokes_family token row uid w : sane answer_of -> pool_ok [] (pool w) -> 0 < max_size (pool w) ->
  db_token (sha256_hex token) (db w) = Some row -> tr_revoked row = true -> from_chars (tr_user row) = Some uid ->
  exists w' e, run_prog (handle answer_of rand) (REFRESH (Some token)) w = Returns (Ok tt, w') /\
    responded (refresh_response e None) w w' /\
    (e = TOKEN_REVOKED \/ e = REFRESH_INTERNAL_ERROR /\ ~ answered_always (FindToken (sha256_hex token)) /\ db w' = db w /\ redis w' = redis w) /\
    (e = TOKEN_REVOKED ->
      (answered_always (RevokeFamily (tr_family row)) -> forall h row', db_token h (db w') = Some row' -> tr_family row' = tr_family row -> tr_revoked row' = true) /\
      (answered_always (store_remove session_store_ uid) -> forall t, rs_get (session_key session_store_ uid) t (redis w') = None) /\
      (answered_always (remove_user_session_id uid) -> forall t, rs_get (user_session_key uid) t (redis w') = None)).
Proof.
  intros Hsane Hp Hmax Hrow Hrev Huid.
  cut (RUNS (REFRESH (Some token)) w (λ r w', r = Ok tt /\ exists e, responded (refresh_response e None) w w' /\
    (e = REFRESH_INTERNAL_ERROR /\ ~ answered_always (FindToken (sha256_hex token)) /\ db w' = db w /\ redis w' = redis w \/
     e = TOKEN_REVOKED /\ (answered_always (RevokeFamily (tr_family row)) -> db w' = db_revoke_family (tr_family row) (db w)) /\
     exists r1, (answered_always (store_remove session_store_ uid) -> r1 = rs_del (session_key session_store_ uid) (redis w)) /\
       (redis w' = r1 \/ redis w' = rs_del (user_session_key uid) r1) /\ (answered_always (remove_user_session_id uid) -> redis w' = rs_del (user_session_key uid) r1)))).
  { intros (r & w' & E & -> & e & H1 & Hcase). exists w', e. split; [done |]. split; [done |]. destruct Hcase as [(-> & ? & ? & ?) | (-> & Hd & r1 & Hr1 & Hr2 & Hr3)].
    { split; [by right | done]. }
    split; [by left |]. intros _. split_and!.
    - intros Ha h row'. rewrite (Hd Ha), db_revoke_family_token. destruct (db_token h (db w)) as [r0 |]; [| done]. cbn. intros [= <-]. by case_bool_decide.
    - intros Ha t. rewrite (Hr1 Ha) in Hr2. destruct Hr2 as [-> | ->]; [apply rs_get_del |].
      destruct (decide (user_session_key uid = session_key session_store_ uid)) as [-> |]; [apply rs_get_del |]. rewrite rs_get_del_ne by done. apply rs_get_del.
    - intros Ha t. rewrite (Hr3 Ha). apply rs_get_del. }
  unfold on_refresh_token. cbv zeta. eapply (runs_read _ _ [] _ (λ _ d, db_token _ d)); [done.. |]. intros r w1 Hp1 Hq1 Hr1 Hd1 H1.
  destruct r as [r | e].
  2:{ apply runs_refresh_error; [done |]. intros w' Hw' Hd' Hr'. split; [done |]. eexists. split; [by eapply responded_later |]. left. split_and!; [done | | congruence | congruence].
    intros Ha. apply H1. split; [exact Ha | done]. }
  rewrite Hrow in H1. subst r. rewrite Huid, Hrev. unfold reuse_detected.
  eapply (runs_pg _ _ [] _ (λ _ d, Some (tt, db_revoke_family _ d))); [done.. |]. intros r w2 Hp2 Hq2 Hr2 H2.
  assert (Hd2 : answered_always (RevokeFamily (tr_family row)) -> db w2 = db_revoke_family (tr_family row) (db w)).
  { intros Ha. rewrite <- Hd1. destruct r as [t | e]; [by destruct H2 as (d & [= <-] & ->) |]. destruct H2 as [_ H2]. exfalso.
    assert (0 < max_size (pool w1)) by (rewrite (q_max _ _ Hq1); done). by specialize (H2 Ha ltac:(done)). }
  eapply (runs_redis _ _ _ (λ _ r, (tt, rs_del _ r))); [done |]. intros r3 w3 Hq3 Hp3 Hd3 H3.
  eapply (runs_redis _ _ _ (λ _ r, (tt, rs_del _ r))); [done |]. intros r4 w4 Hq4 Hp4 Hd4 H4.
  apply runs_refresh_error; [by rewrite Hp4, Hp3 |]. intros w' Hw' Hd' Hr'. split; [done |]. eexists. split.
  { eapply responded_later; [| exact Hw']. by repeat (eapply quiet_trans; [eassumption |]). }
  right. split; [done |]. split; [intros Ha; rewrite Hd', Hd4, Hd3; auto |]. exists (redis w3). split_and!.
  - intros Ha. destruct r3; [injection H3 as _ <-; congruence | exfalso; apply (proj1 H3); intros n; apply Ha].
  - rewrite Hr'. destruct r4; [injection H4 as _ <-; by right | apply (proj2 H4)].
  - intros Ha. rewrite Hr'. destruct r4; [by injection H4 as _ <- | exfalso; apply (proj1 H4); intros n; apply Ha].
Qed.

End Refresh.

(** ** Login *)

Section Login.
Context {D R : Type} `{AuthDb D} `{RedisStore R}.
Context (answer_of : forall T, call T -> nat -> answer) (rand : nat -> Z -> option (list Z)).
Context (private_key_loaded : bool) (jwt_sign : Z -> list Z -> list Z -> Z -> Z -> option (list Z)).
Context (sha256_hex : list Z -> list Z) (bcrypt_check : list Z -> list Z -> bool).
Context (login_response : LoginError -> option (list Z * list Z * Z * Z) -> list Z).
Context (session_store_ : SessionStore) (access_token_ttl refresh_token_ttl : Z) (response_topic : list Z) (meta : KafkaMessageMeta).

Abbreviation W := (world D R).
Abbreviation RUNS := (runs (D := D) (R := R) answer_of rand).
Abbreviation LOGIN := (on_login private_key_loaded jwt_sign sha256_hex bcrypt_check login_response session_store_ access_token_ttl refresh_token_ttl response_topic meta).
Abbreviation responded := (responded response_topic meta LOGIN_RESPONSE).

Definition locked (row : user_row) : Prop := ur_locked row = Some [116].

(** Every server answers, tokens can be made, and the identifiers of the table are
    numbers. *)
Definition works (email : list Z) (w : W) : Prop :=
  all_answer answer_of /\ signs rand private_key_loaded jwt_sign /\ 0 < max_size (pool w) /\
  forall row, db_user (c_str email) (clock w) (db w) = Some row -> from_chars (ur_id row) <> None.

(** The entry of the refresh token and the place the user is reached at. *)
Definition session_made (uid : Z) (refresh_token : list Z) (w w' : W) : Prop :=
  (db_token (sha256_hex refresh_token) (db w) = None ->
   exists expires family, clock w + refresh_token_ttl * 10 ^ 9 <= expires /\
     db_token (sha256_hex refresh_token) (db w') = Some (mkToken (to_text uid) false expires family)) /\
  (forall t, 0 < to_int (ttl_ session_store_) -> clock w' <= t < clock w + to_int (ttl_ session_store_) * 10 ^ 9 ->
   rs_get (user_session_key uid) t (redis w') = Some (to_text (mm_session_id meta) ++ [58] ++ to_text (mm_core_id meta))).

Inductive login_result (email password : list Z) (w w' : W) : LoginError -> option (list Z * list Z * Z * Z) -> Prop :=
| logged_in row uid jti now access refresh :
    db_user (c_str email) (clock w) (db w) = Some row -> ~ locked row -> bcrypt_check (c_str password) (ur_password_hash row) = true ->
    from_chars (ur_id row) = Some uid -> clock w <= now <= clock w' ->
    jwt_sign uid email jti now (now + access_token_ttl * 10 ^ 9) = Some access -> access <> [] ->
    (works email w -> session_made uid refresh w w') ->
    login_result email password w w' LOGIN_NONE (Some (access, refresh, uid, u32 access_token_ttl))
| login_unknown : db_user (c_str email) (clock w) (db w) = None -> db w' = db w -> redis w' = redis w -> login_result email password w w' BAD_CREDENTIALS None
| login_locked row : db_user (c_str email) (clock w) (db w) = Some row -> locked row -> db w' = db w -> redis w' = redis w ->
    login_result email password w w' ACCOUNT_LOCKED None
| login_refused row : db_user (c_str email) (clock w) (db w) = Some row -> ~ locked row ->
    bcrypt_check (c_str password) (ur_password_hash row) = false -> db w' = db w -> redis w' = redis w -> login_result email password w w' BAD_CREDENTIALS None
| login_failed : ~ works email w -> db w' = db w -> redis w' = redis w -> login_result email password w w' LOGIN_INTERNAL_ERROR None.

Definition login_post (email password : list Z) (w : W) (r : Result unit) (w' : W) : Prop :=
  r = Ok tt /\ exists e tokens, responded (login_response e tokens) w w' /\ login_result email password w w' e tokens.

Lemma runs_login_error email password e w w1 : pool_ok [] (pool w1) -> quiet w w1 -> db w1 = db w -> redis w1 = redis w ->
  (forall w', db w' = db w -> redis w' = redis w -> login_result email password w w' e None) ->
  RUNS (send_login_error login_response response_topic meta e) w1 (login_post email password w).
Proof.
  intros Hp Hq Hd Hr Hres. apply runs_respond; [done |]. intros w' Hw' Hd' Hr' _. split; [done |]. eexists _, _. split; [by eapply responded_later |].
  apply Hres; congruence.
Qed.

(** Steps 7 to 9. *)
Lemma runs_session uid email refresh k w (Q : Result unit -> W -> Prop) : sane answer_of -> pool_ok [] (pool w) ->
  (forall w1, pool_ok [] (pool w1) -> quiet w w1 -> (all_answer answer_of -> 0 < max_size (pool w) -> session_made uid refresh w w1) -> RUNS k w1 Q) ->
  RUNS (await _ <- InsertToken (sha256_hex refresh) (to_text uid) refresh_token_ttl; store_sessions session_store_ meta uid email k) w Q.
Proof.
  intros Hsane Hp Hk. eapply (runs_pg _ _ [] _ (λ now d, match db_insert _ _ _ None d with Some d => Some (tt, d) | None => None end)); [done.. |].
  intros r1 w1 Hp1 Hq1 Hr1 H1. unfold store_sessions. apply runs_clock. intros w2 H2.
  eapply (runs_redis _ _ _ (λ now r, (tt, rs_setex _ _ _ now r))); [done |]. intros r3 w3 Hq3 Hp3 Hd3 _.
  eapply (runs_redis _ _ _ (λ now r, (tt, rs_setex _ _ _ now r))); [done |]. intros r4 w4 Hq4 Hp4 Hd4 H4.
  assert (Hq13 : quiet w w3) by (eapply quiet_trans; [exact Hq1 |]; eapply quiet_trans; [by apply same_quiet | exact Hq3]).
  apply Hk; [rewrite Hp4, Hp3; by rewrite (sm_pool _ _ H2) | by eapply quiet_trans |]. intros Hall Hmax. split.
  - intros Hnone. assert (db w4 = db w1) as -> by (destruct H2; congruence). destruct r1 as [t | e].
    + destruct H1 as (d & Hi & ->). destruct (db_insert _ _ _ _ _) as [d' |] eqn:Ei; [| done]. injection Hi as _ <-.
      destruct (db_insert_same _ _ _ _ _ _ Ei) as (fam & Ht & _). eexists _, fam. split; [| exact Ht]. lia.
    + destruct H1 as [_ H1]. exfalso. specialize (H1 (λ n, Hall _ _ n) Hmax). destruct (db_insert _ _ _ _ _) eqn:Ei; [done |]. by apply db_insert_duplicate in Ei.
  - intros t Httl Ht. destruct r4 as [u |]; [| exfalso; apply H4; intros; apply Hall]. injection H4 as _ <-. destruct Hq13 as [_ Hc _], Hq4 as [_ Hc4 _].
    apply rs_get_setex; [done | lia].
Qed.

(** Whatever the servers answer: one answer, by the credentials. *)
Lemma login_spec email password w : sane answer_of -> pool_ok [] (pool w) ->
  exists w' e tokens, run_prog (handle answer_of rand) (LOGIN (mkLogin (Some email) (Some password))) w = Returns (Ok tt, w') /\
    responded (login_response e tokens) w w' /\ login_result email password w w' e tokens.
Proof.
  intros Hsane Hp. cut (RUNS (LOGIN (mkLogin (Some email) (Some password))) w (login_post email password w)).
  { intros (r & w' & E & -> & e & tokens & H1 & H2). by exists w', e, tokens. }
  unfold on_login. cbn [lr_email lr_password]. eapply (runs_read _ _ [] _ (λ now d, db_user _ now d)); [done.. |].
  intros r w1 Hp1 Hq1 Hr1 Hd1 Hrow. destruct r as [[row |] | e].
  2:{ apply runs_login_error; [done.. |]. intros w' Hd Hr. by apply login_unknown. }
  2:{ apply runs_login_error; [done.. |]. intros w' Hd Hr. apply login_failed; [| done | done]. intros (Hall & _ & Hmax & _). apply Hrow. split; [intros n; apply Hall | done]. }
  symmetry in Hrow. destruct (from_chars (ur_id row)) as [uid |] eqn:Euid.
  2:{ apply runs_login_error; [done.. |]. intros w' Hd Hr. apply login_failed; [| done | done]. intros (_ & _ & _ & Hid). by apply (Hid row). }
  case_bool_decide as Hlocked; [apply runs_login_error; [done.. |]; intros w' Hd Hr; by apply (login_locked _ _ _ _ row) |].
  destruct (bcrypt_check _ _) eqn:Eb; cbn [negb]; [| apply runs_login_error; [done.. |]; intros w' Hd Hr; by apply (login_refused _ _ _ _ row)].
  unfold issue_tokens. apply runs_create_access_token. intros token w2 H2 Htok Hsigns.
  assert (Hp2 : pool_ok [] (pool w2)) by (by rewrite (sm_pool _ _ H2)). assert (Hd2 : db w2 = db w) by (by rewrite (sm_db _ _ H2)). assert (Hr2 : redis w2 = redis w) by (by rewrite (sm_redis _ _ H2)).
  assert (Hq2 : quiet w w2) by (eapply quiet_trans; [exact Hq1 | by apply same_quiet]). destruct token as [| b token].
  { apply runs_login_error; [done.. |]. intros w' Hd Hr. apply login_failed; [| done | done]. intros (_ & Hs & _). by apply Hsigns. }
  apply runs_rand. intros i w3 H3. assert (Hp3 : pool_ok [] (pool w3)) by (by rewrite (sm_pool _ _ H3)). assert (Hd3 : db w3 = db w) by (by rewrite (sm_db _ _ H3)). assert (Hr3 : redis w3 = redis w) by (by rewrite (sm_redis _ _ H3)).
  assert (Hq3 : quiet w w3) by (eapply quiet_trans; [exact Hq2 | by apply same_quiet]). destruct (rand i 32) as [bs |] eqn:Er; cbn [fmap option_fmap option_map].
  2:{ apply runs_login_error; [done.. |]. intros w' Hd Hr. apply login_failed; [| done | done]. intros (_ & (_ & Hrd & _) & _). destruct (Hrd i 32) as (bs & E & _); [lia |]. congruence. }
  apply runs_session; [done.. |]. intros w4 Hp4 Hq4 Hmade. apply runs_respond; [done |]. intros w' Hw' Hd' Hr' Hc'. split; [done |].
  destruct Htok as (j & js & _ & Hsign); [done |]. eexists _, _. split; [eapply responded_later; [| exact Hw']; by eapply quiet_trans |].
  pose proof (sm_clock _ _ H2). pose proof (sm_clock _ _ H3). pose proof (q_clock _ _ Hq1). pose proof (q_clock _ _ Hq4).
  apply (logged_in _ _ _ _ row uid (to_hex js) (clock w1)); try done; [lia |].
  intros (Hall & _ & Hmax & _). destruct Hmade as [Hm1 Hm2]; [done | by rewrite (q_max _ _ Hq3) |]. split.
  - rewrite Hd', <- Hd3. intros Hn. destruct (Hm1 Hn) as (x & f & Hx & E). exists x, f. split; [lia | done].
  - intros t Httl Ht. rewrite Hr'. apply Hm2; [done | lia].
Qed.

End Login.

(** [PasswordHasher::verify], where it is defined. *)
Definition password_ok (password stored_hash : list Z) : bool := match Bcrypt.verify password stored_hash with Returns b => b | Throws _ => false end.

Lemma Returns_inj {A} (x y : A) : Returns x = Returns y -> x = y.
Proof. by intros [= ->]. Qed.

Lemma c_str_idem s : c_str (c_str s) = c_str s.
Proof. induction s as [| c s IH]; [done |]. cbn. destruct (c =? 0) eqn:E; [done |]. cbn. by rewrite E, IH. Qed.

Lemma password_ok_registered registered work_factor raw password h : len raw = 16 -> Forall is_byte raw -> Bcrypt.hash (Some raw) work_factor registered = Returns h ->
  password_ok password h = bool_decide (Bcrypt.digest (c_str password) (Bcrypt.cost work_factor) raw = Bcrypt.digest (c_str registered) (Bcrypt.cost work_factor) raw).
Proof.
  intros Hl Hraw Hh. rewrite hash_text in Hh by done. apply Returns_inj in Hh as <-. unfold password_ok. by rewrite verify_registered by (done || unfold Bcrypt.cost; lia).
Qed.

Section LoginWithBcrypt.
Context {D R : Type} `{AuthDb D} `{RedisStore R}.
Context (answer_of : forall T, call T -> nat -> answer) (rand : nat -> Z -> option (list Z)).
Context (private_key_loaded : bool) (jwt_sign : Z -> list Z -> list Z -> Z -> Z -> option (list Z)) (sha256_hex : list Z -> list Z).
Context (login_response : LoginError -> option (list Z * list Z * Z * Z) -> list Z).
Context (session_store_ : SessionStore) (access_token_ttl refresh_token_ttl : Z) (response_topic : list Z) (meta : KafkaMessageMeta).

Abbreviation LOGIN := (on_login private_key_loaded jwt_sign sha256_hex password_ok login_response session_store_ access_token_ttl refresh_token_ttl response_topic meta).

(** C19: whatever the servers answer, a login request is answered once and leaves the
    pool as it was. The answer is success only for a user of the table who is not
    locked and whose password bcrypt accepts, with an access token signed for that
    user; bad credentials and a locked account are reported as such and change neither the
    database nor Redis. When the servers answer, the outcome is decided by the credentials
    alone, and a successful login leaves the refresh token's row in the table and the
    session and core of the request in Redis under the user's key. Where the hash of
    the row was made by [PasswordHasher::hash] of a registered password, the login
    succeeds exactly if bcrypt gives that password's digest for the one sent. *)
Theorem login_checks_credentials email password (w : world D R) : sane answer_of -> pool_ok [] (pool w) ->
  exists w' e tokens, run_prog (handle answer_of rand) (LOGIN (mkLogin (Some email) (Some password))) w = Returns (Ok tt, w') /\
    responded response_topic meta LOGIN_RESPONSE (login_response e tokens) w w' /\
    login_result answer_of rand private_key_loaded jwt_sign sha256_hex password_ok session_store_ access_token_ttl refresh_token_ttl meta email password w w' e tokens /\
    (forall row registered work_factor raw, db_user (c_str email) (clock w) (db w) = Some row -> ~ locked row -> works answer_of rand private_key_loaded jwt_sign email w ->
     len raw = 16 -> Forall is_byte raw -> Bcrypt.hash (Some raw) work_factor registered = Returns (ur_password_hash row) ->
     e = if decide (Bcrypt.digest (c_str password) (Bcrypt.cost work_factor) raw = Bcrypt.digest (c_str registered) (Bcrypt.cost work_factor) raw) then LOGIN_NONE else BAD_CREDENTIALS).
Proof.
  intros Hsane Hp. destruct (login_spec answer_of rand private_key_loaded jwt_sign sha256_hex password_ok login_response session_store_ access_token_ttl refresh_token_ttl
    response_topic meta email password w Hsane Hp) as (w' & e & tokens & E & Hsent & Hres). exists w', e, tokens. split_and!; [done.. |].
  intros row registered work_factor raw Hrow Hfree Hworks Hl Hraw Hhash. pose proof (password_ok_registered registered work_factor raw (c_str password) _ Hl Hraw Hhash) as Hok.
  rewrite c_str_idem in Hok. destruct Hres as [row' ? ? ? ? ? E1 _ Hb | E1 | row' E1 Hlock | row' E1 _ Hb | Hn]; try congruence.
  - rewrite Hrow in E1. injection E1 as <-. rewrite Hb in Hok. case_decide; [done |]. by rewrite bool_decide_false in Hok.
  - rewrite Hrow in E1. injection E1 as <-. rewrite Hb in Hok. case_decide; [| done]. by rewrite bool_decide_true in Hok.
Qed.

End LoginWithBcrypt.

(** ** Logout *)

(** The defaults of [AuthConfig]. *)
Definition default_store : SessionStore := mkSessionStore (bytes_of "auth:session:") (bytes_of "jwt:blacklist:") 86400.

(** The gateway's [EXISTS jwt:blacklist:{jti}] on the same Redis, at the time [t]. *)
Definition gateway_exists {R} `{RedisStore R} (t : Z) (jti : list Z) (r : R) : Result Z * R :=
  (Ok (match rs_get (bytes_of "jwt:blacklist:" ++ jti) t r with Some _ => 1 | None => 0 end), r).

Lemma valid_hash_valid_jti h : is_valid_token_hash h = true -> Jwt.is_valid_jti h = true.
Proof.
  unfold is_valid_token_hash, Jwt.is_valid_jti. destruct h; [done |]. destruct (128 <? _); [done |]. rewrite !forallb_forall.
  intros Hall x Hx. specialize (Hall x Hx). unfold token_hash_char in Hall. unfold Jwt.jti_char. by rewrite Hall.
Qed.

Section Logout.
Context {D R : Type} `{AuthDb D} `{RedisStore R}.
Context (answer_of : forall T, call T -> nat -> answer) (rand : nat -> Z -> option (list Z)).
Context (public_key_loaded : bool) (jwt_verify : list Z -> Z -> jwt_outcome) (jwt_expiry : list Z -> option Z).
Context (logout_response : LogoutError -> list Z) (response_topic : list Z) (meta : KafkaMessageMeta).
Context (gateway_verify : list Z -> Result Jwt.JwtClaims) (is_sensitive : Z -> bool) (config : Gateway.AuthConfig).

Abbreviation W := (world D R).
Abbreviation RUNS := (runs (D := D) (R := R) answer_of rand).
Abbreviation LOGOUT := (on_logout public_key_loaded jwt_verify jwt_expiry logout_response default_store response_topic meta).


End Logout.

(** ** A concrete deployment *)

Module AuthExample.

Definition ok_answer : answer := mkAnswer true (mkReply true true false) false 1000.
Definition ok_answers (T : Type) (c : call T) (n : nat) : answer := ok_answer.
Definition rand_bytes (i : nat) (n : Z) : option (list Z) := Some (replicate (Z.to_nat n) (Z.of_nat i mod 256)).
Definition sign (u : Z) (e j : list Z) (t t' : Z) : option (list Z) := Some [1].
Definition login_bytes (e : LoginError) (_ : option (list Z * list Z * Z * Z)) : list Z :=
  match e with LOGIN_NONE => [0] | BAD_CREDENTIALS => [1] | ACCOUNT_LOCKED => [2] | LOGIN_INTERNAL_ERROR => [3] end.
Definition logout_bytes (e : LogoutError) : list Z := match e with LOGOUT_NONE => [0] | INVALID_TOKEN => [1] end.
Definition refresh_bytes (e : RefreshTokenError) (_ : option (list Z * Z * list Z)) : list Z :=
  match e with REFRESH_NONE => [0] | TOKEN_INVALID => [1] | TOKEN_EXPIRED => [2] | TOKEN_REVOKED => [3] | REFRESH_INTERNAL_ERROR => [4] end.
Definition meta (session : Z) : KafkaMessageMeta := mkMeta 1 3 77 0 session 0 0.
Definition verify (token : list Z) (now : Z) : jwt_outcome := Verified (Jwt.mkDecoded (Some [55]) (Some [64]) (Some [97; 98]) (Some (900 * 10 ^ 9))) (Some 0).

(** User 7, with the hash of a password and the refresh tokens 8, revoked, and 9, of one
    family. *)
Definition tables_with (password_hash : list Z) : tables :=
  mkTables {[ [64] := ([55], password_hash, None) ]} (list_to_map [([8], mkToken [55] true (10 ^ 15) [6]); ([9], mkToken [55] false (10 ^ 15) [6])]).
Definition world_with (password_hash : list Z) : world tables key_store := mkWorld (tables_with password_hash) (mkStore ∅ ∅) (make_pool 1 60) ∅ 1000 0 [].
Definition world0 : world tables key_store := world_with [5].

(** The hash of "secret". *)
Definition secret_hash : list Z := Bcrypt.salt_text (Bcrypt.cost 4) Bcrypt.example_salt ++ Bcrypt.digest (c_str (bytes_of "secret")) (Bcrypt.cost 4) Bcrypt.example_salt.

Definition login := on_login true sign id password_ok login_bytes default_store 900 604800 [1].
Definition logout := on_logout true verify (λ _, Some (900 * 10 ^ 9)) logout_bytes default_store [1].
Definition refresh := on_refresh_token true sign id refresh_bytes default_store 900 604800 [1].

Lemma ok_sane : sane ok_answers.
Proof. done. Qed.
Lemma pool0_ok : pool_ok [] (pool world0).
Proof. by apply make_pool_ok. Qed.
Lemma example_bytes : Forall is_byte Bcrypt.example_salt.
Proof. unfold Bcrypt.example_salt. solve_Forall. Qed.
Lemma secret_row h : db_user (c_str [64]) (clock (world_with h)) (db (world_with h)) = Some (mkUser [55] h None).
Proof. reflexivity. Qed.
Lemma secret_free : ~ locked (mkUser [55] secret_hash None).
Proof. by intros ?. Qed.
Lemma secret_hash_made : Bcrypt.hash (Some Bcrypt.example_salt) 4 (bytes_of "secret") = Returns (ur_password_hash (mkUser [55] secret_hash None)).
Proof. apply hash_text; [reflexivity | apply example_bytes]. Qed.
Lemma secret_works h : works ok_answers rand_bytes true sign [64] (world_with h).
Proof.
  split_and!; [done | | done |].
  - split_and!; [done | | intros; by eexists]. intros i n Hn. eexists. split; [reflexivity |]. rewrite len_replicate. lia.
  - intros row Hrow. assert (row = mkUser [55] h None) as -> by (by injection Hrow). done.
Qed.

End AuthExample.
Import AuthExample.

(** What a run ends with, evaluated without the rest of the world. *)
Definition seen {A B} (f : A -> B) (o : outcome A) : option B := match o with Returns x => Some (f x) | Throws _ => None end.
Lemma seen_returns {A B} (f : A -> B) o x b : o = Returns x -> seen f o = Some b -> f x = b.
Proof. intros -> [= <-]. done. Qed.

Lemma login_checks_credentials_witness :
  exists w' tokens, run_prog (handle ok_answers rand_bytes) (login (meta 40) (mkLogin (Some [64]) (Some (bytes_of "secret")))) (world_with secret_hash) = Returns (Ok tt, w') /\
    responded [1] (meta 40) LOGIN_RESPONSE (login_bytes LOGIN_NONE tokens) (world_with secret_hash) w'.
Proof.
  destruct (login_checks_credentials ok_answers rand_bytes true sign id login_bytes default_store 900 604800 [1] (meta 40) [64] (bytes_of "secret") (world_with secret_hash))
    as (w' & e & tokens & E & Hsent & _ & Hdecides); [exact ok_sane | by apply make_pool_ok |]. exists w', tokens. split; [exact E |].
  rewrite (Hdecides _ (bytes_of "secret") 4 Bcrypt.example_salt (secret_row secret_hash) secret_free (secret_works secret_hash) eq_refl example_bytes secret_hash_made) in Hsent.
  destruct (decide _) as [_ | Hne] in Hsent; [exact Hsent |]. exfalso. apply Hne. reflexivity.
Defined.

Lemma refresh_token_rotates_witness :
  exists w', run_prog (handle ok_answers rand_bytes) (refresh (meta 40) (Some [9])) world0 = Returns (Ok tt, w') /\
    (tr_revoked <$> db_token [9] (db w')) = Some true /\ size (tb_tokens (db w')) = 3%nat /\ pool_ok [] (pool w').
Proof.
  destruct (refresh_token_rotates ok_answers rand_bytes true sign id refresh_bytes default_store 900 604800 [1] (meta 40) [9] world0)
    as (w' & e & tokens & E & Hsent & _); [exact ok_sane | done | exact pool0_ok |].
  exists w'. split; [exact E |]. split_and!; [| | apply Hsent].
  - apply (seen_returns (λ x, tr_revoked <$> db_token [9] (db x.2)) _ _ _ E). vm_compute. reflexivity.
  - apply (seen_returns (λ x, size (tb_tokens (db x.2))) _ _ _ E). vm_compute. reflexivity.
Defined.

Lemma reuse_revokes_family_witness :
  exists w', run_prog (handle ok_answers rand_bytes) (refresh (meta 40) (Some [8])) world0 = Returns (Ok tt, w') /\
    (tr_revoked <$> db_token [9] (db w')) = Some true.
Proof.
  destruct (reuse_revokes_family ok_answers rand_bytes true sign id refresh_bytes default_store 900 604800 [1] (meta 40) [8] (mkToken [55] true (10 ^ 15) [6]) 7 world0)
    as (w' & e & E & _ & He & Hdone); [exact ok_sane | exact pool0_ok | done | reflexivity | done | reflexivity |].
  assert (e = TOKEN_REVOKED) as He' by (destruct He as [-> | (_ & Hn & _)]; [done | exfalso; by apply Hn]). destruct (Hdone He') as (Hrev & _). specialize (Hrev ltac:(done)).
  exists w'. split; [exact E |]. destruct (db_token [9] (db w')) as [row |] eqn:Er; [| vm_compute in E; injection E as <-; by vm_compute in Er].
  cbn. f_equal. apply (Hrev [9] row Er). vm_compute in E. injection E as <-. vm_compute in Er. by injection Er as <-.
Defined.


(** ** Two defects of the rotation *)

Definition commit_fails (T : Type) (c : call T) (n : nat) : answer :=
  match c with TxnCommit _ => mkAnswer true (mkReply false false false) false 1000 | _ => ok_answer end.

(** When [COMMIT] fails the handler gives the connection to [discard], which destroys
    it, while the transaction object still counts as open; its destructor, when the
    coroutine returns, marks the destroyed connection as poisoned. *)
Theorem failed_commit_use_after_free :
  run_prog (handle commit_fails rand_bytes) (refresh (meta 40) (Some [9])) world0 = Throws undefined_behaviour.
Proof. vm_compute. reflexivity. Qed.

(** Two requests with one token, each past its check before the other commits: the
    [UPDATE] that revokes the token does not ask whether it is still unrevoked, so
    both are answered with success, and two tokens of the family are live. *)
Theorem concurrent_refresh_succeeds_twice :
  exists schedule w', interleave (handle ok_answers rand_bytes) schedule [refresh (meta 40) (Some [9]); refresh (meta 41) (Some [9])] world0 =
      Returns ([Ret (Ok tt); Ret (Ok tt)], w') /\
    (exists t1 t2, produced w' =
      [response source_AUTH [1] REFRESH_TOKEN_RESPONSE DIRECTION_RESPONSE 77 3 40 (refresh_bytes REFRESH_NONE None) [] t1;
       response source_AUTH [1] REFRESH_TOKEN_RESPONSE DIRECTION_RESPONSE 77 3 41 (refresh_bytes REFRESH_NONE None) [] t2]) /\
    length (filter (λ '(_, r), tr_revoked r = false) (map_to_list (tb_tokens (db w')))) = 2%nat.
Proof.
  exists ([0; 1; 0; 1] ++ replicate 20 0 ++ replicate 20 1)%nat. destruct (interleave _ _ _ _) as [[ps w'] |] eqn:E.
  2:{ apply (f_equal (seen (λ _, tt))) in E. vm_compute in E. done. }
  exists w'. split_and!.
  - f_equal. f_equal. apply (seen_returns fst _ _ _ E). vm_compute. reflexivity.
  - exists 0, 0. apply (seen_returns (λ x, produced x.2) _ _ _ E). vm_compute. reflexivity.
  - apply (seen_returns (λ x, length (filter (λ '(_, r), tr_revoked r = false) (map_to_list (tb_tokens (db x.2))))) _ _ _ E). vm_compute. reflexivity.
Qed.
