(* ===== verification/ChatService.v ===== *)
(** * The chat service

    The eight handlers of [ChatService] (apex_services/chat-svc/src/chat_service.cpp)
    and the checks of chat_logic.hpp. A handler is a [prog] over [call]: a statement
    sent to PostgreSQL, a Redis command or script, a message given to Kafka. The
    tables are the class [ChatDb]; Redis is [RedisStore] of [ServiceBase]; the
    FlatBuffers builders are a record of functions. *)

From S2P Require Import Prelude ErrorCode Text KafkaEnvelope GatewayPipeline WireHeader FrameCodec Protocol GatewayState GatewayService ServiceBase AuthService.
Import Kafka Base.

Module Chat.

(** ** Checks *)

Inductive Validation : Type := VALID | EMPTY | TOO_LONG.
Inductive JoinRoomResult : Type := JOINED | ALREADY_IN | ROOM_IS_FULL.

Definition validate_message_content (content_size max_length : Z) : Validation :=
  if content_size =? 0 then EMPTY else if max_length <? content_size then TOO_LONG else VALID.
Definition validate_room_name (name_size max_length : Z) : Validation :=
  if name_size =? 0 then EMPTY else if max_length <? name_size then TOO_LONG else VALID.
Definition interpret_join_result (lua_result : Z) : JoinRoomResult :=
  if lua_result =? -1 then ALREADY_IN else if lua_result =? 0 then ROOM_IS_FULL else JOINED.

Definition size_of (s : option (list Z)) : Z := match s with Some s => len s | None => 0 end.

Definition safe_parse_u64 (sv : list Z) : Result Z := match from_chars sv with Some n => Ok n | None => Err InvalidMessage end.

(** The text before the first colon and, if there is one, the text after it. *)
Fixpoint split_colon (sv : list Z) : list Z * option (list Z) :=
  match sv with
  | [] => ([], None)
  | c :: sv => if c =? 58 then ([], Some sv) else let '(a, b) := split_colon sv in (c :: a, b)
  end.

Record SessionCore : Type := mkSessionCore { sc_session_id : Z; sc_core_id : Z }.

Definition parse_session_core (sv : list Z) : Result SessionCore :=
  let '(before, after) := split_colon sv in
  match safe_parse_u64 before with
  | Err e => Err e
  | Ok sid =>
      match after with
      | None => Ok (mkSessionCore sid 0)
      | Some after => match safe_parse_u64 after with Err e => Err e | Ok cid => Ok (mkSessionCore sid (u16 cid)) end
      end
  end.

(** [[msg_id(u32 BE)]] and the payload. *)
Definition build_pubsub_payload (msg_id : Z) (fbs_payload : list Z) : list Z :=
  [Z.land (Z.shiftr msg_id 24) 255; Z.land (Z.shiftr msg_id 16) 255; Z.land (Z.shiftr msg_id 8) 255; Z.land msg_id 255] ++ fbs_payload.

(** ** Messages *)

Inductive ChatRoomError : Type :=
| ROOM_OK | ROOM_NOT_FOUND | ROOM_FULL | ALREADY_IN_ROOM | NOT_A_MEMBER | ROOM_NAME_TOO_LONG | ROOM_NAME_EMPTY | ROOM_INTERNAL_ERROR.
Inductive ChatMessageError : Type :=
| MESSAGE_OK | NOT_IN_ROOM | MESSAGE_TOO_LONG | EMPTY_MESSAGE | TARGET_OFFLINE | PERMISSION_DENIED | MESSAGE_INTERNAL_ERROR.

Definition CREATE_ROOM_RESPONSE : Z := 2002.
Definition JOIN_ROOM_RESPONSE : Z := 2004.
Definition LEAVE_ROOM_RESPONSE : Z := 2006.
Definition LIST_ROOMS_RESPONSE : Z := 2008.
Definition SEND_MESSAGE_RESPONSE : Z := 2012.
Definition CHAT_MESSAGE : Z := 2013.
Definition WHISPER_RESPONSE : Z := 2022.
Definition WHISPER_MESSAGE : Z := 2023.
Definition CHAT_HISTORY_RESPONSE : Z := 2032.
Definition GLOBAL_BROADCAST_RESPONSE : Z := 2042.
Definition GLOBAL_CHAT_MESSAGE : Z := 2043.
Definition source_CHAT : Z := 2.
Definition GLOBAL_CHAT_CHANNEL : list Z := bytes_of "pub:global:chat".

Record RoomInfo : Type := mkRoomInfo { ri_id : Z; ri_name : list Z; ri_members : Z; ri_max : Z; ri_owner : Z }.
Record HistoryMessage : Type := mkHistory { hm_id : Z; hm_sender : Z; hm_name : list Z; hm_content : list Z; hm_timestamp : Z }.

(** The builders flatc generates from the schemas. *)
Record ChatFbs : Type := mkFbs {
  CreateRoomResponse : ChatRoomError -> option (Z * list Z) -> list Z;
  JoinRoomResponse : ChatRoomError -> Z -> option (list Z * Z) -> list Z;
  LeaveRoomResponse : ChatRoomError -> Z -> list Z;
  ListRoomsResponse : ChatRoomError -> list RoomInfo -> Z -> list Z;
  SendMessageResponse : ChatMessageError -> Z -> list Z;
  WhisperResponse : ChatMessageError -> Z -> list Z;
  ChatHistoryResponse : ChatMessageError -> list HistoryMessage -> bool -> list Z;
  GlobalBroadcastResponse : ChatMessageError -> Z -> list Z;
  ChatMessage : Z -> Z -> list Z -> list Z -> Z -> option (list Z) -> list Z;
  WhisperMessage : Z -> list Z -> list Z -> Z -> list Z;
  GlobalChatMessage : Z -> list Z -> list Z -> Z -> list Z -> list Z;
}.

Record Config : Type := mkConfig {
  response_topic : list Z; persist_topic : list Z; max_room_members : Z; max_message_length : Z;
  history_page_size : Z; max_room_name_length : Z; max_list_rooms_limit : Z;
}.

(** ** Calls *)

(** Rows as text: room_id, room_name, max_members, owner_id; and message_id,
    sender_id, sender_name, content, ts. *)
Record room_row : Type := mkRoomRow { rr_id : list Z; rr_name : list Z; rr_max : list Z; rr_owner : list Z }.
Record message_row : Type := mkMessageRow { mr_id : list Z; mr_sender : list Z; mr_name : list Z; mr_content : list Z; mr_ts : list Z }.

Inductive call : Type -> Type :=
| InsertRoom (name : list Z) (max_members owner : Z) : call (Result (option (list Z)))
| FindRoom (room_id : Z) : call (Result (option (list Z * list Z)))
| CountRooms : call (Result (option (list Z)))
| PageRooms (limit offset : Z) : call (Result (list room_row))
| FindMessages (room_id : Z) (before : option Z) (limit : Z) : call (Result (list message_row))
| SAdd (key member : list Z) : call (Result unit)
| EvalJoin (key member : list Z) (max_members : Z) : call (Result (option Z))
| EvalLeave (key member : list Z) : call (Result (option Z))
| SCard (key : list Z) : call (Result Z)
| SIsMember (key member : list Z) : call (Result Z)
| Get (key : list Z) : call (Result (option (list Z)))
| Publish (channel payload : list Z) : call (Result unit)
| SystemClock : call Z
| Produce (m : message) : call (Result unit)
| Persist (topic key bytes : list Z) : call (Result unit).

Abbreviation chat_prog := (prog call (Result unit)).

(** ** Handlers *)

Definition members_key (room_id : Z) : list Z := bytes_of "chat:room:" ++ to_text room_id ++ bytes_of ":members".
Definition room_channel (room_id : Z) : list Z := bytes_of "pub:chat:room:" ++ to_text room_id.

Section Handlers.
Context (fbs : ChatFbs) (config_ : Config).

Definition current_timestamp_ms {A} (k : Z -> prog call A) : prog call A := await now <- SystemClock; k (now ÷ 10 ^ 6).

Definition send_response_with_flags (msg_id flags corr_id core_id session_id : Z) (fbs_payload : list Z) (k : chat_prog) : chat_prog :=
  await now <- SystemClock;
  await _ <- Produce (response source_CHAT (response_topic config_) msg_id flags corr_id core_id session_id fbs_payload [] (now ÷ 10 ^ 6));
  k.

(** The response to the request, with which the handler ends. *)
Definition send_response (msg_id : Z) (meta : KafkaMessageMeta) (fbs_payload : list Z) : chat_prog :=
  send_response_with_flags msg_id DIRECTION_RESPONSE (mm_corr_id meta) (mm_core_id meta) (mm_session_id meta) fbs_payload (Ret (Ok tt)).

Definition send_create_room_error meta (e : ChatRoomError) : chat_prog := send_response CREATE_ROOM_RESPONSE meta (CreateRoomResponse fbs e None).
Definition send_join_room_error meta (e : ChatRoomError) (room_id : Z) : chat_prog := send_response JOIN_ROOM_RESPONSE meta (JoinRoomResponse fbs e room_id None).
Definition send_leave_room_error meta (e : ChatRoomError) (room_id : Z) : chat_prog := send_response LEAVE_ROOM_RESPONSE meta (LeaveRoomResponse fbs e room_id).
Definition send_list_rooms_error meta (e : ChatRoomError) : chat_prog := send_response LIST_ROOMS_RESPONSE meta (ListRoomsResponse fbs e [] 0).
Definition send_message_error meta (e : ChatMessageError) : chat_prog := send_response SEND_MESSAGE_RESPONSE meta (SendMessageResponse fbs e 0).
Definition send_whisper_error meta (e : ChatMessageError) : chat_prog := send_response WHISPER_RESPONSE meta (WhisperResponse fbs e 0).
Definition send_history_error meta (e : ChatMessageError) : chat_prog := send_response CHAT_HISTORY_RESPONSE meta (ChatHistoryResponse fbs e [] false).
Definition send_global_broadcast_error meta (e : ChatMessageError) : chat_prog :=
  send_response GLOBAL_BROADCAST_RESPONSE meta (GlobalBroadcastResponse fbs e 0).

Definition on_create_room (meta : KafkaMessageMeta) (room_name : option (list Z)) (req_max_members : Z) : chat_prog :=
  match validate_room_name (size_of room_name) (max_room_name_length config_) with
  | EMPTY => send_create_room_error meta ROOM_NAME_EMPTY
  | TOO_LONG => send_create_room_error meta ROOM_NAME_TOO_LONG
  | VALID =>
      let room_name_str := default [] room_name in
      let max_members := if 0 <? req_max_members then req_max_members else max_room_members config_ in
      await pg_result <- InsertRoom (c_str room_name_str) max_members (mm_user_id meta);
      match pg_result with
      | Err _ | Ok None => send_create_room_error meta ROOM_INTERNAL_ERROR
      | Ok (Some value) =>
          match safe_parse_u64 value with
          | Err _ => send_create_room_error meta ROOM_INTERNAL_ERROR
          | Ok room_id =>
              await _ <- SAdd (members_key room_id) (to_text (mm_user_id meta));
              send_response CREATE_ROOM_RESPONSE meta (CreateRoomResponse fbs ROOM_OK (Some (room_id, room_name_str)))
          end
      end
  end.

Definition on_join_room (meta : KafkaMessageMeta) (room_id : Z) : chat_prog :=
  await room_result <- FindRoom room_id;
  match room_result with
  | Err _ | Ok None => send_join_room_error meta ROOM_NOT_FOUND room_id
  | Ok (Some (room_name, max_text)) =>
      match safe_parse_u64 max_text with
      | Err e => Ret (Err e)
      | Ok max =>
          await eval_result <- EvalJoin (members_key room_id) (to_text (mm_user_id meta)) (u32 max);
          match eval_result with
          | Err _ | Ok None => Ret (Err AdapterError)
          | Ok (Some lua_result) =>
              match interpret_join_result lua_result with
              | ALREADY_IN => send_join_room_error meta ALREADY_IN_ROOM room_id
              | ROOM_IS_FULL => send_join_room_error meta ROOM_FULL room_id
              | JOINED => send_response JOIN_ROOM_RESPONSE meta (JoinRoomResponse fbs ROOM_OK room_id (Some (room_name, u32 lua_result)))
              end
          end
      end
  end.

Definition on_leave_room (meta : KafkaMessageMeta) (room_id : Z) : chat_prog :=
  await eval_result <- EvalLeave (members_key room_id) (to_text (mm_user_id meta));
  match eval_result with
  | Err _ | Ok None => Ret (Err AdapterError)
  | Ok (Some n) =>
      if n =? 0 then send_leave_room_error meta NOT_A_MEMBER room_id
      else send_response LEAVE_ROOM_RESPONSE meta (LeaveRoomResponse fbs ROOM_OK room_id)
  end.

(** The loop over the rows of the page; a row that does not parse is skipped. *)
Fixpoint list_loop (rows : list room_row) (acc : list RoomInfo) (k : list RoomInfo -> chat_prog) : chat_prog :=
  match rows with
  | [] => k acc
  | r :: rows =>
      match safe_parse_u64 (rr_id r), safe_parse_u64 (rr_max r), safe_parse_u64 (rr_owner r) with
      | Ok rid, Ok rmax, Ok rowner =>
          await scard <- SCard (members_key rid);
          let member_count := match scard with Ok n => u32 n | Err _ => 0 end in
          list_loop rows (acc ++ [mkRoomInfo rid (rr_name r) member_count (u32 rmax) rowner]) k
      | _, _, _ => list_loop rows acc k
      end
  end.

Definition list_page (meta : KafkaMessageMeta) (offset limit total_count : Z) : chat_prog :=
  await rooms_result <- PageRooms limit offset;
  match rooms_result with
  | Err _ => send_list_rooms_error meta ROOM_INTERNAL_ERROR
  | Ok rows => list_loop rows [] (λ rooms, send_response LIST_ROOMS_RESPONSE meta (ListRoomsResponse fbs ROOM_OK rooms total_count))
  end.

Definition on_list_rooms (meta : KafkaMessageMeta) (offset req_limit : Z) : chat_prog :=
  let limit := Z.min req_limit (max_list_rooms_limit config_) in
  await count_result <- CountRooms;
  match count_result with
  | Ok (Some value) => match safe_parse_u64 value with Err e => Ret (Err e) | Ok n => list_page meta offset limit (u32 n) end
  | _ => list_page meta offset limit 0
  end.

Definition on_send_message (meta : KafkaMessageMeta) (room_id : Z) (content : option (list Z)) : chat_prog :=
  match validate_message_content (size_of content) (max_message_length config_) with
  | EMPTY => send_message_error meta EMPTY_MESSAGE
  | TOO_LONG => send_message_error meta MESSAGE_TOO_LONG
  | VALID =>
      let content_str := default [] content in
      current_timestamp_ms (λ timestamp,
        let user_id_str := to_text (mm_user_id meta) in
        await is_member <- SIsMember (members_key room_id) user_id_str;
        match is_member with
        | Err _ => Ret (Err AdapterError)
        | Ok n =>
            if n =? 0 then send_message_error meta NOT_IN_ROOM
            else
              let channel := room_channel room_id in
              await _ <- Publish channel (build_pubsub_payload CHAT_MESSAGE (ChatMessage fbs room_id (mm_user_id meta) user_id_str content_str timestamp (Some channel)));
              await _ <- Persist (persist_topic config_) (to_text room_id) (ChatMessage fbs room_id (mm_user_id meta) user_id_str content_str timestamp None);
              send_response SEND_MESSAGE_RESPONSE meta (SendMessageResponse fbs MESSAGE_OK timestamp)
        end)
  end.

Definition on_whisper (meta : KafkaMessageMeta) (target_user_id : Z) (content : option (list Z)) : chat_prog :=
  match validate_message_content (size_of content) (max_message_length config_) with
  | EMPTY => send_whisper_error meta EMPTY_MESSAGE
  | TOO_LONG => send_whisper_error meta MESSAGE_TOO_LONG
  | VALID =>
      if target_user_id =? mm_user_id meta then send_whisper_error meta PERMISSION_DENIED
      else
        let content_str := default [] content in
        current_timestamp_ms (λ timestamp,
          let sender_id := mm_user_id meta in
          await session_result <- Get (bytes_of "session:user:" ++ to_text target_user_id);
          match session_result with
          | Err _ | Ok None => send_whisper_error meta TARGET_OFFLINE
          | Ok (Some str) =>
              match parse_session_core str with
              | Err e => Ret (Err e)
              | Ok target =>
                  send_response_with_flags WHISPER_MESSAGE (Z.lor DIRECTION_RESPONSE DELIVERY_UNICAST) 0 (sc_core_id target) (sc_session_id target)
                    (WhisperMessage fbs sender_id (to_text sender_id) content_str timestamp)
                    (send_response WHISPER_RESPONSE meta (WhisperResponse fbs MESSAGE_OK timestamp))
              end
          end)
  end.

(** A row that does not parse is skipped. *)
Definition history_message (r : message_row) : option HistoryMessage :=
  match safe_parse_u64 (mr_id r), safe_parse_u64 (mr_sender r), safe_parse_u64 (mr_ts r) with
  | Ok mid, Ok sid, Ok mts => Some (mkHistory mid sid (mr_name r) (mr_content r) mts)
  | _, _, _ => None
  end.

Definition on_chat_history (meta : KafkaMessageMeta) (room_id before_message_id req_limit : Z) : chat_prog :=
  let limit := Z.min req_limit (history_page_size config_) in
  await is_member <- SIsMember (members_key room_id) (to_text (mm_user_id meta));
  match is_member with
  | Err _ => Ret (Err AdapterError)
  | Ok n =>
      if n =? 0 then send_history_error meta NOT_IN_ROOM
      else
        let fetch_limit := u32 (limit + 1) in
        await msg_result <- FindMessages room_id (if before_message_id =? 0 then None else Some before_message_id) fetch_limit;
        match msg_result with
        | Err _ => send_history_error meta MESSAGE_INTERNAL_ERROR
        | Ok rows =>
            let has_more := to_int limit <? len rows in
            let actual_count := Z.min (len rows) (to_int limit) in
            send_response CHAT_HISTORY_RESPONSE meta (ChatHistoryResponse fbs MESSAGE_OK (omap history_message (takeZ actual_count rows)) has_more)
        end
  end.

Definition on_global_broadcast (meta : KafkaMessageMeta) (content : option (list Z)) : chat_prog :=
  match validate_message_content (size_of content) (max_message_length config_) with
  | EMPTY => send_global_broadcast_error meta EMPTY_MESSAGE
  | TOO_LONG => send_global_broadcast_error meta MESSAGE_TOO_LONG
  | VALID =>
      let content_str := default [] content in
      current_timestamp_ms (λ timestamp,
        let sender_id := mm_user_id meta in
        await _ <- Publish GLOBAL_CHAT_CHANNEL
          (build_pubsub_payload GLOBAL_CHAT_MESSAGE (GlobalChatMessage fbs sender_id (to_text sender_id) content_str timestamp GLOBAL_CHAT_CHANNEL));
        send_response GLOBAL_BROADCAST_RESPONSE meta (GlobalBroadcastResponse fbs MESSAGE_OK timestamp))
  end.

(** *** The routes of [on_start] *)

Inductive request : Type :=
| CreateRoom (room_name : option (list Z)) (max_members : Z)
| JoinRoom (room_id : Z)
| LeaveRoom (room_id : Z)
| ListRooms (offset limit : Z)
| SendMessage (room_id : Z) (content : option (list Z))
| Whisper (target_user_id : Z) (content : option (list Z))
| ChatHistory (room_id before_message_id limit : Z)
| GlobalBroadcast (content : option (list Z)).

Definition serve (meta : KafkaMessageMeta) (r : request) : chat_prog :=
  match r with
  | CreateRoom n m => on_create_room meta n m
  | JoinRoom r => on_join_room meta r
  | LeaveRoom r => on_leave_room meta r
  | ListRooms o l => on_list_rooms meta o l
  | SendMessage r c => on_send_message meta r c
  | Whisper t c => on_whisper meta t c
  | ChatHistory r b l => on_chat_history meta r b l
  | GlobalBroadcast c => on_global_broadcast meta c
  end.

End Handlers.

Definition response_id (r : request) : Z :=
  match r with
  | CreateRoom _ _ => CREATE_ROOM_RESPONSE
  | JoinRoom _ => JOIN_ROOM_RESPONSE
  | LeaveRoom _ => LEAVE_ROOM_RESPONSE
  | ListRooms _ _ => LIST_ROOMS_RESPONSE
  | SendMessage _ _ => SEND_MESSAGE_RESPONSE
  | Whisper _ _ => WHISPER_RESPONSE
  | ChatHistory _ _ _ => CHAT_HISTORY_RESPONSE
  | GlobalBroadcast _ => GLOBAL_BROADCAST_RESPONSE
  end.

End Chat.
Import Chat.

(** ** Responses on every path *)

Definition sent (T : Type) (c : call T) : option message := match c with Produce m => Some m | _ => None end.

Section OneResponse.
Context (fbs : ChatFbs) (config : Config) (meta : KafkaMessageMeta).

(** The response [msg_id] to the request, after [pushes]. *)
Definition answered (msg_id : Z) (pushes : list message) (ms : list message) : Prop :=
  exists payload now, ms = pushes ++ [response source_CHAT (response_topic config) msg_id DIRECTION_RESPONSE
    (mm_corr_id meta) (mm_core_id meta) (mm_session_id meta) payload [] (now ÷ 10 ^ 6)].

Definition whisper_push (m : message) : Prop :=
  exists core_id session_id payload now, m = response source_CHAT (response_topic config) WHISPER_MESSAGE DIRECTION_RESPONSE 0 core_id session_id payload [] (now ÷ 10 ^ 6).

(** Success with the response, or an error and nothing sent. *)
Definition outcome_of (r : request) (ms : list message) (res : Result unit) : Prop :=
  (res = Ok tt /\ (answered (response_id r) [] ms \/
     match r with Whisper _ _ => exists push, whisper_push push /\ answered (response_id r) [push] ms | _ => False end)) \/
  (exists e, res = Err e /\ ms = []).

Abbreviation ends r := (on_paths sent (outcome_of r) []).

Lemma send_ends r payload : ends r (send_response config (response_id r) meta payload).
Proof. intros now ?. left. split; [done |]. left. by exists payload, now. Qed.

Lemma fail_ends r e : ends r (Ret (Err e)).
Proof. right. by exists e. Qed.



Lemma list_loop_ends o l rows acc k : (forall rooms, ends (ListRooms o l) (k rooms)) -> ends (ListRooms o l) (list_loop rows acc k).
Proof.
  intros Hk. revert acc. induction rows as [| row rows IH]; intros acc; cbn [list_loop]; [apply Hk |].
  destruct (safe_parse_u64 (rr_id row)), (safe_parse_u64 (rr_max row)), (safe_parse_u64 (rr_owner row)); try apply IH. intros ?. apply IH.
Qed.

Lemma list_ends o l : ends (ListRooms o l) (on_list_rooms fbs config meta o l).
Proof.
  assert (Hpage : forall lim n, ends (ListRooms o l) (list_page fbs config meta o lim n)).
  { intros lim n [rows | e]; [| apply send_ends]. apply list_loop_ends. intros rooms. apply send_ends. }
  intros [[value |] | e]; cbn [sent]; [destruct (safe_parse_u64 value); [apply Hpage | apply fail_ends] | apply Hpage..].
Qed.

Lemma whisper_ends t c : ends (Whisper t c) (on_whisper fbs config meta t c).
Proof.
  unfold on_whisper. destruct (validate_message_content _ _); [| apply send_ends..]. destruct (_ =? _); [apply send_ends |].
  intros now. intros [[str |] | e]; try apply send_ends. cbn [sent]. destruct (parse_session_core str) as [target | e]; [| apply fail_ends].
  intros now2 ? now3 ?. left. split; [done |]. right. eexists. split; [by eexists _, _, _, now2 |]. by eexists _, now3.
Qed.

(** A request to the chat service is answered exactly once or fails before
    anything is sent: whatever PostgreSQL, Redis and Kafka answer, a handler that
    returns success has sent one response, of the request's message id and with its
    correlation id, core and session, preceded only in a whisper by the push to the
    other user; one that returns an error has sent nothing. *)
Theorem chat_answers_once r : ends r (serve fbs config meta r).
Proof.
  destruct r; cbn [serve].
  - unfold on_create_room. destruct (validate_room_name _ _); [| apply send_ends..]. intros [[value |] | e]; try apply send_ends.
    cbn [sent]. destruct (safe_parse_u64 value); [| apply send_ends]. intros ?. apply send_ends.
  - intros [[[name max] |] | e]; try apply send_ends. cbn [sent]. destruct (safe_parse_u64 max); [| apply fail_ends].
    intros [[n |] | e]; try apply fail_ends. cbn [sent]. destruct (interpret_join_result n); apply send_ends.
  - intros [[n |] | e]; try apply fail_ends. cbn [sent]. destruct (n =? 0); apply send_ends.
  - apply list_ends.
  - unfold on_send_message. destruct (validate_message_content _ _); [| apply send_ends..]. intros now [n | e]; [| apply fail_ends].
    cbn [sent]. destruct (n =? 0); [apply send_ends |]. intros ? ?. apply send_ends.
  - apply whisper_ends.
  - intros [n | e]; [| apply fail_ends]. cbn [sent]. destruct (n =? 0); [apply send_ends |]. intros [rows | e]; apply send_ends.
  - unfold on_global_broadcast. destruct (validate_message_content _ _); [| apply send_ends..]. intros now ?. apply send_ends.
Qed.

End OneResponse.

(** ** The world *)

(** The statements of the service on [chat_rooms] and [chat_messages]. [room_id] is a
    serial key; [max_members] is an [INTEGER], so a larger value is refused. *)
Class ChatDb (D : Type) : Type := {
  cd_room : Z -> D -> option (list Z * Z);
  cd_insert : list Z -> Z -> Z -> D -> option (Z * D);
  cd_count : D -> Z;
  cd_page : Z -> Z -> D -> list room_row;
  cd_messages : Z -> option Z -> Z -> D -> list message_row;
  cd_room_range : forall id name max d, cd_room id d = Some (name, max) -> 0 < id < 2 ^ 63 /\ - 2 ^ 31 <= max < 2 ^ 31;
  cd_insert_new : forall name max owner d id d', cd_insert name max owner d = Some (id, d') -> cd_room id d = None /\ cd_room id d' = Some (name, max);
  cd_insert_other : forall name max owner d id d' id', cd_insert name max owner d = Some (id, d') -> id' <> id -> cd_room id' d' = cd_room id' d
}.

(** The decimal text of an [INTEGER]. *)
Definition int_text (n : Z) : list Z := if n <? 0 then 45 :: to_text (- n) else to_text n.

Record answer : Type := mkAnswer { a_ok : bool; a_applied : bool; a_delay : Z }.

Module ChatWorld.

Record world (D R : Type) : Type := mkWorld {
  db : D; redis : R; published : list (list Z * list Z); produced : list message; persisted : list (list Z * list Z * list Z); clock : Z; ticks : nat;
}.
Arguments mkWorld {D R}.
Arguments db {D R}. Arguments redis {D R}. Arguments published {D R}. Arguments produced {D R}. Arguments persisted {D R}.
Arguments clock {D R}. Arguments ticks {D R}.

Section Handle.
Context {D R : Type} `{ChatDb D} `{RedisStore R}.
Context (answer_of : forall T, call T -> nat -> answer).

Abbreviation W := (world D R).

(** [JOIN_ROOM_LUA] and [LEAVE_ROOM_LUA]; a script runs alone. *)
Definition join_lua (key member : list Z) (max_members : Z) (r : R) : Z * R :=
  if bool_decide (member ∈ rs_members key r) then (-1, r)
  else if max_members <=? Z.of_nat (size (rs_members key r)) then (0, r)
  else let r := rs_sadd key member r in (Z.of_nat (size (rs_members key r)), r).
Definition leave_lua (key member : list Z) (r : R) : Z * R :=
  if bool_decide (member ∈ rs_members key r) then (1, rs_srem key member r) else (0, r).

Definition elapse (a : answer) (w : W) : W :=
  mkWorld (db w) (redis w) (published w) (produced w) (persisted w) (clock w + Z.max 0 (a_delay a)) (S (ticks w)).

(** A command whose work may be done although its reply is lost. *)
Definition redis_command {T} (a : answer) (f : R -> T * R) (w : W) : Result T * W :=
  let '(t, r) := f (redis w) in
  let r := if a_ok a || a_applied a then r else redis w in
  (if a_ok a then Ok t else Err AdapterError, elapse a (mkWorld (db w) r (published w) (produced w) (persisted w) (clock w) (ticks w))).

Definition pg_read {T} (a : answer) (f : D -> T) (w : W) : Result T * W := (if a_ok a then Ok (f (db w)) else Err AdapterError, elapse a w).

Definition handle_at (T : Type) (c : call T) (a : answer) (w : W) : T * W :=
  match c in call T return T * W with
  | InsertRoom name max owner =>
      match cd_insert name max owner (db w) with
      | None => (Err AdapterError, elapse a w)
      | Some (id, d) =>
          let d := if a_ok a || a_applied a then d else db w in
          (if a_ok a then Ok (Some (to_text id)) else Err AdapterError,
           elapse a (mkWorld d (redis w) (published w) (produced w) (persisted w) (clock w) (ticks w)))
      end
  | FindRoom id => pg_read a (λ d, match cd_room id d with Some (name, max) => Some (name, int_text max) | None => None end) w
  | CountRooms => pg_read a (λ d, Some (to_text (cd_count d))) w
  | PageRooms limit offset => pg_read a (cd_page limit offset) w
  | FindMessages room before limit => pg_read a (cd_messages room before limit) w
  | SAdd key m => redis_command a (λ r, (tt, rs_sadd key m r)) w
  | EvalJoin key m max => redis_command a (λ r, let '(n, r) := join_lua key m max r in (Some n, r)) w
  | EvalLeave key m => redis_command a (λ r, let '(n, r) := leave_lua key m r in (Some n, r)) w
  | SCard key => redis_command a (λ r, (Z.of_nat (size (rs_members key r)), r)) w
  | SIsMember key m => redis_command a (λ r, (if bool_decide (m ∈ rs_members key r) then 1 else 0, r)) w
  | Get key => redis_command a (λ r, (rs_get key (clock w) r, r)) w
  | Publish channel payload =>
      (if a_ok a then Ok tt else Err AdapterError,
       elapse a (mkWorld (db w) (redis w) (published w ++ [(channel, payload)]) (produced w) (persisted w) (clock w) (ticks w)))
  | SystemClock => (clock w, elapse (mkAnswer true false 0) w)
  | Produce m => (if a_ok a then Ok tt else Err AdapterError, elapse (mkAnswer true false 0) (mkWorld (db w) (redis w) (published w) (produced w ++ [m]) (persisted w) (clock w) (ticks w)))
  | Persist topic key bytes =>
      (if a_ok a then Ok tt else Err AdapterError,
       elapse (mkAnswer true false 0) (mkWorld (db w) (redis w) (published w) (produced w) (persisted w ++ [(topic, key, bytes)]) (clock w) (ticks w)))
  end.

Definition handle (T : Type) (c : call T) (w : W) : outcome (T * W) := Returns (handle_at T c (answer_of T c (ticks w)) w).

End Handle.
End ChatWorld.
Import ChatWorld.

(** ** Rooms are never overfull *)

Lemma members_key_inj r1 r2 : 0 <= r1 -> 0 <= r2 -> members_key r1 = members_key r2 -> r1 = r2.
Proof. intros H1 H2 E. apply app_inv_head, app_inv_tail in E. by apply to_text_inj. Qed.

Section Capacity.
Context {D R : Type} `{ChatDb D} `{RedisStore R}.
Context (answer_of : forall T, call T -> nat -> answer) (fbs : ChatFbs) (config : Config).

Abbreviation W := (world D R).

Definition fits (d : D) (r : R) : Prop := forall id name max, cd_room id d = Some (name, max) -> Z.of_nat (size (rs_members (members_key id) r)) <= max.

(** What a handler may ask for, and what it may be told, in the database [d]. *)
Definition call_ok (d : D) (T : Type) (c : call T) : Prop :=
  match c with
  | EvalJoin key _ m => exists id name, key = members_key id /\ 0 <= id /\ cd_room id d = Some (name, m)
  | InsertRoom _ _ _ | SAdd _ _ => False
  | _ => True
  end.
Definition answer_ok (d : D) (T : Type) (c : call T) : T -> Prop :=
  match c in call T return T -> Prop with
  | FindRoom id => λ r, match r with Ok (Some (name, text)) => exists max, cd_room id d = Some (name, max) /\ text = int_text max | _ => True end
  | _ => λ _, True
  end.
Fixpoint disciplined {A} (d : D) (p : prog call A) : Prop :=
  match p with Ret _ => True | Call T c k => call_ok d T c /\ forall t, answer_ok d T c t -> disciplined d (k t) end.

Lemma join_fits d r id name max m : fits d r -> 0 <= id -> cd_room id d = Some (name, max) -> fits d (join_lua (members_key id) m max r).2.
Proof.
  intros Hf Hid Hroom. unfold join_lua. case_bool_decide as Hin; [done |]. destruct (Z.leb_spec max (Z.of_nat (size (rs_members (members_key id) r)))); [done |].
  cbn [snd]. intros id' name' max' Hroom'. destruct (decide (id' = id)) as [-> | Hne].
  - rewrite Hroom in Hroom'. injection Hroom' as <- <-. rewrite rs_members_sadd, size_union, size_singleton by set_solver. lia.
  - rewrite rs_members_sadd_ne; [by eapply Hf |]. intros E. apply Hne. pose proof (cd_room_range _ _ _ _ Hroom'). apply members_key_inj in E; [done | lia..].
Qed.

Lemma leave_fits d r key m : fits d r -> fits d (leave_lua key m r).2.
Proof.
  intros Hf. unfold leave_lua. case_bool_decide; [| done]. cbn [snd]. intros id name max Hroom. specialize (Hf id name max Hroom).
  destruct (decide (key = members_key id)) as [-> |]; [| by rewrite rs_members_srem_ne].
  rewrite rs_members_srem. pose proof (subseteq_size (rs_members (members_key id) r ∖ {[m]}) (rs_members (members_key id) r) ltac:(set_solver)). lia.
Qed.

Lemma handle_fits d T (c : call T) a (w : W) : call_ok d T c -> db w = d -> fits d (redis w) ->
  let '(t, w') := handle_at T c a w in answer_ok d T c t /\ db w' = d /\ fits d (redis w').
Proof.
  intros Hc Hd Hf. destruct c; cbn [handle_at]; try done; unfold redis_command, pg_read.
  - cbn. split; [| done]. destruct (a_ok a); [| done]. rewrite Hd. destruct (cd_room room_id d) as [[name max] |]; [| done]. by exists max.
  - destruct Hc as (id & name & -> & Hid & Hroom). pose proof (join_fits d (redis w) id name max_members member Hf Hid Hroom) as Hj.
    destruct (join_lua _ _ _ _) as [n r]. cbn in *. split_and!; [done | done |]. by destruct (a_ok a || a_applied a).
  - pose proof (leave_fits d (redis w) key member Hf) as Hj. destruct (leave_lua _ _ _) as [n r]. cbn in *. split_and!; [done | done |]. by destruct (a_ok a || a_applied a).
  - cbn. split_and!; [done | done |]. by destruct (a_ok a || a_applied a).
  - cbn. split_and!; [done | done |]. by destruct (a_ok a || a_applied a).
  - cbn. split_and!; [done | done |]. by destruct (a_ok a || a_applied a).
Qed.

Lemma send_disciplined d msg_id meta payload : disciplined d (send_response config msg_id meta payload).
Proof. by repeat split. Qed.

Lemma list_loop_disciplined d rows acc k : (forall rooms, disciplined d (k rooms)) -> disciplined d (list_loop rows acc k).
Proof.
  intros Hk. revert acc. induction rows as [| row rows IH]; intros acc; cbn [list_loop]; [apply Hk |].
  destruct (safe_parse_u64 (rr_id row)), (safe_parse_u64 (rr_max row)), (safe_parse_u64 (rr_owner row)); try apply IH. split; [done |]. intros ? _. apply IH.
Qed.

Lemma join_disciplined d meta id : 0 <= id -> disciplined d (on_join_room fbs config meta id).
Proof.
  intros Hid. split; [done |]. intros [[[name text] |] | e] Ha; try apply send_disciplined. cbn in Ha. destruct Ha as (max & Hroom & ->).
  pose proof (cd_room_range _ _ _ _ Hroom) as [_ Hmax]. unfold int_text. destruct (Z.ltb_spec max 0); [done |].
  unfold safe_parse_u64. rewrite from_chars_to_text by (unfold in_width; lia). rewrite wrap_small by (unfold in_width; lia).
  split; [by exists id, name |]. intros [[n |] | e] _; try done. destruct (interpret_join_result n); apply send_disciplined.
Qed.

Definition creates (r : request) : bool := match r with CreateRoom _ _ => true | _ => false end.
(** Room identifiers come from a [uint64] field. *)
Definition room_of (r : request) : Z := match r with JoinRoom id => id | _ => 0 end.

Lemma serve_disciplined d meta r : creates r = false -> 0 <= room_of r -> disciplined d (serve fbs config meta r).
Proof.
  intros Hc Hr. destruct r; cbn [serve]; [done | by apply join_disciplined | ..].
  - split; [done |]. intros [[n |] | e] _; try done. destruct (n =? 0); apply send_disciplined.
  - assert (Hp : forall lim n, disciplined d (list_page fbs config meta offset lim n)).
    { intros lim n. split; [done |]. intros [rows | e] _; [| apply send_disciplined]. apply list_loop_disciplined. intros. apply send_disciplined. }
    split; [done |]. intros [[v |] | e] _; [destruct (safe_parse_u64 v); [apply Hp | done] | apply Hp..].
  - unfold on_send_message. destruct (validate_message_content _ _); [| apply send_disciplined..]. split; [done |]. intros now _. split; [done |].
    intros [n | e] _; [| done]. destruct (n =? 0); [apply send_disciplined |]. split; [done |]. intros ? _. split; [done |]. intros ? _. apply send_disciplined.
  - unfold on_whisper. destruct (validate_message_content _ _); [| apply send_disciplined..]. destruct (_ =? _); [apply send_disciplined |]. split; [done |].
    intros now _. split; [done |]. intros [[str |] | e] _; try apply send_disciplined. destruct (parse_session_core str); [| done].
    split; [done |]. intros ? _. split; [done |]. intros ? _. apply send_disciplined.
  - split; [done |]. intros [n | e] _; [| done]. destruct (n =? 0); [apply send_disciplined |]. split; [done |]. intros [rows | e] _; apply send_disciplined.
  - unfold on_global_broadcast. destruct (validate_message_content _ _); [| apply send_disciplined..]. split; [done |]. intros now _. split; [done |].
    intros ? _. apply send_disciplined.
Qed.

Lemma interleave_fits d schedule (ps : list (prog call (Result unit))) (w : W) : Forall (disciplined d) ps -> db w = d -> fits d (redis w) ->
  exists ps' w', interleave (handle answer_of) schedule ps w = Returns (ps', w') /\ db w' = d /\ fits d (redis w').
Proof.
  revert ps w. induction schedule as [| i schedule IH]; intros ps w Hps Hd Hf; cbn [interleave]; [by exists ps, w |].
  unfold step_prog. destruct (ps !! i) as [[a | T c k] |] eqn:Ei; cbn [outcome_bind]; try by apply IH.
  pose proof (Forall_lookup_1 _ _ _ _ Hps Ei) as [Hc Hk]. unfold handle. pose proof (handle_fits d T c (answer_of T c (ticks w)) w Hc Hd Hf) as Hh.
  destruct (handle_at T c _ w) as [t w1]. destruct Hh as (Ha & Hd1 & Hf1). cbn [outcome_bind]. apply IH; [| done | done]. by apply Forall_insert, Hk.
Qed.

(** C21: no room has more members than its limit, however the requests of any number
    of users interleave at their waits and whatever replies are lost: the check and
    the insertion are one script. (The creation of a room is not among the requests:
    it adds the owner without a check.) *)
Theorem rooms_never_overfull schedule (requests : list (KafkaMessageMeta * request)) (w : W) :
  Forall (λ '(_, r), creates r = false /\ 0 <= room_of r) requests -> fits (db w) (redis w) ->
  exists ps w', interleave (handle answer_of) schedule ((λ '(meta, r), serve fbs config meta r) <$> requests) w = Returns (ps, w') /\
    forall id name max, cd_room id (db w) = Some (name, max) -> Z.of_nat (size (rs_members (members_key id) (redis w'))) <= max.
Proof.
  intros Hreq Hf. destruct (interleave_fits (db w) schedule ((λ '(meta, r), serve fbs config meta r) <$> requests) w) as (ps & w' & E & _ & Hf'); [| done | done |].
  - apply Forall_fmap. eapply Forall_impl; [exact Hreq |]. intros [meta r] [Hc Hr]. by apply serve_disciplined.
  - exists ps, w'. split; [exact E |]. exact Hf'.
Qed.

End Capacity.

(** ** Messages reach their room *)

Section Messages.
Context {D R : Type} `{ChatDb D} `{RedisStore R}.
Context (answer_of : forall T, call T -> nat -> answer) (fbs : ChatFbs) (config : Config) (meta : KafkaMessageMeta).

Abbreviation W := (world D R).
Abbreviation RUN := (run_prog (handle (D := D) (R := R) answer_of)).

(** The rest of a run that only answers. *)
Lemma run_respond msg_id payload (w : W) :
  exists w', RUN (send_response config msg_id meta payload) w = Returns (Ok tt, w') /\ published w' = published w /\ redis w' = redis w /\
    produced w' = produced w ++ [response source_CHAT (response_topic config) msg_id DIRECTION_RESPONSE (mm_corr_id meta) (mm_core_id meta) (mm_session_id meta) payload [] (clock w ÷ 10 ^ 6)].
Proof. eexists. split; [reflexivity |]. done. Qed.

Lemma chat_message_frame n room payload : len payload <= MAX_BODY_SIZE ->
  exists frame, decode_bytes frame = Ok (mkWireHeader CURRENT_VERSION 0 CHAT_MESSAGE (len payload) 0, payload) /\
    Service.fanout n n (room_channel room) (build_pubsub_payload CHAT_MESSAGE payload) =
      (λ i, (Z.of_nat i, Service.FanoutRoom (room_channel room) frame)) <$> seq 0 (Z.to_nat n).
Proof.
  intros Hl. assert (Hid : in_width 32 CHAT_MESSAGE) by (unfold in_width, CHAT_MESSAGE; lia). eexists. split; [by apply publish_frame |].
  change (build_pubsub_payload CHAT_MESSAGE payload) with (be_bytes 4 CHAT_MESSAGE ++ payload). apply fanout_room; [done | done |]. intros E. by vm_compute in E.
Qed.

Definition valid_content (content : option (list Z)) : Prop := 0 < size_of content <= max_message_length config.

Lemma validate_spec content : validate_message_content (size_of content) (max_message_length config) = VALID <-> valid_content content.
Proof.
  unfold validate_message_content, valid_content. assert (0 <= size_of content) by (destruct content; [apply len_nonneg | done]).
  destruct (Z.eqb_spec (size_of content) 0); [split; [done | lia] |]. destruct (Z.ltb_spec (max_message_length config) (size_of content)); split; done || lia.
Qed.

(** C22: a message sent to a room is published exactly when its sender is a member at
    that time, its length is within the limit and Redis answers the membership query;
    it is published once, on the room's channel, and from there the gateway gives every
    core the frame whose decoding is the chat message with the member's own identity. *)
Theorem send_message_reaches_room room content n (w : W) :
  let user := to_text (mm_user_id meta) in
  let asked := a_ok (answer_of _ (SIsMember (members_key room) user) (S (ticks w))) in
  let message ts := ChatMessage fbs room (mm_user_id meta) user (default [] content) ts (Some (room_channel room)) in
  (forall ts, len (message ts) <= MAX_BODY_SIZE) ->
  exists res w', RUN (on_send_message fbs config meta room content) w = Returns (res, w') /\
    if decide (valid_content content /\ user ∈ rs_members (members_key room) (redis w) /\ asked = true)
    then res = Ok tt /\ exists ts bytes frame, published w' = published w ++ [(room_channel room, bytes)] /\
        decode_bytes frame = Ok (mkWireHeader CURRENT_VERSION 0 CHAT_MESSAGE (len (message ts)) 0, message ts) /\
        Service.fanout n n (room_channel room) bytes = (λ i, (Z.of_nat i, Service.FanoutRoom (room_channel room) frame)) <$> seq 0 (Z.to_nat n)
    else published w' = published w.
Proof.
  intros user asked message Hlen. pose proof (validate_spec content) as Hv. unfold on_send_message. destruct (validate_message_content _ _).
  2,3: destruct (run_respond SEND_MESSAGE_RESPONSE (SendMessageResponse fbs EMPTY_MESSAGE 0) w) as (w1 & E1 & Hp1 & _);
    destruct (run_respond SEND_MESSAGE_RESPONSE (SendMessageResponse fbs MESSAGE_TOO_LONG 0) w) as (w2 & E2 & Hp2 & _);
    (eexists _, _; split; [first [exact E1 | exact E2] |]); rewrite decide_False by (intros [Hc _]; by apply Hv in Hc); done.
  assert (Hval : valid_content content) by (by apply Hv). unfold current_timestamp_ms. cbn [run_prog handle handle_at]. set (w1 := elapse _ w).
  set (ts := clock w ÷ 10 ^ 6). unfold redis_command. fold user. change (ticks w1) with (S (ticks w)).
  change (a_ok (answer_of _ (SIsMember (members_key room) user) (S (ticks w)))) with asked. change (redis w1) with (redis w).
  destruct asked eqn:Easked; cbn [orb].
  2:{ eexists _, _. split; [reflexivity |]. rewrite decide_False by (intros (_ & _ & ?); congruence). done. }
  case_bool_decide as Hin; cbn [Z.eqb].
  - cbn [run_prog handle handle_at]. set (w2 := elapse _ _). destruct (run_respond SEND_MESSAGE_RESPONSE (SendMessageResponse fbs MESSAGE_OK ts) w2) as (w3 & E3 & Hp3 & _).
    eexists _, _. split; [exact E3 |]. rewrite decide_True by done. split; [done |].
    destruct (chat_message_frame n room (message ts) (Hlen ts)) as (frame & Hdec & Hfan). exists ts. eexists _, frame. split; [rewrite Hp3; reflexivity |]. done.
  - set (w2 := elapse _ _). destruct (run_respond SEND_MESSAGE_RESPONSE (SendMessageResponse fbs NOT_IN_ROOM 0) w2) as (w3 & E3 & Hp3 & _).
    eexists _, _. split; [exact E3 |]. rewrite decide_False by tauto. done.
Qed.

End Messages.

(** ** Whispers reach the session of the login *)

Lemma split_colon_app a b : (58 ∉ a) -> split_colon (a ++ 58 :: b) = (a, Some b).
Proof.
  induction a as [| c a IH]; intros Ha; [done |]. cbn [app split_colon]. destruct (Z.eqb_spec c 58); [set_solver |]. by rewrite IH by set_solver.
Qed.

(** The entry a login writes is read back. *)
Lemma parse_session_core_text sid core : in_width 64 sid -> in_width 16 core ->
  parse_session_core (to_text sid ++ [58] ++ to_text core) = Ok (mkSessionCore sid core).
Proof.
  intros Hs Hc. pose proof Hs as Hs'. pose proof Hc as Hc'. unfold in_width in Hs', Hc'. unfold parse_session_core. change ([58] ++ to_text core) with (58 :: to_text core). rewrite split_colon_app.
  - unfold safe_parse_u64. rewrite !from_chars_to_text by (done || (unfold in_width; lia)). by rewrite wrap_small by done.
  - destruct (to_text_digits sid) as (Hd & _); [lia |]. rewrite Forall_forall in Hd. intros Hin. by specialize (Hd 58 Hin).
Qed.

(** A push, an envelope without correlation id, goes to its session. *)
Lemma push_delivered n now b g live sessions : in_width 16 (flags_ b) -> in_width 32 (msg_id_ b) -> wf_metadata (builder_metadata now b) ->
  len (payload_ b) <= MAX_BODY_SIZE -> Kafka.core_id_ b < n -> corr_id_ b = 0 -> live (session_id_ b) = true ->
  exists t frame, Service.on_response n (Kafka.build now b) = (Ok tt, [(Kafka.core_id_ b, t)]) /\
    Service.run_task live sessions t g = ([Service.WriteFrame (session_id_ b) frame], g) /\
    decode_bytes frame = Ok (response_header (flags_ b) (msg_id_ b) (payload_ b), payload_ b).
Proof.
  intros Hf Hi Hm Hl Hn Hc Hlive. pose proof Hl as Hl'. unfold MAX_BODY_SIZE in Hl'.
  assert (Hw : wf_routing (builder_routing b)) by (split_and!; done || (unfold in_width; cbn; lia)).
  rewrite build_layout, on_response_envelope by done. cbn [corr_id core_id Kafka.session_id builder_metadata]. rewrite Hc. cbn [Z.eqb].
  rewrite (proj2 (Z.ltb_lt _ _)) by done. set (env := envelope_bytes _ _ _ _).
  destruct (envelope_bytes_read _ _ (reply_topic_ b) (payload_ b) Hw Hm) as (_ & _ & _ & Hpay). fold env in Hpay. cbn [flags builder_routing] in Hpay.
  eexists _, (frame_bytes (response_header (flags_ b) (msg_id_ b) (payload_ b)) (payload_ b)). split; [reflexivity |]. split.
  - cbn [Service.run_task]. rewrite Hlive. cbn [negb with_flags flags builder_routing msg_id].
    rewrite payload_offset_le by (apply Z.ltb_ge, envelope_bytes_len). rewrite Hpay, build_wire_response_bytes by lia.
    unfold response_header. cbn [with_flags flags]. by rewrite error_bit_sent by done.
  - rewrite <- (app_nil_r (frame_bytes _ _)). apply decode_frame. by apply response_header_wf.
Qed.

Section Whispers.
Context {D R : Type} `{ChatDb D} `{RedisStore R}.
Context (answer_of : forall T, call T -> nat -> answer) (fbs : ChatFbs) (config : Config) (meta : KafkaMessageMeta).

(** A whisper reaches the session its target logged in from. If Redis holds, under
    the key that the auth service's login writes, the session and core of that login,
    then the request is answered and the push that precedes the answer is one task
    for that core of the gateway, which sends that session one frame whose decoding
    is the whisper. *)
Theorem whisper_reaches_login target content sid core n g live sessions (w : world D R) :
  valid_content config content -> target <> mm_user_id meta ->
  a_ok (answer_of _ (Get (Auth.user_session_key target)) (S (ticks w))) = true ->
  rs_get (Auth.user_session_key target) (clock w) (redis w) = Some (to_text sid ++ [58] ++ to_text core) ->
  in_width 64 sid -> in_width 16 core -> core < n -> live sid = true ->
  let whisper := WhisperMessage fbs (mm_user_id meta) (to_text (mm_user_id meta)) (default [] content) (clock w ÷ 10 ^ 6) in
  len whisper <= MAX_BODY_SIZE ->
  exists w' push reply t frame, run_prog (handle answer_of) (on_whisper fbs config meta target content) w = Returns (Ok tt, w') /\
    produced w' = produced w ++ [push; reply] /\ answered config meta WHISPER_RESPONSE [push] [push; reply] /\
    Service.on_response n (m_bytes push) = (Ok tt, [(core, t)]) /\
    Service.run_task live sessions t g = ([Service.WriteFrame sid frame], g) /\
    decode_bytes frame = Ok (mkWireHeader CURRENT_VERSION 0 WHISPER_MESSAGE (len whisper) 0, whisper).
Proof.
  intros Hv Hne Ha Hget Hsid Hcore Hn Hlive whisper Hlen. set (a := answer_of _ (Get (Auth.user_session_key target)) (S (ticks w))) in *. unfold on_whisper. rewrite (proj2 (validate_spec config content) Hv).
  destruct (Z.eqb_spec target (mm_user_id meta)); [done |]. unfold current_timestamp_ms. cbn [run_prog handle handle_at].
  change (bytes_of "session:user:" ++ to_text target) with (Auth.user_session_key target). set (w1 := elapse _ w). unfold redis_command.
  change (ticks w1) with (S (ticks w)). change (redis w1) with (redis w). replace (clock w1) with (clock w) by (cbn; lia).
  change (answer_of _ (Get (Auth.user_session_key target)) (S (ticks w))) with a. rewrite Hget, Ha. cbn [orb].
  rewrite parse_session_core_text by done. cbn [sc_core_id sc_session_id]. fold whisper. set (w2 := elapse _ _).
  set (now := clock w2 ÷ 10 ^ 6). set (b := Kafka.payload whisper (Kafka.metadata core 0 source_CHAT sid 0 (Kafka.routing WHISPER_MESSAGE DIRECTION_RESPONSE make_builder))).
  destruct (push_delivered n now b g live sessions) as (t & frame & Hon & Hrun & Hdec); [| | | done | done | done | done |].
  - unfold in_width. vm_compute. split; discriminate || reflexivity.
  - unfold in_width. cbn. unfold WHISPER_MESSAGE. lia.
  - split_and!; cbn; try done; try (unfold in_width, METADATA_VERSION, source_CHAT; lia). by apply wrap_range.
  - eexists _, _, _, t, frame. split; [reflexivity |]. split; [cbn; rewrite <- (assoc_L (++)); reflexivity |]. split; [by eexists _, _ |]. split; [exact Hon |]. split; [exact Hrun |]. exact Hdec.
Qed.

End Whispers.

(** ** A concrete deployment *)

Module ChatExample.

(** The rooms by identifier, and the next identifier. *)
Record rooms : Type := mkRooms { rm_map : gmap Z (list Z * Z); rm_next : Z }.

Definition rm_room (id : Z) (d : rooms) : option (list Z * Z) :=
  match rm_map d !! id with
  | Some (name, max) => if decide (0 < id < 2 ^ 63 /\ - 2 ^ 31 <= max < 2 ^ 31) then Some (name, max) else None
  | None => None
  end.
Definition rm_insert (name : list Z) (max owner : Z) (d : rooms) : option (Z * rooms) :=
  if decide (0 < rm_next d < 2 ^ 63 /\ - 2 ^ 31 <= max < 2 ^ 31 /\ rm_map d !! rm_next d = None)
  then Some (rm_next d, mkRooms (<[rm_next d := (name, max)]> (rm_map d)) (rm_next d + 1)) else None.

#[global] Instance rooms_db : ChatDb rooms.
Proof.
  refine {| cd_room := rm_room; cd_insert := rm_insert; cd_count := λ d, Z.of_nat (size (rm_map d)); cd_page := λ _ _ _, []; cd_messages := λ _ _ _ _, [] |};
    unfold rm_room, rm_insert.
  - intros id name max d. destruct (rm_map d !! id) as [[n m] |]; [| done]. case_decide; [| done]. by intros [= <- <-].
  - intros name max owner d id d'. case_decide as Hc; [| done]. intros [= <- <-]. destruct Hc as (Hi & Hm & ->). cbn. rewrite lookup_insert_eq, decide_True by done. done.
  - intros name max owner d id d' id'. case_decide as Hc; [| done]. intros [= <- <-] Hne. cbn. by rewrite lookup_insert_ne.
Defined.

Definition ok_answers (T : Type) (c : call T) (n : nat) : answer := mkAnswer true false 1000.
Definition fbs : ChatFbs := mkFbs (λ _ _, [1]) (λ _ _ _, [2]) (λ _ _, [3]) (λ _ _ _, [4]) (λ _ _, [5]) (λ _ _, [6]) (λ _ _ _, [7]) (λ _ _, [8])
  (λ _ _ _ _ _ _, [9]) (λ _ _ _ _, [10]) (λ _ _ _ _ _, [11]).
Definition config : Config := mkConfig [1] [2] 100 2000 50 100 100.
Definition meta (user session : Z) : KafkaMessageMeta := mkMeta 1 3 77 0 session user 0.

(** Room 1 takes two members and has user 7; user 8 is logged in on session 40 of core 1. *)
Definition world0 : world rooms key_store :=
  mkWorld (mkRooms {[1 := ([65], 2)]} 2)
    (mkStore {[Auth.user_session_key 8 := (bytes_of "40:1", 10 ^ 15)]} {[members_key 1 := {[to_text 7]}]}) [] [] [] 1000 0.

End ChatExample.
Import ChatExample.

Lemma rooms_never_overfull_witness :
  exists ps w', interleave (handle ok_answers) [0; 1; 0; 1; 0; 1; 0; 1]%nat
      ((λ '(m, r), serve fbs config m r) <$> [(meta 8 40, JoinRoom 1); (meta 9 41, JoinRoom 1)]) world0 = Returns (ps, w') /\
    Z.of_nat (size (rs_members (members_key 1) (redis w'))) <= 2.
Proof.
  destruct (rooms_never_overfull ok_answers fbs config [0; 1; 0; 1; 0; 1; 0; 1]%nat [(meta 8 40, JoinRoom 1); (meta 9 41, JoinRoom 1)] world0)
    as (ps & w' & E & Hfit).
  - by repeat constructor.
  - intros id name max Hroom. cbn in Hroom. unfold rm_room in Hroom. cbn in Hroom. destruct (decide (id = 1)) as [-> | Hne]; [| by rewrite lookup_singleton_ne in Hroom].
    vm_compute in Hroom. injection Hroom as <- <-. by vm_compute.
  - exists ps, w'. split; [exact E |]. by apply (Hfit 1 [65]).
Defined.

Lemma send_message_reaches_room_witness :
  exists res w', run_prog (handle ok_answers) (on_send_message fbs config (meta 7 39) 1 (Some [104; 105])) world0 = Returns (res, w') /\
    exists bytes, published w' = [(room_channel 1, bytes)].
Proof.
  destruct (send_message_reaches_room ok_answers fbs config (meta 7 39) 1 (Some [104; 105]) 2 world0) as (res & w' & E & H); [by vm_compute |].
  rewrite decide_True in H; [| split_and!; [by split | by vm_compute | done]]. destruct H as (_ & ts & bytes & frame & Hp & _).
  exists res, w'. split; [exact E |]. by exists bytes.
Defined.

Lemma whisper_reaches_login_witness :
  exists w' push reply t, run_prog (handle ok_answers) (on_whisper fbs config (meta 7 39) 8 (Some [104; 105])) world0 = Returns (Ok tt, w') /\
    produced w' = [push; reply] /\ Service.on_response 2 (m_bytes push) = (Ok tt, [(1, t)]).
Proof.
  destruct (whisper_reaches_login ok_answers fbs config (meta 7 39) 8 (Some [104; 105]) 40 1 2 demo_service (λ _, true) [] world0)
    as (w' & push & reply & t & frame & E & Hp & _ & Hon & _); [by split | done | done | reflexivity | unfold in_width; lia | unfold in_width; lia | done | done | by vm_compute |].
  exists w', push, reply, t. split_and!; [exact E | exact Hp | exact Hon].
Defined.

(** ** The owner joins without a check *)

(** A room for one is created; before the owner is added, another user, who may guess
    the identifier, joins. The owner is added all the same, and the room has two
    members. *)
Theorem created_room_overfull :
  exists schedule w', interleave (handle ok_answers) schedule
      [serve fbs config (meta 7 39) (CreateRoom (Some [66]) 1); serve fbs config (meta 9 41) (JoinRoom 2)] world0 = Returns ([Ret (Ok tt); Ret (Ok tt)], w') /\
    cd_room 2 (db w') = Some ([66], 1) /\ size (rs_members (members_key 2) (redis w')) = 2%nat.
Proof.
  exists [0; 1; 1; 1; 1; 0; 0; 0]%nat. destruct (interleave _ _ _ _) as [[ps w'] |] eqn:E; vm_compute in E; [| done].
  injection E as <- <-. eexists. split; [reflexivity |]. split; vm_compute; reflexivity.
Qed.
